(* ===== verification/_CoqProject ===== *)
-Q . S2P
Prelude.v
Json.v
Orders.v
Deb.v
Rpm.v
Apk.v
Pep440.v
Matcher.v
Policy.v
Text.v
Glob.v
Effects.v
Breaker.v
Retry.v
Store.v
ResilientStore.v
Multipart.v
Paths.v
Gc.v
GcProofs.v
GcIsolation.v
AuditLog.v
AuditProofs.v
AuditPg.v
Export.v
ExportProofs.v
RegistryAudit.v
Ephemeral.v
Auth.v
Utf8.v
AuthCore.v
AuthService.v
Scim.v
AuthProofs.v
AuthTheorems.v
ScimTheorems.v
AuthReach.v
Signing.v
SigningProofs.v
Admission.v
AdmissionProofs.v
Registry.v
RegistryProofs.v
RegistryFlows.v
RegistryTheorems.v
ScanTheorems.v
Gate.v
GateProofs.v
GateTheorems.v
Promote.v
PromoteProofs.v
PromoteTheorems.v
TtlReaper.v
TtlTheorems.v
Http.v
Mirror.v
MirrorProofs.v
MirrorTheorems.v
Replication.v
ReplicationProofs.v
ReplicationTheorems.v
Webhook.v
Usage.v
UsageTheorems.v
Lazy.v
LazyTheorems.v
Rebuild.v
RebuildTheorems.v
Import.v
ImportTheorems.v
Cvss.v
Ingest.v
IngestTheorems.v
