(* ===== verification/Prelude.v ===== *)
(** * A verification library for SpectonCR

    SpectonCR is a multi-tenant OCI container registry.  Clients push and pull
    manifests and blobs over HTTP; the registry keeps them in an object store
    behind a retrying, circuit-breaking wrapper; reference counts in Postgres
    drive an online garbage collector; every write is recorded in a hash
    chained audit log that is exported with Merkle roots; a scanner matches the
    packages of an image against advisories and evaluates a policy on what it
    finds; signatures and admission policies decide what may be pulled, and
    images are promoted between repositories; usage is recorded and rolled up,
    layers are indexed for lazy pulling, and CI systems are told to rebuild;
    images are imported from other registries, and advisories from public feeds;
    an auth service authenticates callers and issues the tokens the registry
    checks.  This library models these
    parts as executable definitions, in the names of the source, and proves what
    they promise to one another.

    ** How the library is organised

    Shared ground:
    - [Prelude]: byte strings with a literal notation, [Result], the string and
      integer operations of the Rust standard library the sources use
      (slicing, [trim], decimal parsing with overflow, saturating arithmetic).
    - [Json]: JSON values and the accessors of [serde_json].
    - [Orders]: comparators and the laws of a total preorder, with instances
      for lexicographic chains, slices and padded comparison.
    - [Effects]: state and errors, [S -> S * result A E], with early return.
    - [Utf8]: [String::from_utf8] and its lossy variant; [Text]: splitting,
      joining and searching strings, [i64] arithmetic; [Glob]: what a pattern
      with stars means, for the matchers that split patterns.

    Storage ([crates/specton-resilience], [specton-common/src/storage.rs]):
    - [Breaker] models [circuit_breaker.rs], as functions and as the step
      relation of concurrent callers; [Retry] models [retry.rs].
    - [Store] is the interface: the class [ObjectStore] has the operations of
      the [object_store] crate that are called, [ObjectStoreLaws] its
      documented contract, [Memory] an instance with injected faults.
    - [ResilientStore] models [resilient_store.rs], again an [ObjectStore];
      [Multipart] models [multipart.rs]; [Paths] models the object layout.

    Garbage collection ([crates/specton-gc]): [Gc] has the manifest reader, the
    tables of [0004_online_gc.sql] as finite maps and sets, [refcount.rs],
    [reaper.rs] and [reconciler.rs]; [GcProofs] their properties for
    transactions that do not overlap; [GcIsolation] has the same transactions as
    single statements under READ COMMITTED, with row locks and open
    transactions, and what holds and fails when they do overlap.

    Audit ([crates/specton-audit], [specton-registry/src/audit.rs]):
    [AuditLog] has events, hashing, the in-memory and the Postgres sink;
    [AuditProofs] and [AuditPg] their properties; [Export] and [ExportProofs]
    the Merkle root, JSONL export and checkpoints; [RegistryAudit] the ring
    buffer in front of a sink.

    Registry ([specton-registry/src/main.rs]): [Ephemeral] has the tag lifetime
    header, [Auth] roles, claims, authorization and errors, [Registry] every
    manifest, blob, upload, listing and replication handler, each a function of
    the request and the world (object store, tables, audit log, queues);
    [serve] dispatches as the route table does.  [RegistryProofs],
    [RegistryFlows] and [RegistryTheorems] prove their properties against
    [ObjectStoreLaws] only.  [TtlReaper] has the reaper of expired tags
    ([crates/specton-ephemeral]), [TtlTheorems] its properties.

    Signatures, admission, promotion ([crates/specton-signing],
    [specton-registry/src/admission.rs], [promote.rs] and their handlers):
    [Signing] has policies, signature rows, envelopes, signers and verifiers,
    [SigningProofs] their properties; [Admission] and [AdmissionProofs] the
    evaluation of admission policies with its cache and tables; [Gate] the
    checks of a pull and the endpoints behind them, as the services that
    [Registry] calls, on a state that is an [ObjectStore] itself; [GateProofs]
    and [GateTheorems] what they promise; [Promote] the promotion of an image
    over one or two stores, [PromoteProofs] a small program logic for it,
    [PromoteTheorems] its properties.

    Other registries ([crates/specton-mirror], [crates/specton-replication],
    [specton-registry/src/webhook.rs]): [Http] is the interface of the network;
    [Mirror] has the pull-through mirror, its client, token cache and cache
    index, as a service [Registry] calls; [Replication] the health checks and
    failover reads and the worker that posts events to other regions;
    [Webhook] the worker that posts events to endpoints.  [MirrorProofs],
    [MirrorTheorems], [ReplicationProofs] and [ReplicationTheorems] have their
    properties, the last two with a network whose regions run the handlers of
    [Registry].  [Import] has the sources, the runner and the jobs of
    [crates/specton-import], [ImportTheorems] their properties.

    Background work of the registry ([crates/specton-cost],
    [crates/specton-lazy], [crates/specton-rebuild] and their endpoints in
    [main.rs]): [Usage] has the recorder, drainer, rollups and reports over the
    usage tables; [Lazy] the queue of layers to index, its workers and the
    referrers endpoint; [Rebuild] lineage, subscriptions, the daily limit and
    the requests to CI systems.  [UsageTheorems], [LazyTheorems] and
    [RebuildTheorems] have their properties, over sequences of statements of
    several workers on one database.

    Scanner ([crates/specton-scanner]): [Deb], [Rpm], [Apk], [Pep440] are the
    version comparators, [Matcher] the dispatch, the range check and the query,
    [Policy] the policy engine and suppressions, [ScanTheorems] what they
    promise.  [Cvss] has severity scores ([vulndb/severity.rs]) in IEEE double
    precision, over the specification of floats in the standard library;
    [Ingest] the three advisory feeds ([vulndb/ingest]): their records, the
    normal form of an advisory, the writers, and the runs of the ingesters;
    [IngestTheorems] their properties, with the query of [Matcher] as reader.

    Auth service ([crates/specton-auth/src/main.rs]): [AuthCore] has its
    tables, the authentication of callers, Docker scopes, group patterns and
    role resolution; [AuthService] the endpoints that issue, exchange and
    revoke tokens, the OIDC login and robot accounts; [Scim] the provisioning
    handlers and the start-up state.  [AuthProofs] holds their lemmas,
    [AuthTheorems], [ScimTheorems] and [AuthReach] what they promise, the last
    over the step relation of all handlers.

    ** What the theorems show

    - Registry: stored blobs and manifests hash to the digest in their path
      after any sequence of requests, without a mirror, and with one whose
      upstreams are honest; a request touches only the repository it
      is authorized for; uploads and pushes read back; deletes remove exactly
      the manifest and its tags; listings page through all tags once.
    - Signatures: the verifiers accept exactly attested digests, signing
      round-trips, and a pull under a blocking policy serves only images with
      a registered signature that verifies.
    - Admission: the verdict is the worst of the applicable policies, and the
      gate passes exactly when none refuses.
    - Promotion: the tag moves last and only to a complete image; nothing else
      changes but copies of source objects; permissions and policies guard it.
    - Mirror: a request out of scope reaches no upstream and is answered 404;
      upstreams are asked in order, the first answer is stored and served, and
      the last error decides between 404 and 502; with honest upstreams
      the store stays content-addressed; credentials go only where the
      configuration or a challenge of the upstream sends them.
    - Replication: an acknowledged event has reached the replica, replicas of a
      content-addressed store are content-addressed, and failover reads go to
      the healthy region of least priority.
    - Webhooks: subscribed endpoints, and only they, get numbered, signed
      attempts until one is accepted.
    - Usage: rows are moved, never lost or doubled, and a rollup leaves exact
      totals in the buckets inside its window.
    - Lazy pulling: no job has two workers, attempts are bounded, finished jobs
      stay finished, and the queue drains, but for jobs of an unknown format.
    - Rebuilds: patterns match what they mean, and no more firings go out in a
      day than the limit allows and firings of other days that fail on it.
    - Tag lifetimes: the reaper spares what has not expired when it comes to it,
      and reaps what has in a bounded number of passes.
    - Storage: through retries and the breaker the store keeps its contract; a
      chunked write is all or nothing; the breaker opens after the threshold,
      recovers, and its counters stay in bounds under any interleaving.
    - Garbage collection: committed refcounts equal the number of edges under
      every interleaving of transactions, and a cycle of the reaper deletes no
      blob whose count is not zero; a push that overlaps a reap can lose its blob.
    - Audit: appended chains verify; two different chains that both verify give
      an HMAC collision at one of their rows; equal Merkle roots of different
      leaves a collision among the nodes; exports verify and cover each row
      exactly once.
    - Auth service: a token is issued exactly under the stated conditions and
      the registry accepts from it exactly what was granted; roles follow
      policies, then groups; off-boarding leaves only [Reader]; tables stay
      well-formed in every reachable state.  Docker and CI tokens are shown
      not to fit the registry's check.
    - Scanner: the comparators are total preorders (rpm without its markers),
      the range check and query are exact, verdicts follow the counts.
    - Feeds: the rows made from the events of a range of the usual shape report
      exactly the versions the events affect; a stored advisory is reported for exactly the packages
      in its ranges and leaves the others; the score of every CVSS 3 vector is
      that of the standard, computed exactly; a run of NVD leaves ranges alone
      and comes to an end.
    - Imports: what a source offers and can be read is in the destination, and
      nothing else.
    - Some theorems state where the code departs from its comments; they are
      the properties whose doc comment says so.

    ** Fuel and bounds

    Loops that are not structural take fuel and the definitions give enough:
    the component loops of [Deb] and [Rpm] get one more than the bytes they
    consume, proved to suffice; the parsers of [Apk] and [Pep440] get the
    length of their input; [merkle_loop] the number of leaves, halved in each
    round; [retry_loop] one more than [max_retries]; [part_loop] the length of
    the payload; [delivery_loop] the retries that are left; [nvd_windows] a
    step for each window.  How many pages a feed has depends on the network:
    their number is an argument, and [nvd_terminates] shows that one more than
    the total the interface reports is enough.  Integers are [Z] with the bounds
    of their width: parsing rejects what overflows, saturating operations
    saturate, counters that wrap are reduced modulo their width.

    ** What is not under the sources

    Cryptographic hashes and MACs, JSON, base64 and JWT codecs, [chrono],
    [semver], the object store, Postgres and the network are parameters; where
    a proof relies on their documented behaviour that is a named hypothesis or
    a class of laws, and a witness instantiates it.  Reading an object is one
    operation of the interface, [get] and its body together.

    ** Not modelled

    Network protocols (peers), HTML and JSON views
    (dashboard, pilot), the Kubernetes controller (flows through a third-party
    API), the auth service's Vault client, key loading and key document,
    attestations, Vault and Notation signing, the scanner's image unpacking and
    queue, cost projections (floating point, called by nothing), SQL reports,
    metrics, logging, configuration and start-up. *)

From stdpp Require Export base option list gmap sorting.
From Stdlib Require Export Ascii ZArith Lia.

#[export] Set Warnings "-clear-no-such-hyp".

(** ** Byte strings

    A Rust [&str], [String], [&[u8]] or [Bytes] is the list of its bytes; a
    [str] is the UTF-8 encoding of the text.  [Ascii.ascii] is the type of
    8-bit values, so [list ascii] is exactly a byte sequence. *)

Declare Scope str_scope.
Delimit Scope str_scope with str.

Abbreviation str := (list ascii).

Definition str_of_bytes (l : list Byte.byte) : str := map ascii_of_byte l.
Definition bytes_of_str (s : str) : option (list Byte.byte) :=
  Some (map byte_of_ascii s).

String Notation str str_of_bytes bytes_of_str : str_scope.

Open Scope str_scope.

#[global] Instance ascii_eq_dec : EqDecision ascii := ascii_dec.
#[global] Instance ascii_countable : Countable ascii :=
  inj_countable' N_of_ascii ascii_of_N ascii_N_embedding.

(** ** Results *)

Inductive result (A E : Type) : Type :=
| Ok (a : A)
| Err (e : E).
Arguments Ok {A E} a.
Arguments Err {A E} e.

Definition result_bind {A B E} (r : result A E) (f : A -> result B E) : result B E :=
  match r with
  | Ok a => f a
  | Err e => Err e
  end.

Definition map_err {A E F} (g : E -> F) (r : result A E) : result A F :=
  match r with
  | Ok a => Ok a
  | Err e => Err (g e)
  end.

Definition ok_or {A E} (o : option A) (e : E) : result A E :=
  match o with
  | Some a => Ok a
  | None => Err e
  end.

Definition is_ok {A E} (r : result A E) : bool :=
  match r with
  | Ok _ => true
  | Err _ => false
  end.

Declare Scope result_scope.
Delimit Scope result_scope with result.

Notation "'let?' x ':=' c 'in' k" := (result_bind c (fun x => k))
  (at level 10, x pattern, c at level 100, k at level 200)
  : result_scope.

(** ** Bytes *)

Definition byte_val (c : ascii) : Z := Z.of_N (N_of_ascii c).

Definition byte_in (lo hi : Z) (c : ascii) : bool :=
  (lo <=? byte_val c)%Z && (byte_val c <=? hi)%Z.

Definition is_ascii_digit (c : ascii) : bool := byte_in 48 57 c.
Definition is_ascii_uppercase (c : ascii) : bool := byte_in 65 90 c.
Definition is_ascii_lowercase (c : ascii) : bool := byte_in 97 122 c.
Definition is_ascii_alphabetic (c : ascii) : bool :=
  is_ascii_uppercase c || is_ascii_lowercase c.
Definition is_ascii_alphanumeric (c : ascii) : bool :=
  is_ascii_alphabetic c || is_ascii_digit c.

Definition to_ascii_lowercase_byte (c : ascii) : ascii :=
  if is_ascii_uppercase c then ascii_of_N (Z.to_N (byte_val c + 32)) else c.

Definition to_ascii_lowercase (s : str) : str := map to_ascii_lowercase_byte s.

Definition non_empty (s : str) : bool :=
  match s with
  | [] => false
  | _ => true
  end.

Definition byte_eqb (a b : ascii) : bool := bool_decide (a = b).

Definition str_eqb (a b : str) : bool := bool_decide (a = b).

(** ** String searching and slicing

    [str::find], [str::rfind] and the slices taken at the index they return
    are fused: the result is the part before and the part after the byte. *)

(** The longest prefix satisfying [p], and the rest. *)
Fixpoint span (p : ascii -> bool) (s : str) : str * str :=
  match s with
  | [] => ([], [])
  | c :: s' => if p c then let '(h, t) := span p s' in (c :: h, t) else ([], s)
  end.

(** [s.find(c)] followed by the slices [s[..i]] and [s[i+1..]]. *)
Fixpoint split_once_byte (c : ascii) (s : str) : option (str * str) :=
  match s with
  | [] => None
  | x :: s' =>
      if byte_eqb x c then Some ([], s')
      else match split_once_byte c s' with
           | Some (h, t) => Some (x :: h, t)
           | None => None
           end
  end.

(** [s.rfind(c)] followed by the slices [s[..i]] and [s[i+1..]]. *)
Fixpoint rsplit_once_byte (c : ascii) (s : str) : option (str * str) :=
  match s with
  | [] => None
  | x :: s' =>
      match rsplit_once_byte c s' with
      | Some (h, t) => Some (x :: h, t)
      | None => if byte_eqb x c then Some ([], s') else None
      end
  end.

Fixpoint strip_prefix (p s : str) : option str :=
  match p, s with
  | [], _ => Some s
  | a :: p', b :: s' => if byte_eqb a b then strip_prefix p' s' else None
  | _ :: _, [] => None
  end.

Definition starts_with (p s : str) : bool :=
  match strip_prefix p s with
  | Some _ => true
  | None => false
  end.

Definition strip_suffix (p s : str) : option str :=
  match strip_prefix (rev p) (rev s) with
  | Some r => Some (rev r)
  | None => None
  end.

(** [s.rfind(pat)] for a non-empty pattern, with the slices before and after
    the match. *)
Fixpoint rsplit_once_str (p s : str) : option (str * str) :=
  match s with
  | [] => None
  | x :: s' =>
      match rsplit_once_str p s' with
      | Some (h, t) => Some (x :: h, t)
      | None => match strip_prefix p s with
                | Some t => Some ([], t)
                | None => None
                end
      end
  end.

(** ** [str::trim]

    The characters of Unicode's [White_Space] property, in UTF-8. *)

Definition byte_is (n : Z) (c : ascii) : bool := (byte_val c =? n)%Z.

(** Drop one leading white-space character, if there is one. *)
Definition strip_ws_front (s : str) : option str :=
  match s with
  | [] => None
  | a :: s1 =>
      if byte_in 9 13 a || byte_is 32 a then Some s1
      else match s1 with
           | [] => None
           | b :: s2 =>
               if byte_is 194 a && (byte_is 133 b || byte_is 160 b) then Some s2
               else match s2 with
                    | [] => None
                    | c :: s3 =>
                        if (byte_is 225 a && byte_is 154 b && byte_is 128 c)
                           || (byte_is 226 a && byte_is 128 b
                               && (byte_in 128 138 c || byte_is 168 c
                                   || byte_is 169 c || byte_is 175 c))
                           || (byte_is 226 a && byte_is 129 b && byte_is 159 c)
                           || (byte_is 227 a && byte_is 128 b && byte_is 128 c)
                        then Some s3 else None
                    end
           end
  end.

(** The same on a reversed string: drop one trailing white-space character. *)
Definition strip_ws_back (s : str) : option str :=
  match s with
  | [] => None
  | a :: s1 =>
      if byte_in 9 13 a || byte_is 32 a then Some s1
      else match s1 with
           | [] => None
           | b :: s2 =>
               if byte_is 194 b && (byte_is 133 a || byte_is 160 a) then Some s2
               else match s2 with
                    | [] => None
                    | c :: s3 =>
                        if (byte_is 225 c && byte_is 154 b && byte_is 128 a)
                           || (byte_is 226 c && byte_is 128 b
                               && (byte_in 128 138 a || byte_is 168 a
                                   || byte_is 169 a || byte_is 175 a))
                           || (byte_is 226 c && byte_is 129 b && byte_is 159 a)
                           || (byte_is 227 c && byte_is 128 b && byte_is 128 a)
                        then Some s3 else None
                    end
           end
  end.

Fixpoint strip_all (f : str -> option str) (fuel : nat) (s : str) : str :=
  match fuel with
  | O => s
  | S n => match f s with
           | Some s' => strip_all f n s'
           | None => s
           end
  end.

Definition trim_start (s : str) : str := strip_all strip_ws_front (length s) s.
Definition trim_end (s : str) : str :=
  rev (strip_all strip_ws_back (length s) (rev s)).
Definition trim (s : str) : str := trim_end (trim_start s).

(** ** Integers of fixed width *)

Definition u64_max : Z := 18446744073709551615.
Definition u32_max : Z := 4294967295.

Definition in_u64 (z : Z) : Prop := (0 <= z <= u64_max)%Z.
Definition in_u32 (z : Z) : Prop := (0 <= z <= u32_max)%Z.

Definition u64_saturating_mul (a b : Z) : Z := Z.min (a * b) u64_max.
Definition u64_saturating_pow (a b : Z) : Z := Z.min (a ^ b) u64_max.

Definition digit_val (c : ascii) : Z := byte_val c - 48.

(** Base-10 value of a digit string, most significant digit first. *)
Definition digits_val (s : str) : Z :=
  fold_left (fun acc c => acc * 10 + digit_val c)%Z s 0%Z.

(** [str::parse] at an unsigned type: an optional [+], then at least one
    digit, and the value must fit. *)
Definition parse_uint (max : Z) (s : str) : option Z :=
  let body := match s with
              | c :: s' => if byte_is 43 c then s' else s
              | [] => s
              end in
  match body with
  | [] => None
  | _ => if forallb is_ascii_digit body
         then if (digits_val body <=? max)%Z then Some (digits_val body) else None
         else None
  end.

Definition parse_u64 (s : str) : option Z := parse_uint u64_max s.
Definition parse_u32 (s : str) : option Z := parse_uint u32_max s.

(** [Display] of an unsigned integer: decimal digits, most significant
    first.  The binary length bounds the number of digits. *)
Definition digit_char (d : Z) : ascii := ascii_of_N (Z.to_N (48 + d)).

Fixpoint dec_fuel (fuel : nat) (z : Z) : str :=
  match fuel with
  | O => [digit_char z]
  | S n => if (z <? 10)%Z then [digit_char z]
           else dec_fuel n (z / 10) ++ [digit_char (z mod 10)]
  end.

Definition dec (z : Z) : str := dec_fuel (Z.to_nat (Z.log2 z)) z.

(** ** Lemmas on the string operations *)

Lemma span_app p s h t : span p s = (h, t) -> s = h ++ t.
Proof.
  revert h t. induction s as [|c s IH]; simpl; intros h t H; [by simplify_eq|].
  destruct (p c); [|by simplify_eq].
  destruct (span p s) as [h' t'] eqn:E. simplify_eq. simpl. by rewrite (IH h' t).
Qed.

Lemma span_all p s h t : span p s = (h, t) -> forallb p h = true.
Proof.
  revert h t. induction s as [|c s IH]; simpl; intros h t H; [by simplify_eq|].
  destruct (p c) eqn:Ec; [|by simplify_eq].
  destruct (span p s) as [h' t'] eqn:E. simplify_eq. simpl. rewrite Ec. simpl. eauto.
Qed.

(** What stops the span does not satisfy the predicate. *)
Lemma span_stop p s h c t : span p s = (h, c :: t) -> p c = false.
Proof.
  revert h c t. induction s as [|x s IH]; simpl; intros h c t H; [by simplify_eq|].
  destruct (p x) eqn:Ex; [|by simplify_eq].
  destruct (span p s) as [h' t'] eqn:E. simplify_eq. eauto.
Qed.

Lemma span_app_stop p h c t :
  forallb p h = true -> p c = false -> span p (h ++ c :: t) = (h, c :: t).
Proof.
  induction h as [|x h IH]; simpl; [by intros _ ->|].
  intros [Hx Hh]%andb_prop Hc. by rewrite Hx, IH.
Qed.

Lemma span_all_id p s : forallb p s = true -> span p s = (s, []).
Proof.
  induction s as [|x s IH]; simpl; [done|]. intros [Hx Hs]%andb_prop. by rewrite Hx, IH.
Qed.

(** A non-digit run and then a digit run make progress on a non-empty
    string. *)
Lemma span_progress c s nd s1 dg s2 :
  span (fun c => negb (is_ascii_digit c)) (c :: s) = (nd, s1) ->
  span is_ascii_digit s1 = (dg, s2) -> length s2 < length (c :: s).
Proof.
  intros H1 H2. pose proof (span_app _ _ _ _ H1) as E1. pose proof (span_app _ _ _ _ H2) as E2.
  rewrite E1, E2, !length_app. clear E1 E2. simpl in H1.
  destruct (is_ascii_digit c) eqn:Ec; simpl in H1.
  - injection H1 as <- <-. simpl in H2. rewrite Ec in H2.
    destruct (span is_ascii_digit s). simplify_eq. simpl. lia.
  - destruct (span _ s). simplify_eq. simpl. lia.
Qed.

(** A span stops at the boundary of an append. *)
Lemma span_app_boundary p h t :
  forallb p h = true -> match t with c :: _ => p c = false | [] => True end ->
  span p (h ++ t) = (h, t).
Proof.
  intros Hh Ht. destruct t as [|c t]; [rewrite app_nil_r; by apply span_all_id|].
  by apply span_app_stop.
Qed.

Definition graphic (c : ascii) : bool := byte_in 33 126 c.

Lemma strip_ws_front_graphic c s : graphic c = true -> strip_ws_front (c :: s) = None.
Proof.
  unfold graphic, strip_ws_front, byte_in, byte_is. intros H.
  repeat match goal with
    | |- (match ?x with _ => _ end) = _ => destruct x eqn:?
    end; try done; exfalso; lia.
Qed.

Lemma strip_ws_back_graphic c s : graphic c = true -> strip_ws_back (c :: s) = None.
Proof.
  unfold graphic, strip_ws_back, byte_in, byte_is. intros H.
  repeat match goal with
    | |- (match ?x with _ => _ end) = _ => destruct x eqn:?
    end; try done; exfalso; lia.
Qed.

Lemma strip_all_none f n s : f s = None -> strip_all f n s = s.
Proof. destruct n; simpl; [done|]. by intros ->. Qed.

(** Trimming leaves a string alone that starts and ends with a visible ASCII
    character. *)
Lemma trim_graphic s c d m m' :
  s = c :: m -> s = m' ++ [d] -> graphic c = true -> graphic d = true -> trim s = s.
Proof.
  intros Hc Hd Gc Gd. unfold trim, trim_start.
  rewrite (strip_all_none strip_ws_front) by (rewrite Hc; by apply strip_ws_front_graphic).
  unfold trim_end. rewrite (strip_all_none strip_ws_back); [apply rev_involutive|].
  rewrite Hd, rev_app_distr. by apply strip_ws_back_graphic.
Qed.

Lemma lookup_app_add {A} (l1 l2 : list A) (i : nat) : (l1 ++ l2) !! (length l1 + i)%nat = l2 !! i.
Proof. rewrite lookup_app_r by lia. f_equal. lia. Qed.

(** A word of visible ASCII characters. *)
Lemma trim_word k : k <> [] -> forallb graphic k = true -> trim k = k.
Proof.
  intros Hne Hg. destruct (exists_last Hne) as (m & d & Hd). destruct k as [|c k]; [done|].
  apply (trim_graphic _ c d k m); [done|done|by apply andb_prop in Hg as [? _]|].
  rewrite Hd, forallb_app in Hg. apply andb_prop in Hg as [_ Hg]. by apply andb_prop in Hg as [? _].
Qed.

Lemma str_eqb_spec (a b : str) : reflect (a = b) (str_eqb a b).
Proof. apply bool_decide_reflect. Qed.

Lemma str_eqb_true (a b : str) : str_eqb a b = true -> a = b.
Proof. by destruct (str_eqb_spec a b). Qed.

Lemma str_eqb_refl (a : str) : str_eqb a a = true.
Proof. by apply bool_decide_eq_true_2. Qed.

Lemma byte_eqb_spec (a b : ascii) : reflect (a = b) (byte_eqb a b).
Proof. apply bool_decide_reflect. Qed.

Lemma strip_prefix_some p s r : strip_prefix p s = Some r <-> s = p ++ r.
Proof.
  revert s. induction p as [|a p IH]; intros s; cbn; [naive_solver|].
  destruct s as [|b s]; [naive_solver|].
  destruct (byte_eqb_spec a b) as [->|Hab]; [rewrite IH; naive_solver|naive_solver].
Qed.

Lemma starts_with_iff p s : starts_with p s = true <-> exists r, s = p ++ r.
Proof.
  unfold starts_with. destruct (strip_prefix p s) as [r|] eqn:E.
  - apply strip_prefix_some in E. naive_solver.
  - split; [done|]. intros [r Hr]. apply strip_prefix_some in Hr. congruence.
Qed.

Lemma split_once_byte_none c s :
  forallb (fun x => negb (byte_eqb x c)) s = true -> split_once_byte c s = None.
Proof.
  induction s as [|x s IH]; simpl; [done|]. intros [Hx Hs]%andb_prop.
  destruct (byte_eqb x c); [done|]. by rewrite IH.
Qed.

Lemma rsplit_once_str_none c p s :
  forallb (fun x => negb (byte_eqb c x)) s = true -> rsplit_once_str (c :: p) s = None.
Proof.
  induction s as [|x s IH]; simpl; [done|]. intros [Hx Hs]%andb_prop.
  rewrite IH by done. by destruct (byte_eqb c x).
Qed.

Lemma rsplit_once_str_app p m s h t :
  rsplit_once_str p s = Some (h, t) -> rsplit_once_str p (m ++ s) = Some (m ++ h, t).
Proof. intros H. induction m as [|x m IH]; simpl; [done|]. by rewrite IH. Qed.

Lemma forallb_impl {A} (p q : A -> bool) l :
  (forall x, p x = true -> q x = true) -> forallb p l = true -> forallb q l = true.
Proof.
  intros H. induction l as [|x l IH]; simpl; [done|]. intros [Hx Hl]%andb_prop.
  by rewrite H, IH.
Qed.
