(* ===== verification/Json.v ===== *)
(** * JSON values

    JSON documents, the accessors of [serde_json::Value] the sources use, and
    the building blocks of derived deserializers.  Parsing a byte slice into a
    document is [serde_json]'s and is a parameter wherever it is used. *)

From S2P Require Import Prelude.

#[local] Set Warnings "-register-all".

(** The fields of an object are in document order and may repeat a key. *)
Inductive json : Type :=
| JNull
| JBool (b : bool)
| JInt (z : Z)
| JFloat (bits : Z)
| JString (s : str)
| JArray (items : list json)
| JObject (fields : list (str * json)).

(** The last value of a key, the one a [Value]'s map keeps. *)
Fixpoint assoc {A} (k : str) (l : list (str * A)) : option A :=
  match l with
  | [] => None
  | (k', v) :: l' =>
      match assoc k l' with
      | Some w => Some w
      | None => if str_eqb k k' then Some v else None
      end
  end.

(** The field of a struct: a repeated field is an error. *)
Fixpoint field {A} (k : str) (l : list (str * A)) : option (option A) :=
  match l with
  | [] => Some None
  | (k', v) :: l' =>
      match field k l' with
      | Some None => Some (if str_eqb k k' then Some v else None)
      | Some (Some w) => if str_eqb k k' then None else Some (Some w)
      | None => None
      end
  end.

Fixpoint traverse {A B} (f : A -> option B) (l : list A) : option (list B) :=
  match l with
  | [] => Some []
  | x :: l' =>
      match f x, traverse f l' with
      | Some y, Some ys => Some (y :: ys)
      | _, _ => None
      end
  end.

(** [v.get(key)] *)
Definition json_get (k : str) (v : json) : option json :=
  match v with
  | JObject fields => assoc k fields
  | _ => None
  end.

(** [v.as_str()] *)
Definition as_str (v : json) : option str :=
  match v with
  | JString s => Some s
  | _ => None
  end.

(** [v.as_u64()] *)
Definition as_u64 (v : json) : option Z :=
  match v with
  | JInt z => if (0 <=? z)%Z && (z <=? u64_max)%Z then Some z else None
  | _ => None
  end.

(** [v.as_i64()] *)
Definition as_i64 (v : json) : option Z :=
  match v with
  | JInt z => if (- 2 ^ 63 <=? z)%Z && (z <? 2 ^ 63)%Z then Some z else None
  | _ => None
  end.

(** ** Derived deserializers

    The fields of a struct, by name with a flag for [#[serde(default)]], as an
    object or as a sequence: an object may leave out any field (the reader of
    the field decides), a sequence only trailing ones with a default. *)
Fixpoint seq_fields (names : list (str * bool)) (vs : list json) : option (list (option json)) :=
  match names, vs with
  | [], [] => Some []
  | [], _ :: _ => None
  | (_, d) :: names', [] => if d then cons None <$> seq_fields names' [] else None
  | _ :: names', v :: vs' => cons (Some v) <$> seq_fields names' vs'
  end.

Definition de_struct (names : list (str * bool)) (v : json) : option (list (option json)) :=
  match v with
  | JObject fs => traverse (fun n => field (fst n) fs) names
  | JArray vs => seq_fields names vs
  | _ => None
  end.

(** The same from a [Value], whose objects keep the last of a repeated key. *)
Definition value_struct (names : list (str * bool)) (v : json) : option (list (option json)) :=
  match v with
  | JObject fs => Some (map (fun n => assoc (fst n) fs) names)
  | JArray vs => seq_fields names vs
  | _ => None
  end.

Definition de_required {A} (de : json -> option A) (v : option json) : option A :=
  match v with
  | Some v => de v
  | None => None
  end.

Definition de_or {A} (d : A) (de : json -> option A) (v : option json) : option A :=
  match v with
  | Some v => de v
  | None => Some d
  end.

(** An [Option] field: absent or [null] is [None]. *)
Definition de_option {A} (de : json -> option A) (v : option json) : option (option A) :=
  match v with
  | None | Some JNull => Some None
  | Some v => Some <$> de v
  end.

Definition de_vec {A} (de : json -> option A) (v : json) : option (list A) :=
  match v with
  | JArray vs => traverse de vs
  | _ => None
  end.

(** ** Round trips *)

Lemma traverse_map {A B} (f : A -> B) (g : B -> option A) l :
  (forall x, g (f x) = Some x) -> traverse g (map f l) = Some l.
Proof. intros H. induction l as [|x l IH]; [done|]. cbn. by rewrite H, IH. Qed.

Lemma strings_round_trip l : de_vec as_str (JArray (map JString l)) = Some l.
Proof. by apply (traverse_map JString as_str). Qed.

(** Decide the comparisons of literal keys. *)
Ltac literal_keys :=
  repeat match goal with
         | |- context [str_eqb ?a ?b] =>
             let v := eval vm_compute in (str_eqb a b) in
             match v with
             | true => change (str_eqb a b) with true
             | false => change (str_eqb a b) with false
             end; cbv beta iota
         end.
