(* ===== verification/Orders.v ===== *)
(** * Comparators and the laws of a total preorder

    Rust's [Ordering] is [comparison].  A comparator is lawful when it is
    antisymmetric (up to [Equal]), transitive, and [Equal] is a congruence;
    the instances below build lawful comparators the way [Ord] is derived and
    the way the matchers write their loops: lexicographic chains, slices, and
    position-by-position comparison with a default for the missing entries. *)

From S2P Require Import Prelude.

(** [match c1 { Equal => c2, ord => ord }] *)
Definition then_cmp (c1 c2 : comparison) : comparison :=
  match c1 with
  | Eq => c2
  | _ => c1
  end.

Class CmpLaws {A} (cmp : A -> A -> comparison) : Prop := {
  cmp_antisym a b : cmp b a = CompOpp (cmp a b);
  cmp_trans_lt a b c : cmp a b = Lt -> cmp b c = Lt -> cmp a c = Lt;
  cmp_eq_l a b c : cmp a b = Eq -> cmp a c = cmp b c
}.

(** Compare through a key. *)
Definition cmp_on {A B} (f : A -> B) (cmp : B -> B -> comparison) (a b : A) : comparison :=
  cmp (f a) (f b).

(** Two comparators in sequence. *)
Definition cmp_seq {A} (c1 c2 : A -> A -> comparison) (a b : A) : comparison :=
  then_cmp (c1 a b) (c2 a b).

(** [Ord] on slices and [Vec]. *)
Fixpoint list_cmp {A} (cmp : A -> A -> comparison) (l1 l2 : list A) : comparison :=
  match l1, l2 with
  | [], [] => Eq
  | [], _ :: _ => Lt
  | _ :: _, [] => Gt
  | a :: l1', b :: l2' => then_cmp (cmp a b) (list_cmp cmp l1' l2')
  end.

(** [Ord] on [Option]: [None] is below every [Some]. *)
Definition option_cmp {A} (cmp : A -> A -> comparison) (o1 o2 : option A) : comparison :=
  match o1, o2 with
  | None, None => Eq
  | None, Some _ => Lt
  | Some _, None => Gt
  | Some a, Some b => cmp a b
  end.

(** [Ord] on bytes and byte slices. *)
Definition byte_cmp : ascii -> ascii -> comparison := cmp_on byte_val Z.compare.
Definition bytes_cmp : str -> str -> comparison := list_cmp byte_cmp.

(** [l.get(i).copied().unwrap_or(d)] *)
Definition get_or {A} (d : A) (i : nat) (l : list A) : A := default d (l !! i).

(** The first difference over the positions [is], [Equal] if there is none:
    [for i in is { let (a, b) = ..; if a != b { return a.cmp(&b) } }]. *)
Fixpoint cmp_at {A} (d : A) (cmp : A -> A -> comparison) (ix : list nat)
    (l1 l2 : list A) : comparison :=
  match ix with
  | [] => Eq
  | i :: ix' => then_cmp (cmp (get_or d i l1) (get_or d i l2)) (cmp_at d cmp ix' l1 l2)
  end.

(** The loop over [0..max(l1.len(), l2.len())]. *)
Definition pad_cmp {A} (d : A) (cmp : A -> A -> comparison) (l1 l2 : list A) : comparison :=
  cmp_at d cmp (seq 0 (length l1 `max` length l2)) l1 l2.

(** ** Consequences of the laws *)

Section laws.
Context {A : Type} {cmp : A -> A -> comparison} `{!CmpLaws cmp}.

Lemma cmp_refl a : cmp a a = Eq.
Proof. pose proof (cmp_antisym a a) as H. by destruct (cmp a a). Qed.

Lemma cmp_eq_sym a b : cmp a b = Eq -> cmp b a = Eq.
Proof. intros H. by rewrite (cmp_antisym (cmp:=cmp) a b), H. Qed.

Lemma cmp_eq_r a b c : cmp a b = Eq -> cmp c a = cmp c b.
Proof. intros H. by rewrite (cmp_antisym (cmp:=cmp) a c), (cmp_antisym (cmp:=cmp) b c), (cmp_eq_l a b c). Qed.

Lemma cmp_gt_lt a b : cmp a b = Gt <-> cmp b a = Lt.
Proof. rewrite (cmp_antisym (cmp:=cmp) a b). by destruct (cmp a b). Qed.

Lemma cmp_trans_gt a b c : cmp a b = Gt -> cmp b c = Gt -> cmp a c = Gt.
Proof. rewrite !cmp_gt_lt. eauto using cmp_trans_lt. Qed.

(** [<=] is transitive. *)
Lemma cmp_le_trans a b c : cmp a b <> Gt -> cmp b c <> Gt -> cmp a c <> Gt.
Proof.
  intros H1 H2. destruct (cmp a b) eqn:E1; [|destruct (cmp b c) eqn:E2|]; try done.
  - by rewrite (cmp_eq_l a b c).
  - by rewrite <- (cmp_eq_r b c a), E1.
  - by rewrite (cmp_trans_lt a b c).
Qed.
End laws.

(** ** Instances *)

Lemma then_cmp_opp c1 c2 : CompOpp (then_cmp c1 c2) = then_cmp (CompOpp c1) (CompOpp c2).
Proof. by destruct c1. Qed.

Lemma then_cmp_assoc c1 c2 c3 :
  then_cmp (then_cmp c1 c2) c3 = then_cmp c1 (then_cmp c2 c3).
Proof. by destruct c1. Qed.

Lemma then_cmp_Eq_r c : then_cmp c Eq = c.
Proof. by destruct c. Qed.

(** [if a != b { return a.cmp(&b) }] followed by [k]. *)
Lemma Zneq_cmp (x y : Z) k :
  (if negb (x =? y)%Z then (x ?= y)%Z else k) = then_cmp (x ?= y)%Z k.
Proof.
  destruct (Z.eqb_spec x y) as [->|Hne]; simpl; [by rewrite Z.compare_refl|].
  by destruct (Z.compare_spec x y).
Qed.

#[export] Instance Zcompare_laws : CmpLaws Z.compare.
Proof.
  split.
  - intros a b. by rewrite Z.compare_antisym.
  - intros a b c. rewrite !Z.compare_lt_iff. lia.
  - intros a b c H%Z.compare_eq_iff. by subst.
Qed.

#[export] Instance Natcompare_laws : CmpLaws Nat.compare.
Proof.
  split.
  - intros a b. by rewrite Nat.compare_antisym.
  - intros a b c. rewrite !Nat.compare_lt_iff. lia.
  - intros a b c H%Nat.compare_eq_iff. by subst.
Qed.

#[export] Instance cmp_on_laws {A B} (f : A -> B) cmp :
  CmpLaws cmp -> CmpLaws (cmp_on f cmp).
Proof.
  intros [H1 H2 H3]. split; unfold cmp_on; intros *; [apply H1 | apply H2 | apply H3].
Qed.

#[export] Instance cmp_seq_laws {A} (c1 c2 : A -> A -> comparison) :
  CmpLaws c1 -> CmpLaws c2 -> CmpLaws (cmp_seq c1 c2).
Proof.
  intros L1 L2. split; unfold cmp_seq; intros a b *.
  - by rewrite (cmp_antisym (cmp := c1) a b), (cmp_antisym (cmp := c2) a b), then_cmp_opp.
  - intros H1 H2.
    destruct (c1 a b) eqn:E1; simpl in H1; try done.
    + rewrite (cmp_eq_l (cmp := c1) a b c E1). destruct (c1 b c); simpl in *; try done.
      by apply (cmp_trans_lt (cmp := c2) a b c).
    + destruct (c1 b c) eqn:E2; simpl in H2; try done.
      * by rewrite <- (cmp_eq_r (cmp := c1) b c a E2), E1.
      * by rewrite (cmp_trans_lt (cmp := c1) a b c).
  - destruct (c1 a b) eqn:E1; simpl; try done. intros E2.
    by rewrite (cmp_eq_l (cmp := c1) a b c E1), (cmp_eq_l (cmp := c2) a b c E2).
Qed.

#[export] Instance option_cmp_laws {A} (cmp : A -> A -> comparison) :
  CmpLaws cmp -> CmpLaws (option_cmp cmp).
Proof.
  intros [H1 H2 H3]. split; intros [|] [|]; simpl; intros; try done;
    repeat case_match; simpl in *; eauto; try done.
Qed.

#[export] Instance list_cmp_laws {A} (cmp : A -> A -> comparison) :
  CmpLaws cmp -> CmpLaws (list_cmp cmp).
Proof.
  intros L. split.
  - intros l1. induction l1 as [|a l1 IH]; intros [|b l2]; simpl; try done.
    by rewrite (cmp_antisym (cmp:=cmp) a b), IH, then_cmp_opp.
  - intros l1. induction l1 as [|a l1 IH]; intros [|b l2] [|c l3]; simpl; try done.
    intros H1 H2. destruct (cmp a b) eqn:E1; simpl in H1; try done.
    + rewrite (cmp_eq_l a b c E1). destruct (cmp b c); simpl in *; eauto.
    + destruct (cmp b c) eqn:E2; simpl in H2; try done.
      * by rewrite <- (cmp_eq_r b c a E2), E1.
      * by rewrite (cmp_trans_lt a b c).
  - intros l1. induction l1 as [|a l1 IH]; intros [|b l2] [|c l3]; simpl; try done.
    destruct (cmp a b) eqn:E1; simpl; try done. intros E2.
    by rewrite (cmp_eq_l a b c E1), (IH l2 l3).
Qed.

#[export] Instance byte_cmp_laws : CmpLaws byte_cmp.
Proof. apply _. Qed.

#[export] Instance bytes_cmp_laws : CmpLaws bytes_cmp.
Proof. apply _. Qed.

#[export] Instance cmp_at_laws {A} (d : A) cmp ix :
  CmpLaws cmp -> CmpLaws (cmp_at d cmp ix).
Proof.
  intros L. induction ix as [|i ix IH]; simpl; [by split|].
  change (CmpLaws (cmp_seq (cmp_on (get_or d i) cmp) (cmp_at d cmp ix))). apply _.
Qed.

Lemma cmp_at_app {A} (d : A) cmp ix1 ix2 l1 l2 :
  cmp_at d cmp (ix1 ++ ix2) l1 l2 =
  then_cmp (cmp_at d cmp ix1 l1 l2) (cmp_at d cmp ix2 l1 l2).
Proof. induction ix1 as [|i ix1 IH]; simpl; [done|]. by rewrite IH, then_cmp_assoc. Qed.

Lemma cmp_at_ge {A} (d : A) cmp `{!CmpLaws cmp} ix l1 l2 :
  Forall (fun i => length l1 <= i /\ length l2 <= i) ix -> cmp_at d cmp ix l1 l2 = Eq.
Proof.
  induction 1 as [|i ix [H1 H2] _ IH]; simpl; [done|].
  unfold get_or. rewrite !lookup_ge_None_2 by done. simpl. by rewrite cmp_refl.
Qed.

(** Going past the longer of the two lists changes nothing. *)
Lemma pad_cmp_ext {A} (d : A) cmp `{!CmpLaws cmp} n l1 l2 :
  length l1 <= n -> length l2 <= n -> cmp_at d cmp (seq 0 n) l1 l2 = pad_cmp d cmp l1 l2.
Proof.
  intros H1 H2. unfold pad_cmp.
  set (m := length l1 `max` length l2).
  replace n with (m + (n - m)) by lia.
  rewrite seq_app, cmp_at_app, (cmp_at_ge d cmp (seq (0 + m) (n - m))), then_cmp_Eq_r; [done|].
  apply Forall_forall. intros i Hi%elem_of_seq. lia.
Qed.

#[export] Instance pad_cmp_laws {A} (d : A) cmp : CmpLaws cmp -> CmpLaws (pad_cmp d cmp).
Proof.
  intros L. split.
  - intros l1 l2. set (n := length l1 `max` length l2).
    rewrite <- !(pad_cmp_ext d cmp n) by lia. apply cmp_antisym.
  - intros l1 l2 l3. set (n := (length l1 `max` length l2) `max` length l3).
    rewrite <- !(pad_cmp_ext d cmp n) by lia. apply cmp_trans_lt.
  - intros l1 l2 l3. set (n := (length l1 `max` length l2) `max` length l3).
    rewrite <- !(pad_cmp_ext d cmp n) by lia. apply cmp_eq_l.
Qed.

(** One step of the padded comparison, on any two lists. *)
Lemma pad_cmp_step {A} (d : A) cmp `{!CmpLaws cmp} l1 l2 :
  pad_cmp d cmp l1 l2 =
  then_cmp (cmp (get_or d 0 l1) (get_or d 0 l2)) (pad_cmp d cmp (tail l1) (tail l2)).
Proof.
  assert (Hs : forall n (k1 k2 : list A),
    cmp_at d cmp (seq 1 n) k1 k2 = cmp_at d cmp (seq 0 n) (tail k1) (tail k2)).
  { intros n k1 k2. rewrite <- fmap_S_seq. generalize (seq 0 n) as ix.
    induction ix as [|i ix IH]; [done|]. rewrite fmap_cons. simpl. rewrite IH. by destruct k1, k2. }
  rewrite <- (pad_cmp_ext d cmp (S (length l1 `max` length l2))) by lia.
  simpl. rewrite Hs, (pad_cmp_ext d cmp); [done|..]; destruct l1, l2; simpl; lia.
Qed.

(** Byte comparison is equality of bytes. *)
Lemma byte_val_inj a b : byte_val a = byte_val b -> a = b.
Proof.
  unfold byte_val. intros H%N2Z.inj.
  by rewrite <- (ascii_N_embedding a), H, ascii_N_embedding.
Qed.

Lemma byte_cmp_eq a b : byte_cmp a b = Eq <-> a = b.
Proof.
  unfold byte_cmp, cmp_on. rewrite Z.compare_eq_iff. split; [apply byte_val_inj|by intros ->].
Qed.

Lemma list_cmp_eq {A} (cmp : A -> A -> comparison) l1 l2 :
  (forall a b, cmp a b = Eq <-> a = b) -> list_cmp cmp l1 l2 = Eq <-> l1 = l2.
Proof.
  intros H. revert l2. induction l1 as [|a l1 IH]; intros [|b l2]; simpl; try done.
  pose proof (H a b) as Hab. split.
  - destruct (cmp a b) eqn:E; simpl; try done. intros ->%IH. by rewrite (proj1 Hab).
  - intros [= -> ->]. rewrite (proj2 Hab); [|done]. by apply IH.
Qed.

Lemma bytes_cmp_eq a b : bytes_cmp a b = Eq <-> a = b.
Proof. apply list_cmp_eq, byte_cmp_eq. Qed.

(** ** Digit strings compare as the numbers they denote *)

Definition all_digits (s : str) : Prop := forallb is_ascii_digit s = true.

(** The first digit is not zero. *)
Definition leading (s : str) : Prop :=
  match s with
  | c :: _ => (digit_val c <> 0)%Z
  | [] => False
  end.

Lemma is_ascii_digit_val c : is_ascii_digit c = true -> (0 <= digit_val c <= 9)%Z.
Proof. unfold is_ascii_digit, byte_in, digit_val. intros [H1 H2]%andb_prop. lia. Qed.

Lemma digits_val_acc s acc :
  fold_left (fun acc c => acc * 10 + digit_val c)%Z s acc =
  (acc * 10 ^ Z.of_nat (length s) + digits_val s)%Z.
Proof.
  unfold digits_val. revert acc. induction s as [|c s IH]; intros acc.
  { simpl. lia. }
  cbn [fold_left length]. rewrite IH, (IH (0 * 10 + _)%Z), Nat2Z.inj_succ, Z.pow_succ_r by lia.
  lia.
Qed.

Lemma digits_val_cons c s :
  digits_val (c :: s) = (digit_val c * 10 ^ Z.of_nat (length s) + digits_val s)%Z.
Proof. unfold digits_val at 1. cbn [fold_left]. rewrite digits_val_acc. lia. Qed.

Lemma digits_val_bound s : all_digits s -> (0 <= digits_val s < 10 ^ Z.of_nat (length s))%Z.
Proof.
  unfold all_digits. induction s as [|c s IH]; [intros _; simpl; unfold digits_val; simpl; lia|].
  intros [Hc Hs]%andb_prop. apply is_ascii_digit_val in Hc. specialize (IH Hs).
  rewrite digits_val_cons. cbn [length]. rewrite Nat2Z.inj_succ, Z.pow_succ_r by lia. nia.
Qed.

Lemma digits_val_leading s :
  all_digits s -> leading s -> (10 ^ (Z.of_nat (length s) - 1) <= digits_val s)%Z.
Proof.
  destruct s as [|c s]; [done|]. intros [Hc Hs]%andb_prop Hl. simpl in Hl.
  apply is_ascii_digit_val in Hc. pose proof (digits_val_bound s Hs).
  rewrite digits_val_cons. cbn [length].
  replace (Z.of_nat (S (length s)) - 1)%Z with (Z.of_nat (length s)) by lia. nia.
Qed.

(** Equal lengths: byte order is numeric order. *)
Lemma bytes_cmp_digits a b :
  all_digits a -> all_digits b -> length a = length b ->
  bytes_cmp a b = (digits_val a ?= digits_val b)%Z.
Proof.
  unfold bytes_cmp, all_digits. revert b.
  induction a as [|x a IH]; intros [|y b] Ha Hb Hlen; try done.
  apply andb_prop in Ha as [Hx Ha], Hb as [Hy Hb]. injection Hlen as Hlen.
  pose proof (is_ascii_digit_val _ Hx). pose proof (is_ascii_digit_val _ Hy).
  pose proof (digits_val_bound a Ha). pose proof (digits_val_bound b Hb).
  cbn [list_cmp]. rewrite !digits_val_cons, IH by done. rewrite Hlen in *.
  unfold byte_cmp, cmp_on, digit_val in *.
  set (p := (10 ^ Z.of_nat (length b))%Z) in *.
  destruct (Z.compare_spec (byte_val x) (byte_val y)) as [->| |]; simpl; symmetry.
  - destruct (Z.compare_spec (digits_val a) (digits_val b)) as [->| |];
      [apply Z.compare_refl|apply Z.compare_lt_iff; nia|apply Z.compare_gt_iff; nia].
  - apply Z.compare_lt_iff. nia.
  - apply Z.compare_gt_iff. nia.
Qed.

Lemma digits_val_shorter a b :
  all_digits a -> all_digits b -> leading b -> length a < length b ->
  (digits_val a < digits_val b)%Z.
Proof.
  intros Ha Hb Hl Hlen. pose proof (digits_val_bound a Ha).
  pose proof (digits_val_leading b Hb Hl).
  assert (10 ^ Z.of_nat (length a) <= 10 ^ (Z.of_nat (length b) - 1))%Z
    by (apply Z.pow_le_mono_r; lia).
  lia.
Qed.

(** Length first, then bytes: numeric order, provided the longer one has no
    leading zero. *)
Lemma num_cmp_ok a b :
  all_digits a -> all_digits b ->
  (length a < length b -> leading b) -> (length b < length a -> leading a) ->
  then_cmp (Nat.compare (length a) (length b)) (bytes_cmp a b) =
  (digits_val a ?= digits_val b)%Z.
Proof.
  intros Ha Hb Hla Hlb. destruct (Nat.compare_spec (length a) (length b)); simpl.
  - by apply bytes_cmp_digits.
  - symmetry. apply Z.compare_lt_iff. apply digits_val_shorter; auto.
  - symmetry. apply Z.compare_gt_iff. apply digits_val_shorter; auto.
Qed.

(** ** Decimal printing *)

Lemma digit_char_val d : (0 <= d < 10)%Z -> digit_val (digit_char d) = d.
Proof.
  intros H. unfold digit_val, byte_val, digit_char. rewrite N_ascii_embedding; lia.
Qed.

Lemma digit_char_digit d : (0 <= d < 10)%Z -> is_ascii_digit (digit_char d) = true.
Proof.
  intros H. pose proof (digit_char_val d H). unfold is_ascii_digit, byte_in, digit_val in *.
  apply andb_true_intro. lia.
Qed.

Lemma digits_val_snoc s c : digits_val (s ++ [c]) = (digits_val s * 10 + digit_val c)%Z.
Proof. unfold digits_val. by rewrite fold_left_app. Qed.

Lemma dec_fuel_spec n z :
  (0 <= z < 2 ^ Z.of_nat (S n))%Z ->
  digits_val (dec_fuel n z) = z /\ all_digits (dec_fuel n z) /\ dec_fuel n z <> [].
Proof.
  unfold all_digits. revert z. induction n as [|n IH]; intros z Hz.
  - simpl in Hz. simpl. rewrite digit_char_digit by lia. repeat split; [|done].
    unfold digits_val. simpl. rewrite digit_char_val; lia.
  - cbn [dec_fuel]. destruct (Z.ltb_spec z 10) as [Hlt|Hge].
    + simpl. rewrite digit_char_digit by lia. repeat split; [|done].
      unfold digits_val. simpl. rewrite digit_char_val; lia.
    + pose proof (Z.mod_pos_bound z 10 ltac:(lia)) as Hm.
      rewrite Nat2Z.inj_succ, Z.pow_succ_r in Hz by lia.
      destruct (IH (z / 10)%Z) as (H1 & H2 & H3).
      { split; [apply Z.div_pos; lia|apply Z.div_lt_upper_bound; lia]. }
      rewrite digits_val_snoc, H1, digit_char_val, forallb_app, H2 by lia. simpl.
      rewrite digit_char_digit by lia. repeat split; [|by intros [_ ?]%app_eq_nil].
      pose proof (Z.div_mod z 10). lia.
Qed.

Lemma dec_spec z :
  (0 <= z)%Z -> digits_val (dec z) = z /\ all_digits (dec z) /\ dec z <> [].
Proof.
  intros Hz. apply dec_fuel_spec. split; [done|]. rewrite Nat2Z.inj_succ.
  destruct (Z.eq_dec z 0) as [->|Hne]; [done|]. rewrite Z2Nat.id by apply Z.log2_nonneg.
  apply Z.log2_spec. lia.
Qed.

(** Printing and parsing an unsigned integer. *)
Lemma parse_uint_dec max z : (0 <= z <= max)%Z -> parse_uint max (dec z) = Some z.
Proof.
  intros [H1 H2]. destruct (dec_spec z H1) as (Hv & Hd & Hn). unfold parse_uint, all_digits in *.
  destruct (dec z) as [|c s]; [done|].
  assert (byte_is 43 c = false) as ->.
  { simpl in Hd. apply andb_prop in Hd as [Hc _]. unfold is_ascii_digit, byte_in, byte_is in *. lia. }
  rewrite Hd, Hv. by rewrite (proj2 (Z.leb_le _ _) H2).
Qed.

Lemma parse_dec z : in_u64 z -> parse_u64 (dec z) = Some z.
Proof. apply parse_uint_dec. Qed.

Lemma dec_not_empty z s : (0 <= z)%Z -> dec z ++ s <> [].
Proof. intros Hz [H _]%app_eq_nil. by destruct (dec_spec z Hz) as (_ & _ & ?). Qed.

(** Trimming a printed number does nothing. *)
Lemma trim_dec z : (0 <= z)%Z -> trim (dec z) = dec z.
Proof.
  intros Hz. destruct (dec_spec z Hz) as (_ & Hd & Hn). unfold all_digits in Hd.
  assert (Hg : forall x, is_ascii_digit x = true -> graphic x = true)
    by (unfold is_ascii_digit, graphic, byte_in; intros; lia).
  destruct (exists_last Hn) as (d & y & Ey).
  destruct (dec z) as [|c m] eqn:E; [done|].
  eapply (trim_graphic _ c y m d); [done|done|..]; apply Hg.
  - by apply andb_prop in Hd as [Hd _].
  - rewrite Ey, forallb_app in Hd. apply andb_prop in Hd as [_ Hd].
    by apply andb_prop in Hd as [Hd _].
Qed.
