(* ===== verification/Deb.v ===== *)
(** * Debian version comparator ([crates/specton-scanner/src/matcher/deb.rs])

    The parser [DebVersion::parse], the component loop [compare_component]
    with its fuel, and the ordering.  The loop is related to a reference
    ordering on the list of (non-digit run, digit run) chunks. *)

From S2P Require Import Prelude Orders.

(** [VersionError::Invalid]: the message template and its arguments, not
    rendered. *)
Inductive VersionError : Type :=
| Invalid (template : str) (args : list str).

Abbreviation VersionResult A := (result A VersionError).

Module Deb.

Record DebVersion : Type := mkDebVersion {
  epoch : Z;
  upstream : str;
  revision : str
}.

Definition parse_epoch (s : str) : VersionResult (Z * str) :=
  match split_once_byte ":" s with
  | Some (h, t) =>
      if negb (str_eqb h "") && forallb is_ascii_digit h
      then match parse_u64 h with
           | Some e => Ok (e, t)
           | None => Err (Invalid "deb epoch overflow in {s:?}" [s])
           end
      else Ok (0%Z, s)
  | None => Ok (0%Z, s)
  end.

Definition parse (s0 : str) : VersionResult DebVersion :=
  let s := trim s0 in
  if str_eqb s "" then Err (Invalid "empty deb version" [])
  else
    result_bind (parse_epoch s) (fun '(e, rest) =>
    let '(up, rev) := match rsplit_once_byte "-" rest with
                      | Some (h, t) => (h, t)
                      | None => (rest, "")
                      end in
    if str_eqb up "" then Err (Invalid "deb upstream empty in {s:?}" [s])
    else Ok (mkDebVersion e up rev)).

(** [~] below the end of the run, letters above it, everything else above
    letters. *)
Definition nondigit_rank (b : option ascii) : Z :=
  match b with
  | Some c =>
      if byte_is 126 c then -1
      else if is_ascii_alphabetic c then 256 + byte_val c
      else 512 + byte_val c
  | None => 0
  end.

Fixpoint compare_non_digit_at (ix : list nat) (a b : str) : comparison :=
  match ix with
  | [] => Eq
  | i :: ix' =>
      let av := nondigit_rank (a !! i) in
      let bv := nondigit_rank (b !! i) in
      if negb (av =? bv)%Z then (av ?= bv)%Z else compare_non_digit_at ix' a b
  end.

Definition compare_non_digit (a b : str) : comparison :=
  compare_non_digit_at (seq 0 (length a `max` length b)) a b.

Fixpoint strip_leading_zeros (a : str) : str :=
  match a with
  | c :: a' => if byte_is 48 c then strip_leading_zeros a' else a
  | [] => []
  end.

Definition compare_digit (a b : str) : comparison :=
  let a := strip_leading_zeros a in
  let b := strip_leading_zeros b in
  match (length a ?= length b)%nat with
  | Eq => bytes_cmp a b
  | ord => ord
  end.

(** The loop of [compare_component]; [None] is out of fuel. *)
Fixpoint compare_loop (fuel : nat) (ai bi : str) : option comparison :=
  match fuel with
  | O => None
  | S n =>
      let '(a_nondigit, ai) := span (fun c => negb (is_ascii_digit c)) ai in
      let '(b_nondigit, bi) := span (fun c => negb (is_ascii_digit c)) bi in
      match compare_non_digit a_nondigit b_nondigit with
      | Eq =>
          let '(a_digit, ai) := span is_ascii_digit ai in
          let '(b_digit, bi) := span is_ascii_digit bi in
          match compare_digit a_digit b_digit with
          | Eq =>
              match ai, bi with
              | [], [] => Some Eq
              | _, _ => compare_loop n ai bi
              end
          | ord => Some ord
          end
      | ord => Some ord
      end
  end.

(** Every iteration but the first consumes a byte of one of the strings. *)
Definition compare_component (a b : str) : comparison :=
  default Eq (compare_loop (S (length a `max` length b)) a b).

Definition version_cmp (v w : DebVersion) : comparison :=
  match (epoch v ?= epoch w)%Z with
  | Eq =>
      match compare_component (upstream v) (upstream w) with
      | Eq => compare_component (revision v) (revision w)
      | ord => ord
      end
  | ord => ord
  end.

Definition compare (a b : str) : VersionResult comparison :=
  result_bind (parse a) (fun va =>
  result_bind (parse b) (fun vb =>
  Ok (version_cmp va vb))).

(** ** Reference ordering: chunks *)

Fixpoint chunks (fuel : nat) (s : str) : list (str * str) :=
  match fuel, s with
  | O, _ | _, [] => []
  | S n, _ =>
      let '(nd, s1) := span (fun c => negb (is_ascii_digit c)) s in
      let '(dg, s2) := span is_ascii_digit s1 in
      (nd, dg) :: chunks n s2
  end.

Definition non_digit_cmp : str -> str -> comparison :=
  cmp_on (fmap Some) (pad_cmp None (cmp_on nondigit_rank Z.compare)).

Definition digit_cmp : str -> str -> comparison :=
  cmp_on strip_leading_zeros (cmp_seq (cmp_on length Nat.compare) bytes_cmp).

Definition chunk_cmp : str * str -> str * str -> comparison :=
  cmp_seq (cmp_on fst non_digit_cmp) (cmp_on snd digit_cmp).

Definition component_cmp : str -> str -> comparison :=
  cmp_on (fun s => chunks (length s) s) (pad_cmp ("", "") chunk_cmp).

(** ** The loops against the reference *)

Lemma compare_non_digit_ok a b : compare_non_digit a b = non_digit_cmp a b.
Proof.
  unfold compare_non_digit, non_digit_cmp, cmp_on at 1, pad_cmp. rewrite !length_fmap.
  generalize (seq 0 (length a `max` length b)) as ix.
  induction ix as [|i ix IH]; simpl; [done|].
  rewrite Zneq_cmp, IH. unfold get_or, cmp_on. rewrite !list_lookup_fmap.
  by destruct (a !! i), (b !! i).
Qed.

Lemma compare_digit_ok a b : compare_digit a b = digit_cmp a b.
Proof. unfold compare_digit, digit_cmp, cmp_seq, cmp_on. by destruct (_ ?= _)%nat. Qed.

#[global] Instance non_digit_cmp_laws : CmpLaws non_digit_cmp.
Proof. apply _. Qed.

#[global] Instance digit_cmp_laws : CmpLaws digit_cmp.
Proof. apply _. Qed.

#[global] Instance chunk_cmp_laws : CmpLaws chunk_cmp.
Proof. apply _. Qed.

#[global] Instance component_cmp_laws : CmpLaws component_cmp.
Proof. apply _. Qed.

Lemma chunks_fuel n m s : length s <= n -> length s <= m -> chunks n s = chunks m s.
Proof.
  revert m s. induction n as [|n IH]; intros m s Hn Hm.
  { destruct s; simpl in *; [by destruct m|lia]. }
  destruct s as [|c s]; [by destruct m|].
  destruct m as [|m]; [simpl in *; lia|].
  cbn [chunks].
  destruct (span (fun c => negb (is_ascii_digit c)) (c :: s)) as [nd s1] eqn:E1.
  destruct (span is_ascii_digit s1) as [dg s2] eqn:E2.
  f_equal. pose proof (span_progress _ _ _ _ _ _ E1 E2). simpl in *. apply IH; lia.
Qed.

(** The first chunk and the remaining ones. *)
Lemma chunks_head s nd s1 dg s2 :
  span (fun c => negb (is_ascii_digit c)) s = (nd, s1) -> span is_ascii_digit s1 = (dg, s2) ->
  get_or ("", "") 0 (chunks (length s) s) = (nd, dg) /\
  tail (chunks (length s) s) = chunks (length s2) s2 /\
  length s2 <= pred (length s).
Proof.
  intros H1 H2. destruct s as [|c s].
  { simpl in H1. simplify_eq. simpl in H2. by simplify_eq. }
  pose proof (span_progress _ _ _ _ _ _ H1 H2) as Hp. cbn [chunks length] in *.
  rewrite H1, H2. simpl. repeat split; [|lia]. apply chunks_fuel; lia.
Qed.

Lemma component_cmp_step a b nda a1 dga a2 ndb b1 dgb b2 :
  span (fun c => negb (is_ascii_digit c)) a = (nda, a1) -> span is_ascii_digit a1 = (dga, a2) ->
  span (fun c => negb (is_ascii_digit c)) b = (ndb, b1) -> span is_ascii_digit b1 = (dgb, b2) ->
  component_cmp a b =
  then_cmp (non_digit_cmp nda ndb) (then_cmp (digit_cmp dga dgb) (component_cmp a2 b2)).
Proof.
  intros Ea1 Ea2 Eb1 Eb2.
  destruct (chunks_head a _ _ _ _ Ea1 Ea2) as (Ha1 & Ha2 & _).
  destruct (chunks_head b _ _ _ _ Eb1 Eb2) as (Hb1 & Hb2 & _).
  unfold component_cmp, cmp_on at 1. rewrite (pad_cmp_step _ chunk_cmp), Ha1, Hb1, Ha2, Hb2.
  unfold chunk_cmp at 1, cmp_seq, cmp_on. by rewrite then_cmp_assoc.
Qed.

(** With enough fuel the loop returns, and what it returns is the reference
    comparison of the chunks. *)
Lemma compare_loop_ok n a b :
  length a <= n -> length b <= n -> compare_loop (S n) a b = Some (component_cmp a b).
Proof.
  revert a b. induction n as [|n IH]; intros a b Ha Hb.
  { destruct a, b; simpl in *; try lia. done. }
  cbn [compare_loop].
  destruct (span (fun c => negb (is_ascii_digit c)) a) as [nda a1] eqn:Ea1.
  destruct (span (fun c => negb (is_ascii_digit c)) b) as [ndb b1] eqn:Eb1.
  destruct (span is_ascii_digit a1) as [dga a2] eqn:Ea2.
  destruct (span is_ascii_digit b1) as [dgb b2] eqn:Eb2.
  destruct (chunks_head a _ _ _ _ Ea1 Ea2) as (_ & _ & Ha3).
  destruct (chunks_head b _ _ _ _ Eb1 Eb2) as (_ & _ & Hb3).
  rewrite compare_non_digit_ok, compare_digit_ok.
  rewrite (component_cmp_step a b _ _ _ _ _ _ _ _ Ea1 Ea2 Eb1 Eb2).
  destruct (non_digit_cmp nda ndb); simpl; try done.
  destruct (digit_cmp dga dgb); simpl; try done.
  assert (Hrec : compare_loop (S n) a2 b2 = Some (component_cmp a2 b2)) by (apply IH; lia).
  by destruct a2, b2.
Qed.

Lemma compare_component_ok a b : compare_component a b = component_cmp a b.
Proof. unfold compare_component. by rewrite compare_loop_ok by lia. Qed.

#[global] Instance deb_version_laws : CmpLaws version_cmp.
Proof.
  assert (CmpLaws (cmp_seq (cmp_on epoch Z.compare)
    (cmp_seq (cmp_on upstream component_cmp) (cmp_on revision component_cmp)))) as [H1 H2 H3]
    by apply _.
  assert (E : forall v w, version_cmp v w = cmp_seq (cmp_on epoch Z.compare)
    (cmp_seq (cmp_on upstream component_cmp) (cmp_on revision component_cmp)) v w).
  { intros v w. unfold version_cmp, cmp_seq, cmp_on. rewrite !compare_component_ok.
    by repeat case_match. }
  split; intros *; rewrite !E; eauto.
Qed.

(** ** Numbers and pre-releases *)

Lemma strip_leading_zeros_digits s : all_digits s -> all_digits (strip_leading_zeros s).
Proof.
  unfold all_digits. induction s as [|c s IH]; simpl; [done|].
  intros [Hc Hs]%andb_prop. destruct (byte_is 48 c); [auto|]. simpl. by rewrite Hc.
Qed.

Lemma strip_leading_zeros_val s : digits_val (strip_leading_zeros s) = digits_val s.
Proof.
  induction s as [|c s IH]; simpl; [done|]. destruct (byte_is 48 c) eqn:E; [|done].
  rewrite IH, digits_val_cons. unfold byte_is, digit_val in *. lia.
Qed.

Lemma strip_leading_zeros_leading s :
  strip_leading_zeros s <> [] -> leading (strip_leading_zeros s).
Proof.
  induction s as [|c s IH]; simpl; [done|]. destruct (byte_is 48 c) eqn:E; [done|].
  intros _. simpl. unfold byte_is, digit_val in *. lia.
Qed.

Lemma compare_digit_val a b :
  all_digits a -> all_digits b -> compare_digit a b = (digits_val a ?= digits_val b)%Z.
Proof.
  intros Ha Hb. rewrite compare_digit_ok. unfold digit_cmp, cmp_seq, cmp_on.
  rewrite num_cmp_ok, !strip_leading_zeros_val; auto using strip_leading_zeros_digits.
  - intros H. apply strip_leading_zeros_leading. by destruct (strip_leading_zeros b); simpl in *; [lia|].
  - intros H. apply strip_leading_zeros_leading. by destruct (strip_leading_zeros a); simpl in *; [lia|].
Qed.

Lemma digits_no_span s :
  all_digits s -> span (fun c => negb (is_ascii_digit c)) s = ([], s).
Proof. destruct s as [|c s]; [done|]. intros [Hc _]%andb_prop. simpl. by rewrite Hc. Qed.

(** A purely numeric component is ordered as an integer of unbounded size. *)
Lemma component_numeric a b :
  all_digits a -> all_digits b -> compare_component a b = (digits_val a ?= digits_val b)%Z.
Proof.
  intros Ha Hb. unfold compare_component. cbn [compare_loop].
  rewrite !digits_no_span, !span_all_id by done.
  change (compare_non_digit [] []) with Eq. cbn [default].
  rewrite compare_digit_val by done. by destruct (_ ?= _)%Z.
Qed.

Lemma non_digit_tilde s w : non_digit_cmp (s ++ "~"%char :: w) s = Lt.
Proof.
  unfold non_digit_cmp, cmp_on at 1. induction s as [|c s IH].
  { by rewrite (pad_cmp_step None (cmp_on nondigit_rank Z.compare)). }
  rewrite (pad_cmp_step None (cmp_on nondigit_rank Z.compare)). unfold get_or at 1 2. simpl.
  unfold cmp_on at 1. rewrite Z.compare_refl. apply IH.
Qed.

Lemma span_app_some p s x h c t :
  span p s = (h, c :: t) -> span p (s ++ x) = (h, (c :: t) ++ x).
Proof.
  intros H. pose proof (span_app _ _ _ _ H) as ->. rewrite <- app_assoc.
  apply span_app_stop; eauto using span_all, span_stop.
Qed.

Lemma span_tilde s t nd s1 :
  forallb (fun c => negb (is_ascii_digit c)) s = true ->
  span (fun c => negb (is_ascii_digit c)) (s ++ "~" ++ t) = (nd, s1) ->
  exists w, nd = s ++ "~"%char :: w.
Proof.
  revert nd s1. induction s as [|c s IH]; simpl; intros nd s1 Hall E.
  - destruct (span _ t). simplify_eq. eauto.
  - apply andb_prop in Hall as [Hc Hs]. rewrite Hc in E.
    destruct (span _ (s ++ _)) as [h u] eqn:E'. simplify_eq.
    destruct (IH h s1 Hs eq_refl) as [w ->]. by exists w.
Qed.

Lemma span_digit_tilde s t dg s2 :
  span is_ascii_digit s = (dg, s2) ->
  span is_ascii_digit (s ++ "~" ++ t) = (dg, s2 ++ "~" ++ t).
Proof.
  intros E. destruct s2 as [|x s2]; [|by apply span_app_some].
  pose proof (span_app _ _ _ _ E) as Hs. rewrite app_nil_r in Hs. subst dg.
  apply span_app_stop; eauto using span_all.
Qed.

(** Appending [~] and anything makes a component older. *)
Lemma component_tilde s t : compare_component (s ++ "~" ++ t) s = Lt.
Proof.
  rewrite compare_component_ok.
  induction s as [s IH] using (induction_ltof1 _ length). unfold ltof in IH.
  destruct (span (fun c => negb (is_ascii_digit c)) s) as [nd s1] eqn:E1.
  destruct (span (fun c => negb (is_ascii_digit c)) (s ++ "~" ++ t)) as [nd' s1'] eqn:E1'.
  destruct (span is_ascii_digit s1) as [dg s2] eqn:E2.
  destruct (span is_ascii_digit s1') as [dg' s2'] eqn:E2'.
  rewrite (component_cmp_step _ _ _ _ _ _ _ _ _ _ E1' E2' E1 E2).
  destruct s1 as [|c s1].
  - pose proof (span_app _ _ _ _ E1) as Hs. rewrite app_nil_r in Hs. subst nd.
    destruct (span_tilde _ _ _ _ (span_all _ _ _ _ E1) E1') as [w ->].
    by rewrite non_digit_tilde.
  - rewrite (span_app_some _ _ _ _ _ _ E1) in E1'. injection E1' as <- <-.
    pose proof (span_digit_tilde _ t _ _ E2) as E3. simpl in E2', E3.
    rewrite E3 in E2'. injection E2' as <- <-.
    rewrite !cmp_refl. apply IH.
    destruct (chunks_head s _ _ _ _ E1 E2) as (_ & _ & Hlt).
    pose proof (span_app _ _ _ _ E1) as ->. rewrite length_app in *. simpl in *. lia.
Qed.

End Deb.
