(* ===== verification/Rpm.v ===== *)
(** * RPM version comparator ([crates/specton-scanner/src/matcher/rpm.rs])

    [rpmvercmp] walks two byte slices with two indices; here an index is the
    suffix it starts, so [a.get(i)] is the head of the suffix and
    [i >= a.len()] is emptiness.  On strings without [~] and [^] the walk is
    related to the lexicographic order of the tokens. *)

From S2P Require Import Prelude Orders Deb.

Module Rpm.

Definition is_tilde (c : ascii) : bool := byte_is 126 c.
Definition is_caret (c : ascii) : bool := byte_is 94 c.

Definition head_is (p : ascii -> bool) (s : str) : bool :=
  match s with
  | c :: _ => p c
  | [] => false
  end.

Definition is_nil (s : str) : bool :=
  match s with
  | [] => true
  | _ => false
  end.

(** Neither alphanumeric nor one of the two markers. *)
Definition is_sep (c : ascii) : bool :=
  negb (is_ascii_alphanumeric c) && negb (is_tilde c) && negb (is_caret c).

Definition skip_sep (s : str) : str := snd (span is_sep s).

(** A single remaining zero is kept. *)
Fixpoint strip_leading_zeros (a : str) : str :=
  match a with
  | c :: a' => if byte_is 48 c && negb (is_nil a') then strip_leading_zeros a' else a
  | [] => a
  end.

(** The run that starts at the head: digits, or letters. *)
Definition segment (is_num : bool) (s : str) : str * str :=
  span (if is_num then is_ascii_digit else is_ascii_alphabetic) s.

Definition segment_cmp (is_num : bool) (a_seg b_seg : str) : comparison :=
  if is_num then
    let a_stripped := strip_leading_zeros a_seg in
    let b_stripped := strip_leading_zeros b_seg in
    match (length a_stripped ?= length b_stripped)%nat with
    | Eq => bytes_cmp a_stripped b_stripped
    | other => other
    end
  else bytes_cmp a_seg b_seg.
#[global] Arguments segment_cmp : simpl never.

(** After the loop: whoever has leftovers wins, unless it is a tilde. *)
Definition rest_cmp (a b : str) : comparison :=
  match a, b with
  | [], [] => Eq
  | x :: _, _ =>
      if is_tilde x then Lt
      else match b with
           | y :: _ => if is_tilde y then Gt else Eq
           | [] => Gt
           end
  | [], y :: _ => if is_tilde y then Gt else Lt
  end.

(** The loop of [rpmvercmp]; [None] is out of fuel. *)
Fixpoint rpm_loop (fuel : nat) (a b : str) : option comparison :=
  match fuel with
  | O => None
  | S n =>
      let a_t := head_is is_tilde a in
      let b_t := head_is is_tilde b in
      if a_t || b_t then
        if a_t && negb b_t then Some Lt
        else if negb a_t && b_t then Some Gt
        else rpm_loop n (tail a) (tail b)
      else
        let a_c := head_is is_caret a in
        let b_c := head_is is_caret b in
        if a_c || b_c then
          if a_c && is_nil b then Some Gt
          else if b_c && is_nil a then Some Lt
          else if a_c && negb b_c then Some Lt
          else if negb a_c && b_c then Some Gt
          else rpm_loop n (tail a) (tail b)
        else
          let a := skip_sep a in
          let b := skip_sep b in
          match a, b with
          | x :: _, y :: _ =>
              if is_tilde x || is_tilde y || is_caret x || is_caret y then rpm_loop n a b
              else
                let a_is_num := is_ascii_digit x in
                let b_is_num := is_ascii_digit y in
                let '(a_seg, a') := segment a_is_num a in
                let '(b_seg, b') := segment b_is_num b in
                if negb (Bool.eqb a_is_num b_is_num) then
                  Some (if a_is_num then Gt else Lt)
                else
                  match segment_cmp a_is_num a_seg b_seg with
                  | Eq => rpm_loop n a' b'
                  | ord => Some ord
                  end
          | _, _ => Some (rest_cmp a b)
          end
  end.

(** Every iteration that goes on consumes at least one byte. *)
Definition rpmvercmp (a b : str) : comparison :=
  if str_eqb a b then Eq
  else default Eq (rpm_loop (S (length a + length b)) a b).

Definition compare (a b : str) : VersionResult comparison :=
  if str_eqb a "" || str_eqb b "" then Err (Invalid "empty rpm version" [])
  else Ok (rpmvercmp a b).

(** ** Reference ordering: tokens *)

(** The maximal digit and letter runs, with their kind. *)
Fixpoint tokens (fuel : nat) (s : str) : list (bool * str) :=
  match fuel with
  | O => []
  | S n =>
      match skip_sep s with
      | [] => []
      | (x :: _) as s1 =>
          let '(seg, s2) := segment (is_ascii_digit x) s1 in
          (is_ascii_digit x, seg) :: tokens n s2
      end
  end.

Definition num_cmp : str -> str -> comparison :=
  cmp_on strip_leading_zeros (cmp_seq (cmp_on length Nat.compare) bytes_cmp).

(** Letters below digits; digits by number, letters by bytes. *)
Definition token_cmp : bool * str -> bool * str -> comparison :=
  cmp_seq (cmp_on (fun t : bool * str => Z.b2z (fst t)) Z.compare)
    (cmp_seq (cmp_on (fun t : bool * str => if fst t then snd t else ([] : str)) num_cmp)
             (cmp_on (fun t : bool * str => if fst t then ([] : str) else snd t) bytes_cmp)).

Definition plain_cmp : str -> str -> comparison :=
  cmp_on (fun s => tokens (S (length s)) s) (list_cmp token_cmp).

(** No pre-release and no post-release marker. *)
Definition plain (s : str) : bool := forallb (fun c => negb (is_tilde c || is_caret c)) s.

#[global] Instance num_cmp_laws : CmpLaws num_cmp.
Proof. apply _. Qed.

#[global] Instance token_cmp_laws : CmpLaws token_cmp.
Proof. apply _. Qed.

#[global] Instance plain_cmp_laws : CmpLaws plain_cmp.
Proof. apply _. Qed.

Lemma segment_cmp_num a b : segment_cmp true a b = num_cmp a b.
Proof. unfold segment_cmp, num_cmp, cmp_seq, cmp_on. by destruct (_ ?= _)%nat. Qed.

Lemma segment_cmp_opp k a b : segment_cmp k b a = CompOpp (segment_cmp k a b).
Proof. destruct k; [rewrite !segment_cmp_num|]; apply cmp_antisym. Qed.

Lemma segment_cmp_token k a b : segment_cmp k a b = token_cmp (k, a) (k, b).
Proof.
  destruct k; [rewrite segment_cmp_num|unfold segment_cmp]; unfold token_cmp, cmp_seq; simpl; [|done].
  unfold cmp_on at 1 2; simpl. by rewrite then_cmp_Eq_r.
Qed.

(** ** Digit tokens are numbers *)

Lemma strip_leading_zeros_spec s :
  all_digits s ->
  all_digits (strip_leading_zeros s) /\
  digits_val (strip_leading_zeros s) = digits_val s /\
  (s <> [] -> strip_leading_zeros s <> []) /\
  (1 < length (strip_leading_zeros s) -> leading (strip_leading_zeros s)).
Proof.
  unfold all_digits. induction s as [|c s IH]; intros Hs.
  { repeat split; [done..|]. simpl. lia. }
  pose proof Hs as [_ Hs']%andb_prop. destruct (IH Hs') as (H1 & H2 & H3 & H4).
  cbn [strip_leading_zeros]. destruct (byte_is 48 c) eqn:Ec; simpl.
  - destruct s as [|c' s]; [cbn in *; repeat split; [done..|lia]|].
    repeat split; [done| |auto|done].
    cbn [negb is_nil]. rewrite H2, (digits_val_cons c). unfold byte_is, digit_val in *. lia.
  - repeat split; [done..|]. intros _. unfold byte_is, digit_val in *. lia.
Qed.

Lemma num_cmp_val a b :
  all_digits a -> all_digits b -> a <> [] -> b <> [] ->
  num_cmp a b = (digits_val a ?= digits_val b)%Z.
Proof.
  intros Ha Hb Na Nb. unfold num_cmp, cmp_seq, cmp_on.
  destruct (strip_leading_zeros_spec a Ha) as (Ha1 & Ha2 & Ha3 & Ha4).
  destruct (strip_leading_zeros_spec b Hb) as (Hb1 & Hb2 & Hb3 & Hb4).
  assert (0 < length (strip_leading_zeros a)) by (destruct (strip_leading_zeros a); simpl; [tauto|lia]).
  assert (0 < length (strip_leading_zeros b)) by (destruct (strip_leading_zeros b); simpl; [tauto|lia]).
  rewrite num_cmp_ok, Ha2, Hb2; auto; intros; [apply Hb4|apply Ha4]; lia.
Qed.

(** ** Progress of the loop *)

Lemma skip_sep_le s : length (skip_sep s) <= length s.
Proof.
  unfold skip_sep. destruct (span is_sep s) eqn:E. rewrite (span_app _ _ _ _ E), length_app.
  simpl. lia.
Qed.

Lemma skip_sep_head s x s' : skip_sep s = x :: s' -> is_sep x = false.
Proof.
  unfold skip_sep. destruct (span is_sep s) eqn:E. simpl. intros ->. eauto using span_stop.
Qed.

(** A marker that skipping uncovers was not at the head. *)
Lemma skip_sep_marker s x s' :
  skip_sep s = x :: s' -> is_tilde x || is_caret x = true ->
  head_is is_tilde s = false -> head_is is_caret s = false -> length (skip_sep s) < length s.
Proof.
  intros Hs Hx Ht Hc. unfold skip_sep in *. destruct (span is_sep s) as [h t] eqn:E.
  simpl in *. rewrite (span_app _ _ _ _ E) in *. destruct h as [|y h]; [|rewrite length_app; simpl; lia].
  simpl in *. subst t. simpl in *. by rewrite Ht, Hc in Hx.
Qed.

Lemma segment_lt x s seg s' :
  is_sep x = false -> is_tilde x = false -> is_caret x = false ->
  segment (is_ascii_digit x) (x :: s) = (seg, s') -> length s' <= length s.
Proof.
  unfold is_sep, segment. intros H Ht Hc. rewrite Ht, Hc in H. simpl in H.
  unfold is_ascii_alphanumeric in H.
  destruct (is_ascii_digit x) eqn:Ed; simpl; [rewrite Ed|]; intros E.
  - destruct (span is_ascii_digit s) eqn:E'. simplify_eq.
    rewrite (span_app _ _ _ _ E'), length_app. lia.
  - destruct (is_ascii_alphabetic x); [|done].
    destruct (span is_ascii_alphabetic s) eqn:E'. simplify_eq.
    rewrite (span_app _ _ _ _ E'), length_app. lia.
Qed.

(** The loop returns. *)
Lemma rpm_loop_total n a b : length a + length b < n -> is_Some (rpm_loop n a b).
Proof.
  revert a b. induction n as [|n IH]; intros a b Hn; [lia|]. cbn [rpm_loop].
  destruct (head_is is_tilde a) eqn:Eta, (head_is is_tilde b) eqn:Etb; simpl; eauto.
  { destruct a, b; simpl in *; try done. apply IH. lia. }
  destruct (head_is is_caret a) eqn:Eca, (head_is is_caret b) eqn:Ecb; simpl.
  { destruct a, b; simpl in *; try done. apply IH. lia. }
  { destruct (is_nil b); eauto. }
  { destruct (is_nil a); eauto. }
  pose proof (skip_sep_le a) as La. pose proof (skip_sep_le b) as Lb.
  destruct (skip_sep a) as [|x a'] eqn:Ea; eauto.
  destruct (skip_sep b) as [|y b'] eqn:Eb; eauto.
  pose proof (skip_sep_head _ _ _ Ea) as Hx. pose proof (skip_sep_head _ _ _ Eb) as Hy.
  pose proof (skip_sep_marker _ _ _ Ea) as Ma. pose proof (skip_sep_marker _ _ _ Eb) as Mb.
  rewrite Ea in Ma. rewrite Eb in Mb.
  destruct (is_tilde x) eqn:Tx; simpl; [specialize (Ma eq_refl Eta Eca); apply IH; simpl in *; lia|].
  destruct (is_tilde y) eqn:Ty; simpl; [specialize (Mb eq_refl Etb Ecb); apply IH; simpl in *; lia|].
  destruct (is_caret x) eqn:Cx; simpl; [specialize (Ma eq_refl Eta Eca); apply IH; simpl in *; lia|].
  destruct (is_caret y) eqn:Cy; simpl; [specialize (Mb eq_refl Etb Ecb); apply IH; simpl in *; lia|].
  destruct (segment (is_ascii_digit x) (x :: a')) as [sa ra] eqn:Sa.
  destruct (segment (is_ascii_digit y) (y :: b')) as [sb rb] eqn:Sb.
  apply segment_lt in Sa; [|done..]. apply segment_lt in Sb; [|done..].
  destruct (negb _); eauto. destruct (segment_cmp _ _ _); eauto. apply IH. simpl in *. lia.
Qed.

(** The loop is antisymmetric. *)
Lemma rpm_loop_opp n a b : rpm_loop n b a = CompOpp <$> rpm_loop n a b.
Proof.
  revert a b. induction n as [|n IH]; intros a b; [done|]. cbn [rpm_loop].
  destruct (head_is is_tilde a), (head_is is_tilde b); simpl; auto.
  destruct (head_is is_caret a) eqn:Eca, (head_is is_caret b) eqn:Ecb; simpl.
  { destruct a, b; simpl in *; auto; done. }
  { by destruct b. }
  { by destruct a. }
  destruct (skip_sep a) as [|x a'], (skip_sep b) as [|y b'];
    [done|simpl; by destruct (is_tilde _)|simpl; by destruct (is_tilde _)|].
  rewrite (orb_comm (is_tilde y)), <- !orb_assoc, (orb_comm (is_caret y)).
  destruct (is_tilde x || (is_tilde y || (is_caret x || is_caret y))); [apply IH|].
  destruct (segment (is_ascii_digit x) _) as [sa ra], (segment (is_ascii_digit y) _) as [sb rb].
  destruct (is_ascii_digit x), (is_ascii_digit y); simpl; try done;
    rewrite (segment_cmp_opp _ sa sb); destruct (segment_cmp _ sa sb); simpl; auto.
Qed.

(** ** Plain strings: the walk is the order of the tokens *)

Lemma plain_head s : plain s = true -> head_is is_tilde s = false /\ head_is is_caret s = false.
Proof.
  destruct s as [|c s]; [done|]. simpl. intros [H _]%andb_prop.
  by destruct (is_tilde c), (is_caret c).
Qed.

Lemma span_plain p s h t : span p s = (h, t) -> plain s = true -> plain t = true.
Proof.
  intros E Hs. rewrite (span_app _ _ _ _ E) in Hs. unfold plain in *.
  rewrite forallb_app in Hs. by apply andb_prop in Hs as [_ Hs].
Qed.

Lemma skip_sep_plain s : plain s = true -> plain (skip_sep s) = true.
Proof. unfold skip_sep. destruct (span is_sep s) eqn:E. eauto using span_plain. Qed.

(** The first token and the rest of a plain string. *)
Lemma plain_step s x s1 seg s2 :
  plain s = true -> skip_sep s = x :: s1 -> segment (is_ascii_digit x) (x :: s1) = (seg, s2) ->
  is_tilde x = false /\ is_caret x = false /\ plain s2 = true /\ length s2 < length s.
Proof.
  intros Hp Hs Hseg. pose proof (skip_sep_plain _ Hp) as Hp1. rewrite Hs in Hp1.
  destruct (plain_head _ Hp1) as [Ht Hc]. simpl in Ht, Hc.
  pose proof (skip_sep_le s) as Hle. rewrite Hs in Hle. simpl in Hle.
  pose proof (segment_lt _ _ _ _ (skip_sep_head _ _ _ Hs) Ht Hc Hseg).
  repeat split; [done..|eauto using span_plain|lia].
Qed.

Lemma tokens_fuel n m s :
  plain s = true -> length s < n -> length s < m -> tokens n s = tokens m s.
Proof.
  revert m s. induction n as [|n IH]; intros m s Hp Hn Hm; [lia|].
  destruct m as [|m]; [lia|]. cbn [tokens]. destruct (skip_sep s) as [|x s1] eqn:E; [done|].
  destruct (segment (is_ascii_digit x) (x :: s1)) as [seg s2] eqn:Es.
  destruct (plain_step _ _ _ _ _ Hp E Es) as (_ & _ & Hp2 & Hlt).
  f_equal. apply IH; [done|lia..].
Qed.

Lemma tokens_nil s : skip_sep s = [] -> tokens (S (length s)) s = [].
Proof. cbn [tokens]. by intros ->. Qed.

Lemma tokens_cons s x s1 seg s2 :
  plain s = true -> skip_sep s = x :: s1 -> segment (is_ascii_digit x) (x :: s1) = (seg, s2) ->
  tokens (S (length s)) s = (is_ascii_digit x, seg) :: tokens (S (length s2)) s2.
Proof.
  intros Hp E Es. destruct (plain_step _ _ _ _ _ Hp E Es) as (_ & _ & Hp2 & Hlt).
  transitivity ((is_ascii_digit x, seg) :: tokens (length s) s2);
    [cbn [tokens]; by rewrite E, Es|]. f_equal. apply tokens_fuel; [done|lia..].
Qed.

Lemma rpm_loop_plain n a b :
  plain a = true -> plain b = true -> length a + length b < n ->
  rpm_loop n a b = Some (plain_cmp a b).
Proof.
  revert a b. induction n as [|n IH]; intros a b Ha Hb Hn; [lia|]. cbn [rpm_loop].
  destruct (plain_head a Ha) as [-> ->], (plain_head b Hb) as [-> ->].
  unfold plain_cmp, cmp_on. simpl orb. cbn match.
  destruct (plain_head _ (skip_sep_plain a Ha)) as [Ta _].
  destruct (plain_head _ (skip_sep_plain b Hb)) as [Tb _].
  destruct (skip_sep a) as [|x a1] eqn:Ea, (skip_sep b) as [|y b1] eqn:Eb;
    rewrite ?(tokens_nil a) by done; rewrite ?(tokens_nil b) by done.
  - done.
  - destruct (segment (is_ascii_digit y) (y :: b1)) as [sb b2] eqn:Sb.
    rewrite (tokens_cons _ _ _ _ _ Hb Eb Sb). simpl in *. by rewrite Tb.
  - destruct (segment (is_ascii_digit x) (x :: a1)) as [sa a2] eqn:Sa.
    rewrite (tokens_cons _ _ _ _ _ Ha Ea Sa). simpl in *. by rewrite Ta.
  - destruct (segment (is_ascii_digit x) (x :: a1)) as [sa a2] eqn:Sa.
    destruct (segment (is_ascii_digit y) (y :: b1)) as [sb b2] eqn:Sb.
    rewrite (tokens_cons _ _ _ _ _ Ha Ea Sa), (tokens_cons _ _ _ _ _ Hb Eb Sb).
    destruct (plain_step _ _ _ _ _ Ha Ea Sa) as (-> & -> & Ha2 & La).
    destruct (plain_step _ _ _ _ _ Hb Eb Sb) as (-> & -> & Hb2 & Lb).
    cbn [orb list_cmp]. rewrite IH by (done || lia).
    destruct (is_ascii_digit x), (is_ascii_digit y); cbn [Bool.eqb negb]; try done;
      rewrite segment_cmp_token; by destruct (token_cmp _ _).
Qed.

Lemma rpmvercmp_plain a b :
  plain a = true -> plain b = true -> rpmvercmp a b = plain_cmp a b.
Proof.
  intros Ha Hb. unfold rpmvercmp, str_eqb. case_bool_decide as E.
  - subst. by rewrite cmp_refl.
  - by rewrite rpm_loop_plain by (done || lia).
Qed.

Lemma rpmvercmp_opp a b : rpmvercmp b a = CompOpp (rpmvercmp a b).
Proof.
  unfold rpmvercmp, str_eqb. rewrite (bool_decide_ext (b = a) (a = b)) by done.
  case_bool_decide; [done|]. rewrite Nat.add_comm, rpm_loop_opp.
  by destruct (rpm_loop _ a b).
Qed.

End Rpm.
