(* ===== verification/Apk.v ===== *)
(** * Alpine version comparator ([crates/specton-scanner/src/matcher/apk.rs])

    [ApkVersion::parse], the ordering, and a printer of the grammar the
    parser documents, with the round trip. *)

From S2P Require Import Prelude Orders Deb.

Module Apk.

Record ApkVersion : Type := mkApkVersion {
  numerics : list Z;
  letter : option ascii;
  suffixes : list (Z * Z);
  revision : Z
}.

Definition suffix_rank (s : str) : option Z :=
  if str_eqb s "alpha" then Some (-4)%Z
  else if str_eqb s "beta" then Some (-3)%Z
  else if str_eqb s "pre" then Some (-2)%Z
  else if str_eqb s "rc" then Some (-1)%Z
  else if str_eqb s "cvs" then Some 1%Z
  else if str_eqb s "svn" then Some 2%Z
  else if str_eqb s "git" then Some 3%Z
  else if str_eqb s "hg" then Some 4%Z
  else if str_eqb s "p" then Some 5%Z
  else None.

(** [-rN], only when everything after it is a digit. *)
Definition parse_revision (s : str) : VersionResult (str * Z) :=
  match rsplit_once_str "-r" s with
  | Some (main, digits) =>
      if forallb is_ascii_digit digits
      then match parse_u64 digits with
           | Some rev => Ok (main, rev)
           | None => Err (Invalid "bad apk revision in {s:?}" [s])
           end
      else Ok (s, 0%Z)
  | None => Ok (s, 0%Z)
  end.

(** [<num>(.<num>)*]; every turn consumes a digit. *)
Fixpoint parse_numerics (fuel : nat) (s chars : str) : VersionResult (list Z * str) :=
  match fuel with
  | O => Err (Invalid "apk version missing numeric component: {s:?}" [s])
  | S n =>
      let '(digits, chars) := span is_ascii_digit chars in
      match digits with
      | [] => Err (Invalid "apk version missing numeric component: {s:?}" [s])
      | _ :: _ =>
          match parse_u64 digits with
          | None => Err (Invalid "apk numeric overflow in {s:?}" [s])
          | Some v =>
              match chars with
              | c :: chars' =>
                  if byte_is 46 c
                  then result_bind (parse_numerics n s chars')
                         (fun '(vs, rest) => Ok (v :: vs, rest))
                  else Ok ([v], chars)
              | [] => Ok ([v], chars)
              end
          end
      end
  end.

Definition parse_letter (chars : str) : option ascii * str :=
  match chars with
  | c :: chars' => if is_ascii_lowercase c then (Some c, chars') else (None, chars)
  | [] => (None, chars)
  end.

(** [(_<suffix>[<digits>])*]; every turn consumes the underscore. *)
Fixpoint parse_suffixes (fuel : nat) (s chars : str) : VersionResult (list (Z * Z) * str) :=
  match fuel with
  | O => Ok ([], chars)
  | S n =>
      match chars with
      | c :: chars1 =>
          if byte_is 95 c then
            let '(name, chars2) := span is_ascii_lowercase chars1 in
            match suffix_rank name with
            | None => Err (Invalid "unknown apk suffix {name:?} in {s:?}" [name; s])
            | Some rank =>
                let '(digits, chars3) := span is_ascii_digit chars2 in
                let num := match digits with
                           | [] => Some 0%Z
                           | _ :: _ => parse_u64 digits
                           end in
                match num with
                | None => Err (Invalid "apk suffix num in {s:?}" [s])
                | Some v => result_bind (parse_suffixes n s chars3)
                              (fun '(vs, rest) => Ok ((rank, v) :: vs, rest))
                end
            end
          else Ok ([], chars)
      | [] => Ok ([], chars)
      end
  end.

Definition parse (s0 : str) : VersionResult ApkVersion :=
  let s := trim s0 in
  if str_eqb s "" then Err (Invalid "empty apk version" [])
  else
    result_bind (parse_revision s) (fun '(main, rev) =>
    let main := match split_once_byte "~" main with
                | Some (h, _) => h
                | None => main
                end in
    result_bind (parse_numerics (S (length main)) s main) (fun '(ns, chars) =>
    let '(l, chars) := parse_letter chars in
    result_bind (parse_suffixes (S (length chars)) s chars) (fun '(sfx, chars) =>
    match chars with
    | _ :: _ => Err (Invalid "trailing garbage in apk version {s:?}" [s])
    | [] => Ok (mkApkVersion ns l sfx rev)
    end))).

Definition suffix_cmp : Z * Z -> Z * Z -> comparison :=
  cmp_seq (cmp_on fst Z.compare) (cmp_on snd Z.compare).

(** Missing numbers are [0] and missing suffixes [(0, 0)]. *)
Definition version_cmp (v w : ApkVersion) : comparison :=
  match pad_cmp 0%Z Z.compare (numerics v) (numerics w) with
  | Eq =>
      match option_cmp byte_cmp (letter v) (letter w) with
      | Eq =>
          match pad_cmp (0, 0)%Z suffix_cmp (suffixes v) (suffixes w) with
          | Eq => (revision v ?= revision w)%Z
          | ord => ord
          end
      | ord => ord
      end
  | ord => ord
  end.

Definition compare (a b : str) : VersionResult comparison :=
  result_bind (parse a) (fun va =>
  result_bind (parse b) (fun vb =>
  Ok (version_cmp va vb))).

(** ** The grammar, as a printer *)

Definition suffix_name (rank : Z) : str :=
  match rank with
  | -4 => "alpha" | -3 => "beta" | -2 => "pre" | -1 => "rc"
  | 1 => "cvs" | 2 => "svn" | 3 => "git" | 4 => "hg" | _ => "p"
  end%Z.

Fixpoint render_numerics (ns : list Z) : str :=
  match ns with
  | [] => ""
  | [n] => dec n
  | n :: ns' => dec n ++ "." ++ render_numerics ns'
  end.

Definition render_suffixes (sfx : list (Z * Z)) : str :=
  concat (map (fun '(rank, n) => "_" ++ suffix_name rank ++ dec n) sfx).

Definition render_letter (l : option ascii) : str :=
  match l with
  | Some c => [c]
  | None => []
  end.

Definition render_main (v : ApkVersion) : str :=
  render_numerics (numerics v) ++ render_letter (letter v) ++ render_suffixes (suffixes v).

Definition render (v : ApkVersion) : str := render_main v ++ "-r" ++ dec (revision v).

(** What the parser can produce. *)
Definition valid_rank (r : Z) : Prop := (-4 <= r <= 5 /\ r <> 0)%Z.

Record wf (v : ApkVersion) : Prop := mkWf {
  wf_nonempty : numerics v <> [];
  wf_numerics : Forall in_u64 (numerics v);
  wf_letter : match letter v with Some c => is_ascii_lowercase c = true | None => True end;
  wf_suffixes : Forall (fun '(r, n) => valid_rank r /\ in_u64 n) (suffixes v);
  wf_revision : in_u64 (revision v)
}.

(** ** Ordering *)

#[global] Instance suffix_cmp_laws : CmpLaws suffix_cmp.
Proof. apply _. Qed.

#[global] Instance apk_version_laws : CmpLaws version_cmp.
Proof.
  set (c := cmp_seq (cmp_on numerics (pad_cmp 0%Z Z.compare))
    (cmp_seq (cmp_on letter (option_cmp byte_cmp))
    (cmp_seq (cmp_on suffixes (pad_cmp (0, 0)%Z suffix_cmp)) (cmp_on revision Z.compare)))).
  assert (CmpLaws c) as [H1 H2 H3] by apply _.
  assert (E : forall v w, version_cmp v w = c v w).
  { intros v w. unfold version_cmp, c, cmp_seq, cmp_on. by repeat case_match. }
  split; intros *; rewrite !E; eauto.
Qed.

(** ** Round trip *)

Lemma dec_head z : (0 <= z)%Z -> exists c s, dec z = c :: s /\ is_ascii_digit c = true.
Proof.
  intros Hz. destruct (dec_spec z Hz) as (_ & Hd & Hn). unfold all_digits in Hd.
  destruct (dec z) as [|c s]; [done|]. apply andb_prop in Hd as [Hc _]. eauto.
Qed.

Lemma parse_numerics_render ns n s rest :
  ns <> [] -> Forall in_u64 ns -> length ns < n ->
  match rest with c :: _ => is_ascii_digit c = false /\ byte_is 46 c = false | [] => True end ->
  parse_numerics n s (render_numerics ns ++ rest) = Ok (ns, rest).
Proof.
  revert n. induction ns as [|x ns IH]; intros n Hne Hall Hn Hr; [done|].
  destruct n as [|n]; [simpl in Hn; lia|]. apply Forall_cons in Hall as [Hx Hall].
  destruct (dec_spec x (proj1 Hx)) as (_ & Hd & Hnil).
  destruct ns as [|y ns].
  - cbn [render_numerics parse_numerics]. rewrite span_app_boundary;
      [|done|by destruct rest; [|destruct Hr]].
    destruct (dec x) as [|c d] eqn:E; [done|]. rewrite <- E, parse_dec by done.
    destruct rest as [|c' rest]; [done|]. destruct Hr as [_ Hr]. by rewrite Hr.
  - change (render_numerics (x :: y :: ns)) with (dec x ++ "." ++ render_numerics (y :: ns)).
    cbn [parse_numerics]. rewrite <- !app_assoc. rewrite span_app_boundary; [|done|done].
    destruct (dec x) as [|c d] eqn:E; [done|]. rewrite <- E, parse_dec by done.
    cbn [app]. change (byte_is 46 "."%char) with true. cbn match.
    rewrite IH; [done|done|done|simpl in *; lia|done].
Qed.

Lemma suffix_rank_name r : valid_rank r -> suffix_rank (suffix_name r) = Some r.
Proof.
  intros [H1 H2].
  assert (r = -4 \/ r = -3 \/ r = -2 \/ r = -1 \/ r = 1 \/ r = 2 \/ r = 3 \/ r = 4 \/ r = 5)%Z
    as Hr by lia.
  by destruct_or! Hr; subst.
Qed.

Lemma suffix_name_lower r : forallb is_ascii_lowercase (suffix_name r) = true.
Proof. unfold suffix_name. by repeat case_match. Qed.

Lemma digit_not_lower c : is_ascii_digit c = true -> is_ascii_lowercase c = false.
Proof. unfold is_ascii_digit, is_ascii_lowercase, byte_in. lia. Qed.

Lemma render_suffixes_head sfx :
  match render_suffixes sfx with
  | c :: _ => c = "_"%char
  | [] => True
  end.
Proof. by destruct sfx as [|[r n] sfx]. Qed.

Lemma parse_suffixes_render sfx n s :
  Forall (fun '(r, n) => valid_rank r /\ in_u64 n) sfx -> length sfx < n ->
  parse_suffixes n s (render_suffixes sfx) = Ok (sfx, []).
Proof.
  revert n. induction sfx as [|[r x] sfx IH]; intros n Hall Hn; (destruct n as [|n]; [simpl in Hn; lia|]);
    [done|].
  apply Forall_cons in Hall as [[Hr Hx] Hall].
  change (render_suffixes ((r, x) :: sfx)) with
    (("_" ++ suffix_name r ++ dec x) ++ render_suffixes sfx).
  cbn [parse_suffixes app]. change (byte_is 95 "_"%char) with true. cbn match.
  destruct (dec_head x (proj1 Hx)) as (c & d & Ed & Hc).
  destruct (dec_spec x (proj1 Hx)) as (_ & Hd & _).
  rewrite <- app_assoc, span_app_boundary;
    [|apply suffix_name_lower|rewrite Ed; by apply digit_not_lower].
  rewrite suffix_rank_name by done.
  rewrite span_app_boundary; [|done|].
  - rewrite Ed, <- Ed. rewrite parse_dec by done. rewrite IH by (done || simpl in *; lia). done.
  - pose proof (render_suffixes_head sfx). by destruct (render_suffixes sfx); subst.
Qed.

(** Bytes of a rendered version before its revision. *)
Definition main_byte (c : ascii) : bool :=
  is_ascii_digit c || is_ascii_lowercase c || byte_is 46 c || byte_is 95 c.

Lemma dec_main_bytes z : (0 <= z)%Z -> forallb main_byte (dec z) = true.
Proof.
  intros Hz. destruct (dec_spec z Hz) as (_ & Hd & _). revert Hd. apply forallb_impl.
  intros c Hc. unfold main_byte. by rewrite Hc.
Qed.

Lemma render_numerics_bytes ns :
  Forall in_u64 ns -> forallb main_byte (render_numerics ns) = true.
Proof.
  induction ns as [|x ns IH]; [done|]. intros [Hx Hall]%Forall_cons.
  destruct ns as [|y ns]; [apply dec_main_bytes, Hx|].
  change (render_numerics (x :: y :: ns)) with (dec x ++ "." ++ render_numerics (y :: ns)).
  rewrite !forallb_app, IH, dec_main_bytes by (done || apply Hx). done.
Qed.

Lemma render_main_bytes v : wf v -> forallb main_byte (render_main v) = true.
Proof.
  intros [H1 H2 H3 H4 H5]. unfold render_main. rewrite !forallb_app, render_numerics_bytes by done.
  cbn [andb]. apply andb_true_intro; split.
  - destruct (letter v) as [c|]; [|done].
    cbn [render_letter forallb]. unfold main_byte. rewrite H3.
    by destruct (is_ascii_digit c).
  - unfold render_suffixes. induction H4 as [|[r x] sfx [Hr Hx] _ IH]; [done|].
    cbn [map concat]. rewrite !forallb_app, IH, dec_main_bytes by apply Hx.
    rewrite (forallb_impl is_ascii_lowercase main_byte (suffix_name r)); [done| |apply suffix_name_lower].
    intros c Hc. unfold main_byte. rewrite Hc. by destruct (is_ascii_digit c).
Qed.

Lemma parse_revision_render v :
  wf v -> parse_revision (render v) = Ok (render_main v, revision v).
Proof.
  intros Hwf. destruct (dec_spec (revision v)) as (_ & Hd & _); [apply (wf_revision v Hwf)|].
  unfold parse_revision, render.
  rewrite (rsplit_once_str_app "-r" (render_main v) _ [] (dec (revision v))).
  - rewrite app_nil_r. unfold all_digits in Hd. rewrite Hd, parse_dec by apply (wf_revision v Hwf).
    done.
  - assert (Hn : rsplit_once_str "-r" (dec (revision v)) = None).
    { apply rsplit_once_str_none. revert Hd. apply forallb_impl. intros c Hc.
      unfold byte_eqb. case_bool_decide; [by subst|done]. }
    cbn [app rsplit_once_str]. rewrite Hn. done.
Qed.

Lemma render_trim v : wf v -> trim (render v) = render v.
Proof.
  intros Hwf. destruct (dec_spec (revision v)) as (_ & Hd & Hn); [apply (wf_revision v Hwf)|].
  assert (exists c m, render v = c :: m /\ is_ascii_digit c = true) as (c & m & Ec & Hc).
  { destruct v as [[|x ns] l sfx rev]; [by destruct (wf_nonempty _ Hwf)|].
    pose proof (wf_numerics _ Hwf) as [Hx _]%Forall_cons.
    destruct (dec_head x (proj1 Hx)) as (c & d & Ed & Hc).
    unfold render, render_main. simpl numerics.
    destruct ns; simpl render_numerics; rewrite Ed; simpl; eauto. }
  destruct (exists_last Hn) as (d & z & Ez).
  assert (is_ascii_digit z = true) as Hz.
  { unfold all_digits in Hd. rewrite Ez, forallb_app in Hd. apply andb_prop in Hd as [_ Hd].
    by apply andb_prop in Hd as [Hd _]. }
  assert (Hg : forall x, is_ascii_digit x = true -> graphic x = true)
    by (unfold is_ascii_digit, graphic, byte_in; intros; lia).
  eapply (trim_graphic _ c z m (render_main v ++ "-r" ++ d)); [done| |auto..].
  unfold render. by rewrite Ez, <- !app_assoc.
Qed.

Lemma main_not_tilde v : wf v -> split_once_byte "~" (render_main v) = None.
Proof.
  intros Hwf. apply split_once_byte_none. generalize (render_main_bytes v Hwf).
  apply forallb_impl. intros c Hc. unfold byte_eqb. by case_bool_decide; [subst|].
Qed.

Lemma render_numerics_length ns : Forall in_u64 ns -> length ns <= length (render_numerics ns).
Proof.
  induction ns as [|x ns IH]; [simpl; lia|]. intros [Hx Hall]%Forall_cons.
  destruct (dec_head x (proj1 Hx)) as (c & d & Ed & _). specialize (IH Hall).
  destruct ns as [|y ns]; [cbn [render_numerics]; rewrite Ed; simpl; lia|].
  change (render_numerics (x :: y :: ns)) with (dec x ++ "." ++ render_numerics (y :: ns)).
  rewrite Ed, !length_app. cbn [length] in *. lia.
Qed.

Lemma render_suffixes_length sfx : length sfx <= length (render_suffixes sfx).
Proof.
  unfold render_suffixes. induction sfx as [|[r x] sfx IH]; cbn [map concat length]; [lia|].
  rewrite !length_app. cbn [length]. lia.
Qed.

Lemma parse_render v : wf v -> parse (render v) = Ok v.
Proof.
  intros Hwf. unfold parse. rewrite render_trim by done.
  assert (str_eqb (render v) "" = false) as ->.
  { unfold str_eqb. case_bool_decide as E; [|done]. unfold render in E.
    by apply app_eq_nil in E as [_ E]. }
  rewrite parse_revision_render by done. cbn [result_bind].
  rewrite main_not_tilde by done. unfold render_main at 2.
  rewrite parse_numerics_render.
  - cbn [result_bind].
    assert (parse_letter (render_letter (letter v) ++ render_suffixes (suffixes v)) =
      (letter v, render_suffixes (suffixes v))) as ->.
    { pose proof (wf_letter v Hwf) as Hl. destruct (letter v) as [c|]; simpl.
      - by rewrite Hl.
      - pose proof (render_suffixes_head (suffixes v)).
        by destruct (render_suffixes (suffixes v)); subst. }
    rewrite parse_suffixes_render.
    + by destruct v.
    + apply (wf_suffixes v Hwf).
    + pose proof (render_suffixes_length (suffixes v)). lia.
  - apply (wf_nonempty v Hwf).
  - apply (wf_numerics v Hwf).
  - pose proof (render_numerics_length (numerics v) (wf_numerics v Hwf)).
    unfold render_main. rewrite length_app. lia.
  - pose proof (wf_letter v Hwf) as Hl. destruct (letter v) as [c|]; simpl.
    + revert Hl. unfold is_ascii_lowercase, is_ascii_digit, byte_in, byte_is. lia.
    + pose proof (render_suffixes_head (suffixes v)).
      by destruct (render_suffixes (suffixes v)); subst.
Qed.

End Apk.
