(* ===== verification/Pep440.v ===== *)
(** * Python version comparator ([crates/specton-scanner/src/matcher/pep440.rs])

    [Pep440Version::parse], the sort key and the order on keys. *)

From S2P Require Import Prelude Orders Deb.

Module Pep440.

Inductive PreKind : Type := Alpha | Beta | Rc.

Record Pep440Version : Type := mkPep440Version {
  epoch : Z;
  release : list Z;
  pre : option (PreKind * Z);
  post : option Z;
  dev : option Z
}.

(** [strip_prefix(['.', '-', '_'])] *)
Definition consume_sep (s : str) : str :=
  match s with
  | c :: s' => if byte_is 46 c || byte_is 45 c || byte_is 95 c then s' else s
  | [] => s
  end.

Fixpoint first_prefix {A} (labels : list (str * A)) (s : str) : option (A * str) :=
  match labels with
  | [] => None
  | (lit, k) :: labels' =>
      match strip_prefix lit s with
      | Some rest => Some (k, rest)
      | None => first_prefix labels' s
      end
  end.

Definition match_pre_label (s : str) : option (PreKind * str) :=
  first_prefix
    [("alpha", Alpha); ("preview", Rc); ("beta", Beta); ("pre", Rc);
     ("rc", Rc); ("c", Rc); ("a", Alpha); ("b", Beta)] s.

Definition match_post_label (s : str) : option str :=
  snd <$> first_prefix [("post", tt); ("rev", tt); ("r", tt)] s.

(** [-<digits>] directly after the release. *)
Definition match_implicit_post (s : str) : option (Z * str) :=
  match strip_prefix "-" s with
  | None => None
  | Some rest =>
      match rest with
      | c :: _ =>
          if is_ascii_digit c then
            let '(digits, after) := span is_ascii_digit rest in
            match parse_u64 digits with
            | Some n => Some (n, after)
            | None => None
            end
          else None
      | [] => None
      end
  end.

Definition parse_optional_digits (s : str) : Z * str :=
  let '(digits, after) := span is_ascii_digit s in
  match digits with
  | [] => (0%Z, s)
  | _ :: _ => (default 0%Z (parse_u64 digits), after)
  end.

(** [digits('.'digits)*]; every turn consumes a digit. *)
Fixpoint parse_release (fuel : nat) (s rest : str) : VersionResult (list Z * str) :=
  match fuel with
  | O => Err (Invalid "pep440 missing release digits in {s:?}" [s])
  | S n =>
      let '(digits, rest) := span is_ascii_digit rest in
      match digits with
      | [] => Err (Invalid "pep440 missing release digits in {s:?}" [s])
      | _ :: _ =>
          match parse_u64 digits with
          | None => Err (Invalid "pep440 release overflow in {s:?}" [s])
          | Some v =>
              match rest with
              | c :: ((d :: _) as rest') =>
                  if byte_is 46 c && is_ascii_digit d
                  then result_bind (parse_release n s rest')
                         (fun '(vs, rest) => Ok (v :: vs, rest))
                  else Ok ([v], rest)
              | _ => Ok ([v], rest)
              end
          end
      end
  end.

Definition parse_epoch (s : str) : VersionResult (Z * str) :=
  match split_once_byte "!" s with
  | Some (h, t) =>
      match parse_u64 h with
      | Some e => Ok (e, t)
      | None => Err (Invalid "pep440 bad epoch in {s:?}" [s])
      end
  | None => Ok (0%Z, s)
  end.

(** Everything after the release. *)
Definition parse_labels (e : Z) (rel : list Z) (s rest : str) : VersionResult Pep440Version :=
  let '(post0, rest) := match match_implicit_post rest with
                        | Some (n, after) => (Some n, after)
                        | None => (None, rest)
                        end in
  let rest := consume_sep rest in
  let '(pre, rest) := match match_pre_label rest with
                      | Some (kind, after) =>
                          let '(n, after) := parse_optional_digits (consume_sep after) in
                          (Some (kind, n), after)
                      | None => (None, rest)
                      end in
  let rest := consume_sep rest in
  let '(post, rest) := match post0 with
                       | Some _ => (post0, rest)
                       | None =>
                           match match_post_label rest with
                           | Some after =>
                               let '(n, after) := parse_optional_digits (consume_sep after) in
                               (Some n, after)
                           | None => (None, rest)
                           end
                       end in
  let rest := consume_sep rest in
  let '(dev, rest) := match strip_prefix "dev" rest with
                      | Some after =>
                          let '(n, after) := parse_optional_digits (consume_sep after) in
                          (Some n, after)
                      | None => (None, rest)
                      end in
  let rest := consume_sep rest in
  match rest with
  | _ :: _ => Err (Invalid "trailing garbage in pep440 version {s:?}: {rest:?}" [s; rest])
  | [] => Ok (mkPep440Version e rel pre post dev)
  end.

Definition parse (s0 : str) : VersionResult Pep440Version :=
  let raw := to_ascii_lowercase (trim s0) in
  let s := default raw (strip_prefix "v" raw) in
  if str_eqb s "" then Err (Invalid "empty pep440 version" [])
  else
    let s := match split_once_byte "+" s with
             | Some (h, _) => h
             | None => s
             end in
    result_bind (parse_epoch s) (fun '(e, rest) =>
    result_bind (parse_release (S (length rest)) s rest) (fun '(rel, rest) =>
    parse_labels e rel s rest)).

(** ** The sort key *)

(** [while rel.len() > 1 && last == 0 { pop }], on the reversed list. *)
Fixpoint pop_zeros (r : list Z) : list Z :=
  match r with
  | x :: ((_ :: _) as r') => if (x =? 0)%Z then pop_zeros r' else r
  | _ => r
  end.

Definition trim_release (rel : list Z) : list Z := rev (pop_zeros (rev rel)).

Definition pre_kind_code (k : PreKind) : Z :=
  match k with
  | Alpha => 0
  | Beta => 1
  | Rc => 2
  end.

Definition pre_key (v : Pep440Version) : Z * Z * Z :=
  match pre v, post v, dev v with
  | None, None, Some _ => (-1, 0, 0)
  | Some (kind, n), _, _ => (0, pre_kind_code kind, n)
  | _, _, _ => (1, 0, 0)
  end%Z.

Definition post_key (v : Pep440Version) : Z * Z :=
  match post v with
  | Some n => (1, n)
  | None => (-1, 0)
  end%Z.

Definition dev_key (v : Pep440Version) : Z * Z :=
  match dev v with
  | Some n => (0, n)
  | None => (1, 0)
  end%Z.

Definition pair_cmp : Z * Z -> Z * Z -> comparison :=
  cmp_seq (cmp_on fst Z.compare) (cmp_on snd Z.compare).

Definition triple_cmp : Z * Z * Z -> Z * Z * Z -> comparison :=
  cmp_seq (cmp_on fst pair_cmp) (cmp_on snd Z.compare).

(** [key().cmp(&other.key())] on the five-tuple. *)
Definition version_cmp : Pep440Version -> Pep440Version -> comparison :=
  cmp_seq (cmp_on epoch Z.compare)
    (cmp_seq (cmp_on (fun v => trim_release (release v)) (list_cmp Z.compare))
    (cmp_seq (cmp_on pre_key triple_cmp)
    (cmp_seq (cmp_on post_key pair_cmp) (cmp_on dev_key pair_cmp)))).

Definition compare (a b : str) : VersionResult comparison :=
  result_bind (parse a) (fun va =>
  result_bind (parse b) (fun vb =>
  Ok (version_cmp va vb))).

(** ** Ordering *)

#[global] Instance pep440_version_laws : CmpLaws version_cmp.
Proof. apply _. Qed.

(** *** Releases compare with missing components read as zero *)

(** No trailing zero. *)
Definition normal (l : list Z) : Prop :=
  match last l with
  | Some x => (x <> 0)%Z
  | None => True
  end.

Lemma normal_tail x l : normal (x :: l) -> normal l.
Proof. unfold normal. by destruct l. Qed.

Lemma pad_cmp_nil l :
  normal l -> Forall (Z.le 0) l -> l <> [] -> pad_cmp 0%Z Z.compare [] l = Lt.
Proof.
  induction l as [|x l IH]; intros Hn Hp Hne; [done|].
  apply Forall_cons in Hp as [Hx Hp]. rewrite (pad_cmp_step 0%Z Z.compare).
  change (get_or 0%Z 0 (x :: l)) with x. change (get_or 0%Z 0 []) with 0%Z. cbn [tail].
  destruct (Z.compare_spec 0 x) as [Hz|Hz|Hz]; cbn [then_cmp]; [|done|lia].
  apply IH; [by eapply normal_tail|done|]. intros ->. unfold normal in Hn. simpl in Hn. lia.
Qed.

Lemma list_cmp_pad l1 l2 :
  normal l1 -> normal l2 -> Forall (Z.le 0) l1 -> Forall (Z.le 0) l2 ->
  list_cmp Z.compare l1 l2 = pad_cmp 0%Z Z.compare l1 l2.
Proof.
  revert l2. induction l1 as [|x l1 IH]; intros [|y l2] N1 N2 P1 P2; [done|..].
  - by rewrite pad_cmp_nil.
  - by rewrite (cmp_antisym (cmp := pad_cmp 0%Z Z.compare) []), pad_cmp_nil.
  - rewrite (pad_cmp_step 0%Z Z.compare). 
    change (get_or 0%Z 0 (x :: l1)) with x. change (get_or 0%Z 0 (y :: l2)) with y.
    cbn [list_cmp tail].
    apply Forall_cons in P1 as [_ P1], P2 as [_ P2].
    rewrite IH; [done|by eapply normal_tail|by eapply normal_tail|done..].
Qed.

Lemma pad_cmp_zeros l1 l2 k1 k2 :
  pad_cmp 0%Z Z.compare (l1 ++ replicate k1 0%Z) (l2 ++ replicate k2 0%Z) =
  pad_cmp 0%Z Z.compare l1 l2.
Proof.
  set (n := length (l1 ++ replicate k1 0%Z) `max` length (l2 ++ replicate k2 0%Z)).
  rewrite <- !(pad_cmp_ext 0%Z Z.compare n); [|unfold n; rewrite ?length_app; lia..].
  generalize (seq 0 n) as ix. induction ix as [|i ix IH]; simpl; [done|].
  assert (G : forall (l : list Z) k, get_or 0%Z i (l ++ replicate k 0%Z) = get_or 0%Z i l).
  { intros l k. unfold get_or. destruct (decide (i < length l)).
    - by rewrite lookup_app_l.
    - rewrite lookup_app_r, (lookup_ge_None_2 l) by lia.
      destruct (replicate k 0%Z !! (i - length l)) eqn:E; [|done].
      by apply lookup_replicate in E as [-> _]. }
  by rewrite !G, IH.
Qed.

(** What is left after popping is the release without its trailing zeros, of
    which one survives when it is the first component. *)
Lemma pop_zeros_spec r :
  r <> [] ->
  exists k, r = replicate k 0%Z ++ pop_zeros r /\
    ((exists x, pop_zeros r = [x]) \/ exists x y t, pop_zeros r = x :: y :: t /\ (x <> 0)%Z).
Proof.
  induction r as [|x r IH]; [done|]. intros _. destruct r as [|y r].
  { exists 0. split; [done|]. left. by exists x. }
  destruct (Z.eqb_spec x 0) as [->|Hx].
  - destruct (IH ltac:(done)) as (k & E & Hc). exists (S k).
    change (pop_zeros (0%Z :: y :: r)) with (pop_zeros (y :: r)). split; [|done].
    rewrite E at 1. done.
  - exists 0. change (pop_zeros (x :: y :: r)) with
      (if (x =? 0)%Z then pop_zeros (y :: r) else x :: y :: r).
    rewrite (proj2 (Z.eqb_neq x 0)) by done. split; [done|]. right. by exists x, y, r.
Qed.

Lemma rev_replicate {A} k (x : A) : rev (replicate k x) = replicate k x.
Proof. induction k as [|k IH]; [done|]. simpl. by rewrite IH, <- replicate_cons_app. Qed.

Lemma trim_release_spec rel :
  rel <> [] ->
  exists x t k, trim_release rel = x :: t /\ normal t /\ rel = (x :: t) ++ replicate k 0%Z.
Proof.
  intros Hne. unfold trim_release.
  assert (Hr : rev rel <> []) by (intros E; apply Hne; by rewrite <- (rev_involutive rel), E).
  destruct (pop_zeros_spec (rev rel) Hr) as (k & E & Hc).
  assert (Erel : rel = rev (pop_zeros (rev rel)) ++ replicate k 0%Z).
  { rewrite <- (rev_involutive rel) at 1. rewrite E at 1. rewrite rev_app_distr. f_equal.
    apply rev_replicate. }
  destruct Hc as [[x Ex]|(x & y & t & Ex & Hx)]; rewrite Ex in *; simpl in *.
  - by exists x, [], k.
  - destruct (rev t ++ [y]) as [|a l] eqn:Ea; [by destruct (rev t)|].
    exists a, (l ++ [x]), k. repeat split; [|done]. unfold normal. by rewrite last_snoc.
Qed.

Lemma release_cmp_pad r1 r2 :
  r1 <> [] -> r2 <> [] -> Forall (Z.le 0) r1 -> Forall (Z.le 0) r2 ->
  list_cmp Z.compare (trim_release r1) (trim_release r2) = pad_cmp 0%Z Z.compare r1 r2.
Proof.
  intros N1 N2 P1 P2.
  destruct (trim_release_spec r1 N1) as (x & t1 & k1 & -> & H1 & E1).
  destruct (trim_release_spec r2 N2) as (y & t2 & k2 & -> & H2 & E2).
  rewrite E1, E2 in *. rewrite pad_cmp_zeros.
  apply Forall_app in P1 as [P1 _], P2 as [P2 _].
  apply Forall_cons in P1 as [_ P1], P2 as [_ P2].
  rewrite (pad_cmp_step 0%Z Z.compare). cbn [list_cmp]. by rewrite list_cmp_pad.
Qed.

End Pep440.
