(* ===== verification/Matcher.v ===== *)
(** * Matching installed packages against advisories

    The per-ecosystem dispatch ([matcher/mod.rs]), the Go and semver
    comparators ([matcher/go.rs], [matcher/semver_ecosystem.rs]) and the
    in-process filter of [SpectonVulnDb::query] ([vulndb/specton.rs]).

    The [semver] crate and the database are parameters: [semver_parse] and
    [semver_cmp] for [semver::Version], [fetch] for the join of
    [affected_ranges] with [vulnerabilities].  The class [LawfulCompare] is
    what a comparator promises to the range check. *)

From S2P Require Import Prelude Json Orders Deb Rpm Apk Pep440.

Definition Comparator : Type := str -> str -> VersionResult comparison.

(** A comparator that parses both sides and compares the results with a
    lawful order. *)
Class LawfulCompare (compare : Comparator) : Type := mkLawfulCompare {
  lc_version : Type;
  lc_parse : str -> VersionResult lc_version;
  lc_cmp : lc_version -> lc_version -> comparison;
  lc_laws :: CmpLaws lc_cmp;
  lc_compare a b :
    compare a b =
    result_bind (lc_parse a) (fun va => result_bind (lc_parse b) (fun vb => Ok (lc_cmp va vb)))
}.

(** [model.rs] *)
Inductive Severity : Type := Critical | High | Medium | Low | Unknown.

Definition rank (s : Severity) : Z :=
  match s with
  | Critical => 4
  | High => 3
  | Medium => 2
  | Low => 1
  | Unknown => 0
  end.

(** [f64] values are carried, never computed with: their bit pattern. *)
Record Vulnerability : Type := mkVulnerability {
  v_id : str;
  v_aliases : list str;
  v_package : str;
  v_ecosystem : str;
  v_installed_version : str;
  v_fixed_version : option str;
  v_severity : Severity;
  v_cvss_score : option Z;
  v_summary : option str;
  v_description : option str;
  v_layer_digest : option str;
  v_references : list str;
  v_suppressed : bool
}.

Record Package : Type := mkPackage {
  p_name : str;
  p_version : str;
  p_ecosystem : str;
  p_purl : str;
  p_layer_digest : option str
}.

Record QueryRow : Type := mkQueryRow {
  r_id : str;
  r_aliases : list str;
  r_summary : option str;
  r_description : option str;
  r_severity : option str;
  r_cvss_score : option Z;
  r_refs : json;
  r_introduced : option str;
  r_fixed : option str;
  r_last_affected : option str
}.

Section matcher.
Context {SemVersion : Type}.
Context (semver_parse : str -> result SemVersion str).
Context (semver_cmp : SemVersion -> SemVersion -> comparison).

(** ** [semver_ecosystem.rs] *)

(** [trim_start_matches('v')] *)
Definition trim_start_v (s : str) : str := snd (span (byte_is 118) s).

Definition semver_side (s : str) : VersionResult SemVersion :=
  map_err (fun e => Invalid "{a}: {e}" [s; e]) (semver_parse (trim_start_v s)).

Definition semver_compare : Comparator := fun a b =>
  result_bind (semver_side a) (fun va =>
  result_bind (semver_side b) (fun vb =>
  Ok (semver_cmp va vb))).

(** ** [go.rs] *)

(** The core is what precedes the first [-] or [+]. *)
Definition pad_to_three (s : str) : str :=
  let '(core, tail) := span (fun c => negb (byte_is 45 c || byte_is 43 c)) s in
  match length (filter (fun c => byte_is 46 c) core) with
  | 0 => core ++ ".0.0" ++ tail
  | 1 => core ++ ".0" ++ tail
  | _ => s
  end.

Definition go_parse (s0 : str) : VersionResult SemVersion :=
  let s := trim s0 in
  if str_eqb s "" then Err (Invalid "empty go version" [])
  else
    let s := default s (strip_prefix "v" s) in
    let s := default s (strip_suffix "+incompatible" s) in
    map_err (fun e => Invalid "go version {s:?}: {e}" [s; e]) (semver_parse (pad_to_three s)).

Definition go_compare : Comparator := fun a b =>
  result_bind (go_parse a) (fun va =>
  result_bind (go_parse b) (fun vb =>
  Ok (semver_cmp va vb))).

(** ** [mod.rs] *)

Definition for_ecosystem (ecosystem : str) : option Comparator :=
  if str_eqb ecosystem "npm" || str_eqb ecosystem "cargo" then Some semver_compare
  else if str_eqb ecosystem "deb" then Some Deb.compare
  else if str_eqb ecosystem "rpm" then Some Rpm.compare
  else if str_eqb ecosystem "apk" then Some Apk.compare
  else if str_eqb ecosystem "pypi" then Some Pep440.compare
  else if str_eqb ecosystem "go" then Some go_compare
  else None.

(** ** [vulndb/specton.rs] *)

(** The three bounds, each with its early return. *)
Definition below_introduced (cmp : Comparator) (installed : str) (row : QueryRow) : bool :=
  match r_introduced row with
  | Some intro =>
      if negb (str_eqb intro "0")
      then match cmp installed intro with
           | Ok Lt => true
           | Err _ => true
           | _ => false
           end
      else false
  | None => false
  end.

Definition at_or_above_fixed (cmp : Comparator) (installed : str) (row : QueryRow) : bool :=
  match r_fixed row with
  | Some fixed =>
      match cmp installed fixed with
      | Ok Lt => false
      | Ok _ => true
      | Err _ => true
      end
  | None => false
  end.

Definition above_last_affected (cmp : Comparator) (installed : str) (row : QueryRow) : bool :=
  match r_last_affected row with
  | Some last =>
      match cmp installed last with
      | Ok Gt => true
      | Err _ => true
      | _ => false
      end
  | None => false
  end.

Definition in_range (cmp : Comparator) (installed : str) (row : QueryRow) : bool :=
  if below_introduced cmp installed row then false
  else if at_or_above_fixed cmp installed row then false
  else if above_last_affected cmp installed row then false
  else true.

Definition parse_severity (s : option str) : Severity :=
  match s with
  | Some t =>
      if str_eqb t "CRITICAL" then Critical
      else if str_eqb t "HIGH" then High
      else if str_eqb t "MEDIUM" then Medium
      else if str_eqb t "LOW" then Low
      else Unknown
  | None => Unknown
  end.

Definition extract_refs (v : json) : list str :=
  match v with
  | JArray items => omap (fun it => match it with JString s => Some s | _ => None end) items
  | _ => []
  end.

Definition finding (pkg : Package) (row : QueryRow) : Vulnerability :=
  mkVulnerability (r_id row) (r_aliases row) (p_name pkg) (p_ecosystem pkg) (p_version pkg)
    (r_fixed row) (parse_severity (r_severity row)) (r_cvss_score row) (r_summary row)
    (r_description row) (p_layer_digest pkg) (extract_refs (r_refs row)) false.

(** The loop over the rows of one package; [seen] is the set of ids already
    reported for it. *)
Fixpoint query_rows (cmp : Comparator) (pkg : Package) (seen : gset str)
    (rows : list QueryRow) : list Vulnerability :=
  match rows with
  | [] => []
  | row :: rows' =>
      if negb (in_range cmp (p_version pkg) row) then query_rows cmp pkg seen rows'
      else if bool_decide (r_id row ∈ seen) then query_rows cmp pkg seen rows'
      else finding pkg row :: query_rows cmp pkg ({[r_id row]} ∪ seen) rows'
  end.

Context {DbError : Type}.
Context (fetch : str -> str -> result (list QueryRow) DbError).

Fixpoint query (packages : list Package) : result (list Vulnerability) DbError :=
  match packages with
  | [] => Ok []
  | pkg :: packages' =>
      match for_ecosystem (p_ecosystem pkg) with
      | None => query packages'
      | Some cmp =>
          result_bind (fetch (p_ecosystem pkg) (p_name pkg)) (fun rows =>
          result_bind (query packages') (fun out =>
          Ok (query_rows cmp pkg ∅ rows ++ out)))
      end
  end.

End matcher.

(** ** Instances *)

#[export] Instance deb_lawful : LawfulCompare Deb.compare.
Proof. exact (mkLawfulCompare _ _ Deb.parse Deb.version_cmp _ (fun a b => eq_refl)). Defined.

#[export] Instance apk_lawful : LawfulCompare Apk.compare.
Proof. exact (mkLawfulCompare _ _ Apk.parse Apk.version_cmp _ (fun a b => eq_refl)). Defined.

#[export] Instance pep440_lawful : LawfulCompare Pep440.compare.
Proof. exact (mkLawfulCompare _ _ Pep440.parse Pep440.version_cmp _ (fun a b => eq_refl)). Defined.

(** [semver::Version] implements [Ord]; its laws are the hypothesis. *)
#[export] Instance semver_lawful {V} (parse : str -> result V str) cmp `{!CmpLaws cmp} :
  LawfulCompare (semver_compare parse cmp).
Proof. exact (mkLawfulCompare _ _ (semver_side parse) cmp _ (fun a b => eq_refl)). Defined.

#[export] Instance go_lawful {V} (parse : str -> result V str) cmp `{!CmpLaws cmp} :
  LawfulCompare (go_compare parse cmp).
Proof. exact (mkLawfulCompare _ _ (go_parse parse) cmp _ (fun a b => eq_refl)). Defined.

(** ** The range check against the interface *)

Section range.
Context (compare : Comparator) `{!LawfulCompare compare}.

(** [a <= b], [a < b] for versions that both parse. *)
Definition version_le (a b : str) : Prop := compare a b = Ok Lt \/ compare a b = Ok Eq.
Definition version_lt (a b : str) : Prop := compare a b = Ok Lt.

Lemma compare_ok_inv a b c :
  compare a b = Ok c ->
  exists va vb, lc_parse a = Ok va /\ lc_parse b = Ok vb /\ lc_cmp va vb = c.
Proof.
  rewrite lc_compare. destruct (lc_parse a) as [va|], (lc_parse b) as [vb|]; simpl; try done.
  intros [= <-]. eauto.
Qed.

Lemma compare_ok a b va vb :
  lc_parse a = Ok va -> lc_parse b = Ok vb -> compare a b = Ok (lc_cmp va vb).
Proof. intros Ha Hb. by rewrite lc_compare, Ha, Hb. Qed.

Lemma version_le_inv a b :
  version_le a b ->
  exists va vb, lc_parse a = Ok va /\ lc_parse b = Ok vb /\ lc_cmp va vb <> Gt.
Proof.
  intros [(va & vb & Ha & Hb & H)%compare_ok_inv|(va & vb & Ha & Hb & H)%compare_ok_inv];
    exists va, vb; rewrite H; done.
Qed.

Lemma version_le_intro a b va vb :
  lc_parse a = Ok va -> lc_parse b = Ok vb -> lc_cmp va vb <> Gt -> version_le a b.
Proof.
  intros Ha Hb H. unfold version_le. rewrite (compare_ok a b va vb) by done.
  destruct (lc_cmp va vb); naive_solver.
Qed.

Lemma version_le_trans a b c : version_le a b -> version_le b c -> version_le a c.
Proof.
  intros (va & vb & Ha & Hb & H1)%version_le_inv (vb' & vc & Hb' & Hc & H2)%version_le_inv.
  assert (vb' = vb) as -> by congruence.
  eapply version_le_intro; eauto. by eapply cmp_le_trans.
Qed.

Lemma version_le_lt_trans a b c : version_le a b -> version_lt b c -> version_lt a c.
Proof.
  intros (va & vb & Ha & Hb & H1)%version_le_inv (vb' & vc & Hb' & Hc & H2)%compare_ok_inv.
  assert (vb' = vb) as -> by congruence.
  unfold version_lt. rewrite (compare_ok a c va vc) by done. f_equal.
  destruct (lc_cmp va vb) eqn:E; [by rewrite (cmp_eq_l va vb vc)|by eapply cmp_trans_lt|done].
Qed.

Lemma version_le_ge a b : version_le a b <-> compare b a = Ok Eq \/ compare b a = Ok Gt.
Proof.
  split.
  - intros (va & vb & Ha & Hb & H)%version_le_inv. rewrite (compare_ok b a vb va) by done.
    rewrite (cmp_antisym va vb). destruct (lc_cmp va vb); simpl; naive_solver.
  - intros [(vb & va & Hb & Ha & H)%compare_ok_inv|(vb & va & Hb & Ha & H)%compare_ok_inv];
      eapply version_le_intro; eauto; rewrite (cmp_antisym vb va), H; done.
Qed.

(** What [in_range] decides. *)
Lemma in_range_iff v row :
  in_range compare v row = true <->
  (forall intro, r_introduced row = Some intro -> intro <> "0" -> version_le intro v) /\
  (forall fixed, r_fixed row = Some fixed -> version_lt v fixed) /\
  (forall last, r_last_affected row = Some last -> version_le v last).
Proof.
  unfold in_range, below_introduced, at_or_above_fixed, above_last_affected, str_eqb.
  split.
  - intros H. repeat split.
    + intros intro Hi Hne. rewrite Hi in H. rewrite bool_decide_false in H by done. simpl in H.
      apply version_le_ge. destruct (compare v intro) as [[| |]|]; simpl in H; naive_solver.
    + intros fixed Hf. rewrite Hf in H. unfold version_lt.
      destruct (compare v fixed) as [[| |]|]; repeat case_match; naive_solver.
    + intros last Hl. rewrite Hl in H. unfold version_le.
      destruct (compare v last) as [[| |]|]; repeat case_match; naive_solver.
  - intros (H1 & H2 & H3).
    assert (E1 : match r_introduced row with
      | Some intro => if negb (bool_decide (intro = "0")) then
          match compare v intro with Ok Lt => true | Err _ => true | _ => false end else false
      | None => false end = false).
    { destruct (r_introduced row) as [intro|]; [|done]. case_bool_decide; [done|]. simpl.
      destruct (proj1 (version_le_ge _ _) (H1 intro eq_refl ltac:(done))) as [-> | ->]; done. }
    rewrite E1. destruct (r_fixed row) as [fixed|].
    + rewrite (H2 fixed eq_refl). destruct (r_last_affected row) as [last|]; [|done].
      by destruct (H3 last eq_refl) as [-> | ->].
    + destruct (r_last_affected row) as [last|]; [|done].
      by destruct (H3 last eq_refl) as [-> | ->].
Qed.

(** A range is an interval: a version between two affected ones is
    affected. *)
Lemma in_range_convex lo v hi row :
  in_range compare lo row = true -> in_range compare hi row = true ->
  version_le lo v -> version_le v hi -> in_range compare v row = true.
Proof.
  rewrite !in_range_iff. intros (L1 & _ & _) (_ & H2 & H3) Hlo Hhi.
  repeat split; eauto using version_le_trans, version_le_lt_trans.
Qed.
End range.

(** ** The query loop *)

Lemma query_rows_in cmp pkg seen rows v :
  v ∈ query_rows cmp pkg seen rows ->
  exists row, row ∈ rows /\ in_range cmp (p_version pkg) row = true /\ v = finding pkg row /\
    r_id row ∉ seen.
Proof.
  revert seen. induction rows as [|row rows IH]; intros seen; simpl; [by rewrite elem_of_nil|].
  destruct (in_range cmp (p_version pkg) row) eqn:E; simpl.
  - case_bool_decide as Hs.
    + intros (row' & ? & ? & ? & ?)%IH. exists row'. rewrite elem_of_cons. auto.
    + rewrite elem_of_cons. intros [->|(row' & ? & ? & ? & ?)%IH].
      * exists row. rewrite elem_of_cons. auto.
      * exists row'. rewrite elem_of_cons. set_solver.
  - intros (row' & ? & ? & ? & ?)%IH. exists row'. rewrite elem_of_cons. auto.
Qed.

Lemma query_rows_complete cmp pkg seen rows row :
  row ∈ rows -> in_range cmp (p_version pkg) row = true ->
  r_id row ∈ seen \/ r_id row ∈ v_id <$> query_rows cmp pkg seen rows.
Proof.
  revert seen. induction rows as [|row' rows IH]; intros seen; [by rewrite elem_of_nil|].
  rewrite elem_of_cons. simpl. intros [->|Hin] Hr.
  - rewrite Hr. simpl. case_bool_decide; [by left|]. right. rewrite fmap_cons. set_solver.
  - destruct (negb _); [auto|]. case_bool_decide; [auto|].
    destruct (IH ({[r_id row']} ∪ seen) Hin Hr) as [[->%elem_of_singleton|?]%elem_of_union|?];
      rewrite ?fmap_cons; set_solver.
Qed.

Lemma query_rows_nodup cmp pkg seen rows : NoDup (v_id <$> query_rows cmp pkg seen rows).
Proof.
  revert seen. induction rows as [|row rows IH]; intros seen; simpl; [constructor|].
  destruct (negb _); [auto|]. case_bool_decide; [auto|].
  rewrite fmap_cons. constructor; [|auto]. simpl.
  intros (v & Hv & (row' & _ & _ & -> & Hn)%query_rows_in)%list_elem_of_fmap.
  simpl in Hv. set_solver.
Qed.
