(* ===== verification/Policy.v ===== *)
(** * Scan policy ([crates/specton-scanner/src/policy.rs]) and suppression
    ([crates/specton-scanner/src/suppress.rs])

    Threshold rules evaluated on the counts of unsuppressed findings, and the
    suppression table with its transactions. *)

From S2P Require Import Prelude Orders Deb Matcher.

(** ** Counting *)

Record ScanSummary : Type := mkScanSummary {
  critical : Z; high : Z; medium : Z; low : Z; unknown : Z
}.

Definition summary_default : ScanSummary := mkScanSummary 0 0 0 0 0.

(** [u32] counters wrap around. *)
Definition u32_incr (z : Z) : Z := ((z + 1) mod (u32_max + 1))%Z.

Definition summary_add (s : ScanSummary) (sev : Severity) : ScanSummary :=
  match sev with
  | Critical => mkScanSummary (u32_incr (critical s)) (high s) (medium s) (low s) (unknown s)
  | High => mkScanSummary (critical s) (u32_incr (high s)) (medium s) (low s) (unknown s)
  | Medium => mkScanSummary (critical s) (high s) (u32_incr (medium s)) (low s) (unknown s)
  | Low => mkScanSummary (critical s) (high s) (medium s) (u32_incr (low s)) (unknown s)
  | Unknown => mkScanSummary (critical s) (high s) (medium s) (low s) (u32_incr (unknown s))
  end.

(** ** Rules *)

(** The operator and the rest of the rule, longest operator first. *)
Inductive rule_op : Type := OpGe | OpLe | OpGt | OpLt | OpEq.

Definition split_op (rule : str) : option (rule_op * str) :=
  match strip_prefix ">=" rule with
  | Some r => Some (OpGe, r)
  | None =>
      match strip_prefix "<=" rule with
      | Some r => Some (OpLe, r)
      | None =>
          match strip_prefix ">" rule with
          | Some r => Some (OpGt, r)
          | None =>
              match strip_prefix "<" rule with
              | Some r => Some (OpLt, r)
              | None =>
                  match strip_prefix "=" rule with
                  | Some r => Some (OpEq, r)
                  | None => None
                  end
              end
          end
      end
  end.

Definition op_holds (op : rule_op) (count threshold : Z) : bool :=
  match op with
  | OpGt => (threshold <? count)%Z
  | OpGe => (threshold <=? count)%Z
  | OpLt => (count <? threshold)%Z
  | OpLe => (count <=? threshold)%Z
  | OpEq => (count =? threshold)%Z
  end.

(** [count OP value]; a rule that does not parse never matches. *)
Definition rule_matches (count : Z) (rule : str) : bool :=
  match split_op (trim rule) with
  | None => false
  | Some (op, rest) =>
      match parse_u32 (trim rest) with
      | None => false
      | Some threshold => op_holds op count threshold
      end
  end.

Record BlockRules : Type := mkBlockRules {
  b_critical : option str;
  b_high : option str;
  b_medium : option str;
  b_low : option str
}.

Record PolicyViolation : Type := mkPolicyViolation {
  pv_severity : Severity;
  pv_count : Z;
  pv_threshold : str
}.

Inductive PolicyStatus : Type := Pass | Fail.

Record PolicyEvaluation : Type := mkPolicyEvaluation {
  pe_status : PolicyStatus;
  pe_violations : list PolicyViolation;
  pe_reason : option str
}.

Definition check (severity : Severity) (count : Z) (rule : option str) : list PolicyViolation :=
  match rule with
  | None => []
  | Some rule =>
      if rule_matches count rule then [mkPolicyViolation severity count rule] else []
  end.

Definition summarize (vulns : list Vulnerability) : ScanSummary :=
  fold_left (fun s v => summary_add s (v_severity v))
    (List.filter (fun v => negb (v_suppressed v)) vulns) summary_default.

Definition evaluate (block_if : BlockRules) (vulns : list Vulnerability) : PolicyEvaluation :=
  let summary := summarize vulns in
  let violations :=
    check Critical (critical summary) (b_critical block_if) ++
    check High (high summary) (b_high block_if) ++
    check Medium (medium summary) (b_medium block_if) ++
    check Low (low summary) (b_low block_if) in
  match violations with
  | [] => mkPolicyEvaluation Pass [] None
  | _ :: _ =>
      mkPolicyEvaluation Fail violations
        (Some (dec (Z.of_nat (length violations)) ++ " policy violation(s)"))
  end.

(** ** Suppressions

    The [suppressions] and [audit_log] tables.  [now] is the database clock.
    [tx] is the error of the first statement of the transaction that fails,
    if one does: then nothing is committed. *)

Record SuppressionRow : Type := mkSuppressionRow {
  s_id : Z;
  s_cve_id : str;
  s_scope_tenant : option str;
  s_scope_project : option str;
  s_scope_repository : option str;
  s_scope_package : option str;
  s_reason : str;
  s_created_by : str;
  s_created_at : Z;
  s_expires_at : option Z;
  s_revoked_at : option Z
}.

Record AuditLogRow : Type := mkAuditLogRow {
  al_actor : str;
  al_action : str;
  al_target_id : Z
}.

Record SupDb : Type := mkSupDb {
  suppressions : list SuppressionRow;
  audit_log : list AuditLogRow
}.

Record NewSuppression : Type := mkNewSuppression {
  n_cve_id : str;
  n_scope_tenant : option str;
  n_scope_project : option str;
  n_scope_repository : option str;
  n_scope_package : option str;
  n_reason : str;
  n_expires_at : option Z
}.

(** [id] is the fresh [Uuid::new_v4()]. *)
Definition create (db : SupDb) (tx : option str) (now : Z) (id : Z) (actor : str)
    (input : NewSuppression) : SupDb * result Z str :=
  match tx with
  | Some e => (db, Err e)
  | None =>
      (mkSupDb
         (suppressions db ++
           [mkSuppressionRow id (n_cve_id input) (n_scope_tenant input) (n_scope_project input)
              (n_scope_repository input) (n_scope_package input) (n_reason input) actor now
              (n_expires_at input) None])
         (audit_log db ++ [mkAuditLogRow actor "suppression.create" id]), Ok id)
  end.

Definition active_id (id : Z) (r : SuppressionRow) : bool :=
  (s_id r =? id)%Z && bool_decide (s_revoked_at r = None).

Definition revoke_row (now : Z) (r : SuppressionRow) : SuppressionRow :=
  mkSuppressionRow (s_id r) (s_cve_id r) (s_scope_tenant r) (s_scope_project r)
    (s_scope_repository r) (s_scope_package r) (s_reason r) (s_created_by r) (s_created_at r)
    (s_expires_at r) (Some now).

(** [Ok(false)] and a rollback when no active row has this id. *)
Definition revoke (db : SupDb) (tx : option str) (now : Z) (actor : str) (id : Z) :
    SupDb * result bool str :=
  match tx with
  | Some e => (db, Err e)
  | None =>
      if existsb (active_id id) (suppressions db) then
        (mkSupDb
           (map (fun r => if active_id id r then revoke_row now r else r) (suppressions db))
           (audit_log db ++ [mkAuditLogRow actor "suppression.revoke" id]), Ok true)
      else (db, Ok false)
  end.

(** [col IS NULL OR col = v] *)
Definition scope_ok (col : option str) (v : str) : bool :=
  match col with
  | None => true
  | Some c => str_eqb c v
  end.

Definition suppression_hit (now : Z) (tenant project repository : str) (v : Vulnerability)
    (r : SuppressionRow) : bool :=
  str_eqb (s_cve_id r) (v_id v)
  && bool_decide (s_revoked_at r = None)
  && match s_expires_at r with None => true | Some e => (now <? e)%Z end
  && scope_ok (s_scope_tenant r) tenant
  && scope_ok (s_scope_project r) project
  && scope_ok (s_scope_repository r) repository
  && scope_ok (s_scope_package r) (v_package v).

Definition set_suppressed (v : Vulnerability) : Vulnerability :=
  mkVulnerability (v_id v) (v_aliases v) (v_package v) (v_ecosystem v) (v_installed_version v)
    (v_fixed_version v) (v_severity v) (v_cvss_score v) (v_summary v) (v_description v)
    (v_layer_digest v) (v_references v) true.

(** [apply]: one lookup per finding, in order.  [clock i] is the database
    clock at the [i]-th lookup and [errs i] the error it fails with, if it
    does: the findings before it keep their marks. *)
Fixpoint apply (db : SupDb) (clock : nat -> Z) (errs : nat -> option str)
    (tenant project repository : str) (i : nat) (vulns : list Vulnerability) :
    list Vulnerability * result unit str :=
  match vulns with
  | [] => ([], Ok tt)
  | v :: vulns' =>
      match errs i with
      | Some e => (vulns, Err e)
      | None =>
          let v := if existsb (suppression_hit (clock i) tenant project repository v)
                        (suppressions db)
                   then set_suppressed v else v in
          let '(rest, r) := apply db clock errs tenant project repository (S i) vulns' in
          (v :: rest, r)
      end
  end.

(** What [apply] leaves when no lookup fails and the clock stands still. *)
Definition apply_suppressions (db : SupDb) (now : Z) (tenant project repository : str)
    (vulns : list Vulnerability) : list Vulnerability :=
  map (fun v => if existsb (suppression_hit now tenant project repository v) (suppressions db)
                then set_suppressed v else v) vulns.

(** ** Counts *)

Definition count_of (sev : Severity) (s : ScanSummary) : Z :=
  match sev with
  | Critical => critical s
  | High => high s
  | Medium => medium s
  | Low => low s
  | Unknown => unknown s
  end.

#[export] Instance Severity_eq_dec : EqDecision Severity.
Proof. solve_decision. Defined.

(** The findings that count for a severity. *)
Definition counted (sev : Severity) (vulns : list Vulnerability) : list Vulnerability :=
  List.filter (fun v => negb (v_suppressed v) && bool_decide (v_severity v = sev)) vulns.

Lemma count_of_add sev s sev' :
  count_of sev (summary_add s sev') =
  if bool_decide (sev' = sev) then u32_incr (count_of sev s) else count_of sev s.
Proof. by destruct sev, sev'. Qed.

Lemma u32_incr_mod z : u32_incr (z mod (u32_max + 1)) = ((z + 1) mod (u32_max + 1))%Z.
Proof. unfold u32_incr. by rewrite Zplus_mod_idemp_l. Qed.

Lemma summarize_acc sev vulns s n :
  count_of sev s = (n mod (u32_max + 1))%Z ->
  count_of sev (fold_left (fun s v => summary_add s (v_severity v))
    (List.filter (fun v => negb (v_suppressed v)) vulns) s) =
  ((n + Z.of_nat (length (counted sev vulns))) mod (u32_max + 1))%Z.
Proof.
  revert s n. induction vulns as [|v vulns IH]; intros s n Hs.
  { simpl. by rewrite Z.add_0_r. }
  unfold counted in *. cbn [List.filter]. destruct (v_suppressed v); [by apply IH|].
  cbn [negb fold_left andb].
  case_bool_decide as E.
  - rewrite (IH _ (n + 1)%Z).
    + cbn [length]. f_equal. lia.
    + by rewrite count_of_add, bool_decide_true, Hs, u32_incr_mod.
  - apply IH. by rewrite count_of_add, bool_decide_false.
Qed.

Lemma summarize_count sev vulns :
  (Z.of_nat (length vulns) <= u32_max)%Z ->
  count_of sev (summarize vulns) = Z.of_nat (length (counted sev vulns)).
Proof.
  intros Hlen. unfold summarize. rewrite (summarize_acc sev vulns _ 0) by by destruct sev.
  apply Z.mod_small. split; [lia|].
  assert (length (counted sev vulns) <= length vulns) by apply List.filter_length_le. lia.
Qed.

(** ** Rules as text *)

Definition op_text (op : rule_op) : str :=
  match op with
  | OpGe => ">="
  | OpLe => "<="
  | OpGt => ">"
  | OpLt => "<"
  | OpEq => "="
  end.

Lemma dec_head_not_eq z : (0 <= z)%Z -> strip_prefix "=" (dec z) = None.
Proof.
  intros Hz. destruct (dec_spec z Hz) as (_ & Hd & Hn). unfold all_digits in Hd.
  destruct (dec z) as [|c s]; [done|]. apply andb_prop in Hd as [Hd _]. cbn [strip_prefix].
  unfold byte_eqb. case_bool_decide; [by subst|done].
Qed.

Lemma split_op_text op z : (0 <= z)%Z -> split_op (op_text op ++ dec z) = Some (op, dec z).
Proof.
  intros Hz. pose proof (dec_head_not_eq z Hz) as Hh. unfold split_op.
  destruct op; cbn in *; try done; by destruct (dec z); [|case_match].
Qed.

Lemma rule_text_trim op z : (0 <= z)%Z -> trim (op_text op ++ dec z) = op_text op ++ dec z.
Proof.
  intros Hz. destruct (dec_spec z Hz) as (_ & Hd & Hn). unfold all_digits in Hd.
  destruct (exists_last Hn) as (d & y & Ey).
  assert (exists c m, op_text op = c :: m /\ graphic c = true) as (c & m & Eo & Hc)
    by (destruct op; eauto).
  eapply (trim_graphic _ c y (m ++ dec z) (op_text op ++ d)); [by rewrite Eo| |done|].
  - by rewrite Ey, app_assoc.
  - rewrite Ey, forallb_app in Hd. apply andb_prop in Hd as [_ Hd].
    apply andb_prop in Hd as [Hd _]. unfold is_ascii_digit, graphic, byte_in in *. lia.
Qed.

Lemma rule_matches_text op z count :
  in_u32 z -> rule_matches count (op_text op ++ dec z) = op_holds op count z.
Proof.
  intros Hz. unfold rule_matches. rewrite rule_text_trim, split_op_text by apply Hz.
  rewrite trim_dec by apply Hz. unfold parse_u32. by rewrite parse_uint_dec.
Qed.

(** ** The verdict *)

Definition rule_of (sev : Severity) (b : BlockRules) : option str :=
  match sev with
  | Critical => b_critical b
  | High => b_high b
  | Medium => b_medium b
  | Low => b_low b
  | Unknown => None
  end.

Lemma check_nil sev count rule :
  check sev count rule = [] <-> (forall r, rule = Some r -> rule_matches count r = false).
Proof.
  unfold check. destruct rule as [r|]; [|naive_solver].
  destruct (rule_matches count r) eqn:E; split; [done|intros H; by rewrite (H r) in E|naive_solver|done].
Qed.

Lemma evaluate_pass_iff b vulns :
  pe_status (evaluate b vulns) = Pass <->
  forall sev r, rule_of sev b = Some r -> rule_matches (count_of sev (summarize vulns)) r = false.
Proof.
  unfold evaluate. set (s := summarize vulns).
  transitivity (check Critical (critical s) (b_critical b) ++ check High (high s) (b_high b) ++
    check Medium (medium s) (b_medium b) ++ check Low (low s) (b_low b) = []).
  { destruct (_ ++ _); naive_solver. }
  split.
  - intros (H1 & (H2 & (H3 & H4)%app_eq_nil)%app_eq_nil)%app_eq_nil [] r Hr; simpl in *; try done;
      by eapply check_nil.
  - intros H. rewrite !app_nil, !check_nil. repeat split; intros r Hr;
      [apply (H Critical)|apply (H High)|apply (H Medium)|apply (H Low)]; done.
Qed.

(** ** Suppressions *)

(** A revoked suppression is no longer active, and the others are as before. *)
Lemma revoke_inactive db now actor id db' b :
  revoke db None now actor id = (db', Ok b) ->
  b = existsb (active_id id) (suppressions db) /\
  existsb (active_id id) (suppressions db') = false /\
  List.filter (fun r => negb (s_id r =? id)%Z) (suppressions db') =
  List.filter (fun r => negb (s_id r =? id)%Z) (suppressions db).
Proof.
  unfold revoke. destruct (existsb (active_id id) (suppressions db)) eqn:E; intros; simplify_eq; [|done].
  split; [done|]. simpl. clear. induction (suppressions db) as [|r l [IH1 IH2]]; [done|].
  cbn [map existsb List.filter]. destruct (active_id id r) eqn:Ea.
  - apply andb_prop in Ea as [Hid _]. cbn [revoke_row s_id]. rewrite IH1, IH2, Hid.
    split; [|done]. unfold active_id, revoke_row. cbn. by rewrite andb_false_r.
  - by rewrite Ea, IH1, IH2.
Qed.

(** A suppression scoped to one tenant hides nothing of another. *)
Lemma suppression_hit_tenant now tenant tenant' project repository v r :
  s_scope_tenant r = Some tenant' -> tenant' <> tenant ->
  suppression_hit now tenant project repository v r = false.
Proof.
  intros Hs Hne. unfold suppression_hit, scope_ok, str_eqb. rewrite Hs.
  rewrite (bool_decide_false (tenant' = tenant)) by done. by rewrite !andb_false_r.
Qed.

Lemma apply_ok db clock errs now tenant project repository i vulns :
  (forall j, errs j = None) -> (forall j, clock j = now) ->
  apply db clock errs tenant project repository i vulns =
  (apply_suppressions db now tenant project repository vulns, Ok tt).
Proof.
  intros He Hc. revert i. induction vulns as [|v vulns IH]; intros i; [done|].
  cbn [apply]. by rewrite He, IH, Hc.
Qed.

(** Suppressing only removes findings from the counts. *)
Lemma apply_counted sev db now tenant project repository vulns :
  counted sev (apply_suppressions db now tenant project repository vulns) =
  List.filter (fun v => negb (existsb (suppression_hit now tenant project repository v)
                                (suppressions db)))
    (counted sev vulns).
Proof.
  induction vulns as [|v vulns IH]; [done|].
  unfold counted, apply_suppressions in *. cbn [map List.filter].
  destruct (existsb _ (suppressions db)) eqn:E.
  - simpl. rewrite IH. destruct (negb (v_suppressed v) && _); [|done].
    cbn [List.filter]. by rewrite E.
  - destruct (negb (v_suppressed v) && _); [|done]. cbn [List.filter]. by rewrite E, IH.
Qed.
