(* ===== verification/Text.v ===== *)
(** * Text and machine integers

    [str::split], [splitn], [find] and [join], substring tests, percent
    encoding digits, and [i64] arithmetic as the services use them. *)

From S2P Require Import Prelude.

(** [s.split(c)] *)
Fixpoint split_on (c : ascii) (s : str) : list str :=
  match s with
  | [] => [[]]
  | x :: s' =>
      if byte_eqb x c then [] :: split_on c s'
      else match split_on c s' with
           | h :: t => (x :: h) :: t
           | [] => [[x]]
           end
  end.

(** [s.splitn(3, c)] *)
Definition splitn3 (c : ascii) (s : str) : list str :=
  match split_once_byte c s with
  | None => [s]
  | Some (a, s1) =>
      match split_once_byte c s1 with
      | None => [a; s1]
      | Some (b, s2) => [a; b; s2]
      end
  end.

(** [s.find(p)] with the slices before and after the match. *)
Fixpoint split_once_str (p s : str) : option (str * str) :=
  match strip_prefix p s with
  | Some t => Some ([], t)
  | None =>
      match s with
      | [] => None
      | x :: s' =>
          match split_once_str p s' with
          | Some (h, t) => Some (x :: h, t)
          | None => None
          end
      end
  end.

(** [parts.join(sep)] *)
Fixpoint join_with (sep : str) (parts : list str) : str :=
  match parts with
  | [] => []
  | [p] => p
  | p :: parts' => p ++ sep ++ join_with sep parts'
  end.

Definition contains_byte (c : ascii) (s : str) : bool := existsb (byte_eqb c) s.

Definition contains_str (p s : str) : bool :=
  match split_once_str p s with
  | Some _ => true
  | None => false
  end.

Definition ends_with (p s : str) : bool :=
  match strip_suffix p s with
  | Some _ => true
  | None => false
  end.

(** [s.trim_end_matches(c)] *)
Definition trim_end_byte (c : ascii) (s : str) : str := rev (snd (span (byte_eqb c) (rev s))).

(** [s.replace(c, '')] *)
Definition remove_byte (c : ascii) (s : str) : str := List.filter (fun x => negb (byte_eqb x c)) s.

(** [s.to_lowercase()] of the ASCII letters; a comparison with an ASCII word
    that holds no [i] or [k] needs no other. *)
Definition lowercase (s : str) : str :=
  map (fun c => if is_ascii_uppercase c then ascii_of_N (Z.to_N (byte_val c + 32)) else c) s.

Definition is_ascii_hexdigit (c : ascii) : bool :=
  is_ascii_digit c || byte_in 97 102 c || byte_in 65 70 c.

(** Two's complement of 64 bits: a cast or a sum that wraps around. *)
Definition i64_wrap (z : Z) : Z := ((z + 2 ^ 63) mod 2 ^ 64 - 2 ^ 63)%Z.

(** [v.unwrap_or_default()] *)
Definition or_empty (s : option str) : str := default [] s.

(** ** Laws *)

Lemma split_on_not_nil c s : split_on c s <> [].
Proof. destruct s as [|x s]; simpl; [done|]. by destruct (byte_eqb x c), (split_on c s). Qed.

Lemma join_split c s : join_with [c] (split_on c s) = s.
Proof.
  induction s as [|x s IH]; [done|]. simpl. pose proof (split_on_not_nil c s) as Hn.
  destruct (byte_eqb_spec x c) as [->|Hx].
  - destruct (split_on c s) as [|h t]; [done|]. cbn in *. by rewrite IH.
  - destruct (split_on c s) as [|h t]; [done|]. destruct t as [|h' t]; cbn in *; by rewrite <- IH.
Qed.

Definition free_of (c : ascii) (s : str) : bool := forallb (fun x => negb (byte_eqb x c)) s.

Lemma split_on_free c s : free_of c s = true -> split_on c s = [s].
Proof.
  unfold free_of. induction s as [|x s IH]; simpl; [done|]. intros [Hx Hs]%andb_prop.
  destruct (byte_eqb x c); [done|]. by rewrite IH.
Qed.

Lemma split_on_app c a b : free_of c a = true -> split_on c (a ++ c :: b) = a :: split_on c b.
Proof.
  unfold free_of. induction a as [|x a IH]; simpl; [by destruct (byte_eqb_spec c c)|].
  intros [Hx Ha]%andb_prop. destruct (byte_eqb x c); [done|]. by rewrite IH.
Qed.

Lemma split_join c parts :
  parts <> [] -> forallb (free_of c) parts = true -> split_on c (join_with [c] parts) = parts.
Proof.
  induction parts as [|p parts IH]; [done|]. intros _. cbn [forallb]. intros [Hp Hps]%andb_prop.
  destruct parts as [|q parts]; [by apply split_on_free|].
  change (join_with [c] (p :: q :: parts)) with (p ++ c :: join_with [c] (q :: parts)).
  rewrite split_on_app by done. f_equal. by apply IH.
Qed.

Lemma split_once_byte_free c a b :
  free_of c a = true -> split_once_byte c (a ++ c :: b) = Some (a, b).
Proof.
  unfold free_of. induction a as [|x a IH]; simpl; [by destruct (byte_eqb_spec c c)|].
  intros [Hx Ha]%andb_prop. destruct (byte_eqb x c); [done|]. by rewrite IH.
Qed.

Lemma splitn3_three c a b s :
  free_of c a = true -> free_of c b = true -> splitn3 c (a ++ c :: b ++ c :: s) = [a; b; s].
Proof. intros Ha Hb. unfold splitn3. by rewrite !split_once_byte_free. Qed.

Lemma splitn3_two c a b :
  free_of c a = true -> free_of c b = true -> splitn3 c (a ++ c :: b) = [a; b].
Proof.
  intros Ha Hb. unfold splitn3. by rewrite split_once_byte_free, split_once_byte_none.
Qed.

Lemma split_once_str_app p s h t : split_once_str p s = Some (h, t) -> s = h ++ p ++ t.
Proof.
  revert h t. induction s as [|x s IH]; intros h t; cbn [split_once_str].
  - destruct (strip_prefix p []) as [r|] eqn:E; [|done]. intros [= <- <-].
    by apply strip_prefix_some in E.
  - destruct (strip_prefix p (x :: s)) as [r|] eqn:E.
    { intros [= <- <-]. by apply strip_prefix_some in E. }
    destruct (split_once_str p s) as [[h' t']|]; [|done]. intros [= <- <-].
    simpl. f_equal. by apply IH.
Qed.

(** A pattern that occurs is found. *)
Lemma split_once_str_some p h t : exists h' t', split_once_str p (h ++ p ++ t) = Some (h', t').
Proof.
  induction h as [|x h IH]; simpl.
  - destruct (strip_prefix_some p (p ++ t) t) as [_ H]. specialize (H eq_refl).
    exists [], t. destruct (p ++ t); cbn [split_once_str]; by rewrite H.
  - destruct IH as (h' & t' & ->). destruct (strip_prefix p _); eauto.
Qed.

Lemma i64_wrap_id z : (- 2 ^ 63 <= z < 2 ^ 63)%Z -> i64_wrap z = z.
Proof. intros Hz. unfold i64_wrap. rewrite Z.mod_small; lia. Qed.

Create HintDb text.
#[export] Hint Resolve split_on_free split_on_app splitn3_three splitn3_two split_once_byte_free
  split_once_str_app str_eqb_refl : text.
