(* ===== verification/Glob.v ===== *)
(** * Glob patterns

    What a pattern with stars means, and how it is related to the texts between
    its stars, for the matchers that split patterns ([group_matches] of the auth
    service, [glob_match] of the rebuild subscriptions). *)

From S2P Require Import Prelude Text.

Lemma str_eqb_iff a b : str_eqb a b = true <-> a = b.
Proof. split; [apply str_eqb_true|]. intros ->. apply str_eqb_refl. Qed.

Abbreviation star := "*"%char.

(** What a pattern means: a star stands for any text. *)
Inductive glob : str -> str -> Prop :=
| glob_nil : glob [] []
| glob_star p w s : glob p s -> glob (star :: p) (w ++ s)
| glob_byte c p s : c <> star -> glob p s -> glob (c :: p) (c :: s).

(** The texts [ps] occur one after the other, with gaps before each, and
    [rest] is what follows the last. *)
Fixpoint in_order (ps : list str) (s rest : str) : Prop :=
  match ps with
  | [] => s = rest
  | p :: ps' => exists w s', s = w ++ p ++ s' /\ in_order ps' s' rest
  end.

(** The text against the parts between the stars. *)
Definition parts_match (parts : list str) (s : str) : Prop :=
  match parts with
  | [] => False
  | p :: ps => exists s', s = p ++ s' /\ in_order ps s' []
  end.

Lemma in_order_gap ps u s rest : ps <> [] -> in_order ps s rest -> in_order ps (u ++ s) rest.
Proof.
  destruct ps as [|p ps]; [done|]. intros _ (w & s' & -> & H). exists (u ++ w), s'.
  by rewrite <- app_assoc.
Qed.

Lemma glob_parts pattern s : glob pattern s <-> parts_match (split_on star pattern) s.
Proof.
  split.
  - induction 1 as [|p w s _ IH|c p s Hc _ IH]; [by exists []| |].
    + cbn. exists (w ++ s). split; [done|]. revert IH. unfold parts_match.
      destruct (split_on star p) as [|q ps]; [done|]. intros (s' & -> & H). by exists w, s'.
    + revert IH. cbn. destruct (byte_eqb_spec c star); [done|]. unfold parts_match.
      destruct (split_on star p) as [|q ps]; [done|]. intros (s' & -> & H). by exists s'.
  - revert s. induction pattern as [|c p IH]; intros s.
    + intros (s' & -> & H). cbn in H. subst. constructor.
    + cbn. destruct (byte_eqb_spec c star) as [->|Hc].
      * intros (s' & -> & H). revert H. destruct (split_on star p) as [|q ps] eqn:E; cbn.
        -- by apply split_on_not_nil in E.
        -- intros (w & t & -> & H). apply glob_star, IH. by exists t.
      * destruct (split_on star p) as [|q ps] eqn:E; [by apply split_on_not_nil in E|].
        intros (s' & -> & H). apply glob_byte; [done|]. apply IH. by exists s'.
Qed.

(** ** Searching *)

Lemma split_once_str_before p w t h u :
  split_once_str p (w ++ p ++ t) = Some (h, u) -> (length h <= length w)%nat.
Proof.
  revert h. induction w as [|x w IH]; intros h.
  - cbn [app]. assert (strip_prefix p (p ++ t) = Some t) as H by by apply strip_prefix_some.
    destruct (p ++ t) eqn:E; cbn [split_once_str]; rewrite H; intros [= <- <-]; cbn; lia.
  - cbn [app split_once_str]. destruct (strip_prefix p (x :: w ++ p ++ t)); [intros [= <- <-]; cbn; lia|].
    destruct (split_once_str p (w ++ p ++ t)) as [[h' t']|]; [|done].
    intros [= <- <-]. specialize (IH h' eq_refl). cbn. lia.
Qed.

(** The first occurrence leaves at least what any other leaves. *)
Lemma split_once_str_leftmost p w t h u :
  split_once_str p (w ++ p ++ t) = Some (h, u) -> exists v, u = v ++ t.
Proof.
  intros H. pose proof (split_once_str_before _ _ _ _ _ H) as Hl.
  apply split_once_str_app in H. rewrite !app_assoc in H.
  exists (drop (length (h ++ p)) (w ++ p)).
  apply (f_equal (drop (length (h ++ p)))) in H. rewrite (drop_app_length (h ++ p) u) in H.
  rewrite <- H, drop_app_le by (rewrite !length_app; lia). done.
Qed.

Lemma contains_free c s : contains_byte c s = negb (free_of c s).
Proof.
  unfold contains_byte, free_of. induction s as [|x s IH]; [done|]. cbn. rewrite IH, negb_andb.
  f_equal. by destruct (byte_eqb_spec c x), (byte_eqb_spec x c); subst.
Qed.

Lemma split_on_snoc c s : split_on c (s ++ [c]) = split_on c s ++ [[]].
Proof.
  induction s as [|x s IH]; cbn; [by destruct (byte_eqb_spec c c)|]. rewrite IH.
  destruct (byte_eqb x c); [done|]. pose proof (split_on_not_nil c s). by destruct (split_on c s).
Qed.

Lemma ends_with_snoc c s : ends_with [c] s = true <-> exists q, s = q ++ [c].
Proof.
  unfold ends_with, strip_suffix. split.
  - destruct (strip_prefix (rev [c]) (rev s)) as [r|] eqn:E; cbn; [|done].
    apply strip_prefix_some in E. intros _. exists (rev r).
    apply (f_equal (@rev _)) in E. rewrite rev_involutive in E. by rewrite E.
  - intros [q ->]. rewrite rev_app_distr. cbn. by destruct (byte_eqb_spec c c).
Qed.

(** After a trailing star the rest of the text is free. *)
Lemma in_order_open ps s rest : in_order (ps ++ [[]]) s rest -> in_order (ps ++ [[]]) s [].
Proof.
  revert s. induction ps as [|p ps IH]; intros s; cbn.
  - intros (w & s' & -> & ->). exists (w ++ rest), []. by rewrite app_nil_r.
  - intros (w & s' & -> & H). eauto.
Qed.

Lemma glob_plain pattern s : contains_byte star pattern = false -> glob pattern s <-> pattern = s.
Proof.
  intros H. rewrite contains_free, negb_false_iff in H. rewrite glob_parts, split_on_free by done.
  unfold parts_match, in_order. split; [intros (s' & -> & ->); by rewrite app_nil_r|].
  intros ->. exists []. by rewrite app_nil_r.
Qed.
