(* ===== verification/Effects.v ===== *)
(** * State and errors

    Code that threads a mutable world and returns a [Result] is a function
    [S -> S * result A E]: the world after the call, and the value or error.
    An early return by [?] is [bind]; state changes made before an error are
    kept, as they are in the source. *)

From S2P Require Import Prelude.

Definition M (S E A : Type) : Type := S -> S * result A E.

Section monad.
Context {S E : Type}.

Definition ret {A} (a : A) : M S E A := fun s => (s, Ok a).
Definition throw {A} (e : E) : M S E A := fun s => (s, Err e).

Definition bind {A B} (m : M S E A) (k : A -> M S E B) : M S E B :=
  fun s => match m s with
           | (s', Ok a) => k a s'
           | (s', Err e) => (s', Err e)
           end.

(** A fallible computation that does not touch the world. *)
Definition lift {A} (r : result A E) : M S E A := fun s => (s, r).

(** Run [m] and hand its result to the caller as a value. *)
Definition attempt {F A} (m : M S F A) : M S E (result A F) :=
  fun s => let '(s', r) := m s in (s', Ok r).

Definition modify (f : S -> S) : M S E unit := fun s => (f s, Ok tt).
Definition gets {A} (f : S -> A) : M S E A := fun s => (s, Ok (f s)).

(** [map_err] *)
Definition rethrow {F A} (g : F -> E) (m : M S F A) : M S E A :=
  fun s => let '(s', r) := m s in (s', map_err g r).

Definition when (b : bool) (m : M S E unit) : M S E unit := if b then m else ret tt.

(** [for x in l { f(x)?; }] *)
Fixpoint for_each {A} (l : list A) (f : A -> M S E unit) : M S E unit :=
  match l with
  | [] => ret tt
  | x :: l' => bind (f x) (fun _ => for_each l' f)
  end.

Definition exec {A} (m : M S E A) (s : S) : S := fst (m s).
Definition eval {A} (m : M S E A) (s : S) : result A E := snd (m s).
End monad.

Declare Scope eff_scope.
Delimit Scope eff_scope with eff.

Notation "'let!' x ':=' c 'in' k" := (bind c (fun x => k))
  (at level 10, x pattern, c at level 100, k at level 200) : eff_scope.
Notation "'do!' c 'in' k" := (bind c (fun _ => k))
  (at level 10, c at level 100, k at level 200) : eff_scope.

Open Scope eff_scope.

Lemma bind_ok {S E A B} (m : M S E A) (k : A -> M S E B) s s' b :
  bind m k s = (s', Ok b) <-> exists s1 a, m s = (s1, Ok a) /\ k a s1 = (s', Ok b).
Proof.
  unfold bind. split.
  - destruct (m s) as [s1 [a|e]]; [eauto|done].
  - by intros (s1 & a & -> & H).
Qed.

Lemma bind_err {S E A B} (m : M S E A) (k : A -> M S E B) s s' e :
  bind m k s = (s', Err e) <->
  m s = (s', Err e) \/ exists s1 a, m s = (s1, Ok a) /\ k a s1 = (s', Err e).
Proof.
  unfold bind. split.
  - destruct (m s) as [s1 [a|e']]; eauto. intros [= -> ->]. by left.
  - by intros [->|(s1 & a & -> & H)].
Qed.

(** A run by its outcome, without computing the world it leaves. *)
Lemma run_eval {S E A} (m : M S E A) s r : eval m s = r -> m s = (exec m s, r).
Proof. unfold eval, exec. intros <-. by destruct (m s). Qed.

(** The first step of a sequence ends it or hands over to the rest. *)
Lemma bind_step {S E A B} (m : M S E A) (k : A -> M S E B) s s' r :
  bind m k s = (s', r) ->
  (exists s1 a, m s = (s1, Ok a) /\ k a s1 = (s', r)) \/ (exists e, m s = (s', Err e) /\ r = Err e).
Proof.
  unfold bind. destruct (m s) as [s1 [a|e]]; [eauto|]. intros [= -> <-]. eauto.
Qed.

(** A step that succeeds hands over to the rest. *)
Lemma bind_run {S E A B} (m : M S E A) (k : A -> M S E B) s s1 a :
  m s = (s1, Ok a) -> bind m k s = k a s1.
Proof. unfold bind. by intros ->. Qed.

(** A property of the world that every outcome of [m] preserves. *)
Definition preserves {S E A} (P : S -> Prop) (m : M S E A) : Prop :=
  forall s, P s -> P (exec m s).

Section preserves.
Context {S E : Type} (P : S -> Prop).

Lemma preserves_ret {A} (a : A) : preserves (E := E) P (ret a).
Proof. by intros s. Qed.

Lemma preserves_throw {A} (e : E) : preserves P (throw (A := A) e).
Proof. by intros s. Qed.

Lemma preserves_lift {A} (r : result A E) : preserves P (lift r).
Proof. by intros s. Qed.

Lemma preserves_gets {A} (f : S -> A) : preserves (E := E) P (gets f).
Proof. by intros s. Qed.

Lemma preserves_bind {A B} (m : M S E A) (k : A -> M S E B) :
  preserves P m -> (forall a, preserves P (k a)) -> preserves P (bind m k).
Proof.
  intros Hm Hk s Hs. specialize (Hm s Hs). unfold exec, bind in *.
  destruct (m s) as [s' [a|e]]; simpl in *; [|done]. by apply (Hk a).
Qed.

Lemma preserves_attempt {F A} (m : M S F A) :
  preserves P m -> preserves (E := E) P (attempt m).
Proof. intros Hm s Hs. specialize (Hm s Hs). unfold exec, attempt in *. by destruct (m s). Qed.

Lemma preserves_rethrow {F A} (g : F -> E) (m : M S F A) :
  preserves P m -> preserves P (rethrow g m).
Proof. intros Hm s Hs. specialize (Hm s Hs). unfold exec, rethrow in *. by destruct (m s). Qed.

Lemma preserves_modify (f : S -> S) :
  (forall s, P s -> P (f s)) -> preserves (E := E) P (modify f).
Proof. intros Hf s Hs. by apply Hf. Qed.

Lemma preserves_when b (m : M S E unit) : preserves P m -> preserves P (when b m).
Proof. destruct b; [done|]. intros _. apply preserves_ret. Qed.

Lemma preserves_for_each {A} (l : list A) (f : A -> M S E unit) :
  (forall x, x ∈ l -> preserves P (f x)) -> preserves P (for_each l f).
Proof.
  induction l as [|x l IH]; intros H; [apply preserves_ret|]. simpl.
  apply preserves_bind; [apply H; set_solver|]. intros _. apply IH. set_solver.
Qed.
End preserves.

Create HintDb eff.
#[export] Hint Resolve preserves_ret preserves_throw preserves_lift preserves_gets
  preserves_bind preserves_attempt preserves_rethrow preserves_when preserves_for_each : eff.
