(* ===== verification/Breaker.v ===== *)
(** * Circuit breaker ([crates/specton-resilience/src/circuit_breaker.rs])

    The three-state machine with its metrics, the two lock-protected phases a
    call goes through before its operation and the one after it, the
    sequential composition [call_classified], and the interleaved semantics of
    concurrent callers.  Instants are nanoseconds. *)

From S2P Require Import Prelude.

Local Open Scope Z_scope.

Record CircuitBreakerConfig : Type := mkBreakerConfig {
  failure_threshold : Z;
  success_threshold : Z;
  open_duration_secs : Z
}.

Definition breaker_config_default : CircuitBreakerConfig := mkBreakerConfig 5 3 30.

Inductive BreakerState : Type :=
| Closed (consecutive_failures : Z)
| Open (opened_at : Z)
| HalfOpen (consecutive_successes : Z).

(** The numeric encoding of the state gauge. *)
Definition STATE_CLOSED : Z := 0.
Definition STATE_HALF_OPEN : Z := 1.
Definition STATE_OPEN : Z := 2.

(** The breaker with the metrics it publishes: the gauge, the transition
    labels in order, and the number of rejected calls. *)
Record Breaker : Type := mkBreaker {
  state : BreakerState;
  gauge : Z;
  transitions : list str;
  rejections : Z
}.

Definition breaker_new : Breaker := mkBreaker (Closed 0) STATE_CLOSED [] 0.

(** [*state = s], the gauge and the transition counter in one place. *)
Definition transition (s : BreakerState) (g : Z) (label : str) (b : Breaker) : Breaker :=
  mkBreaker s g (transitions b ++ [label]) (rejections b).

Definition set_state (s : BreakerState) (b : Breaker) : Breaker :=
  mkBreaker s (gauge b) (transitions b) (rejections b).

Definition open_duration (cfg : CircuitBreakerConfig) : Z :=
  open_duration_secs cfg * 1000000000.

(** [opened_at.elapsed()]: saturates at zero. *)
Definition elapsed (opened_at now : Z) : Z := Z.max 0 (now - opened_at).

(** Under the read lock: is the call rejected? *)
Definition check_allowed (cfg : CircuitBreakerConfig) (now : Z) (b : Breaker) : Breaker * bool :=
  match state b with
  | Open opened_at =>
      if elapsed opened_at now <? open_duration cfg
      then (mkBreaker (state b) (gauge b) (transitions b) (rejections b + 1), false)
      else (b, true)
  | Closed _ | HalfOpen _ => (b, true)
  end.

(** Under the write lock: open long enough becomes half-open. *)
Definition try_half_open (cfg : CircuitBreakerConfig) (now : Z) (b : Breaker) : Breaker :=
  match state b with
  | Open opened_at =>
      if open_duration cfg <=? elapsed opened_at now
      then transition (HalfOpen 0) STATE_HALF_OPEN "half_open" b
      else b
  | Closed _ | HalfOpen _ => b
  end.

Definition record_success (cfg : CircuitBreakerConfig) (b : Breaker) : Breaker :=
  match state b with
  | Closed _ => set_state (Closed 0) b
  | HalfOpen consecutive_successes =>
      let new_successes := consecutive_successes + 1 in
      if success_threshold cfg <=? new_successes
      then transition (Closed 0) STATE_CLOSED "closed" b
      else set_state (HalfOpen new_successes) b
  | Open _ => transition (Closed 0) STATE_CLOSED "closed" b
  end.

Definition record_failure (cfg : CircuitBreakerConfig) (now : Z) (b : Breaker) : Breaker :=
  match state b with
  | Closed consecutive_failures =>
      let new_failures := consecutive_failures + 1 in
      if failure_threshold cfg <=? new_failures
      then transition (Open now) STATE_OPEN "open" b
      else set_state (Closed new_failures) b
  | HalfOpen _ => transition (Open now) STATE_OPEN "open" b
  | Open _ => b
  end.

(** After the operation: errors that [is_failure] does not count are
    successes for breaker health. *)
Definition record {T E} (cfg : CircuitBreakerConfig) (is_failure : E -> bool) (now : Z)
    (r : result T E) (b : Breaker) : Breaker :=
  match r with
  | Ok _ => record_success cfg b
  | Err e => if is_failure e then record_failure cfg now b else record_success cfg b
  end.

Inductive CallError (E : Type) : Type :=
| BreakerOpen
| Inner (e : E).
Arguments BreakerOpen {E}.
Arguments Inner {E} e.

(** One call with no other caller in between.  [clock] gives the instant of
    each of the three readings, and [f] runs on the state of the protected
    service. *)
Definition call_classified {S T E} (cfg : CircuitBreakerConfig) (is_failure : E -> bool)
    (clock : Z * Z * Z) (f : S -> S * result T E) (bs : Breaker * S) :
    (Breaker * S) * result T (CallError E) :=
  let '(b, s) := bs in
  let '(t_check, t_half, t_record) := clock in
  let '(b, allowed) := check_allowed cfg t_check b in
  if negb allowed then ((b, s), Err BreakerOpen)
  else
    let b := try_half_open cfg t_half b in
    let '(s, r) := f s in
    let b := record cfg is_failure t_record r b in
    ((b, s), map_err Inner r).

Definition call {S T E} (cfg : CircuitBreakerConfig) :=
  @call_classified S T E cfg (fun _ => true).

Definition is_open (b : Breaker) : bool :=
  match state b with
  | Open _ => true
  | _ => false
  end.

Definition state_name (b : Breaker) : str :=
  match state b with
  | Closed f => "Closed(failures=" ++ dec f ++ ")"
  | Open _ => "Open"
  | HalfOpen n => "HalfOpen(successes=" ++ dec n ++ ")"
  end.

(** Calls one after another against one breaker, each with its three clock
    readings and its operation. *)
Fixpoint run_calls {S T E} (cfg : CircuitBreakerConfig) (is_failure : E -> bool)
    (calls : list ((Z * Z * Z) * (S -> S * result T E))) (bs : Breaker * S) :
    (Breaker * S) * list (result T (CallError E)) :=
  match calls with
  | [] => (bs, [])
  | (clk, f) :: calls' =>
      let '(bs, r) := call_classified cfg is_failure clk f bs in
      let '(bs, rs) := run_calls cfg is_failure calls' bs in
      (bs, r :: rs)
  end.

(** ** Concurrent callers

    Each phase takes the lock once, so it is one atomic step; between the
    phases of one call, phases of other calls may run. *)

Inductive phase : Type :=
| Checking
| Allowed
| Running
| Done.

Record world : Type := mkWorld {
  clock : Z;
  breaker : Breaker;
  callers : list phase
}.

Inductive step (cfg : CircuitBreakerConfig) : world -> world -> Prop :=
| step_tick w d :
    0 <= d -> step cfg w (mkWorld (clock w + d) (breaker w) (callers w))
| step_spawn w :
    step cfg w (mkWorld (clock w) (breaker w) (callers w ++ [Checking]))
| step_check w i b allowed :
    callers w !! i = Some Checking ->
    check_allowed cfg (clock w) (breaker w) = (b, allowed) ->
    step cfg w (mkWorld (clock w) b (<[i := if allowed then Allowed else Done]> (callers w)))
| step_half_open w i :
    callers w !! i = Some Allowed ->
    step cfg w (mkWorld (clock w) (try_half_open cfg (clock w) (breaker w))
                  (<[i := Running]> (callers w)))
| step_success w i :
    callers w !! i = Some Running ->
    step cfg w (mkWorld (clock w) (record_success cfg (breaker w)) (<[i := Done]> (callers w)))
| step_failure w i :
    callers w !! i = Some Running ->
    step cfg w (mkWorld (clock w) (record_failure cfg (clock w) (breaker w))
                  (<[i := Done]> (callers w))).

Definition initial : world := mkWorld 0 breaker_new [].

Inductive reachable (cfg : CircuitBreakerConfig) : world -> Prop :=
| reach_init : reachable cfg initial
| reach_step w w' : reachable cfg w -> step cfg w w' -> reachable cfg w'.

(** A schedule executed: the step each event takes, if it is enabled. *)
Inductive event : Type :=
| Tick (d : Z)
| Spawn
| Advance (i : nat) (ok : bool).

Definition exec_event (cfg : CircuitBreakerConfig) (e : event) (w : world) : option world :=
  match e with
  | Tick d => if 0 <=? d then Some (mkWorld (clock w + d) (breaker w) (callers w)) else None
  | Spawn => Some (mkWorld (clock w) (breaker w) (callers w ++ [Checking]))
  | Advance i ok =>
      match callers w !! i with
      | Some Checking =>
          let '(b, allowed) := check_allowed cfg (clock w) (breaker w) in
          Some (mkWorld (clock w) b (<[i := if allowed then Allowed else Done]> (callers w)))
      | Some Allowed =>
          Some (mkWorld (clock w) (try_half_open cfg (clock w) (breaker w))
                  (<[i := Running]> (callers w)))
      | Some Running =>
          Some (mkWorld (clock w)
                  (if ok then record_success cfg (breaker w)
                   else record_failure cfg (clock w) (breaker w))
                  (<[i := Done]> (callers w)))
      | _ => None
      end
  end.

Fixpoint exec_schedule (cfg : CircuitBreakerConfig) (es : list event) (w : world) : option world :=
  match es with
  | [] => Some w
  | e :: es' => match exec_event cfg e w with
                | Some w' => exec_schedule cfg es' w'
                | None => None
                end
  end.

(** ** Invariant of every reachable world *)

Definition gauge_of (s : BreakerState) : Z :=
  match s with
  | Closed _ => STATE_CLOSED
  | HalfOpen _ => STATE_HALF_OPEN
  | Open _ => STATE_OPEN
  end.

(** Counters stay below their thresholds (or are zero), an opening lies in
    the past, and the gauge shows the state. *)
Definition state_ok (cfg : CircuitBreakerConfig) (now : Z) (s : BreakerState) : Prop :=
  match s with
  | Closed f => 0 <= f /\ (f = 0 \/ f < failure_threshold cfg)
  | HalfOpen n => 0 <= n /\ (n = 0 \/ n < success_threshold cfg)
  | Open t => t <= now
  end.

Record breaker_ok (cfg : CircuitBreakerConfig) (now : Z) (b : Breaker) : Prop := mkBreakerOk {
  ok_state : state_ok cfg now (state b);
  ok_gauge : gauge b = gauge_of (state b);
  ok_rejections : 0 <= rejections b
}.

Lemma breaker_new_ok cfg now : breaker_ok cfg now breaker_new.
Proof. split; simpl; [lia|done|lia]. Qed.

Lemma breaker_ok_later cfg now now' b :
  now <= now' -> breaker_ok cfg now b -> breaker_ok cfg now' b.
Proof. intros H [H1 H2 H3]. split; [|done..]. destruct (state b); simpl in *; [done|lia|done]. Qed.

Lemma check_allowed_fst cfg now b :
  state (fst (check_allowed cfg now b)) = state b /\
  gauge (fst (check_allowed cfg now b)) = gauge b /\
  rejections b <= rejections (fst (check_allowed cfg now b)).
Proof.
  unfold check_allowed. destruct (state b) eqn:Es; simpl; [|destruct (_ <? _); simpl|];
    split_and!; done || lia.
Qed.

Lemma check_allowed_ok cfg now b b' a :
  check_allowed cfg now b = (b', a) -> breaker_ok cfg now b -> breaker_ok cfg now b'.
Proof.
  intros E [H1 H2 H3]. destruct (check_allowed_fst cfg now b) as (Hs & Hg & Hr).
  rewrite E in *. simpl in *. split; rewrite ?Hs, ?Hg; done || lia.
Qed.

Lemma try_half_open_ok cfg now b : breaker_ok cfg now b -> breaker_ok cfg now (try_half_open cfg now b).
Proof.
  intros [H1 H2 H3]. unfold try_half_open. destruct (state b) eqn:Es; [by split; rewrite ?Es..| |by split; rewrite ?Es].
  case_match; [|by split; rewrite ?Es]. split; simpl; done || lia.
Qed.

Lemma record_success_ok cfg now b : breaker_ok cfg now b -> breaker_ok cfg now (record_success cfg b).
Proof.
  intros [H1 H2 H3]. unfold record_success. destruct (state b) eqn:Es; simpl in *.
  - split; simpl; done || lia.
  - split; simpl; done || lia.
  - case_match eqn:Hle; split; simpl; try done; lia.
Qed.

Lemma record_failure_ok cfg now b : breaker_ok cfg now b -> breaker_ok cfg now (record_failure cfg now b).
Proof.
  intros [H1 H2 H3]. unfold record_failure. destruct (state b) eqn:Es; simpl in *.
  - case_match eqn:Hle; split; simpl; try done; lia.
  - by split; rewrite ?Es.
  - split; simpl; done || lia.
Qed.

Create HintDb breaker.
#[export] Hint Resolve breaker_new_ok check_allowed_ok try_half_open_ok record_success_ok
  record_failure_ok : breaker.

Lemma reachable_ok cfg w : reachable cfg w -> breaker_ok cfg (clock w) (breaker w).
Proof.
  induction 1 as [|w w' _ IH Hs]; [apply breaker_new_ok|].
  destruct Hs; simpl; eauto with breaker. eapply breaker_ok_later, IH. lia.
Qed.

(** ** Calls in sequence *)

Section sequence.
Context {S T E : Type} (cfg : CircuitBreakerConfig) (is_failure : E -> bool).
Implicit Types (f : S -> S * result T E) (calls : list ((Z * Z * Z) * (S -> S * result T E))).

(** The operation fails with an error that counts, whatever the service state. *)
Definition always_fails f : Prop :=
  forall s, exists e, snd (f s) = Err e /\ is_failure e = true.

(** The operation answers, or fails with an error that does not count. *)
Definition healthy f : Prop :=
  forall s, match snd (f s) with
            | Ok _ => True
            | Err e => is_failure e = false
            end.

Definition t_check (c : (Z * Z * Z) * (S -> S * result T E)) : Z := fst (fst (fst c)).
Definition t_half (c : (Z * Z * Z) * (S -> S * result T E)) : Z := snd (fst (fst c)).
Definition t_record (c : (Z * Z * Z) * (S -> S * result T E)) : Z := snd (fst c).

Definition reached_service (r : result T (CallError E)) : bool :=
  match r with
  | Err BreakerOpen => false
  | _ => true
  end.

Lemma call_closed clk f b s n :
  state b = Closed n ->
  call_classified cfg is_failure clk f (b, s) =
  ((record cfg is_failure (snd clk) (snd (f s)) b, fst (f s)), map_err Inner (snd (f s))).
Proof.
  intros Hs. unfold call_classified, check_allowed, try_half_open. destruct clk as [[c h] r].
  rewrite Hs. simpl. rewrite Hs. by destruct (f s).
Qed.

Lemma call_half_open clk f b s n :
  state b = HalfOpen n ->
  call_classified cfg is_failure clk f (b, s) =
  ((record cfg is_failure (snd clk) (snd (f s)) b, fst (f s)), map_err Inner (snd (f s))).
Proof.
  intros Hs. unfold call_classified, check_allowed, try_half_open. destruct clk as [[c h] r].
  rewrite Hs. simpl. rewrite Hs. by destruct (f s).
Qed.

Lemma call_open_early clk f b s t0 :
  state b = Open t0 ->
  elapsed t0 (fst (fst clk)) < open_duration cfg ->
  call_classified cfg is_failure clk f (b, s) =
  ((mkBreaker (state b) (gauge b) (transitions b) (rejections b + 1), s), Err BreakerOpen).
Proof.
  intros Hs Hlt. unfold call_classified, check_allowed. destruct clk as [[c h] r]. rewrite Hs.
  simpl in Hlt. by rewrite (proj2 (Z.ltb_lt _ _) Hlt).
Qed.

Lemma call_open_late clk f b s t0 :
  state b = Open t0 ->
  open_duration cfg <= elapsed t0 (fst (fst clk)) ->
  open_duration cfg <= elapsed t0 (snd (fst clk)) ->
  call_classified cfg is_failure clk f (b, s) =
  ((record cfg is_failure (snd clk) (snd (f s))
      (transition (HalfOpen 0) STATE_HALF_OPEN "half_open" b), fst (f s)),
   map_err Inner (snd (f s))).
Proof.
  intros Hs Hc Hh. unfold call_classified, check_allowed, try_half_open.
  destruct clk as [[c h] r]. simpl in *. rewrite Hs.
  rewrite (proj2 (Z.ltb_ge _ _) Hc). simpl. rewrite Hs.
  rewrite (proj2 (Z.leb_le _ _) Hh). by destruct (f s).
Qed.

Lemma reached_map_err (r : result T E) : reached_service (map_err Inner r) = true.
Proof. by destruct r. Qed.

Lemma run_failures calls b s n :
  Forall (fun c => always_fails (snd c)) calls ->
  state b = Closed n -> 0 <= n ->
  n + Z.of_nat (length calls) <= failure_threshold cfg ->
  let '((b', _), rs) := run_calls cfg is_failure calls (b, s) in
  forallb reached_service rs = true /\
  state b' = match last calls with
             | None => Closed n
             | Some c => if n + Z.of_nat (length calls) <? failure_threshold cfg
                         then Closed (n + Z.of_nat (length calls))
                         else Open (t_record c)
             end.
Proof.
  revert b s n. induction calls as [|[clk f] calls IH]; intros b s n HF Hs Hn Hle; [done|].
  apply Forall_cons in HF as [Hf HF]. destruct (Hf s) as (e & He & Hc). cbn [length] in *.
  cbn [run_calls]. rewrite (call_closed _ _ _ _ _ Hs). unfold record. simpl in He. rewrite He, Hc.
  unfold record_failure. rewrite Hs. destruct calls as [|c calls].
  - simpl. destruct (failure_threshold cfg <=? n + 1) eqn:Hth; simpl.
    + rewrite (proj2 (Z.ltb_ge _ _)); [done|]. lia.
    + rewrite (proj2 (Z.ltb_lt _ _)); [done|]. lia.
  - rewrite (proj2 (Z.leb_gt _ _)) by (cbn [length] in *; lia).
    specialize (IH (set_state (Closed (n + 1)) b) (fst (f s)) (n + 1) HF eq_refl).
    change (last ((clk, f) :: c :: calls)) with (last (c :: calls)).
    destruct (last (c :: calls)) as [cl|] eqn:El; [|by apply last_None in El].
    cbn [length] in *.
    destruct (run_calls _ _ _ _) as [[b' s'] rs]. destruct IH as [H1 H2]; [lia..|].
    cbn [forallb]. rewrite reached_map_err, H1, H2. split; [done|].
    replace (n + Z.of_nat (Datatypes.S (Datatypes.S (length calls))))
      with (n + 1 + Z.of_nat (Datatypes.S (length calls))) by lia.
    done.
Qed.

Lemma run_rejected calls b s t0 :
  state b = Open t0 ->
  Forall (fun c => elapsed t0 (t_check c) < open_duration cfg) calls ->
  run_calls cfg is_failure calls (b, s) =
  ((mkBreaker (state b) (gauge b) (transitions b) (rejections b + Z.of_nat (length calls)), s),
   replicate (length calls) (Err BreakerOpen)).
Proof.
  revert b s. induction calls as [|[clk f] calls IH]; intros b s Hs HF.
  - cbn. rewrite Z.add_0_r. by destruct b.
  - apply Forall_cons in HF as [Hf HF]. cbn [run_calls].
    rewrite (call_open_early _ _ _ _ _ Hs Hf). rewrite IH by done. cbn [rejections length].
    replace (rejections b + 1 + Z.of_nat (length calls))
      with (rejections b + Z.of_nat (Datatypes.S (length calls))) by lia.
    done.
Qed.

Lemma record_healthy f s t b :
  healthy f -> record cfg is_failure t (snd (f s)) b = record_success cfg b.
Proof. intros Hf. specialize (Hf s). unfold record. destruct (f s).2; [done|by rewrite Hf]. Qed.

Lemma run_half_open calls b s n :
  Forall (fun c => healthy (snd c)) calls ->
  state b = HalfOpen n -> 0 <= n -> calls <> [] ->
  n + Z.of_nat (length calls) = success_threshold cfg ->
  let '((b', _), rs) := run_calls cfg is_failure calls (b, s) in
  forallb reached_service rs = true /\ state b' = Closed 0.
Proof.
  revert b s n. induction calls as [|[clk f] calls IH]; intros b s n HF Hs Hn Hne Hle; [done|].
  apply Forall_cons in HF as [Hf HF]. cbn [run_calls]. rewrite (call_half_open _ _ _ _ _ Hs).
  rewrite (record_healthy _ _ _ _ Hf).
  unfold record_success. rewrite Hs. cbn [length] in *. destruct calls as [|c calls].
  - simpl in *. rewrite (proj2 (Z.leb_le _ _)) by lia. simpl. by rewrite reached_map_err.
  - rewrite (proj2 (Z.leb_gt _ _)) by (cbn [length] in *; lia).
    specialize (IH (set_state (HalfOpen (n + 1)) b) (fst (f s)) (n + 1) HF eq_refl).
    destruct (run_calls _ _ _ _) as [[b' s'] rs]. destruct IH as [H1 H2]; [lia|done|lia|].
    cbn [forallb]. by rewrite reached_map_err, H1, H2.
Qed.
Lemma run_recovers calls b s t0 c :
  state b = Open t0 ->
  open_duration cfg <= elapsed t0 (t_check c) -> open_duration cfg <= elapsed t0 (t_half c) ->
  Forall (fun c => healthy (snd c)) (c :: calls) ->
  Z.of_nat (length calls) + 1 = success_threshold cfg ->
  let '((b', _), rs) := run_calls cfg is_failure (c :: calls) (b, s) in
  state b' = Closed 0 /\ forallb reached_service rs = true.
Proof.
  destruct c as [clk f]. intros Hs Hc Hh HF Hlen. apply Forall_cons in HF as [Hf HF].
  cbn [run_calls]. rewrite (call_open_late _ _ _ _ _ Hs Hc Hh), (record_healthy _ _ _ _ Hf).
  unfold record_success. cbn [state transition]. destruct calls as [|c calls].
  - rewrite (proj2 (Z.leb_le _ _)) by (simpl in *; lia). simpl. by rewrite reached_map_err.
  - rewrite (proj2 (Z.leb_gt _ _)) by (cbn [length] in *; lia).
    pose proof (run_half_open (c :: calls)
      (set_state (HalfOpen 1) (transition (HalfOpen 0) STATE_HALF_OPEN "half_open" b))
      (fst (f s)) 1 HF eq_refl) as Hrun.
    change (0 + 1) with 1. destruct (run_calls _ _ _ _) as [[b' s'] rs].
    destruct Hrun as [H1 H2]; [lia|done|lia|].
    cbn [forallb]. by rewrite reached_map_err, H1.
Qed.
End sequence.

(** ** Schedules are step sequences *)

Lemma exec_event_step cfg e w w' : exec_event cfg e w = Some w' -> step cfg w w'.
Proof.
  destruct e as [d| |i ok]; simpl.
  - destruct (0 <=? d) eqn:Hd; [|done]. intros [= <-]. constructor. lia.
  - intros [= <-]. constructor.
  - destruct (callers w !! i) as [[]|] eqn:Hi; [| | |done..].
    + destruct (check_allowed _ _ _) as [b a] eqn:Hc. intros [= <-]. by econstructor.
    + intros [= <-]. by constructor.
    + intros [= <-]. by destruct ok; constructor.
Qed.

Lemma exec_schedule_reachable cfg es w w' :
  reachable cfg w -> exec_schedule cfg es w = Some w' -> reachable cfg w'.
Proof.
  revert w. induction es as [|e es IH]; simpl; intros w Hr; [congruence|].
  destruct (exec_event cfg e w) as [w1|] eqn:He; [|done].
  apply IH. eapply reach_step; [done|]. by eapply exec_event_step.
Qed.

(** ** Properties *)

(** C18: In every world that interleaved callers can reach, the failure and
    success counters are below their thresholds, so incrementing one cannot
    overflow its [u32]; an open breaker was opened in the past; and the
    published gauge is the encoding of the current state. *)
Theorem breaker_invariant (cfg : CircuitBreakerConfig) (w : world)
    (Hf : 1 <= failure_threshold cfg <= u32_max) (Hs : 1 <= success_threshold cfg <= u32_max)
    (Hr : reachable cfg w) :
  gauge (breaker w) = gauge_of (state (breaker w)) /\
  match state (breaker w) with
  | Closed f => 0 <= f < failure_threshold cfg /\ f + 1 <= u32_max
  | HalfOpen n => 0 <= n < success_threshold cfg /\ n + 1 <= u32_max
  | Open t => t <= clock w
  end.
Proof.
  apply reachable_ok in Hr as [H1 H2 H3]. split; [done|].
  destruct (state (breaker w)); simpl in *; lia.
Qed.

(** The schedule in which one caller is admitted by the default
    configuration, five others fail, and the first then succeeds. *)
Definition late_success : list event :=
  repeat Spawn 6
  ++ concat (map (fun i => [Advance i true; Advance i true]) (seq 0 6))
  ++ map (fun i => Advance i false) (seq 1 5).

Definition breaker_invariant_witness_world : world :=
  mkWorld 0 (mkBreaker (Open 0) STATE_OPEN ["open"] 0)
    [Running; Done; Done; Done; Done; Done].

Lemma late_success_runs :
  exec_schedule breaker_config_default late_success initial = Some breaker_invariant_witness_world.
Proof. vm_compute. reflexivity. Qed.

Lemma breaker_invariant_witness :
  exists w, reachable breaker_config_default w /\ is_open (breaker w) = true /\
    gauge (breaker w) = gauge_of (state (breaker w)).
Proof.
  exists breaker_invariant_witness_world.
  assert (Hr : reachable breaker_config_default breaker_invariant_witness_world)
    by exact (exec_schedule_reachable _ _ _ _ (reach_init _) late_success_runs).
  split; [exact Hr|]. split; [reflexivity|].
  refine (proj1 (breaker_invariant breaker_config_default _ _ _ Hr)); unfold u32_max; simpl; lia.
Defined.

(** The breaker trips, holds and recovers.  Starting closed, fewer than
    [failure_threshold] consecutive counted failures leave it closed and
    exactly that many open it at the time the last one is recorded; while the
    open period lasts every call is rejected without reaching the service and
    the state does not move; after it, [success_threshold] healthy calls
    close it again. *)
Theorem breaker_trips_and_recovers {S T E : Type} (cfg : CircuitBreakerConfig)
    (is_failure : E -> bool) (b : Breaker) (s : S)
    (calls : list ((Z * Z * Z) * (S -> S * result T E))) :
  (forall last_call,
     state b = Closed 0 ->
     Forall (fun c => always_fails is_failure (snd c)) (calls ++ [last_call]) ->
     Z.of_nat (length calls) + 1 = failure_threshold cfg ->
     let '((b1, s1), rs1) := run_calls cfg is_failure calls (b, s) in
     let '((b2, _), r2) := call_classified cfg is_failure (fst last_call) (snd last_call) (b1, s1) in
     is_open b1 = false /\ forallb reached_service (rs1 ++ [r2]) = true /\
     state b2 = Open (t_record last_call)) /\
  (forall t0,
     state b = Open t0 ->
     Forall (fun c => elapsed t0 (t_check c) < open_duration cfg) calls ->
     let '((b', s'), rs) := run_calls cfg is_failure calls (b, s) in
     s' = s /\ state b' = Open t0 /\ Forall (fun r => r = Err BreakerOpen) rs) /\
  (forall t0 c,
     state b = Open t0 ->
     open_duration cfg <= elapsed t0 (t_check c) -> open_duration cfg <= elapsed t0 (t_half c) ->
     Forall (fun c => healthy is_failure (snd c)) (c :: calls) ->
     Z.of_nat (length calls) + 1 = success_threshold cfg ->
     let '((b', _), rs) := run_calls cfg is_failure (c :: calls) (b, s) in
     state b' = Closed 0 /\ forallb reached_service rs = true).
Proof.
  split_and!.
  - intros lc Hs HF Hlen. apply Forall_app in HF as [HF Hl].
    pose proof (run_failures cfg is_failure calls b s 0 HF Hs) as Hrun.
    destruct (run_calls _ _ _ _) as [[b1 s1] rs1]. destruct Hrun as [Hrs Hb1]; [lia..|].
    assert (Hb1' : state b1 = Closed (Z.of_nat (length calls))).
    { rewrite Hb1. destruct (last calls) eqn:El; [|by apply last_None in El; subst].
      rewrite (proj2 (Z.ltb_lt _ _)) by lia. done. }
    pose proof (run_failures cfg is_failure [lc] b1 s1 _ Hl Hb1') as Hrun2.
    destruct lc as [clk f]. cbn [run_calls last length fst snd] in *.
    destruct (call_classified _ _ _ _ _) as [[b2 s2] r2]. destruct Hrun2 as [H1 H2]; [lia..|].
    split_and!; [by unfold is_open; rewrite Hb1'|by rewrite forallb_app, Hrs, H1|].
    rewrite H2, (proj2 (Z.ltb_ge _ _)) by lia. done.
  - intros t0 Hs HF. rewrite (run_rejected _ _ _ _ _ _ Hs HF).
    split_and!; [done|done|]. by apply Forall_replicate.
  - intros t0 c Hs Hc Hh HF Hlen. by apply (run_recovers cfg is_failure calls b s t0 c).
Qed.

(** The case [record_success] comments as one that should not happen is
    reachable with the default configuration: a call admitted before the
    breaker opened and succeeding after it closes the breaker with none of
    the open period elapsed and without passing through half-open. *)
Theorem breaker_late_success_closes :
  exists w w' i, reachable breaker_config_default w /\
    callers w !! i = Some Running /\ state (breaker w) = Open (clock w) /\
    step breaker_config_default w w' /\ clock w' = clock w /\ state (breaker w') = Closed 0 /\
    transitions (breaker w') = ["open"; "closed"].
Proof.
  eexists _, _, 0%nat.
  split; [exact (exec_schedule_reachable _ _ _ _ (reach_init _) late_success_runs)|].
  split; [reflexivity|]. split; [reflexivity|].
  split; [by eapply (step_success _ _ 0%nat)|]. done.
Qed.

(** The cycle with a threshold of one: a failing call opens the breaker, a
    call within the second is rejected, a call after it closes the breaker. *)
Lemma breaker_trips_and_recovers_witness :
  let cfg := mkBreakerConfig 1 1 1 in
  let fail := fun (s : nat) => (S s, @Err unit str "down") in
  let up := fun (s : nat) => (S s, @Ok unit str tt) in
  let '((b2, s2), _) := call_classified cfg (fun _ => true) (0, 0, 5) fail (breaker_new, 0%nat) in
  let '((b3, s3), _) := run_calls cfg (fun _ => true) [((6, 6, 6), up)] (b2, s2) in
  let '((b4, _), _) :=
    run_calls cfg (fun _ => true) [((2000000000, 2000000000, 2000000000), up)] (b3, s3) in
  state b2 = Open 5 /\ s3 = s2 /\ state b4 = Closed 0.
Proof.
  set (cfg := mkBreakerConfig 1 1 1).
  set (fail := fun (s : nat) => (S s, @Err unit str "down")).
  set (up := fun (s : nat) => (S s, @Ok unit str tt)).
  destruct (breaker_trips_and_recovers cfg (fun _ : str => true) breaker_new 0%nat
    ([] : list ((Z * Z * Z) * (nat -> nat * result unit str)))) as (H1 & _ & _).
  specialize (H1 ((0, 0, 5), fail) eq_refl).
  destruct H1 as (_ & _ & H1); [|reflexivity|].
  { apply Forall_cons. split; [intros s; exists "down"; done|constructor]. }
  destruct (breaker_trips_and_recovers cfg (fun _ : str => true)
    (mkBreaker (Open 5) STATE_OPEN ["open"] 0) 1%nat [((6, 6, 6), up)]) as (_ & H2 & _).
  specialize (H2 5 eq_refl).
  destruct H2 as (H2 & _ & _); [apply Forall_cons; split; [vm_compute; reflexivity|constructor]|].
  destruct (breaker_trips_and_recovers cfg (fun _ : str => true)
    (mkBreaker (Open 5) STATE_OPEN ["open"] 1) 1%nat
    ([] : list ((Z * Z * Z) * (nat -> nat * result unit str)))) as (_ & _ & H3).
  specialize (H3 5 ((2000000000, 2000000000, 2000000000), up) eq_refl).
  destruct H3 as (H3 & _); [vm_compute; discriminate..| |reflexivity|].
  { apply Forall_cons. split; [intros s; done|constructor]. }
  split; [exact H1|]. split; [exact H2|exact H3].
Defined.
