(* ===== verification/Retry.v ===== *)
(** * Retry with exponential backoff ([crates/specton-resilience/src/retry.rs])

    The loop of [execute_labeled] on the state of the retried service, with
    the delays slept and the metric counters it increments. *)

From S2P Require Import Prelude.

Local Open Scope Z_scope.

Record RetryPolicy : Type := mkRetryPolicy {
  max_retries : nat;
  base_delay_ms : Z;
  max_delay_ms : Z;
  jitter : bool
}.

Definition retry_policy_default : RetryPolicy := mkRetryPolicy 3 100 5000 true.

(** The delay before the retry that follows attempt [attempt].  [random_range]
    is the random generator of the [rand] crate: a value of [0..=hi]. *)
Definition compute_delay (random_range : nat -> Z -> Z) (p : RetryPolicy) (attempt : nat) : Z :=
  let base := u64_saturating_mul (base_delay_ms p) (u64_saturating_pow 2 (Z.of_nat attempt)) in
  let capped := Z.min base (max_delay_ms p) in
  if jitter p then random_range attempt capped else capped.

(** What one execution observably does besides calling the operation. *)
Record RetryTrace : Type := mkRetryTrace {
  slept : list Z;
  recovered : Z;
  exhausted : Z
}.

Section execute.
Context {S T E : Type} (random_range : nat -> Z -> Z) (p : RetryPolicy)
        (f : S -> S * result T E).

(** The loop from attempt [attempt] on; [left] is [max_retries - attempt]. *)
Fixpoint retry_loop (left attempt : nat) (s : S) : S * result T E * RetryTrace :=
  match f s with
  | (s', Ok val) =>
      (s', Ok val,
       mkRetryTrace [] (if (0 <? attempt)%nat then Z.of_nat attempt else 0) 0)
  | (s', Err e) =>
      match left with
      | O => (s', Err e, mkRetryTrace [] 0 (Z.of_nat attempt + 1))
      | Datatypes.S left' =>
          let delay := compute_delay random_range p attempt in
          let '(s'', r, tr) := retry_loop left' (attempt + 1) s' in
          (s'', r, mkRetryTrace (delay :: slept tr) (recovered tr) (exhausted tr))
      end
  end.

Definition execute_labeled (s : S) : S * result T E * RetryTrace :=
  retry_loop (max_retries p) 0 s.

(** The service state and the outcome of the [n]-th attempt, if each one
    before it failed. *)
Fixpoint state_before (n : nat) (s : S) : S :=
  match n with
  | O => s
  | Datatypes.S n' => state_before n' (fst (f s))
  end.

Definition attempt_result (n : nat) (s : S) : result T E := snd (f (state_before n s)).
End execute.

(** ** Lemmas *)

Lemma saturating_backoff base max attempt :
  0 <= base -> 0 <= max <= u64_max ->
  Z.min (u64_saturating_mul base (u64_saturating_pow 2 (Z.of_nat attempt))) max =
  Z.min (base * 2 ^ Z.of_nat attempt) max.
Proof.
  intros Hb Hm. unfold u64_saturating_mul, u64_saturating_pow.
  assert (H2 : 0 < 2 ^ Z.of_nat attempt) by (apply Z.pow_pos_nonneg; lia).
  generalize dependent (2 ^ Z.of_nat attempt). intros q Hq. unfold u64_max in *. nia.
Qed.

Section execute_lemmas.
Context {S T E : Type} (random_range : nat -> Z -> Z) (p : RetryPolicy)
        (f : S -> S * result T E).

(** The loop stops at the first attempt that succeeds, or at the last one
    allowed: [n] attempts failed before it. *)
Lemma retry_loop_spec left attempt s :
  exists n, (n <= left)%nat /\
    (forall k, (k < n)%nat -> is_ok (attempt_result f k s) = false) /\
    (n = left \/ is_ok (attempt_result f n s) = true) /\
    let '(s', r, tr) := retry_loop random_range p f left attempt s in
    s' = state_before f (Datatypes.S n) s /\ r = attempt_result f n s /\
    slept tr = map (compute_delay random_range p) (seq attempt n) /\
    recovered tr = (if is_ok r then Z.of_nat (attempt + n) else 0) /\
    exhausted tr = (if is_ok r then 0 else Z.of_nat (attempt + n) + 1).
Proof.
  revert attempt s. induction left as [|left IH]; intros attempt s.
  - exists 0%nat. unfold attempt_result. simpl. destruct (f s) as [s' [v|e]] eqn:Hf; simpl;
      (split; [lia|]); (split; [lia|]); (split; [by left|]); rewrite ?Hf; split_and!; try done.
    + rewrite Nat.add_0_r. by destruct attempt.
    + by rewrite Nat.add_0_r.
  - simpl. destruct (f s) as [s' [v|e]] eqn:Hf.
    + exists 0%nat. unfold attempt_result. simpl. rewrite Hf. split_and!; try done; [lia|lia|by right|].
      rewrite Nat.add_0_r. by destruct attempt.
    + destruct (IH (attempt + 1)%nat s') as (n & Hn & Hlt & Hlast & Hrun).
      destruct (retry_loop _ _ _ _ _ _) as [[s'' r] tr] eqn:Hl.
      destruct Hrun as (-> & -> & Hsl & Hrec & Hex).
      assert (Hsh : forall k, attempt_result f (Datatypes.S k) s = attempt_result f k s')
        by (intros k; unfold attempt_result; simpl; by rewrite Hf).
      exists (Datatypes.S n). split_and!; simpl.
      * lia.
      * intros [|k] Hk; [unfold attempt_result; simpl; by rewrite Hf|].
        rewrite Hsh. apply Hlt. lia.
      * rewrite Hsh. destruct Hlast as [->|H]; [by left|by right].
      * done.
      * by rewrite Hsh.
      * rewrite Hsl, Nat.add_1_r. done.
      * rewrite Hrec. by replace (attempt + 1 + n)%nat with (attempt + Datatypes.S n)%nat by lia.
      * rewrite Hex. by replace (attempt + 1 + n)%nat with (attempt + Datatypes.S n)%nat by lia.
Qed.

(** The attempt that decided ran from a state failed attempts lead to. *)
Lemma retry_last (P : S -> Prop) left attempt s s' r tr :
  retry_loop random_range p f left attempt s = (s', r, tr) ->
  P s -> (forall v v' e, P v -> f v = (v', Err e) -> P v') ->
  exists v, P v /\ f v = (s', r).
Proof.
  revert attempt s s' r tr. induction left as [|left IH]; intros attempt s s' r tr Hl Hs Hstep; cbn in Hl;
    destruct (f s) as [s1 [v|e]] eqn:Hf; [injection Hl as <- <- _; eauto..|].
  destruct (retry_loop _ _ _ left _ s1) as [[s2 r2] tr2] eqn:Hl2. injection Hl as <- <- _.
  eapply IH; [done| |done]. by eapply Hstep.
Qed.
End execute_lemmas.

(** ** Properties *)

(** C19: [execute_labeled] runs the operation until it first succeeds and at
    most [max_retries + 1] times: after [n] failed attempts it returns the
    result of attempt [n], which is a success unless the attempts are used
    up; it slept exactly once between consecutive attempts, each time
    [min(base * 2^attempt, max_delay)] with no jitter and between zero and
    that with it, and saturation of the [u64] arithmetic never changes it. *)
Theorem retry_executes {S T E : Type} (random_range : nat -> Z -> Z) (p : RetryPolicy)
    (f : S -> S * result T E) (s : S)
    (Hb : 0 <= base_delay_ms p) (Hm : 0 <= max_delay_ms p <= u64_max)
    (Hrnd : forall k hi, 0 <= hi -> 0 <= random_range k hi <= hi) :
  exists n, (n <= max_retries p)%nat /\
    (forall k, (k < n)%nat -> is_ok (attempt_result f k s) = false) /\
    (n = max_retries p \/ is_ok (attempt_result f n s) = true) /\
    let '(s', r, tr) := execute_labeled random_range p f s in
    s' = state_before f (Datatypes.S n) s /\ r = attempt_result f n s /\ length (slept tr) = n /\
    forall k d, slept tr !! k = Some d ->
      let capped := Z.min (base_delay_ms p * 2 ^ Z.of_nat k) (max_delay_ms p) in
      if jitter p then 0 <= d <= capped else d = capped.
Proof.
  destruct (retry_loop_spec random_range p f (max_retries p) 0 s) as (n & Hn & Hlt & Hlast & Hrun).
  exists n. split; [done|]. split; [done|]. split; [done|]. unfold execute_labeled.
  destruct (retry_loop _ _ _ _ _ _) as [[s' r] tr]. destruct Hrun as (-> & -> & Hsl & _).
  split; [done|]. split; [done|]. rewrite Hsl. split; [by rewrite length_map, length_seq|].
  intros k d Hd. apply list_lookup_fmap_Some in Hd as (a & -> & Ha).
  apply lookup_seq in Ha as [-> _]. simpl. unfold compute_delay.
  rewrite saturating_backoff by done. destruct (jitter p); [|done]. apply Hrnd.
  assert (0 <= 2 ^ Z.of_nat k) by (apply Z.pow_nonneg; lia). nia.
Qed.

Lemma retry_executes_witness :
  exists n, (n <= 3)%nat /\
    let '(s', r, tr) :=
      execute_labeled (fun _ hi => hi) retry_policy_default
        (fun s : nat => (Datatypes.S s, if (2 <=? s)%nat then Ok s else Err "busy")) 0%nat in
    s' = 3%nat /\ r = Ok 2%nat /\ slept tr = [100; 200] /\ length (slept tr) = n.
Proof.
  destruct (retry_executes (fun _ hi => hi) retry_policy_default
    (fun s : nat => (Datatypes.S s, if (2 <=? s)%nat then Ok s else Err "busy")) 0%nat)
    as (n & Hn & _ & _ & H).
  - simpl. lia.
  - unfold u64_max. simpl. lia.
  - lia.
  - exists n. split; [exact Hn|]. destruct H as (_ & _ & Hlen & _).
    split; [reflexivity|]. split; [reflexivity|]. split; [reflexivity|exact Hlen].
Defined.
