(* ===== verification/Store.v ===== *)
(** * Object stores

    The [object_store] crate is not part of the repository: it appears here as
    the operations the code calls ([ObjectStore]) and the documented contract
    it relies on ([ObjectStoreLaws]).  Every component that writes objects is
    written against the first and proved against the second.  [Memory] is an
    in-memory store with injected faults that satisfies the contract. *)

From S2P Require Import Prelude Effects.

Local Open Scope Z_scope.

(** The variants the code tells apart. *)
Inductive StoreError : Type :=
| NotFound (path : str)
| AlreadyExists (path : str)
| Generic (store source : str).

Record ObjectMeta : Type := mkObjectMeta {
  location : str;
  size : Z
}.

(** A multipart session is named by a handle; parts are numbered in the order
    of the [put_part] calls.  [os_get] is [get] followed by the read of the whole
    body: a body that breaks off is an error of [os_get], so where a handler
    answers the two failures differently (the chunk handlers of an upload answer
    400 to the first and 500 to the second) the model gives the first answer. *)
Class ObjectStore (W : Type) : Type := {
  os_put : str -> str -> M W StoreError unit;
  os_get : str -> M W StoreError str;
  os_head : str -> M W StoreError ObjectMeta;
  os_delete : str -> M W StoreError unit;
  os_list : option str -> M W StoreError (list ObjectMeta);
  os_list_with_delimiter : option str -> M W StoreError (list str);
  os_put_multipart : str -> M W StoreError nat;
  os_put_part : nat -> nat -> str -> M W StoreError unit;
  os_complete : nat -> M W StoreError unit;
  os_abort : nat -> M W StoreError unit
}.

(** Prefixes are compared by whole path segments. *)
Definition under (prefix : option str) (path : str) : bool :=
  match prefix with
  | None => true
  | Some p => starts_with (p ++ "/") path
  end.

(** The common prefix (directory) of a delimited listing that a path falls in. *)
Definition dir_of (prefix : option str) (path : str) : option str :=
  match prefix with
  | None => fst <$> split_once_byte "/"%char path
  | Some p =>
      match strip_prefix (p ++ "/") path with
      | Some rest =>
          match split_once_byte "/"%char rest with
          | Some (seg, _) => Some (p ++ "/" ++ seg)
          | None => None
          end
      | None => None
      end
  end.

(** The bytes a completed upload of parts [0 .. n-1] holds; [None] if one of
    them is missing. *)
Fixpoint assemble (parts : gmap nat str) (i n : nat) : option str :=
  match n with
  | O => Some []
  | S n' =>
      match parts !! i, assemble parts (S i) n' with
      | Some d, Some rest => Some (d ++ rest)
      | _, _ => None
      end
  end.

(** ** The contract

    A write that reports success has happened, and one that reports an error
    either happened or did not; reads report what is stored; no operation
    touches another path.  A multipart upload becomes visible at [complete],
    whole and in part order. *)
Class ObjectStoreLaws (W : Type) `{ObjectStore W} : Type := {
  objects : W -> gmap str str;
  uploads : W -> gmap nat (str * gmap nat str);

  put_ok w w' p d : os_put p d w = (w', Ok tt) -> objects w' = <[p := d]> (objects w);
  put_err w w' p d e :
    os_put p d w = (w', Err e) ->
    objects w' = objects w \/ objects w' = <[p := d]> (objects w);
  put_uploads p d w : uploads (exec (os_put p d) w) = uploads w;

  get_same p w : objects (exec (os_get p) w) = objects w;
  get_uploads p w : uploads (exec (os_get p) w) = uploads w;
  get_ok w w' p d : os_get p w = (w', Ok d) -> objects w !! p = Some d;
  get_not_found w w' p q : os_get p w = (w', Err (NotFound q)) -> objects w !! p = None;

  head_same p w : objects (exec (os_head p) w) = objects w;
  head_uploads p w : uploads (exec (os_head p) w) = uploads w;
  head_ok w w' p m :
    os_head p w = (w', Ok m) ->
    exists d, objects w !! p = Some d /\ location m = p /\ size m = Z.of_nat (length d);
  head_not_found w w' p q : os_head p w = (w', Err (NotFound q)) -> objects w !! p = None;

  delete_ok w w' p : os_delete p w = (w', Ok tt) -> objects w' = delete p (objects w);
  delete_err w w' p e :
    os_delete p w = (w', Err e) ->
    objects w' = objects w \/ objects w' = delete p (objects w);
  delete_not_found w w' p q : os_delete p w = (w', Err (NotFound q)) -> objects w' !! p = None;
  delete_uploads p w : uploads (exec (os_delete p) w) = uploads w;

  list_same pre w : objects (exec (os_list pre) w) = objects w;
  list_uploads pre w : uploads (exec (os_list pre) w) = uploads w;
  list_ok w w' pre ms :
    os_list pre w = (w', Ok ms) ->
    forall p n, mkObjectMeta p n ∈ ms <->
      under pre p = true /\ exists d, objects w !! p = Some d /\ n = Z.of_nat (length d);
  list_nodup w w' pre ms : os_list pre w = (w', Ok ms) -> NoDup (map location ms);

  dirs_same pre w : objects (exec (os_list_with_delimiter pre) w) = objects w;
  dirs_uploads pre w : uploads (exec (os_list_with_delimiter pre) w) = uploads w;
  dirs_ok w w' pre ds :
    os_list_with_delimiter pre w = (w', Ok ds) ->
    forall d, d ∈ ds <-> exists p x, objects w !! p = Some x /\ dir_of pre p = Some d;

  multipart_same p w : objects (exec (os_put_multipart p) w) = objects w;
  multipart_ok w w' p u :
    os_put_multipart p w = (w', Ok u) -> uploads w' = <[u := (p, ∅)]> (uploads w);
  part_same u i d w : objects (exec (os_put_part u i d) w) = objects w;
  part_ok w w' u i d p parts :
    uploads w !! u = Some (p, parts) -> os_put_part u i d w = (w', Ok tt) ->
    uploads w' !! u = Some (p, <[i := d]> parts);
  complete_ok w w' u p parts n data :
    uploads w !! u = Some (p, parts) -> base.size parts = n -> assemble parts 0 n = Some data ->
    os_complete u w = (w', Ok tt) -> objects w' = <[p := data]> (objects w);
  complete_err w w' u p parts n data e :
    uploads w !! u = Some (p, parts) -> base.size parts = n -> assemble parts 0 n = Some data ->
    os_complete u w = (w', Err e) ->
    objects w' = objects w \/ objects w' = <[p := data]> (objects w);
  abort_same u w : objects (exec (os_abort u) w) = objects w
}.

(** ** A store in memory with injected faults *)

Inductive fault : Type :=
| NoFault
| Lost  (** the request fails before it has an effect *)
| Late. (** the effect happens, the response is lost *)

Record Memory : Type := mkMemory {
  mem_objects : gmap str str;
  mem_uploads : gmap nat (str * gmap nat str);
  faults : list fault
}.

Definition memory_of (objs : gmap str str) (fs : list fault) : Memory := mkMemory objs ∅ fs.

Definition faulty {A} (m : M Memory StoreError A) : M Memory StoreError A :=
  fun s =>
    match faults s with
    | [] => m s
    | f :: fs =>
        let s := mkMemory (mem_objects s) (mem_uploads s) fs in
        match f with
        | NoFault => m s
        | Lost => (s, Err (Generic "memory" "connection reset"))
        | Late => (exec m s, Err (Generic "memory" "response lost"))
        end
    end.

Definition set_objects (f : gmap str str -> gmap str str) (s : Memory) : Memory :=
  mkMemory (f (mem_objects s)) (mem_uploads s) (faults s).

Definition set_uploads (f : gmap nat (str * gmap nat str) -> gmap nat (str * gmap nat str))
    (s : Memory) : Memory :=
  mkMemory (mem_objects s) (f (mem_uploads s)) (faults s).

Definition mem_get (p : str) : M Memory StoreError str :=
  fun s => (s, match mem_objects s !! p with
               | Some d => Ok d
               | None => Err (NotFound p)
               end).

Definition mem_head (p : str) : M Memory StoreError ObjectMeta :=
  fun s => (s, match mem_objects s !! p with
               | Some d => Ok (mkObjectMeta p (Z.of_nat (length d)))
               | None => Err (NotFound p)
               end).

Definition mem_delete (p : str) : M Memory StoreError unit :=
  fun s => match mem_objects s !! p with
           | Some _ => (set_objects (delete p) s, Ok tt)
           | None => (s, Err (NotFound p))
           end.

Definition metas (pre : option str) (objs : gmap str str) : list ObjectMeta :=
  omap (fun kv => if under pre kv.1 then Some (mkObjectMeta kv.1 (Z.of_nat (length kv.2))) else None)
    (map_to_list objs).

Definition dirs (pre : option str) (objs : gmap str str) : list str :=
  remove_dups (omap (fun kv => dir_of pre kv.1) (map_to_list objs)).

Definition mem_part (u i : nat) (d : str) : M Memory StoreError unit :=
  fun s => match mem_uploads s !! u with
           | Some (p, parts) => (set_uploads <[u := (p, <[i := d]> parts)]> s, Ok tt)
           | None => (s, Err (Generic "memory" "no such upload"))
           end.

Definition mem_complete (u : nat) : M Memory StoreError unit :=
  fun s => match mem_uploads s !! u with
           | Some (p, parts) =>
               match assemble parts 0 (base.size parts) with
               | Some data => (set_objects <[p := data]> (set_uploads (delete u) s), Ok tt)
               | None => (s, Err (Generic "memory" "missing part"))
               end
           | None => (s, Err (Generic "memory" "no such upload"))
           end.

#[global] Instance memory_store : ObjectStore Memory := {
  os_put p d := faulty (modify (set_objects <[p := d]>));
  os_get p := faulty (mem_get p);
  os_head p := faulty (mem_head p);
  os_delete p := faulty (mem_delete p);
  os_list pre := faulty (gets (fun s => metas pre (mem_objects s)));
  os_list_with_delimiter pre := faulty (gets (fun s => dirs pre (mem_objects s)));
  os_put_multipart p :=
    faulty (fun s => let u := fresh (dom (mem_uploads s)) in
                     (set_uploads <[u := (p, ∅)]> s, Ok u));
  os_put_part u i d := faulty (mem_part u i d);
  os_complete u := faulty (mem_complete u);
  os_abort u := faulty (modify (set_uploads (delete u)))
}.

(** The store without its next fault. *)
Definition unfault (s : Memory) : Memory := mkMemory (mem_objects s) (mem_uploads s) (tail (faults s)).

Lemma faulty_inv {A} (m : M Memory StoreError A) s s' r :
  faulty m s = (s', r) ->
  m (unfault s) = (s', r) \/
  exists st e, r = Err (Generic st e) /\ (s' = unfault s \/ s' = exec m (unfault s)).
Proof.
  unfold faulty. destruct s as [o u [|[] fs]]; cbn; intros H; simplify_eq; eauto 6.
Qed.

(** A projection of the store that [m] does not change is not changed under faults. *)
Lemma faulty_same {A B} (m : M Memory StoreError A) (f : Memory -> B) s :
  (forall s, f (exec m s) = f s) -> (forall s, f (unfault s) = f s) ->
  f (exec (faulty m) s) = f s.
Proof.
  intros Hm Hu. unfold exec. destruct (faulty m s) as [s' r] eqn:E. cbn.
  apply faulty_inv in E as [E|(st & e & -> & [->| ->])]; rewrite <- (Hu s); [|done|apply Hm].
  pose proof (Hm (unfault s)) as H. unfold exec in H. by rewrite E in H.
Qed.

Lemma mem_get_same p s : exec (mem_get p) s = s.
Proof. done. Qed.

Lemma mem_delete_uploads p s : mem_uploads (exec (mem_delete p) s) = mem_uploads s.
Proof. unfold exec, mem_delete. by case_match. Qed.

Lemma mem_part_objects u i d s : mem_objects (exec (mem_part u i d) s) = mem_objects s.
Proof. unfold exec, mem_part. by case_match; [case_match|]. Qed.

Lemma elem_metas pre objs p n :
  mkObjectMeta p n ∈ metas pre objs <->
  under pre p = true /\ exists d, objs !! p = Some d /\ n = Z.of_nat (length d).
Proof.
  unfold metas. rewrite list_elem_of_omap. split.
  - intros ([k d] & Hin & Heq). cbn in Heq. destruct (under pre k) eqn:Hu; [|done].
    injection Heq as <- <-. apply elem_of_map_to_list in Hin. eauto.
  - intros (Hu & d & Hd & ->). exists (p, d). split; [by apply elem_of_map_to_list|].
    cbn. by rewrite Hu.
Qed.

Lemma nodup_metas pre objs : NoDup (map location (metas pre objs)).
Proof.
  assert (He : map location (metas pre objs) =
               filter (fun k => under pre k = true) (map fst (map_to_list objs))).
  { unfold metas. induction (map_to_list objs) as [|[k d] l IH]; [done|].
    cbn [map fst]. destruct (under pre k) eqn:Hk.
    - rewrite filter_cons_True by done. rewrite <- IH. cbn. by rewrite Hk.
    - rewrite filter_cons_False by congruence. rewrite <- IH. cbn. by rewrite Hk. }
  rewrite He. apply NoDup_filter, NoDup_fst_map_to_list.
Qed.

Lemma elem_dirs pre objs d :
  d ∈ dirs pre objs <-> exists p x, objs !! p = Some x /\ dir_of pre p = Some d.
Proof.
  unfold dirs. rewrite elem_of_remove_dups, list_elem_of_omap. split.
  - intros ([k x] & Hin & Heq). apply elem_of_map_to_list in Hin. eauto.
  - intros (p & x & Hp & Hd). exists (p, x). split; [by apply elem_of_map_to_list|done].
Qed.

#[global] Instance memory_laws : ObjectStoreLaws Memory.
Proof.
  refine {| objects := mem_objects; uploads := mem_uploads |}; cbn.
  - intros w w' p d [[= <-]|(st & e & [=] & _)]%faulty_inv. done.
  - intros w w' p d e [[=]|(st & e' & _ & [->| ->])]%faulty_inv; auto.
  - intros p d w. by apply faulty_same.
  - intros p w. by apply faulty_same.
  - intros p w. by apply faulty_same.
  - intros w w' p d [[= <- H]|(st & e & [=] & _)]%faulty_inv. cbn in H. by case_match; simplify_eq.
  - intros w w' p q [[= <- H]|(st & e & [=] & _)]%faulty_inv. cbn in H. by case_match; simplify_eq.
  - intros p w. by apply faulty_same.
  - intros p w. by apply faulty_same.
  - intros w w' p m [[= <- H]|(st & e & [=] & _)]%faulty_inv. cbn in H.
    case_match; simplify_eq. cbn. eauto.
  - intros w w' p q [[= <- H]|(st & e & [=] & _)]%faulty_inv. cbn in H. by case_match; simplify_eq.
  - intros w w' p [H|(st & e & [=] & _)]%faulty_inv. unfold mem_delete in H.
    by case_match; simplify_eq.
  - intros w w' p e [H|(st & e' & _ & [->| ->])]%faulty_inv; [|by left|];
      unfold exec, mem_delete in *; case_match; simplify_eq; auto.
  - intros w w' p q [H|(st & e & [=] & _)]%faulty_inv. unfold mem_delete in H.
    by case_match; simplify_eq.
  - intros p w. apply faulty_same; [apply mem_delete_uploads|done].
  - intros pre w. by apply faulty_same.
  - intros pre w. by apply faulty_same.
  - intros w w' pre ms [[= <- <-]|(st & e & [=] & _)]%faulty_inv. intros p n. apply elem_metas.
  - intros w w' pre ms [[= <- <-]|(st & e & [=] & _)]%faulty_inv. apply nodup_metas.
  - intros pre w. by apply faulty_same.
  - intros pre w. by apply faulty_same.
  - intros w w' pre ds [[= <- <-]|(st & e & [=] & _)]%faulty_inv. intros d. apply elem_dirs.
  - intros p w. by apply faulty_same.
  - intros w w' p u [[= <- <-]|(st & e & [=] & _)]%faulty_inv. done.
  - intros u i d w. apply faulty_same; [apply mem_part_objects|done].
  - intros w w' u i d p parts Hu [H|(st & e & [=] & _)]%faulty_inv.
    unfold mem_part in H. cbn in H. rewrite Hu in H. simplify_eq. cbn. by simplify_map_eq.
  - intros w w' u p parts n data Hu <- Ha [H|(st & e & [=] & _)]%faulty_inv.
    unfold mem_complete in H. cbn in H. rewrite Hu, Ha in H. by simplify_eq.
  - intros w w' u p parts n data e Hu <- Ha [H|(st & e' & _ & [->| ->])]%faulty_inv; [|by left|];
      unfold exec, mem_complete in *; cbn in *; rewrite Hu, Ha in *; simplify_eq; auto.
  - intros u w. by apply faulty_same.
Defined.

(** ** Stores that answer

    In a [healthy] state writes succeed and stored objects are found, and the
    state stays healthy. *)
Class Reliable (W : Type) `{ObjectStoreLaws W} (healthy : W -> Prop) : Prop := {
  healthy_put w p d : healthy w -> exists w', os_put p d w = (w', Ok tt) /\ healthy w';
  healthy_get w p d :
    healthy w -> objects w !! p = Some d -> exists w', os_get p w = (w', Ok d) /\ healthy w'
}.

Definition no_faults (s : Memory) : Prop := faults s = [].

#[global] Instance memory_reliable : Reliable Memory no_faults.
Proof.
  split; unfold no_faults; cbn; intros [o u fs] p d; cbn; intros ->; cbn; [eauto|].
  intros Hp. unfold mem_get. cbn. rewrite Hp. eauto.
Qed.

(** ** A store inside a larger state

    Operations on a part of the state leave the rest of it alone, and a state
    whose operations are those of its part keeps the part's contract. *)

Section zoom.
Context {S W : Type} (get_part : S -> W) (set_part : W -> S -> S).
Context (get_set : forall w s, get_part (set_part w s) = w).

Definition zoom {E X} (m : M W E X) : M S E X :=
  fun s => let '(w, r) := m (get_part s) in (set_part w s, r).

Lemma zoom_inv {E X} (m : M W E X) s s' r :
  zoom m s = (s', r) -> exists w, m (get_part s) = (w, r) /\ s' = set_part w s.
Proof. unfold zoom. destruct (m (get_part s)) as [w r']. intros [= <- <-]. by exists w. Qed.

Lemma zoom_exec {E X} (m : M W E X) s : get_part (exec (zoom m) s) = exec m (get_part s).
Proof. unfold exec, zoom. destruct (m (get_part s)). apply get_set. Qed.

Context `{!ObjectStore W}.

#[local] Instance zoom_store : ObjectStore S := {
  os_put p d := zoom (os_put p d);
  os_get p := zoom (os_get p);
  os_head p := zoom (os_head p);
  os_delete p := zoom (os_delete p);
  os_list pre := zoom (os_list pre);
  os_list_with_delimiter pre := zoom (os_list_with_delimiter pre);
  os_put_multipart p := zoom (os_put_multipart p);
  os_put_part u i d := zoom (os_put_part u i d);
  os_complete u := zoom (os_complete u);
  os_abort u := zoom (os_abort u)
}.

#[local] Ltac lift_law :=
  cbn; intros;
  repeat match goal with
         | H : zoom _ _ = _ |- _ => apply zoom_inv in H as (? & H & ->)
         end;
  rewrite ?zoom_exec, ?get_set.

Definition zoom_laws `{!ObjectStoreLaws W} : ObjectStoreLaws S.
Proof using get_set.
  refine {| objects s := objects (get_part s); uploads s := uploads (get_part s) |}; lift_law.
  - by apply put_ok.
  - by eapply put_err.
  - apply put_uploads.
  - apply get_same.
  - apply get_uploads.
  - by eapply get_ok.
  - by eapply get_not_found.
  - apply head_same.
  - apply head_uploads.
  - by eapply head_ok.
  - by eapply head_not_found.
  - by apply delete_ok.
  - by eapply delete_err.
  - by eapply delete_not_found.
  - apply delete_uploads.
  - apply list_same.
  - apply list_uploads.
  - by eapply list_ok.
  - by eapply list_nodup.
  - apply dirs_same.
  - apply dirs_uploads.
  - by eapply dirs_ok.
  - apply multipart_same.
  - by eapply multipart_ok.
  - apply part_same.
  - by eapply part_ok.
  - by eapply complete_ok.
  - by eapply complete_err.
  - apply abort_same.
Defined.

Lemma zoom_reliable `{!ObjectStoreLaws W} healthy :
  Reliable W healthy -> @Reliable S zoom_store zoom_laws (fun s => healthy (get_part s)).
Proof.
  intros Hw. split; cbn; unfold zoom.
  - intros s p d Hs. destruct (healthy_put (get_part s) p d Hs) as (w & -> & Hh).
    eexists. split; [done|]. by rewrite get_set.
  - intros s p d Hs Hp. destruct (healthy_get (get_part s) p d Hs Hp) as (w & -> & Hh).
    eexists. split; [done|]. by rewrite get_set.
Qed.
End zoom.
