(* ===== verification/ResilientStore.v ===== *)
(** * Resilient object store ([crates/specton-resilience/src/resilient_store.rs])

    The wrapper that puts every request of a store behind the retry loop and
    the circuit breaker.  It is again an [ObjectStore], and it satisfies the
    store contract whenever the wrapped store does. *)

From S2P Require Import Prelude Effects Breaker Retry Store.

Local Open Scope Z_scope.

(** What the wrapper is configured with, and the clock and random numbers it
    runs under: [clock n] is the [n]-th reading of the clock, [random e k hi]
    the jitter of the [k]-th retry of the [e]-th request. *)
Record Env : Type := mkEnv {
  retry_policy : RetryPolicy;
  breaker_config : CircuitBreakerConfig;
  clock_at : nat -> Z;
  random : nat -> nat -> Z -> Z
}.

Record Resilient (env : Env) (W : Type) : Type := mkResilient {
  inner : W;
  circuit_breaker : Breaker;
  readings : nat;
  retries : list RetryTrace;
  outcomes : list (str * bool)
}.
Arguments mkResilient {env W}.
Arguments inner {env W}.
Arguments circuit_breaker {env W}.
Arguments readings {env W}.
Arguments retries {env W}.
Arguments outcomes {env W}.

Definition map_cb_err (err : CallError StoreError) : StoreError :=
  match err with
  | BreakerOpen => Generic "resilient" "circuit breaker 'storage' is open"
  | Inner e => e
  end.

Definition is_not_found (err : StoreError) : bool :=
  match err with
  | NotFound _ => true
  | _ => false
  end.

Section resilient.
Context {env : Env} {W : Type} `{ObjectStore W}.

Definition resilient_new (w : W) : Resilient env W := mkResilient w breaker_new 0 [] [].

(** One request: the breaker around the retry loop around the inner
    operation, then the outcome metrics. *)
Definition guarded {A} (operation : str) (is_failure : StoreError -> bool)
    (op : M W StoreError A) : M (Resilient env W) StoreError A :=
  fun s =>
    let n := readings s in
    let clk := (clock_at env n, clock_at env (n + 1), clock_at env (n + 2)) in
    let request := fun (wt : W * list RetryTrace) =>
      let '(w, r, tr) :=
        execute_labeled (random env (length (snd wt))) (retry_policy env) op (fst wt) in
      ((w, snd wt ++ [tr]), r) in
    let '((b, (w, trs)), result) :=
      call_classified (breaker_config env) is_failure clk request
        (circuit_breaker s, (inner s, retries s)) in
    (mkResilient w b (n + 3) trs (outcomes s ++ [(operation, is_ok result)]),
     map_err map_cb_err result).

(** Requests handed to the inner store as they are. *)
Definition delegated {A} (op : M W StoreError A) : M (Resilient env W) StoreError A :=
  fun s => let '(w, r) := op (inner s) in
           (mkResilient w (circuit_breaker s) (readings s) (retries s) (outcomes s), r).

Definition put (p d : str) := guarded "put" (fun _ => true) (os_put p d).

Definition get (p : str) := guarded "get" (fun e => negb (is_not_found e)) (os_get p).

Definition head (p : str) := guarded "head" (fun e => negb (is_not_found e)) (os_head p).

Definition delete (p : str) := guarded "delete" (fun _ => true) (os_delete p).

Definition list_with_delimiter (pre : option str) :=
  guarded "list" (fun _ => true) (os_list_with_delimiter pre).

#[global] Instance resilient_store : ObjectStore (Resilient env W) := {
  os_put := put;
  os_get := get;
  os_head := head;
  os_delete := delete;
  os_list pre := delegated (os_list pre);
  os_list_with_delimiter := list_with_delimiter;
  os_put_multipart p := delegated (os_put_multipart p);
  os_put_part u i d := delegated (os_put_part u i d);
  os_complete u := delegated (os_complete u);
  os_abort u := delegated (os_abort u)
}.

(** ** What a guarded request does *)

Lemma guarded_inv {A} (label : str) (isf : StoreError -> bool) (op : M W StoreError A) s s' r :
  guarded label isf op s = (s', r) ->
  (inner s' = inner s /\ exists st e, r = Err (Generic st e)) \/
  exists n, inner s' = state_before op (S n) (inner s) /\
    r = attempt_result op n (inner s) /\
    forall k, (k < n)%nat -> is_ok (attempt_result op k (inner s)) = false.
Proof.
  unfold guarded, call_classified.
  destruct (check_allowed _ _ _) as [b a]. destruct a; cbn.
  2: { intros [= <- <-]. left. cbn. split; [done|]. by eexists _, _. }
  unfold execute_labeled.
  pose proof (retry_loop_spec (random env (length (retries s))) (retry_policy env) op
    (max_retries (retry_policy env)) 0 (inner s)) as (n & _ & Hk & _ & Hrun).
  destruct (retry_loop _ _ _ _ _ _) as [[w r0] tr]. destruct Hrun as (-> & -> & _).
  intros [= <- <-]. right. exists n. cbn. split; [done|]. split; [|done].
  by destruct (attempt_result op n (inner s)).
Qed.

Lemma state_before_ind {A} (P : W -> Prop) (op : M W StoreError A) :
  (forall v v' e, P v -> op v = (v', Err e) -> P v') ->
  forall n w, P w -> (forall k, (k < n)%nat -> is_ok (attempt_result op k w) = false) ->
  P (state_before op n w).
Proof.
  intros Hstep n. induction n as [|n IH]; intros w Hw Hk; cbn; [done|].
  destruct (op w) as [w' r] eqn:E. apply IH; cbn.
  - specialize (Hk 0%nat ltac:(lia)). unfold attempt_result in Hk. cbn in Hk. rewrite E in Hk.
    destruct r as [|e]; [done|]. by eapply Hstep.
  - intros k Hlt. specialize (Hk (S k) ltac:(lia)). unfold attempt_result in *. cbn in Hk.
    by rewrite E in Hk.
Qed.

(** The last attempt of a guarded request: it ran from a world that failed
    attempts lead to. *)
Lemma guarded_last {A} (P : W -> Prop) (label : str) (isf : StoreError -> bool) (op : M W StoreError A) s s' r :
  guarded label isf op s = (s', r) ->
  P (inner s) -> (forall v v' e, P v -> op v = (v', Err e) -> P v') ->
  (inner s' = inner s /\ exists st e, r = Err (Generic st e)) \/
  exists w, P w /\ op w = (inner s', r).
Proof.
  intros Hg Hp Hstep. apply guarded_inv in Hg as [Hg|(n & Hi & Hr & Hk)]; [by left|right].
  exists (state_before op n (inner s)). split; [by apply state_before_ind|].
  rewrite Hi, Hr. unfold attempt_result. clear. revert s.
  assert (H : forall w, state_before op (S n) w = fst (op (state_before op n w))).
  { induction n as [|n IH]; intros w; [done|]. cbn in *. by rewrite IH. }
  intros s. rewrite H. by destruct (op _).
Qed.

Context `{!ObjectStoreLaws W}.

Lemma guarded_same {A B} (f : W -> B) (label : str) (isf : StoreError -> bool) (op : M W StoreError A) s :
  (forall w, f (exec op w) = f w) -> f (inner (exec (guarded label isf op) s)) = f (inner s).
Proof.
  intros Hop. unfold exec. destruct (guarded label isf op s) as [s' r] eqn:E. cbn.
  apply (guarded_last (fun w => f w = f (inner s))) in E as [[-> _]|(w & Hw & Ho)]; try done.
  - rewrite <- Hw, <- (Hop w). unfold exec. by rewrite Ho.
  - intros v v' e <- Ho. rewrite <- (Hop v). unfold exec. by rewrite Ho.
Qed.

Lemma delegated_inv {A} (op : M W StoreError A) s s' r :
  delegated op s = (s', r) -> op (inner s) = (inner s', r).
Proof. unfold delegated. destruct (op (inner s)) as [w r0]. by intros [= <- <-]. Qed.

Lemma delegated_same {A B} (f : W -> B) (op : M W StoreError A) s :
  (forall w, f (exec op w) = f w) -> f (inner (exec (delegated op) s)) = f (inner s).
Proof. intros Hop. rewrite <- (Hop (inner s)). unfold exec, delegated. by destruct (op _). Qed.

(** A read that returns did so in a world with the same objects. *)
Lemma guarded_read {A} (label : str) (isf : StoreError -> bool) (op : M W StoreError A) s s' r :
  (forall w, objects (exec op w) = objects w) ->
  guarded label isf op s = (s', r) ->
  (exists st e, r = Err (Generic st e)) \/
  exists w w', objects w = objects (inner s) /\ op w = (w', r).
Proof.
  intros Hop E.
  apply (guarded_last (fun w => objects w = objects (inner s))) in E
    as [(_ & st & e & ->)|(w & Hw & Ho)]; [eauto|eauto|done|].
  intros v v' e <- Ho. rewrite <- (Hop v). unfold exec. by rewrite Ho.
Qed.

(** A retried write leaves the objects as they were or written once. *)
Lemma guarded_write (label : str) (isf : StoreError -> bool) (op : M W StoreError unit) (f : gmap str str -> gmap str str) s s' r :
  (forall m, f (f m) = f m) ->
  (forall w w', op w = (w', Ok tt) -> objects w' = f (objects w)) ->
  (forall w w' e, op w = (w', Err e) -> objects w' = objects w \/ objects w' = f (objects w)) ->
  guarded label isf op s = (s', r) ->
  match r with
  | Ok _ => objects (inner s') = f (objects (inner s))
  | Err _ => objects (inner s') = objects (inner s) \/
             objects (inner s') = f (objects (inner s))
  end.
Proof.
  intros Hf Hok Herr E.
  apply (guarded_last (fun w => objects w = objects (inner s) \/
                                objects w = f (objects (inner s)))) in E
    as [(Hi & st & e & ->)|(w & Hw & Ho)]; [by rewrite Hi; left| |by left|].
  - destruct r as [[]|e].
    + rewrite (Hok _ _ Ho). destruct Hw as [->| ->]; [done|apply Hf].
    + destruct (Herr _ _ _ Ho) as [->| ->]; [done|]. destruct Hw as [->| ->]; [by right|].
      right. apply Hf.
  - intros v v' e Hv Ho. destruct (Herr _ _ _ Ho) as [->| ->]; [done|].
    destruct Hv as [->| ->]; [by right|]. right. apply Hf.
Qed.

(** The wrapper keeps the contract of the store it wraps. *)
#[global] Instance resilient_laws : ObjectStoreLaws (Resilient env W).
Proof.
  refine {| objects s := objects (inner s); uploads s := uploads (inner s) |}; cbn.
  - intros w w' p d E.
    exact (guarded_write _ _ _ _ _ _ _ (fun m => insert_insert_eq m p d d)
      (fun w w' => put_ok w w' p d) (fun w w' e => put_err w w' p d e) E).
  - intros w w' p d e E.
    exact (guarded_write _ _ _ _ _ _ _ (fun m => insert_insert_eq m p d d)
      (fun w w' => put_ok w w' p d) (fun w w' e => put_err w w' p d e) E).
  - intros p d w. apply (guarded_same uploads), put_uploads.
  - intros p w. apply (guarded_same objects), get_same.
  - intros p w. apply (guarded_same uploads), get_uploads.
  - intros w w' p d E. apply guarded_read in E as [(? & ? & [=])|(v & v' & <- & Hv)]; [|apply get_same].
    by eapply get_ok.
  - intros w w' p q E. apply guarded_read in E as [(? & ? & [=])|(v & v' & <- & Hv)]; [|apply get_same].
    by eapply get_not_found.
  - intros p w. apply (guarded_same objects), head_same.
  - intros p w. apply (guarded_same uploads), head_uploads.
  - intros w w' p m E. apply guarded_read in E as [(? & ? & [=])|(v & v' & <- & Hv)]; [|apply head_same].
    by eapply head_ok.
  - intros w w' p q E. apply guarded_read in E as [(? & ? & [=])|(v & v' & <- & Hv)]; [|apply head_same].
    by eapply head_not_found.
  - intros w w' p E.
    exact (guarded_write _ _ _ _ _ _ _ (fun m => delete_delete_eq m p)
      (fun w w' => delete_ok w w' p) (fun w w' e => delete_err w w' p e) E).
  - intros w w' p e E.
    exact (guarded_write _ _ _ _ _ _ _ (fun m => delete_delete_eq m p)
      (fun w w' => delete_ok w w' p) (fun w w' e => delete_err w w' p e) E).
  - intros w w' p q E.
    apply (guarded_last (fun _ => True)) in E as [(_ & ? & ? & [=])|(v & _ & Hv)]; [|done|done].
    by eapply delete_not_found.
  - intros p w. apply (guarded_same uploads), delete_uploads.
  - intros pre w. apply (delegated_same objects), list_same.
  - intros pre w. apply (delegated_same uploads), list_uploads.
  - intros w w' pre ms E%delegated_inv. by eapply list_ok.
  - intros w w' pre ms E%delegated_inv. by eapply list_nodup.
  - intros pre w. apply (guarded_same objects), dirs_same.
  - intros pre w. apply (guarded_same uploads), dirs_uploads.
  - intros w w' pre ds E. apply guarded_read in E as [(? & ? & [=])|(v & v' & <- & Hv)]; [|apply dirs_same].
    by eapply dirs_ok.
  - intros p w. apply (delegated_same objects), multipart_same.
  - intros w w' p u E%delegated_inv. by apply multipart_ok.
  - intros u i d w. apply (delegated_same objects), part_same.
  - intros w w' u i d p parts Hu E%delegated_inv. by eapply part_ok.
  - intros w w' u p parts n data Hu Hn Ha E%delegated_inv. by eapply complete_ok.
  - intros w w' u p parts n data e Hu Hn Ha E%delegated_inv. by eapply complete_err.
  - intros u w. apply (delegated_same objects), abort_same.
Defined.
End resilient.

(** ** Absent objects and the breaker *)

Section absent.
Context {env : Env}.

Lemma retry_loop_const {A} rnd p (op : M Memory StoreError A) e w :
  op w = (w, Err e) -> forall left attempt,
  exists tr, retry_loop rnd p op left attempt w = (w, Err e, tr).
Proof.
  intros Hop left. induction left as [|left IH]; intros attempt; cbn; rewrite Hop; [eauto|].
  destruct (IH (attempt + 1)%nat) as [tr ->]. eauto.
Qed.

(** A request that keeps failing with [e], through a closed breaker. *)
Lemma guarded_const {A} (label : str) (isf : StoreError -> bool) (op : M Memory StoreError A) e
    (s : Resilient env Memory) n :
  op (inner s) = (inner s, Err e) -> state (circuit_breaker s) = Closed n ->
  exists s', guarded label isf op s = (s', Err e) /\ inner s' = inner s /\
    circuit_breaker s' =
      (if isf e then record_failure (breaker_config env) (clock_at env (readings s + 2)) (circuit_breaker s)
       else record_success (breaker_config env) (circuit_breaker s)).
Proof.
  intros Hop Hs. unfold guarded.
  rewrite (call_closed _ _ _ _ _ _ _ Hs). cbn [fst snd]. unfold execute_labeled.
  destruct (retry_loop_const (random env (length (retries s))) (retry_policy env) op e _ Hop
    (max_retries (retry_policy env)) 0) as [tr ->].
  eexists. split; [done|]. cbn. done.
Qed.

Lemma mem_absent {A} (op : M Memory StoreError A) (m : Memory) p :
  faults m = [] -> op m = (m, Err (NotFound p)) -> faulty op m = (m, Err (NotFound p)).
Proof. intros Hf Ho. unfold faulty. by rewrite Hf. Qed.

Lemma absent_delete_step (s : Resilient env Memory) p n :
  faults (inner s) = [] -> mem_objects (inner s) !! p = None ->
  state (circuit_breaker s) = Closed n ->
  inner (exec (delete p) s) = inner s /\
  circuit_breaker (exec (delete p) s) =
    record_failure (breaker_config env) (clock_at env (readings s + 2)) (circuit_breaker s).
Proof.
  intros Hf Hp Hs.
  destruct (guarded_const "delete" (fun _ => true) (os_delete p) (NotFound p) s n)
    as (s' & Hg & Hi & Hb); [|done|].
  - apply mem_absent; [done|]. unfold mem_delete. by rewrite Hp.
  - unfold exec, delete. rewrite Hg. done.
Qed.

Lemma absent_deletes (s : Resilient env Memory) p (n k : nat) :
  faults (inner s) = [] -> mem_objects (inner s) !! p = None ->
  state (circuit_breaker s) = Closed (Z.of_nat n) ->
  Z.of_nat (n + k) < failure_threshold (breaker_config env) ->
  inner (Nat.iter k (exec (delete p)) s) = inner s /\
  state (circuit_breaker (Nat.iter k (exec (delete p)) s)) = Closed (Z.of_nat (n + k)).
Proof.
  intros Hf Hp Hs Hlt. induction k as [|k IH].
  - cbn. by rewrite Nat.add_0_r.
  - destruct IH as [Hi Hc]; [lia|]. rewrite Nat.iter_succ.
    set (t := Nat.iter k (exec (delete p)) s) in *.
    destruct (absent_delete_step t p (Z.of_nat (n + k))) as [Hi' Hb]; [by rewrite Hi..|done|].
    rewrite Hi', Hb. split; [done|]. unfold record_failure. rewrite Hc.
    rewrite (proj2 (Z.leb_gt _ _)) by lia. cbn. f_equal. lia.
Qed.
End absent.

(** ** Properties *)

(** C16: The resilient wrapper is a faithful object store.  If the wrapped
    store keeps the store contract, then through retries and the breaker a
    successful put or delete has happened exactly as asked, a failed one
    happened as asked or not at all (retrying never applies anything else),
    a successful get returns the stored bytes, and a not-found answer is
    given only for an absent object. *)
Theorem resilient_contract {env : Env} {W : Type} `{!ObjectStore W, !ObjectStoreLaws W}
    (s s' : Resilient env W) (p d : str) :
  (forall r, put p d s = (s', r) ->
     match r with
     | Ok _ => objects (inner s') = <[p := d]> (objects (inner s))
     | Err _ => objects (inner s') = objects (inner s) \/
                objects (inner s') = <[p := d]> (objects (inner s))
     end) /\
  (forall r, delete p s = (s', r) ->
     match r with
     | Ok _ => objects (inner s') = base.delete p (objects (inner s))
     | Err _ => objects (inner s') = objects (inner s) \/
                objects (inner s') = base.delete p (objects (inner s))
     end) /\
  (forall r, get p s = (s', r) ->
     objects (inner s') = objects (inner s) /\
     match r with
     | Ok x => objects (inner s) !! p = Some x
     | Err (NotFound _) => objects (inner s) !! p = None
     | Err _ => True
     end).
Proof.
  split_and!; intros r E.
  - destruct r as [[]|e]; [exact (put_ok s s' p d E)|exact (put_err s s' p d e E)].
  - destruct r as [[]|e]; [exact (delete_ok s s' p E)|exact (delete_err s s' p e E)].
  - split.
    + pose proof (get_same p s) as Hs. unfold exec in Hs. cbn in Hs. by rewrite E in Hs.
    + destruct r as [x|[q|q|st e]]; [exact (get_ok s s' p x E)| |done..].
      exact (get_not_found s s' p q E).
Qed.

Definition demo_env : Env :=
  mkEnv (mkRetryPolicy 1 100 5000 false) breaker_config_default (fun _ => 0) (fun _ _ hi => hi).

Lemma resilient_contract_witness :
  let s0 : Resilient demo_env Memory := resilient_new (memory_of ∅ [Late; NoFault]) in
  exists s1, put "a" "x" s0 = (s1, Ok tt) /\ objects (inner s1) = <["a" := "x"]> (objects (inner s0)).
Proof.
  cbv zeta. eexists. split; [apply run_eval; vm_compute; reflexivity|].
  refine (proj1 (resilient_contract _ _ "a" "x") (Ok tt) _). apply run_eval. vm_compute. reflexivity.
Defined.

(** [failure_threshold] deletions of an absent object open the breaker. *)
Lemma absent_deletes_trip_breaker (env : Env) (m : Memory) (p : str)
    (Hf : faults m = []) (Hp : mem_objects m !! p = None)
    (Ht : 1 <= failure_threshold (breaker_config env)) :
  let deletes := Z.to_nat (failure_threshold (breaker_config env)) in
  is_open (circuit_breaker (Nat.iter deletes (exec (delete p)) (resilient_new (env := env) m))) = true.
Proof.
  set (s0 := resilient_new m : Resilient env Memory). cbn zeta.
  destruct (Z.to_nat (failure_threshold (breaker_config env))) as [|k] eqn:Hk; [lia|].
  destruct (absent_deletes s0 p 0 k) as [Hi Hc]; [done..|lia|].
  rewrite Nat.iter_succ.
  destruct (absent_delete_step (Nat.iter k (exec (delete p)) s0) p (Z.of_nat k)) as [_ Hb];
    [by rewrite Hi..|done|].
  rewrite Hb. unfold record_failure. rewrite Hc, (proj2 (Z.leb_le _ _)) by lia. done.
Qed.

(** Reads of absent objects leave a closed breaker closed and reset its
    failure count. *)
Lemma absent_reads_keep_closed (env : Env) (s : Resilient env Memory) (p : str) (n : Z)
    (Hf : faults (inner s) = []) (Hp : mem_objects (inner s) !! p = None)
    (Hs : state (circuit_breaker s) = Closed n) :
  state (circuit_breaker (exec (get p) s)) = Closed 0 /\ eval (get p) s = Err (NotFound p) /\
  state (circuit_breaker (exec (head p) s)) = Closed 0 /\ eval (head p) s = Err (NotFound p).
Proof.
  destruct (guarded_const "get" (fun e => negb (is_not_found e)) (os_get p) (NotFound p) s n)
    as (s1 & Hg & _ & Hb); [apply mem_absent; [done|]; unfold mem_get; by rewrite Hp|done|].
  destruct (guarded_const "head" (fun e => negb (is_not_found e)) (os_head p) (NotFound p) s n)
    as (s2 & Hh & _ & Hb2); [apply mem_absent; [done|]; unfold mem_head; by rewrite Hp|done|].
  unfold exec, eval, get, head. rewrite Hg, Hh. cbn [fst snd]. rewrite Hb, Hb2. cbn.
  unfold record_success. by rewrite Hs.
Qed.

(** How not-found answers count.  Against a healthy store, [get] and
    [head] of an absent object answer not-found and leave a closed breaker
    closed with its failure count reset, as the comment on [is_not_found]
    promises; [delete] counts the same answer as a failure, so
    [failure_threshold] deletions of an absent object open the breaker. *)
Theorem not_found_accounting (env : Env) (m : Memory) (p : str)
    (Hf : faults m = []) (Hp : mem_objects m !! p = None)
    (Ht : 1 <= failure_threshold (breaker_config env)) :
  (forall (s : Resilient env Memory) (n : Z),
     inner s = m -> state (circuit_breaker s) = Closed n ->
     state (circuit_breaker (exec (get p) s)) = Closed 0 /\ eval (get p) s = Err (NotFound p) /\
     state (circuit_breaker (exec (head p) s)) = Closed 0 /\ eval (head p) s = Err (NotFound p)) /\
  let deletes := Z.to_nat (failure_threshold (breaker_config env)) in
  is_open (circuit_breaker (Nat.iter deletes (exec (delete p)) (resilient_new (env := env) m))) = true.
Proof.
  split.
  - intros s n <- Hs. by apply (absent_reads_keep_closed env s p n).
  - by apply absent_deletes_trip_breaker.
Qed.

Lemma not_found_accounting_witness :
  is_open (circuit_breaker
    (Nat.iter 5 (exec (delete "gone")) (resilient_new (env := demo_env) (memory_of ∅ [])))) = true.
Proof.
  apply (not_found_accounting demo_env (memory_of ∅ []) "gone");
    [reflexivity|reflexivity|vm_compute; discriminate].
Defined.
