(* ===== verification/Multipart.v ===== *)
(** * Chunked object writes ([crates/specton-resilience/src/multipart.rs])

    Clamping of the part size, cutting the payload into parts, and the upload
    driven with bounded concurrency: parts complete in an order the runtime
    chooses. *)

From S2P Require Import Prelude Effects Store.

Local Open Scope Z_scope.

Definition DEFAULT_MULTIPART_THRESHOLD : Z := 64 * 1024 * 1024.
Definition DEFAULT_PART_SIZE : Z := 32 * 1024 * 1024.
Definition DEFAULT_PART_CONCURRENCY : Z := 4.
Definition MIN_PART_SIZE : Z := 5 * 1024 * 1024.
Definition MAX_PARTS : Z := 10000.

Record ChunkedPutConfig : Type := mkChunkedPutConfig {
  threshold : Z;
  part_size : Z;
  concurrency : Z
}.

Definition chunked_put_default : ChunkedPutConfig :=
  mkChunkedPutConfig DEFAULT_MULTIPART_THRESHOLD DEFAULT_PART_SIZE DEFAULT_PART_CONCURRENCY.

(** [usize::div_ceil] *)
Definition div_ceil (a b : Z) : Z :=
  let d := a / b in
  let r := a mod b in
  if 0 <? r then d + 1 else d.

Definition sanitized (c : ChunkedPutConfig) (total : Z) : ChunkedPutConfig :=
  let ps := Z.max (part_size c) MIN_PART_SIZE in
  let ps := if MAX_PARTS <? div_ceil total ps then div_ceil total MAX_PARTS else ps in
  mkChunkedPutConfig (Z.max (threshold c) ps) ps (Z.min (Z.max (concurrency c) 1) 16).

Definition len (s : str) : Z := Z.of_nat (length s).

(** [data.slice(offset..end)] *)
Definition slice (data : str) (offset end_ : Z) : str :=
  take (Z.to_nat (end_ - offset)) (drop (Z.to_nat offset) data).

(** The [while offset < total] loop; each iteration advances by at least one
    byte, so [length data] iterations are enough. *)
Fixpoint part_loop (fuel : nat) (ps : Z) (data : str) (offset : Z) : list str :=
  match fuel with
  | O => []
  | S fuel' =>
      if offset <? len data then
        let end_ := Z.min (offset + ps) (len data) in
        slice data offset end_ :: part_loop fuel' ps data end_
      else []
  end.

Definition parts_of (ps : Z) (data : str) : list str := part_loop (length data) ps data 0.

Section put_chunked.
Context {W : Type} `{ObjectStore W}.

(** The parts, driven to completion in the order given. *)
Fixpoint run_parts (u : nat) (ps : list (nat * str)) :
    M W StoreError (list (result unit StoreError)) :=
  match ps with
  | [] => ret []
  | (i, d) :: ps' =>
      let! r := attempt (os_put_part u i d) in
      let! rs := run_parts u ps' in
      ret (r :: rs)
  end.

(** [collect::<Result<Vec<()>>>]: the first error, if any. *)
Fixpoint first_err (rs : list (result unit StoreError)) : result unit StoreError :=
  match rs with
  | [] => Ok tt
  | Ok _ :: rs' => first_err rs'
  | Err e :: _ => Err e
  end.

Definition abort_quietly (u : nat) : M W StoreError unit :=
  let! _ := attempt (F := StoreError) (os_abort u) in ret tt.

(** [order n] is the order in which [buffer_unordered] yields the [n] parts. *)
Definition put_chunked (order : nat -> list nat) (location data : str) (config : ChunkedPutConfig) :
    M W StoreError unit :=
  let total := len data in
  let config := sanitized config total in
  if total <=? threshold config then os_put location data
  else
    let! u := os_put_multipart location in
    let parts := parts_of (part_size config) data in
    let! outcomes := run_parts u (map (fun i => (i, nth i parts [])) (order (length parts))) in
    match first_err outcomes with
    | Err e => do! abort_quietly u in throw e
    | Ok _ =>
        let! r := attempt (os_complete u) in
        match r with
        | Ok _ => ret tt
        | Err e => do! abort_quietly u in throw e
        end
    end.
End put_chunked.

(** ** The parts are the payload *)

Lemma div_ceil_spec a b : 0 < b -> a <= div_ceil a b * b < a + b.
Proof.
  intros Hb. unfold div_ceil. pose proof (Z.mod_pos_bound a b Hb).
  pose proof (Z.div_mod a b ltac:(lia)). destruct (0 <? a mod b) eqn:E; nia.
Qed.

Lemma div_ceil_unique a b q : 0 < b -> a <= q * b < a + b -> q = div_ceil a b.
Proof. intros Hb Hq. pose proof (div_ceil_spec a b Hb). nia. Qed.

Lemma sanitized_part_size c total :
  0 <= total -> MIN_PART_SIZE <= part_size (sanitized c total) /\
  div_ceil total (part_size (sanitized c total)) <= MAX_PARTS.
Proof.
  intros Ht. unfold sanitized. cbn. unfold MIN_PART_SIZE, MAX_PARTS.
  set (ps := Z.max (part_size c) (5 * 1024 * 1024)).
  assert (Hps : 5 * 1024 * 1024 <= ps) by lia. clearbody ps.
  destruct (10000 <? div_ceil total ps) eqn:E; [|lia]. apply Z.ltb_lt in E.
  pose proof (div_ceil_spec total ps ltac:(lia)) as H1.
  pose proof (div_ceil_spec total 10000 ltac:(lia)) as H2.
  set (q := div_ceil total 10000) in *. clearbody q.
  assert (Hq : ps <= q) by nia.
  pose proof (div_ceil_spec total q ltac:(lia)) as H3. split; [lia|]. nia.
Qed.

Lemma slice_split data off end_ :
  0 <= off <= end_ -> end_ <= len data ->
  drop (Z.to_nat off) data = slice data off end_ ++ drop (Z.to_nat end_) data.
Proof.
  intros H1 H2. unfold slice.
  rewrite <- (take_drop (Z.to_nat (end_ - off)) (drop (Z.to_nat off) data)) at 1.
  rewrite drop_drop. do 2 f_equal. lia.
Qed.

Lemma part_loop_concat fuel ps data off :
  0 < ps -> 0 <= off <= len data -> len data - off <= Z.of_nat fuel ->
  concat (part_loop fuel ps data off) = drop (Z.to_nat off) data.
Proof.
  revert off. induction fuel as [|fuel IH]; intros off Hps Hoff Hf; cbn.
  - rewrite drop_ge; [done|]. unfold len in *. lia.
  - destruct (off <? len data) eqn:E; [|rewrite drop_ge; [done|unfold len in *; lia]].
    cbn. rewrite IH by lia. symmetry. apply slice_split; lia.
Qed.

Lemma len_slice data off end_ : 0 <= off <= end_ -> end_ <= len data -> len (slice data off end_) = end_ - off.
Proof. intros H1 H2. unfold slice, len in *. rewrite length_take, length_drop. lia. Qed.

Lemma part_loop_sizes fuel ps data off :
  0 < ps -> 0 <= off <= len data ->
  Forall (fun d => 0 < len d <= ps) (part_loop fuel ps data off).
Proof.
  revert off. induction fuel as [|fuel IH]; intros off Hps Hoff; cbn; [constructor|].
  destruct (off <? len data) eqn:E; [|constructor].
  constructor; [rewrite len_slice; lia|apply IH; lia].
Qed.

Lemma part_loop_length fuel ps data off :
  0 < ps -> 0 <= off <= len data -> len data - off <= Z.of_nat fuel ->
  Z.of_nat (length (part_loop fuel ps data off)) = div_ceil (len data - off) ps.
Proof.
  revert off. induction fuel as [|fuel IH]; intros off Hps Hoff Hf; cbn [part_loop].
  - replace (len data - off) with 0 by lia. unfold div_ceil. by rewrite Z.mod_0_l, Z.div_0_l by lia.
  - destruct (off <? len data) eqn:E.
    2: { replace (len data - off) with 0 by lia. unfold div_ceil. by rewrite Z.mod_0_l, Z.div_0_l by lia. }
    cbn [length]. rewrite Nat2Z.inj_succ, IH by lia. apply Z.ltb_lt in E.
    apply div_ceil_unique; [done|].
    pose proof (div_ceil_spec (len data - Z.min (off + ps) (len data)) ps Hps) as Hc.
    destruct (Z.min_spec (off + ps) (len data)) as [[? Hm]|[? Hm]]; rewrite Hm in *; [lia|].
    rewrite Z.sub_diag. change (div_ceil 0 ps) with (if 0 <? 0 mod ps then 0 / ps + 1 else 0 / ps).
    rewrite Z.mod_0_l, Z.div_0_l by lia. cbn. lia.
Qed.

Lemma parts_of_concat ps data : 0 < ps -> concat (parts_of ps data) = data.
Proof.
  intros Hps. unfold parts_of. rewrite part_loop_concat; [done|done|unfold len; lia..].
Qed.

(** ** The upload *)

Lemma assemble_lookup (m : gmap nat str) (l : list str) i :
  (forall j d, l !! j = Some d -> m !! (i + j)%nat = Some d) ->
  assemble m i (length l) = Some (concat l).
Proof.
  revert i. induction l as [|d l IH]; intros i Hm; cbn; [done|].
  rewrite <- (Nat.add_0_r i) at 1. rewrite (Hm 0%nat d eq_refl).
  rewrite IH; [done|]. intros j e Hj. specialize (Hm (S j) e Hj).
  by rewrite Nat.add_succ_r in Hm.
Qed.

(** The parts uploaded so far: those of [idxs]. *)
Definition add_parts (parts : list str) (idxs : list nat) (m : gmap nat str) : gmap nat str :=
  foldl (fun m i => <[i := nth i parts []]> m) m idxs.

Definition uploaded (parts : list str) (idxs : list nat) : gmap nat str := add_parts parts idxs ∅.

Lemma uploaded_lookup parts idxs m i :
  add_parts parts idxs m !! i =
  if decide (i ∈ idxs) then Some (nth i parts []) else m !! i.
Proof.
  revert m. induction idxs as [|j idxs IH]; intros m.
  - cbn. by rewrite decide_False by set_solver.
  - change (add_parts parts (j :: idxs) m) with (add_parts parts idxs (<[j := nth j parts []]> m)).
    rewrite IH. destruct (decide (i ∈ idxs)); [by rewrite decide_True by set_solver|].
    destruct (decide (i = j)) as [->|Hne].
    + rewrite lookup_insert_eq, decide_True by set_solver. done.
    + rewrite lookup_insert_ne by done. by rewrite decide_False by set_solver.
Qed.

Lemma uploaded_all parts idxs :
  Permutation idxs (seq 0 (length parts)) ->
  base.size (uploaded parts idxs) = length parts /\
  assemble (uploaded parts idxs) 0 (length parts) = Some (concat parts).
Proof.
  intros Hperm. split.
  - rewrite <- size_dom. replace (dom (uploaded parts idxs)) with (list_to_set idxs : gset nat).
    + rewrite size_list_to_set; [by rewrite Hperm, length_seq|]. rewrite Hperm. apply NoDup_seq.
    + apply leibniz_equiv. intros i. rewrite elem_of_dom, elem_of_list_to_set.
      unfold uploaded. rewrite uploaded_lookup. destruct (decide _); [by split; eauto|].
      rewrite lookup_empty. split; [done|]. by intros [].
  - apply assemble_lookup. intros j d Hj. cbn. unfold uploaded. rewrite uploaded_lookup.
    rewrite decide_True; [f_equal; by apply nth_lookup_Some with (d := [])|].
    rewrite Hperm, elem_of_seq. apply lookup_lt_Some in Hj. lia.
Qed.

Section upload.
Context {W : Type} `{ObjectStoreLaws W}.

Lemma run_parts_objects u parts idxs w w' r :
  run_parts u (map (fun i => (i, nth i parts [])) idxs) w = (w', r) ->
  objects w' = objects w /\ exists outs, r = Ok outs.
Proof.
  revert w w' r. induction idxs as [|j idxs IH]; intros w w' r; cbn; [intros [= <- <-]; eauto|].
  unfold bind, attempt. pose proof (part_same u j (nth j parts []) w) as Hs. unfold exec in Hs.
  destruct (os_put_part u j (nth j parts []) w) as [w3 r3]. cbn in Hs.
  destruct (run_parts _ _ w3) as [w4 r4] eqn:E4.
  destruct (IH _ _ _ E4) as (Ho & outs & ->). intros [= <- <-]. rewrite Ho. eauto.
Qed.

Lemma run_parts_spec u p parts idxs done_ w w' rs :
  uploads w !! u = Some (p, uploaded parts done_) ->
  run_parts u (map (fun i => (i, nth i parts [])) idxs) w = (w', rs) ->
  objects w' = objects w /\
  exists outs, rs = Ok outs /\
    (first_err outs = Ok tt -> uploads w' !! u = Some (p, uploaded parts (done_ ++ idxs))).
Proof.
  revert done_ w w' rs. induction idxs as [|i idxs IH]; intros done_ w w' rs Hu; cbn.
  - intros [= <- <-]. split; [done|]. eexists. split; [done|]. intros _. by rewrite app_nil_r.
  - unfold bind, attempt. pose proof (part_same u i (nth i parts []) w) as Hs. unfold exec in Hs.
    destruct (os_put_part u i (nth i parts []) w) as [w1 r] eqn:E. cbn in Hs.
    destruct (run_parts _ _ w1) as [w2 r2] eqn:E2. destruct r as [[]|e].
    + pose proof (part_ok _ _ _ _ _ _ _ Hu E) as Hu1.
      edestruct (IH (done_ ++ [i]) w1 w2) as (Ho & outs & -> & Hf); [|exact E2|].
      { unfold uploaded, add_parts. rewrite foldl_app. exact Hu1. }
      intros [= <- <-]. split; [by rewrite Ho|]. eexists. split; [done|]. cbn.
      intros Hok. rewrite (Hf Hok), <- app_assoc. done.
    +      pose proof (run_parts_objects u parts idxs w1 w2 r2 E2) as Hrun.
      destruct Hrun as (Ho & outs & ->). intros [= <- <-]. split; [by rewrite Ho|].
      eexists. split; [done|]. by cbn.
Qed.

Lemma abort_quietly_same u w : objects (exec (abort_quietly u) w) = objects w.
Proof.
  unfold abort_quietly, exec, bind, attempt. pose proof (abort_same u w) as Hs. unfold exec in Hs.
  by destruct (os_abort u w).
Qed.

Lemma abort_throw u e w w' (r : result unit StoreError) :
  (do! abort_quietly u in throw e) w = (w', r) -> r = Err e /\ objects w' = objects w.
Proof.
  pose proof (abort_quietly_same u w) as Hs. unfold exec in Hs. unfold bind.
  destruct (abort_quietly u w) as [w1 r1] eqn:E. destruct r1.
  - by intros [= <- <-].
  - unfold abort_quietly, bind, attempt in E. by destruct (os_abort u w).
Qed.

Lemma put_chunked_spec order p data cfg w w' r :
  (forall n, Permutation (order n) (seq 0 n)) ->
  put_chunked order p data cfg w = (w', r) ->
  match r with
  | Ok _ => objects w' = <[p := data]> (objects w)
  | Err _ => objects w' = objects w \/ objects w' = <[p := data]> (objects w)
  end.
Proof.
  intros Hperm. unfold put_chunked. cbv zeta. set (c := sanitized cfg (len data)).
  assert (Hps : 0 < part_size c).
  { pose proof (sanitized_part_size cfg (len data) ltac:(unfold len; lia)) as [Hmin _].
    unfold MIN_PART_SIZE in Hmin. fold c in Hmin. lia. }
  destruct (len data <=? threshold c).
  { intros E. destruct r as [[]|e]; [by apply put_ok|by eapply put_err]. }
  unfold bind at 1. pose proof (multipart_same p w) as Hs. unfold exec in Hs.
  destruct (os_put_multipart p w) as [w1 [u|e]] eqn:E1; cbn in Hs.
  2: { intros [= <- <-]. by left. }
  pose proof (multipart_ok _ _ _ _ E1) as Hu.
  set (parts := parts_of (part_size c) data) in *. unfold bind at 1.
  destruct (run_parts u _ w1) as [w2 r2] eqn:E2.
  eapply (run_parts_spec u p parts (order (length parts)) []) in E2 as (Ho & outs & -> & Hall);
    [|rewrite Hu; by simplify_map_eq].
  destruct (first_err outs) as [[]|e].
  2: { intros [-> Ha]%abort_throw. left. congruence. }
  specialize (Hall eq_refl). cbn in Hall.
  destruct (uploaded_all parts (order (length parts)) (Hperm _)) as [Hsz Has].
  replace (concat parts) with data in Has by (symmetry; by apply parts_of_concat).
  unfold bind at 1, attempt. destruct (os_complete u w2) as [w3 [[]|e]] eqn:E3.
  - intros [= <- <-]. rewrite (complete_ok _ _ _ _ _ _ _ Hall Hsz Has E3). congruence.
  - pose proof (complete_err _ _ _ _ _ _ _ _ Hall Hsz Has E3) as Hc.
    intros [-> Ha]%abort_throw. rewrite Ha. destruct Hc as [->| ->]; [left|right]; congruence.
Qed.
End upload.

(** ** Properties *)

(** C17: A chunked write is an atomic put.  Whatever order the parts complete
    in and whatever fails, a write that returns [Ok] has stored exactly the
    payload at the location, one that returns an error stored the payload or
    nothing, and no other object changes; this over any store that keeps the
    contract. *)
Theorem put_chunked_atomic {W : Type} `{!ObjectStore W, !ObjectStoreLaws W}
    (order : nat -> list nat) (p data : str) (cfg : ChunkedPutConfig) (w w' : W)
    (r : result unit StoreError)
    (Hperm : forall n, Permutation (order n) (seq 0 n))
    (Hrun : put_chunked order p data cfg w = (w', r)) :
  match r with
  | Ok _ => objects w' = <[p := data]> (objects w)
  | Err _ => objects w' = objects w \/ objects w' = <[p := data]> (objects w)
  end.
Proof. by eapply put_chunked_spec. Qed.

Lemma put_chunked_atomic_witness :
  exists w', put_chunked (seq 0) "p" "hello" chunked_put_default (memory_of ∅ []) = (w', Ok tt) /\
    objects w' = <["p" := "hello"]> ∅.
Proof.
  eexists. split; [apply run_eval; vm_compute; reflexivity|].
  refine (put_chunked_atomic (seq 0) "p" "hello" chunked_put_default (memory_of ∅ []) _ (Ok tt) _ _);
    [reflexivity|apply run_eval; vm_compute; reflexivity].
Defined.

(** Sizes of a multipart upload.  Whatever the operator configured, the
    effective part size is at least the 5 MiB floor, the parts concatenate to
    the payload, each is non-empty and at most the part size, there are
    [ceil(total / part_size)] of them and never more than 10,000, and the
    offset arithmetic of the loop stays below [2 * total]. *)
Theorem multipart_sizes (cfg : ChunkedPutConfig) (data : str) :
  let c := sanitized cfg (len data) in
  let parts := parts_of (part_size c) data in
  MIN_PART_SIZE <= part_size c <= threshold c /\
  1 <= concurrency c <= 16 /\
  concat parts = data /\
  Forall (fun d => 0 < len d <= part_size c) parts /\
  Z.of_nat (length parts) = div_ceil (len data) (part_size c) /\
  Z.of_nat (length parts) <= MAX_PARTS /\
  (threshold c < len data ->
   forall offset, 0 <= offset < len data -> offset + part_size c < 2 * len data).
Proof.
  cbv zeta. assert (Hlen : 0 <= len data) by (unfold len; lia).
  destruct (sanitized_part_size cfg (len data) Hlen) as [Hmin Hmax].
  assert (Hps : 0 < part_size (sanitized cfg (len data))) by (unfold MIN_PART_SIZE in *; lia).
  assert (Hth : part_size (sanitized cfg (len data)) <= threshold (sanitized cfg (len data)))
    by (unfold sanitized; cbn; lia).
  assert (Hn : Z.of_nat (length (parts_of (part_size (sanitized cfg (len data))) data)) =
               div_ceil (len data) (part_size (sanitized cfg (len data)))).
  { unfold parts_of. rewrite part_loop_length; [by rewrite Z.sub_0_r|done|lia|unfold len; lia]. }
  split_and!; try done.
  - unfold sanitized. cbn. lia.
  - unfold sanitized. cbn. lia.
  - by apply parts_of_concat.
  - apply part_loop_sizes; [done|lia].
  - by rewrite Hn.
  - intros. lia.
Qed.
