(* ===== verification/Paths.v ===== *)
(** * Storage layout ([crates/specton-common/src/storage.rs])

    The object paths of blobs, manifests, tag links and uploads, and the
    contract of [object_store]'s path normalisation the code applies to them. *)

From S2P Require Import Prelude.

(** [sha256:<hex>]; the hash is [sha2]'s. *)
Definition sha256_digest (sha256_hex : str -> str) (data : str) : str := "sha256:" ++ sha256_hex data.

Definition blob_path (tenant project repo digest : str) : str :=
  let hex := match strip_prefix "sha256:" digest with
             | Some h => h
             | None => digest
             end in
  tenant ++ "/" ++ project ++ "/" ++ repo ++ "/blobs/sha256/" ++ hex.

Definition manifest_path (tenant project repo reference : str) : str :=
  tenant ++ "/" ++ project ++ "/" ++ repo ++ "/manifests/" ++ reference.

Definition tag_link_path (tenant project repo tag : str) : str :=
  tenant ++ "/" ++ project ++ "/" ++ repo ++ "/tags/" ++ tag.

Definition tags_prefix (tenant project repo : str) : str :=
  tenant ++ "/" ++ project ++ "/" ++ repo ++ "/tags/".

Definition upload_path (tenant project repo upload_id : str) : str :=
  tenant ++ "/" ++ project ++ "/" ++ repo ++ "/uploads/" ++ upload_id.

(** ** [StorePath::from]

    The crate documents a path as a sequence of non-empty segments separated
    by [/]: leading, trailing and doubled separators are dropped, each segment
    is encoded on its own, and a segment of letters, digits, [-], [_], [:] and
    [.] other than [.] and [..] is kept as it is. *)

Definition safe_char (c : ascii) : bool :=
  is_ascii_digit c || is_ascii_lowercase c || is_ascii_uppercase c
  || byte_is 45 c || byte_is 46 c || byte_is 58 c || byte_is 95 c.

Definition safe_segment (s : str) : bool :=
  match s with
  | [] => false
  | _ => forallb safe_char s && negb (str_eqb s ".") && negb (str_eqb s "..")
  end.

(** Two normalised paths, one after the other. *)
Definition slash (a b : str) : str :=
  match a, b with
  | [], _ => b
  | _, [] => a
  | _, _ => a ++ "/" ++ b
  end.

Class PathNormal (store_path : str -> str) : Prop := {
  store_path_nil : store_path [] = [];
  store_path_app a b : store_path (a ++ "/" ++ b) = slash (store_path a) (store_path b);
  store_path_safe s : safe_segment s = true -> store_path s = s
}.

(** ** An instance: every byte outside the safe set is percent-encoded *)

Fixpoint split_slash (s cur : str) : list str :=
  match s with
  | [] => [cur]
  | c :: s' => if byte_is 47 c then cur :: split_slash s' [] else split_slash s' (cur ++ [c])
  end.

Definition hex_digit (n : Z) : ascii :=
  ascii_of_N (Z.to_N (if (n <? 10)%Z then n + 48 else n + 55)).

Definition encode_char (c : ascii) : str :=
  if safe_char c then [c]
  else ["%"%char; hex_digit (byte_val c / 16); hex_digit (byte_val c mod 16)].

Definition encode_segment (s : str) : str :=
  if str_eqb s "." then "%2E"
  else if str_eqb s ".." then "%2E%2E"
  else concat (map encode_char s).

Fixpoint join (segs : list str) : str :=
  match segs with
  | [] => []
  | s :: segs' => slash s (join segs')
  end.

Definition normal_path (p : str) : str :=
  join (map encode_segment (filter (fun s => non_empty s = true) (split_slash p []))).

Lemma split_slash_app a b cur :
  split_slash (a ++ "/" ++ b) cur = split_slash a cur ++ split_slash b [].
Proof.
  revert cur. induction a as [|c a IH]; intros cur; cbn; [done|].
  destruct (byte_is 47 c); cbn; [by rewrite IH|apply IH].
Qed.

Lemma slash_nil_r a : slash a [] = a.
Proof. by destruct a. Qed.

Lemma slash_cons a c b : a <> [] -> slash a (c :: b) = a ++ "/" ++ c :: b.
Proof. by destruct a. Qed.

Lemma slash_assoc a b c : slash (slash a b) c = slash a (slash b c).
Proof. destruct a, b, c; cbn; rewrite ?app_nil_r, <- ?app_assoc; done. Qed.

Lemma join_app l1 l2 : join (l1 ++ l2) = slash (join l1) (join l2).
Proof. induction l1 as [|s l1 IH]; cbn; [done|]. by rewrite IH, slash_assoc. Qed.

Lemma split_slash_safe s cur : forallb safe_char s = true -> split_slash s cur = [cur ++ s].
Proof.
  revert cur. induction s as [|c s IH]; intros cur; cbn [split_slash forallb].
  - by rewrite app_nil_r.
  - rewrite andb_true_iff. intros [Hc Hs]. replace (byte_is 47 c) with false.
    + rewrite IH, <- app_assoc by done. done.
    + symmetry. revert Hc. unfold safe_char, is_ascii_digit, is_ascii_lowercase,
        is_ascii_uppercase, byte_in, byte_is. destruct (Z.eqb_spec (byte_val c) 47) as [->|]; done.
Qed.

Lemma encode_safe s : forallb safe_char s = true -> concat (map encode_char s) = s.
Proof.
  induction s as [|c s IH]; cbn [forallb map concat]; [done|]. rewrite andb_true_iff.
  intros [Hc Hs]. unfold encode_char at 1. rewrite Hc. cbn. by rewrite IH.
Qed.

#[global] Instance normal_path_normal : PathNormal normal_path.
Proof.
  split; [done| |].
  - intros a b. unfold normal_path. rewrite split_slash_app, filter_app, map_app. apply join_app.
  - intros [|c s]; [done|]. unfold safe_segment. rewrite !andb_true_iff, !negb_true_iff.
    intros [[Hs H1] H2]. unfold normal_path. rewrite split_slash_safe by done.
    change (map encode_segment _) with [encode_segment (c :: s)].
    cbn [join]. unfold encode_segment. rewrite H1, H2, encode_safe by done. done.
Qed.

(** ** Paths of one repository *)

Definition repo_path (tenant project repo : str) : str := tenant ++ "/" ++ project ++ "/" ++ repo.

(** [p] is the directory [dir] or lies below it. *)
Definition below (dir p : str) : Prop := exists rest, p = slash dir rest.

Section below.
Context (store_path : str -> str) `{!PathNormal store_path}.

Lemma below_app a b : below (store_path a) (store_path (a ++ "/" ++ b)).
Proof. rewrite store_path_app. by eexists. Qed.

Lemma below_repo_kind t p r kind_ rest :
  below (store_path (repo_path t p r)) (store_path (t ++ "/" ++ p ++ "/" ++ r ++ "/" ++ kind_ ++ rest)).
Proof.
  replace (t ++ "/" ++ p ++ "/" ++ r ++ "/" ++ kind_ ++ rest)
    with (repo_path t p r ++ "/" ++ (kind_ ++ rest)) by (unfold repo_path; by rewrite <- !app_assoc).
  apply below_app.
Qed.

Lemma below_blob t p r d : below (store_path (repo_path t p r)) (store_path (blob_path t p r d)).
Proof. apply (below_repo_kind t p r "blobs/sha256/"). Qed.

Lemma below_manifest t p r d : below (store_path (repo_path t p r)) (store_path (manifest_path t p r d)).
Proof. apply (below_repo_kind t p r "manifests/"). Qed.

Lemma below_tag t p r d : below (store_path (repo_path t p r)) (store_path (tag_link_path t p r d)).
Proof. apply (below_repo_kind t p r "tags/"). Qed.

Lemma below_upload t p r d : below (store_path (repo_path t p r)) (store_path (upload_path t p r d)).
Proof. apply (below_repo_kind t p r "uploads/"). Qed.
End below.

Create HintDb paths.
#[export] Hint Resolve below_blob below_manifest below_tag below_upload : paths.

(** ** Distinct blobs of safe names have distinct paths *)

Lemma split_slash_segment s rest : forallb safe_char s = true ->
  split_slash (s ++ "/" ++ rest) [] = s :: split_slash rest [].
Proof. intros Hs. by rewrite split_slash_app, split_slash_safe. Qed.

Lemma safe_segment_chars s : safe_segment s = true -> forallb safe_char s = true.
Proof. unfold safe_segment. destruct s; [done|]. rewrite !andb_true_iff. tauto. Qed.

(** Names and digests as a registry client that follows the specification uses them. *)
Definition wf_name (t p r : str) : Prop :=
  safe_segment t = true /\ safe_segment p = true /\ safe_segment r = true.

Definition wf_digest (d : str) : Prop :=
  exists hex, d = "sha256:" ++ hex /\ safe_segment hex = true.

Lemma strip_sha256 hex : strip_prefix "sha256:" ("sha256:" ++ hex) = Some hex.
Proof. done. Qed.

Section distinct.
Context (store_path : str -> str) `{!PathNormal store_path}.

Lemma store_blob_path t p r d : wf_name t p r -> wf_digest d ->
  store_path (blob_path t p r d) = blob_path t p r d.
Proof.
  intros (Ht & Hp & Hr) (hex & -> & Hh). unfold blob_path. rewrite strip_sha256.
  change ("/blobs/sha256/" ++ hex) with ("/" ++ "blobs" ++ "/" ++ "sha256" ++ "/" ++ hex).
  rewrite !(store_path_app (store_path := store_path)).
  assert (Hid : forall s, safe_segment s = true -> store_path s = s) by apply store_path_safe.
  rewrite (Hid t Ht), (Hid p Hp), (Hid r Hr), (Hid hex Hh), (Hid "blobs" eq_refl),
    (Hid "sha256" eq_refl).
  destruct t, p, r, hex; done.
Qed.

Lemma blob_path_inj t p r d t' p' r' d' :
  wf_name t p r -> wf_digest d -> wf_name t' p' r' -> wf_digest d' ->
  store_path (blob_path t p r d) = store_path (blob_path t' p' r' d') ->
  t = t' /\ p = p' /\ r = r' /\ d = d'.
Proof.
  intros Hn Hd Hn' Hd'. rewrite !store_blob_path by done.
  destruct Hn as (Ht & Hp & Hr), Hd as (h & -> & Hh), Hn' as (Ht' & Hp' & Hr'), Hd' as (h' & -> & Hh').
  unfold blob_path. rewrite !strip_sha256. intros Heq.
  change ("/blobs/sha256/" ++ h) with ("/" ++ ("blobs/sha256/" ++ h)) in Heq.
  change ("/blobs/sha256/" ++ h') with ("/" ++ ("blobs/sha256/" ++ h')) in Heq.
  assert (Hs := f_equal (fun s => split_slash s []) Heq). cbn beta in Hs.
  rewrite !split_slash_segment in Hs by (by apply safe_segment_chars).
  injection Hs as -> -> -> Hs. split_and!; [done..|].
  rewrite !split_slash_safe in Hs by (by apply safe_segment_chars). by injection Hs as ->.
Qed.

(** Every path of a repository is [<repo>/<kind>/<rest>]. *)
Definition object_path (t p r kind rest : str) : str :=
  t ++ "/" ++ p ++ "/" ++ r ++ "/" ++ kind ++ "/" ++ rest.

Lemma store_object_path t p r kind rest : wf_name t p r -> safe_segment kind = true ->
  store_path (object_path t p r kind rest)
  = t ++ "/" ++ p ++ "/" ++ r ++ "/" ++ slash kind (store_path rest).
Proof.
  intros (Ht & Hp & Hr) Hk. unfold object_path. rewrite !(store_path_app (store_path := store_path)).
  assert (Hid : forall s, safe_segment s = true -> store_path s = s) by apply store_path_safe.
  rewrite (Hid t Ht), (Hid p Hp), (Hid r Hr), (Hid kind Hk).
  destruct t, p, r, kind; [done..|]. by destruct (store_path rest).
Qed.

Lemma slash_inj k k' a b :
  safe_segment k = true -> safe_segment k' = true -> slash k a = slash k' b -> k = k' /\ a = b.
Proof.
  intros Hk Hk' He. assert (Hs := f_equal (fun s => split_slash s []) He). cbn beta in Hs.
  assert (Hc : forall k x, safe_segment k = true -> split_slash (slash k x) [] =
                 k :: match x with [] => [] | _ => split_slash x [] end).
  { clear. intros k x Hk. pose proof (safe_segment_chars k Hk) as Hs. destruct k as [|c k]; [done|].
    destruct x as [|d x]; [by apply split_slash_safe|]. by apply split_slash_segment. }
  rewrite !Hc in Hs by done. injection Hs as <- Hs. split; [done|].
  assert (Hne : forall x cur, split_slash x cur <> []).
  { clear. induction x as [|c x IH]; intros cur; cbn; [done|]. by destruct (byte_is 47 c). }
  destruct k as [|c k]; [done|]. destruct a as [|x a], b as [|y b]; cbn [slash] in He.
  - done.
  - by destruct (Hne (y :: b) []).
  - by destruct (Hne (x :: a) []).
  - by apply app_inv_head, (app_inv_head "/") in He.
Qed.

Lemma object_path_inj t p r kind rest t' p' r' kind' rest' :
  wf_name t p r -> safe_segment kind = true -> wf_name t' p' r' -> safe_segment kind' = true ->
  store_path (object_path t p r kind rest) = store_path (object_path t' p' r' kind' rest') ->
  (t = t' /\ p = p' /\ r = r') /\ kind = kind' /\ store_path rest = store_path rest'.
Proof.
  intros Hn Hk Hn' Hk'. rewrite !store_object_path by done.
  destruct Hn as (Ht & Hp & Hr), Hn' as (Ht' & Hp' & Hr'). intros Heq.
  assert (Hs := f_equal (fun s => split_slash s []) Heq). cbn beta in Hs.
  rewrite !split_slash_segment in Hs by (by apply safe_segment_chars).
  injection Hs as -> -> -> _. split; [done|].
  apply slash_inj; [done..|]. by repeat first [apply app_inv_head in Heq|apply (app_inv_head "/") in Heq].
Qed.
End distinct.
