(* ===== verification/Gc.v ===== *)
(** * Online garbage collection ([crates/specton-gc])

    Descriptor extraction from manifests, the refcount tables and their
    writer, the reaper that deletes unreferenced blobs from the object store,
    and the reconciler.  The Postgres tables are finite maps and sets keyed as
    the schema keys them; a transaction that fails leaves them unchanged. *)

From S2P Require Import Prelude Json Effects Store Paths.

Local Open Scope Z_scope.

(** ** Manifest parsing ([manifest.rs]) *)

Record BlobDescriptor : Type := mkBlobDescriptor {
  blob_digest : str;
  blob_size : Z
}.

Record RawManifest : Type := mkRawManifest {
  config : option BlobDescriptor;
  layers : list BlobDescriptor;
  manifests : list BlobDescriptor;
  subject : option BlobDescriptor
}.

Definition de_i64 (v : json) : option Z :=
  match v with
  | JInt z => if (- 2 ^ 63 <=? z) && (z <? 2 ^ 63) then Some z else None
  | _ => None
  end.

(** The derived deserializer of a descriptor: [digest] is required, [size]
    defaults to zero; a struct may also be given as a sequence. *)
Definition de_descriptor (v : json) : option BlobDescriptor :=
  match v with
  | JObject fs =>
      match field "digest" fs, field "size" fs with
      | Some (Some (JString d)), Some None => Some (mkBlobDescriptor d 0)
      | Some (Some (JString d)), Some (Some s) => mkBlobDescriptor d <$> de_i64 s
      | _, _ => None
      end
  | JArray [JString d] => Some (mkBlobDescriptor d 0)
  | JArray [JString d; s] => mkBlobDescriptor d <$> de_i64 s
  | _ => None
  end.

Definition de_option_descriptor (v : option json) : option (option BlobDescriptor) :=
  match v with
  | None | Some JNull => Some None
  | Some v => Some <$> de_descriptor v
  end.

Definition de_descriptors (v : option json) : option (list BlobDescriptor) :=
  match v with
  | None => Some []
  | Some (JArray vs) => traverse de_descriptor vs
  | Some _ => None
  end.

Definition de_fields (c l m s : option json) : option RawManifest :=
  match de_option_descriptor c, de_descriptors l, de_descriptors m, de_option_descriptor s with
  | Some c, Some l, Some m, Some s => Some (mkRawManifest c l m s)
  | _, _, _, _ => None
  end.

Definition de_manifest (v : json) : option RawManifest :=
  match v with
  | JObject fs =>
      match field "config" fs, field "layers" fs, field "manifests" fs, field "subject" fs with
      | Some c, Some l, Some m, Some s => de_fields c l m s
      | _, _, _, _ => None
      end
  | JArray vs =>
      if (length vs <=? 4)%nat
      then de_fields (vs !! 0%nat) (vs !! 1%nat) (vs !! 2%nat) (vs !! 3%nat)
      else None
  | _ => None
  end.

Definition is_empty (s : str) : bool :=
  match s with
  | [] => true
  | _ => false
  end.

(** The [push] closure: skip empty and already seen digests. *)
Definition push_descriptor (acc : list BlobDescriptor * gset str) (d : BlobDescriptor) :
    list BlobDescriptor * gset str :=
  let '(out, seen) := acc in
  if is_empty (blob_digest d) then (out, seen)
  else if decide (blob_digest d ∈ seen) then (out, seen)
  else (out ++ [d], {[blob_digest d]} ∪ seen).

Section manifest.
Context (parse_json : str -> option json).

Definition extract_config_digest (bytes : str) : option str :=
  match parse_json bytes with
  | Some v =>
      match de_manifest v with
      | Some raw =>
          match config raw with
          | Some c => if is_empty (blob_digest c) then None else Some (blob_digest c)
          | None => None
          end
      | None => None
      end
  | None => None
  end.

(** [None] is the error of a body that does not deserialize. *)
Definition extract_blob_digests (bytes : str) : option (list BlobDescriptor) :=
  match parse_json bytes with
  | Some v =>
      match de_manifest v with
      | Some raw =>
          let acc := ([], ∅) in
          let acc := match config raw with
                     | Some cfg => push_descriptor acc cfg
                     | None => acc
                     end in
          let acc := foldl push_descriptor acc (layers raw) in
          let acc := foldl push_descriptor acc (manifests raw) in
          Some (fst acc)
      | None => None
      end
  | None => None
  end.
End manifest.

(** ** The tables ([refcount.rs], schema of [0004_online_gc.sql]) *)

Record RefRow : Type := mkRefRow {
  refcount : Z;
  zeroed_at : option Z;
  last_seen_at : Z;
  bytes : Z
}.

Record Drift : Type := mkDrift {
  drift_tenant : str;
  drift_digest : str;
  kind : str;
  expected : Z;
  observed : Z;
  corrected_at : option Z
}.

Record Db : Type := mkDb {
  blob_refcounts : gmap (str * str) RefRow;
  manifest_blob_refs : gset (str * str * str);
  blob_paths : gset (str * str * str * str);
  gc_reaps : list (str * str * Z);
  gc_drift : list Drift
}.

Definition db_empty : Db := mkDb ∅ ∅ ∅ [] [].

Definition set_refcounts (f : gmap (str * str) RefRow -> gmap (str * str) RefRow) (db : Db) : Db :=
  mkDb (f (blob_refcounts db)) (manifest_blob_refs db) (blob_paths db) (gc_reaps db) (gc_drift db).

Definition set_edges (f : gset (str * str * str) -> gset (str * str * str)) (db : Db) : Db :=
  mkDb (blob_refcounts db) (f (manifest_blob_refs db)) (blob_paths db) (gc_reaps db) (gc_drift db).

Definition set_paths (f : gset (str * str * str * str) -> gset (str * str * str * str)) (db : Db) : Db :=
  mkDb (blob_refcounts db) (manifest_blob_refs db) (f (blob_paths db)) (gc_reaps db) (gc_drift db).

(** A statement or commit that the database refuses: the transaction rolls back. *)
Definition transaction (fails : option str) (f : Db -> Db) (db : Db) : Db * result unit str :=
  match fails with
  | Some e => (db, Err e)
  | None => (f db, Ok tt)
  end.

(** The upsert of [blob_refcounts] when an edge is new. *)
Definition bump (now : Z) (size : Z) (row : option RefRow) : option RefRow :=
  match row with
  | None => Some (mkRefRow 1 None now size)
  | Some r => Some (mkRefRow (refcount r + 1) None now (Z.max (bytes r) size))
  end.

Definition add_ref (now : Z) (tenant project repository manifest_digest : str)
    (blob : BlobDescriptor) (db : Db) : Db :=
  let db := set_paths (union {[(tenant, project, repository, blob_digest blob)]}) db in
  let edge := (tenant, manifest_digest, blob_digest blob) in
  if decide (edge ∈ manifest_blob_refs db) then db
  else
    set_refcounts (partial_alter (bump now (blob_size blob)) (tenant, blob_digest blob))
      (set_edges (union {[edge]}) db).

Definition add_refs (fails : option str) (now : Z)
    (tenant project repository manifest_digest : str) (blobs : list BlobDescriptor) (db : Db) :
    Db * result unit str :=
  match blobs with
  | [] => (db, Ok tt)
  | _ =>
      transaction fails
        (fun db => foldl (fun db b => add_ref now tenant project repository manifest_digest b db)
                     db blobs) db
  end.

(** The guarded decrement of one blob. *)
Definition decrement (now : Z) (row : option RefRow) : option RefRow :=
  match row with
  | Some r =>
      if 0 <? refcount r
      then Some (mkRefRow (refcount r - 1)
                   (if refcount r - 1 =? 0 then Some now else zeroed_at r) now (bytes r))
      else Some r
  | None => None
  end.

Definition edges_of (tenant manifest_digest : str) (db : Db) : gset (str * str * str) :=
  filter (fun e => e.1 = (tenant, manifest_digest)) (manifest_blob_refs db).

Definition remove_refs (fails : option str) (now : Z) (tenant manifest_digest : str) (db : Db) :
    Db * result unit str :=
  transaction fails
    (fun db =>
       let rows := edges_of tenant manifest_digest db in
       foldl (fun db e => set_refcounts (partial_alter (decrement now) (tenant, e.2)) db)
         (set_edges (fun es => es ∖ rows) db) (elements rows)) db.

(** ** The reaper ([reaper.rs]) *)

Record ReaperConfig : Type := mkReaperConfig {
  grace_secs : Z;
  batch_size : nat
}.

Record CycleResult : Type := mkCycleResult {
  cycle_blobs : Z;
  cycle_bytes : Z;
  cycle_errors : Z
}.

(** The database and the object store the reaper works on. *)
Record Gc (W : Type) : Type := mkGc {
  db : Db;
  os : W
}.
Arguments mkGc {W}.
Arguments db {W}.
Arguments os {W}.

(** The rows of the eligible CTE: zero for longer than the grace period,
    oldest first, at most a batch. Instants are seconds. *)
Definition eligible (cfg : ReaperConfig) (now : Z) (kv : (str * str) * RefRow) : bool :=
  (refcount kv.2 =? 0) &&
  match zeroed_at kv.2 with
  | Some z => z <? now - grace_secs cfg
  | None => false
  end.

Definition zeroed_le (a b : (str * str) * RefRow) : Prop :=
  default 0 (zeroed_at a.2) <= default 0 (zeroed_at b.2).

#[global] Instance zeroed_le_dec : RelDecision zeroed_le.
Proof. intros a b. unfold zeroed_le. apply _. Defined.

Definition candidates (cfg : ReaperConfig) (now : Z) (d : Db) : list ((str * str) * RefRow) :=
  take (batch_size cfg)
    (merge_sort zeroed_le
       (filter (fun kv => eligible cfg now kv = true) (map_to_list (blob_refcounts d)))).

Section reaper.
Context {W : Type} `{ObjectStore W} (store_path : str -> str).

(** Deleting the storage objects: an absent one is skipped, any other
    failure ends the row. *)
Fixpoint delete_objects (digest : str) (rows : list (str * str * str * str)) : M W str unit :=
  match rows with
  | [] => ret tt
  | (t, p, r, _) :: rows' =>
      let! res := attempt (os_delete (store_path (blob_path t p r digest))) in
      match res with
      | Ok _ | Err (NotFound _) => delete_objects digest rows'
      | Err (AlreadyExists _) | Err (Generic _ _) => throw "storage delete failed"
      end
  end.

Definition paths_of (tenant digest : str) (d : Db) : gset (str * str * str * str) :=
  filter (fun x => x.1.1.1 = tenant /\ x.2 = digest) (blob_paths d).

Definition drop_rows (tenant digest : str) (freed : Z) (d : Db) : Db :=
  mkDb (delete (tenant, digest) (blob_refcounts d)) (manifest_blob_refs d)
    (blob_paths d ∖ paths_of tenant digest d) (gc_reaps d ++ [(tenant, digest, freed)]) (gc_drift d).

(** [read_fails] is a database failure before the storage deletes,
    [commit_fails] one after them. *)
Definition reap_blob (read_fails commit_fails : option str) (tenant digest : str) (freed : Z) :
    M (Gc W) str bool :=
  fun g =>
    match read_fails with
    | Some e => (g, Err e)
    | None =>
        match blob_refcounts (db g) !! (tenant, digest) with
        | Some row =>
            if refcount row =? 0 then
              match delete_objects digest (elements (paths_of tenant digest (db g))) (os g) with
              | (w, Err e) => (mkGc (db g) w, Err e)
              | (w, Ok _) =>
                  let '(d, r) := transaction commit_fails (drop_rows tenant digest freed) (db g) in
                  (mkGc d w, match r with
                             | Ok _ => Ok true
                             | Err e => Err e
                             end)
              end
            else (g, Ok false)
        | None => (g, Ok false)
        end
    end.

(** The loop over a batch: other tasks may change the tables and the store
    before each row ([others]), and an operator may pause or stop the reaper
    ([halted]). *)
Fixpoint reap_batch (halted : nat -> bool) (others : nat -> Gc W -> Gc W)
    (faults : nat -> option str * option str) (i : nat)
    (rows : list ((str * str) * RefRow)) (acc : CycleResult) (g : Gc W) : Gc W * CycleResult :=
  match rows with
  | [] => (g, acc)
  | ((tenant, digest), row) :: rows' =>
      let g := others i g in
      if halted i then (g, acc)
      else
        let '(g, r) := reap_blob (fst (faults i)) (snd (faults i)) tenant digest (bytes row) g in
        let acc := match r with
                   | Ok true => mkCycleResult (cycle_blobs acc + 1) (cycle_bytes acc + bytes row)
                                  (cycle_errors acc)
                   | Ok false => acc
                   | Err _ => mkCycleResult (cycle_blobs acc) (cycle_bytes acc) (cycle_errors acc + 1)
                   end in
        reap_batch halted others faults (S i) rows' acc g
  end.

Definition reap_one_cycle (cfg : ReaperConfig) (now : Z) (select_fails : option str)
    (halted : nat -> bool) (others : nat -> Gc W -> Gc W) (faults : nat -> option str * option str) :
    M (Gc W) str CycleResult :=
  fun g =>
    match select_fails with
    | Some e => (g, Err e)
    | None =>
        let '(g, res) := reap_batch halted others faults 0 (candidates cfg now (db g))
                           (mkCycleResult 0 0 0) g in
        (g, Ok res)
    end.
End reaper.

(** ** The reconciler ([reconciler.rs]) *)

Record ReconcileStats : Type := mkReconcileStats {
  blobs_examined : Z;
  orphan_count : Z;
  missing_count : Z;
  underflow_count : Z;
  corrected : Z
}.

Record ReconcileConfig : Type := mkReconcileConfig {
  max_blobs : option nat;
  apply_fix : bool
}.

(** The edges that point at a blob. *)
Definition edges_to (tenant digest : str) (d : Db) : gset (str * str * str) :=
  filter (fun e => e.1.1 = tenant /\ e.2 = digest) (manifest_blob_refs d).

Definition edge_count (tenant digest : str) (d : Db) : Z :=
  Z.of_nat (base.size (edges_to tenant digest d)).

Definition known_digests (d : Db) : gset (str * str) :=
  dom (blob_refcounts d) ∪ set_map (fun e => (e.1.1, e.2)) (manifest_blob_refs d).

Definition fix_missing (now : Z) (e : Z) (row : option RefRow) : option RefRow :=
  match row with
  | None => Some (mkRefRow e None now 0)
  | Some r => Some (mkRefRow e None now (bytes r))
  end.

Definition fix_orphan (now : Z) (row : option RefRow) : option RefRow :=
  match row with
  | None => None
  | Some r => Some (mkRefRow 0 (Some (default now (zeroed_at r))) (last_seen_at r) (bytes r))
  end.

Definition fix_underflow (now : Z) (e : Z) (row : option RefRow) : option RefRow :=
  match row with
  | None => None
  | Some r => Some (mkRefRow e (if e =? 0 then Some now else None) (last_seen_at r) (bytes r))
  end.

Definition record_drift (tenant digest kind : str) (e o : Z) (d : Db) : Db :=
  mkDb (blob_refcounts d) (manifest_blob_refs d) (blob_paths d) (gc_reaps d)
    (gc_drift d ++ [mkDrift tenant digest kind e o None]).

Inductive drift_kind : Type :=
| Missing
| Orphan
| Underflow
| Clean.

(** The [match (observed, expected)]. *)
Definition classify (obs : option Z) (e : Z) : drift_kind :=
  match obs with
  | None => if 0 <? e then Missing else Clean
  | Some o => if (e =? 0) && (0 <? o) then Orphan
              else if e <? o then Underflow
              else Clean
  end.

Section reconcile.
(** [collate] is the database's [ORDER BY tenant, blob_digest]; [refuse] says
    which statements the database refuses. *)
Context (collate : list (str * str) -> list (str * str)) (refuse : str -> str * str -> option str)
        (now : Z).

Definition statement (label : str) (key : str * str) (f : Db -> Db) : M Db str unit :=
  transaction (refuse label key) f.

Definition count_row (k : drift_kind) (fixed : bool) (st : ReconcileStats) : ReconcileStats :=
  mkReconcileStats (blobs_examined st + 1)
    (orphan_count st + match k with Orphan => 1 | _ => 0 end)
    (missing_count st + match k with Missing => 1 | _ => 0 end)
    (underflow_count st + match k with Underflow => 1 | _ => 0 end)
    (corrected st + match k with Clean => 0 | _ => if fixed then 1 else 0 end).

Definition kind_label (k : drift_kind) : str :=
  match k with
  | Missing => "missing"
  | Orphan => "orphan"
  | Underflow => "underflow"
  | Clean => ""
  end.

Definition fix_row (k : drift_kind) (e : Z) : option RefRow -> option RefRow :=
  match k with
  | Missing => fix_missing now e
  | Orphan => fix_orphan now
  | Underflow => fix_underflow now e
  | Clean => fun r => r
  end.

(** One row of the query: record the drift, and correct it when asked to. *)
Definition reconcile_row (apply : bool) (key : str * str) (obs : option Z) (e : Z) : M Db str unit :=
  match classify obs e with
  | Clean => ret tt
  | k =>
      do! statement "drift" key (record_drift key.1 key.2 (kind_label k) e (default 0 obs)) in
      when apply
        (statement "fix" key (set_refcounts (partial_alter (fix_row k e) key)))
  end.

(** A row as the query returned it, before the loop changes the tables. *)
Definition snapshot (d : Db) (key : str * str) : (str * str) * option Z * Z :=
  (key, refcount <$> blob_refcounts d !! key, edge_count key.1 key.2 d).

Fixpoint reconcile_rows (apply : bool) (rows : list ((str * str) * option Z * Z))
    (st : ReconcileStats) : M Db str ReconcileStats :=
  match rows with
  | [] => ret st
  | (key, obs, e) :: rows' =>
      do! reconcile_row apply key obs e in
      reconcile_rows apply rows' (count_row (classify obs e) apply st)
  end.

Definition reconcile (cfg : ReconcileConfig) : M Db str ReconcileStats :=
  fun d =>
    let keys := collate (elements (known_digests d)) in
    let rows := map (snapshot d)
                  match max_blobs cfg with
                  | Some n => take n keys
                  | None => keys
                  end in
    reconcile_rows (apply_fix cfg) rows (mkReconcileStats 0 0 0 0 0) d.
End reconcile.

Definition open_drift (tenant digest : str) (x : Drift) : bool :=
  bool_decide (drift_tenant x = tenant /\ drift_digest x = digest /\ corrected_at x = None).

(** The rows affected are counted. *)
Definition mark_drift_corrected (fails : option str) (now : Z) (tenant digest : str) (d : Db) :
    Db * result Z str :=
  match fails with
  | Some e => (d, Err e)
  | None =>
      (mkDb (blob_refcounts d) (manifest_blob_refs d) (blob_paths d) (gc_reaps d)
         (map (fun x => if open_drift tenant digest x
                        then mkDrift (drift_tenant x) (drift_digest x) (kind x) (expected x)
                               (observed x) (Some now)
                        else x) (gc_drift d)),
       Ok (Z.of_nat (length (List.filter (open_drift tenant digest) (gc_drift d)))))
  end.
