(* ===== verification/GcProofs.v ===== *)
(** * Correctness of online garbage collection

    The refcount invariant and its preservation by every writer, the safety of
    the reaper with respect to referenced blobs, what the reconciler corrects
    and what it does not, and the losses that the edge key allows. *)

From S2P Require Import Prelude Json Effects Store Paths Gc.

Local Open Scope Z_scope.

(** ** Extraction *)

Lemma push_descriptor_spec l out seen :
  NoDup (map blob_digest out) -> (forall x, x ∈ seen <-> x ∈ map blob_digest out) ->
  let '(out', seen') := foldl push_descriptor (out, seen) l in
  NoDup (map blob_digest out') /\ (forall x, x ∈ seen' <-> x ∈ map blob_digest out') /\
  (forall x, x ∈ map blob_digest out' <->
     x ∈ map blob_digest out \/ (x ∈ map blob_digest l /\ x <> [])).
Proof.
  revert out seen. induction l as [|d l IH]; intros out seen Hnd Hseen; cbn [foldl].
  - split_and!; [done|done|]. set_solver.
  - unfold push_descriptor at 2. destruct (blob_digest d) as [|c s] eqn:Hd; cbn [is_empty].
    { specialize (IH out seen Hnd Hseen). destruct (foldl _ _ _) as [out' seen'].
      destruct IH as (H1 & H2 & H3). split_and!; [done|done|]. intros x. rewrite H3. cbn.
      rewrite Hd. set_solver. }
    rewrite <- Hd. destruct (decide _) as [Hin|Hnin].
    + specialize (IH out seen Hnd Hseen). destruct (foldl _ _ _) as [out' seen'].
      destruct IH as (H1 & H2 & H3). split_and!; [done|done|]. intros x. rewrite H3. cbn.
      apply Hseen in Hin. set_solver.
    + specialize (IH (out ++ [d]) ({[blob_digest d]} ∪ seen)).
      destruct (foldl _ _ _) as [out' seen']. destruct IH as (H1 & H2 & H3).
      * rewrite map_app. apply NoDup_app. split_and!; [done| |apply NoDup_singleton].
        intros x Hx. rewrite <- Hseen in Hx. set_solver.
      * intros x. rewrite map_app, elem_of_app, elem_of_union, Hseen. cbn. set_solver.
      * split_and!; [done|done|]. intros x. rewrite H3, map_app, elem_of_app. cbn.
        rewrite list_elem_of_singleton, elem_of_cons. assert (blob_digest d <> []) by congruence.
        naive_solver.
Qed.

(** ** The refcount invariant *)

Record refs_ok (d : Db) : Prop := mkRefsOk {
  ok_counts t b : edge_count t b d = default 0 (refcount <$> blob_refcounts d !! (t, b));
  ok_zeroed k row : blob_refcounts d !! k = Some row -> refcount row <> 0 -> zeroed_at row = None;
  ok_waiting k row : blob_refcounts d !! k = Some row -> refcount row = 0 -> zeroed_at row <> None;
  ok_paths t m b : (t, m, b) ∈ manifest_blob_refs d -> exists p r, (t, p, r, b) ∈ blob_paths d
}.

Lemma refs_ok_empty : refs_ok db_empty.
Proof.
  split; cbn; [intros t b|intros k row..|intros t m b].
  - rewrite lookup_empty. done.
  - by rewrite lookup_empty.
  - by rewrite lookup_empty.
  - set_solver.
Qed.

Lemma edge_count_nonneg t b d : 0 <= edge_count t b d.
Proof. unfold edge_count. lia. Qed.

Lemma edge_count_pos t m b d : (t, m, b) ∈ manifest_blob_refs d -> 1 <= edge_count t b d.
Proof.
  intros Hin. unfold edge_count. assert (Hi : (t, m, b) ∈ edges_to t b d).
  { apply elem_of_filter. done. }
  destruct (base.size (edges_to t b d)) eqn:E; [|lia].
  apply size_empty_inv in E. exfalso. apply (E (t, m, b)) in Hi. set_solver.
Qed.

(** ** [add_refs] *)

Lemma edges_to_add e t b d :
  edges_to t b (set_edges (union {[e]}) d) =
  (if decide (e.1.1 = t /\ e.2 = b) then {[e]} else ∅) ∪ edges_to t b d.
Proof.
  apply leibniz_equiv. intros x. unfold edges_to. cbn.
  destruct (decide _) as [Hd|Hd]; rewrite elem_of_union, !elem_of_filter, elem_of_union.
  - rewrite elem_of_singleton. naive_solver.
  - rewrite elem_of_singleton. set_solver.
Qed.

Lemma edge_count_add e t b d :
  e ∉ manifest_blob_refs d ->
  edge_count t b (set_edges (union {[e]}) d) =
  edge_count t b d + (if decide (e.1.1 = t /\ e.2 = b) then 1 else 0).
Proof.
  intros Hn. unfold edge_count. rewrite edges_to_add. destruct (decide _).
  - rewrite size_union, size_singleton; [lia|].
    intros x Hx. apply elem_of_singleton in Hx as ->. unfold edges_to. rewrite elem_of_filter. naive_solver.
  - rewrite union_empty_l_L. lia.
Qed.

Lemma add_ref_ok now t p r m blob d : refs_ok d -> refs_ok (add_ref now t p r m blob d).
Proof.
  intros [Hc Hz Hw Hp]. set (b := blob_digest blob). unfold add_ref. cbv zeta. fold b.
  set (d1 := set_paths (union {[(t, p, r, b)]}) d).
  assert (H1 : refs_ok d1).
  { split; [exact Hc|exact Hz|exact Hw|]. cbn. intros t' m' b' (p' & r' & Hin)%Hp.
    exists p', r'. set_solver. }
  cbn [manifest_blob_refs set_paths]. destruct (decide _) as [Hin|Hnin]; [exact H1|].
  split.
  - intros t' b'. cbn. change (edge_count t' b' (set_edges (union {[(t, m, b)]}) d1) =
      default 0 (refcount <$> partial_alter (bump now (blob_size blob)) (t, b) (blob_refcounts d) !! (t', b'))).
    rewrite edge_count_add by exact Hnin.
    change (edge_count t' b' d1) with (edge_count t' b' d). rewrite Hc. cbn.
    destruct (decide (t = t' /\ b = b')) as [[<- <-]|Hne].
    + rewrite lookup_partial_alter_eq. destruct (blob_refcounts d !! (t, b)); done.
    + rewrite lookup_partial_alter_ne by naive_solver. lia.
  - intros k row. cbn. destruct (decide (k = (t, b))) as [->|Hne].
    + rewrite lookup_partial_alter_eq. destruct (blob_refcounts d !! (t, b)); cbn; intros [= <-]; done.
    + rewrite lookup_partial_alter_ne by done. apply Hz.
  - intros k row. cbn. destruct (decide (k = (t, b))) as [->|Hne].
    + rewrite lookup_partial_alter_eq. pose proof (Hc t b) as Hcb.
      pose proof (edge_count_nonneg t b d).
      destruct (blob_refcounts d !! (t, b)); cbn in *; intros [= <-]; cbn; lia.
    + rewrite lookup_partial_alter_ne by done. apply Hw.
  - cbn. intros t' m' b'. rewrite elem_of_union, elem_of_singleton. intros [[= -> -> ->]|Hin].
    + exists p, r. set_solver.
    + destruct (Hp _ _ _ Hin) as (p' & r' & Hin'). exists p', r'. set_solver.
Qed.

Lemma add_refs_ok fails now t p r m blobs d :
  refs_ok d -> refs_ok (fst (add_refs fails now t p r m blobs d)).
Proof.
  intros Hd. unfold add_refs. destruct blobs as [|b blobs]; [done|].
  unfold transaction. destruct fails; cbn [fst]; [done|].
  generalize (b :: blobs). intros l. revert d Hd. induction l as [|x l IH]; intros d Hd; cbn; [done|].
  by apply IH, add_ref_ok.
Qed.

(** ** [remove_refs] *)

(** Decrementing each blob of a list without repeats. *)
Lemma decrement_all now t (l : list (str * str * str)) d t' b :
  NoDup (map snd l) ->
  blob_refcounts (foldl (fun d e => set_refcounts (partial_alter (decrement now) (t, e.2)) d) d l)
    !! (t', b) =
  (if decide (t' = t /\ b ∈ map snd l) then decrement now (blob_refcounts d !! (t', b))
   else blob_refcounts d !! (t', b)).
Proof.
  revert d. induction l as [|e l IH]; intros d Hnd.
  { rewrite decide_False; [done|]. cbn. set_solver. }
  cbn [map] in Hnd. apply NoDup_cons in Hnd as [Hn Hnd]. cbn [foldl]. rewrite IH by done.
  cbn. destruct (decide (t' = t /\ b = e.2)) as [[-> ->]|Hne].
  - rewrite lookup_partial_alter_eq. rewrite (decide_False (P := _ /\ _ ∈ map snd l)) by naive_solver.
    rewrite decide_True by set_solver. done.
  - rewrite lookup_partial_alter_ne by naive_solver.
    destruct (decide (t' = t /\ b ∈ map snd l)).
    + rewrite decide_True by set_solver. done.
    + rewrite decide_False by set_solver. done.
Qed.

Lemma fold_refcounts_frame now t (l : list (str * str * str)) d :
  let d' := foldl (fun d e => set_refcounts (partial_alter (decrement now) (t, e.2)) d) d l in
  manifest_blob_refs d' = manifest_blob_refs d /\ blob_paths d' = blob_paths d.
Proof.
  cbv zeta. revert d. induction l as [|e l IH]; intros d; [done|]. cbn [foldl].
  destruct (IH (set_refcounts (partial_alter (decrement now) (t, e.2)) d)) as [-> ->]. done.
Qed.

Lemma edges_of_nodup t m d : NoDup (map snd (elements (edges_of t m d))).
Proof.
  apply NoDup_fmap_2_strong; [|apply NoDup_elements].
  intros [x1 x2] [y1 y2] Hx Hy. cbn. intros ->. rewrite elem_of_elements in Hx, Hy.
  apply elem_of_filter in Hx as [Hx _], Hy as [Hy _]. cbn in *. congruence.
Qed.

Lemma elem_edges_of t m d b :
  b ∈ map snd (elements (edges_of t m d)) <-> (t, m, b) ∈ manifest_blob_refs d.
Proof.
  rewrite list_elem_of_fmap. split.
  - intros ([x y] & -> & Hin). rewrite elem_of_elements in Hin.
    apply elem_of_filter in Hin as [Hx Hin]. cbn in *. by subst.
  - intros Hin. exists ((t, m), b). split; [done|]. rewrite elem_of_elements.
    by apply elem_of_filter.
Qed.

Lemma edge_count_remove t m d t' b :
  edge_count t' b (set_edges (fun es => es ∖ edges_of t m d) d) =
  edge_count t' b d - (if decide (t' = t /\ (t, m, b) ∈ manifest_blob_refs d) then 1 else 0).
Proof.
  unfold edge_count.
  assert (Heq : edges_to t' b (set_edges (fun es => es ∖ edges_of t m d) d) =
                edges_to t' b d ∖ (if decide (t' = t) then {[(t, m, b)]} else ∅)).
  { apply leibniz_equiv. intros [[x y] z]. unfold edges_to, edges_of. cbn.
    rewrite elem_of_difference, !elem_of_filter, elem_of_difference, elem_of_filter. cbn.
    destruct (decide (t' = t)) as [->|]; [rewrite elem_of_singleton|]; set_unfold; naive_solver. }
  rewrite Heq. destruct (decide (t' = t)) as [->|Hne].
  - destruct (decide (t = t /\ (t, m, b) ∈ manifest_blob_refs d)) as [[_ Hin]|Hnin].
    + rewrite size_difference, size_singleton.
      * pose proof (edge_count_pos _ _ _ _ Hin). unfold edge_count in *. lia.
      * apply singleton_subseteq_l, elem_of_filter. done.
    + rewrite difference_disjoint_L; [lia|]. intros x Hx Hx'.
      apply elem_of_singleton in Hx' as ->. apply elem_of_filter in Hx as [_ Hx]. naive_solver.
  - rewrite difference_empty_L, decide_False by naive_solver. lia.
Qed.

(** What [remove_refs] does to a row. *)
Lemma remove_refs_lookup now t m d t' b :
  blob_refcounts (fst (remove_refs None now t m d)) !! (t', b) =
  if decide (t' = t /\ (t, m, b) ∈ manifest_blob_refs d)
  then decrement now (blob_refcounts d !! (t', b)) else blob_refcounts d !! (t', b).
Proof.
  unfold remove_refs, transaction. cbn [fst]. rewrite decrement_all by apply edges_of_nodup.
  destruct (decide (t' = t /\ b ∈ map snd _)) as [[? Hin]|Hn].
  - apply elem_edges_of in Hin. by rewrite decide_True.
  - rewrite decide_False; [done|]. intros [? Hin]. apply Hn. split; [done|]. by apply elem_edges_of.
Qed.

Lemma remove_refs_frame now t m d :
  manifest_blob_refs (fst (remove_refs None now t m d)) = manifest_blob_refs d ∖ edges_of t m d /\
  blob_paths (fst (remove_refs None now t m d)) = blob_paths d.
Proof.
  unfold remove_refs, transaction. cbn [fst].
  destruct (fold_refcounts_frame now t (elements (edges_of t m d))
    (set_edges (fun es => es ∖ edges_of t m d) d)) as [-> ->]. done.
Qed.

Lemma remove_refs_ok fails now t m d :
  refs_ok d -> refs_ok (fst (remove_refs fails now t m d)).
Proof.
  destruct fails as [e|]; [done|]. intros [Hc Hz Hw Hp].
  destruct (remove_refs_frame now t m d) as [He Hpths]. split.
  - intros t' b. unfold edge_count, edges_to. rewrite He, remove_refs_lookup.
    pose proof (edge_count_remove t m d t' b) as Hr. unfold edge_count at 1, edges_to at 1 in Hr.
    cbn in Hr. rewrite Hr, Hc. destruct (decide _) as [[-> Hin]|]; [|lia].
    apply edge_count_pos in Hin. rewrite Hc in Hin. destruct (blob_refcounts d !! (t, b)) as [row|];
      cbn in *; [|lia]. rewrite (proj2 (Z.ltb_lt _ _)) by lia. done.
  - intros [t' b] row. rewrite remove_refs_lookup. destruct (decide _) as [[-> Hin]|]; [|apply Hz].
    apply edge_count_pos in Hin. rewrite Hc in Hin. pose proof (Hz (t, b)) as Hzb.
    destruct (blob_refcounts d !! (t, b)) as [row0|]; cbn in *; [|done].
    rewrite (proj2 (Z.ltb_lt _ _)) by lia. intros [= <-]. cbn. intros Hne.
    rewrite (proj2 (Z.eqb_neq _ _)) by done. apply Hzb; [done|lia].
  - intros [t' b] row. rewrite remove_refs_lookup. destruct (decide _) as [[-> Hin]|]; [|apply Hw].
    apply edge_count_pos in Hin. rewrite Hc in Hin.
    destruct (blob_refcounts d !! (t, b)) as [row0|]; cbn in *; [|done].
    rewrite (proj2 (Z.ltb_lt _ _)) by lia. intros [= <-]. cbn. intros ->. done.
  - intros t' m' b. rewrite He, Hpths. rewrite elem_of_difference. intros [Hin _]. by apply (Hp _ m').
Qed.

(** ** The reaper *)

Section reaper.
Context {W : Type} `{ObjectStoreLaws W} (store_path : str -> str).

(** Only the objects of the listed rows can change. *)
Lemma delete_objects_frame digest rows w w' r k :
  delete_objects store_path digest rows w = (w', r) ->
  (forall t p q d, (t, p, q, d) ∈ rows -> store_path (blob_path t p q digest) <> k) ->
  objects w' !! k = objects w !! k.
Proof.
  revert w. induction rows as [|[[[t p] q] d] rows IH]; intros w; cbn.
  - by intros [= <- <-].
  - intros E Hk. unfold bind, attempt in E.
    set (path := store_path (blob_path t p q digest)) in E.
    assert (Hne : path <> k) by (eapply Hk; left).
    destruct (os_delete path w) as [w1 res] eqn:Ed.
    assert (H1 : objects w1 !! k = objects w !! k).
    { destruct res as [[]|e].
      - rewrite (delete_ok _ _ _ Ed). by apply lookup_delete_ne.
      - destruct (delete_err _ _ _ _ Ed) as [->| ->]; [done|]. by apply lookup_delete_ne. }
    rewrite <- H1. destruct res as [[]|[q'|q'|st e]].
    + apply IH; [done|]. intros. eapply Hk. by right.
    + apply IH; [done|]. intros. eapply Hk. by right.
    + injection E as <- <-. done.
    + injection E as <- <-. done.
Qed.

Lemma reap_blob_ok rf cf t b freed g :
  refs_ok (db g) -> refs_ok (db (fst (reap_blob store_path rf cf t b freed g))).
Proof.
  intros Hok. unfold reap_blob. destruct rf; [done|].
  destruct (blob_refcounts (db g) !! (t, b)) as [row|] eqn:Hrow; [|done].
  destruct (refcount row =? 0) eqn:H0'; [|done]. apply Z.eqb_eq in H0'.
  destruct (delete_objects _ _ _ _) as [w [u|e]]; [|done].
  unfold transaction. destruct cf; [done|]. cbn. destruct Hok as [Hc Hz Hw Hp].
  assert (Hcb : edge_count t b (db g) = 0) by (rewrite Hc, Hrow; done). split; cbn.
  - intros t' b'. change (edge_count t' b' _) with (edge_count t' b' (db g)).
    destruct (decide ((t', b') = (t, b))) as [[= -> ->]|Hne].
    + rewrite lookup_delete_eq. done.
    + rewrite lookup_delete_ne by done. apply Hc.
  - intros k row' [_ Hl]%lookup_delete_Some. by apply Hz with k.
  - intros k row' [_ Hl]%lookup_delete_Some. by apply Hw with k.
  - intros t' m' b' Hin. destruct (Hp _ _ _ Hin) as (p' & r' & Hpath). exists p', r'.
    apply elem_of_difference. split; [done|]. intros [[Ht Hb] _]%elem_of_filter. cbn in Ht, Hb. subst.
    apply edge_count_pos in Hin. lia.
Qed.

(** The object of a blob whose refcount is not zero. *)
Record protected (t b k : str) (v : option str) (g : Gc W) : Prop := mkProtected {
  prot_count row : blob_refcounts (db g) !! (t, b) = Some row -> refcount row <> 0;
  prot_alias t' p' r' b' :
    (t', p', r', b') ∈ blob_paths (db g) -> store_path (blob_path t' p' r' b') = k ->
    t' = t /\ b' = b;
  prot_object : objects (os g) !! k = v
}.

(** As long as the counts are right, a blob with a manifest edge has one. *)
Lemma edge_counted t m b d row :
  refs_ok d -> (t, m, b) ∈ manifest_blob_refs d -> blob_refcounts d !! (t, b) = Some row -> refcount row <> 0.
Proof.
  intros Hok He Hrow. apply edge_count_pos in He. rewrite (ok_counts _ Hok), Hrow in He. cbn in He. lia.
Qed.

(** With names and digests as the specification has them, no other blob
    shares the object. *)
Lemma wf_paths_no_alias `{!PathNormal store_path} (d : Db) t p r b :
  (forall t' p' r' b', (t', p', r', b') ∈ blob_paths d -> wf_name t' p' r' /\ wf_digest b') ->
  wf_name t p r -> wf_digest b ->
  forall t' p' r' b', (t', p', r', b') ∈ blob_paths d ->
    store_path (blob_path t' p' r' b') = store_path (blob_path t p r b) -> t' = t /\ b' = b.
Proof.
  intros Hwf Hn Hb t' p' r' b' Hin Heq. destruct (Hwf _ _ _ _ Hin) as [Hn' Hb'].
  by destruct (blob_path_inj store_path _ _ _ _ _ _ _ _ Hn' Hb' Hn Hb Heq) as (? & _ & _ & ?).
Qed.

Lemma reap_blob_protected rf cf t' b' freed t b k v g :
  protected t b k v g -> protected t b k v (fst (reap_blob store_path rf cf t' b' freed g)).
Proof.
  intros [Hc Ha Ho]. unfold reap_blob in *. destruct rf; [done|].
  destruct (blob_refcounts (db g) !! (t', b')) as [row|] eqn:Hrow; [|done].
  destruct (refcount row =? 0) eqn:H0'; [|done]. apply Z.eqb_eq in H0'.
  assert (Hne : ~ (t' = t /\ b' = b)).
  { intros [-> ->]. by destruct (Hc row Hrow). }
  destruct (delete_objects _ _ _ _) as [w res] eqn:Ed.
  assert (Hw : objects w !! k = v).
  { rewrite <- Ho. eapply delete_objects_frame; [exact Ed|]. intros t1 p1 q1 d1 Hin Heq.
    rewrite elem_of_elements in Hin. apply elem_of_filter in Hin as [[Ht Hd] Hin]. cbn in Ht, Hd.
    destruct (Ha _ _ _ _ Hin) as [? ?]; [by rewrite Hd|]. apply Hne. split; congruence. }
  destruct res; [|done]. unfold transaction in *. destruct cf; [done|]. cbn in *.
  split; cbn; [|intros t1 p1 r1 b1 [Hin _]%elem_of_difference; by apply Ha|done].
  intros row' [_ Hl]%lookup_delete_Some. by apply Hc.
Qed.

Lemma reap_batch_protected halted others faults t b k v i rows acc g :
  (forall i g, protected t b k v g -> protected t b k v (others i g)) ->
  protected t b k v g ->
  protected t b k v (fst (reap_batch store_path halted others faults i rows acc g)).
Proof.
  intros Hoth. revert i acc g. induction rows as [|[[t' b'] row] rows IH]; intros i acc g Hg; cbn; [done|].
  destruct (halted i); [by apply Hoth|].
  pose proof (reap_blob_protected (fst (faults i)) (snd (faults i)) t' b' (bytes row) t b k v
    (others i g) (Hoth i g Hg)) as Hr.
  destruct (reap_blob _ _ _ _ _ _ _) as [g' r]. by apply IH.
Qed.
End reaper.

(** ** The reconciler *)

Section reconcile.
Context (collate : list (str * str) -> list (str * str)) (now : Z).
Context (Hcollate : forall l, Permutation (collate l) l).

(** A database that refuses nothing. *)
Definition accepts (label : str) (key : str * str) : option str := None.

Lemma reconcile_row_lookup key obs e d k :
  exists d', reconcile_row accepts now true key obs e d = (d', Ok tt) /\
    manifest_blob_refs d' = manifest_blob_refs d /\
    blob_refcounts d' !! k =
      if decide (k = key) then fix_row now (classify obs e) e (blob_refcounts d !! k)
      else blob_refcounts d !! k.
Proof.
  unfold reconcile_row. destruct (classify obs e) eqn:Hc; (eexists; split; [done|]; split; [done|]);
    cbn; (destruct (decide (k = key)) as [->|Hne];
          [by rewrite ?lookup_partial_alter_eq|by rewrite ?lookup_partial_alter_ne]).
Qed.

Lemma reconcile_rows_lookup rows st d k :
  NoDup (map (fun r => r.1.1) rows) ->
  exists d' st', reconcile_rows accepts now true rows st d = (d', Ok st') /\
    manifest_blob_refs d' = manifest_blob_refs d /\
    (k ∉ map (fun r => r.1.1) rows -> blob_refcounts d' !! k = blob_refcounts d !! k) /\
    (forall obs e, (k, obs, e) ∈ rows ->
       blob_refcounts d' !! k = fix_row now (classify obs e) e (blob_refcounts d !! k)).
Proof.
  revert st d. induction rows as [|[[key obs] e] rows IH]; intros st d Hnd; cbn [reconcile_rows].
  { exists d, st. split_and!; [done..|]. intros ? ? Hin. set_solver. }
  cbn [map] in Hnd. apply NoDup_cons in Hnd as [Hn Hnd].
  destruct (reconcile_row_lookup key obs e d k) as (d1 & Hrow & He1 & Hl1).
  unfold bind. rewrite Hrow.
  destruct (IH (count_row (classify obs e) true st) d1 Hnd) as (d' & st' & Hrun & He & Hout & Hin).
  exists d', st'. split; [done|]. split; [congruence|]. split.
  - cbn [map]. intros Hk. rewrite Hout by set_solver. rewrite Hl1, decide_False; [done|]. set_solver.
  - intros obs' e' [[= <- <- <-]|Hk]%elem_of_cons.
    + rewrite Hout by exact Hn. by rewrite Hl1, decide_True.
    + rewrite (Hin _ _ Hk), Hl1, decide_False; [done|]. intros ->. apply Hn.
      apply list_elem_of_fmap. by exists (key, obs', e').
Qed.

Lemma known_digests_spec d t b :
  (t, b) ∉ known_digests d -> blob_refcounts d !! (t, b) = None /\ edge_count t b d = 0.
Proof.
  intros Hn. unfold known_digests in Hn. apply not_elem_of_union in Hn as [H1 H2].
  split; [by apply not_elem_of_dom|]. unfold edge_count.
  replace (edges_to t b d) with (∅ : gset (str * str * str)); [done|].
  apply leibniz_equiv. intros [[x y] z]. unfold edges_to. rewrite elem_of_filter. cbn.
  split; [set_solver|]. intros [[-> ->] Hin]. exfalso. apply H2. apply elem_of_map.
  by exists (t, y, b).
Qed.

Lemma fix_row_count (row : option RefRow) e :
  0 <= e -> (forall r, row = Some r -> 0 <= refcount r) ->
  default 0 (refcount <$> fix_row now (classify (refcount <$> row) e) e row) =
  match row with
  | None => e
  | Some r => Z.min (refcount r) e
  end.
Proof.
  intros He Hr. destruct row as [r|]; cbn.
  - specialize (Hr r eq_refl). destruct (Z.eqb_spec e 0); destruct (Z.ltb_spec 0 (refcount r));
      destruct (Z.ltb_spec e (refcount r)); cbn; lia.
  - destruct (Z.ltb_spec 0 e); cbn; lia.
Qed.

Lemma reconcile_lookup d t b :
  exists d' st, reconcile collate accepts now (mkReconcileConfig None true) d = (d', Ok st) /\
    manifest_blob_refs d' = manifest_blob_refs d /\
    blob_refcounts d' !! (t, b) =
      let e := edge_count t b d in
      fix_row now (classify (refcount <$> blob_refcounts d !! (t, b)) e) e (blob_refcounts d !! (t, b)).
Proof.
  unfold reconcile. cbn [max_blobs apply_fix]. set (keys := collate (elements (known_digests d))).
  assert (Hkeys : map (fun r => r.1.1) (map (snapshot d) keys) = keys).
  { rewrite map_map. cbn. by rewrite map_id. }
  assert (Hnd : NoDup keys).
  { unfold keys. rewrite Hcollate. apply NoDup_elements. }
  destruct (reconcile_rows_lookup (map (snapshot d) keys) (mkReconcileStats 0 0 0 0 0) d (t, b))
    as (d' & st & Hrun & He & Hout & Hin); [by rewrite Hkeys|].
  exists d', st. split; [done|]. split; [done|]. cbv zeta. rewrite Hkeys in Hout.
  destruct (decide ((t, b) ∈ keys)) as [Hk|Hk].
  - apply (Hin (refcount <$> blob_refcounts d !! (t, b)) (edge_count t b d)).
    apply list_elem_of_fmap. by exists (t, b).
  - rewrite (Hout Hk). unfold keys in Hk. rewrite Hcollate, elem_of_elements in Hk.
    apply known_digests_spec in Hk as [-> ->]. done.
Qed.
End reconcile.

(** ** Properties *)

(** The descriptors extracted from a manifest are exactly the distinct
    non-empty digests of its config, layers and child manifests; the subject
    is not counted and no digest is listed twice. *)
Theorem extract_blob_digests_exact (parse_json : str -> option json) (body : str) (v : json)
    (raw : RawManifest) (Hparse : parse_json body = Some v) (Hde : de_manifest v = Some raw) :
  exists out, extract_blob_digests parse_json body = Some out /\ NoDup (map blob_digest out) /\
    forall x, x ∈ map blob_digest out <->
      x <> [] /\ x ∈ map blob_digest (option_list (config raw) ++ layers raw ++ manifests raw).
Proof.
  unfold extract_blob_digests. rewrite Hparse, Hde.
  set (all := option_list (config raw) ++ layers raw ++ manifests raw).
  replace (foldl push_descriptor _ (manifests raw)) with (foldl push_descriptor ([], ∅) all).
  - eexists. split; [done|].
    pose proof (push_descriptor_spec all [] ∅ (NoDup_nil_2) ltac:(set_solver)) as Hs.
    destruct (foldl _ _ all) as [out seen]. destruct Hs as (Hnd & _ & Hel).
    split; [done|]. intros x. rewrite Hel. set_solver.
  - unfold all. rewrite !foldl_app. by destruct (config raw).
Qed.

Definition demo_manifest : json :=
  JObject [("config", JObject [("digest", JString "sha256:cc"); ("size", JInt 7)]);
           ("layers", JArray [JObject [("digest", JString "sha256:11")];
                              JObject [("digest", JString "sha256:11")]])].

Lemma extract_blob_digests_exact_witness :
  exists out, extract_blob_digests (fun _ => Some demo_manifest) "body" = Some out /\
    NoDup (map blob_digest out).
Proof.
  destruct (extract_blob_digests_exact (fun _ => Some demo_manifest) "body" demo_manifest
    (mkRawManifest (Some (mkBlobDescriptor "sha256:cc" 7))
       [mkBlobDescriptor "sha256:11" 0; mkBlobDescriptor "sha256:11" 0] [] None)
    eq_refl eq_refl) as (out & H1 & H2 & _).
  exists out. split; [exact H1|exact H2].
Defined.

(** Everything that happens to the tables. *)
Inductive gc_step {W : Type} `{ObjectStore W} (store_path : str -> str) : Gc W -> Gc W -> Prop :=
| gc_push fails now t p r m blobs g :
    gc_step store_path g (mkGc (fst (add_refs fails now t p r m blobs (db g))) (os g))
| gc_delete fails now t m g :
    gc_step store_path g (mkGc (fst (remove_refs fails now t m (db g))) (os g))
| gc_reap rf cf t b freed g :
    gc_step store_path g (fst (reap_blob store_path rf cf t b freed g))
| gc_store g w : gc_step store_path g (mkGc (db g) w).

(** Transactions that do not overlap keep the counts: starting from empty
    tables, after any sequence of manifest pushes, manifest deletes, reaps and
    changes of the object store, with any of the transactions failing, every
    blob's refcount is the number of its manifest edges, the grace timer is set
    exactly on the rows at zero, and every referenced blob has a recorded storage
    path. *)
Theorem serial_refcounts {W : Type} `{!ObjectStore W, !ObjectStoreLaws W} (store_path : str -> str)
    (g : Gc W) (w : W) (Hreach : rtc (gc_step store_path) (mkGc db_empty w) g) :
  (forall t b, edge_count t b (db g) = default 0 (refcount <$> blob_refcounts (db g) !! (t, b))) /\
  (forall k row, blob_refcounts (db g) !! k = Some row ->
     (refcount row = 0 <-> zeroed_at row <> None)) /\
  (forall t m b, (t, m, b) ∈ manifest_blob_refs (db g) -> exists p r, (t, p, r, b) ∈ blob_paths (db g)).
Proof.
  assert (Hok : refs_ok (db g)).
  { remember (mkGc db_empty w) as g0 eqn:Hg0. assert (H0 : refs_ok (db g0)) by (subst; apply refs_ok_empty).
    clear Hg0. induction Hreach as [|g0 g1 g2 Hstep _ IH]; [done|]. apply IH. destruct Hstep; cbn.
    - by apply add_refs_ok.
    - by apply remove_refs_ok.
    - by apply reap_blob_ok.
    - done. }
  destruct Hok as [Hc Hz Hw Hp]. split_and!; [done| |done]. intros k row Hrow. split.
  - by apply Hw with k.
  - intros Hne. destruct (Z.eq_dec (refcount row) 0) as [|Hn]; [done|].
    by rewrite (Hz k row Hrow Hn) in Hne.
Qed.

Lemma serial_refcounts_witness :
  let d := fst (add_refs None 5 "t" "p" "r" "m" [mkBlobDescriptor "sha256:11" 3] db_empty) in
  edge_count "t" "sha256:11" d = 1.
Proof.
  cbv zeta.
  set (g := mkGc (fst (add_refs None 5 "t" "p" "r" "m" [mkBlobDescriptor "sha256:11" 3] db_empty))
              (memory_of ∅ [])).
  destruct (serial_refcounts normal_path g (memory_of ∅ [])) as [H _].
  - eapply rtc_l; [apply (gc_push normal_path None 5 "t" "p" "r" "m" [mkBlobDescriptor "sha256:11" 3])|].
    apply rtc_refl.
  - change (edge_count "t" "sha256:11" (db g) = 1). rewrite (H "t" "sha256:11"). vm_compute. reflexivity.
Defined.


(** A tenant with one manifest in two repositories, each with its own copy of
    the layer; the tables after both pushes. *)
Definition layer : BlobDescriptor := mkBlobDescriptor "sha256:11" 4.

Definition two_repos : Gc Memory :=
  let d := fst (add_refs None 0 "acme" "web" "prod" "sha256:mm" [layer] db_empty) in
  let d := fst (add_refs None 0 "acme" "web" "dev" "sha256:mm" [layer] d) in
  mkGc d (memory_of {["acme/web/prod/manifests/sha256:mm" := "{}";
                      "acme/web/prod/blobs/sha256/11" := "data";
                      "acme/web/dev/manifests/sha256:mm" := "{}";
                      "acme/web/dev/blobs/sha256/11" := "data"]} []).

Definition reaper_default : ReaperConfig := mkReaperConfig 86400 200.

Definition reap_quietly (now : Z) : M (Gc Memory) str CycleResult :=
  reap_one_cycle normal_path reaper_default now None (fun _ => false) (fun _ g => g)
    (fun _ => (None, None)).

Lemma two_repos_protected :
  protected normal_path "acme" "sha256:11" "acme/web/prod/blobs/sha256/11" (Some "data") two_repos.
Proof.
  split.
  - intros row. apply (edge_counted "acme" "sha256:mm"); [apply add_refs_ok, add_refs_ok, refs_ok_empty|].
    apply (bool_decide_eq_true_1 _). by vm_compute.
  - intros t' p' r' b' Hin _.
    assert (HF : Forall (fun x => x.1.1.1 = "acme" /\ x.2 = "sha256:11")
                   (elements (blob_paths (db two_repos))))
      by (apply (bool_decide_eq_true_1 _); vm_compute; done).
    rewrite Forall_forall in HF. by apply (HF (t', p', r', b')), elem_of_elements.
  - by vm_compute.
Qed.


(** Deleting a manifest in one repository loses the blobs of another.
    Edges are keyed by tenant and manifest digest only, so when the same
    manifest is pushed to two repositories of a tenant and deleted from one,
    the reaper deletes the layer from both: the manifest that is still served
    by the other repository has lost its blob. *)
Theorem cross_repo_delete_loses_blob :
  let deleted := mkGc (fst (remove_refs None 10 "acme" "sha256:mm" (db two_repos)))
                   (set_objects (delete "acme/web/prod/manifests/sha256:mm") (os two_repos)) in
  let g := exec (reap_quietly 200000) deleted in
  mem_objects (os g) !! "acme/web/dev/manifests/sha256:mm" = Some "{}" /\
  mem_objects (os g) !! "acme/web/dev/blobs/sha256/11" = None.
Proof. vm_compute. done. Qed.

(** What the reconciler corrects.  Run to the end with corrections on, it
    never touches the edges, creates each missing row at the number of edges,
    and replaces every refcount by the smaller of itself and that number: an
    overcount is corrected, while a refcount below the number of edges is
    taken for clean and left as it is. *)
Theorem reconcile_takes_minimum (collate : list (str * str) -> list (str * str)) (now : Z)
    (d : Db) (t b : str)
    (Hcollate : forall l, Permutation (collate l) l)
    (Hcheck : forall k row, blob_refcounts d !! k = Some row -> 0 <= refcount row) :
  exists d' st, reconcile collate accepts now (mkReconcileConfig None true) d = (d', Ok st) /\
    manifest_blob_refs d' = manifest_blob_refs d /\
    default 0 (refcount <$> blob_refcounts d' !! (t, b)) =
      match blob_refcounts d !! (t, b) with
      | None => edge_count t b d
      | Some row => Z.min (refcount row) (edge_count t b d)
      end.
Proof.
  destruct (reconcile_lookup collate now Hcollate d t b) as (d' & st & Hrun & He & Hl).
  exists d', st. split; [done|]. split; [done|]. rewrite Hl. cbv zeta.
  apply fix_row_count; [apply edge_count_nonneg|]. intros r Hr. by apply (Hcheck (t, b)).
Qed.

Definition undercounted : Db :=
  mkDb {[("acme", "sha256:11") := mkRefRow 0 (Some 0) 0 4]} {[("acme", "sha256:mm", "sha256:11")]}
    {[("acme", "web", "prod", "sha256:11")]} [] [].

Lemma reconcile_takes_minimum_witness :
  exists d' st, reconcile (fun l => l) accepts 0 (mkReconcileConfig None true) undercounted = (d', Ok st) /\
    default 0 (refcount <$> blob_refcounts d' !! ("acme", "sha256:11")) = 0.
Proof.
  destruct (reconcile_takes_minimum (fun l => l) 0 undercounted "acme" "sha256:11")
    as (d' & st & H1 & _ & H2).
  - intros l. reflexivity.
  - intros k row Hk. unfold undercounted in Hk. cbn [blob_refcounts] in Hk.
    apply lookup_singleton_Some in Hk as [_ <-]. cbn. lia.
  - exists d', st. split; [exact H1|]. rewrite H2. vm_compute. reflexivity.
Defined.

(** An undercount survives reconciliation and costs the blob.  With one
    edge and a refcount of zero the reconciler reports no drift and changes
    nothing, and the next reaper cycle deletes the referenced object. *)
Theorem undercount_loses_referenced_blob :
  let g := exec (reap_quietly 200000)
             (mkGc undercounted (memory_of {["acme/web/prod/blobs/sha256/11" := "data"]} [])) in
  reconcile (fun l => l) accepts 0 (mkReconcileConfig None true) undercounted =
    (undercounted, Ok (mkReconcileStats 1 0 0 0 0)) /\
  gc_drift undercounted = [] /\
  ("acme", "sha256:mm", "sha256:11") ∈ manifest_blob_refs (db g) /\
  mem_objects (os g) !! "acme/web/prod/blobs/sha256/11" = None.
Proof.
  cbv zeta. split_and!; [reflexivity|reflexivity| |vm_compute; done].
  apply (bool_decide_eq_true_1 _). vm_compute. done.
Qed.
