(* ===== verification/GcIsolation.v ===== *)
(** * Refcounts under concurrent transactions ([crates/specton-gc])

    The transactions of [refcount.rs] and [reaper.rs] as their statements, run
    concurrently at the default isolation of Postgres, READ COMMITTED: a
    statement sees what is committed when it runs and what its own transaction
    wrote; a row that another transaction wrote and has not committed makes it
    wait.  [Gc] has the same transactions as functions, for a database where
    they do not overlap. *)

From S2P Require Import Prelude Json Effects Store Paths Gc GcProofs.

Local Open Scope Z_scope.

(** ** Statements and transactions *)

Inductive Stmt : Type :=
| InsertPath (tenant project repository digest : str)
| InsertEdge (tenant manifest_digest : str) (blob : BlobDescriptor)
| BumpRow (tenant : str) (blob : BlobDescriptor)
| DeleteEdges (tenant manifest_digest : str)
| DecrementRow (tenant digest : str)
| LockZero (tenant digest : str)
| DeletePaths (tenant digest : str)
| DeleteRow (tenant digest : str)
| InsertReap (tenant digest : str) (freed : Z).

(** What a transaction has written and not committed (rows that are [None] are
    deleted), and the statements it has yet to run. *)
Record Tx : Type := mkTx {
  tx_paths_in : gset (str * str * str * str);
  tx_paths_out : gset (str * str * str * str);
  tx_edges_in : gset (str * str * str);
  tx_edges_out : gset (str * str * str);
  tx_rows : gmap (str * str) (option RefRow);
  tx_reaps : list (str * str * Z);
  tx_todo : list Stmt
}.

Definition tx_begin (todo : list Stmt) : Tx := mkTx ∅ ∅ ∅ ∅ ∅ [] todo.

Definition with_todo (todo : list Stmt) (tx : Tx) : Tx :=
  mkTx (tx_paths_in tx) (tx_paths_out tx) (tx_edges_in tx) (tx_edges_out tx) (tx_rows tx) (tx_reaps tx) todo.

Definition with_row (k : str * str) (r : option RefRow) (tx : Tx) : Tx :=
  mkTx (tx_paths_in tx) (tx_paths_out tx) (tx_edges_in tx) (tx_edges_out tx) (<[k := r]> (tx_rows tx)) (tx_reaps tx)
    (tx_todo tx).

(** The three transactions. *)
Inductive Program : Type :=
| AddRefs (tenant project repository manifest_digest : str) (blobs : list BlobDescriptor)
| RemoveRefs (tenant manifest_digest : str)
| ReapBlob (tenant digest : str) (freed : Z).

Definition statements (p : Program) : list Stmt :=
  match p with
  | AddRefs t p r m blobs => flat_map (fun b => [InsertPath t p r (blob_digest b); InsertEdge t m b]) blobs
  | RemoveRefs t m => [DeleteEdges t m]
  | ReapBlob t d freed => [LockZero t d; DeletePaths t d; DeleteRow t d; InsertReap t d freed]
  end.

(** ** What a statement sees and writes *)

Definition view_paths (tx : Tx) (d : Db) : gset (str * str * str * str) :=
  (blob_paths d ∖ tx_paths_out tx) ∪ tx_paths_in tx.

Definition view_edges (tx : Tx) (d : Db) : gset (str * str * str) :=
  (manifest_blob_refs d ∖ tx_edges_out tx) ∪ tx_edges_in tx.

Definition view_row (tx : Tx) (d : Db) (k : str * str) : option RefRow :=
  match tx_rows tx !! k with
  | Some r => r
  | None => blob_refcounts d !! k
  end.

(** The edges [DELETE .. RETURNING] takes: those of the manifest in the snapshot
    of the statement, which may be older than the tables by the time it has
    waited for its rows. *)
Definition taken_edges (snapshot : gset (str * str * str)) (t m : str) (tx : Tx) (d : Db) : gset (str * str * str) :=
  (edges_of t m d ∩ snapshot) ∖ tx_edges_out tx.

(** Run the next statement; [None] ends the transaction without a commit. *)
Definition run_stmt (now : Z) (snapshot : gset (str * str * str)) (d : Db) (tx : Tx) : option Tx :=
  match tx_todo tx with
  | [] => None
  | s :: rest =>
      let tx := with_todo rest tx in
      match s with
      | InsertPath t p r x =>
          if decide ((t, p, r, x) ∈ view_paths tx d) then Some tx
          else Some (mkTx ({[(t, p, r, x)]} ∪ tx_paths_in tx) (tx_paths_out tx) (tx_edges_in tx) (tx_edges_out tx)
                       (tx_rows tx) (tx_reaps tx) rest)
      | InsertEdge t m b =>
          let e := (t, m, blob_digest b) in
          if decide (e ∈ view_edges tx d) then Some tx
          else Some (mkTx (tx_paths_in tx) (tx_paths_out tx) ({[e]} ∪ tx_edges_in tx) (tx_edges_out tx)
                       (tx_rows tx) (tx_reaps tx) (BumpRow t b :: rest))
      | BumpRow t b =>
          let k := (t, blob_digest b) in
          Some (with_row k (bump now (blob_size b) (view_row tx d k)) tx)
      | DeleteEdges t m =>
          let taken := taken_edges snapshot t m tx d in
          Some (mkTx (tx_paths_in tx) (tx_paths_out tx) (tx_edges_in tx) (tx_edges_out tx ∪ taken)
                  (tx_rows tx) (tx_reaps tx) (map (fun e => DecrementRow t e.2) (elements taken) ++ rest))
      | DecrementRow t x => Some (with_row (t, x) (decrement now (view_row tx d (t, x))) tx)
      | LockZero t x =>
          match view_row tx d (t, x) with
          | Some row => if refcount row =? 0 then Some (with_row (t, x) (Some row) tx) else None
          | None => None
          end
      | DeletePaths t x =>
          Some (mkTx (tx_paths_in tx) (tx_paths_out tx ∪ paths_of t x d) (tx_edges_in tx) (tx_edges_out tx)
                  (tx_rows tx) (tx_reaps tx) rest)
      | DeleteRow t x => Some (with_row (t, x) None tx)
      | InsertReap t x freed =>
          Some (mkTx (tx_paths_in tx) (tx_paths_out tx) (tx_edges_in tx) (tx_edges_out tx) (tx_rows tx)
                  (tx_reaps tx ++ [(t, x, freed)]) rest)
      end
  end.

(** The statement does not wait for a row of [other]. *)
Definition free_of_locks (snapshot : gset (str * str * str)) (d : Db) (tx other : Tx) : bool :=
  match tx_todo tx with
  | [] => true
  | InsertPath t p r x :: _ => bool_decide ((t, p, r, x) ∉ tx_paths_in other ∪ tx_paths_out other)
  | InsertEdge t m b :: _ => bool_decide ((t, m, blob_digest b) ∉ tx_edges_in other ∪ tx_edges_out other)
  | DeleteEdges t m :: _ =>
      bool_decide (taken_edges snapshot t m tx d ## tx_edges_in other ∪ tx_edges_out other)
  | DeletePaths t x :: _ => bool_decide (paths_of t x d ## tx_paths_out other)
  | BumpRow t b :: _ => bool_decide (tx_rows other !! (t, blob_digest b) = None)
  | DecrementRow t x :: _ | LockZero t x :: _ | DeleteRow t x :: _ => bool_decide (tx_rows other !! (t, x) = None)
  | InsertReap _ _ _ :: _ => true
  end.

Definition commit (tx : Tx) (d : Db) : Db :=
  mkDb (map_imap (fun _ r => r) (tx_rows tx) ∪ filter (fun kv => tx_rows tx !! kv.1 = None) (blob_refcounts d))
    (view_edges tx d) (view_paths tx d) (gc_reaps d ++ tx_reaps tx) (gc_drift d).

(** ** Schedules *)

(** The committed tables and the open transactions. *)
Definition Postgres : Type := Db * gmap nat Tx.

Inductive PgAction : Type :=
| Begin (i : nat) (p : Program)
| Run (i : nat) (now : Z) (snapshot : gset (str * str * str))
| Commit (i : nat)
| Abort (i : nat).

Definition rc_exec (a : PgAction) (s : Postgres) : option Postgres :=
  let '(d, txs) := s in
  match a with
  | Begin i p =>
      match txs !! i with
      | None => Some (d, <[i := tx_begin (statements p)]> txs)
      | Some _ => None
      end
  | Run i now snapshot =>
      match txs !! i with
      | Some tx =>
          if forallb (fun o => free_of_locks snapshot d tx o.2) (map_to_list (delete i txs))
          then match tx_todo tx, run_stmt now snapshot d tx with
               | [], _ => None
               | _, Some tx' => Some (d, <[i := tx']> txs)
               | _, None => Some (d, delete i txs)
               end
          else None
      | None => None
      end
  | Commit i =>
      match txs !! i with
      | Some tx => match tx_todo tx with
                   | [] => Some (commit tx d, delete i txs)
                   | _ => None
                   end
      | None => None
      end
  | Abort i =>
      match txs !! i with
      | Some _ => Some (d, delete i txs)
      | None => None
      end
  end.

Fixpoint rc_run (l : list PgAction) (s : Postgres) : option Postgres :=
  match l with
  | [] => Some s
  | a :: l' => match rc_exec a s with
               | Some s' => rc_run l' s'
               | None => None
               end
  end.

(** ** Counting edges *)

Definition count_to (t b : str) (es : gset (str * str * str)) : Z :=
  Z.of_nat (base.size (filter (fun e => e.1.1 = t /\ e.2 = b) es)).

Lemma edge_count_to t b d : edge_count t b d = count_to t b (manifest_blob_refs d).
Proof. done. Qed.

Lemma count_to_nonneg t b es : 0 <= count_to t b es.
Proof. unfold count_to. lia. Qed.

Lemma count_to_union t b es es' : es ## es' -> count_to t b (es ∪ es') = count_to t b es + count_to t b es'.
Proof.
  intros Hd. unfold count_to. rewrite filter_union_L by apply _. rewrite size_union; [lia|].
  intros e [_ He]%elem_of_filter [_ He']%elem_of_filter. by apply (Hd e).
Qed.

Lemma count_to_difference t b es es' : es' ⊆ es -> count_to t b (es ∖ es') = count_to t b es - count_to t b es'.
Proof.
  intros Hs. rewrite (union_difference_L es' es Hs) at 2. rewrite count_to_union by set_solver. lia.
Qed.

Lemma count_to_mono t b es es' : es' ⊆ es -> count_to t b es' <= count_to t b es.
Proof. intros Hs. pose proof (count_to_difference t b es es' Hs). pose proof (count_to_nonneg t b (es ∖ es')). lia. Qed.

Lemma count_to_singleton t b e :
  count_to t b {[e]} = if decide ((e.1.1, e.2) = (t, b)) then 1 else 0.
Proof.
  unfold count_to. destruct (decide ((e.1.1, e.2) = (t, b))) as [[= H1 H2]|Hne].
  - assert (filter (fun e => e.1.1 = t /\ e.2 = b) {[e]} = ({[e]} : gset _)) as ->; [|by rewrite size_singleton].
    apply set_eq. intros x. rewrite elem_of_filter, elem_of_singleton. naive_solver.
  - assert (filter (fun e => e.1.1 = t /\ e.2 = b) {[e]} = (∅ : gset (str * str * str))) as ->; [|done].
    apply set_eq. intros x. rewrite elem_of_filter, elem_of_singleton. split; [|set_solver]. intros [[H1 H2] ->].
    by destruct Hne; f_equal.
Qed.

(** What the statements left to run will add to the refcount of a blob. *)
Definition stmt_delta (t b : str) (s : Stmt) : Z :=
  match s with
  | BumpRow t' blob => if decide ((t', blob_digest blob) = (t, b)) then 1 else 0
  | DecrementRow t' b' => if decide ((t', b') = (t, b)) then -1 else 0
  | _ => 0
  end.

Fixpoint pending (t b : str) (todo : list Stmt) : Z :=
  match todo with
  | [] => 0
  | s :: todo' => stmt_delta t b s + pending t b todo'
  end.

Lemma pending_app t b l l' : pending t b (l ++ l') = pending t b l + pending t b l'.
Proof. induction l as [|s l IH]; cbn; [done|]. rewrite IH. lia. Qed.

Lemma pending_statements t b p : pending t b (statements p) = 0.
Proof.
  destruct p as [t' p' r m blobs|t' m|t' x freed]; [|done|done]. cbn [statements].
  induction blobs as [|blob blobs IH]; [done|]. exact IH.
Qed.

Lemma pending_decrements t b t' es :
  (forall e, e ∈ es -> e.1.1 = t') ->
  pending t b (map (fun e => DecrementRow t' e.2) (elements es)) = - count_to t b es.
Proof.
  intros Ht. unfold count_to, base.size, set_size. cbn.
  assert (Hf : elements (filter (fun e => e.1.1 = t /\ e.2 = b) es)
               ≡ₚ filter (fun e => e.1.1 = t /\ e.2 = b) (elements es)).
  { apply NoDup_Permutation; [apply NoDup_elements|apply NoDup_filter, NoDup_elements|]. intros e.
    rewrite elem_of_elements, elem_of_filter, list_elem_of_filter, elem_of_elements. done. }
  rewrite (Permutation_length Hf). clear Hf.
  assert (Ht' : Forall (fun e => e.1.1 = t') (elements es)).
  { apply Forall_forall. intros e He. apply Ht. by apply elem_of_elements. }
  induction Ht' as [|e l He Hl IH]; [done|]. cbn [map pending stmt_delta]. rewrite IH, filter_cons.
  destruct (decide ((t', e.2) = (t, b))) as [[= H1 H2]|Hne], (decide (e.1.1 = t /\ e.2 = b)) as [[H3 H4]|Hn]; cbn [length].
  - lia.
  - exfalso. apply Hn. split; congruence.
  - exfalso. apply Hne. congruence.
  - lia.
Qed.

(** ** The invariant *)

Definition count_row (r : option RefRow) : Z := default 0 (refcount <$> r).

(** No count is negative, and the grace timer runs exactly on the rows at zero. *)
Definition row_ok (row : RefRow) : Prop := 0 <= refcount row /\ (refcount row = 0 <-> zeroed_at row <> None).

Record counts_ok (d : Db) : Prop := mkCountsOk {
  co_counts t b : edge_count t b d = count_row (blob_refcounts d !! (t, b));
  co_timer k row : blob_refcounts d !! k = Some row -> row_ok row
}.

Definition is_add (s : Stmt) : bool :=
  match s with InsertPath _ _ _ _ | InsertEdge _ _ _ | BumpRow _ _ => true | _ => false end.

Definition is_remove (s : Stmt) : bool :=
  match s with DeleteEdges _ _ | DecrementRow _ _ => true | _ => false end.

(** Where a transaction is in its program. *)
Inductive stage (tx : Tx) : Prop :=
| stage_add : tx_edges_out tx = ∅ -> forallb is_add (tx_todo tx) = true -> stage tx
| stage_remove : tx_edges_in tx = ∅ -> forallb is_remove (tx_todo tx) = true -> stage tx
| stage_reap t x freed : tx_edges_in tx = ∅ -> tx_edges_out tx = ∅ ->
    tx_todo tx = [LockZero t x; DeletePaths t x; DeleteRow t x; InsertReap t x freed] -> stage tx
| stage_locked t x row l : tx_edges_in tx = ∅ -> tx_edges_out tx = ∅ ->
    tx_rows tx !! (t, x) = Some (Some row) -> refcount row = 0 ->
    (exists freed, l = [InsertReap t x freed]) ->
    (tx_todo tx = DeletePaths t x :: DeleteRow t x :: l \/ tx_todo tx = DeleteRow t x :: l) -> stage tx
| stage_reaped t x freed : tx_edges_in tx = ∅ -> tx_edges_out tx = ∅ ->
    (tx_todo tx = [InsertReap t x freed] \/ tx_todo tx = []) -> stage tx.

Record tx_ok (d : Db) (tx : Tx) : Prop := mkTxOk {
  tk_in : tx_edges_in tx ## manifest_blob_refs d;
  tk_out : tx_edges_out tx ⊆ manifest_blob_refs d;
  tk_count t b : count_row (view_row tx d (t, b)) =
    edge_count t b d + count_to t b (tx_edges_in tx) - count_to t b (tx_edges_out tx) - pending t b (tx_todo tx);
  tk_timer k row : tx_rows tx !! k = Some (Some row) -> row_ok row;
  tk_stage : stage tx
}.

(** Uncommitted writes of two transactions do not meet. *)
Definition apart (tx tx' : Tx) : Prop :=
  tx_edges_in tx ∪ tx_edges_out tx ## tx_edges_in tx' ∪ tx_edges_out tx' /\
  dom (tx_rows tx) ## dom (tx_rows tx').

Record rc_ok (s : Postgres) : Prop := mkRcOk {
  rk_counts : counts_ok s.1;
  rk_tx i tx : s.2 !! i = Some tx -> tx_ok s.1 tx;
  rk_apart i j tx tx' : i <> j -> s.2 !! i = Some tx -> s.2 !! j = Some tx' -> apart tx tx'
}.

Lemma rc_ok_empty : rc_ok (db_empty, ∅).
Proof.
  split; cbn; [|intros i tx H; by rewrite lookup_empty in H|intros i j tx tx' _ H; by rewrite lookup_empty in H].
  split; cbn; [|intros k row H; by rewrite lookup_empty in H].
  intros t b. rewrite lookup_empty. by vm_compute.
Qed.

Lemma begin_ok d p : counts_ok d -> tx_ok d (tx_begin (statements p)).
Proof.
  intros [Hc Ht]. split; cbn; [set_solver|set_solver|..].
  - intros t b. unfold view_row. cbn. rewrite lookup_empty, <- Hc, pending_statements.
    change (count_to t b ∅) with 0. lia.
  - intros k row. by rewrite lookup_empty.
  - destruct p as [t p r m blobs|t m|t x freed].
    + apply stage_add; [done|]. cbn. induction blobs as [|blob blobs IH]; [done|]. exact IH.
    + by apply stage_remove.
    + by eapply stage_reap.
Qed.

Lemma view_row_ok d tx k row : counts_ok d -> tx_ok d tx -> view_row tx d k = Some row -> row_ok row.
Proof.
  intros Hd Ht. unfold view_row. destruct (tx_rows tx !! k) as [r|] eqn:E; [intros ->; by eapply tk_timer|].
  by apply co_timer.
Qed.

(** One row is written. *)
Lemma row_step_ok d tx s rest t b r :
  tx_ok d tx -> tx_todo tx = s :: rest ->
  count_row r = count_row (view_row tx d (t, b)) + stmt_delta t b s ->
  (forall t' b', (t', b') <> (t, b) -> stmt_delta t' b' s = 0) ->
  (forall row, r = Some row -> row_ok row) ->
  stage (with_row (t, b) r (with_todo rest tx)) -> tx_ok d (with_row (t, b) r (with_todo rest tx)).
Proof.
  intros [Hi Ho Hc Hr Hs] Htodo Hcount Helse Hrow Hst. split; cbn; [done|done| | |done].
  - intros t' b'. specialize (Hc t' b'). rewrite Htodo in Hc. cbn in Hc. unfold view_row in *. cbn.
    destruct (decide ((t', b') = (t, b))) as [[= -> ->]|Hne].
    + rewrite lookup_insert_eq. lia.
    + rewrite lookup_insert_ne by done. rewrite Hc, Helse by done. lia.
  - intros k row. destruct (decide (k = (t, b))) as [->|Hne].
    + rewrite lookup_insert_eq. intros [= ->]. by apply Hrow.
    + rewrite lookup_insert_ne by done. apply Hr.
Qed.

(** Neither rows nor edges are written. *)
Lemma other_step_ok d tx tx' :
  tx_ok d tx -> tx_edges_in tx' = tx_edges_in tx -> tx_edges_out tx' = tx_edges_out tx -> tx_rows tx' = tx_rows tx ->
  (forall t b, pending t b (tx_todo tx') = pending t b (tx_todo tx)) -> stage tx' -> tx_ok d tx'.
Proof.
  intros [Hi Ho Hc Hr Hs] Ei Eo Er Hp Hst. split; rewrite ?Ei, ?Eo, ?Er; [done|done| |done|done].
  intros t b. rewrite Hp, <- Hc. unfold view_row. by rewrite Er.
Qed.

Lemma bump_row_ok now sz r :
  (forall row, r = Some row -> row_ok row) ->
  count_row (bump now sz r) = count_row r + 1 /\ (forall row, bump now sz r = Some row -> row_ok row).
Proof.
  intros H. unfold bump, row_ok. destruct r as [old|]; cbn; (split; [lia|]); intros row [= <-]; cbn.
  - destruct (H old eq_refl). split; [lia|]. split; [lia|done].
  - split; [lia|]. split; [lia|done].
Qed.

Lemma decrement_row_ok now r :
  (forall row, r = Some row -> row_ok row) -> 1 <= count_row r ->
  count_row (decrement now r) = count_row r - 1 /\ (forall row, decrement now r = Some row -> row_ok row).
Proof.
  intros H. destruct r as [old|]; cbn; [|lia]. intros Hpos. destruct (H old eq_refl) as [Hn Hz].
  destruct (Z.ltb_spec 0 (refcount old)); [|lia]. split; [done|]. intros row [= <-]. unfold row_ok. cbn.
  split; [lia|]. destruct (Z.eqb_spec (refcount old - 1) 0) as [->|Hne]; [done|].
  split; [lia|]. intros Hz'. apply Hz in Hz'. lia.
Qed.

Lemma add_step_ok now snapshot d tx tx' :
  counts_ok d -> tx_ok d tx -> tx_edges_out tx = ∅ -> forallb is_add (tx_todo tx) = true ->
  run_stmt now snapshot d tx = Some tx' -> tx_ok d tx'.
Proof.
  intros Hd Hok Hout Hadd. unfold run_stmt. destruct (tx_todo tx) as [|s rest] eqn:Htodo; [done|].
  cbn in Hadd. apply andb_true_iff in Hadd as [Hs Hrest].
  destruct s as [t p r x|t m b|t b| | | | | | ]; try done; cbn zeta.
  - intros H. apply (other_step_ok d tx); [done|..].
    1-3: by repeat case_decide; injection H as <-.
    + intros t' b'. rewrite Htodo. by repeat case_decide; injection H as <-.
    + repeat case_decide; injection H as <-; by apply stage_add.
  - change (view_edges (with_todo rest tx) d) with (view_edges tx d). set (e := (t, m, blob_digest b)).
    destruct (decide (e ∈ view_edges tx d)) as [Hin|Hnin]; intros [= <-].
    { apply (other_step_ok d tx); [done..| |by apply stage_add]. intros t' b'. by rewrite Htodo. }
    destruct Hok as [Hi Ho Hc Hr Hst]. unfold view_edges in Hnin. rewrite Hout in *. split; cbn.
    + set_solver.
    + set_solver.
    + intros t' b'. specialize (Hc t' b'). rewrite Htodo in Hc. cbn in Hc. unfold view_row in *. cbn. rewrite Hc.
      rewrite count_to_union, count_to_singleton by set_solver. cbn. lia.
    + done.
    + by apply stage_add.
  - intros [= <-]. change (view_row (with_todo rest tx) d) with (view_row tx d).
    destruct (bump_row_ok now (blob_size b) (view_row tx d (t, blob_digest b))) as [Hcnt Hrow].
    { intros row. by eapply view_row_ok. }
    apply (row_step_ok d tx (BumpRow t b) rest); [done|done| | |done|by apply stage_add].
    + rewrite Hcnt. cbn. by rewrite decide_True.
    + intros t' b' Hne. cbn. rewrite decide_False; [done|]. congruence.
Qed.

Lemma pending_remove t b l : forallb is_remove l = true -> pending t b l <= 0.
Proof.
  induction l as [|s l IH]; cbn; [done|]. intros [Hs Hl]%andb_true_iff. specialize (IH Hl).
  destruct s; cbn in *; try done; try case_decide; lia.
Qed.

Lemma remove_step_ok now snapshot d tx tx' :
  counts_ok d -> tx_ok d tx -> tx_edges_in tx = ∅ -> forallb is_remove (tx_todo tx) = true ->
  run_stmt now snapshot d tx = Some tx' -> tx_ok d tx'.
Proof.
  intros Hd Hok Hin Hrem. unfold run_stmt. destruct (tx_todo tx) as [|s rest] eqn:Htodo; [done|].
  cbn in Hrem. apply andb_true_iff in Hrem as [Hs Hrest].
  destruct s as [| | |t m|t x| | | | ]; try done; cbn zeta; intros [= <-].
  - destruct Hok as [Hi Ho Hc Hr Hst]. set (taken := taken_edges snapshot t m (with_todo rest tx) d).
    assert (Htaken : taken ⊆ edges_of t m d /\ taken ## tx_edges_out tx) by (unfold taken, taken_edges; cbn; set_solver).
    destruct Htaken as [Ht1 Ht2].
    assert (Ht3 : forall e, e ∈ taken -> e.1 = (t, m) /\ e ∈ manifest_blob_refs d).
    { intros e He. apply Ht1 in He. unfold edges_of in He. by apply elem_of_filter in He. }
    split; cbn.
    + by rewrite Hin.
    + intros e He. apply elem_of_union in He as [He|He]; [by apply Ho|by apply Ht3].
    + intros t' b'. specialize (Hc t' b'). rewrite Htodo in Hc. cbn in Hc. unfold view_row in *. cbn. rewrite Hc.
      rewrite pending_app, (pending_decrements t' b' t taken) by (intros e He; by destruct (Ht3 e He) as [-> _]).
      rewrite (count_to_union t' b' (tx_edges_out tx) taken) by (by symmetry). lia.
    + done.
    + apply stage_remove; [done|]. cbn. rewrite forallb_app, Hrest, andb_true_r. apply forallb_forall. intros s' Hs'.
      apply in_map_iff in Hs' as (e & <- & _). done.
  - change (view_row (with_todo rest tx) d) with (view_row tx d).
    destruct (decrement_row_ok now (view_row tx d (t, x))) as [Hcnt Hrow].
    { intros row. by eapply view_row_ok. }
    { rewrite (tk_count _ _ Hok), Hin, Htodo. change (count_to t x ∅) with 0. cbn. rewrite decide_True by done.
      pose proof (pending_remove t x rest Hrest). pose proof (count_to_mono t x _ _ (tk_out _ _ Hok)).
      rewrite edge_count_to. lia. }
    apply (row_step_ok d tx (DecrementRow t x) rest); [done|done| | |done|by apply stage_remove].
    + rewrite Hcnt. cbn. rewrite decide_True by done. lia.
    + intros t' b' Hne. cbn. rewrite decide_False; [done|]. congruence.
Qed.

Lemma run_stmt_ok now snapshot d tx tx' :
  counts_ok d -> tx_ok d tx -> run_stmt now snapshot d tx = Some tx' -> tx_ok d tx'.
Proof.
  intros Hd Hok Hrun. destruct (tk_stage _ _ Hok) as [Ho Ha|Hi Hr|t x freed Hi Ho Ht|t x row l Hi Ho Hrow Hz [freed ->] Ht|t x freed Hi Ho Ht].
  - by eapply add_step_ok.
  - by eapply remove_step_ok.
  - unfold run_stmt in Hrun. rewrite Ht in Hrun. cbn in Hrun.
    change (view_row (with_todo _ tx) d) with (view_row tx d) in Hrun.
    destruct (view_row tx d (t, x)) as [row|] eqn:Hv; [|done].
    destruct (Z.eqb_spec (refcount row) 0) as [Hz|]; [|done]. injection Hrun as <-.
    eapply row_step_ok; [done|exact Ht| |done| |].
    + rewrite Hv. cbn. lia.
    + intros ? [= <-]. by eapply view_row_ok.
    + apply (stage_locked _ t x row [InsertReap t x freed]); cbn; [done|done|by rewrite lookup_insert_eq|done|by exists freed|by left].
  - destruct Ht as [Ht|Ht]; unfold run_stmt in Hrun; rewrite Ht in Hrun; cbn in Hrun; injection Hrun as <-.
    + apply (other_step_ok d tx); [done..| |].
      * intros t' b'. by rewrite Ht.
      * apply (stage_locked _ t x row [InsertReap t x freed]); cbn; [done|done|done|done|by exists freed|by right].
    + eapply row_step_ok; [done|exact Ht| |done|done|].
      * unfold view_row. rewrite Hrow. cbn. lia.
      * apply (stage_reaped _ t x freed); [done|done|by left].
  - destruct Ht as [Ht|Ht]; unfold run_stmt in Hrun; rewrite Ht in Hrun; [|done]. cbn in Hrun. injection Hrun as <-.
    apply (other_step_ok d tx); [done..| |].
    + intros t' b'. by rewrite Ht.
    + apply (stage_reaped _ t x freed); [done|done|by right].
Qed.

Lemma apart_sym tx tx' : apart tx tx' -> apart tx' tx.
Proof. intros [H1 H2]. by split; symmetry. Qed.

Lemma apart_row tx other t x r rest :
  apart tx other -> bool_decide (tx_rows other !! (t, x) = None) = true -> apart (with_row (t, x) r (with_todo rest tx)) other.
Proof.
  intros [He Hr] Hf%bool_decide_eq_true. split; [exact He|]. cbn. rewrite dom_insert_L.
  apply disjoint_union_l. split; [|done]. intros k Hk%elem_of_singleton. subst k. by apply not_elem_of_dom.
Qed.

Lemma run_apart now snapshot d tx tx' other :
  apart tx other -> free_of_locks snapshot d tx other = true -> run_stmt now snapshot d tx = Some tx' -> apart tx' other.
Proof.
  intros Ha Hf. unfold run_stmt, free_of_locks in *. destruct (tx_todo tx) as [|s rest]; [done|].
  destruct s as [t p r x|t m b|t b|t m|t x|t x|t x|t x|t x freed]; cbn zeta.
  - repeat case_decide; by intros [= <-].
  - apply bool_decide_eq_true in Hf. repeat case_decide; intros [= <-]; [done|]. destruct Ha as [He Hr].
    split; [|done]. cbn. clear -Hf He. set_solver.
  - intros [= <-]. by apply apart_row.
  - apply bool_decide_eq_true in Hf. intros [= <-]. destruct Ha as [He Hr]. split; [|done]. cbn.
    change (taken_edges snapshot t m (with_todo rest tx) d) with (taken_edges snapshot t m tx d).
    revert Hf. generalize (taken_edges snapshot t m tx d). clear -He. set_solver.
  - intros [= <-]. by apply apart_row.
  - repeat case_match; intros [= <-]. by apply apart_row.
  - by intros [= <-].
  - intros [= <-]. by apply apart_row.
  - by intros [= <-].
Qed.

Lemma commit_row tx d k : blob_refcounts (commit tx d) !! k = view_row tx d k.
Proof.
  unfold commit, view_row. cbn. rewrite lookup_union, map_lookup_imap, map_lookup_filter.
  destruct (tx_rows tx !! k) as [[row|]|] eqn:E; cbn.
  - by destruct (blob_refcounts d !! k); cbn; rewrite ?E; cbn.
  - destruct (blob_refcounts d !! k); cbn; [|done]. by rewrite option_guard_False by congruence.
  - destruct (blob_refcounts d !! k); cbn; [|done]. by rewrite option_guard_True by done.
Qed.

Lemma commit_edges tx d t b :
  tx_ok d tx -> edge_count t b (commit tx d) =
    edge_count t b d + count_to t b (tx_edges_in tx) - count_to t b (tx_edges_out tx).
Proof.
  intros [Hi Ho _ _ _]. rewrite !edge_count_to. unfold commit, view_edges. cbn [manifest_blob_refs].
  rewrite count_to_union by set_solver. rewrite count_to_difference by done. lia.
Qed.

Lemma commit_counts d tx : counts_ok d -> tx_ok d tx -> tx_todo tx = [] -> counts_ok (commit tx d).
Proof.
  intros Hd Hok Htodo. split.
  - intros t b. rewrite commit_row, commit_edges by done. rewrite (tk_count _ _ Hok), Htodo. cbn. lia.
  - intros k row. rewrite commit_row. by apply view_row_ok.
Qed.

(** A commit leaves the other transactions in order. *)
Lemma commit_other d tx other :
  counts_ok d -> tx_ok d tx -> tx_todo tx = [] -> tx_ok d other -> apart tx other -> tx_ok (commit tx d) other.
Proof.
  intros Hd Hok Htodo Hother [He Hr]. pose proof (commit_counts d tx Hd Hok Htodo) as Hd'.
  pose proof Hother as [Hi Ho Hc Ht Hst]. split; [| | |done|done].
  - unfold commit, view_edges. cbn. clear -Hi He. set_solver.
  - unfold commit, view_edges. cbn. clear -Ho He. set_solver.
  - intros t b. specialize (Hc t b). unfold view_row in *.
    destruct (tx_rows other !! (t, b)) as [r|] eqn:E.
    + assert (Hn : tx_rows tx !! (t, b) = None).
      { apply not_elem_of_dom. intros Hin. apply (Hr (t, b) Hin). by apply elem_of_dom. }
      rewrite Hc, (commit_edges tx d t b Hok). pose proof (tk_count _ _ Hok t b) as Hcnt. rewrite Htodo in Hcnt.
      unfold view_row in Hcnt. rewrite Hn, <- (co_counts _ Hd) in Hcnt. cbn in Hcnt. lia.
    + rewrite <- (co_counts _ Hd'). rewrite <- (co_counts _ Hd) in Hc. lia.
Qed.

Lemma rc_exec_ok a s s' : rc_ok s -> rc_exec a s = Some s' -> rc_ok s'.
Proof.
  destruct s as [d txs]. intros [Hd Htx Hap]. cbn in *.
  assert (Hdel : forall i, rc_ok (d, delete i txs)).
  { intros i. split; cbn; [done|intros j tx [_ Hj]%lookup_delete_Some; by eapply Htx|].
    intros j k tx tx' Hne [_ Hj]%lookup_delete_Some [_ Hk]%lookup_delete_Some. by eapply (Hap j k). }
  assert (Hins : forall i tx, tx_ok d tx -> (forall j tx', j <> i -> txs !! j = Some tx' -> apart tx tx') ->
            rc_ok (d, <[i := tx]> txs)).
  { intros i tx Hok Ha. split; cbn; [done|intros j tx' [[<- <-]|[_ Hj]]%lookup_insert_Some; [done|by eapply Htx]|].
    intros j k tx1 tx2 Hne [[<- <-]|[Hj1 Hj]]%lookup_insert_Some [[<- <-]|[Hk1 Hk]]%lookup_insert_Some; [done|..].
    - by eapply Ha.
    - apply apart_sym. by eapply Ha.
    - by eapply (Hap j k). }
  destruct a as [i p|i now snapshot|i|i].
  - destruct (txs !! i) eqn:E; [done|]. intros [= <-]. apply Hins; [by apply begin_ok|].
    intros j tx' _ _. split; cbn; set_solver.
  - destruct (txs !! i) as [tx|] eqn:E; [|done]. destruct (forallb _ _) eqn:Hfree; [|done].
    destruct (tx_todo tx) as [|st rest] eqn:Htodo; [done|].
    destruct (run_stmt now snapshot d tx) as [tx'|] eqn:Hrun; intros [= <-]; [|apply Hdel].
    apply Hins; [by eapply run_stmt_ok; eauto|]. intros j other Hj Hother.
    apply (run_apart now snapshot d tx); [by apply (Hap i j)| |done].
    rewrite forallb_forall in Hfree. apply (Hfree (j, other)). apply list_elem_of_In, elem_of_map_to_list.
    by rewrite lookup_delete_ne.
  - destruct (txs !! i) as [tx|] eqn:E; [|done]. destruct (tx_todo tx) eqn:Htodo; [|done]. intros [= <-].
    pose proof (Htx i tx E) as Hok. split; cbn; [by apply commit_counts| |].
    + intros j other [Hne Hj]%lookup_delete_Some. apply commit_other; [done..|by eapply Htx|by apply (Hap i j)].
    + intros j k tx1 tx2 Hne [_ Hj]%lookup_delete_Some [_ Hk]%lookup_delete_Some. by eapply (Hap j k).
  - destruct (txs !! i); [|done]. intros [= <-]. apply Hdel.
Qed.

Lemma rc_run_ok l s s' : rc_ok s -> rc_run l s = Some s' -> rc_ok s'.
Proof.
  revert s. induction l as [|a l IH]; intros s Hs; cbn; [by intros [= <-]|].
  destruct (rc_exec a s) as [s1|] eqn:E; [|done]. apply IH. by eapply rc_exec_ok.
Qed.

(** ** Transactions that do not overlap

    A transaction that runs alone leaves what its function in [Gc] leaves. *)

Section alone.
Context (now : Z) (d : Db).

Definition runs_to (tx tx' : Tx) : Prop := rtc (fun a b => run_stmt now (manifest_blob_refs d) d a = Some b) tx tx'.

Lemma Db_eq (a b : Db) :
  (forall k, blob_refcounts a !! k = blob_refcounts b !! k) -> manifest_blob_refs a = manifest_blob_refs b ->
  blob_paths a = blob_paths b -> gc_reaps a = gc_reaps b -> gc_drift a = gc_drift b -> a = b.
Proof. destruct a, b; cbn. intros H -> -> -> ->. f_equal. by apply map_eq. Qed.

Lemma blob_alone t p r m b rest tx :
  tx_todo tx = InsertPath t p r (blob_digest b) :: InsertEdge t m b :: rest -> tx_edges_out tx = ∅ -> tx_paths_out tx = ∅ ->
  exists tx', runs_to tx tx' /\ tx_todo tx' = rest /\ tx_edges_out tx' = ∅ /\ tx_paths_out tx' = ∅ /\
    commit tx' d = add_ref now t p r m b (commit tx d).
Proof.
  intros Htodo Heo Hpo. set (path := (t, p, r, blob_digest b)). set (e := (t, m, blob_digest b)).
  (* the path *)
  assert (Hpath : exists tx1, run_stmt now (manifest_blob_refs d) d tx = Some tx1 /\ tx_todo tx1 = InsertEdge t m b :: rest /\
            tx_edges_out tx1 = ∅ /\ tx_paths_out tx1 = ∅ /\
            commit tx1 d = set_paths (union {[path]}) (commit tx d)).
  { unfold run_stmt. rewrite Htodo. cbn zeta. fold path. change (view_paths (with_todo _ tx) d) with (view_paths tx d).
    destruct (decide (path ∈ view_paths tx d)) as [Hin|Hnin]; eexists; (split; [done|]); cbn; (split; [done|]);
      (split; [done|]); (split; [done|]); apply Db_eq; try done; cbn; unfold view_paths in *; cbn; set_solver. }
  destruct Hpath as (tx1 & Hrun1 & Htodo1 & Heo1 & Hpo1 & Hc1).
  unfold add_ref. fold path e. rewrite <- Hc1. change (manifest_blob_refs (commit tx1 d)) with (view_edges tx1 d).
  destruct (decide (e ∈ view_edges tx1 d)) as [Hin|Hnin].
  - exists (with_todo rest tx1). split; [|done]. eapply rtc_l; [exact Hrun1|]. apply rtc_once.
    unfold run_stmt. rewrite Htodo1. cbn zeta. fold e. change (view_edges (with_todo rest tx1) d) with (view_edges tx1 d).
    by rewrite decide_True.
  - set (tx2 := mkTx (tx_paths_in tx1) (tx_paths_out tx1) ({[e]} ∪ tx_edges_in tx1) (tx_edges_out tx1) (tx_rows tx1)
                  (tx_reaps tx1) (BumpRow t b :: rest)).
    exists (with_row (t, blob_digest b) (bump now (blob_size b) (view_row tx1 d (t, blob_digest b))) (with_todo rest tx2)).
    split; [|split; [done|split; [done|split; [done|]]]].
    + eapply rtc_l; [exact Hrun1|]. apply (rtc_l _ _ tx2).
      * unfold run_stmt. rewrite Htodo1. cbn zeta. fold e. change (view_edges (with_todo rest tx1) d) with (view_edges tx1 d).
        by rewrite decide_False.
      * by apply rtc_once.
    + apply Db_eq; [| |done..].
      * intros k. rewrite commit_row. cbn [set_refcounts set_edges blob_refcounts]. unfold view_row at 1. cbn [with_row tx_rows].
        destruct (decide (k = (t, blob_digest b))) as [->|Hne].
        -- by rewrite lookup_insert_eq, lookup_partial_alter_eq, commit_row.
        -- rewrite lookup_insert_ne, lookup_partial_alter_ne, commit_row by done. done.
      * cbn. unfold view_edges. cbn. set_solver.
Qed.

Lemma add_alone t p r m blobs :
  exists tx, runs_to (tx_begin (statements (AddRefs t p r m blobs))) tx /\ tx_todo tx = [] /\
    commit tx d = fst (add_refs None now t p r m blobs d).
Proof.
  assert (H : forall tx, tx_todo tx = statements (AddRefs t p r m blobs) -> tx_edges_out tx = ∅ -> tx_paths_out tx = ∅ ->
    exists tx', runs_to tx tx' /\ tx_todo tx' = [] /\
      commit tx' d = foldl (fun db b => add_ref now t p r m b db) (commit tx d) blobs).
  { induction blobs as [|b blobs IH]; intros tx Htodo He Hp; [exists tx; by split; [apply rtc_refl|]|].
    destruct (blob_alone t p r m b _ tx Htodo He Hp) as (tx1 & Hr1 & Ht1 & He1 & Hp1 & Hc1).
    destruct (IH tx1 Ht1 He1 Hp1) as (tx2 & Hr2 & Ht2 & Hc2). exists tx2. split; [by unfold runs_to in *; etrans|].
    split; [done|]. by rewrite Hc2, Hc1. }
  destruct (H (tx_begin (statements (AddRefs t p r m blobs)))) as (tx & Hr & Ht & Hc); [done..|].
  exists tx. split; [done|]. split; [done|]. rewrite Hc.
  assert (commit (tx_begin (statements (AddRefs t p r m blobs))) d = d) as ->.
  { apply Db_eq; [intros k; by rewrite commit_row|cbn; unfold view_edges; cbn; set_solver
      |cbn; unfold view_paths; cbn; set_solver|cbn; apply app_nil_r|done]. }
  by destruct blobs.
Qed.

Lemma remove_alone t m :
  exists tx, runs_to (tx_begin (statements (RemoveRefs t m))) tx /\ tx_todo tx = [] /\
    commit tx d = fst (remove_refs None now t m d).
Proof.
  assert (H : forall (es : list (str * str * str)) tx, tx_todo tx = map (fun e => DecrementRow t e.2) es ->
    exists tx', runs_to tx tx' /\ tx_todo tx' = [] /\
      commit tx' d = foldl (fun db e => set_refcounts (partial_alter (decrement now) (t, e.2)) db) (commit tx d) es).
  { induction es as [|e es IH]; intros tx Htodo; [exists tx; by split; [apply rtc_refl|]|].
    set (tx1 := with_row (t, e.2) (decrement now (view_row tx d (t, e.2))) (with_todo (map (fun e => DecrementRow t e.2) es) tx)).
    destruct (IH tx1 eq_refl) as (tx2 & Hr2 & Ht2 & Hc2). exists tx2.
    split; [eapply rtc_l; [|exact Hr2]; unfold run_stmt; by rewrite Htodo|]. split; [done|]. rewrite Hc2. cbn [foldl].
    f_equal. apply Db_eq; [|done..]. intros k. rewrite commit_row. cbn [set_refcounts blob_refcounts].
    unfold view_row at 1. cbn [tx1 with_row tx_rows]. destruct (decide (k = (t, e.2))) as [->|Hne].
    - by rewrite lookup_insert_eq, lookup_partial_alter_eq, commit_row.
    - rewrite lookup_insert_ne, lookup_partial_alter_ne, commit_row by done. done. }
  set (taken := taken_edges (manifest_blob_refs d) t m (tx_begin []) d).
  assert (Htaken : taken = edges_of t m d).
  { unfold taken, taken_edges. cbn. apply set_eq. intros e. unfold edges_of.
    rewrite elem_of_difference, elem_of_intersection, elem_of_filter. set_solver. }
  destruct (H (elements taken) (mkTx ∅ ∅ ∅ (∅ ∪ taken) ∅ [] (map (fun e => DecrementRow t e.2) (elements taken) ++ [])))
    as (tx & Hr & Ht & Hc); [by rewrite app_nil_r|].
  exists tx. split; [by eapply rtc_l|]. split; [done|]. rewrite Hc, Htaken. unfold remove_refs, transaction. cbn [fst].
  f_equal. apply Db_eq; [intros k; by rewrite commit_row|cbn; unfold view_edges; cbn; set_solver
      |cbn; unfold view_paths; cbn; set_solver|cbn; apply app_nil_r|done].
Qed.

Lemma reap_alone t x freed row :
  blob_refcounts d !! (t, x) = Some row -> refcount row = 0 ->
  exists tx, runs_to (tx_begin (statements (ReapBlob t x freed))) tx /\ tx_todo tx = [] /\
    commit tx d = drop_rows t x freed d.
Proof.
  intros Hrow Hz. eexists. split; [|split].
  - eapply rtc_l.
    { unfold run_stmt. cbn. unfold view_row. cbn. rewrite lookup_empty, Hrow, Hz. reflexivity. }
    do 3 (eapply rtc_l; [reflexivity|]). apply rtc_refl.
  - done.
  - apply Db_eq; [|cbn; unfold view_edges; cbn; set_solver|cbn; unfold view_paths; cbn; set_solver|done..].
    intros k. rewrite commit_row. unfold view_row. cbn. destruct (decide (k = (t, x))) as [->|Hne].
    + by rewrite lookup_insert_eq, lookup_delete_eq.
    + by rewrite !lookup_insert_ne, lookup_empty, lookup_delete_ne.
Qed.
End alone.

(** ** Properties *)

(** C9: Refcounts count.  Starting from empty tables, whatever manifest pushes,
    manifest deletes and reaps run, with their statements interleaved in any
    order the row locks of READ COMMITTED allow and each of them committing or
    rolled back at any point, the committed tables give every blob the number of
    its manifest edges as its refcount, and the grace timer runs exactly on the
    rows at zero. *)
Theorem refcounts_count (l : list PgAction) (d : Db) (txs : gmap nat Tx)
    (Hrun : rc_run l (db_empty, ∅) = Some (d, txs)) :
  (forall t b, edge_count t b d = default 0 (refcount <$> blob_refcounts d !! (t, b))) /\
  (forall k row, blob_refcounts d !! k = Some row ->
     0 <= refcount row /\ (refcount row = 0 <-> zeroed_at row <> None)).
Proof.
  destruct (rc_run_ok _ _ _ rc_ok_empty Hrun) as [[Hc Ht] _ _]. split; [apply Hc|]. intros k row Hrow. by apply (Ht k).
Qed.

Definition demo_blob : BlobDescriptor := mkBlobDescriptor "sha256:11" 4.

Definition run_n (i : nat) (n : nat) (now : Z) (snapshot : gset (str * str * str)) : list PgAction :=
  replicate n (Run i now snapshot).

(** Two pushes of manifests with the same layer, their statements in turn. *)
Definition two_pushes : list PgAction :=
  [Begin 0 (AddRefs "t" "p" "r" "m1" [demo_blob]); Begin 1 (AddRefs "t" "p" "q" "m2" [demo_blob]);
   Run 0 5 ∅; Run 1 5 ∅; Run 0 5 ∅; Run 1 5 ∅; Run 0 5 ∅; Commit 0; Run 1 5 ∅; Commit 1].

Lemma refcounts_count_witness :
  exists d txs, rc_run two_pushes (db_empty, ∅) = Some (d, txs) /\
    edge_count "t" "sha256:11" d = default 0 (refcount <$> blob_refcounts d !! ("t" : str, "sha256:11" : str)).
Proof.
  assert (Hsome : match rc_run two_pushes (db_empty, ∅) with Some _ => true | None => false end = true)
    by (vm_compute; reflexivity).
  destruct (rc_run two_pushes (db_empty, ∅)) as [[d txs]|] eqn:Hrun; [|discriminate Hsome].
  exists d, txs. split; [reflexivity|]. exact (proj1 (refcounts_count two_pushes d txs Hrun) "t" "sha256:11").
Defined.

(** A push, its delete, and a second push of the same layer that finds the path
    recorded; then the reaper takes the row, whose count is still zero, and the
    push adds its edge. *)
Definition raced_push : list PgAction :=
  [Begin 0 (AddRefs "t" "p" "r" "m1" [demo_blob])] ++ run_n 0 3 5 ∅ ++ [Commit 0] ++
  [Begin 1 (RemoveRefs "t" "m1")] ++ run_n 1 2 6 {[("t", "m1", "sha256:11")]} ++ [Commit 1] ++
  [Begin 2 (AddRefs "t" "p" "r" "m2" [demo_blob]); Run 2 200000 ∅;
   Begin 3 (ReapBlob "t" "sha256:11" 4)] ++ run_n 3 4 200000 ∅ ++ [Commit 3] ++ run_n 2 2 200000 ∅ ++ [Commit 2].

(** A push and the reaper can pass each other: the push is committed with its
    edge and a count of one, and the reaper has deleted the objects of the blob
    and the only record of its path. *)
Theorem push_races_reaper :
  match rc_run raced_push (db_empty, ∅) with
  | Some (d, _) =>
      ("t", "m2", "sha256:11") ∈ manifest_blob_refs d /\
      refcount <$> blob_refcounts d !! ("t" : str, "sha256:11" : str) = Some 1 /\
      gc_reaps d = [("t" : str, "sha256:11" : str, 4)] /\ blob_paths d = ∅
  | None => False
  end.
Proof.
  assert (H : match rc_run raced_push (db_empty, ∅) with
              | Some (d, _) =>
                  bool_decide (("t", "m2", "sha256:11") ∈ manifest_blob_refs d /\
                    refcount <$> blob_refcounts d !! ("t" : str, "sha256:11" : str) = Some 1 /\
                    gc_reaps d = [("t" : str, "sha256:11" : str, 4)] /\ blob_paths d = ∅)
              | None => false
              end = true) by (vm_compute; reflexivity).
  destruct (rc_run raced_push (db_empty, ∅)) as [[d txs]|]; [|discriminate H]. exact (bool_decide_eq_true_1 _ H).
Qed.
