(* ===== verification/AuditLog.v ===== *)
(** * Hash-chained audit log ([crates/specton-audit])

    Events and their canonical payload, the row hash, the in-memory sink
    (append, query, get, verification and key rotation), and the Postgres sink
    with the columns it stores and the phases of an append.  HMAC, hex and JSON
    serialization are library code and parameters. *)

From S2P Require Import Prelude Json Effects.

Local Open Scope Z_scope.

(** ** Events ([event.rs]) *)

Inductive Category : Type :=
| Auth | Push | Pull | Delete | Sign | Promote | Policy | Key | Admin | Rebuild | Scan.

Definition category_as_str (c : Category) : str :=
  match c with
  | Auth => "auth"
  | Push => "push"
  | Pull => "pull"
  | Delete => "delete"
  | Sign => "sign"
  | Promote => "promote"
  | Policy => "policy"
  | Key => "key"
  | Admin => "admin"
  | Rebuild => "rebuild"
  | Scan => "scan"
  end.

Definition category_parse (s : str) : option Category :=
  if str_eqb s "auth" then Some Auth
  else if str_eqb s "push" then Some Push
  else if str_eqb s "pull" then Some Pull
  else if str_eqb s "delete" then Some Delete
  else if str_eqb s "sign" then Some Sign
  else if str_eqb s "promote" then Some Promote
  else if str_eqb s "policy" then Some Policy
  else if str_eqb s "key" then Some Key
  else if str_eqb s "admin" then Some Admin
  else if str_eqb s "rebuild" then Some Rebuild
  else if str_eqb s "scan" then Some Scan
  else None.

Record Actor : Type := mkActor {
  sub : str;
  role : option str;
  source_ip : option str;
  ua : option str
}.

Definition actor_system : Actor := mkActor "system" (Some "system") None None.

Record Subject : Type := mkSubject {
  subj_tenant : option str;
  subj_project : option str;
  subj_repo : option str;
  subj_reference : option str;
  subj_digest : option str
}.

Inductive Outcome : Type :=
| Success
| Failure (code : str).

Definition outcome_as_str (o : Outcome) : str :=
  match o with
  | Success => "success"
  | Failure _ => "failure"
  end.

Definition error_code (o : Outcome) : option str :=
  match o with
  | Success => None
  | Failure code => Some code
  end.

(** [at] is in nanoseconds since the epoch; [attributes] in key order. *)
Record AuditEvent : Type := mkAuditEvent {
  at_ : Z;
  category : Category;
  action : str;
  actor : Actor;
  subject : option Subject;
  outcome : Outcome;
  attributes : list (str * json)
}.

Record AuditRow : Type := mkAuditRow {
  id : Z;
  event : AuditEvent;
  tenant : option str;
  prev_hash : option str;
  row_hash : str;
  hmac_key_id : str
}.

Record CanonicalPayload : Type := mkCanonicalPayload {
  cp_at : Z;
  cp_category : str;
  cp_action : str;
  cp_actor_sub : str;
  cp_actor_ip : option str;
  cp_actor_ua : option str;
  cp_subject : option Subject;
  cp_outcome : str;
  cp_error_code : option str;
  cp_attributes : list (str * json);
  cp_hmac_key_id : str
}.

(** ** Row hashes ([hash.rs]) *)

Definition GENESIS_PREV : str := replicate 32 "000"%char.

Inductive AuditError : Type :=
| Sqlx (e : str)
| HashCanonical (e : str)
| HashBadKey
| UnknownKey (key_id : str)
| NotFoundRow (row : Z)
| Unavailable (e : str)
| Panicked.

Definition payload_of (e : AuditEvent) (key_id : str) : CanonicalPayload :=
  mkCanonicalPayload (at_ e) (category_as_str (category e)) (action e) (sub (actor e))
    (source_ip (actor e)) (ua (actor e)) (subject e) (outcome_as_str (outcome e))
    (error_code (outcome e)) (attributes e) key_id.

Definition as_hash32 (bytes : str) : option str :=
  if (length bytes =? 32)%nat then Some bytes else None.

Record ChainVerdict : Type := mkChainVerdict {
  ok : bool;
  checked : Z;
  broken_at : option Z;
  expected_hash : option str;
  actual_hash : option str
}.

Record AuditQuery : Type := mkAuditQuery {
  since : option Z;
  until : option Z;
  q_actor : option str;
  q_category : option Category;
  q_tenant : option str;
  limit : nat
}.

#[global] Instance Category_eq_dec : EqDecision Category.
Proof. solve_decision. Defined.

Record InMemoryAudit : Type := mkInMemoryAudit {
  rows : list AuditRow;
  next_id : Z;
  hmac_key : str;
  active_id : str;
  keys : gmap str str
}.

Definition tenant_of (e : AuditEvent) : option str :=
  match subject e with
  | Some s => subj_tenant s
  | None => None
  end.

Section crypto.
(** [serde_json::to_vec], [Hmac::new_from_slice] with [finalize], [hex::encode]. *)
Context (to_vec : CanonicalPayload -> result str str)
        (hmac : str -> option (str -> str))
        (hex : str -> str).

Definition canonical_bytes (e : AuditEvent) (key_id : str) : result str str :=
  to_vec (payload_of e key_id).

Definition compute_row_hash (key prev : str) (e : AuditEvent) (key_id : str) : result str AuditError :=
  match canonical_bytes e key_id with
  | Err x => Err (HashCanonical x)
  | Ok canonical =>
      match hmac key with
      | None => Err HashBadKey
      | Some mac => Ok (mac (prev ++ canonical))
      end
  end.

(** ** The in-memory sink ([memory.rs]) *)

Definition audit_new (key key_id : str) : InMemoryAudit :=
  mkInMemoryAudit [] 1 key key_id {[key_id := key]}.

Definition register_and_activate (new_id new_key : str) (s : InMemoryAudit) : InMemoryAudit :=
  mkInMemoryAudit (rows s) (next_id s) new_key new_id (<[new_id := new_key]> (keys s)).

Definition resolve_key (key_id : str) (s : InMemoryAudit) : result str AuditError :=
  if str_eqb key_id (active_id s) then Ok (hmac_key s)
  else ok_or (keys s !! key_id) (UnknownKey key_id).

(** The previous hash a new row links to; [copy_from_slice] panics on a row
    hash of another length. *)
Definition tip_hash (rs : list AuditRow) : result str AuditError :=
  match last rs with
  | Some r => ok_or (as_hash32 (row_hash r)) Panicked
  | None => Ok GENESIS_PREV
  end.

Definition append (e : AuditEvent) : M InMemoryAudit AuditError Z :=
  fun s =>
    match tip_hash (rows s) with
    | Err x => (s, Err x)
    | Ok prev =>
        match compute_row_hash (hmac_key s) prev e (active_id s) with
        | Err x => (s, Err x)
        | Ok h =>
            let row := mkAuditRow (next_id s) e (tenant_of e) (Some prev) h (active_id s) in
            (mkInMemoryAudit (rows s ++ [row]) (next_id s + 1) (hmac_key s) (active_id s) (keys s),
             Ok (next_id s))
        end
    end.

Definition opt_is {A} `{EqDecision A} (o : option A) (x : A) : bool :=
  match o with
  | Some y => bool_decide (x = y)
  | None => true
  end.

Definition row_selected (q : AuditQuery) (r : AuditRow) : bool :=
  match since q with
  | Some t => negb (at_ (event r) <? t)
  | None => true
  end
  && match until q with
     | Some t => negb (t <? at_ (event r))
     | None => true
     end
  && opt_is (q_actor q) (sub (actor (event r)))
  && opt_is (q_category q) (category (event r))
  && match q_tenant q with
     | Some t => bool_decide (tenant r = Some t)
     | None => true
     end.

Definition query (q : AuditQuery) (s : InMemoryAudit) : list AuditRow :=
  let lim := match limit q with
             | O => 100%nat
             | n => n
             end in
  take lim (filter (fun r => row_selected q r = true) (reverse (rows s))).

Definition get (i : Z) (s : InMemoryAudit) : result AuditRow AuditError :=
  ok_or (snd <$> list_find (fun r => id r = i) (rows s)) (NotFoundRow i).

(** The verification loop over the rows of the range.  [resolve] finds the key
    of a row, and [shown] is how a sink reports the stored link when the
    expected one has a bad length; the two sinks differ only in these. *)
Fixpoint verify_rows (resolve : str -> result str AuditError) (shown : option str -> option str)
    (rs : list AuditRow) (expected_prev : str) (n : Z) : result ChainVerdict AuditError :=
  match rs with
  | [] => Ok (mkChainVerdict true n None None None)
  | row :: rs' =>
      match resolve (hmac_key_id row) with
      | Err x => Err x
      | Ok key =>
          if negb (length expected_prev =? 32)%nat then
            Ok (mkChainVerdict false n (Some (id row)) (Some (hex expected_prev))
                  (shown (prev_hash row)))
          else
            let mismatch := match prev_hash row with
                            | Some p => if str_eqb p expected_prev then None else Some p
                            | None => None
                            end in
            match mismatch with
            | Some p =>
                Ok (mkChainVerdict false n (Some (id row)) (Some (hex expected_prev)) (Some (hex p)))
            | None =>
                match compute_row_hash key expected_prev (event row) (hmac_key_id row) with
                | Err x => Err x
                | Ok h =>
                    if str_eqb h (row_hash row) then verify_rows resolve shown rs' (row_hash row) (n + 1)
                    else Ok (mkChainVerdict false n (Some (id row)) (Some (hex h))
                               (Some (hex (row_hash row))))
                end
            end
      end
  end.

Definition in_range (from to : Z) (r : AuditRow) : bool := (from <=? id r) && (id r <=? to).

Definition verify_chain (from to : Z) (s : InMemoryAudit) : result ChainVerdict AuditError :=
  let slice := filter (fun r => in_range from to r = true) (rows s) in
  let before := last (filter (fun r => id r < from) (rows s)) in
  let expected_prev :=
    match before with
    | Some b => row_hash b
    | None =>
        if 1 <? from then
          match slice with
          | first :: _ => default GENESIS_PREV (prev_hash first)
          | [] => GENESIS_PREV
          end
        else GENESIS_PREV
    end in
  verify_rows (fun k => resolve_key k s) (fun p => Some (hex (default [] p))) slice expected_prev 0.

(** ** The Postgres sink ([postgres.rs]) *)

Record Keyring : Type := mkKeyring {
  kr_active : str;
  kr_keys : gmap str str
}.

Definition keyring_single (key_id key : str) : Keyring := mkKeyring key_id {[key_id := key]}.

Definition keyring_get (key_id : str) (kr : Keyring) : result str AuditError :=
  ok_or (kr_keys kr !! key_id) (UnknownKey key_id).

Definition active_key (kr : Keyring) : result str AuditError := keyring_get (kr_active kr) kr.

Definition keyring_rotate (new_id new_key : str) (kr : Keyring) : Keyring :=
  mkKeyring new_id (<[new_id := new_key]> (kr_keys kr)).

(** The columns of [registry_audit_log]; the JSONB columns hold the values
    they were given. *)
Record DbRow : Type := mkDbRow {
  c_id : Z;
  c_at : Z;
  c_tenant : option str;
  c_category : str;
  c_action : str;
  c_actor_sub : str;
  c_actor_ip : option str;
  c_actor_ua : option str;
  c_subject : option Subject;
  c_outcome : str;
  c_error_code : option str;
  c_attributes : list (str * json);
  c_prev_hash : option str;
  c_row_hash : str;
  c_hmac_key_id : str
}.

Definition row_from_db (r : DbRow) : result AuditRow AuditError :=
  match category_parse (c_category r) with
  | None => Err (Unavailable "unknown category")
  | Some cat =>
      let finish o :=
        Ok (mkAuditRow (c_id r)
              (mkAuditEvent (c_at r) cat (c_action r)
                 (mkActor (c_actor_sub r) None (c_actor_ip r) (c_actor_ua r))
                 (c_subject r) o (c_attributes r))
              (c_tenant r) (c_prev_hash r) (c_row_hash r) (c_hmac_key_id r)) in
      if str_eqb (c_outcome r) "success" then finish Success
      else if str_eqb (c_outcome r) "failure" then
        finish (Failure (default "unknown" (c_error_code r)))
      else Err (Unavailable "unknown outcome")
  end.

Record PgAudit : Type := mkPgAudit {
  table : list DbRow;
  sequence : Z;
  keyring : Keyring;
  key_rows : gmap str bool
}.

(** The upsert of the active key, then the others marked inactive. *)
Definition ensure_key_row (p : PgAudit) : PgAudit :=
  let a := kr_active (keyring p) in
  mkPgAudit (table p) (sequence p) (keyring p)
    (<[a := true]> ((fun _ => false) <$> key_rows p)).

Definition rotate_key (new_id new_key : str) (p : PgAudit) : PgAudit :=
  ensure_key_row (mkPgAudit (table p) (sequence p) (keyring_rotate new_id new_key (keyring p)) (key_rows p)).

(** The hash the locked tip row gives a new row. *)
Definition pg_prev (tip : option DbRow) : str :=
  match tip with
  | Some r => default GENESIS_PREV (as_hash32 (c_row_hash r))
  | None => GENESIS_PREV
  end.

(** [timestamptz] keeps microseconds: [micros] is the value stored for an
    instant in nanoseconds. *)
Context (micros : Z -> Z).

Definition db_row (row_id : Z) (e : AuditEvent) (prev h key_id : str) : DbRow :=
  mkDbRow row_id (micros (at_ e)) (tenant_of e) (category_as_str (category e)) (action e)
    (sub (actor e)) (source_ip (actor e)) (ua (actor e)) (subject e) (outcome_as_str (outcome e))
    (error_code (outcome e)) (attributes e) (Some prev) h key_id.

(** The insert and commit of a transaction that read [tip]; the key must be
    registered. *)
Definition pg_insert (tip : option DbRow) (e : AuditEvent) (p : PgAudit) :
    PgAudit * result Z AuditError :=
  match active_key (keyring p) with
  | Err x => (p, Err x)
  | Ok key =>
      let key_id := kr_active (keyring p) in
      match compute_row_hash key (pg_prev tip) e key_id with
      | Err x => (p, Err x)
      | Ok h =>
          match key_rows p !! key_id with
          | None => (p, Err (Sqlx "foreign key violation"))
          | Some _ =>
              (mkPgAudit (table p ++ [db_row (sequence p) e (pg_prev tip) h key_id])
                 (sequence p + 1) (keyring p) (key_rows p), Ok (sequence p))
          end
      end
  end.

(** [append] with no other transaction in between. *)
Definition pg_append (e : AuditEvent) : M PgAudit AuditError Z := fun p => pg_insert (last (table p)) e p.

Fixpoint rows_from_db (rs : list DbRow) : result (list AuditRow) AuditError :=
  match rs with
  | [] => Ok []
  | r :: rs' =>
      match row_from_db r with
      | Err x => Err x
      | Ok row => match rows_from_db rs' with
                  | Err x => Err x
                  | Ok rows => Ok (row :: rows)
                  end
      end
  end.

Definition pg_selected (q : AuditQuery) (r : DbRow) : bool :=
  match since q with Some t => t <=? c_at r | None => true end
  && match until q with Some t => c_at r <=? t | None => true end
  && opt_is (q_actor q) (c_actor_sub r)
  && match q_category q with
     | Some c => str_eqb (c_category r) (category_as_str c)
     | None => true
     end
  && match q_tenant q with
     | Some t => bool_decide (c_tenant r = Some t)
     | None => true
     end.

Definition pg_query (q : AuditQuery) (p : PgAudit) : result (list AuditRow) AuditError :=
  let lim := match limit q with
             | O => 100%nat
             | n => n
             end in
  rows_from_db (take lim (filter (fun r => pg_selected q r = true) (reverse (table p)))).

Definition pg_get (i : Z) (p : PgAudit) : result AuditRow AuditError :=
  match list_find (fun r => c_id r = i) (table p) with
  | Some (_, r) => row_from_db r
  | None => Err (NotFoundRow i)
  end.

(** The loop decodes each row before checking it. *)
Fixpoint pg_verify_rows (kr : Keyring) (rs : list DbRow) (expected_prev : str) (n : Z) :
    result ChainVerdict AuditError :=
  match rs with
  | [] => Ok (mkChainVerdict true n None None None)
  | r :: rs' =>
      match row_from_db r with
      | Err x => Err x
      | Ok row =>
          match verify_rows (fun k => keyring_get k kr) (option_map hex) [row] expected_prev n with
          | Ok v => if ok v then pg_verify_rows kr rs' (row_hash row) (n + 1) else Ok v
          | Err x => Err x
          end
      end
  end.

Definition pg_verify_chain (from to : Z) (p : PgAudit) : result ChainVerdict AuditError :=
  let slice := filter (fun r => from <= c_id r <= to) (table p) in
  let expected_prev :=
    if 1 <? from then
      match last (filter (fun r => c_id r < from) (table p)) with
      | Some b => c_row_hash b
      | None => GENESIS_PREV
      end
    else GENESIS_PREV in
  pg_verify_rows (keyring p) slice expected_prev 0.
End crypto.

(** ** Concurrent appends to Postgres

    Under the default isolation level a statement sees the rows committed
    before it began.  [SELECT .. ORDER BY id DESC LIMIT 1 FOR UPDATE] so
    chooses the tip when it begins, then waits for the lock on that row; a row
    that was only locked by others is returned unchanged once the lock is
    free.  The lock is held until commit. *)

Inductive pg_phase : Type :=
| Begun
| Waiting (tip : option DbRow)
| Holding (tip : option DbRow)
| Committed.

Record PgWorld : Type := mkPgWorld {
  pg : PgAudit;
  locks : gmap Z nat;
  txs : list (AuditEvent * pg_phase)
}.

Section concurrent.
Context (to_vec : CanonicalPayload -> result str str)
        (hmac : str -> option (str -> str))
        (micros : Z -> Z).

Definition set_phase (i : nat) (e : AuditEvent) (ph : pg_phase) (w : PgWorld) : list (AuditEvent * pg_phase) :=
  <[i := (e, ph)]> (txs w).

Inductive pg_step : PgWorld -> PgWorld -> Prop :=
| pg_begin w e : pg_step w (mkPgWorld (pg w) (locks w) (txs w ++ [(e, Begun)]))
| pg_select w i e :
    txs w !! i = Some (e, Begun) ->
    pg_step w (mkPgWorld (pg w) (locks w) (set_phase i e (Waiting (last (table (pg w)))) w))
| pg_lock_row w i e r :
    txs w !! i = Some (e, Waiting (Some r)) -> locks w !! c_id r = None ->
    pg_step w (mkPgWorld (pg w) (<[c_id r := i]> (locks w)) (set_phase i e (Holding (Some r)) w))
| pg_lock_none w i e :
    txs w !! i = Some (e, Waiting None) ->
    pg_step w (mkPgWorld (pg w) (locks w) (set_phase i e (Holding None) w))
| pg_commit w i e tip p r :
    txs w !! i = Some (e, Holding tip) ->
    pg_insert to_vec hmac micros tip e (pg w) = (p, Ok r) ->
    pg_step w (mkPgWorld p (filter (fun kv => kv.2 <> i) (locks w)) (set_phase i e Committed w)).
End concurrent.
