(* ===== verification/AuditProofs.v ===== *)
(** * Correctness of the audit chain

    What a verified chain is ([linked]), that the sinks produce one, that a
    changed chain with the same tip needs an HMAC collision, and the cases in
    which the Postgres sink does not keep the promise. *)

From S2P Require Import Prelude Json Effects AuditLog.

Local Open Scope Z_scope.

(** ** The specification of a chain *)

Section chain.
Context (to_vec : CanonicalPayload -> result str str)
        (hmac : str -> option (str -> str)).
Implicit Types (resolve : str -> result str AuditError) (rs : list AuditRow).

(** Every row hashes its event and the hash of the row before it. *)
Fixpoint linked resolve (prev : str) rs : Prop :=
  match rs with
  | [] => True
  | row :: rs' =>
      length prev = 32%nat /\
      (prev_hash row = None \/ prev_hash row = Some prev) /\
      (exists key, resolve (hmac_key_id row) = Ok key /\
         compute_row_hash to_vec hmac key prev (event row) (hmac_key_id row) = Ok (row_hash row)) /\
      linked resolve (row_hash row) rs'
  end.

(** The hash a chain ends with. *)
Definition end_hash (prev : str) rs : str :=
  match last rs with
  | Some r => row_hash r
  | None => prev
  end.

Lemma linked_app resolve prev rs1 rs2 :
  linked resolve prev (rs1 ++ rs2) <->
  linked resolve prev rs1 /\ linked resolve (end_hash prev rs1) rs2.
Proof.
  revert prev. induction rs1 as [|row rs1 IH]; intros prev; cbn; [tauto|].
  rewrite IH. replace (end_hash prev (row :: rs1)) with (end_hash (row_hash row) rs1).
  - tauto.
  - unfold end_hash. destruct rs1 as [|r rs1]; [done|]. change (last (row :: r :: rs1)) with (last (r :: rs1)).
    by destruct (last (r :: rs1)) eqn:E; [|apply last_None in E].
Qed.

(** Verification succeeds exactly on linked rows. *)
Lemma verify_rows_iff (hex : str -> str) resolve shown rs prev n v :
  verify_rows to_vec hmac hex resolve shown rs prev n = Ok v ->
  (ok v = true <-> linked resolve prev rs) /\
  (ok v = true -> v = mkChainVerdict true (n + Z.of_nat (length rs)) None None None).
Proof.
  revert prev n. induction rs as [|row rs IH]; intros prev n; cbn.
  { intros [= <-]. cbn. rewrite Z.add_0_r. done. }
  destruct (resolve (hmac_key_id row)) as [key|x] eqn:Hk; [|done].
  destruct (Nat.eqb_spec (length prev) 32) as [Hl|Hl]; cbn.
  2: { intros [= <-]. cbn. split; [|done]. split; [done|]. by intros (? & _). }
  destruct (prev_hash row) as [p|] eqn:Hp.
  1: destruct (str_eqb_spec p prev) as [->|Hne].
  2: { intros [= <-]. cbn. split; [|done]. split; [done|].
       intros (_ & [?|[= ?]] & _); congruence. }
  all: destruct (compute_row_hash to_vec hmac key prev (event row) (hmac_key_id row)) as [h|] eqn:Hh; [|done].
  all: destruct (str_eqb_spec h (row_hash row)) as [->|Hne].
  2, 4: intros [= <-]; cbn; split; [|done]; split; [done|];
        intros (_ & _ & (key' & Hk' & Hh') & _); congruence.
  all: intros Hv; apply IH in Hv as [Hiff Hshape]; split;
    [rewrite Hiff; split; [intros Hlk; split_and!; [done|auto|eauto|done]|tauto]|].
  all: intros Hok; rewrite (Hshape Hok);
    by replace (n + 1 + Z.of_nat (length rs)) with (n + Z.of_nat (S (length rs))) by lia.
Qed.

Lemma verify_linked (hex : str -> str) resolve shown rs prev n :
  linked resolve prev rs ->
  verify_rows to_vec hmac hex resolve shown rs prev n =
  Ok (mkChainVerdict true (n + Z.of_nat (length rs)) None None None).
Proof.
  revert prev n. induction rs as [|row rs IH]; intros prev n; cbn.
  { by rewrite Z.add_0_r. }
  intros (Hl & Hp & (key & -> & ->) & Hrs). rewrite Hl. cbn.
  rewrite str_eqb_refl. destruct Hp as [->| ->]; rewrite ?str_eqb_refl;
    rewrite IH by done; by replace (n + 1 + Z.of_nat (length rs)) with (n + Z.of_nat (S (length rs))) by lia.
Qed.

Lemma linked_resolve resolve resolve' prev rs :
  (forall row, row ∈ rs -> resolve' (hmac_key_id row) = resolve (hmac_key_id row)) ->
  linked resolve prev rs -> linked resolve' prev rs.
Proof.
  revert prev. induction rs as [|row rs IH]; intros prev Hr; cbn; [done|].
  intros (Hl & Hp & (key & Hk & Hh) & Hrs). split_and!; [done|done| |].
  - exists key. rewrite Hr by left. done.
  - apply IH; [|done]. intros r Hin. apply Hr. by right.
Qed.

(** The verdict depends on the hashed payload and the links only. *)
Lemma linked_map resolve (f : AuditRow -> AuditRow) prev rs :
  (forall r, payload_of (event (f r)) (hmac_key_id (f r)) = payload_of (event r) (hmac_key_id r)) ->
  (forall r, prev_hash (f r) = prev_hash r /\ row_hash (f r) = row_hash r) ->
  linked resolve prev rs -> linked resolve prev (map f rs).
Proof.
  intros Hpay Hh. revert prev. induction rs as [|row rs IH]; intros prev; cbn; [done|].
  intros (Hl & Hp & (key & Hk & Hc) & Hrs). destruct (Hh row) as [-> Hrow]. rewrite Hrow.
  assert (Hid : hmac_key_id (f row) = hmac_key_id row).
  { pose proof (f_equal cp_hmac_key_id (Hpay row)) as He. exact He. }
  split_and!; [done|done| |by apply IH]. exists key. rewrite Hid. split; [done|].
  unfold compute_row_hash, canonical_bytes in *. rewrite <- Hid at 1. by rewrite Hpay.
Qed.
End chain.

(** ** Rows in id order *)

(** The ids of the rows are [a], [a + 1], ... *)
Fixpoint ids_from (a : Z) (rs : list AuditRow) : Prop :=
  match rs with
  | [] => True
  | r :: rs' => id r = a /\ ids_from (a + 1) rs'
  end.

Lemma ids_from_app a rs1 rs2 :
  ids_from a (rs1 ++ rs2) <-> ids_from a rs1 /\ ids_from (a + Z.of_nat (length rs1)) rs2.
Proof.
  revert a. induction rs1 as [|r rs1 IH]; intros a; cbn [app ids_from length].
  - rewrite Z.add_0_r. tauto.
  - rewrite IH. replace (a + 1 + Z.of_nat (length rs1)) with (a + Z.of_nat (S (length rs1))) by lia. tauto.
Qed.

Lemma ids_from_elem a rs r : ids_from a rs -> r ∈ rs -> a <= id r < a + Z.of_nat (length rs).
Proof.
  revert a. induction rs as [|x rs IH]; intros a; cbn [ids_from length]; [set_solver|].
  intros [Hx Hrs] [->|Hin]%elem_of_cons; [lia|]. specialize (IH _ Hrs Hin). lia.
Qed.

Lemma filter_none {A} (P : A -> Prop) `{!forall x, Decision (P x)} (l : list A) :
  (forall x, x ∈ l -> ~ P x) -> filter P l = [].
Proof.
  induction l as [|x l IH]; intros Hn; [done|]. rewrite filter_cons_False by (apply Hn; left).
  apply IH. intros y Hy. apply Hn. by right.
Qed.

(** The rows below, in and above a range of ids. *)
Lemma ids_split a rs (from to : Z) :
  ids_from a rs ->
  exists l3, rs = filter (fun r => id r < from) rs ++ filter (fun r => in_range from to r = true) rs ++ l3.
Proof.
  revert a. induction rs as [|r rs IH]; intros a; cbn [ids_from]; [by exists []|].
  intros [Hr Hrs]. destruct (IH _ Hrs) as [l3 Hl3].
  assert (Hge : forall x, x ∈ rs -> id r < id x) by (intros x Hx; pose proof (ids_from_elem _ _ _ Hrs Hx); lia).
  destruct (Z.lt_ge_cases (id r) from) as [Hlt|Hgefrom].
  - exists l3. rewrite filter_cons_True, filter_cons_False by (unfold in_range; lia).
    cbn. by rewrite <- Hl3.
  - rewrite (filter_none (fun r0 => id r0 < from) (r :: rs))
      by (intros x [->|Hx]%elem_of_cons; [lia|specialize (Hge x Hx); lia]).
    destruct (Z.le_gt_cases (id r) to) as [Hle|Hgt].
    + exists l3. rewrite filter_cons_True by (unfold in_range; lia). cbn. f_equal.
      rewrite (filter_none (fun r0 => id r0 < from) rs) in Hl3; [done|].
      intros x Hx. specialize (Hge x Hx). lia.
    + exists (r :: rs). rewrite filter_none; [done|].
      intros x [->|Hx]%elem_of_cons; unfold in_range; [lia|specialize (Hge x Hx); lia].
Qed.

(** ** The in-memory sink *)

Section memory.
Context (to_vec : CanonicalPayload -> result str str)
        (hmac : str -> option (str -> str))
        (hex : str -> str).
Context (Hlen : forall k mac m, hmac k = Some mac -> length (mac m) = 32%nat).

Record sink_ok (s : InMemoryAudit) : Prop := mkSinkOk {
  sink_linked : linked to_vec hmac (fun k => resolve_key k s) GENESIS_PREV (rows s);
  sink_ids : ids_from 1 (rows s);
  sink_next : next_id s = 1 + Z.of_nat (length (rows s));
  sink_hashes : Forall (fun r => length (row_hash r) = 32%nat) (rows s);
  sink_known : Forall (fun r => is_Some (keys s !! hmac_key_id r)) (rows s);
  sink_active : keys s !! active_id s = Some (hmac_key s)
}.

Lemma audit_new_ok key key_id : sink_ok (audit_new key key_id).
Proof. split; cbn; try done. by rewrite lookup_singleton_eq. Qed.

Lemma end_hash_length prev rs :
  length prev = 32%nat -> Forall (fun r => length (row_hash r) = 32%nat) rs ->
  length (end_hash prev rs) = 32%nat.
Proof.
  intros Hp HF. unfold end_hash. destruct (last rs) as [r|] eqn:E; [|done].
  rewrite Forall_forall in HF. apply HF. by apply last_Some_elem_of.
Qed.

Lemma tip_hash_end rs :
  Forall (fun r => length (row_hash r) = 32%nat) rs -> tip_hash rs = Ok (end_hash GENESIS_PREV rs).
Proof.
  intros HF. unfold tip_hash, end_hash. destruct (last rs) as [r|] eqn:E; [|done].
  unfold as_hash32. rewrite Forall_forall in HF. rewrite HF by by apply last_Some_elem_of. done.
Qed.

Lemma resolve_active s : resolve_key (active_id s) s = Ok (hmac_key s).
Proof. unfold resolve_key. by rewrite str_eqb_refl. Qed.

Lemma append_ok e s s' r :
  sink_ok s -> append to_vec hmac e s = (s', r) -> sink_ok s'.
Proof.
  intros [Hl Hi Hn Hh Hk Ha]. unfold append. rewrite (tip_hash_end _ Hh).
  destruct (compute_row_hash _ _ _ _ _ _) as [h|x] eqn:Hc; [|by intros [= <- <-]].
  intros [= <- <-]. set (prev := end_hash GENESIS_PREV (rows s)) in *.
  assert (Hlh : length h = 32%nat).
  { unfold compute_row_hash in Hc. repeat case_match; simplify_eq. by eapply Hlen. }
  split; cbn [rows next_id keys active_id hmac_key].
  - apply (proj2 (linked_app _ _ _ _ _ _)). split; [exact Hl|]. fold prev. cbn. split_and!.
    + apply end_hash_length; [done|exact Hh].
    + by right.
    + exists (hmac_key s). split; [exact (resolve_active s)|exact Hc].
    + done.
  - apply (proj2 (ids_from_app _ _ _)). split; [done|]. cbn [ids_from id]. split; [exact Hn|done].
  - rewrite length_app. cbn. lia.
  - apply Forall_app. split; [done|]. by constructor.
  - apply Forall_app. split; [done|]. constructor; [cbn; by rewrite Ha|constructor].
  - done.
Qed.

Lemma rotate_ok new_id new_key s :
  sink_ok s -> keys s !! new_id = None \/ keys s !! new_id = Some new_key ->
  sink_ok (register_and_activate new_id new_key s).
Proof.
  intros [Hl Hi Hn Hh Hk Ha] Hid. split; cbn; try done.
  - eapply linked_resolve; [|exact Hl]. intros row Hin. rewrite Forall_forall in Hk.
    destruct (Hk row Hin) as [k Hkr]. unfold resolve_key. cbn.
    destruct (str_eqb_spec (hmac_key_id row) new_id) as [He|Hne].
    + rewrite He in *. destruct Hid as [Hid|Hid]; [congruence|]. rewrite Hid.
      destruct (str_eqb_spec new_id (active_id s)) as [->|]; [congruence|done].
    + rewrite lookup_insert_ne by done. destruct (str_eqb_spec (hmac_key_id row) (active_id s)) as [He|]; [|done].
      rewrite He, Ha. done.
  - eapply Forall_impl; [exact Hk|]. intros row [k Hkr]. cbn in *.
    destruct (decide (hmac_key_id row = new_id)) as [->|]; [by rewrite lookup_insert_eq|].
    rewrite lookup_insert_ne by done. eauto.
  - by rewrite lookup_insert_eq.
Qed.

Lemma verify_chain_ok s from to :
  sink_ok s ->
  verify_chain to_vec hmac hex from to s =
  Ok (mkChainVerdict true
        (Z.of_nat (length (filter (fun r => in_range from to r = true) (rows s)))) None None None).
Proof.
  intros [Hl Hi Hn Hh Hk Ha]. unfold verify_chain. cbv zeta.
  destruct (ids_split 1 (rows s) from to Hi) as [l3 Hsplit].
  set (l1 := filter (fun r => id r < from) (rows s)) in *.
  set (l2 := filter (fun r => in_range from to r = true) (rows s)) in *.
  rewrite Hsplit in Hl. apply linked_app in Hl as [_ Hl]. apply linked_app in Hl as [Hl _].
  unfold end_hash in Hl. destruct (last l1) as [b|] eqn:El1.
  - by apply verify_linked.
  - assert (Hp : (if 1 <? from then match l2 with
                    | first :: _ => default GENESIS_PREV (prev_hash first)
                    | [] => GENESIS_PREV end else GENESIS_PREV) = GENESIS_PREV).
    { destruct (1 <? from); [|done]. destruct l2 as [|first l2']; [done|].
      cbn in Hl. destruct Hl as (_ & [->| ->] & _); done. }
    rewrite Hp. by apply verify_linked.
Qed.
End memory.

(** ** Tampering *)

Section tamper.
Context (to_vec : CanonicalPayload -> result str str)
        (hmac : str -> option (str -> str)).

(** The key and the message that verification hashes for each row. *)
Definition hash_input (resolve : str -> result str AuditError) (prev : str) (row : AuditRow) : option (str * str) :=
  match resolve (hmac_key_id row), canonical_bytes to_vec (event row) (hmac_key_id row) with
  | Ok key, Ok bytes => Some (key, prev ++ bytes)
  | _, _ => None
  end.

Fixpoint hash_inputs (resolve : str -> result str AuditError) (prev : str) (rs : list AuditRow) : list (option (str * str)) :=
  match rs with
  | [] => []
  | row :: rs' => hash_input resolve prev row :: hash_inputs resolve (row_hash row) rs'
  end.

(** At one place the two verifications hash different inputs to one value. *)
Definition hmac_collide (is1 is2 : list (option (str * str))) : Prop :=
  exists i k1 m1 k2 m2 mac1 mac2,
    is1 !! i = Some (Some (k1, m1)) /\ is2 !! i = Some (Some (k2, m2)) /\ (k1, m1) <> (k2, m2) /\
    hmac k1 = Some mac1 /\ hmac k2 = Some mac2 /\ mac1 m1 = mac2 m2.

Lemma hash_inputs_length resolve prev rs : length (hash_inputs resolve prev rs) = length rs.
Proof. revert prev. induction rs as [|row rs IH]; intros prev; cbn; [done|]. by rewrite IH. Qed.

Lemma hash_inputs_app resolve prev rs1 rs2 :
  hash_inputs resolve prev (rs1 ++ rs2) = hash_inputs resolve prev rs1 ++ hash_inputs resolve (end_hash prev rs1) rs2.
Proof.
  revert prev. induction rs1 as [|row rs1 IH]; intros prev; cbn; [done|]. rewrite IH. do 3 f_equal.
  unfold end_hash. destruct rs1 as [|r rs1]; [done|]. change (last (row :: r :: rs1)) with (last (r :: rs1)).
  by destruct (last (r :: rs1)) eqn:E; [|apply last_None in E].
Qed.

Definition same_content (a b : AuditRow) : Prop :=
  canonical_bytes to_vec (event a) (hmac_key_id a) = canonical_bytes to_vec (event b) (hmac_key_id b) /\
  row_hash a = row_hash b.

Lemma end_hash_snoc prev rs r : end_hash prev (rs ++ [r]) = row_hash r.
Proof. unfold end_hash. by rewrite last_snoc. Qed.

Lemma row_hash_inj resolve1 resolve2 key1 key2 p1 p2 a b h :
  length p1 = length p2 ->
  resolve1 (hmac_key_id a) = Ok key1 -> resolve2 (hmac_key_id b) = Ok key2 ->
  compute_row_hash to_vec hmac key1 p1 (event a) (hmac_key_id a) = Ok h ->
  compute_row_hash to_vec hmac key2 p2 (event b) (hmac_key_id b) = Ok h ->
  (p1 = p2 /\ canonical_bytes to_vec (event a) (hmac_key_id a) = canonical_bytes to_vec (event b) (hmac_key_id b)) \/
  hmac_collide [hash_input resolve1 p1 a] [hash_input resolve2 p2 b].
Proof.
  intros Hl Hr1 Hr2. unfold compute_row_hash, hash_input. rewrite Hr1, Hr2.
  destruct (canonical_bytes to_vec (event a) _) as [c1|]; [|done].
  destruct (canonical_bytes to_vec (event b) _) as [c2|]; [|by destruct (hmac key1)].
  destruct (hmac key1) as [mac1|] eqn:E1; [|done]. destruct (hmac key2) as [mac2|] eqn:E2; [|done].
  intros [= H1] [= H2]. destruct (decide ((key1, p1 ++ c1) = (key2, p2 ++ c2))) as [Heq|Hne].
  - left. injection Heq as _ Happ. apply app_inj_1 in Happ as [-> ->]; [done|exact Hl].
  - right. exists 0%nat, key1, (p1 ++ c1), key2, (p2 ++ c2), mac1, mac2. split_and!; [done..|congruence].
Qed.

Lemma hmac_collide_l is1 is2 js1 js2 : hmac_collide is1 is2 -> hmac_collide (is1 ++ js1) (is2 ++ js2).
Proof.
  intros (i & k1 & m1 & k2 & m2 & mac1 & mac2 & H1 & H2 & H). exists i, k1, m1, k2, m2, mac1, mac2.
  split; [by apply lookup_app_l_Some|]. split; [by apply lookup_app_l_Some|done].
Qed.

Lemma hmac_collide_r is1 is2 js1 js2 :
  length is1 = length is2 -> hmac_collide js1 js2 -> hmac_collide (is1 ++ js1) (is2 ++ js2).
Proof.
  intros Hl (i & k1 & m1 & k2 & m2 & mac1 & mac2 & H1 & H2 & H).
  exists (length is1 + i)%nat, k1, m1, k2, m2, mac1, mac2.
  split; [by rewrite lookup_app_add|]. split; [by rewrite Hl, lookup_app_add|done].
Qed.

Lemma linked_same_end resolve1 resolve2 prev rs1 rs2 :
  length rs1 = length rs2 ->
  linked to_vec hmac resolve1 prev rs1 -> linked to_vec hmac resolve2 prev rs2 ->
  end_hash prev rs1 = end_hash prev rs2 ->
  Forall2 same_content rs1 rs2 \/ hmac_collide (hash_inputs resolve1 prev rs1) (hash_inputs resolve2 prev rs2).
Proof.
  revert rs2. induction rs1 as [|a rs1 IH] using rev_ind; intros rs2 Hlen.
  { destruct rs2; [left; constructor|done]. }
  destruct rs2 as [|b rs2 _] using rev_ind; [by rewrite length_app in Hlen; cbn in Hlen; lia|].
  rewrite !length_app in Hlen. cbn in Hlen. rewrite !linked_app, !end_hash_snoc, !hash_inputs_app.
  intros [H1 Ha] [H2 Hb] Hend. cbn in Ha, Hb.
  destruct Ha as (Hla & _ & (ka & Hka & Hca) & _), Hb as (Hlb & _ & (kb & Hkb & Hcb) & _).
  rewrite <- Hend in Hcb.
  destruct (row_hash_inj resolve1 resolve2 _ _ _ _ _ _ _ (eq_trans Hla (eq_sym Hlb)) Hka Hkb Hca Hcb) as [[Hp Hc]|Hcol].
  2: { right. apply hmac_collide_r; [rewrite !hash_inputs_length; lia|exact Hcol]. }
  destruct (IH rs2 ltac:(lia) H1 H2 Hp) as [HF|]; [|right; by apply hmac_collide_l].
  left. apply Forall2_app; [done|]. constructor; [|constructor]. by split.
Qed.
End tamper.

(** ** Properties *)

(** The states of an in-memory sink: events are appended and keys rotated, in
    any order, to key ids that are new or already stand for that key. *)
Inductive sink_reach (to_vec : CanonicalPayload -> result str str) (hmac : str -> option (str -> str))
    (key key_id : str) : InMemoryAudit -> Prop :=
| reach_new : sink_reach to_vec hmac key key_id (audit_new key key_id)
| reach_append s s' e r :
    sink_reach to_vec hmac key key_id s -> append to_vec hmac e s = (s', r) ->
    sink_reach to_vec hmac key key_id s'
| reach_rotate s new_id new_key :
    sink_reach to_vec hmac key key_id s -> (keys s !! new_id = None \/ keys s !! new_id = Some new_key) ->
    sink_reach to_vec hmac key key_id (register_and_activate new_id new_key s).

(** C11: The log it writes is the log it accepts, as long as a key id stands for
    one key.  After any sequence of appends, some of which may fail, and of
    rotations to key ids that are new or already stand for the same key,
    [verify_chain] accepts every range of ids, reports no break, and counts
    exactly the rows of the range; ids are consecutive from 1.  (The code also
    accepts a rotation that gives another key to an id in use, after which
    earlier rows do not verify: [rotation_to_used_id].) *)
Theorem audit_chain_verifies (to_vec : CanonicalPayload -> result str str)
    (hmac : str -> option (str -> str)) (hex : str -> str) (key key_id : str) (s : InMemoryAudit)
    (Hlen : forall k mac m, hmac k = Some mac -> length (mac m) = 32%nat)
    (Hreach : sink_reach to_vec hmac key key_id s) (from to : Z) :
  ids_from 1 (rows s) /\
  verify_chain to_vec hmac hex from to s =
  Ok (mkChainVerdict true
        (Z.of_nat (length (filter (fun r => in_range from to r = true) (rows s)))) None None None).
Proof.
  assert (Hok : sink_ok to_vec hmac s).
  { induction Hreach as [|s0 s1 e r _ IH Happ|s0 nid nk _ IH Hf].
    - apply audit_new_ok.
    - by eapply append_ok.
    - by apply rotate_ok. }
  split; [apply Hok|]. by apply verify_chain_ok.
Qed.

(** A stand-in for the keyed hash: 32 bytes that depend on key and message. *)
Definition toy_mac (key msg : str) : str := take 32 (key ++ reverse msg ++ replicate 32 "0"%char).
Definition toy_hmac (key : str) : option (str -> str) := Some (toy_mac key).
Definition toy_to_vec (p : CanonicalPayload) : result str str :=
  Ok (cp_action p ++ cp_actor_sub p ++ dec (cp_at p)).

Lemma toy_hmac_length k mac m : toy_hmac k = Some mac -> length (mac m) = 32%nat.
Proof.
  intros [= <-]. unfold toy_mac. rewrite length_take, !length_app, length_replicate. lia.
Qed.

Definition demo_event (t : Z) : AuditEvent :=
  mkAuditEvent t Push "manifest.push" actor_system None Success [].

Lemma audit_chain_verifies_witness :
  let s1 := fst (append toy_to_vec toy_hmac (demo_event 1) (audit_new "k" "v1")) in
  let s2 := fst (append toy_to_vec toy_hmac (demo_event 2) (register_and_activate "v2" "k2" s1)) in
  verify_chain toy_to_vec toy_hmac (fun h => h) 1 2 s2 = Ok (mkChainVerdict true 2 None None None).
Proof.
  cbv zeta.
  set (s1 := fst (append toy_to_vec toy_hmac (demo_event 1) (audit_new "k" "v1"))).
  set (s2 := fst (append toy_to_vec toy_hmac (demo_event 2) (register_and_activate "v2" "k2" s1))).
  destruct (audit_chain_verifies toy_to_vec toy_hmac (fun h => h) "k" "v1" s2 toy_hmac_length) with (from := 1) (to := 2)
    as [_ H].
  - apply (reach_append _ _ _ _ (register_and_activate "v2" "k2" s1) s2 (demo_event 2) (Ok 2));
      [|apply run_eval; vm_compute; reflexivity].
    apply reach_rotate; [|left; vm_compute; reflexivity].
    apply (reach_append _ _ _ _ (audit_new "k" "v1") s1 (demo_event 1) (Ok 1));
      [apply reach_new|apply run_eval; vm_compute; reflexivity].
  - rewrite H. vm_compute. reflexivity.
Defined.

(** A rotation that gives a new key to the id in use breaks the log: the row
    written before it no longer verifies. *)
Theorem rotation_to_used_id :
  let s1 := fst (append toy_to_vec toy_hmac (demo_event 1) (audit_new "k" "v1")) in
  let accepted s := match verify_chain toy_to_vec toy_hmac (fun h => h) 1 1 s with Ok v => ok v | Err _ => false end in
  accepted s1 = true /\ accepted (register_and_activate "v1" "k2" s1) = false.
Proof. split; vm_compute; reflexivity. Qed.

(** C10: Tampering is evident.  If two logs of the same length both verify from
    the genesis hash and end with the same row hash, then they hold the same
    canonical bytes and the same hashes row by row, or at one row the two
    verifications feed different keys or messages to the keyed hash and get the
    same value: a collision that can be read off the two logs. *)
Theorem audit_tamper_evident (to_vec : CanonicalPayload -> result str str)
    (hmac : str -> option (str -> str)) (hex : str -> str)
    (resolve : str -> result str AuditError) (shown : option str -> option str)
    (rs1 rs2 : list AuditRow) (v1 v2 : ChainVerdict)
    (H1 : verify_rows to_vec hmac hex resolve shown rs1 GENESIS_PREV 0 = Ok v1)
    (H2 : verify_rows to_vec hmac hex resolve shown rs2 GENESIS_PREV 0 = Ok v2)
    (Hok1 : ok v1 = true) (Hok2 : ok v2 = true)
    (Hlen : length rs1 = length rs2)
    (Htip : end_hash GENESIS_PREV rs1 = end_hash GENESIS_PREV rs2) :
  Forall2 (same_content to_vec) rs1 rs2 \/
  hmac_collide hmac (hash_inputs to_vec resolve GENESIS_PREV rs1) (hash_inputs to_vec resolve GENESIS_PREV rs2).
Proof.
  apply (linked_same_end to_vec hmac resolve resolve GENESIS_PREV); [done| | |done].
  - apply verify_rows_iff in H1 as [Hiff _]. by apply Hiff.
  - apply verify_rows_iff in H2 as [Hiff _]. by apply Hiff.
Qed.

Lemma audit_tamper_evident_witness :
  let rs := rows (fst (append toy_to_vec toy_hmac (demo_event 1) (audit_new "k" "v1"))) in
  let inputs := hash_inputs toy_to_vec (fun _ => Ok "k") GENESIS_PREV rs in
  Forall2 (same_content toy_to_vec) rs rs \/ hmac_collide toy_hmac inputs inputs.
Proof.
  cbv zeta.
  apply (audit_tamper_evident toy_to_vec toy_hmac (fun h => h) (fun _ => Ok "k") (fun _ => None) _ _
    (mkChainVerdict true 1 None None None) (mkChainVerdict true 1 None None None));
    vm_compute; reflexivity.
Defined.

(** What the chain does not protect.  Rows whose id, tenant column or
    actor role are changed arbitrarily, with the hashed payload and the links
    left alone, verify exactly as before: these fields are stored and served
    but not covered by the row hash. *)
Theorem audit_unprotected_fields (to_vec : CanonicalPayload -> result str str)
    (hmac : str -> option (str -> str)) (hex : str -> str)
    (resolve : str -> result str AuditError) (shown : option str -> option str)
    (new_id : AuditRow -> Z) (new_tenant new_role : AuditRow -> option str)
    (rs : list AuditRow) (v : ChainVerdict)
    (Hv : verify_rows to_vec hmac hex resolve shown rs GENESIS_PREV 0 = Ok v) (Hok : ok v = true) :
  let tampered r :=
    let e := event r in
    let a := actor e in
    mkAuditRow (new_id r)
      (mkAuditEvent (at_ e) (category e) (action e) (mkActor (sub a) (new_role r) (source_ip a) (ua a))
         (subject e) (outcome e) (attributes e))
      (new_tenant r) (prev_hash r) (row_hash r) (hmac_key_id r) in
  verify_rows to_vec hmac hex resolve shown (map tampered rs) GENESIS_PREV 0 = Ok v.
Proof.
  cbv zeta. destruct (verify_rows_iff to_vec hmac hex resolve shown rs GENESIS_PREV 0 v Hv) as [Hiff Hshape].
  rewrite (Hshape Hok). apply Hiff in Hok. erewrite verify_linked.
  - by rewrite length_map.
  - by apply linked_map.
Qed.

Lemma audit_unprotected_fields_witness :
  exists rs, verify_rows toy_to_vec toy_hmac (fun h => h) (fun _ => Ok "k") (fun _ => None) rs GENESIS_PREV 0
    = Ok (mkChainVerdict true 1 None None None) /\
    map tenant rs = [Some "someone-else"].
Proof.
  set (rs := rows (fst (append toy_to_vec toy_hmac (demo_event 1) (audit_new "k" "v1")))).
  eexists. split.
  - apply (audit_unprotected_fields toy_to_vec toy_hmac (fun h => h) (fun _ => Ok "k") (fun _ => None)
      id (fun _ => Some "someone-else") (fun _ => Some "admin") rs);
      vm_compute; reflexivity.
  - vm_compute. reflexivity.
Defined.
