(* ===== verification/AuditPg.v ===== *)
(** * The Postgres audit sink

    Appends one after another produce a chain that verifies when event times
    fit the column's microseconds; an event time with nanoseconds breaks it,
    and so do two appends that overlap. *)

From S2P Require Import Prelude Json Effects AuditLog AuditProofs.

Local Open Scope Z_scope.

Lemma category_parse_as_str c : category_parse (category_as_str c) = Some c.
Proof. by destruct c. Qed.

Section postgres.
Context (to_vec : CanonicalPayload -> result str str)
        (hmac : str -> option (str -> str))
        (hex : str -> str)
        (micros : Z -> Z).

(** The event a stored row gives back: the time as stored, and no role. *)
Definition stored_event (e : AuditEvent) : AuditEvent :=
  mkAuditEvent (micros (at_ e)) (category e) (action e)
    (mkActor (sub (actor e)) None (source_ip (actor e)) (ua (actor e)))
    (subject e) (outcome e) (attributes e).

Lemma row_from_db_row i e prev h key_id :
  row_from_db (db_row micros i e prev h key_id) =
  Ok (mkAuditRow i (stored_event e) (tenant_of e) (Some prev) h key_id).
Proof.
  unfold row_from_db, db_row, stored_event. cbn. rewrite category_parse_as_str.
  by destruct (outcome e).
Qed.

Lemma rows_from_db_app l1 l2 r1 r2 :
  rows_from_db l1 = Ok r1 -> rows_from_db l2 = Ok r2 -> rows_from_db (l1 ++ l2) = Ok (r1 ++ r2).
Proof.
  revert r1. induction l1 as [|x l1 IH]; cbn; intros r1 H1 H2; [by injection H1 as <-|].
  destruct (row_from_db x); [|done]. destruct (rows_from_db l1) as [rows|]; [|done].
  injection H1 as <-. by rewrite (IH _ eq_refl H2).
Qed.

(** The loop over stored rows is the loop over the decoded rows. *)
Lemma pg_verify_decoded kr l rows prev n :
  rows_from_db l = Ok rows ->
  pg_verify_rows to_vec hmac hex kr l prev n =
  verify_rows to_vec hmac hex (fun k => keyring_get k kr) (option_map hex) rows prev n.
Proof.
  revert rows prev n. induction l as [|x l IH]; intros rows prev n; cbn; [by intros [= <-]|].
  destruct (row_from_db x) as [row|]; [|done]. destruct (rows_from_db l) as [rest|]; [|done].
  intros [= <-]. cbn [verify_rows]. destruct (keyring_get (hmac_key_id row) kr); [|done].
  destruct (negb _); [done|].
  destruct (prev_hash row) as [q|]; [destruct (str_eqb q prev); [|done]|];
    (destruct (compute_row_hash _ _ _ _ _ _) as [h|]; [|done]);
    (destruct (str_eqb h (row_hash row)); [|done]); by apply IH.
Qed.

(** A table whose rows decode to a chain, with ids below the sequence. *)
Record pg_ok (p : PgAudit) (rows : list AuditRow) : Prop := mkPgOk {
  pg_decoded : rows_from_db (table p) = Ok rows;
  pg_linked : linked to_vec hmac (fun k => keyring_get k (keyring p)) GENESIS_PREV rows;
  pg_hashes : Forall (fun r => length (c_row_hash r) = 32%nat) (table p);
  pg_ids : Forall (fun r => 1 <= c_id r < sequence p) (table p);
  pg_tip : end_hash GENESIS_PREV rows = pg_prev (last (table p))
}.

Lemma slice_all p : Forall (fun r => 1 <= c_id r < sequence p) (table p) ->
  filter (fun r => 1 <= c_id r <= sequence p) (table p) = table p.
Proof.
  generalize (table p). induction 1 as [|r l Hr _ IH]; [done|].
  rewrite filter_cons_True by lia. by rewrite IH.
Qed.

Lemma pg_verify_whole p rows :
  pg_ok p rows ->
  pg_verify_chain to_vec hmac hex 1 (sequence p) p =
  verify_rows to_vec hmac hex (fun k => keyring_get k (keyring p)) (option_map hex) rows GENESIS_PREV 0.
Proof.
  intros [Hd _ _ Hids _]. unfold pg_verify_chain. rewrite (slice_all p Hids). cbn.
  by apply pg_verify_decoded.
Qed.

(** What a committed insert did. *)
Lemma pg_insert_inv tip e p p' i :
  pg_insert to_vec hmac micros tip e p = (p', Ok i) ->
  exists key h, active_key (keyring p) = Ok key /\
    compute_row_hash to_vec hmac key (pg_prev tip) e (kr_active (keyring p)) = Ok h /\
    i = sequence p /\ keyring p' = keyring p /\ sequence p' = sequence p + 1 /\
    table p' = table p ++ [db_row micros i e (pg_prev tip) h (kr_active (keyring p))].
Proof.
  unfold pg_insert. destruct (active_key (keyring p)) as [key|]; [|done].
  destruct (compute_row_hash _ _ key _ _ _) as [h|] eqn:Hc; [|done].
  destruct (key_rows p !! _); [|done]. intros [= <- <-]. exists key, h. done.
Qed.

Context (Hlen : forall k mac m, hmac k = Some mac -> length (mac m) = 32%nat).

Lemma hash_length key prev e key_id h :
  compute_row_hash to_vec hmac key prev e key_id = Ok h -> length h = 32%nat.
Proof. unfold compute_row_hash. repeat case_match; intros; simplify_eq. by eapply Hlen. Qed.

Lemma pg_prev_length tip : length (pg_prev tip) = 32%nat.
Proof.
  unfold pg_prev, as_hash32. destruct tip as [r|]; [|done].
  destruct (Nat.eqb_spec (length (c_row_hash r)) 32); done.
Qed.

Lemma payload_stored e k : micros (at_ e) = at_ e -> payload_of (stored_event e) k = payload_of e k.
Proof. unfold payload_of. cbn. by intros ->. Qed.

(** An append on top of a chain: the rows it leaves, and whether they verify. *)
Lemma pg_append_table e p p' i rows :
  pg_ok p rows -> 1 <= sequence p -> pg_append to_vec hmac micros e p = (p', Ok i) ->
  exists key h, active_key (keyring p) = Ok key /\
    compute_row_hash to_vec hmac key (end_hash GENESIS_PREV rows) e (kr_active (keyring p)) = Ok h /\
    i = sequence p /\ keyring p' = keyring p /\
    rows_from_db (table p') =
      Ok (rows ++ [mkAuditRow i (stored_event e) (tenant_of e) (Some (end_hash GENESIS_PREV rows)) h
                     (kr_active (keyring p))]) /\
    Forall (fun r => 1 <= c_id r < sequence p') (table p') /\
    Forall (fun r => length (c_row_hash r) = 32%nat) (table p') /\
    sequence p' = sequence p + 1 /\ pg_prev (last (table p')) = h.
Proof.
  intros [Hd Hl Hh Hids Ht] Hseq (key & h & Hk & Hc & -> & Hkr & Hs & Htab)%pg_insert_inv.
  rewrite <- Ht in *. pose proof (hash_length _ _ _ _ _ Hc) as Hlh.
  exists key, h. split_and!; try done.
  - rewrite Htab. apply rows_from_db_app; [done|]. cbn. by rewrite row_from_db_row.
  - rewrite Htab, Hs. apply Forall_app. split.
    + eapply Forall_impl; [exact Hids|]. cbn. lia.
    + constructor; [cbn; lia|constructor].
  - rewrite Htab. apply Forall_app. split; [done|]. by constructor.
  - rewrite Htab, last_snoc. cbn. unfold as_hash32. by rewrite Hlh.
Qed.
Lemma pg_append_ok e p p' i rows :
  micros (at_ e) = at_ e ->
  pg_ok p rows -> 1 <= sequence p -> pg_append to_vec hmac micros e p = (p', Ok i) ->
  exists rows', pg_ok p' rows' /\ length rows' = S (length rows).
Proof.
  intros Hat Hok Hseq Happ.
  destruct (pg_append_table _ _ _ _ _ Hok Hseq Happ)
    as (key & h & Hk & Hc & -> & Hkr & Hdec & Hids & Hhs & Hs & Htip).
  exists (rows ++ [mkAuditRow (sequence p) (stored_event e) (tenant_of e)
    (Some (end_hash GENESIS_PREV rows)) h (kr_active (keyring p))]).
  split; [|rewrite length_app; cbn; lia]. split; try done.
  - rewrite Hkr. apply linked_app. split; [apply Hok|]. cbn [linked]. split_and!; [|by right| |done].
    + rewrite (pg_tip _ _ Hok). apply pg_prev_length.
    + exists key. split; [done|]. cbn [event hmac_key_id row_hash].
      unfold compute_row_hash, canonical_bytes in *. by rewrite payload_stored.
  - by rewrite end_hash_snoc, Htip.
Qed.

(** A chain with one more row at its end that does not link. *)
Lemma verify_break resolve shown (rows : list AuditRow) row prev n key h :
  linked to_vec hmac resolve prev rows -> length (end_hash prev rows) = 32%nat ->
  resolve (hmac_key_id row) = Ok key ->
  (exists p, prev_hash row = Some p /\ p <> end_hash prev rows) \/
  (prev_hash row = Some (end_hash prev rows) /\
   compute_row_hash to_vec hmac key (end_hash prev rows) (event row) (hmac_key_id row) = Ok h /\
   h <> row_hash row) ->
  exists v, verify_rows to_vec hmac hex resolve shown (rows ++ [row]) prev n = Ok v /\
    ok v = false /\ broken_at v = Some (id row).
Proof.
  revert prev n. induction rows as [|r rows IH]; intros prev n; cbn [app linked].
  - intros _ Hl Hk Hbad. unfold end_hash in *. cbn in Hl, Hbad. cbn [verify_rows]. rewrite Hk, Hl. cbn.
    destruct Hbad as [(p & -> & Hne)|(-> & -> & Hne)].
    + destruct (str_eqb_spec p prev); [done|]. eauto.
    + rewrite str_eqb_refl. destruct (str_eqb_spec h (row_hash row)); [done|]. eauto.
  - intros (Hlp & Hp & (k & Hkr & Hh) & Hlk) Hl Hk Hbad.
    assert (He : end_hash prev (r :: rows) = end_hash (row_hash r) rows).
    { unfold end_hash. destruct rows as [|x rows']; [done|].
      change (last (r :: x :: rows')) with (last (x :: rows')).
      by destruct (last (x :: rows')) eqn:E; [|apply last_None in E]. }
    rewrite He in Hl, Hbad. cbn [verify_rows]. rewrite Hkr, Hlp. cbn [Nat.eqb negb].
    replace (match prev_hash r with
             | Some q => if str_eqb q prev then None else Some q
             | None => None end) with (@None str)
      by (destruct Hp as [->| ->]; [done|by rewrite str_eqb_refl]).
    rewrite Hh, str_eqb_refl. by apply IH.
Qed.
End postgres.

(** ** Properties *)

(** Appended one after another, the Postgres log verifies.  From a table
    that holds a chain, a committed append of an event whose time the
    [timestamptz] column stores exactly gives a table that holds a chain of
    one more row, and verification of the whole table accepts it. *)
Theorem pg_append_verifies (to_vec : CanonicalPayload -> result str str)
    (hmac : str -> option (str -> str)) (hex : str -> str) (micros : Z -> Z)
    (e : AuditEvent) (p p' : PgAudit) (i : Z) (rows : list AuditRow)
    (Hlen : forall k mac m, hmac k = Some mac -> length (mac m) = 32%nat)
    (Hat : micros (at_ e) = at_ e) (Hseq : 1 <= sequence p) (Hok : pg_ok to_vec hmac p rows)
    (Happ : pg_append to_vec hmac micros e p = (p', Ok i)) :
  pg_verify_chain to_vec hmac hex 1 (sequence p') p' =
  Ok (mkChainVerdict true (Z.of_nat (length rows) + 1) None None None).
Proof.
  destruct (pg_append_ok to_vec hmac micros Hlen e p p' i rows Hat Hok Hseq Happ) as (rows' & Hok' & Hl).
  rewrite (pg_verify_whole _ _ _ _ _ Hok'). rewrite verify_linked by apply Hok'.
  rewrite Hl. by replace (0 + Z.of_nat (S (length rows))) with (Z.of_nat (length rows) + 1) by lia.
Qed.

Definition pg_empty : PgAudit := mkPgAudit [] 1 (keyring_single "v1" "k") {["v1" := true]}.

(** [timestamptz] as documented: whole microseconds. *)
Definition floor_micros (t : Z) : Z := t - t mod 1000.

Lemma pg_empty_ok : pg_ok toy_to_vec toy_hmac pg_empty [].
Proof. by split. Qed.

Lemma pg_append_verifies_witness :
  exists p', pg_append toy_to_vec toy_hmac floor_micros (demo_event 5000) pg_empty = (p', Ok 1) /\
    pg_verify_chain toy_to_vec toy_hmac (fun h => h) 1 (sequence p') p' =
    Ok (mkChainVerdict true 1 None None None).
Proof.
  eexists. split; [apply run_eval; vm_compute; reflexivity|].
  refine (pg_append_verifies toy_to_vec toy_hmac (fun h => h) floor_micros (demo_event 5000) pg_empty _ 1 []
    toy_hmac_length eq_refl _ pg_empty_ok _); [done|apply run_eval; vm_compute; reflexivity].
Defined.

(** An event time with nanoseconds breaks the Postgres chain.  The row hash
    covers the time as given, the column keeps what [micros] leaves of it; so
    after a committed append of an event that changes when stored,
    verification of the whole table fails at that very row, unless the keyed
    hash of the event and of its stored form happen to coincide. *)
Theorem pg_nanoseconds_break_chain (to_vec : CanonicalPayload -> result str str)
    (hmac : str -> option (str -> str)) (hex : str -> str) (micros : Z -> Z)
    (e : AuditEvent) (p p' : PgAudit) (i : Z) (rows : list AuditRow) (key h' : str)
    (Hlen : forall k mac m, hmac k = Some mac -> length (mac m) = 32%nat)
    (Hseq : 1 <= sequence p) (Hok : pg_ok to_vec hmac p rows)
    (Happ : pg_append to_vec hmac micros e p = (p', Ok i))
    (Hkey : active_key (keyring p) = Ok key)
    (Hstored : compute_row_hash to_vec hmac key (end_hash GENESIS_PREV rows)
                 (stored_event micros e) (kr_active (keyring p)) = Ok h') :
  compute_row_hash to_vec hmac key (end_hash GENESIS_PREV rows) e (kr_active (keyring p)) = Ok h' \/
  exists v, pg_verify_chain to_vec hmac hex 1 (sequence p') p' = Ok v /\
    ok v = false /\ broken_at v = Some i.
Proof.
  destruct (pg_append_table to_vec hmac micros Hlen _ _ _ _ _ Hok Hseq Happ)
    as (key' & h & Hk & Hc & -> & Hkr & Hdec & Hids & Hhs & Hs & Htip).
  rewrite Hkey in Hk. injection Hk as <-. destruct (decide (h = h')) as [->|Hne]; [by left|right].
  unfold pg_verify_chain. rewrite (slice_all _ Hids). change (1 <? 1) with false. cbv iota zeta.
  rewrite (pg_verify_decoded _ _ _ _ _ _ _ _ Hdec), Hkr.
  set (row := mkAuditRow _ _ _ _ _ _). change (sequence p) with (id row).
  apply (verify_break to_vec hmac hex _ _ _ _ _ _ key h'); [apply Hok| |exact Hkey|right].
  - rewrite (pg_tip _ _ _ _ Hok). apply pg_prev_length.
  - split_and!; [done|exact Hstored|exact (not_eq_sym Hne)].
Qed.

Lemma pg_nanoseconds_break_chain_witness :
  exists p', pg_append toy_to_vec toy_hmac floor_micros (demo_event 5001) pg_empty = (p', Ok 1) /\
    exists v, pg_verify_chain toy_to_vec toy_hmac (fun h => h) 1 (sequence p') p' = Ok v /\
      ok v = false /\ broken_at v = Some 1.
Proof.
  eexists. split; [apply run_eval; vm_compute; reflexivity|].
  refine (match pg_nanoseconds_break_chain toy_to_vec toy_hmac (fun h => h) floor_micros (demo_event 5001)
            pg_empty _ 1 [] "k" _ toy_hmac_length _ pg_empty_ok _ _ eq_refl with
          | or_introl Heq => False_ind _ _
          | or_intror Hv => Hv
          end).
  - done.
  - apply run_eval. vm_compute. reflexivity.
  - reflexivity.
  - vm_compute in Heq. discriminate Heq.
Defined.

(** ** Overlapping appends *)

Section overlap.
Context (to_vec : CanonicalPayload -> result str str)
        (hmac : str -> option (str -> str))
        (micros : Z -> Z).

(** Both transactions choose their tip before either commits: the second waits
    for the lock and then links to the same row as the first. *)
Lemma overlapping_appends_reach (p p1 p2 : PgAudit) r e1 e2 i1 i2 :
  last (table p) = Some r ->
  pg_insert to_vec hmac micros (Some r) e1 p = (p1, Ok i1) ->
  pg_insert to_vec hmac micros (Some r) e2 p1 = (p2, Ok i2) ->
  rtc (pg_step to_vec hmac micros) (mkPgWorld p ∅ [])
    (mkPgWorld p2 ∅ [(e1, Committed); (e2, Committed)]).
Proof.
  intros Htip H1 H2.
  eapply rtc_l; [apply (pg_begin _ _ _ _ e1)|]. cbn.
  eapply rtc_l; [apply (pg_begin _ _ _ _ e2)|]. cbn.
  eapply rtc_l; [apply (pg_select _ _ _ _ 0%nat e1); done|]. cbn. rewrite Htip.
  eapply rtc_l; [apply (pg_select _ _ _ _ 1%nat e2); done|]. cbn. rewrite Htip.
  eapply rtc_l; [apply (pg_lock_row _ _ _ _ 0%nat e1 r); [done|apply lookup_empty]|]. cbn.
  eapply rtc_l; [eapply (pg_commit _ _ _ _ 0%nat e1); [done|exact H1]|]. cbn.
  replace (filter _ _) with (∅ : gmap Z nat)
    by (rewrite map_filter_insert_False, delete_empty by naive_solver; by rewrite map_filter_empty).
  eapply rtc_l; [apply (pg_lock_row _ _ _ _ 1%nat e2 r); [done|apply lookup_empty]|]. cbn.
  eapply rtc_l; [eapply (pg_commit _ _ _ _ 1%nat e2); [done|exact H2]|]. cbn.
  replace (filter _ _) with (∅ : gmap Z nat)
    by (rewrite map_filter_insert_False, delete_empty by naive_solver; by rewrite map_filter_empty).
  apply rtc_refl.
Qed.
End overlap.

(** Overlapping appends fork the chain.  The comment at the locking query
    says concurrent appends serialize, but the tip is chosen before the lock
    is waited for: from a table that holds a chain, two appends that overlap
    can both commit with the same previous hash, and verification of the
    whole table then fails at the second. *)
Theorem pg_overlapping_appends_fork (to_vec : CanonicalPayload -> result str str)
    (hmac : str -> option (str -> str)) (hex : str -> str) (micros : Z -> Z)
    (p p1 p2 : PgAudit) (rows : list AuditRow) (r : DbRow) (e1 e2 : AuditEvent) (i1 i2 : Z)
    (Hlen : forall k mac m, hmac k = Some mac -> length (mac m) = 32%nat)
    (Hok : pg_ok to_vec hmac p rows) (Hseq : 1 <= sequence p) (Hat : micros (at_ e1) = at_ e1)
    (Htip : last (table p) = Some r)
    (H1 : pg_insert to_vec hmac micros (Some r) e1 p = (p1, Ok i1))
    (H2 : pg_insert to_vec hmac micros (Some r) e2 p1 = (p2, Ok i2)) :
  exists w, rtc (pg_step to_vec hmac micros) (mkPgWorld p ∅ []) w /\ pg w = p2 /\
    (pg_prev (Some r) = pg_prev (last (table p1)) \/
     exists v, pg_verify_chain to_vec hmac hex 1 (sequence p2) p2 = Ok v /\
       ok v = false /\ broken_at v = Some i2).
Proof.
  eexists. split; [exact (overlapping_appends_reach _ _ _ _ _ _ _ _ _ _ _ Htip H1 H2)|].
  split; [done|]. rewrite <- Htip in H1.
  destruct (pg_append_ok to_vec hmac micros Hlen e1 p p1 i1 rows Hat Hok Hseq H1)
    as (rows1 & Hok1 & _).
  destruct (pg_insert_inv _ _ _ _ _ _ _ _ H1) as (_ & _ & _ & _ & _ & _ & Hs1 & _).
  destruct (pg_insert_inv _ _ _ _ _ _ _ _ H2) as (key & h & Hk & Hc & -> & Hkr & Hs2 & Htab).
  destruct (decide (pg_prev (Some r) = pg_prev (last (table p1)))) as [|Hne]; [by left|right].
  unfold pg_verify_chain.
  assert (Hids : Forall (fun r => 1 <= c_id r < sequence p2) (table p2)).
  { rewrite Htab, Hs2. apply Forall_app. split.
    - eapply Forall_impl; [exact (pg_ids _ _ _ _ Hok1)|]. cbn. lia.
    - constructor; [cbn; lia|constructor]. }
  rewrite (slice_all _ Hids). change (1 <? 1) with false. cbv iota zeta.
  erewrite pg_verify_decoded by
    (rewrite Htab; apply rows_from_db_app; [apply Hok1|cbn; by rewrite row_from_db_row]).
  rewrite Hkr. set (row := mkAuditRow _ _ _ _ _ _). change (sequence p1) with (id row).
  apply (verify_break to_vec hmac hex _ _ _ _ _ _ key []); [apply Hok1| |exact Hk|left].
  - rewrite (pg_tip _ _ _ _ Hok1). apply pg_prev_length.
  - exists (pg_prev (Some r)). split; [done|]. by rewrite (pg_tip _ _ _ _ Hok1).
Qed.

Definition pg_one : PgAudit := fst (pg_append toy_to_vec toy_hmac floor_micros (demo_event 1000) pg_empty).
Definition pg_two : PgAudit :=
  fst (pg_insert toy_to_vec toy_hmac floor_micros (last (table pg_one)) (demo_event 2000) pg_one).
Definition pg_three : PgAudit :=
  fst (pg_insert toy_to_vec toy_hmac floor_micros (last (table pg_one)) (demo_event 3000) pg_two).

Lemma pg_overlapping_appends_fork_witness :
  exists w, rtc (pg_step toy_to_vec toy_hmac floor_micros) (mkPgWorld pg_one ∅ []) w /\ pg w = pg_three /\
    exists v, pg_verify_chain toy_to_vec toy_hmac (fun h => h) 1 (sequence pg_three) pg_three = Ok v /\
      ok v = false /\ broken_at v = Some 3.
Proof.
  destruct (pg_append_ok toy_to_vec toy_hmac floor_micros toy_hmac_length (demo_event 1000) pg_empty
    pg_one 1 []) as (rows & Hok & _); [reflexivity|exact pg_empty_ok|done
    |apply run_eval; vm_compute; reflexivity|].
  destruct (pg_overlapping_appends_fork toy_to_vec toy_hmac (fun h => h) floor_micros pg_one pg_two
    pg_three rows
    (db_row floor_micros 1 (demo_event 1000) GENESIS_PREV
       (toy_mac "k" (GENESIS_PREV ++ "manifest.pushsystem1000")) "v1")
    (demo_event 2000) (demo_event 3000) 2 3 toy_hmac_length Hok) as (w & Hr & Hw & Hv);
    [done|reflexivity|vm_compute; reflexivity|apply run_eval; vm_compute; reflexivity..|].
  exists w. split; [exact Hr|]. split; [exact Hw|]. destruct Hv as [Heq|Hv]; [|exact Hv].
  vm_compute in Heq. discriminate Heq.
Defined.
