(* ===== verification/Export.v ===== *)
(** * Audit export ([specton-audit/src/merkle.rs], [export.rs], [checkpoint.rs])

    The Merkle root over row hashes, JSONL export of a range of rows, its
    verification, and the incremental export that checkpoints record. *)

From S2P Require Import Prelude Json Effects AuditLog AuditProofs.

Local Open Scope Z_scope.

(** ** Merkle roots ([merkle.rs]) *)

Section merkle.
Context (sha256 : str -> str).

Definition hash_pair (l r : str) : str := sha256 (l ++ r).

(** One level: pairs from the left, an odd last node with itself. *)
Fixpoint next_level (level : list str) : list str :=
  match level with
  | [] => []
  | [l] => [hash_pair l l]
  | l :: r :: rest => hash_pair l r :: next_level rest
  end.

(** [while level.len() > 1]; a level of [n] nodes has [ceil(n / 2)] parents, so
    [n] iterations are enough. *)
Fixpoint merkle_loop (fuel : nat) (level : list str) : str :=
  match level with
  | [] => GENESIS_PREV
  | [root] => root
  | _ => match fuel with
         | O => GENESIS_PREV
         | S fuel' => merkle_loop fuel' (next_level level)
         end
  end.

Definition merkle_root (leaves : list str) : str :=
  match leaves with
  | [] => GENESIS_PREV
  | _ => merkle_loop (length leaves) leaves
  end.
End merkle.

(** ** Export ([export.rs]) *)

Inductive ExportError : Type :=
| ExAudit (e : AuditError)
| ExStore (e : str)
| ExSerde (e : str)
| ExEmpty
| ExZstd (e : str).

Record ExportResult : Type := mkExportResult {
  range_from : Z;
  range_to : Z;
  ex_root : str;
  exported_to : str;
  row_count : Z;
  compressed : bool
}.

Record Checkpoint : Type := mkCheckpoint {
  cp_id : Z;
  cp_from : Z;
  cp_to : Z;
  cp_root : str;
  cp_exported_to : option str
}.

Definition id_le (a b : AuditRow) : Prop := id a <= id b.

#[global] Instance id_le_dec : RelDecision id_le.
Proof. intros a b. unfold id_le. apply _. Defined.

Section export.
(** SHA-256, [hex], the JSON line of a row, the [row_hash] field of a parsed
    line, [zstd], and the date part of the object key. *)
Context (sha256 hex : str -> str) (unhex : str -> option str)
        (line : AuditRow -> str) (line_hash : str -> option str)
        (zstd : str -> result str str) (date_path : str).

Fixpoint encode_jsonl (rs : list AuditRow) : str :=
  match rs with
  | [] => []
  | r :: rs' => line r ++ "010"%char :: encode_jsonl rs'
  end.

Definition maybe_compress (jsonl : str) (compress : bool) : result (str * bool) ExportError :=
  if compress then
    match zstd jsonl with
    | Ok b => Ok (b, true)
    | Err e => Err (ExZstd e)
    end
  else Ok (jsonl, false).

Fixpoint leaves_of (rs : list AuditRow) : result (list str) ExportError :=
  match rs with
  | [] => Ok []
  | r :: rs' =>
      match as_hash32 (row_hash r) with
      | None => Err (ExAudit (Unavailable ("row " ++ dec (id r) ++ " has non-32-byte hash")))
      | Some h => match leaves_of rs' with
                  | Ok hs => Ok (h :: hs)
                  | Err e => Err e
                  end
      end
  end.

Definition root_for_rows (rs : list AuditRow) : result str ExportError :=
  match leaves_of rs with
  | Ok leaves => Ok (merkle_root sha256 leaves)
  | Err e => Err e
  end.

Definition export_object_key (from to : Z) (compressed : bool) : str :=
  date_path ++ dec from ++ "-" ++ dec to ++ "." ++ (if compressed then "jsonl.zst" else "jsonl").

(** The rows of the ids [from ..= to] that the sink has. *)
Fixpoint fetch (ids : list Z) (s : InMemoryAudit) : result (list AuditRow) ExportError :=
  match ids with
  | [] => Ok []
  | i :: ids' =>
      match get i s, fetch ids' s with
      | Ok r, Ok rs => Ok (r :: rs)
      | Err (NotFoundRow _), Ok rs => Ok rs
      | Err (NotFoundRow _), Err e => Err e
      | Err e, _ => Err (ExAudit e)
      | Ok _, Err e => Err e
      end
  end.

(** [dest.put]: the URI the object was written to; the destination is a map
    from keys to bodies that may refuse. *)
Definition export_range (dest_put : str -> str -> result str ExportError) (s : InMemoryAudit)
    (from to : Z) (compress : bool) : result (ExportResult * str * (str * str)) ExportError :=
  if to <? from then Err ExEmpty
  else
    match fetch (seqZ from (to - from + 1)) s with
    | Err e => Err e
    | Ok fetched =>
        match merge_sort id_le fetched with
        | [] => Err ExEmpty
        | (first :: _) as sorted =>
            let actual_from := id first in
            let actual_to := default 0 (id <$> last sorted) in
            match root_for_rows sorted with
            | Err e => Err e
            | Ok root =>
                match maybe_compress (encode_jsonl sorted) compress with
                | Err e => Err e
                | Ok (body, comp) =>
                    let key := export_object_key actual_from actual_to comp in
                    match dest_put key body with
                    | Err e => Err e
                    | Ok uri =>
                        Ok (mkExportResult actual_from actual_to (hex root) uri
                              (Z.of_nat (length sorted)) comp, root, (key, body))
                    end
                end
            end
        end
    end.

(** The lines of a JSONL body. *)
Fixpoint split_lines (s cur : str) : list str :=
  match s with
  | [] => [cur]
  | c :: s' => if byte_is 10 c then cur :: split_lines s' [] else split_lines s' (cur ++ [c])
  end.

Fixpoint hashes_of_lines (lines : list str) : result (list str) ExportError :=
  match lines with
  | [] => Ok []
  | [] :: ls => hashes_of_lines ls
  | l :: ls =>
      match line_hash l with
      | None => Err (ExSerde "line")
      | Some h =>
          match unhex h with
          | None => Err (ExAudit (Unavailable "hex"))
          | Some b =>
              match as_hash32 b, hashes_of_lines ls with
              | None, _ => Err (ExAudit (Unavailable "bad row_hash length"))
              | Some b, Ok hs => Ok (b :: hs)
              | Some _, Err e => Err e
              end
          end
      end
  end.

Definition verify_export_bytes (jsonl : str) : result str ExportError :=
  match hashes_of_lines (split_lines jsonl []) with
  | Err e => Err e
  | Ok [] => Err ExEmpty
  | Ok leaves => Ok (merkle_root sha256 leaves)
  end.

(** ** Checkpoints ([checkpoint.rs]) *)

(** The sink, the checkpoint rows and the exported objects. *)
Record Exporter : Type := mkExporter {
  sink : InMemoryAudit;
  checkpoints : list Checkpoint;
  exported : list (str * str)
}.

Definition tip_id (s : InMemoryAudit) : option Z :=
  id <$> head (query (mkAuditQuery None None None None None 1) s).

Definition insert_checkpoint (from to : Z) (root uri : str) (cps : list Checkpoint) : list Checkpoint :=
  cps ++ [mkCheckpoint (Z.of_nat (length cps) + 1) from to root (Some uri)].

Definition export_pending (dest_put : str -> str -> result str ExportError) (compress : bool) :
    M Exporter ExportError ExportResult :=
  fun x =>
    let from := match last (checkpoints x) with
                | Some cp => cp_to cp + 1
                | None => 1
                end in
    match tip_id (sink x) with
    | None => (x, Err ExEmpty)
    | Some to =>
        if to <? from then (x, Err ExEmpty)
        else
          match export_range dest_put (sink x) from to compress with
          | Err e => (x, Err e)
          | Ok (res, root, obj) =>
              (mkExporter (sink x)
                 (insert_checkpoint (range_from res) (range_to res) root (exported_to res) (checkpoints x))
                 (exported x ++ [obj]), Ok res)
          end
    end.
End export.

(** ** Merkle roots bind their leaves *)

Section merkle_lemmas.
Context (sha256 : str -> str).

Lemma pair_ind (P : list str -> Prop) :
  P [] -> (forall a, P [a]) -> (forall a b l, P l -> P (a :: b :: l)) -> forall l, P l.
Proof.
  intros H0 H1 H2 l. enough (P l /\ forall a, P (a :: l)) by tauto.
  induction l as [|x l [IH1 IH2]]; [by split|]. split; [apply IH2|].
  intros a. by apply H2.
Qed.

(** What one level hashes, and what the computation of a root hashes. *)
Fixpoint level_inputs (level : list str) : list str :=
  match level with
  | [] => []
  | [l] => [l ++ l]
  | l :: r :: rest => (l ++ r) :: level_inputs rest
  end.

Fixpoint loop_inputs (fuel : nat) (level : list str) : list str :=
  match level with
  | [] | [_] => []
  | _ => match fuel with
         | O => []
         | S fuel' => level_inputs level ++ loop_inputs fuel' (next_level sha256 level)
         end
  end.

Definition merkle_inputs (leaves : list str) : list str := loop_inputs (length leaves) leaves.

(** The two lists differ at one place, where the hashes agree. *)
Definition collide (ms1 ms2 : list str) : Prop :=
  exists i m1 m2, ms1 !! i = Some m1 /\ ms2 !! i = Some m2 /\ m1 <> m2 /\ sha256 m1 = sha256 m2.

Lemma collide_cons m1 m2 ms1 ms2 : collide ms1 ms2 -> collide (m1 :: ms1) (m2 :: ms2).
Proof. intros (i & ? & ? & H). by exists (S i); eexists _, _. Qed.

Lemma collide_app_l ms1 ms2 k1 k2 : collide ms1 ms2 -> collide (ms1 ++ k1) (ms2 ++ k2).
Proof.
  intros (i & m1 & m2 & H1 & H2 & H). exists i, m1, m2. by rewrite !(lookup_app_l_Some _ _ _ _ H1), (lookup_app_l_Some _ _ _ _ H2).
Qed.

Lemma collide_app_r ms1 ms2 k1 k2 : length ms1 = length ms2 -> collide k1 k2 -> collide (ms1 ++ k1) (ms2 ++ k2).
Proof.
  intros Hl (i & m1 & m2 & H1 & H2 & H). exists (length ms1 + i)%nat, m1, m2.
  split; [by rewrite lookup_app_add|]. split; [by rewrite Hl, lookup_app_add|done].
Qed.

Lemma level_inputs_length l1 l2 : length l1 = length l2 -> length (level_inputs l1) = length (level_inputs l2).
Proof.
  revert l2. induction l1 as [|a|a b l1 IH] using pair_ind; intros [|c [|d l2]]; cbn; try done.
  intros [= H]. by rewrite (IH l2).
Qed.

Lemma div2_le n : (Nat.div2 (S n) <= n)%nat.
Proof.
  rewrite Nat.div2_div. destruct n; [done|].
  apply Nat.lt_succ_r, Nat.Div0.div_lt_upper_bound. lia.
Qed.

Lemma next_level_length l : length (next_level sha256 l) = Nat.div2 (S (length l)).
Proof. induction l as [|a|a b l IH] using pair_ind; cbn in *; [done|done|]. by rewrite IH. Qed.

Lemma next_level_sizes l :
  (forall m, length (sha256 m) = 32%nat) -> Forall (fun h => length h = 32%nat) (next_level sha256 l).
Proof.
  intros Hs. induction l as [|a|a b l IH] using pair_ind; cbn; [done|..];
    repeat constructor; unfold hash_pair; auto.
Qed.

Lemma hash_pair_inj a b c d ms1 ms2 :
  length a = length c ->
  hash_pair sha256 a b = hash_pair sha256 c d -> (a = c /\ b = d) \/ collide ((a ++ b) :: ms1) ((c ++ d) :: ms2).
Proof.
  intros Hl Heq. destruct (decide (a ++ b = c ++ d)) as [He|Hne].
  - left. by apply app_inj_1.
  - right. by exists 0%nat, (a ++ b), (c ++ d).
Qed.

Lemma next_level_inj l1 l2 :
  length l1 = length l2 ->
  Forall (fun h => length h = 32%nat) l1 -> Forall (fun h => length h = 32%nat) l2 ->
  next_level sha256 l1 = next_level sha256 l2 -> l1 = l2 \/ collide (level_inputs l1) (level_inputs l2).
Proof.
  revert l2. induction l1 as [|a|a b l1 IH] using pair_ind; intros l2 Hl H1 H2.
  - destruct l2; [by left|done].
  - destruct l2 as [|c [|]]; [done| |done]. cbn. intros [= Hp].
    decompose_Forall_hyps. destruct (hash_pair_inj a a c c [] []) as [[-> _]|]; auto; congruence.
  - destruct l2 as [|c [|d l2]]; [done..|]. cbn in *. intros [= Hp Hr].
    decompose_Forall_hyps. destruct (IH l2) as [->|]; auto using collide_cons.
    destruct (hash_pair_inj a b c d (level_inputs l2) (level_inputs l2)) as [[-> ->]|]; auto; congruence.
Qed.

(** Enough fuel: the loop reaches a single node. *)
Lemma merkle_loop_root fuel l :
  l <> [] -> (length l <= S fuel)%nat -> (forall m, length (sha256 m) = 32%nat) ->
  Forall (fun h => length h = 32%nat) l ->
  length (merkle_loop sha256 fuel l) = 32%nat /\
  (forall fuel', (length l <= S fuel')%nat -> merkle_loop sha256 fuel' l = merkle_loop sha256 fuel l).
Proof.
  intros Hne Hle Hs. revert l Hne Hle. induction fuel as [|fuel IH]; intros l Hne Hle Hl.
  - destruct l as [|a [|]]; [done| |cbn in Hle; lia]. cbn. decompose_Forall_hyps.
    split; [done|]. by intros [].
  - destruct l as [|a [|b l]]; [done| |].
    { decompose_Forall_hyps. split; [done|]. by intros []. }
    pose proof (div2_le (length l)) as Hd.
    destruct (IH (next_level sha256 (a :: b :: l))) as [H1 H2];
      [done|cbn [next_level length] in *; rewrite next_level_length; lia|by apply next_level_sizes|].
    split; [exact H1|]. intros [|fuel'] Hf; [cbn in Hf; lia|]. apply H2.
    cbn [next_level length] in *. rewrite next_level_length. lia.
Qed.

Lemma merkle_loop_inj fuel l1 l2 :
  length l1 = length l2 -> (length l1 <= S fuel)%nat -> (forall m, length (sha256 m) = 32%nat) ->
  Forall (fun h => length h = 32%nat) l1 -> Forall (fun h => length h = 32%nat) l2 ->
  merkle_loop sha256 fuel l1 = merkle_loop sha256 fuel l2 ->
  l1 = l2 \/ collide (loop_inputs fuel l1) (loop_inputs fuel l2).
Proof.
  intros Hl Hle Hs. revert l1 l2 Hl Hle. induction fuel as [|fuel IH]; intros l1 l2 Hl Hle H1 H2.
  - destruct l1 as [|a [|]], l2 as [|c [|]]; cbn in *; try lia; [by left|]. intros ->. by left.
  - destruct l1 as [|a [|b l1]], l2 as [|c [|d l2]]; try (cbn in *; lia); [by left|cbn; intros ->; by left|].
    set (k1 := a :: b :: l1) in *. set (k2 := c :: d :: l2) in *.
    change (merkle_loop sha256 (S fuel) k1) with (merkle_loop sha256 fuel (next_level sha256 k1)).
    change (merkle_loop sha256 (S fuel) k2) with (merkle_loop sha256 fuel (next_level sha256 k2)).
    change (loop_inputs (S fuel) k1) with (level_inputs k1 ++ loop_inputs fuel (next_level sha256 k1)).
    change (loop_inputs (S fuel) k2) with (level_inputs k2 ++ loop_inputs fuel (next_level sha256 k2)).
    intros Heq. apply IH in Heq as [Heq|Hc].
    + destruct (next_level_inj k1 k2) as [->|Hc]; auto using collide_app_l.
    + right. apply collide_app_r; [by apply level_inputs_length|done].
    + rewrite !next_level_length. by rewrite Hl.
    + unfold k1 in *. cbn [next_level length] in *. rewrite next_level_length.
      pose proof (div2_le (length l1)). lia.
    + by apply next_level_sizes.
    + by apply next_level_sizes.
Qed.
End merkle_lemmas.
