(* ===== verification/ExportProofs.v ===== *)
(** * Correctness of audit export

    Merkle roots bind the rows they cover, an export verifies to the root of
    its checkpoint, and incremental exports cover every row exactly once. *)

From S2P Require Import Prelude Json Effects AuditLog AuditProofs Export.

Local Open Scope Z_scope.

(** ** JSONL *)

Section jsonl.
Context (sha256 hex : str -> str) (unhex : str -> option str)
        (line : AuditRow -> str) (line_hash : str -> option str).

Lemma split_lines_app l rest cur :
  forallb (fun c => negb (byte_is 10 c)) l = true ->
  split_lines (l ++ "010"%char :: rest) cur = (cur ++ l) :: split_lines rest [].
Proof.
  revert cur. induction l as [|c l IH]; intros cur; cbn [app forallb split_lines].
  - intros _. change (byte_is 10 "010"%char) with true. by rewrite app_nil_r.
  - rewrite andb_true_iff, negb_true_iff. intros [-> Hl]. rewrite IH by done. by rewrite <- app_assoc.
Qed.

(** One line per row: no newline inside, not empty, and the hash field reads back. *)
Definition lines_ok : Prop :=
  forall r, line r <> [] /\ forallb (fun c => negb (byte_is 10 c)) (line r) = true /\
    line_hash (line r) = Some (hex (row_hash r)).

Lemma hashes_of_jsonl rs leaves :
  lines_ok -> (forall b, unhex (hex b) = Some b) -> leaves_of rs = Ok leaves ->
  hashes_of_lines unhex line_hash (split_lines (encode_jsonl line rs) []) = Ok leaves.
Proof.
  intros Hline Hhex. revert leaves. induction rs as [|r rs IH]; intros leaves; cbn; [by intros [= <-]|].
  destruct (as_hash32 (row_hash r)) as [h|] eqn:Hh; [|done].
  destruct (leaves_of rs) as [hs|]; [|done]. intros [= <-].
  destruct (Hline r) as (Hne & Hnl & Hf). rewrite split_lines_app by done. cbn [app].
  destruct (line r) as [|c l] eqn:El; [done|]. cbn [hashes_of_lines]. rewrite Hf, Hhex, Hh.
  by rewrite (IH hs eq_refl).
Qed.

Lemma verify_export_encoded rs root :
  lines_ok -> (forall b, unhex (hex b) = Some b) -> rs <> [] ->
  root_for_rows sha256 rs = Ok root ->
  verify_export_bytes sha256 unhex line_hash (encode_jsonl line rs) = Ok root.
Proof.
  intros Hline Hhex Hne. unfold root_for_rows, verify_export_bytes.
  destruct (leaves_of rs) as [leaves|] eqn:Hl; [|done]. rewrite (hashes_of_jsonl rs leaves) by done.
  intros [= <-]. destruct leaves; [|done]. destruct rs as [|r rs]; [done|].
  cbn in Hl. destruct (as_hash32 _), (leaves_of rs); done.
Qed.
End jsonl.

(** ** The rows of a range *)

Lemma ids_lookup a rs (j : nat) r : ids_from a rs -> rs !! j = Some r -> id r = a + Z.of_nat j.
Proof.
  revert a j. induction rs as [|x rs IH]; intros a j; [done|]. cbn [ids_from]. intros [Hx Hrs].
  destruct j as [|j]; cbn; [intros [= <-]; lia|]. intros Hj. rewrite (IH _ _ Hrs Hj). lia.
Qed.

Lemma get_lookup s i r :
  ids_from 1 (rows s) -> rows s !! Z.to_nat (i - 1) = Some r -> 1 <= i -> get i s = Ok r.
Proof.
  intros Hids Hr Hi. unfold get.
  assert (Hf : list_find (fun r => id r = i) (rows s) = Some (Z.to_nat (i - 1), r)).
  { apply list_find_Some. split; [done|]. split; [rewrite (ids_lookup 1 _ _ _ Hids Hr); lia|].
    intros j y Hj Hlt. rewrite (ids_lookup 1 _ _ _ Hids Hj). lia. }
  by rewrite Hf.
Qed.

Lemma fetch_slice s from (k : nat) :
  ids_from 1 (rows s) -> 1 <= from -> from + Z.of_nat k <= 1 + Z.of_nat (length (rows s)) ->
  fetch (seqZ from (Z.of_nat k)) s = Ok (take k (drop (Z.to_nat (from - 1)) (rows s))).
Proof.
  intros Hids. revert from. induction k as [|k IH]; intros from Hf Hle; [done|].
  rewrite seqZ_cons by lia. replace (Z.pred (Z.of_nat (S k))) with (Z.of_nat k) by lia.
  cbn [fetch]. destruct (lookup_lt_is_Some_2 (rows s) (Z.to_nat (from - 1))) as [r Hr]; [lia|].
  rewrite (get_lookup s from r Hids Hr Hf), IH by lia.
  replace (Z.to_nat (Z.succ from - 1)) with (S (Z.to_nat (from - 1))) by lia.
  rewrite (drop_S _ _ _ Hr). done.
Qed.

Lemma slice_ids s from (k : nat) :
  ids_from 1 (rows s) -> 1 <= from -> from <= 1 + Z.of_nat (length (rows s)) ->
  ids_from from (take k (drop (Z.to_nat (from - 1)) (rows s))).
Proof.
  intros Hids Hf Hle. rewrite <- (take_drop (Z.to_nat (from - 1)) (rows s)) in Hids.
  apply ids_from_app in Hids as [_ Hids]. rewrite length_take in Hids.
  rewrite <- (take_drop k (drop _ (rows s))) in Hids. apply ids_from_app in Hids as [Hids _].
  assert (Heq : 1 + Z.of_nat (Z.to_nat (from - 1) `min` length (rows s)) = from) by lia.
  by rewrite Heq in Hids.
Qed.

Lemma ids_sorted a rs : ids_from a rs -> StronglySorted id_le rs.
Proof.
  revert a. induction rs as [|r rs IH]; intros a; [constructor|]. cbn. intros [Hr Hrs].
  constructor; [by eapply IH|]. apply Forall_forall. intros x Hx.
  pose proof (ids_from_elem _ _ _ Hrs Hx). unfold id_le. lia.
Qed.

Lemma merge_sort_ids a rs : ids_from a rs -> merge_sort id_le rs = rs.
Proof.
  intros Hids. apply (StronglySorted_unique_strong id_le).
  - intros x y Hx Hy Hxy Hyx. rewrite merge_sort_Permutation in Hx.
    apply list_elem_of_lookup in Hx as [i Hi], Hy as [j Hj].
    pose proof (ids_lookup _ _ _ _ Hids Hi). pose proof (ids_lookup _ _ _ _ Hids Hj).
    unfold id_le in *. assert (i = j) by lia. congruence.
  - apply StronglySorted_merge_sort; unfold id_le; [intros x y z; lia|intros x y; lia].
  - by eapply ids_sorted.
  - apply merge_sort_Permutation.
Qed.

Lemma ids_last a rs r : ids_from a rs -> last rs = Some r -> id r = a + Z.of_nat (length rs) - 1.
Proof.
  intros Hids Hl. rewrite last_lookup in Hl. rewrite (ids_lookup _ _ _ _ Hids Hl).
  apply lookup_lt_Some in Hl. lia.
Qed.

Lemma tip_id_last s : tip_id s = id <$> last (rows s).
Proof.
  unfold tip_id, query. cbn [limit]. replace (filter _ (reverse (rows s))) with (reverse (rows s)).
  - rewrite <- head_reverse. by destruct (reverse (rows s)).
  - induction (reverse (rows s)) as [|r l IH]; [done|]. rewrite filter_cons_True by done. by rewrite <- IH.
Qed.

(** ** Incremental export *)

Definition slice (from to : Z) (rs : list AuditRow) : list AuditRow :=
  take (Z.to_nat (to - from + 1)) (drop (Z.to_nat (from - 1)) rs).

Section incremental.
Context (to_vec : CanonicalPayload -> result str str) (hmac : str -> option (str -> str)).
Context (sha256 hex : str -> str) (line : AuditRow -> str)
        (zstd : str -> result str str) (date_path : str).

(** The checkpoints from id [a] on: each starts where the one before ended,
    covers rows the log has, and records their Merkle root. *)
Fixpoint cps_ok (rs : list AuditRow) (a : Z) (cps : list Checkpoint) : Prop :=
  match cps with
  | [] => a <= 1 + Z.of_nat (length rs)
  | c :: cps' =>
      cp_from c = a /\ a <= cp_to c /\
      cp_root c = merkle_root sha256 (map row_hash (slice a (cp_to c) rs)) /\
      cps_ok rs (cp_to c + 1) cps'
  end.

Definition next_from (a : Z) (cps : list Checkpoint) : Z :=
  match last cps with
  | Some c => cp_to c + 1
  | None => a
  end.

Lemma next_from_cons a c cps : next_from a (c :: cps) = next_from (cp_to c + 1) cps.
Proof.
  unfold next_from. destruct cps as [|d cps]; [done|].
  change (last (c :: d :: cps)) with (last (d :: cps)).
  by destruct (last (d :: cps)) eqn:E; [|apply last_None in E].
Qed.

Lemma cps_ok_next rs a cps : cps_ok rs a cps -> a <= next_from a cps <= 1 + Z.of_nat (length rs).
Proof.
  revert a. induction cps as [|c cps IH]; intros a; cbn [cps_ok].
  - unfold next_from. cbn. lia.
  - intros (Hf & Ht & _ & Hc). rewrite next_from_cons. specialize (IH _ Hc). lia.
Qed.

Lemma cps_ok_snoc rs a cps to cid uri :
  cps_ok rs a cps -> next_from a cps <= to <= Z.of_nat (length rs) ->
  cps_ok rs a (cps ++ [mkCheckpoint cid (next_from a cps) to
    (merkle_root sha256 (map row_hash (slice (next_from a cps) to rs))) uri]).
Proof.
  revert a. induction cps as [|c cps IH]; intros a; cbn [cps_ok app].
  - unfold next_from. cbn. intros. split_and!; done || lia.
  - intros (Hf & Ht & Hr & Hc). rewrite next_from_cons. intros Hto. split_and!; try done. by apply IH.
Qed.

Lemma slice_app from to rs more :
  1 <= from -> to <= Z.of_nat (length rs) -> slice from to (rs ++ more) = slice from to rs.
Proof.
  intros Hf Hto. unfold slice. destruct (Z.le_gt_cases from (to + 1)) as [Hle|Hgt].
  - rewrite drop_app, take_app_le; [done|]. rewrite length_drop. lia.
  - by replace (Z.to_nat (to - from + 1)) with 0%nat by lia.
Qed.

Lemma cps_ok_grow rs more a cps : 1 <= a -> cps_ok rs a cps -> cps_ok (rs ++ more) a cps.
Proof.
  revert a. induction cps as [|c cps IH]; intros a Ha; cbn [cps_ok].
  - rewrite length_app. lia.
  - intros (Hf & Ht & Hr & Hc). pose proof (cps_ok_next _ _ _ Hc).
    split_and!; [done|done|by rewrite slice_app by lia|]. apply IH; [lia|done].
Qed.

Lemma leaves_hashes rs :
  Forall (fun r => length (row_hash r) = 32%nat) rs -> leaves_of rs = Ok (map row_hash rs).
Proof.
  induction 1 as [|r rs Hr _ IH]; cbn; [done|]. unfold as_hash32. rewrite Hr. cbn. by rewrite IH.
Qed.

Lemma export_range_spec dest s from to comp res root obj :
  sink_ok to_vec hmac s -> 1 <= from -> to = Z.of_nat (length (rows s)) ->
  export_range sha256 hex line zstd date_path dest s from to comp = Ok (res, root, obj) ->
  from <= to /\ range_from res = from /\ range_to res = to /\
  root = merkle_root sha256 (map row_hash (slice from to (rows s))) /\
  row_count res = to - from + 1.
Proof.
  intros Hok Hf Hto. unfold export_range. destruct (Z.ltb_spec to from) as [|Hle]; [done|].
  replace (to - from + 1) with (Z.of_nat (Z.to_nat (to - from + 1))) by lia.
  rewrite (fetch_slice s from _ (sink_ids _ _ _ Hok)) by lia. fold (slice from to (rows s)).
  assert (Hids : ids_from from (slice from to (rows s))).
  { apply slice_ids; [apply Hok|done|lia]. }
  assert (Hlen : length (slice from to (rows s)) = Z.to_nat (to - from + 1)).
  { unfold slice. rewrite length_take, length_drop. lia. }
  rewrite (merge_sort_ids _ _ Hids).
  assert (Hh : Forall (fun r => length (row_hash r) = 32%nat) (slice from to (rows s))).
  { apply Forall_take, Forall_drop, Hok. }
  destruct (slice from to (rows s)) as [|first sl] eqn:Es; [cbn in Hlen; lia|].
  unfold root_for_rows. rewrite (leaves_hashes _ Hh).
  destruct (maybe_compress _ _ _) as [[body c]|]; [|done]. destruct (dest _ _) as [uri|]; [|done].
  intros [= <- <- _]. cbn [range_from range_to row_count].
  destruct (last (first :: sl)) as [l|] eqn:El; [|by apply last_None in El].
  pose proof (ids_last _ _ _ Hids El) as Hl. cbn [fmap option_fmap option_map default].
  cbn [length] in Hl, Hlen. split_and!; [done|apply Hids|simpl; lia|done|simpl length; lia].
Qed.

(** A log that is appended to, whose keys rotate, and that is exported. *)
Inductive exporter_reach (key key_id : str) : Exporter -> Prop :=
| ex_new : exporter_reach key key_id (mkExporter (audit_new key key_id) [] [])
| ex_append x s e r :
    exporter_reach key key_id x -> append to_vec hmac e (sink x) = (s, r) ->
    exporter_reach key key_id (mkExporter s (checkpoints x) (exported x))
| ex_rotate x new_id new_key :
    exporter_reach key key_id x -> (keys (sink x) !! new_id = None \/ keys (sink x) !! new_id = Some new_key) ->
    exporter_reach key key_id
      (mkExporter (register_and_activate new_id new_key (sink x)) (checkpoints x) (exported x))
| ex_export x x' dest comp r :
    exporter_reach key key_id x ->
    export_pending sha256 hex line zstd date_path dest comp x = (x', r) ->
    exporter_reach key key_id x'.

Context (Hlen : forall k mac m, hmac k = Some mac -> length (mac m) = 32%nat).

Lemma append_grows e s s' r :
  append to_vec hmac e s = (s', r) -> exists more, rows s' = rows s ++ more.
Proof.
  unfold append. destruct (tip_hash _); [|intros [= <- <-]; exists []; by rewrite app_nil_r].
  destruct (compute_row_hash _ _ _ _ _ _); [|intros [= <- <-]; exists []; by rewrite app_nil_r].
  intros [= <- <-]. eauto.
Qed.

Lemma export_pending_ok x x' dest comp r :
  sink_ok to_vec hmac (sink x) -> cps_ok (rows (sink x)) 1 (checkpoints x) ->
  export_pending sha256 hex line zstd date_path dest comp x = (x', r) ->
  sink x' = sink x /\ cps_ok (rows (sink x')) 1 (checkpoints x').
Proof.
  intros Hs Hc. unfold export_pending. fold (next_from 1 (checkpoints x)). rewrite tip_id_last.
  destruct (last (rows (sink x))) as [l|] eqn:El; cbn; [|by intros [= <- _]].
  destruct (id l <? next_from 1 (checkpoints x)); [by intros [= <- _]|].
  pose proof (ids_last _ _ _ (sink_ids _ _ _ Hs) El) as Hl.
  pose proof (cps_ok_next _ _ _ Hc) as Hn.
  destruct (export_range _ _ _ _ _ _ _ _ _ _) as [[[res root] obj]|] eqn:Ex; [|by intros [= <- _]].
  apply export_range_spec in Ex as (Hle & Hrf & Hrt & Hroot & _); [|done|lia|lia].
  intros [= <- _]. cbn. split; [done|]. unfold insert_checkpoint. rewrite Hrf, Hrt, Hroot.
  apply cps_ok_snoc; [done|lia].
Qed.

Lemma exporter_ok key key_id x :
  exporter_reach key key_id x ->
  sink_ok to_vec hmac (sink x) /\ cps_ok (rows (sink x)) 1 (checkpoints x).
Proof.
  induction 1 as [|x s e r _ [Hs Hc] Ha|x ni nk _ [Hs Hc] Hf|x x' dest comp r _ [Hs Hc] He]; cbn.
  - split; [apply audit_new_ok|]. cbn. lia.
  - split; [by eapply append_ok|]. destruct (append_grows _ _ _ _ Ha) as [more ->].
    by apply cps_ok_grow.
  - split; [by apply rotate_ok|done].
  - destruct (export_pending_ok _ _ _ _ _ Hs Hc He) as [Hsink Hcp]. split; [by rewrite Hsink|done].
Qed.
End incremental.

(** ** Properties *)

(** C20: A Merkle root binds its rows.  If two lists of the same number of 32-byte
    row hashes have the same root, they are equal, or the computations of the
    two roots hash different bytes at the same place to the same value: a
    collision of SHA-256 that can be read off the two lists. *)
Theorem merkle_root_binding (sha256 : str -> str) (l1 l2 : list str)
    (Hsize : forall m, length (sha256 m) = 32%nat)
    (H1 : Forall (fun h => length h = 32%nat) l1) (H2 : Forall (fun h => length h = 32%nat) l2)
    (Hlen : length l1 = length l2) (Hroot : merkle_root sha256 l1 = merkle_root sha256 l2) :
  l1 = l2 \/ collide sha256 (merkle_inputs sha256 l1) (merkle_inputs sha256 l2).
Proof.
  destruct l1 as [|a l1], l2 as [|b l2]; [by left|done|done|]. unfold merkle_inputs, merkle_root in *. rewrite <- Hlen in *.
  apply (merkle_loop_inj sha256 (length (a :: l1))); [done|lia|done..].
Qed.

Definition toy_sha (m : str) : str := take 32 (m ++ replicate 32 "0"%char).

Lemma toy_sha_size m : length (toy_sha m) = 32%nat.
Proof. unfold toy_sha. rewrite length_take, length_app, length_replicate. lia. Qed.

Lemma merkle_root_binding_witness :
  let l := [replicate 32 "a"%char; replicate 32 "b"%char; replicate 32 "c"%char] in
  l = l \/ collide toy_sha (merkle_inputs toy_sha l) (merkle_inputs toy_sha l).
Proof.
  cbv zeta. apply (merkle_root_binding toy_sha); [exact toy_sha_size|repeat constructor..|].
  vm_compute. reflexivity.
Defined.

(** A root does not bind the number of rows.  Because an odd last node is
    paired with itself, repeating the last of an odd number (at least three)
    of rows leaves the root unchanged, so an export with its last line
    doubled passes the same integrity check. *)
Theorem merkle_root_duplicate_tail (sha256 : str -> str) (l : list str) (x : str)
    (Hsize : forall m, length (sha256 m) = 32%nat)
    (Hleaves : Forall (fun h => length h = 32%nat) (l ++ [x]))
    (Heven : Nat.Even (length l)) (Hne : l <> []) :
  merkle_root sha256 (l ++ [x; x]) = merkle_root sha256 (l ++ [x]).
Proof.
  assert (Hnext : forall l, Nat.Even (length l) ->
            next_level sha256 (l ++ [x; x]) = next_level sha256 (l ++ [x])).
  { clear. intros l. induction l as [|a|a b l IH] using pair_ind; intros He; [done|destruct He as [k Hk]; cbn in Hk; lia|].
    cbn. f_equal. apply IH. destruct He as [k Hk]. cbn in Hk. exists (Nat.pred k). lia. }
  destruct l as [|a [|b l]]; [done|destruct Heven as [k Hk]; cbn in Hk; lia|].
  unfold merkle_root. cbn [app].
  set (l1 := a :: b :: l ++ [x; x]). set (l2 := a :: b :: l ++ [x]).
  assert (Hn : next_level sha256 l1 = next_level sha256 l2) by exact (Hnext (a :: b :: l) Heven).
  assert (Hl2 : length l2 = S (S (S (length l)))) by (unfold l2; cbn; rewrite length_app; cbn; lia).
  assert (Hl1 : length l1 = S (length l2)) by (unfold l1, l2; cbn; rewrite !length_app; cbn; lia).
  rewrite Hl1, Hl2. change (merkle_loop sha256 (S (S (S (S (length l))))) l1)
    with (merkle_loop sha256 (S (S (S (length l)))) (next_level sha256 l1)).
  change (merkle_loop sha256 (S (S (S (length l)))) l2)
    with (merkle_loop sha256 (S (S (length l))) (next_level sha256 l2)).
  rewrite Hn. pose proof (next_level_length sha256 l2) as Hnl. rewrite Hl2 in Hnl.
  pose proof (div2_le (S (S (S (length l))))).
  apply (merkle_loop_root sha256); [by unfold l2|lia|done|by apply next_level_sizes|lia].
Qed.

Lemma merkle_root_duplicate_tail_witness :
  let h c := replicate 32 c in
  merkle_root toy_sha ([h "a"%char; h "b"%char] ++ [h "c"%char; h "c"%char]) =
  merkle_root toy_sha ([h "a"%char; h "b"%char] ++ [h "c"%char]).
Proof.
  cbv zeta. apply (merkle_root_duplicate_tail toy_sha);
    [exact toy_sha_size|repeat constructor|exists 1%nat; reflexivity|discriminate].
Defined.

(** An export verifies to the root of its checkpoint.  The bytes
    [encode_jsonl] writes for a non-empty list of rows are accepted by
    [verify_export_bytes] and give the Merkle root [root_for_rows] computed
    for them. *)
Theorem export_round_trip (sha256 hex : str -> str) (unhex line_hash : str -> option str)
    (line : AuditRow -> str) (rs : list AuditRow) (root : str)
    (Hlines : lines_ok hex line line_hash) (Hhex : forall b, unhex (hex b) = Some b)
    (Hne : rs <> []) (Hroot : root_for_rows sha256 rs = Ok root) :
  verify_export_bytes sha256 unhex line_hash (encode_jsonl line rs) = Ok root.
Proof. by apply (verify_export_encoded sha256 hex unhex line line_hash). Qed.

(** Hex digits as two letters a byte, and a line that holds the hash alone. *)
Definition toy_hex (b : str) : str :=
  concat (map (fun c => [ascii_of_N (97 + N_of_ascii c / 16); ascii_of_N (97 + N_of_ascii c mod 16)]) b).

Fixpoint toy_unhex (s : str) : option str :=
  match s with
  | [] => Some []
  | a :: b :: s' =>
      cons (ascii_of_N ((N_of_ascii a - 97) * 16 + (N_of_ascii b - 97))) <$> toy_unhex s'
  | _ => None
  end.

Definition toy_line (r : AuditRow) : str := "x" ++ toy_hex (row_hash r).
Definition toy_line_hash (l : str) : option str := Some (tail l).

Lemma toy_unhex_hex b : toy_unhex (toy_hex b) = Some b.
Proof.
  induction b as [|c b IH]; [done|]. cbn -[N.div N.modulo ascii_of_N N_of_ascii] in *.
  unfold toy_hex in IH. rewrite IH. cbn -[N.div N.modulo ascii_of_N N_of_ascii]. f_equal. f_equal.
  destruct c as [[] [] [] [] [] [] [] []]; reflexivity.
Qed.

Lemma toy_hex_lines b : forallb (fun c => negb (byte_is 10 c)) (toy_hex b) = true.
Proof.
  induction b as [|c b IH]; [done|]. unfold toy_hex in *. cbn [map concat app forallb]. rewrite IH.
  destruct c as [[] [] [] [] [] [] [] []]; reflexivity.
Qed.

Lemma export_round_trip_witness :
  let rs := rows (fst (append toy_to_vec toy_hmac (demo_event 1) (audit_new "k" "v1"))) in
  exists root, root_for_rows toy_sha rs = Ok root /\
    verify_export_bytes toy_sha toy_unhex toy_line_hash (encode_jsonl toy_line rs) = Ok root.
Proof.
  cbv zeta. eexists. split; [vm_compute; reflexivity|].
  apply (export_round_trip toy_sha toy_hex toy_unhex toy_line_hash toy_line).
  - intros r. split; [discriminate|]. split; [exact (toy_hex_lines (row_hash r))|reflexivity].
  - exact toy_unhex_hex.
  - discriminate.
  - vm_compute. reflexivity.
Defined.

(** Incremental exports cover the log exactly once.  However appends, key
    rotations and exports interleave and whichever of them fail, the
    checkpoints are consecutive ranges starting at id 1 with no gap and no
    overlap, none beyond the log, each with the Merkle root of exactly the
    rows of its range. *)
Theorem exports_cover_exactly_once (to_vec : CanonicalPayload -> result str str)
    (hmac : str -> option (str -> str)) (sha256 hex : str -> str) (line : AuditRow -> str)
    (zstd : str -> result str str) (date_path key key_id : str) (x : Exporter)
    (Hlen : forall k mac m, hmac k = Some mac -> length (mac m) = 32%nat)
    (Hreach : exporter_reach to_vec hmac sha256 hex line zstd date_path key key_id x) :
  cps_ok sha256 (rows (sink x)) 1 (checkpoints x).
Proof. by destruct (exporter_ok to_vec hmac sha256 hex line zstd date_path Hlen key key_id x Hreach). Qed.

Lemma exports_cover_exactly_once_witness :
  let s := fst (append toy_to_vec toy_hmac (demo_event 1) (audit_new "k" "v1")) in
  exists x, map (fun c => (cp_from c, cp_to c)) (checkpoints x) = [(1, 1)] /\
    cps_ok toy_sha (rows (sink x)) 1 (checkpoints x).
Proof.
  cbv zeta.
  set (s := fst (append toy_to_vec toy_hmac (demo_event 1) (audit_new "k" "v1"))).
  set (x := fst (export_pending toy_sha toy_hex toy_line (fun b => Ok b) "audit/" (fun k _ => Ok k) false
              (mkExporter s [] []))).
  exists x. split; [vm_compute; reflexivity|].
  apply (exports_cover_exactly_once toy_to_vec toy_hmac toy_sha toy_hex toy_line (fun b => Ok b)
    "audit/" "k" "v1"); [exact toy_hmac_length|].
  apply (ex_export _ _ _ _ _ _ _ _ _ (mkExporter s [] []) x (fun k _ => Ok k) false
    (snd (export_pending toy_sha toy_hex toy_line (fun b => Ok b) "audit/" (fun k _ => Ok k) false
            (mkExporter s [] [])))); [|apply run_eval; reflexivity].
  apply (ex_append _ _ _ _ _ _ _ _ _ (mkExporter (audit_new "k" "v1") [] []) s (demo_event 1) (Ok 1));
    [apply ex_new|apply run_eval; vm_compute; reflexivity].
Defined.
