(* ===== verification/RegistryAudit.v ===== *)
(** * The registry's audit log ([crates/specton-registry/src/audit.rs])

    A ring buffer for the dashboard in front of a durable sink: write events
    always reach the sink and may fail the request, pull events are sampled
    and never do. *)

From S2P Require Import Prelude Json Effects AuditLog.

Local Open Scope Z_scope.

Definition MAX_EVENTS : Z := 10000.

Record RegistryAuditEvent : Type := mkRegistryAuditEvent {
  timestamp : Z;
  event_type : str;
  rae_subject : str;
  rae_tenant : str;
  rae_project : str;
  repository : str;
  rae_reference : str;
  rae_digest : str;
  size_bytes : Z;
  status_code : Z;
  duration_ms : Z
}.

Definition category_of_event (e : RegistryAuditEvent) : Category :=
  if str_eqb (event_type e) "manifest.push" || str_eqb (event_type e) "blob.push"
     || str_eqb (event_type e) "manifest.replicated" then Push
  else if str_eqb (event_type e) "manifest.pull" || str_eqb (event_type e) "blob.pull"
          || str_eqb (event_type e) "tag.list" || str_eqb (event_type e) "catalog.list" then Pull
  else if str_eqb (event_type e) "manifest.delete" then Delete
  else if str_eqb (event_type e) "manifest.promote" then Promote
  else Admin.

Definition is_write (e : RegistryAuditEvent) : bool :=
  str_eqb (event_type e) "manifest.push" || str_eqb (event_type e) "blob.push"
  || str_eqb (event_type e) "manifest.delete" || str_eqb (event_type e) "manifest.replicated"
  || str_eqb (event_type e) "manifest.promote".

Definition is_pull (e : RegistryAuditEvent) : bool :=
  str_eqb (event_type e) "manifest.pull" || str_eqb (event_type e) "blob.pull"
  || str_eqb (event_type e) "tag.list" || str_eqb (event_type e) "catalog.list".

(** The attributes are a [BTreeMap]: in key order. *)
Definition to_chained (e : RegistryAuditEvent) : AuditEvent :=
  let outcome := if status_code e <? 400 then Success else Failure (dec (status_code e)) in
  mkAuditEvent (timestamp e) (category_of_event e) (event_type e)
    (mkActor (rae_subject e) None None None)
    (Some (mkSubject (Some (rae_tenant e)) (Some (rae_project e)) (Some (repository e))
             (Some (rae_reference e)) (Some (rae_digest e))))
    outcome
    [("duration_ms" : str, JInt (duration_ms e)); ("size_bytes" : str, JInt (size_bytes e));
     ("status_code" : str, JInt (status_code e))].

(** [specton_audit::AuditSink::append] *)
Class AuditSink (A : Type) : Type := {
  sink_append : AuditEvent -> M A AuditError Z
}.

Record RegistryAuditLog (A : Type) : Type := mkRegistryAuditLog {
  events : list RegistryAuditEvent;
  sink : A;
  fail_closed_writes : bool
}.
Arguments mkRegistryAuditLog {A}.
Arguments events {A}.
Arguments sink {A}.
Arguments fail_closed_writes {A}.

Section log.
Context {A : Type} `{AuditSink A} (display : AuditError -> str).

Definition with_sink (s : A) (fail_closed : bool) : RegistryAuditLog A :=
  mkRegistryAuditLog [] s fail_closed.

(** Oldest first. *)
Definition push_ring (e : RegistryAuditEvent) (log : RegistryAuditLog A) : RegistryAuditLog A :=
  let evs := if MAX_EVENTS <=? Z.of_nat (length (events log)) then tail (events log) else events log in
  mkRegistryAuditLog (evs ++ [e]) (sink log) (fail_closed_writes log).

Definition append_sink (e : AuditEvent) : M (RegistryAuditLog A) AuditError Z :=
  fun log => let '(s, r) := sink_append e (sink log) in
             (mkRegistryAuditLog (events log) s (fail_closed_writes log), r).

(** [sampled] is the draw [sample_pulls > 0.0 && random() < sample_pulls]. *)
Definition persists (sampled : bool) (e : RegistryAuditEvent) : bool :=
  if is_write e then true else if is_pull e then sampled else true.

Definition record (sampled : bool) (e : RegistryAuditEvent) : M (RegistryAuditLog A) str unit :=
  do! modify (push_ring e) in
  if persists sampled e then
    let! closed := gets fail_closed_writes in
    let! r := attempt (append_sink (to_chained e)) in
    match r with
    | Ok _ => ret tt
    | Err err => if is_write e && closed then throw (display err) else ret tt
    end
  else ret tt.

Definition recent (limit : nat) (log : RegistryAuditLog A) : list RegistryAuditEvent :=
  take limit (rev (events log)).

Definition event_count (log : RegistryAuditLog A) : nat := length (events log).

Definition by_type (t : str) (limit : nat) (log : RegistryAuditLog A) : list RegistryAuditEvent :=
  take limit (filter (fun e => event_type e = t) (rev (events log))).

Definition by_subject (s : str) (limit : nat) (log : RegistryAuditLog A) : list RegistryAuditEvent :=
  take limit (filter (fun e => rae_subject e = s) (rev (events log))).

(** A stream of events, each with its draw; the outcomes are the callers'. *)
Definition record_all (es : list (bool * RegistryAuditEvent)) (log : RegistryAuditLog A) :
    RegistryAuditLog A :=
  foldl (fun log ev => exec (record ev.1 ev.2) log) log es.

(** ** The ring *)

Lemma record_events b e log :
  events (exec (record b e) log) = events (push_ring e log).
Proof.
  unfold exec, record, bind, modify, gets, attempt, append_sink. cbn.
  destruct (persists b e); [|done].
  destruct (sink_append _ _) as [s [x|err]]; cbn; [done|]. by destruct (is_write e && _).
Qed.

(** The newest [MAX_EVENTS] of a list in arrival order. *)
Definition newest (es : list RegistryAuditEvent) : list RegistryAuditEvent :=
  drop (Z.to_nat (Z.of_nat (length es) - MAX_EVENTS)) es.

Lemma newest_short es : Z.of_nat (length es) <= MAX_EVENTS -> newest es = es.
Proof. intros Hn. unfold newest. by replace (Z.to_nat _) with 0%nat by lia. Qed.

Lemma newest_length es : Z.of_nat (length (newest es)) = Z.min (Z.of_nat (length es)) MAX_EVENTS.
Proof. unfold newest. rewrite length_drop. unfold MAX_EVENTS. lia. Qed.

Lemma tail_drop {B} n (l : list B) : tail (drop n l) = drop (S n) l.
Proof. revert n. induction l as [|x l IH]; intros [|n]; cbn; done. Qed.

Lemma push_newest e log es :
  events log = newest es -> events (push_ring e log) = newest (es ++ [e]).
Proof.
  intros Hl. cbn [push_ring events]. rewrite Hl. pose proof (newest_length es) as Hn.
  destruct (Z.leb_spec MAX_EVENTS (Z.of_nat (length (newest es)))) as [Hle|Hgt];
    unfold newest; rewrite length_app; cbn [length].
  - assert (0 < MAX_EVENTS) by done.
    replace (Z.to_nat (Z.of_nat (length es + 1) - MAX_EVENTS))
      with (S (Z.to_nat (Z.of_nat (length es) - MAX_EVENTS))) by lia.
    rewrite drop_app_le by lia. f_equal. apply tail_drop.
  - replace (Z.to_nat (Z.of_nat (length es + 1) - MAX_EVENTS)) with 0%nat by lia.
    by replace (Z.to_nat (Z.of_nat (length es) - MAX_EVENTS)) with 0%nat by lia.
Qed.

Lemma record_all_newest es log past :
  events log = newest past -> events (record_all es log) = newest (past ++ map snd es).
Proof.
  revert log past. induction es as [|[b e] es IH]; intros log past Hl; cbn [record_all foldl map].
  - by rewrite app_nil_r.
  - change (foldl _ ?l es) with (record_all es l).
    rewrite (IH _ (past ++ [e])).
    + by rewrite <- app_assoc.
    + cbn. rewrite record_events. by apply push_newest.
Qed.

Lemma recent_newest limit log es :
  events log = newest es -> Z.of_nat limit <= MAX_EVENTS -> recent limit log = take limit (rev es).
Proof.
  intros Hl Hn. unfold recent. rewrite Hl. unfold newest.
  assert (Hr : forall k, (k <= length es)%nat -> rev (drop k es) = take (length es - k) (rev es)).
  { intros k Hk. rewrite firstn_rev. f_equal. f_equal. lia. }
  rewrite Hr by (unfold MAX_EVENTS; lia). rewrite take_take.
  destruct (decide (length es <= limit)%nat).
  - rewrite !take_ge by (rewrite length_rev; unfold MAX_EVENTS in *; lia). done.
  - f_equal. unfold MAX_EVENTS in *. lia.
Qed.
End log.

(** After any stream of events the ring holds the newest [MAX_EVENTS] of
    them in arrival order, never more, and [recent] lists the latest first. *)
Theorem audit_ring_newest {A : Type} `{AuditSink A} (display : AuditError -> str) (s : A)
    (closed : bool) (es : list (bool * RegistryAuditEvent)) :
  let log := record_all display es (with_sink s closed) in
  events log = newest (map snd es) /\
  Z.of_nat (event_count log) = Z.min (Z.of_nat (length es)) MAX_EVENTS /\
  (forall limit, Z.of_nat limit <= MAX_EVENTS -> recent limit log = take limit (rev (map snd es))).
Proof.
  intros log. assert (Hl : events log = newest (map snd es)).
  { apply (record_all_newest display es (with_sink s closed) []). done. }
  split_and!; [done| |].
  - unfold event_count. by rewrite Hl, newest_length, length_map.
  - intros limit. by apply recent_newest.
Qed.

(** [record] puts every event in the ring; the sink sees every event but
    an unsampled pull; and it fails exactly when the sink fails on a write
    event of a fail-closed log, so a failing sink never fails a pull. *)
Theorem audit_record_contract {A : Type} `{AuditSink A} (display : AuditError -> str)
    (sampled : bool) (e : RegistryAuditEvent) (log : RegistryAuditLog A) :
  let '(s', r) := sink_append (to_chained e) (sink log) in
  let '(log', res) := record display sampled e log in
  events log' = events (push_ring e log) /\
  sink log' = (if negb (is_write e) && is_pull e && negb sampled then sink log else s') /\
  (is_ok res = false <-> is_write e = true /\ fail_closed_writes log = true /\ is_ok r = false) /\
  (forall err, r = Err err -> is_ok res = false -> res = Err (display err)).
Proof.
  destruct (sink_append _ _) as [s' r] eqn:Es.
  destruct (record display sampled e log) as [log' res] eqn:Er.
  assert (He : events log' = events (push_ring e log)).
  { rewrite <- (record_events display sampled). unfold exec. by rewrite Er. }
  split; [done|]. clear He. revert Er.
  unfold record, bind, modify, gets, attempt, append_sink, persists.
  destruct (is_write e) eqn:Hw, (is_pull e) eqn:Hp, sampled; cbn; rewrite ?Es;
    destruct r as [x|err]; cbn; try destruct (fail_closed_writes log) eqn:Hc; cbn;
    intros [= <- <-]; cbn; naive_solver.
Qed.
