(* ===== verification/Ephemeral.v ===== *)
(** * Tag lifetimes ([crates/specton-ephemeral/src/ttl.rs])

    The [X-SpectonCR-TTL] header of a push and the cap a project puts on it.
    Times are in nanoseconds since the epoch.  [chrono] is not part of the
    repository; the code relies on three documented facts of it: [TimeDelta]
    constructors panic beyond [i64::MAX] milliseconds, adding a duration to a
    time panics beyond [MAX_UTC], and [parse_from_rfc3339] parses a timestamp. *)

From S2P Require Import Prelude Orders.

Local Open Scope Z_scope.

Inductive TtlError : Type :=
| Empty
| Invalid (why : str).

Definition i64_max : Z := 9223372036854775807.

(** [s.parse::<i64>()] *)
Definition parse_i64 (s : str) : option Z :=
  let checked (sign : Z) (d : str) :=
    if non_empty d && forallb is_ascii_digit d then
      let z := sign * digits_val d in
      if (- i64_max - 1 <=? z) && (z <=? i64_max) then Some z else None
    else None in
  match s with
  | c :: s' =>
      if byte_is 43 c then checked 1 s'
      else if byte_is 45 c then checked (-1) s'
      else checked 1 s
  | [] => None
  end.

(** Seconds of a unit suffix. *)
Definition unit_secs (suffix : str) : option Z :=
  if str_eqb suffix "s" then Some 1
  else if str_eqb suffix "m" then Some 60
  else if str_eqb suffix "h" then Some 3600
  else if str_eqb suffix "d" then Some 86400
  else if str_eqb suffix "w" then Some 604800
  else None.

Definition nanos : Z := 1000000000.

Section ttl.
Context (rfc3339 : str -> option Z) (max_utc : Z).

(** [Duration::seconds(n)] and the like; [None] is a panic. *)
Definition duration (n secs : Z) : option Z :=
  if n * secs * 1000 <=? i64_max then Some (n * secs * nanos) else None.

(** [now + dur]; [None] is a panic. *)
Definition add_time (now dur : Z) : option Z :=
  if now + dur <=? max_utc then Some (now + dur) else None.

(** The expiry time or an error; [None] when the code panics. *)
Definition parse_ttl_header (now : Z) (raw : str) : option (result Z TtlError) :=
  let raw := trim raw in
  if negb (non_empty raw) then Some (Err Empty)
  else
    match rfc3339 raw with
    | Some dt => Some (Ok dt)
    | None =>
        let '(num_part, suffix) := span (fun c => is_ascii_digit c || byte_is 45 c) raw in
        match suffix with
        | [] => Some (Err (Invalid raw))
        | _ =>
            match parse_i64 num_part with
            | None => Some (Err (Invalid raw))
            | Some n =>
                if n <? 0 then Some (Err (Invalid ("negative TTL: " ++ raw)))
                else
                  match unit_secs suffix with
                  | None => Some (Err (Invalid ("unknown unit: " ++ suffix)))
                  | Some secs =>
                      match duration n secs with
                      | None => None
                      | Some dur =>
                          match add_time now dur with
                          | None => None
                          | Some t => Some (Ok t)
                          end
                      end
                  end
            end
        end
    end.

(** [None] when [now + Duration::seconds(max_secs)] panics. *)
Definition cap_ttl (expires_at now max_secs : Z) : option (Z * bool) :=
  match duration max_secs 1 with
  | None => None
  | Some d =>
      match add_time now d with
      | None => None
      | Some max => Some (if max <? expires_at then (max, true) else (expires_at, false))
      end
  end.
End ttl.

(** ** Durations *)

Lemma parse_i64_dec n : 0 <= n -> parse_i64 (dec n) = if n <=? i64_max then Some n else None.
Proof.
  intros Hn. destruct (dec_spec n Hn) as (Hv & Hd & Hne). unfold all_digits in Hd.
  destruct (dec n) as [|c s] eqn:E; [done|]. unfold parse_i64.
  assert (Hc : is_ascii_digit c = true) by (cbn in Hd; apply andb_true_iff in Hd as [? _]; done).
  assert (H43 : byte_is 43 c = false /\ byte_is 45 c = false).
  { revert Hc. unfold is_ascii_digit, byte_in, byte_is. lia. }
  destruct H43 as [-> ->]. cbn [non_empty andb]. rewrite Hd, Z.mul_1_l, Hv.
  replace (- i64_max - 1 <=? n) with true; [done|].
  symmetry. apply Z.leb_le. unfold i64_max. lia.
Qed.

Lemma unit_suffix u secs : unit_secs u = Some secs ->
  exists c, u = [c] /\ is_ascii_digit c = false /\ byte_is 45 c = false /\ graphic c = true /\ 0 < secs.
Proof.
  unfold unit_secs.
  repeat match goal with
  | |- context [str_eqb u ?x] =>
      destruct (str_eqb_spec u x) as [->|_]; [intros [= <-]; eexists; by split_and!|]
  end. done.
Qed.

Lemma trim_ttl n u secs : 0 <= n -> unit_secs u = Some secs -> trim (dec n ++ u) = dec n ++ u.
Proof.
  intros Hn (c & -> & _ & _ & Hg & _)%unit_suffix.
  destruct (dec_spec n Hn) as (_ & Hd & Hne). unfold all_digits in Hd.
  destruct (dec n) as [|d s] eqn:E; [done|].
  eapply (trim_graphic _ d c); [done|done| |done].
  cbn in Hd. apply andb_true_iff in Hd as [Hd _]. revert Hd.
  unfold is_ascii_digit, graphic, byte_in. lia.
Qed.

Lemma span_ttl n u secs : 0 <= n -> unit_secs u = Some secs ->
  span (fun c => is_ascii_digit c || byte_is 45 c) (dec n ++ u) = (dec n, u).
Proof.
  intros Hn (c & -> & Hc & Hm & _)%unit_suffix.
  destruct (dec_spec n Hn) as (_ & Hd & _). unfold all_digits in Hd.
  apply span_app_stop; [|by rewrite Hc, Hm].
  revert Hd. apply forallb_impl. intros d ->. done.
Qed.

(** A duration header [<n><unit>] that is not a timestamp gives the time
    [n] units from now when both the duration and the sum are representable;
    it is rejected when [n] is not an [i64]; and in the remaining cases the
    code panics. *)
Theorem ttl_duration (rfc3339 : str -> option Z) (max_utc now n secs : Z) (u : str)
    (Hn : 0 <= n) (Hu : unit_secs u = Some secs) (Hr : rfc3339 (dec n ++ u) = None) :
  parse_ttl_header rfc3339 max_utc now (dec n ++ u) =
    if n <=? i64_max then
      if (n * secs * 1000 <=? i64_max) && (now + n * secs * nanos <=? max_utc)
      then Some (Ok (now + n * secs * nanos))
      else None
    else Some (Err (Invalid (dec n ++ u))).
Proof.
  unfold parse_ttl_header. rewrite (trim_ttl n u secs), Hr, (span_ttl n u secs) by done.
  destruct (unit_suffix u secs Hu) as (c & Hc & _).
  assert (Hne : non_empty (dec n ++ u) = true).
  { rewrite Hc. by destruct (dec n). }
  rewrite Hne, parse_i64_dec by done. rewrite Hc. cbn [negb]. rewrite <- Hc.
  destruct (n <=? i64_max); [|done].
  replace (n <? 0) with false by lia. rewrite Hu. unfold duration, add_time.
  destruct (n * secs * 1000 <=? i64_max); [|done]. cbn [andb].
  by destruct (now + n * secs * nanos <=? max_utc).
Qed.

Lemma ttl_duration_witness :
  parse_ttl_header (fun _ => None) (8210298412799 * nanos) 0 "7d" = Some (Ok (604800 * nanos)) /\
  parse_ttl_header (fun _ => None) (8210298412799 * nanos) 0 "999999999999d" = None.
Proof.
  split.
  - exact (ttl_duration (fun _ => None) (8210298412799 * nanos) 0 7 86400 "d"
      ltac:(lia) eq_refl eq_refl).
  - exact (ttl_duration (fun _ => None) (8210298412799 * nanos) 0 999999999999 86400 "d"
      ltac:(lia) eq_refl eq_refl).
Defined.
