(* ===== verification/Auth.v ===== *)
(** * Access control of the registry

    Roles, actions and token claims ([crates/specton-common/src/models.rs],
    [auth.rs]), the registry's error type ([errors.rs]), and the extraction,
    authorization and dashboard-password checks of
    [crates/specton-registry/src/main.rs].  Decoding a JWT, base64 and SHA-256
    are library code and parameters. *)

From S2P Require Import Prelude Orders.

Local Open Scope Z_scope.
Local Open Scope result_scope.

(** ** [models.rs] *)

Inductive Role : Type := Admin | Maintainer | Reader.
Inductive Action : Type := Pull | Push | Delete | Tag | Manage.

#[global] Instance role_eq_dec : EqDecision Role.
Proof. solve_decision. Defined.
#[global] Instance action_eq_dec : EqDecision Action.
Proof. solve_decision. Defined.

Definition allowed_actions (r : Role) : list Action :=
  match r with
  | Admin => [Pull; Push; Delete; Tag; Manage]
  | Maintainer => [Pull; Push; Delete; Tag]
  | Reader => [Pull]
  end.

Definition can (r : Role) (a : Action) : bool := bool_decide (a ∈ allowed_actions r).

(** [{:?}] *)
Definition role_debug (r : Role) : str :=
  match r with
  | Admin => "Admin"
  | Maintainer => "Maintainer"
  | Reader => "Reader"
  end.

Definition action_debug (a : Action) : str :=
  match a with
  | Pull => "Pull"
  | Push => "Push"
  | Delete => "Delete"
  | Tag => "Tag"
  | Manage => "Manage"
  end.

(** ** [auth.rs] *)

Record TokenScope : Type := mkTokenScope {
  scope_repository : str;
  scope_actions : list Action
}.

Record TokenClaims : Type := mkTokenClaims {
  iss : str;
  claims_sub : str;
  aud : str;
  exp : Z;
  iat : Z;
  jti : str;
  tenant_id : str;
  tenant_name : option str;
  project_id : option str;
  claims_role : Role;
  scopes : list TokenScope
}.

(** ** [errors.rs] *)

Inductive RegistryError : Type :=
| BlobUnknown (digest : str)
| BlobUploadInvalid
| DigestInvalid (expected actual : str)
| ManifestUnknown (reference : str)
| ManifestInvalid (reason : str)
| NameUnknown (name : str)
| TagUnknown (tag : str)
| Unauthorized
| Forbidden (reason : str)
| TenantNotFound (tenant : str)
| ProjectNotFound (project : str)
| RateLimitExceeded
| TokenExpired
| TokenInvalid (reason : str)
| Internal (what : str)
| Storage (what : str)
| CircuitBreakerOpen (target : str)
| UpstreamError (what : str)
| RetriesExhausted (what : str)
| FailoverError (what : str)
| AuditUnavailable (what : str)
| ManifestUnverified (reason : str).

Definition oci_code (e : RegistryError) : str :=
  match e with
  | BlobUnknown _ => "BLOB_UNKNOWN"
  | BlobUploadInvalid => "BLOB_UPLOAD_INVALID"
  | DigestInvalid _ _ => "DIGEST_INVALID"
  | ManifestUnknown _ => "MANIFEST_UNKNOWN"
  | ManifestInvalid _ => "MANIFEST_INVALID"
  | NameUnknown _ => "NAME_UNKNOWN"
  | TagUnknown _ => "TAG_UNKNOWN"
  | Unauthorized => "UNAUTHORIZED"
  | Forbidden _ => "DENIED"
  | TenantNotFound _ => "NAME_UNKNOWN"
  | ProjectNotFound _ => "NAME_UNKNOWN"
  | RateLimitExceeded => "TOOMANYREQUESTS"
  | TokenExpired | TokenInvalid _ => "UNAUTHORIZED"
  | Internal _ | Storage _ => "UNKNOWN"
  | CircuitBreakerOpen _ | AuditUnavailable _ => "UNAVAILABLE"
  | UpstreamError _ => "UPSTREAM_ERROR"
  | RetriesExhausted _ => "RETRIES_EXHAUSTED"
  | FailoverError _ => "FAILOVER_ERROR"
  | ManifestUnverified _ => "MANIFEST_UNVERIFIED"
  end.

Definition error_status (e : RegistryError) : Z :=
  match e with
  | BlobUnknown _ | ManifestUnknown _ | NameUnknown _ | TagUnknown _
  | TenantNotFound _ | ProjectNotFound _ => 404
  | BlobUploadInvalid | DigestInvalid _ _ | ManifestInvalid _ => 400
  | Unauthorized | TokenExpired | TokenInvalid _ => 401
  | Forbidden _ | ManifestUnverified _ => 403
  | RateLimitExceeded => 429
  | Internal _ | Storage _ => 500
  | CircuitBreakerOpen _ | AuditUnavailable _ => 503
  | UpstreamError _ | RetriesExhausted _ => 502
  | FailoverError _ => 503
  end.

(** ** Authorization ([main.rs]) *)

Definition scope_grants (repo_path : str) (a : Action) (s : TokenScope) : bool :=
  (str_eqb (scope_repository s) repo_path || str_eqb (scope_repository s) "*")
  && bool_decide (a ∈ scope_actions s).

Definition authorize (claims : TokenClaims) (tenant project name : str) (a : Action) :
    result unit RegistryError :=
  let repo_path := tenant ++ "/" ++ project ++ "/" ++ name in
  if negb (can (claims_role claims) a) then
    Err (Forbidden ("role " ++ role_debug (claims_role claims) ++ " does not permit action "
                      ++ action_debug a))
  else if bool_decide (claims_role claims = Admin) then Ok tt
  else if negb (existsb (scope_grants repo_path a) (scopes claims)) then
    Err (Forbidden ("token scopes do not grant " ++ action_debug a ++ " on " ++ repo_path))
  else Ok tt.

(** [jsonwebtoken]'s failures, as far as they are told apart. *)
Inductive JwtError : Type :=
| ExpiredSignature
| OtherJwt (display : str).

Inductive Algorithm : Type := EdDSA | RS256.

Record AuthConfig : Type := mkAuthConfig {
  signing_algorithm : str;
  audience : str;
  issuer : str
}.

Section extract.
Context (decode : Algorithm -> str -> str -> str -> result TokenClaims JwtError).

(** The [AuthenticatedClaims] extractor; the header is [None] when it is
    absent or not visible ASCII. *)
Definition from_request_parts (cfg : AuthConfig) (auth_header : option str) :
    result TokenClaims RegistryError :=
  let? h := ok_or auth_header Unauthorized in
  let? token := ok_or (strip_prefix "Bearer " h) Unauthorized in
  let algorithm := if str_eqb (signing_algorithm cfg) "EdDSA" then EdDSA else RS256 in
  map_err (fun e => match e with
                    | ExpiredSignature => TokenExpired
                    | OtherJwt d => TokenInvalid d
                    end)
    (decode algorithm (audience cfg) (issuer cfg) token).
End extract.

(** ** The dashboard's password check *)

(** [for (x, y) in a.iter().zip(b.iter()) { diff |= x ^ y; }] *)
Fixpoint diff_bytes (diff : Z) (a b : str) : Z :=
  match a, b with
  | x :: a', y :: b' => diff_bytes (Z.lor diff (Z.lxor (byte_val x) (byte_val y))) a' b'
  | _, _ => diff
  end.

Definition constant_time_compare (a b : str) : bool :=
  if negb (length a =? length b)%nat then false
  else diff_bytes 0 a b =? 0.

Record DashboardAuthConfig : Type := mkDashboardAuthConfig {
  dash_enabled : bool;
  username : str;
  password_hash : str
}.

Section dashboard.
Context (base64_utf8 : str -> option str) (sha256_hex : str -> str).

(** Does [dashboard_auth_middleware] run the request? *)
Definition dashboard_allows (cfg : DashboardAuthConfig) (auth_header : option str) : bool :=
  if negb (dash_enabled cfg) then true
  else
    match auth_header with
    | None => false
    | Some v =>
        match strip_prefix "Basic " v with
        | None => false
        | Some encoded =>
            match base64_utf8 (trim encoded) with
            | None => false
            | Some cred_str =>
                match split_once_byte ":"%char cred_str with
                | None => false
                | Some (user, pass) =>
                    str_eqb user (username cfg)
                    && constant_time_compare (sha256_hex pass) (password_hash cfg)
                end
            end
        end
    end.
End dashboard.

(** ** Properties *)

Lemma diff_bytes_zero d a b : 0 <= d ->
  length a = length b -> diff_bytes d a b = 0 <-> d = 0 /\ a = b.
Proof.
  revert d b. induction a as [|x a IH]; intros d [|y b] Hd Hl; cbn in *; try lia; [naive_solver|].
  assert (Hb : forall c, 0 <= byte_val c) by (intros c; unfold byte_val; lia).
  assert (0 <= Z.lxor (byte_val x) (byte_val y)) by (apply Z.lxor_nonneg; split; auto).
  rewrite IH by (try apply Z.lor_nonneg; lia). rewrite Z.lor_eq_0_iff, Z.lxor_eq_0_iff.
  split; [|naive_solver]. intros ((-> & Hv) & ->). split; [done|]. f_equal.
  by apply byte_val_inj.
Qed.

(** C5: A request is authorized exactly when its role permits the action and
    the role is [Admin] or one scope of the token names the repository (or
    [*]) together with the action; every other outcome is [403]. *)
Theorem authorize_exact (claims : TokenClaims) (tenant project name : str) (a : Action) :
  (authorize claims tenant project name a = Ok tt <->
   a ∈ allowed_actions (claims_role claims) /\
   (claims_role claims = Admin \/
    exists s, s ∈ scopes claims /\ a ∈ scope_actions s /\
      (scope_repository s = tenant ++ "/" ++ project ++ "/" ++ name \/ scope_repository s = "*"))) /\
  (forall e, authorize claims tenant project name a = Err e -> error_status e = 403).
Proof.
  unfold authorize, can. split.
  - case_bool_decide as Hc; cbn; [|naive_solver].
    case_bool_decide as Hr; [naive_solver|].
    destruct (existsb _ _) eqn:He; cbn.
    + split; [intros _|done]. split; [done|]. right.
      apply existsb_exists in He as (s & Hs & Hg). unfold scope_grants in Hg.
      apply andb_true_iff in Hg as [Hg Ha%bool_decide_eq_true_1]. exists s.
      split; [by apply list_elem_of_In|]. split; [done|].
      apply orb_true_iff in Hg as [Hg|Hg]; [left|right]; revert Hg; apply str_eqb_true.
    + split; [done|]. intros (_ & [?|(s & Hs & Ha & Hg)]); [done|].
      rewrite <- not_true_iff_false in He. destruct He. apply existsb_exists. exists s.
      split; [by apply list_elem_of_In|]. unfold scope_grants. rewrite (bool_decide_eq_true_2 _ Ha), andb_true_r.
      destruct Hg as [-> | ->]; rewrite str_eqb_refl; [done|apply orb_true_r].
  - intros e. repeat case_match; naive_solver.
Qed.

(** The constant-time comparison is equality, and an enabled dashboard
    runs a request exactly when it carries [Basic] credentials of the
    configured user whose password hashes to the configured hash. *)
Theorem dashboard_auth_exact (base64_utf8 : str -> option str) (sha256_hex : str -> str)
    (cfg : DashboardAuthConfig) (auth_header : option str) :
  (forall a b, constant_time_compare a b = true <-> a = b) /\
  (dashboard_allows base64_utf8 sha256_hex cfg auth_header = true <->
   dash_enabled cfg = false \/
   exists encoded cred user pass,
     auth_header = Some ("Basic " ++ encoded) /\ base64_utf8 (trim encoded) = Some cred /\
     split_once_byte ":"%char cred = Some (user, pass) /\
     user = username cfg /\ sha256_hex pass = password_hash cfg).
Proof.
  assert (Hct : forall a b, constant_time_compare a b = true <-> a = b).
  { intros a b. unfold constant_time_compare. destruct (Nat.eqb_spec (length a) (length b)); cbn.
    - rewrite Z.eqb_eq, diff_bytes_zero by done. naive_solver.
    - split; [done|]. by intros ->. }
  split; [done|]. unfold dashboard_allows. destruct (dash_enabled cfg); cbn [negb]; [|naive_solver].
  destruct auth_header as [v|]; [|naive_solver].
  destruct (strip_prefix "Basic " v) as [encoded|] eqn:Ev.
  2: { split; [done|]. intros [?|(en & _ & _ & _ & [= Hv] & _)]; [done|].
       apply (strip_prefix_some "Basic " v en) in Hv. congruence. }
  apply strip_prefix_some in Ev as ->.
  assert (Hinj : forall x, Some ("Basic " ++ encoded) = Some ("Basic " ++ x) <-> encoded = x) by naive_solver.
  setoid_rewrite Hinj. destruct (base64_utf8 (trim encoded)) as [cred|] eqn:Eb; [|naive_solver].
  destruct (split_once_byte ":"%char cred) as [[user pass]|] eqn:Es; [|naive_solver].
  rewrite andb_true_iff, Hct. destruct (str_eqb_spec user (username cfg)); naive_solver.
Qed.
