(* ===== verification/Utf8.v ===== *)
(** * UTF-8

    [String::from_utf8] and [String::from_utf8_lossy] of the standard library,
    after its chunk iterator: one step reads one character, or the longest
    prefix of an invalid one. *)

From S2P Require Import Prelude.

Local Open Scope Z_scope.

(** The byte at [i], zero beyond the end ([safe_get]). *)
Definition safe_get (s : str) (i : nat) : Z :=
  match s !! i with
  | Some c => byte_val c
  | None => 0
  end.

Definition between (lo hi z : Z) : bool := (lo <=? z) && (z <=? hi).
Definition is_cont (z : Z) : bool := between 128 191 z.

(** Bytes consumed, and whether they are a character.  [s] is not empty. *)
Definition utf8_next (s : str) : nat * bool :=
  let b := safe_get s 0 in
  let b1 := safe_get s 1 in
  if b <? 128 then (1%nat, true)
  else if between 194 223 b then
    if is_cont b1 then (2%nat, true) else (1%nat, false)
  else if between 224 239 b then
    if (b =? 224) && between 160 191 b1 || between 225 236 b && is_cont b1
       || (b =? 237) && between 128 159 b1 || between 238 239 b && is_cont b1 then
      if is_cont (safe_get s 2) then (3%nat, true) else (2%nat, false)
    else (1%nat, false)
  else if between 240 244 b then
    if (b =? 240) && between 144 191 b1 || between 241 243 b && is_cont b1
       || (b =? 244) && between 128 143 b1 then
      if is_cont (safe_get s 2) then
        if is_cont (safe_get s 3) then (4%nat, true) else (3%nat, false)
      else (2%nat, false)
    else (1%nat, false)
  else (1%nat, false).

(** U+FFFD *)
Definition replacement : str := ["239"%char; "191"%char; "189"%char].

(** Each step consumes at least one byte, so [length s] steps are enough. *)
Fixpoint lossy_loop (fuel : nat) (s : str) : str * bool :=
  match fuel, s with
  | _, [] => ([], true)
  | O, _ => ([], true)
  | S fuel', _ =>
      let '(n, valid) := utf8_next s in
      let '(rest, all_valid) := lossy_loop fuel' (drop n s) in
      ((if valid then take n s else replacement) ++ rest, valid && all_valid)
  end.

Definition from_utf8_lossy (s : str) : str := fst (lossy_loop (length s) s).

Definition from_utf8 (s : str) : option str :=
  if snd (lossy_loop (length s) s) then Some s else None.

Lemma lossy_loop_ascii n s : (length s <= n)%nat ->
  forallb (fun c => byte_val c <? 128) s = true -> lossy_loop n s = (s, true).
Proof.
  revert s. induction n as [|n IH]; intros [|c s] Hn Hs; cbn in Hn |- *; try done; [lia|].
  cbn in Hs. apply andb_true_iff in Hs as [Hc Hs].
  unfold utf8_next. cbn [safe_get lookup list_lookup]. rewrite Hc. cbn [drop take].
  rewrite drop_0. rewrite IH by (done || lia). done.
Qed.

Lemma from_utf8_ascii s : forallb (fun c => byte_val c <? 128) s = true -> from_utf8 s = Some s.
Proof. intros Hs. unfold from_utf8. by rewrite lossy_loop_ascii. Qed.

Lemma from_utf8_lossy_ascii s :
  forallb (fun c => byte_val c <? 128) s = true -> from_utf8_lossy s = s.
Proof. intros Hs. unfold from_utf8_lossy. by rewrite lossy_loop_ascii. Qed.

(** A valid string is unchanged by the lossy conversion. *)
Lemma from_utf8_lossy_valid s t : from_utf8 s = Some t -> from_utf8_lossy s = s.
Proof.
  unfold from_utf8, from_utf8_lossy. intros H.
  assert (Hv : snd (lossy_loop (length s) s) = true) by by destruct (snd _). clear H.
  assert (Hg : forall n u, (length u <= n)%nat -> snd (lossy_loop n u) = true -> fst (lossy_loop n u) = u).
  { clear. induction n as [|n IH]; intros [|c u] Hn; cbn in Hn |- *; try done; [lia|].
    destruct (utf8_next (c :: u)) as [k valid] eqn:Ek.
    assert (Hk : (0 < k)%nat) by (revert Ek; unfold utf8_next; repeat case_match; intros [= <- <-]; lia).
    specialize (IH (drop k (c :: u))). destruct (lossy_loop n (drop k (c :: u))) as [rest ok] eqn:El.
    cbn in *. intros [-> ->]%andb_true_iff. rewrite IH; [apply (take_drop k (c :: u))| |done].
    rewrite length_drop. cbn. lia. }
  by apply Hg.
Qed.
