(* ===== verification/AuthCore.v ===== *)
(** * The auth service: identities, roles and state

    ([crates/specton-auth/src/main.rs], the records of
    [crates/specton-common/src/auth.rs], [models.rs] and [config.rs].)  The
    in-memory tables of the service, its configuration, Docker scope strings,
    group patterns, role resolution and the authentication of callers.
    Hashes, base64, JSON, JWTs and HTTP discovery are library code and
    parameters.  Times are nanoseconds since the epoch. *)

From S2P Require Import Prelude Json Text Effects Auth Utf8.

Local Open Scope Z_scope.

(** ** Records

    Fields nothing here reads (display names, rate limits, claim names and the
    like) are left out. *)

Record Tenant : Type := mkTenant {
  t_id : str;
  t_name : str;
  t_enabled : bool;
  t_storage_prefix : str
}.

Record Project : Type := mkProject {
  p_id : str;
  p_tenant_id : str;
  p_name : str
}.

Record AccessPolicy : Type := mkAccessPolicy {
  pol_id : str;
  pol_tenant_id : str;
  pol_project_id : option str;
  pol_subject : str;
  pol_role : Role;
  pol_created_at : Z
}.

Record RequestedScope : Type := mkRequestedScope {
  rs_tenant : str;
  rs_project : option str;
  rs_repository : option str;
  rs_actions : list Action
}.

Record UserRecord : Type := mkUserRecord {
  u_subject : str;
  u_email : option str;
  u_display_name : option str;
  u_groups : list str;
  u_auth_method : str;
  u_first_seen : Z;
  u_last_login : Z;
  u_login_count : Z
}.

Record RobotAccount : Type := mkRobotAccount {
  rb_id : str;
  rb_name : str;
  rb_description : str;
  rb_tenant : str;
  rb_project : option str;
  rb_role : Role;
  rb_secret_hash : str;
  rb_created_at : Z;
  rb_expires_at : option Z;
  rb_last_used : option Z;
  rb_enabled : bool
}.

Record RefreshToken : Type := mkRefreshToken {
  rt_id : str;
  rt_subject : str;
  rt_tenant_id : str;
  rt_project_id : option str;
  rt_role : Role;
  rt_scopes : list TokenScope;
  rt_created_at : Z;
  rt_expires_at : Z;
  rt_revoked : bool
}.

Record OidcSession : Type := mkOidcSession {
  os_state : str;
  os_pkce_verifier : str;
  os_provider_name : str;
  os_redirect_uri : str;
  os_created_at : Z
}.

Inductive AuditDecision : Type := Allow | Deny.

Record AuthAuditEvent : Type := mkAuthAuditEvent {
  ae_timestamp : Z;
  ae_subject : str;
  ae_tenant : str;
  ae_project : option str;
  ae_action : str;
  ae_decision : AuditDecision;
  ae_reason : str;
  ae_request_id : str;
  ae_auth_method : option str;
  ae_groups : option (list str)
}.

(** ** Configuration *)

Record OidcProviderConfig : Type := mkOidcProviderConfig {
  op_issuer_url : str;
  op_client_id : str;
  op_client_secret : option str;
  op_allowed_groups : list str;
  op_display_name : option str
}.

Record GroupRoleMapping : Type := mkGroupRoleMapping {
  gm_group : str;
  gm_tenant : str;
  gm_project : option str;
  gm_role : Role
}.

Record CiOidcProvider : Type := mkCiOidcProvider {
  ci_name : str;
  ci_issuer_url : str;
  ci_subject_prefix : str;
  ci_allowed_claims : list (str * list str);
  ci_default_role : str;
  ci_max_ttl_seconds : Z
}.

Record GitHubOidcConfig : Type := mkGitHubOidcConfig {
  gh_issuer_url : str;
  gh_allowed_orgs : list str;
  gh_allowed_repos : list str;
  gh_default_role : str
}.

Record BootstrapAdmin : Type := mkBootstrapAdmin {
  ba_username : str;
  ba_password_hash : str
}.

Record ServiceConfig : Type := mkServiceConfig {
  bootstrap_admin : option BootstrapAdmin;
  svc_issuer : str;
  svc_audience : str;
  token_ttl_seconds : Z;
  oidc_providers : list OidcProviderConfig;
  github_oidc : option GitHubOidcConfig;
  group_role_mappings : list GroupRoleMapping;
  ci_providers : list CiOidcProvider;
  auto_provision_users : bool;
  robot_accounts_enabled : bool;
  scim_enabled : bool;
  scim_bearer_token : option str;
  scim_auto_deactivate : bool;
  auth_listen_addr : str
}.

(** ** OIDC keys *)

Inductive JwkAlgorithm : Type := A_RS256 | A_RS384 | A_RS512 | A_PS256 | A_PS384 | A_PS512.

Record JwkEntry : Type := mkJwkEntry {
  jwk_kty : str;
  jwk_kid : option str;
  jwk_alg : option str;
  jwk_n : option str;
  jwk_e : option str
}.

Record CachedJwk : Type := mkCachedJwk {
  ck_kid : option str;
  ck_decoding_key : str;
  ck_algorithm : JwkAlgorithm
}.

Record CachedProvider : Type := mkCachedProvider {
  cp_issuer_url : str;
  cp_client_id : str;
  cp_jwks_keys : list CachedJwk;
  cp_last_refreshed : Z
}.

Record IdentityTokenClaims : Type := mkIdentityTokenClaims {
  id_sub : str;
  id_iss : str;
  id_exp : option Z
}.

(** ** State *)

Record ScimMember : Type := mkScimMember {
  sm_value : str;
  sm_ref_uri : option str;
  sm_display : option str
}.

Record ScimMeta : Type := mkScimMeta {
  meta_resource_type : str;
  meta_created : option str;
  meta_last_modified : option str;
  meta_location : option str
}.

Record ScimGroup : Type := mkScimGroup {
  sg_schemas : list str;
  sg_id : option str;
  sg_external_id : option str;
  sg_display_name : str;
  sg_members : list ScimMember;
  sg_meta : option ScimMeta
}.

Record AuthState : Type := mkAuthState {
  tenants : gmap str Tenant;
  projects : gmap (str * str) Project;
  access_policies : list AccessPolicy;
  users : gmap str UserRecord;
  oidc_sessions : gmap str OidcSession;
  robot_accounts : gmap str RobotAccount;
  refresh_tokens : gmap str RefreshToken;
  revoked_tokens : gset str;
  scim_groups : gmap str ScimGroup;
  jwks_cache : gmap str CachedProvider;
  audit_events : list AuthAuditEvent
}.

Definition set_policies (f : list AccessPolicy -> list AccessPolicy) (s : AuthState) : AuthState :=
  mkAuthState (tenants s) (projects s) (f (access_policies s)) (users s) (oidc_sessions s)
    (robot_accounts s) (refresh_tokens s) (revoked_tokens s) (scim_groups s) (jwks_cache s)
    (audit_events s).

Definition set_users (f : gmap str UserRecord -> gmap str UserRecord) (s : AuthState) : AuthState :=
  mkAuthState (tenants s) (projects s) (access_policies s) (f (users s)) (oidc_sessions s)
    (robot_accounts s) (refresh_tokens s) (revoked_tokens s) (scim_groups s) (jwks_cache s)
    (audit_events s).

Definition set_sessions (f : gmap str OidcSession -> gmap str OidcSession) (s : AuthState) : AuthState :=
  mkAuthState (tenants s) (projects s) (access_policies s) (users s) (f (oidc_sessions s))
    (robot_accounts s) (refresh_tokens s) (revoked_tokens s) (scim_groups s) (jwks_cache s)
    (audit_events s).

Definition set_robots (f : gmap str RobotAccount -> gmap str RobotAccount) (s : AuthState) : AuthState :=
  mkAuthState (tenants s) (projects s) (access_policies s) (users s) (oidc_sessions s)
    (f (robot_accounts s)) (refresh_tokens s) (revoked_tokens s) (scim_groups s) (jwks_cache s)
    (audit_events s).

Definition set_refresh (f : gmap str RefreshToken -> gmap str RefreshToken) (s : AuthState) : AuthState :=
  mkAuthState (tenants s) (projects s) (access_policies s) (users s) (oidc_sessions s)
    (robot_accounts s) (f (refresh_tokens s)) (revoked_tokens s) (scim_groups s) (jwks_cache s)
    (audit_events s).

Definition set_revoked (f : gset str -> gset str) (s : AuthState) : AuthState :=
  mkAuthState (tenants s) (projects s) (access_policies s) (users s) (oidc_sessions s)
    (robot_accounts s) (refresh_tokens s) (f (revoked_tokens s)) (scim_groups s) (jwks_cache s)
    (audit_events s).

Definition set_groups (f : gmap str ScimGroup -> gmap str ScimGroup) (s : AuthState) : AuthState :=
  mkAuthState (tenants s) (projects s) (access_policies s) (users s) (oidc_sessions s)
    (robot_accounts s) (refresh_tokens s) (revoked_tokens s) (f (scim_groups s)) (jwks_cache s)
    (audit_events s).

Definition set_jwks (f : gmap str CachedProvider -> gmap str CachedProvider) (s : AuthState) : AuthState :=
  mkAuthState (tenants s) (projects s) (access_policies s) (users s) (oidc_sessions s)
    (robot_accounts s) (refresh_tokens s) (revoked_tokens s) (scim_groups s) (f (jwks_cache s))
    (audit_events s).

(** [AuditLog::record]: the oldest of [MAX_AUDIT_EVENTS] makes room. *)
Definition MAX_AUDIT_EVENTS : nat := 1000.

Definition push_event (e : AuthAuditEvent) (es : list AuthAuditEvent) : list AuthAuditEvent :=
  (if (MAX_AUDIT_EVENTS <=? length es)%nat then tail es else es) ++ [e].

Definition log_event (e : AuthAuditEvent) (s : AuthState) : AuthState :=
  mkAuthState (tenants s) (projects s) (access_policies s) (users s) (oidc_sessions s)
    (robot_accounts s) (refresh_tokens s) (revoked_tokens s) (scim_groups s) (jwks_cache s)
    (push_event e (audit_events s)).

(** ** Libraries and requests *)

Record AuthLib : Type := mkAuthLib {
  sha256_hex_of : str -> str;
  sha256_raw : str -> str;
  b64_std : str -> option str;
  b64_url : str -> option str;
  b64_url_enc : str -> str;
  json_of : str -> option json;
  json_err : str -> str;
  rsa_key : str -> str -> option str;
  jwt_header_kid : str -> result (option str) str;
  jwt_identity : str -> JwkAlgorithm -> str -> str -> str -> option IdentityTokenClaims;
  jwt_claims : str -> str -> str -> result TokenClaims str;
  encode_claims : TokenClaims -> option str;
  rfc3339 : Z -> str;
  min_utc : Z;
  max_utc : Z;
  map_order : forall A : Type, list A -> list A
}.

(** What one request draws from the world: the clock, fresh identifiers, the
    limiter's verdict, random bytes, and what the network answers. *)
Record AuthReq : Type := mkAuthReq {
  rq_now : Z;
  rq_uuid : nat -> str;
  rq_limited : bool;
  rq_random : nat -> Z;
  rq_discover : str -> result (list JwkEntry) str;
  rq_document : str -> option json;
  rq_exchange : str -> list (str * str) -> result (bool * str * result json str) str
}.

(** [DateTime::timestamp] and [TimeDelta::num_seconds] *)
Definition timestamp (t : Z) : Z := t / 1000000000.
Definition num_seconds (d : Z) : Z := Z.quot d 1000000000.

Definition error_display (e : RegistryError) : str :=
  match e with
  | BlobUnknown d => "blob unknown: " ++ d
  | BlobUploadInvalid => "blob upload invalid"
  | DigestInvalid x a => "digest mismatch: expected " ++ x ++ ", got " ++ a
  | ManifestUnknown r => "manifest unknown: " ++ r
  | ManifestInvalid r => "manifest invalid: " ++ r
  | NameUnknown n => "repository not found: " ++ n
  | TagUnknown t => "tag unknown: " ++ t
  | Unauthorized => "unauthorized"
  | Forbidden r => "forbidden: " ++ r
  | TenantNotFound t => "tenant not found: " ++ t
  | ProjectNotFound p => "project not found: " ++ p
  | RateLimitExceeded => "rate limit exceeded"
  | TokenExpired => "token expired"
  | TokenInvalid r => "token invalid: " ++ r
  | Internal w => "internal error: " ++ w
  | Storage w => "storage error: " ++ w
  | CircuitBreakerOpen t => "circuit breaker open for " ++ t
  | UpstreamError w => "upstream registry error: " ++ w
  | RetriesExhausted w => "all retries exhausted: " ++ w
  | FailoverError w => "region failover: " ++ w
  | AuditUnavailable w => "audit unavailable: " ++ w
  | ManifestUnverified r => "manifest unverified: " ++ r
  end.

(** [{actions:?}] *)
Definition actions_debug (l : list Action) : str :=
  "[" ++ join_with ", " (map action_debug l) ++ "]".

(** ** Encoding and comparison *)

Definition constant_time_eq (a b : str) : bool :=
  if negb (length a =? length b)%nat then false
  else diff_bytes 0 a b =? 0.

Definition unreserved (c : ascii) : bool :=
  is_ascii_alphanumeric c || byte_is 45 c || byte_is 95 c || byte_is 46 c || byte_is 126 c.

(** [{:X}] of four bits *)
Definition hex_upper (n : Z) : ascii :=
  ascii_of_N (Z.to_N (if n <? 10 then n + 48 else n + 55)).

Definition url_encode (s : str) : str :=
  flat_map (fun c => if unreserved c then [c]
                     else ["%"%char; hex_upper (byte_val c / 16); hex_upper (byte_val c mod 16)]) s.

(** ** Docker scopes *)

Definition scope_action (a : str) : option Action :=
  let a := trim a in
  if str_eqb a "pull" then Some Pull
  else if str_eqb a "push" then Some Push
  else if str_eqb a "delete" then Some Delete
  else if str_eqb a "*" then Some Pull
  else None.

Definition parse_docker_scope (scope : str) : option RequestedScope :=
  match splitn3 ":" scope with
  | [_; name; actions_str] =>
      let actions := omap scope_action (split_on "," actions_str) in
      match splitn3 "/" name with
      | [t; p; r] => Some (mkRequestedScope t (Some p) (Some r) actions)
      | [p; r] => Some (mkRequestedScope "_" (Some p) (Some r) actions)
      | [r] => Some (mkRequestedScope "_" None (Some r) actions)
      | _ => None
      end
  | _ => None
  end.

(** ** Group patterns *)

(** The loop of [group_matches]: [rest] is [group[pos..]]; [None] is an early
    [return false]. *)
Fixpoint glob_loop (starred first : bool) (parts : list str) (rest : str) : option str :=
  match parts with
  | [] => Some rest
  | part :: parts' =>
      if negb (non_empty part) then glob_loop starred false parts' rest
      else
        match split_once_str part rest with
        | Some (before, after) =>
            if first && non_empty before && negb starred then None
            else glob_loop starred false parts' after
        | None => None
        end
  end.

Definition group_matches (pattern group : str) : bool :=
  if str_eqb pattern "*" then true
  else if negb (contains_byte "*" pattern) then str_eqb pattern group
  else
    match glob_loop (starts_with "*" pattern) true (split_on "*" pattern) group with
    | None => false
    | Some rest => if negb (ends_with "*" pattern) then negb (non_empty rest) else true
    end.

(** ** Roles *)

Definition higher_privilege_role (a b : Role) : Role :=
  match a, b with
  | Admin, _ | _, Admin => Admin
  | Maintainer, _ | _, Maintainer => Maintainer
  | _, _ => Reader
  end.

Definition better (best : option Role) (role : Role) : option Role :=
  Some match best with
       | None => role
       | Some existing => higher_privilege_role existing role
       end.

(** The nested loops over mappings and groups. *)
Definition group_roles (mappings : list GroupRoleMapping) (groups : list str) : option Role :=
  fold_left (fun best m =>
      fold_left (fun best g => if group_matches (gm_group m) g then better best (gm_role m) else best)
        groups best)
    mappings None.

(** The loop over the policies: [inl] is its early return. *)
Fixpoint policy_role (subject tenant_id : str) (project_id : option str) (best : option Role)
    (policies : list AccessPolicy) : Role + option Role :=
  match policies with
  | [] => inr best
  | p :: policies' =>
      if negb (str_eqb (pol_subject p) subject) || negb (str_eqb (pol_tenant_id p) tenant_id)
      then policy_role subject tenant_id project_id best policies'
      else if match project_id with
              | Some pid => bool_decide (pol_project_id p = Some pid)
              | None => false
              end
      then inl (pol_role p)
      else
        policy_role subject tenant_id project_id
          (if bool_decide (pol_project_id p = None) then Some (pol_role p) else best) policies'
  end.

(** ** Robot accounts *)

(** The loop over the accounts, in the order the map yields them: [None] when
    no account decides. *)
Fixpoint robot_scan (now : Z) (name secret_hash : str) (robots : list RobotAccount) :
    option (result RobotAccount RegistryError) :=
  match robots with
  | [] => None
  | r :: robots' =>
      if str_eqb (rb_name r) name && rb_enabled r then
        if match rb_expires_at r with Some x => x <? now | None => false end
        then Some (Err Unauthorized)
        else if constant_time_eq secret_hash (rb_secret_hash r) then Some (Ok r)
        else robot_scan now name secret_hash robots'
      else robot_scan now name secret_hash robots'
  end.

Section service.
Context (cfg : ServiceConfig) (lib : AuthLib) (rq : AuthReq).

Abbreviation World := AuthState.
Abbreviation Auth A := (M World RegistryError A).

Definition record (e : AuthAuditEvent) : Auth unit := modify (log_event e).

(** The clients see header text: [None] when absent or not visible ASCII. *)
Definition extract_basic_auth (authorization : option str) : option (str * str) :=
  h ← authorization;
  encoded ← strip_prefix "Basic " h;
  decoded ← b64_std lib (trim encoded);
  decoded ← from_utf8 decoded;
  split_once_byte ":" decoded.

Definition verify_bootstrap_password (password hash : str) : bool :=
  constant_time_eq (sha256_hex_of lib password) hash.

Definition authenticate_basic (username password : str) : result str RegistryError :=
  match bootstrap_admin cfg with
  | Some admin =>
      if str_eqb username (ba_username admin)
         && verify_bootstrap_password password (ba_password_hash admin)
      then Ok username else Err Unauthorized
  | None => Err Unauthorized
  end.

(** [robots.values()] *)
Definition robot_values (s : World) : list RobotAccount :=
  map_order lib _ (map snd (map_to_list (robot_accounts s))).

Definition used (now : Z) (r : RobotAccount) : RobotAccount :=
  mkRobotAccount (rb_id r) (rb_name r) (rb_description r) (rb_tenant r) (rb_project r) (rb_role r)
    (rb_secret_hash r) (rb_created_at r) (rb_expires_at r) (Some now) (rb_enabled r).

Definition authenticate_robot (name secret : str) : Auth str :=
  fun s =>
    match robot_scan (rq_now rq) name (sha256_hex_of lib secret) (robot_values s) with
    | Some (Ok r) =>
        (set_robots (alter (used (rq_now rq)) (rb_id r)) s, Ok ("robot:" ++ name))
    | _ => (s, Err Unauthorized)
    end.

Definition touch (email display_name : option str) (groups : list str) (u : UserRecord) : UserRecord :=
  mkUserRecord (u_subject u)
    (match email with Some _ => email | None => u_email u end)
    (match display_name with Some _ => display_name | None => u_display_name u end)
    groups (u_auth_method u) (u_first_seen u) (rq_now rq) (u_login_count u + 1).

Definition provision_user (subject : str) (email display_name : option str) (groups : list str)
    (auth_method : str) : Auth unit :=
  modify (set_users (fun us =>
    match us !! subject with
    | Some u => <[subject := touch email display_name groups u]> us
    | None =>
        if auto_provision_users cfg then
          <[subject := mkUserRecord subject email display_name groups auth_method
                         (rq_now rq) (rq_now rq) 1]> us
        else us
    end)).

Definition resolve_role_from_groups (s : World) (subject : str) : option Role :=
  u ← users s !! subject;
  if bool_decide (u_groups u = []) then None
  else if bool_decide (length (group_role_mappings cfg) = 0)%nat then None
  else group_roles (group_role_mappings cfg) (u_groups u).

Definition resolve_role (s : World) (subject tenant_id : str) (project_id : option str) : Role :=
  if match bootstrap_admin cfg with
     | Some admin => str_eqb subject (ba_username admin)
     | None => false
     end
  then Admin
  else
    match policy_role subject tenant_id project_id None (access_policies s) with
    | inl role => role
    | inr (Some role) => role
    | inr None => default Reader (resolve_role_from_groups s subject)
    end.

Definition sign_token (claims : TokenClaims) : Auth str :=
  lift (ok_or (encode_claims lib claims) (Internal "token signing failed")).

(** ** Identity tokens *)

Definition de_identity (v : json) : option IdentityTokenClaims :=
  match de_struct [("sub", false); ("iss", true); ("exp", true)] v with
  | Some [sub; i; e] =>
      sub ← de_required as_str sub; i ← de_or [] as_str i; e ← de_option as_i64 e;
      Some (mkIdentityTokenClaims sub i e)
  | _ => None
  end.

(** The payload of a JWT, decoded without verification. *)
Definition jwt_payload (token not_jwt bad_base64 : str) : result str RegistryError :=
  match split_on "." token with
  | [_; payload; _] => ok_or (b64_url lib payload) (TokenInvalid bad_base64)
  | _ => Err (TokenInvalid not_jwt)
  end.

Definition parse_jwks_keys (keys : list JwkEntry) : list CachedJwk :=
  omap (fun k =>
    if negb (str_eqb (jwk_kty k) "RSA") then None
    else
      n ← jwk_n k; e ← jwk_e k;
      key ← rsa_key lib n e;
      let alg := match jwk_alg k with
                 | Some a =>
                     if str_eqb a "RS384" then A_RS384
                     else if str_eqb a "RS512" then A_RS512
                     else if str_eqb a "PS256" then A_PS256
                     else if str_eqb a "PS384" then A_PS384
                     else if str_eqb a "PS512" then A_PS512
                     else A_RS256
                 | None => A_RS256
                 end in
      Some (mkCachedJwk (jwk_kid k) key alg)) keys.

Definition discover_provider (c : OidcProviderConfig) : M World str unit :=
  let! keys := lift (rq_discover rq (op_issuer_url c)) in
  modify (set_jwks (<[op_issuer_url c :=
    mkCachedProvider (op_issuer_url c) (op_client_id c) (parse_jwks_keys keys) (rq_now rq)]>)).

(** Failures are only logged. *)
Definition discover_all : Auth unit :=
  for_each (oidc_providers cfg) (fun c =>
    let! _ := attempt (F := str) (discover_provider c) in ret tt).

Definition config_for (issuer : str) : option OidcProviderConfig :=
  List.find (fun c => str_eqb (op_issuer_url c) issuer) (oidc_providers cfg).

Definition keys_to_try (kid : option str) (p : CachedProvider) : list CachedJwk :=
  match kid with
  | Some k =>
      match List.filter (fun c => bool_decide (ck_kid c = Some k)) (cp_jwks_keys p) with
      | [] => cp_jwks_keys p
      | matched => matched
      end
  | None => cp_jwks_keys p
  end.

Fixpoint try_keys (token : str) (p : CachedProvider) (keys : list CachedJwk) :
    option IdentityTokenClaims :=
  match keys with
  | [] => None
  | k :: keys' =>
      match jwt_identity lib (ck_decoding_key k) (ck_algorithm k) (cp_client_id p) (cp_issuer_url p)
              token with
      | Some c => Some c
      | None => try_keys token p keys'
      end
  end.

Definition verify_with_provider (token : str) (kid : option str) (p : CachedProvider) :
    result IdentityTokenClaims RegistryError :=
  match keys_to_try kid p with
  | [] => Err (TokenInvalid "no matching JWKS key found for token")
  | keys =>
      ok_or (try_keys token p keys)
        (TokenInvalid "token signature verification failed against all provider keys")
  end.

Definition jwt_kid (token : str) : result (option str) RegistryError :=
  map_err (fun e => TokenInvalid ("invalid JWT header: " ++ e)) (jwt_header_kid lib token).

Definition validate_token_with_rediscovery (token issuer : str) : Auth IdentityTokenClaims :=
  match config_for issuer with
  | None => throw (TokenInvalid ("no OIDC provider configured for issuer: " ++ issuer))
  | Some c =>
      do! rethrow (fun e => TokenInvalid ("failed to discover OIDC provider " ++ issuer ++ ": " ++ e))
            (discover_provider c) in
      let! kid := lift (jwt_kid token) in
      let! cache := gets jwks_cache in
      let! p := lift (ok_or (cache !! issuer)
                  (TokenInvalid ("provider " ++ issuer ++ " not available after discovery"))) in
      lift (verify_with_provider token kid p)
  end.

(** JWKS older than this are fetched again before they are used. *)
Definition refresh_interval_secs : Z := 3600.

Definition refresh_provider (issuer : str) : M World str unit :=
  match config_for issuer with
  | None => throw ("no config for issuer " ++ issuer)
  | Some c => discover_provider c
  end.

Definition validate_token (token : str) : Auth IdentityTokenClaims :=
  let! kid := lift (jwt_kid token) in
  let! payload := lift (jwt_payload token "JWT must have 3 parts" "invalid base64 in JWT payload") in
  let! unverified := lift (ok_or (json_of lib payload ≫= de_identity)
                       (TokenInvalid ("failed to parse token claims: " ++ json_err lib payload))) in
  let issuer := id_iss unverified in
  let! cache := gets jwks_cache in
  match cache !! issuer with
  | None => validate_token_with_rediscovery token issuer
  | Some p =>
      if refresh_interval_secs <? num_seconds (rq_now rq - cp_last_refreshed p) then
        let! _ := attempt (F := str) (refresh_provider issuer) in
        let! cache := gets jwks_cache in
        match cache !! issuer with
        | Some p => lift (verify_with_provider token kid p)
        | None => throw (TokenInvalid "OIDC provider keys unavailable after refresh")
        end
      else lift (verify_with_provider token kid p)
  end.

(** Without providers the claims are taken from the token unverified. *)
Definition validate_unsigned (token : str) : result IdentityTokenClaims RegistryError :=
  match split_on "." token with
  | [header; payload; _] =>
      match b64_url lib header with
      | None => Err (TokenInvalid "invalid base64 in JWT header")
      | Some h =>
          match json_of lib h with
          | None => Err (TokenInvalid "JWT header is not valid JSON")
          | Some _ =>
              match b64_url lib payload with
              | None => Err (TokenInvalid "invalid base64 in JWT payload")
              | Some bytes =>
                  match json_of lib bytes ≫= de_identity with
                  | None => Err (TokenInvalid ("failed to parse identity token claims: "
                                                 ++ json_err lib bytes))
                  | Some c =>
                      if match id_exp c with Some e => e <? timestamp (rq_now rq) | None => false end
                      then Err TokenExpired
                      else if negb (non_empty (id_sub c))
                      then Err (TokenInvalid "identity token missing 'sub' claim")
                      else Ok c
                  end
              end
          end
      end
  | _ => Err (TokenInvalid "identity token is not a valid JWT (expected 3 parts)")
  end.

Definition validate_identity_token (token : str) : Auth IdentityTokenClaims :=
  match oidc_providers cfg with
  | _ :: _ => validate_token token
  | [] => lift (validate_unsigned token)
  end.

Definition authenticate_request (authorization : option str) (identity_token : str) : Auth str :=
  let! basic :=
    match extract_basic_auth authorization with
    | Some (username, password) =>
        match authenticate_basic username password with
        | Ok subject =>
            do! provision_user subject None None [] "basic" in
            ret (Some subject)
        | Err _ =>
            match strip_prefix "robot:" username with
            | Some robot_name =>
                let! r := attempt (F := RegistryError) (authenticate_robot robot_name password) in
                ret match r with Ok subject => Some subject | Err _ => None end
            | None => ret None
            end
        end
    | None => ret None
    end in
  match basic with
  | Some subject => ret subject
  | None =>
      let! claims := validate_identity_token identity_token in
      do! provision_user (id_sub claims) None None [] "oidc" in
      ret (id_sub claims)
  end.
End service.
