(* ===== verification/AuthService.v ===== *)
(** * The auth service: token endpoints

    The handlers of [crates/specton-auth/src/main.rs] that issue, exchange,
    inspect and revoke tokens, and those that manage robot accounts. *)

From S2P Require Import Prelude Json Text Effects Auth Utf8 AuthCore.

Local Open Scope Z_scope.

Record TokenResponse : Type := mkTokenResponse {
  tr_token : str;
  tr_expires_in : Z;
  tr_issued_at : Z
}.

(** The query of [GET /auth/token], as far as it is used. *)
Record DockerTokenQuery : Type := mkDockerTokenQuery {
  dq_scope : option str;
  dq_account : option str;
  dq_username : option str;
  dq_password : option str
}.

Record GitHubTokenClaims : Type := mkGitHubTokenClaims {
  ghc_iss : str;
  ghc_exp : option Z;
  ghc_repository : str;
  ghc_repository_owner : str;
  ghc_workflow : str;
  ghc_actor : str
}.

Record OidcUserClaims : Type := mkOidcUserClaims {
  ouc_sub : str;
  ouc_email : option str;
  ouc_name : option str;
  ouc_preferred_username : option str;
  ouc_groups : list str
}.

Record CreateRobotRequest : Type := mkCreateRobotRequest {
  cr_name : str;
  cr_description : str;
  cr_tenant : str;
  cr_project : option str;
  cr_role : str;
  cr_expires_in_seconds : option Z
}.

Record IntrospectionResponse : Type := mkIntrospectionResponse {
  ir_active : bool;
  ir_sub : option str;
  ir_tenant_id : option str;
  ir_project_id : option str;
  ir_exp : option Z;
  ir_iat : option Z;
  ir_scope : option str;
  ir_iss : option str;
  ir_jti : option str
}.

(** A handler that may also panic. *)
Inductive auth_failure : Type :=
| Failed (e : RegistryError)
| Panicked.

(** [match s { "admin" => .., "maintainer" => .., _ => Reader }] *)
Definition role_named (s : str) : Role :=
  if str_eqb s "admin" then Admin
  else if str_eqb s "maintainer" then Maintainer
  else Reader.

(** The requested actions the role permits, in order. *)
Definition permitted (role : Role) (actions : list Action) : list Action :=
  List.filter (can role) actions.

(** A random byte as one of the 62 letters and digits. *)
Definition alphanumeric (b : Z) : ascii :=
  let idx := b mod 62 in
  ascii_of_N (Z.to_N (if idx <? 10 then 48 + idx
                      else if idx <? 36 then 97 + idx - 10
                      else 65 + idx - 36)).

Definition de_github (v : json) : option GitHubTokenClaims :=
  match de_struct [("sub", false); ("iss", false); ("aud", false); ("exp", false); ("iat", false);
                   ("repository", true); ("repository_owner", true); ("workflow", true);
                   ("ref", true); ("actor", true); ("run_id", true); ("sha", true);
                   ("job_workflow_ref", true)] v with
  | Some [sub; i; a; e; t; repo; owner; wf; ref; actor; run; sha; job] =>
      sub ← de_required as_str sub; i ← de_required as_str i; a ← de_option as_str a;
      e ← de_option as_i64 e; t ← de_option as_i64 t;
      repo ← de_or [] as_str repo; owner ← de_or [] as_str owner; wf ← de_or [] as_str wf;
      ref ← de_or [] as_str ref; actor ← de_or [] as_str actor; run ← de_or [] as_str run;
      sha ← de_or [] as_str sha; job ← de_or [] as_str job;
      Some (mkGitHubTokenClaims i e repo owner wf actor)
  | _ => None
  end.

Definition de_oidc_user (v : json) : option OidcUserClaims :=
  match de_struct [("sub", false); ("iss", true); ("email", true); ("name", true);
                   ("preferred_username", true); ("groups", true); ("exp", true)] v with
  | Some [sub; i; email; name; pref; groups; e] =>
      sub ← de_required as_str sub; i ← de_or [] as_str i; email ← de_option as_str email;
      name ← de_option as_str name; pref ← de_option as_str pref;
      groups ← de_or [] (de_vec as_str) groups; e ← de_option as_i64 e;
      Some (mkOidcUserClaims sub email name pref groups)
  | _ => None
  end.

Section handlers.
Context (cfg : ServiceConfig) (lib : AuthLib) (rq : AuthReq).

Abbreviation World := AuthState.
Abbreviation Auth A := (M World RegistryError A).

(** [exp] is an unchecked addition, which wraps in a release build. *)
Definition token_claims (sub tenant_id : str) (prefix project_id : option str) (role : Role)
    (sc : list TokenScope) (ttl : Z) : TokenClaims :=
  mkTokenClaims (svc_issuer cfg) sub (svc_audience cfg)
    (i64_wrap (timestamp (rq_now rq) + i64_wrap ttl)) (timestamp (rq_now rq)) (rq_uuid rq 1)
    tenant_id prefix project_id role sc.

Definition event (subject tenant : str) (project : option str) (action : str) (d : AuditDecision)
    (reason : str) (auth_method : option str) (groups : option (list str)) : AuthAuditEvent :=
  mkAuthAuditEvent (rq_now rq) subject tenant project action d reason (rq_uuid rq 0) auth_method
    groups.

Definition random_text (n : nat) : str :=
  map (fun i => alphanumeric (rq_random rq i)) (seq 0 n).

Definition find_tenant (name : str) : Auth Tenant :=
  let! ts := gets tenants in
  lift (ok_or (ts !! name) (TenantNotFound name)).

Definition find_project (tenant_id name : str) : Auth Project :=
  let! ps := gets projects in
  lift (ok_or (ps !! (tenant_id, name)) (ProjectNotFound name)).

(** ** [POST /auth/token/json] *)

Definition post_token (authorization : option str) (identity_token : str) (scope : RequestedScope) :
    Auth TokenResponse :=
  let tenant_name := rs_tenant scope in
  do! (if rq_limited rq then
         do! record (event [] tenant_name (rs_project scope) "token_request" Deny "rate_limited"
                       None None) in
         throw RateLimitExceeded
       else ret tt) in
  let! auth := attempt (F := RegistryError) (authenticate_request cfg lib rq authorization identity_token) in
  let! subject :=
    match auth with
    | Ok sub => ret sub
    | Err e =>
        do! record (event [] tenant_name (rs_project scope) "token_request" Deny
                      ("auth_failed: " ++ error_display e) None None) in
        throw e
    end in
  let! tenant := find_tenant tenant_name in
  do! (if negb (t_enabled tenant) then throw (Forbidden "tenant is disabled") else ret tt) in
  let! project_id :=
    match rs_project scope with
    | Some name => let! p := find_project (t_id tenant) name in ret (Some (p_id p))
    | None => ret None
    end in
  let! role := gets (fun s => resolve_role cfg s subject (t_id tenant) project_id) in
  let allowed := permitted role (rs_actions scope) in
  do! (if negb (0 <? length allowed)%nat && (0 <? length (rs_actions scope))%nat then
         do! record (event subject tenant_name (rs_project scope)
                       ("token_request:" ++ actions_debug (rs_actions scope)) Deny
                       ("role '" ++ role_debug role ++ "' insufficient") None None) in
         throw (Forbidden ("role '" ++ role_debug role ++ "' does not permit requested actions"))
       else ret tt) in
  let ttl := token_ttl_seconds cfg in
  let! token := sign_token lib (token_claims subject (t_id tenant) (Some (t_storage_prefix tenant))
                  project_id role [mkTokenScope (or_empty (rs_repository scope)) allowed] ttl) in
  do! record (event subject tenant_name (rs_project scope) ("token_issued:" ++ actions_debug allowed)
                Allow ("role=" ++ role_debug role) None None) in
  ret (mkTokenResponse token ttl (rq_now rq)).

(** ** [GET] and form [POST /auth/token] *)

Definition docker_login (username password : str) : Auth str :=
  match authenticate_basic cfg lib username password with
  | Ok sub => ret sub
  | Err _ =>
      match strip_prefix "robot:" username with
      | Some robot_name =>
          let! r := attempt (F := RegistryError) (authenticate_robot lib rq robot_name password) in
          ret match r with Ok sub => sub | Err _ => "anonymous" end
      | None => ret "anonymous"
      end
  end.

Definition docker_subject (authorization : option str) (query : DockerTokenQuery) : Auth str :=
  match extract_basic_auth lib authorization with
  | Some (username, password) => docker_login username password
  | None =>
      match dq_username query, dq_password query with
      | Some u, Some p => docker_login u p
      | _, _ => ret (default "anonymous" (dq_account query))
      end
  end.

Definition default_scope : RequestedScope := mkRequestedScope "demo" None None [].

Definition get_token_inner (authorization : option str) (query : DockerTokenQuery) :
    Auth TokenResponse :=
  let! subject := docker_subject authorization query in
  let scope := default default_scope (dq_scope query ≫= parse_docker_scope) in
  let! tenant := find_tenant (rs_tenant scope) in
  let! ps := gets projects in
  let project_id := name ← rs_project scope; p_id <$> ps !! (t_id tenant, name) in
  let! role := gets (fun s => resolve_role cfg s subject (t_id tenant) project_id) in
  let ttl := token_ttl_seconds cfg in
  let! token := sign_token lib (token_claims subject (t_id tenant) (Some (t_storage_prefix tenant))
                  project_id role
                  [mkTokenScope (or_empty (rs_repository scope)) (permitted role (rs_actions scope))]
                  ttl) in
  do! record (event subject (rs_tenant scope) (rs_project scope) "docker_token_issued" Allow
                ("role=" ++ role_debug role) None None) in
  ret (mkTokenResponse token ttl (rq_now rq)).

(** ** CI tokens *)

(** Verified when the issuer is a configured or cached provider. *)
Definition verified_issuer (issuer : str) (token : str) : Auth unit :=
  let! cache := gets jwks_cache in
  if bool_decide (is_Some (cache !! issuer))
     || existsb (fun c => str_eqb (op_issuer_url c) issuer) (oidc_providers cfg)
  then let! _ := validate_token cfg lib rq token in ret tt
  else ret tt.

Definition validate_github_oidc_token (token expected_issuer : str) : Auth GitHubTokenClaims :=
  do! verified_issuer expected_issuer token in
  let! payload := lift (jwt_payload lib token "GitHub OIDC token is not a valid JWT"
                          "invalid base64 in GitHub token payload") in
  let! claims := lift (ok_or (json_of lib payload ≫= de_github)
                   (TokenInvalid ("failed to parse GitHub token claims: " ++ json_err lib payload))) in
  if negb (str_eqb (ghc_iss claims) expected_issuer) then
    throw (TokenInvalid ("GitHub token issuer mismatch: expected " ++ expected_issuer ++ ", got "
                           ++ ghc_iss claims))
  else if match ghc_exp claims with Some e => e <? timestamp (rq_now rq) | None => false end
  then throw TokenExpired
  else ret claims.

Definition github_actions_token (token tenant_name project_name : str) (actions : list Action) :
    Auth TokenResponse :=
  let! gh := lift (ok_or (github_oidc cfg) (Internal "GitHub OIDC integration not configured")) in
  let! claims := validate_github_oidc_token token (gh_issuer_url gh) in
  do! (if (0 <? length (gh_allowed_orgs gh))%nat
          && negb (bool_decide (ghc_repository_owner claims ∈ gh_allowed_orgs gh)) then
         do! record (event (ghc_repository claims) tenant_name (Some project_name)
                       "github_token_exchange" Deny
                       ("org '" ++ ghc_repository_owner claims ++ "' not in allowed list") None None) in
         throw (Forbidden ("GitHub organization '" ++ ghc_repository_owner claims ++ "' is not allowed"))
       else ret tt) in
  do! (if (0 <? length (gh_allowed_repos gh))%nat
          && negb (bool_decide (ghc_repository claims ∈ gh_allowed_repos gh)) then
         do! record (event (ghc_repository claims) tenant_name (Some project_name)
                       "github_token_exchange" Deny
                       ("repo '" ++ ghc_repository claims ++ "' not in allowed list") None None) in
         throw (Forbidden ("GitHub repository '" ++ ghc_repository claims ++ "' is not allowed"))
       else ret tt) in
  let subject := "github:" ++ ghc_repository claims in
  let! tenant := find_tenant tenant_name in
  let! project := find_project (t_id tenant) project_name in
  let role := role_named (gh_default_role gh) in
  let allowed := permitted role actions in
  do! (if negb (0 <? length allowed)%nat && (0 <? length actions)%nat then
         throw (Forbidden ("role '" ++ role_debug role ++ "' does not permit requested actions"))
       else ret tt) in
  let ttl := Z.min (token_ttl_seconds cfg) 900 in
  let! token := sign_token lib (token_claims subject (t_id tenant) (Some (t_storage_prefix tenant))
                  (Some (p_id project)) role [mkTokenScope [] allowed] ttl) in
  do! record (event subject tenant_name (Some project_name)
                ("github_token_issued:" ++ actions_debug allowed) Allow
                ("repo=" ++ ghc_repository claims ++ ", actor=" ++ ghc_actor claims ++ ", workflow="
                   ++ ghc_workflow claims) (Some "ci_oidc") None) in
  ret (mkTokenResponse token ttl (rq_now rq)).

(** [v.get(k).and_then(|v| v.as_str())] *)
Definition claim_str (k : str) (v : json) : option str := json_get k v ≫= as_str.

(** The filters in turn; the first that refuses is the error. *)
Fixpoint check_claims (filters : list (str * list str)) (v : json) : result unit RegistryError :=
  match filters with
  | [] => Ok tt
  | (k, values) :: filters' =>
      let value := or_empty (claim_str k v) in
      if (0 <? length values)%nat && negb (bool_decide (value ∈ values))
      then Err (Forbidden ("CI token claim '" ++ k ++ "' value '" ++ value
                             ++ "' is not in allowed list"))
      else check_claims filters' v
  end.

Definition ci_token_exchange (token provider tenant_name project_name : str) (actions : list Action) :
    Auth TokenResponse :=
  let! ci := lift (ok_or (List.find (fun p => str_eqb (ci_name p) provider) (ci_providers cfg))
               (Internal ("CI OIDC provider '" ++ provider ++ "' not configured"))) in
  do! verified_issuer (ci_issuer_url ci) token in
  let! payload := lift (jwt_payload lib token "CI OIDC token is not a valid JWT"
                          "invalid base64 in CI token payload") in
  let! claims := lift (ok_or (json_of lib payload)
                   (TokenInvalid ("failed to parse CI token claims: " ++ json_err lib payload))) in
  let token_issuer := or_empty (claim_str "iss" claims) in
  do! (if negb (str_eqb token_issuer (ci_issuer_url ci)) then
         throw (TokenInvalid ("CI token issuer mismatch: expected " ++ ci_issuer_url ci ++ ", got "
                                ++ token_issuer))
       else ret tt) in
  do! (if match json_get "exp" claims ≫= as_i64 with
          | Some e => e <? timestamp (rq_now rq)
          | None => false
          end
       then throw TokenExpired else ret tt) in
  do! lift (check_claims (ci_allowed_claims ci) claims) in
  let subject := ci_subject_prefix ci ++ default "unknown" (claim_str "sub" claims) in
  let! tenant := find_tenant tenant_name in
  let! project := find_project (t_id tenant) project_name in
  let role := role_named (ci_default_role ci) in
  let allowed := permitted role actions in
  do! (if negb (0 <? length allowed)%nat && (0 <? length actions)%nat then
         throw (Forbidden ("role '" ++ role_debug role ++ "' does not permit requested actions"))
       else ret tt) in
  let ttl := Z.min (token_ttl_seconds cfg) (ci_max_ttl_seconds ci) in
  let! token := sign_token lib (token_claims subject (t_id tenant) (Some (t_storage_prefix tenant))
                  (Some (p_id project)) role [mkTokenScope [] allowed] ttl) in
  do! record (event subject tenant_name (Some project_name)
                ("ci_token_issued:" ++ actions_debug allowed) Allow
                ("provider=" ++ provider ++ ", role=" ++ role_debug role) (Some "ci_oidc") None) in
  ret (mkTokenResponse token ttl (rq_now rq)).

(** ** OIDC authorization code flow *)

Definition issuer_base (c : OidcProviderConfig) : str := trim_end_byte "/" (op_issuer_url c).

(** An endpoint of the discovery document, or its conventional path. *)
Definition endpoint (c : OidcProviderConfig) (key path : str) : str :=
  match rq_document rq (issuer_base c ++ "/.well-known/openid-configuration") with
  | Some doc => default (issuer_base c ++ path) (claim_str key doc)
  | None => issuer_base c ++ path
  end.

Definition callback_uri : str := trim_end_byte "/" (svc_issuer cfg) ++ "/auth/oidc/callback".

Definition login_provider (provider : str) (c : OidcProviderConfig) : bool :=
  str_eqb (op_issuer_url c) provider || bool_decide (op_display_name c = Some provider)
  || str_eqb (op_client_id c) provider.

(** The location of the redirect. *)
Definition oidc_login (provider redirect_uri : str) : Auth str :=
  let! c := lift (ok_or (List.find (login_provider provider) (oidc_providers cfg))
              (Internal ("OIDC provider '" ++ provider ++ "' not configured"))) in
  let verifier := random_text 64 in
  let challenge := b64_url_enc lib (sha256_raw lib verifier) in
  let state_value := rq_uuid rq 0 in
  do! modify (set_sessions (<[state_value :=
        mkOidcSession state_value verifier (op_issuer_url c) redirect_uri (rq_now rq)]>)) in
  ret (endpoint c "authorization_endpoint" "/authorize" ++ "?response_type=code&client_id="
         ++ url_encode (op_client_id c) ++ "&redirect_uri=" ++ url_encode callback_uri ++ "&state="
         ++ url_encode state_value ++ "&scope=openid+email+profile+groups&code_challenge="
         ++ url_encode challenge ++ "&code_challenge_method=S256").

Definition take_session (key : str) : Auth OidcSession :=
  let! ss := gets oidc_sessions in
  let! session := lift (ok_or (ss !! key) (TokenInvalid "invalid or expired OIDC session state")) in
  do! modify (set_sessions (delete key)) in
  ret session.

Definition exchange_code (c : OidcProviderConfig) (code verifier : str) : result str RegistryError :=
  let form := [("grant_type" : str, "authorization_code" : str); ("code" : str, code);
               ("redirect_uri" : str, callback_uri); ("client_id" : str, op_client_id c);
               ("code_verifier" : str, verifier)]
              ++ match op_client_secret c with
                 | Some secret => [("client_secret" : str, secret)]
                 | None => []
                 end in
  match rq_exchange rq (endpoint c "token_endpoint" "/token") form with
  | Err e => Err (Internal ("token exchange failed: " ++ e))
  | Ok (false, body, _) => Err (Internal ("token exchange returned error: " ++ body))
  | Ok (true, _, Err e) => Err (Internal ("failed to parse token response: " ++ e))
  | Ok (true, _, Ok doc) => ok_or (claim_str "id_token" doc) (Internal "no id_token in token response")
  end.

(** [tenants.iter().next()] *)
Definition first_tenant (s : World) : str * str * str :=
  match map_order lib _ (map_to_list (tenants s)) with
  | (name, t) :: _ => (name, t_id t, t_storage_prefix t)
  | [] => ("demo" : str, rq_uuid rq 2, "demo" : str)
  end.

Definition oidc_callback (code key : str) : Auth str :=
  let! session := take_session key in
  do! (if 600 <? num_seconds (rq_now rq - os_created_at session)
       then throw (TokenInvalid "OIDC session expired") else ret tt) in
  let! c := lift (ok_or (config_for cfg (os_provider_name session))
              (Internal "OIDC provider config not found")) in
  let! id_token := lift (exchange_code c code (os_pkce_verifier session)) in
  let! payload := lift (jwt_payload lib id_token "id_token is not a valid JWT"
                          "invalid base64 in id_token payload") in
  let! claims := lift (ok_or (json_of lib payload ≫= de_oidc_user)
                   (TokenInvalid ("failed to parse OIDC claims: " ++ json_err lib payload))) in
  do! (if (0 <? length (op_allowed_groups c))%nat
          && negb (existsb (fun g => bool_decide (g ∈ op_allowed_groups c)) (ouc_groups claims))
       then throw (Forbidden "user is not a member of any allowed group") else ret tt) in
  do! provision_user cfg rq (ouc_sub claims) (ouc_email claims)
        (match ouc_name claims with Some n => Some n | None => ouc_preferred_username claims end)
        (ouc_groups claims) "oidc" in
  let! first := gets first_tenant in
  let '(tenant_name, tid, prefix) := first in
  let! role := gets (fun s => resolve_role cfg s (ouc_sub claims) tid None) in
  let ttl := token_ttl_seconds cfg in
  let! token := sign_token lib (token_claims (ouc_sub claims) tid (Some prefix) None role [] ttl) in
  do! record (event (ouc_sub claims) tenant_name None "oidc_login" Allow
                ("provider=" ++ op_issuer_url c ++ ", role=" ++ role_debug role) (Some "oidc")
                (Some (ouc_groups claims))) in
  ret (os_redirect_uri session ++ "?token=" ++ url_encode token ++ "&expires_in=" ++ dec ttl).

(** ** Refresh, revocation, introspection *)

Definition refresh_token_handler (refresh_token : str) : Auth TokenResponse :=
  let! rts := gets refresh_tokens in
  let! rt := lift (ok_or (rts !! refresh_token) (TokenInvalid "invalid refresh token")) in
  do! (if rt_revoked rt then throw (TokenInvalid "refresh token has been revoked") else ret tt) in
  do! (if rt_expires_at rt <? rq_now rq then throw TokenExpired else ret tt) in
  let ttl := token_ttl_seconds cfg in
  let! ts := gets tenants in
  let prefix := t_storage_prefix <$>
    List.find (fun t => str_eqb (t_id t) (rt_tenant_id rt)) (map_order lib _ (map snd (map_to_list ts))) in
  let! token := sign_token lib (token_claims (rt_subject rt) (rt_tenant_id rt) prefix
                  (rt_project_id rt) (rt_role rt) (rt_scopes rt) ttl) in
  ret (mkTokenResponse token ttl (rq_now rq)).

Definition revoke_refresh (rt : RefreshToken) : RefreshToken :=
  mkRefreshToken (rt_id rt) (rt_subject rt) (rt_tenant_id rt) (rt_project_id rt) (rt_role rt)
    (rt_scopes rt) (rt_created_at rt) (rt_expires_at rt) true.

Definition revoke_token_handler (token_id : str) : Auth unit :=
  do! modify (set_revoked (fun r => {[token_id]} ∪ r)) in
  modify (set_refresh (alter revoke_refresh token_id)).

Definition scope_text (s : TokenScope) : str :=
  let actions := join_with "," (map action_debug (scope_actions s)) in
  if negb (non_empty (scope_repository s)) then actions
  else scope_repository s ++ ":" ++ actions.

Definition introspect_token (token : str) : IntrospectionResponse :=
  match jwt_claims lib (svc_audience cfg) (svc_issuer cfg) token with
  | Ok c =>
      mkIntrospectionResponse true (Some (claims_sub c)) (Some (tenant_id c)) (project_id c)
        (Some (exp c)) (Some (iat c)) (Some (join_with " " (map scope_text (scopes c))))
        (Some (iss c)) (Some (jti c))
  | Err _ => mkIntrospectionResponse false None None None None None None None None
  end.

Definition credential_exchange (session_token : str) : Auth (str * str * Z) :=
  let! c := lift (map_err (fun e => TokenInvalid ("invalid session token: " ++ e))
              (jwt_claims lib (svc_audience cfg) (svc_issuer cfg) session_token)) in
  let! password := sign_token lib (token_claims (claims_sub c) (tenant_id c) (tenant_name c)
                     (project_id c) (claims_role c) (scopes c) 300) in
  ret (claims_sub c, password, rq_now rq + 300 * 1000000000).

(** ** Robot accounts *)

(** [now + Duration::seconds(s as i64)]; [None] is a panic. *)
Definition robot_expiry (secs : Z) : option Z :=
  let n := i64_wrap secs in
  let t := rq_now rq + n * 1000000000 in
  if (Z.abs n * 1000 <=? 2 ^ 63 - 1) && (min_utc lib <=? t) && (t <=? max_utc lib)
  then Some t else None.

(** The identifier and the secret, which is shown once. *)
Definition create_robot_account (r : CreateRobotRequest) : M World auth_failure (str * str) :=
  if negb (robot_accounts_enabled cfg) then throw (Failed (Forbidden "robot accounts are disabled"))
  else
    let secret := random_text 48 in
    let! expires := lift match cr_expires_in_seconds r with
                         | None => Ok None
                         | Some s => match robot_expiry s with
                                     | Some t => Ok (Some t)
                                     | None => Err Panicked
                                     end
                         end in
    let id := rq_uuid rq 0 in
    do! modify (set_robots (<[id :=
          mkRobotAccount id (cr_name r) (cr_description r) (cr_tenant r) (cr_project r)
            (role_named (cr_role r)) (sha256_hex_of lib secret) (rq_now rq) expires None true]>)) in
    ret (id, secret).

(** Whether the account was there. *)
Definition delete_robot_account (id : str) : Auth bool :=
  let! rs := gets robot_accounts in
  do! modify (set_robots (delete id)) in
  ret (bool_decide (is_Some (rs !! id))).
End handlers.
