(* ===== verification/Scim.v ===== *)
(** * The auth service: SCIM provisioning and start-up

    The SCIM 2.0 handlers of [crates/specton-auth/src/main.rs], through which an
    identity provider creates, changes and removes users and groups, the access
    policies they derive from group mappings, and the state the service starts
    with. *)

From S2P Require Import Prelude Json Text Effects Auth AuthCore.

Local Open Scope Z_scope.

Record ScimMultiValue : Type := mkScimMultiValue {
  mv_value : str;
  mv_type : option str;
  mv_primary : bool
}.

Record ScimGroupRef : Type := mkScimGroupRef {
  gr_value : str;
  gr_ref_uri : option str;
  gr_display : option str
}.

Record ScimName : Type := mkScimName {
  sn_formatted : option str;
  sn_given_name : option str;
  sn_family_name : option str
}.

Record ScimUser : Type := mkScimUser {
  su_schemas : list str;
  su_id : option str;
  su_external_id : option str;
  su_user_name : str;
  su_display_name : option str;
  su_active : bool;
  su_name : option ScimName;
  su_emails : list ScimMultiValue;
  su_groups : list ScimGroupRef;
  su_meta : option ScimMeta
}.

Record ScimPatchOperation : Type := mkScimPatchOperation {
  po_op : str;
  po_path : option str;
  po_value : option json
}.

Record ScimError : Type := mkScimError {
  se_status : Z;
  se_detail : str
}.

Definition user_schema : str := "urn:ietf:params:scim:schemas:core:2.0:User".
Definition group_schema : str := "urn:ietf:params:scim:schemas:core:2.0:Group".

(** [GitHubOidcConfig::default()] *)
Definition default_github_config : GitHubOidcConfig :=
  mkGitHubOidcConfig "https://token.actions.githubusercontent.com" [] [] "maintainer".

Definition double_quote : ascii := ascii_of_N 34.

(** [path.find] of the first quote and [path.rfind] of the last one: between
    them when something is. *)
Definition extract_member_id_from_path (path : str) : option str :=
  match split_once_byte double_quote path with
  | None => None
  | Some (_, after) =>
      match split_once_byte double_quote (rev after) with
      | None => None
      | Some (_, between) => if non_empty between then Some (rev between) else None
      end
  end.

Definition de_member (v : json) : option ScimMember :=
  match value_struct [("value", false); ("$ref", false); ("display", false)] v with
  | Some [value; r; d] =>
      value ← de_required as_str value; r ← de_option as_str r; d ← de_option as_str d;
      Some (mkScimMember value r d)
  | _ => None
  end.

(** The pattern test of [apply_group_policies]. *)
Definition mapping_matches (pattern group : str) : bool :=
  if contains_byte "*" pattern then
    let p := remove_byte "*" pattern in
    starts_with p group || ends_with p group || contains_str p group
  else str_eqb group pattern.

Definition with_groups (f : list str -> list str) (u : UserRecord) : UserRecord :=
  mkUserRecord (u_subject u) (u_email u) (u_display_name u) (f (u_groups u)) (u_auth_method u)
    (u_first_seen u) (u_last_login u) (u_login_count u).

Definition with_display_name (name : str) (u : UserRecord) : UserRecord :=
  mkUserRecord (u_subject u) (u_email u) (Some name) (u_groups u) (u_auth_method u)
    (u_first_seen u) (u_last_login u) (u_login_count u).

Definition with_members (f : list ScimMember -> list ScimMember) (g : ScimGroup) : ScimGroup :=
  mkScimGroup (sg_schemas g) (sg_id g) (sg_external_id g) (sg_display_name g) (f (sg_members g))
    (sg_meta g).

(** [groups.push(name)] unless it is there. *)
Definition add_group (name : str) (groups : list str) : list str :=
  if bool_decide (name ∈ groups) then groups else groups ++ [name].

(** [groups.retain(|g| g != name)] *)
Definition drop_group (name : str) (groups : list str) : list str :=
  List.filter (fun g => negb (str_eqb g name)) groups.

Definition scim_email (u : ScimUser) : option str := mv_value <$> head (su_emails u).

Definition scim_group_names (u : ScimUser) : list str :=
  map (fun g => default (gr_value g) (gr_display g)) (su_groups u).

Section scim.
Context (cfg : ServiceConfig) (lib : AuthLib) (rq : AuthReq).

Abbreviation World := AuthState.
Abbreviation Scim A := (M World ScimError A).

(** [authorization]: the header's text when it is visible ASCII. *)
Definition authenticate_scim (authorization : option str) : result unit ScimError :=
  if negb (scim_enabled cfg) then Err (mkScimError 404 "SCIM provisioning is not enabled")
  else
    match scim_bearer_token cfg with
    | None => Err (mkScimError 500 "SCIM bearer token not configured")
    | Some expected =>
        let presented := or_empty (authorization ≫= strip_prefix "Bearer ") in
        if constant_time_eq presented expected then Ok tt
        else Err (mkScimError 401 "Invalid SCIM bearer token")
    end.

Definition user_to_scim (u : UserRecord) (base_url : str) : ScimUser :=
  let primary_email := or_empty (u_email u) in
  mkScimUser [user_schema] (Some (u_subject u)) (Some (u_subject u)) (u_subject u)
    (u_display_name u) true ((fun n => mkScimName (Some n) None None) <$> u_display_name u)
    (if non_empty primary_email then [mkScimMultiValue primary_email (Some "work" : option str) true]
     else [])
    (map (fun g => mkScimGroupRef g (Some (base_url ++ "/scim/v2/Groups/" ++ g)) (Some g)) (u_groups u))
    (Some (mkScimMeta "User" (Some (rfc3339 lib (u_first_seen u))) (Some (rfc3339 lib (u_last_login u)))
             (Some (base_url ++ "/scim/v2/Users/" ++ u_subject u)))).

(** ** Policies from group mappings

    [n] counts the identifiers drawn so far in the request. *)

Definition mapped_project (s : World) (tenant_id : str) (m : GroupRoleMapping) : option str :=
  name ← gm_project m; p_id <$> projects s !! (tenant_id, name).

Fixpoint mapped_policies (s : World) (subject : str) (groups : list str) (n : nat)
    (mappings : list GroupRoleMapping) : list AccessPolicy :=
  match mappings with
  | [] => []
  | m :: mappings' =>
      if existsb (mapping_matches (gm_group m)) groups then
        match tenants s !! gm_tenant m with
        | Some t =>
            mkAccessPolicy (rq_uuid rq n) (t_id t) (mapped_project s (t_id t) m) subject (gm_role m)
              (rq_now rq)
            :: mapped_policies s subject groups (S n) mappings'
        | None => mapped_policies s subject groups n mappings'
        end
      else mapped_policies s subject groups n mappings'
  end.

Definition without_subject (subject : str) (ps : list AccessPolicy) : list AccessPolicy :=
  List.filter (fun p => negb (str_eqb (pol_subject p) subject)) ps.

(** The next identifier is returned. *)
Definition apply_group_policies (n : nat) (subject : str) (groups : list str) : Scim nat :=
  let! ps := gets (fun s => mapped_policies s subject groups n (group_role_mappings cfg)) in
  do! modify (set_policies (fun old => without_subject subject old ++ ps)) in
  ret (n + length ps)%nat.

(** ** Users *)

(** [users.remove(id)], then the subject's policies. *)
Definition deprovision (id : str) : Scim unit :=
  do! modify (set_users (delete id)) in
  modify (set_policies (without_subject id)).

Definition scim_list_users (authorization : option str) : Scim (list ScimUser) :=
  do! lift (authenticate_scim authorization) in
  let! us := gets users in
  ret (map (fun u => user_to_scim u (auth_listen_addr cfg)) (map_order lib _ (map snd (map_to_list us)))).

Definition scim_get_user (authorization : option str) (id : str) : Scim ScimUser :=
  do! lift (authenticate_scim authorization) in
  let! us := gets users in
  let! u := lift (ok_or (us !! id) (mkScimError 404 ("User '" ++ id ++ "' not found"))) in
  ret (user_to_scim u (auth_listen_addr cfg)).

Definition scim_create_user (authorization : option str) (su : ScimUser) : Scim ScimUser :=
  do! lift (authenticate_scim authorization) in
  let subject := su_user_name su in
  if negb (non_empty subject) then throw (mkScimError 400 "userName is required")
  else
    let u := mkUserRecord subject (scim_email su) (su_display_name su) (scim_group_names su) "scim"
               (rq_now rq) (rq_now rq) 0 in
    do! modify (set_users (<[subject := u]>)) in
    let! _ := apply_group_policies 0 subject (scim_group_names su) in
    ret (user_to_scim u (auth_listen_addr cfg)).

Definition set_inactive (su : ScimUser) : ScimUser :=
  mkScimUser (su_schemas su) (su_id su) (su_external_id su) (su_user_name su) (su_display_name su)
    false (su_name su) (su_emails su) (su_groups su) (su_meta su).

Definition scim_replace_user (authorization : option str) (id : str) (su : ScimUser) : Scim ScimUser :=
  do! lift (authenticate_scim authorization) in
  let! us := gets users in
  let existing := us !! id in
  let now := rq_now rq in
  let u := mkUserRecord id (scim_email su) (su_display_name su) (scim_group_names su) "scim"
             (default now (u_first_seen <$> existing)) (default now (u_last_login <$> existing))
             (default 0 (u_login_count <$> existing)) in
  do! (if negb (su_active su) && scim_auto_deactivate cfg then deprovision id
       else
         do! modify (set_users (<[id := u]>)) in
         let! _ := apply_group_policies 0 id (scim_group_names su) in
         ret tt) in
  let! us := gets users in
  ret match us !! id with
      | Some u => user_to_scim u (auth_listen_addr cfg)
      | None =>
          set_inactive (user_to_scim (mkUserRecord id None (su_display_name su) [] "scim" now now 0)
                          (auth_listen_addr cfg))
      end.

(** One operation of a user patch. *)
Definition patch_user_op (id : str) (op : ScimPatchOperation) : Scim unit :=
  if str_eqb (lowercase (po_op op)) "replace" then
    do! (if bool_decide (po_path op = Some ("active" : str)) then
           match po_value op with
           | Some (JBool false) => deprovision id
           | _ => ret tt
           end
         else ret tt) in
    if bool_decide (po_path op = Some ("displayName" : str))
       || bool_decide (po_path op = Some ("name.formatted" : str))
    then match po_value op with
         | Some (JString name) => modify (set_users (alter (with_display_name name) id))
         | _ => ret tt
         end
    else ret tt
  else ret tt.

Definition scim_patch_user (authorization : option str) (id : str) (ops : list ScimPatchOperation) :
    Scim ScimUser :=
  do! lift (authenticate_scim authorization) in
  do! for_each ops (patch_user_op id) in
  let! us := gets users in
  ret match us !! id with
      | Some u => user_to_scim u (auth_listen_addr cfg)
      | None => mkScimUser [user_schema] (Some id) (Some id) id None false None [] [] None
      end.

Definition scim_delete_user (authorization : option str) (id : str) : Scim unit :=
  do! lift (authenticate_scim authorization) in
  deprovision id.

(** ** Groups *)

Definition scim_list_groups (authorization : option str) : Scim (list ScimGroup) :=
  do! lift (authenticate_scim authorization) in
  let! gs := gets scim_groups in
  ret (map_order lib _ (map snd (map_to_list gs))).

Definition scim_create_group (authorization : option str) (group : ScimGroup) : Scim ScimGroup :=
  do! lift (authenticate_scim authorization) in
  let group_id := default (rq_uuid rq 0) (sg_id group) in
  let g := mkScimGroup [group_schema] (Some group_id) (sg_external_id group) (sg_display_name group)
             (sg_members group) (sg_meta group) in
  do! for_each (sg_members g) (fun m => modify (set_users
        (alter (with_groups (add_group (sg_display_name g))) (sm_value m)))) in
  do! modify (set_groups (<[group_id := g]>)) in
  ret g.

(** Adding a member: its user gains the group and the policies that follow. *)
Definition add_member (g : ScimGroup) (n : nat) (m : ScimMember) : Scim (ScimGroup * nat) :=
  if existsb (fun x => str_eqb (sm_value x) (sm_value m)) (sg_members g) then ret (g, n)
  else
    let! us := gets users in
    let! n := match us !! sm_value m with
              | Some u =>
                  if bool_decide (sg_display_name g ∈ u_groups u) then ret n
                  else
                    do! modify (set_users (alter (with_groups (add_group (sg_display_name g)))
                                             (sm_value m))) in
                    apply_group_policies n (sm_value m) (add_group (sg_display_name g) (u_groups u))
              | None => ret n
              end in
    ret (with_members (fun ms => ms ++ [m]) g, n).

Fixpoint add_members (g : ScimGroup) (n : nat) (ms : list ScimMember) : Scim (ScimGroup * nat) :=
  match ms with
  | [] => ret (g, n)
  | m :: ms' => let! r := add_member g n m in add_members (fst r) (snd r) ms'
  end.

Definition remove_member (g : ScimGroup) (n : nat) (user_id : str) : Scim (ScimGroup * nat) :=
  let g := with_members (List.filter (fun m => negb (str_eqb (sm_value m) user_id))) g in
  let! us := gets users in
  let! n := match us !! user_id with
            | Some u =>
                do! modify (set_users (alter (with_groups (drop_group (sg_display_name g))) user_id)) in
                apply_group_policies n user_id (drop_group (sg_display_name g) (u_groups u))
            | None => ret n
            end in
  ret (g, n).

Definition patch_group_op (g : ScimGroup) (n : nat) (op : ScimPatchOperation) : Scim (ScimGroup * nat) :=
  let name := lowercase (po_op op) in
  if str_eqb name "add" then
    match po_value op ≫= de_vec de_member with
    | Some ms => add_members g n ms
    | None => ret (g, n)
    end
  else if str_eqb name "remove" then
    match po_path op ≫= extract_member_id_from_path with
    | Some user_id => remove_member g n user_id
    | None => ret (g, n)
    end
  else if str_eqb name "replace" then
    if bool_decide (po_path op = Some ("members" : str)) || bool_decide (po_path op = None) then
      match po_value op ≫= de_vec de_member with
      | Some ms => ret (with_members (fun _ => ms) g, n)
      | None => ret (g, n)
      end
    else ret (g, n)
  else ret (g, n).

Fixpoint patch_group_ops (g : ScimGroup) (n : nat) (ops : list ScimPatchOperation) :
    Scim (ScimGroup * nat) :=
  match ops with
  | [] => ret (g, n)
  | op :: ops' => let! r := patch_group_op g n op in patch_group_ops (fst r) (snd r) ops'
  end.

Definition scim_patch_group (authorization : option str) (id : str) (ops : list ScimPatchOperation) :
    Scim ScimGroup :=
  do! lift (authenticate_scim authorization) in
  let! gs := gets scim_groups in
  let! g := lift (ok_or (gs !! id) (mkScimError 404 ("Group '" ++ id ++ "' not found"))) in
  let! r := patch_group_ops g 0 ops in
  do! modify (set_groups (<[id := fst r]>)) in
  ret (fst r).

Definition scim_delete_group (authorization : option str) (id : str) : Scim unit :=
  do! lift (authenticate_scim authorization) in
  let! gs := gets scim_groups in
  do! modify (set_groups (delete id)) in
  match gs !! id with
  | Some g => modify (set_users (fmap (with_groups (drop_group (sg_display_name g)))))
  | None => ret tt
  end.

(** ** Start-up *)

Definition seed_demo_data : gmap str Tenant * gmap (str * str) Project * list AccessPolicy :=
  let now := rq_now rq in
  let u := rq_uuid rq in
  (<[("_" : str) := mkTenant (u 3%nat) "_" true "_"]>
     (<[("demo" : str) := mkTenant (u 0%nat) "demo" true "demo"]> ∅),
   <[(u 3%nat, "_" : str) := mkProject (u 4%nat) (u 3%nat) "_"]>
     (<[(u 0%nat, "default" : str) := mkProject (u 1%nat) (u 0%nat) "default"]> ∅),
   [mkAccessPolicy (u 2%nat) (u 0%nat) (Some (u 1%nat)) "admin" Admin now;
    mkAccessPolicy (u 5%nat) (u 3%nat) None "admin" Admin now]).

Definition initial_state : World :=
  exec (discover_all cfg lib rq)
    (mkAuthState (fst (fst seed_demo_data)) (snd (fst seed_demo_data)) (snd seed_demo_data)
       ∅ ∅ ∅ ∅ ∅ ∅ ∅ []).

(** What [main] changes in the configuration it has read. *)
Definition main_config : ServiceConfig :=
  mkServiceConfig (Some (mkBootstrapAdmin "admin" (sha256_hex_of lib "admin"))) (svc_issuer cfg)
    (svc_audience cfg) (token_ttl_seconds cfg) (oidc_providers cfg)
    (Some (default default_github_config (github_oidc cfg))) (group_role_mappings cfg) (ci_providers cfg)
    (auto_provision_users cfg) (robot_accounts_enabled cfg) (scim_enabled cfg)
    (scim_bearer_token cfg) (scim_auto_deactivate cfg) (auth_listen_addr cfg).
End scim.
