(* ===== verification/AuthProofs.v ===== *)
(** * Lemmas of the auth service

    Constant-time comparison, group patterns against the meaning of globs, role
    resolution, and what the authentication of a caller establishes. *)

From S2P Require Import Prelude Json Text Glob Effects Auth Utf8 AuthCore.

Local Open Scope Z_scope.

Lemma constant_time_eq_true a b : constant_time_eq a b = true <-> a = b.
Proof.
  unfold constant_time_eq. destruct (Nat.eqb_spec (length a) (length b)); cbn.
  - rewrite Z.eqb_eq, diff_bytes_zero by done. naive_solver.
  - split; [done|]. by intros ->.
Qed.

(** ** The matching loop *)

Lemma glob_loop_sound b ps s rest :
  glob_loop b false ps s = Some rest -> in_order ps s rest.
Proof.
  revert s. induction ps as [|p ps IH]; intros s; cbn [glob_loop in_order]; [by intros [= ->]|].
  destruct p as [|c p]; cbn [non_empty negb]; [intros H; exists [], s; eauto|].
  destruct (split_once_str (c :: p) s) as [[h t]|] eqn:E; [|done]. cbn [andb].
  intros H. exists h, t. split; [by apply split_once_str_app|eauto].
Qed.

Lemma glob_loop_complete b ps s rest :
  in_order ps s rest -> exists rest', glob_loop b false ps s = Some rest'.
Proof.
  assert (forall u s, in_order ps s rest -> exists r, glob_loop b false ps (u ++ s) = Some r) as H.
  { induction ps as [|p ps IH]; intros u s'; cbn [glob_loop in_order]; [eauto|].
    intros (w & t & -> & H). destruct p as [|c p]; cbn [non_empty negb].
    - destruct (IH (u ++ w) t H) as [r Hr]. exists r. by rewrite <- app_assoc in Hr.
    - destruct (split_once_str_some (c :: p) (u ++ w) t) as (h & t' & E).
      pose proof (split_once_str_leftmost _ _ _ _ _ E) as [v ->].
      rewrite <- app_assoc in E. rewrite E. cbn [andb]. by apply IH. }
  intros Hs. by apply (H []).
Qed.

(** The first part is anchored at the start. *)
Lemma glob_loop_first pattern p ps s rest :
  split_on star pattern = p :: ps ->
  glob_loop (starts_with [star] pattern) true (p :: ps) s = Some rest <->
  exists s', s = p ++ s' /\ glob_loop (starts_with [star] pattern) false ps s' = Some rest.
Proof.
  intros Hp. cbn [glob_loop]. destruct p as [|c p]; cbn [non_empty negb].
  { split; [intros H; by exists s|]. by intros (s' & -> & H). }
  assert (starts_with [star] pattern = false) as ->.
  { destruct pattern as [|x pattern]; [done|]. revert Hp. cbn.
    destruct (byte_eqb_spec x star) as [->|Hx]; [done|].
    intros _. unfold starts_with. cbn. by destruct (byte_eqb_spec star x); subst. }
  cbn [negb]. split.
  - destruct (split_once_str (c :: p) s) as [[h t]|] eqn:E; [|done].
    apply split_once_str_app in E as ->. destruct h; [|done]. cbn [non_empty andb app]. intros H. by exists t.
  - intros (s' & -> & H). pose proof (split_once_str_some (c :: p) [] s') as (h & t & E).
    pose proof (split_once_str_before (c :: p) [] s' h t E) as Hl. destruct h; [|cbn in Hl; lia].
    change ([] ++ (c :: p) ++ s') with ((c :: p) ++ s') in E. rewrite E.
    apply split_once_str_app in E. cbn [app] in E. injection E as E. by apply app_inv_head in E as <-.
Qed.

Lemma group_matches_loop pattern group p ps :
  pattern <> [star] -> contains_byte star pattern = true -> split_on star pattern = p :: ps ->
  group_matches pattern group = true <->
  exists s' rest, group = p ++ s' /\
    glob_loop (starts_with [star] pattern) false ps s' = Some rest /\
    (ends_with [star] pattern = false -> rest = []).
Proof.
  intros Hs Hc Hp. unfold group_matches. destruct (str_eqb_spec pattern "*") as [->|_]; [done|].
  rewrite Hc, Hp. cbn [negb]. split.
  - destruct (glob_loop _ true _ _) as [rest|] eqn:E; [|done].
    apply (glob_loop_first _ _ _ _ _ Hp) in E as (s' & -> & E).
    intros H. exists s', rest. split; [done|]. split; [done|]. intros He. revert H.
    change (ends_with _ pattern) with (ends_with [star] pattern). rewrite He. by destruct rest.
  - intros (s' & rest & -> & E & He).
    assert (glob_loop (starts_with [star] pattern) true (p :: ps) (p ++ s') = Some rest) as E'.
    { apply (glob_loop_first _ _ _ _ _ Hp). eauto. }
    change (starts_with _ pattern) with (starts_with [star] pattern). rewrite E'.
    change (ends_with _ pattern) with (ends_with [star] pattern).
    destruct (ends_with [star] pattern); [done|]. by rewrite (He eq_refl).
Qed.

(** ** Roles *)

Definition role_rank (r : Role) : nat :=
  match r with
  | Reader => 0
  | Maintainer => 1
  | Admin => 2
  end.

Lemma higher_privilege_role_max a b :
  role_rank (higher_privilege_role a b) = Nat.max (role_rank a) (role_rank b) /\
  (higher_privilege_role a b = a \/ higher_privilege_role a b = b).
Proof. destruct a, b; cbn; auto. Qed.

(** The roles of the mappings that match one of the groups. *)
Definition matched_roles (mappings : list GroupRoleMapping) (groups : list str) : list Role :=
  flat_map (fun m => map (fun _ => gm_role m) (List.filter (group_matches (gm_group m)) groups))
    mappings.

Lemma group_roles_fold mappings groups :
  group_roles mappings groups = fold_left better (matched_roles mappings groups) None.
Proof.
  unfold group_roles. generalize (@None Role) as best.
  induction mappings as [|m ms IH]; intros best; [done|]. cbn [matched_roles flat_map fold_left].
  rewrite fold_left_app. fold (matched_roles ms groups).
  assert (forall b, fold_left (fun best g => if group_matches (gm_group m) g then better best (gm_role m)
                                             else best) groups b
                    = fold_left better (map (fun _ => gm_role m)
                                          (List.filter (group_matches (gm_group m)) groups)) b) as Hg.
  { clear. induction groups as [|g gs IHg]; intros b; [done|]. cbn. rewrite IHg.
    by destruct (group_matches (gm_group m) g). }
  rewrite Hg. apply IH.
Qed.

Lemma fold_better_some l best r :
  fold_left better l (Some best) = Some r ->
  r ∈ best :: l /\ forall x, x ∈ best :: l -> (role_rank x <= role_rank r)%nat.
Proof.
  revert best. induction l as [|a l IH]; intros best; cbn.
  - intros [= ->]. split; [set_solver|]. intros x Hx. by replace x with r by set_solver.
  - intros H. apply IH in H as [Hin Hmax].
    pose proof (higher_privilege_role_max best a) as [Hrank Hor].
    pose proof (Hmax (higher_privilege_role best a) ltac:(set_solver)).
    split; [destruct Hor as [E|E]; rewrite E in Hin; set_solver|].
    intros x [->|[->|Hx]%elem_of_cons]%elem_of_cons; [lia|lia|]. apply Hmax. set_solver.
Qed.

(** The best role of the matching mappings, when one matches. *)
Lemma group_roles_best mappings groups :
  match group_roles mappings groups with
  | Some r => r ∈ matched_roles mappings groups /\
              forall x, x ∈ matched_roles mappings groups -> (role_rank x <= role_rank r)%nat
  | None => matched_roles mappings groups = []
  end.
Proof.
  rewrite group_roles_fold. destruct (matched_roles mappings groups) as [|a l]; [done|].
  cbn [fold_left]. change (better None a) with (Some a).
  destruct (fold_left better l (Some a)) as [r|] eqn:E; [by apply fold_better_some|].
  exfalso. revert a E. induction l as [|b l IH]; intros a; [done|]. apply IH.
Qed.

Definition subject_policy (subject tenant_id : str) (p : AccessPolicy) : bool :=
  str_eqb (pol_subject p) subject && str_eqb (pol_tenant_id p) tenant_id.

(** A policy of the subject on exactly the project. *)
Definition project_policy (subject tenant_id : str) (project_id : option str) (p : AccessPolicy) : bool :=
  subject_policy subject tenant_id p
  && match project_id with Some q => bool_decide (pol_project_id p = Some q) | None => false end.

(** A policy of the subject on the whole tenant. *)
Definition tenant_policy (subject tenant_id : str) (p : AccessPolicy) : bool :=
  subject_policy subject tenant_id p && bool_decide (pol_project_id p = None).

Lemma policy_role_eq subject tid pid best ps :
  policy_role subject tid pid best ps =
  match List.find (project_policy subject tid pid) ps with
  | Some p => inl (pol_role p)
  | None =>
      inr match last (List.filter (tenant_policy subject tid) ps) with
          | Some p => Some (pol_role p)
          | None => best
          end
  end.
Proof.
  revert best. induction ps as [|p ps IH]; intros best; [done|].
  cbn [policy_role List.find List.filter]. rewrite <- negb_andb.
  unfold project_policy at 1, tenant_policy at 1. fold (subject_policy subject tid p).
  destruct (subject_policy subject tid p); cbn [negb andb]; [|apply IH].
  destruct (match pid with Some q => bool_decide (pol_project_id p = Some q) | None => false end); [done|].
  rewrite IH. destruct (List.find _ ps); [done|]. case_bool_decide; [|done].
  rewrite last_cons. by destruct (last _).
Qed.

(** ** Provisioning and robots *)

Lemma provision_user_run cfg rq subject email name groups how s :
  exists s', provision_user cfg rq subject email name groups how s = (s', Ok tt) /\
    tenants s' = tenants s /\ projects s' = projects s /\ access_policies s' = access_policies s /\
    (forall u, users s' !! subject = Some u -> u_groups u = groups) /\
    (forall k, k <> subject -> users s' !! k = users s !! k).
Proof.
  eexists. split; [reflexivity|]. repeat split.
  - intros u. unfold set_users. cbn [users]. destruct (users s !! subject) eqn:E.
    + rewrite lookup_insert_eq. by intros [= <-].
    + destruct (auto_provision_users cfg); [|congruence]. rewrite lookup_insert_eq. by intros [= <-].
  - intros k Hk. unfold set_users. cbn [users]. destruct (users s !! subject).
    + by rewrite lookup_insert_ne.
    + destruct (auto_provision_users cfg); [by rewrite lookup_insert_ne|done].
Qed.

(** A robot may log in: enabled, not expired, and the secret's hash is its own. *)
Definition robot_admits (now : Z) (name secret_hash : str) (r : RobotAccount) : Prop :=
  rb_name r = name /\ rb_enabled r = true /\ secret_hash = rb_secret_hash r /\
  match rb_expires_at r with Some x => now <= x | None => True end.

Lemma robot_scan_ok now name h rs r :
  robot_scan now name h rs = Some (Ok r) -> r ∈ rs /\ robot_admits now name h r.
Proof.
  induction rs as [|a rs IH]; cbn [robot_scan]; [done|].
  assert (robot_scan now name h rs = Some (Ok r) -> r ∈ a :: rs /\ robot_admits now name h r) as Hrec.
  { intros H. destruct (IH H). split; [by right|done]. }
  destruct (str_eqb_spec (rb_name a) name) as [Hn|]; cbn [andb]; [|done].
  destruct (rb_enabled a) eqn:He; [|done].
  destruct (rb_expires_at a) as [x|] eqn:Ex; [destruct (Z.ltb_spec x now); [done|]|].
  all: destruct (constant_time_eq h (rb_secret_hash a)) eqn:Eh; [|done].
  all: intros [= <-]; apply constant_time_eq_true in Eh; split; [by left|].
  all: unfold robot_admits; rewrite Ex; auto with lia.
Qed.

(** An account that is the only one of its name decides alone. *)
Lemma robot_scan_unique now name h rs r :
  r ∈ rs -> robot_admits now name h r -> (forall x, x ∈ rs -> rb_name x = name -> x = r) ->
  robot_scan now name h rs = Some (Ok r).
Proof.
  intros Hin (Hn & He & Hh & Hx) Hu. revert Hin Hu.
  induction rs as [|a rs IH]; [set_solver|]. intros Hin Hu. cbn [robot_scan].
  destruct (str_eqb_spec (rb_name a) name) as [Ha|Ha]; cbn [andb].
  - assert (a = r) as -> by (apply Hu; [set_solver|done]). rewrite He.
    assert (constant_time_eq h (rb_secret_hash r) = true) as -> by by apply constant_time_eq_true.
    destruct (rb_expires_at r) as [x|]; [|done]. by destruct (Z.ltb_spec x now); [lia|].
  - apply IH; [|set_solver]. apply elem_of_cons in Hin as [<-|]; done.
Qed.

Lemma robot_scan_none now name h rs :
  (forall x, x ∈ rs -> rb_name x <> name) -> robot_scan now name h rs = None.
Proof.
  induction rs as [|a rs IH]; [done|]. intros H. cbn [robot_scan].
  destruct (str_eqb_spec (rb_name a) name); [exfalso; eapply H; [|done]; set_solver|].
  cbn [andb]. apply IH. set_solver.
Qed.

(** ** Identity tokens *)

Section identity.
Context (cfg : ServiceConfig) (lib : AuthLib) (rq : AuthReq).

(** The token carries the claims under a key of a cached provider, checked for
    the provider's client and issuer. *)
Definition verified (s : AuthState) (token : str) (c : IdentityTokenClaims) : Prop :=
  exists issuer p k,
    jwks_cache s !! issuer = Some p /\ k ∈ cp_jwks_keys p /\
    jwt_identity lib (ck_decoding_key k) (ck_algorithm k) (cp_client_id p) (cp_issuer_url p) token
      = Some c.

Lemma try_keys_some token p keys c :
  try_keys lib token p keys = Some c ->
  exists k, k ∈ keys /\ jwt_identity lib (ck_decoding_key k) (ck_algorithm k) (cp_client_id p)
                          (cp_issuer_url p) token = Some c.
Proof.
  induction keys as [|k keys IH]; cbn [try_keys]; [done|].
  destruct (jwt_identity _ _ _ _ _ _) eqn:E.
  - intros [= <-]. exists k. split; [by left|done].
  - intros H. destruct (IH H) as (k' & Hk & Hc). exists k'. split; [by right|done].
Qed.

Lemma keys_to_try_sub kid p k : k ∈ keys_to_try kid p -> k ∈ cp_jwks_keys p.
Proof.
  unfold keys_to_try. destruct kid as [kid|]; [|done].
  destruct (List.filter _ _) as [|k0 ks] eqn:E; [done|]. rewrite <- E.
  rewrite !list_elem_of_In, filter_In. by intros [].
Qed.

Lemma verify_with_provider_ok token kid p c :
  verify_with_provider lib token kid p = Ok c ->
  exists k, k ∈ cp_jwks_keys p /\ jwt_identity lib (ck_decoding_key k) (ck_algorithm k)
                                    (cp_client_id p) (cp_issuer_url p) token = Some c.
Proof.
  unfold verify_with_provider. destruct (keys_to_try kid p) as [|k0 ks] eqn:E; [done|].
  destruct (try_keys lib token p (k0 :: ks)) as [c'|] eqn:Ec; [|done]. intros [= <-].
  apply try_keys_some in Ec as (k & Hk & Hc). exists k. split; [|done].
  apply (keys_to_try_sub kid). by rewrite E.
Qed.

(** What the key cache does not touch. *)
Definition only_jwks (s s' : AuthState) : Prop := exists f, s' = set_jwks f s.

Lemma only_jwks_refl s : only_jwks s s.
Proof. exists (fun c => c). by destruct s. Qed.

Lemma discover_provider_only c s : only_jwks s (exec (discover_provider lib rq c) s).
Proof.
  unfold discover_provider, exec, bind, lift. destruct (rq_discover rq (op_issuer_url c)); cbn.
  - by eexists.
  - apply only_jwks_refl.
Qed.

Lemma rediscovery_ok token issuer s s' c :
  validate_token_with_rediscovery cfg lib rq token issuer s = (s', Ok c) ->
  verified s' token c /\ only_jwks s s'.
Proof.
  unfold validate_token_with_rediscovery. destruct (config_for cfg issuer) as [pc|]; [|done].
  intros (s1 & [] & Hd & H)%bind_ok.
  assert (only_jwks s s1) as Ho.
  { pose proof (discover_provider_only pc s) as Ho. revert Hd Ho. unfold rethrow, exec.
    destruct (discover_provider lib rq pc s) as [s2 r]. intros [= <- _]. done. }
  apply bind_ok in H as (s2 & kid & [= <- Hk] & H).
  apply bind_ok in H as (s3 & cache & [= <- <-] & H).
  apply bind_ok in H as (s4 & p & [= <- Hp] & [= <- Hv]).
  split; [|done]. destruct (jwks_cache s1 !! issuer) as [p'|] eqn:E; [|done]. injection Hp as <-.
  apply verify_with_provider_ok in Hv as (k & ? & ?). by exists issuer, p', k.
Qed.

Lemma validate_token_ok token s s' c :
  validate_token cfg lib rq token s = (s', Ok c) -> verified s' token c /\ only_jwks s s'.
Proof.
  unfold validate_token. intros H.
  apply bind_ok in H as (s1 & kid & [= <- _] & H).
  apply bind_ok in H as (s1 & payload & [= <- _] & H).
  apply bind_ok in H as (s1 & un & [= <- _] & H).
  apply bind_ok in H as (s1 & cache & [= <- <-] & H).
  destruct (jwks_cache s !! id_iss un) as [p|] eqn:E; [|by apply rediscovery_ok in H].
  destruct (refresh_interval_secs <? _).
  - apply bind_ok in H as (s1 & r & Ha & H). apply bind_ok in H as (s2 & cache & [= <- <-] & H).
    assert (only_jwks s s1) as Ho.
    { revert Ha. unfold attempt, refresh_provider. destruct (config_for cfg (id_iss un)) as [pc|].
      - pose proof (discover_provider_only pc s) as Ho. unfold exec in Ho.
        destruct (discover_provider lib rq pc s). intros [= <- _]. done.
      - intros [= <- _]. apply only_jwks_refl. }
    destruct (jwks_cache s1 !! id_iss un) as [p'|] eqn:E'; [|done]. injection H as <- Hv.
    apply verify_with_provider_ok in Hv as (k & ? & ?). split; [by exists (id_iss un), p', k|done].
  - injection H as <- Hv. apply verify_with_provider_ok in Hv as (k & ? & ?).
    split; [by exists (id_iss un), p, k|apply only_jwks_refl].
Qed.

(** How the service knows the subject of a request. *)
Definition identified (s s' : AuthState) (authorization : option str) (token subject : str) : Prop :=
  (exists password admin,
     extract_basic_auth lib authorization = Some (subject, password) /\
     bootstrap_admin cfg = Some admin /\ subject = ba_username admin /\
     sha256_hex_of lib password = ba_password_hash admin) \/
  (exists name password r,
     extract_basic_auth lib authorization = Some ("robot:" ++ name, password) /\
     r ∈ robot_values lib s /\ robot_admits (rq_now rq) name (sha256_hex_of lib password) r /\
     subject = "robot:" ++ name) \/
  (exists c,
     subject = id_sub c /\
     match oidc_providers cfg with
     | [] => validate_unsigned lib rq token = Ok c
     | _ :: _ => verified s' token c
     end).

Lemma authenticate_robot_ok name secret s s' subject :
  authenticate_robot lib rq name secret s = (s', Ok subject) ->
  subject = "robot:" ++ name /\
  exists r, r ∈ robot_values lib s /\ robot_admits (rq_now rq) name (sha256_hex_of lib secret) r /\
    s' = set_robots (alter (used (rq_now rq)) (rb_id r)) s.
Proof.
  unfold authenticate_robot. destruct (robot_scan _ _ _ _) as [[r|e]|] eqn:E; [|done..].
  intros [= <- <-]. apply robot_scan_ok in E as [? ?]. eauto.
Qed.

Lemma authenticate_robot_err name secret s s' e :
  authenticate_robot lib rq name secret s = (s', Err e) -> s' = s /\ e = Unauthorized.
Proof.
  unfold authenticate_robot. destruct (robot_scan _ _ _ _) as [[r|e']|]; by intros [= <- <-].
Qed.

Lemma authenticate_basic_ok user password subject :
  authenticate_basic cfg lib user password = Ok subject ->
  subject = user /\ exists admin, bootstrap_admin cfg = Some admin /\ user = ba_username admin /\
    sha256_hex_of lib password = ba_password_hash admin.
Proof.
  unfold authenticate_basic, verify_bootstrap_password. destruct (bootstrap_admin cfg) as [a|]; [|done].
  destruct (str_eqb_spec user (ba_username a)); [|done].
  destruct (constant_time_eq _ _) eqn:E; [|done]. apply constant_time_eq_true in E.
  intros [= <-]. eauto.
Qed.
End identity.

(** ** A small installation

    One tenant, one CI provider, one group mapping and libraries that are
    trivial, for the witnesses. *)

Definition demo_lib : AuthLib :=
  mkAuthLib (fun x => x) (fun x => x) Some Some (fun x => x)
    (fun _ => Some (JObject [("sub" : str, JString "alice"); ("iss" : str, JString "https://ci")]))
    (fun _ => []) (fun _ _ => None) (fun _ => Ok None) (fun _ _ _ _ _ => None) (fun _ _ _ => Err [])
    (fun c => Some (claims_sub c)) (fun _ => []) (- 2 ^ 80) (2 ^ 80) (fun _ l => l).

Definition demo_rq : AuthReq :=
  mkAuthReq (2 ^ 60) (fun n => dec (Z.of_nat n)) false Z.of_nat (fun _ => Err []) (fun _ => None)
    (fun _ _ => Err []).

Definition demo_mapping : GroupRoleMapping := mkGroupRoleMapping "dev-*" "demo" (Some ("ghost" : str)) Maintainer.

Definition demo_cfg : ServiceConfig :=
  mkServiceConfig (Some (mkBootstrapAdmin "admin" "secret")) "https://auth" "registry" 3600 [] None
    [demo_mapping] [mkCiOidcProvider "ci" "https://ci" "ci:" [] "maintainer" 600] true true true
    (Some ("bearer" : str)) true "localhost".

Definition demo_tenant : Tenant := mkTenant "t1" "demo" true "demo".

Definition demo_state : AuthState :=
  mkAuthState (<[("demo" : str) := demo_tenant]> ∅)
    (<[("t1" : str, "default" : str) := mkProject "p1" "t1" "default"]> ∅) [] ∅ ∅ ∅ ∅ ∅ ∅ ∅ [].
