(* ===== verification/AuthTheorems.v ===== *)
(** * Theorems about the auth service

    Who a token is issued to and what it lets the registry accept, the roles
    behind it, the provisioning that changes them, and invariants of every
    state the service reaches. *)

From S2P Require Import Prelude Json Text Glob Effects Auth Utf8 AuthCore AuthService Scim AuthProofs.

Local Open Scope Z_scope.

Ltac step H s a E := apply bind_ok in H as (s & a & E & H).

(** ** Authentication *)

Section authentication.
Context (cfg : ServiceConfig) (lib : AuthLib) (rq : AuthReq).

(** What an authentication leaves alone. *)
Definition same_grants (s s' : AuthState) : Prop :=
  tenants s' = tenants s /\ projects s' = projects s /\ access_policies s' = access_policies s.

Lemma only_jwks_grants s s' : only_jwks s s' -> same_grants s s' /\ users s' = users s.
Proof. by intros [f ->]. Qed.

Lemma validate_identity_ok token s s' c :
  validate_identity_token cfg lib rq token s = (s', Ok c) ->
  match oidc_providers cfg with
  | [] => validate_unsigned lib rq token = Ok c
  | _ :: _ => verified lib s' token c
  end /\ only_jwks s s'.
Proof.
  unfold validate_identity_token. destruct (oidc_providers cfg).
  - intros [= <- H]. split; [done|apply only_jwks_refl].
  - apply validate_token_ok.
Qed.

Lemma authenticate_token_ok token s s' subject :
  (let! claims := validate_identity_token cfg lib rq token in
   do! provision_user cfg rq (id_sub claims) None None [] "oidc" in
   ret (id_sub claims)) s = (s', Ok subject) ->
  (exists c, subject = id_sub c /\
     match oidc_providers cfg with
     | [] => validate_unsigned lib rq token = Ok c
     | _ :: _ => verified lib s' token c
     end) /\
  same_grants s s' /\ (forall u, users s' !! subject = Some u -> u_groups u = []).
Proof.
  intros H. step H s1 c Hv. step H s2 u Hp. injection H as <- <-.
  apply validate_identity_ok in Hv as [Hv Ho]. apply only_jwks_grants in Ho as [(Ht & Hpr & Ha) Hu].
  pose proof Hp as Hp'. unfold provision_user, modify in Hp'. injection Hp' as Hs _.
  destruct (provision_user_run cfg rq (id_sub c) None None [] "oidc" s1) as (s3 & E & T & P & A & U & _).
  rewrite Hp in E. injection E as <- _. unfold same_grants. rewrite T, P, A.
  split; [|by repeat split]. exists c. split; [done|]. revert Hv.
  destruct (oidc_providers cfg); [done|]. intros (i & p & k & Hc & Hk). exists i, p, k.
  split; [|done]. rewrite <- Hs. done.
Qed.

Lemma authenticate_request_ok authorization token s s' subject :
  authenticate_request cfg lib rq authorization token s = (s', Ok subject) ->
  identified cfg lib rq s s' authorization token subject /\ same_grants s s'.
Proof.
  unfold authenticate_request. intros H. step H s1 basic Hb.
  destruct (extract_basic_auth lib authorization) as [[user pw]|] eqn:Ea.
  2: { injection Hb as <- <-. apply authenticate_token_ok in H as (Hc & Hg & _).
       split; [by right; right|done]. }
  destruct (authenticate_basic cfg lib user pw) as [sub|e] eqn:Eb.
  - apply authenticate_basic_ok in Eb as (-> & admin & Hba & Hu & Hh).
    step Hb s2 u Hp. injection Hb as <- <-. injection H as <- <-.
    destruct (provision_user_run cfg rq user None None [] "basic" s) as (s3 & E & T & P & A & _).
    rewrite Hp in E. injection E as <- _. split; [left; exists pw, admin; by rewrite Ea|done].
  - destruct (strip_prefix "robot:" user) as [name|] eqn:Er.
    + step Hb s2 r Hr. injection Hb as <- <-. unfold attempt in Hr.
      destruct (authenticate_robot lib rq name pw s) as [s3 [sub|e']] eqn:E; injection Hr as <- <-.
      * apply authenticate_robot_ok in E as (-> & r & Hin & Had & ->). injection H as <- <-.
        apply strip_prefix_some in Er as ->. split; [|done]. right; left. exists name, pw, r.
        by rewrite Ea.
      * apply authenticate_robot_err in E as [-> _]. apply authenticate_token_ok in H as (Hc & Hg & _).
        split; [by right; right|done].
    + injection Hb as <- <-. apply authenticate_token_ok in H as (Hc & Hg & _).
      split; [by right; right|done].
Qed.
End authentication.

(** ** Tokens issued to API clients *)

Section issuance.
Context (cfg : ServiceConfig) (lib : AuthLib) (rq : AuthReq).

Lemma permitted_elem role actions a :
  a ∈ permitted role actions <-> a ∈ actions /\ can role a = true.
Proof. unfold permitted. by rewrite !list_elem_of_In, filter_In. Qed.

(** What the registry accepts from a token with one scope. *)
Lemma one_scope_authority sub tid prefix pid role repo actions ttl t p n a :
  authorize (token_claims cfg rq sub tid prefix pid role
               [mkTokenScope repo (permitted role actions)] ttl) t p n a = Ok tt <->
  can role a = true /\
  (role = Admin \/ a ∈ actions /\ (repo = t ++ "/" ++ p ++ "/" ++ n \/ repo = "*")).
Proof.
  unfold authorize. cbn [claims_role scopes token_claims existsb]. rewrite orb_false_r.
  destruct (can role a) eqn:Ec; cbn [negb]; [|naive_solver].
  case_bool_decide as Hr; [naive_solver|]. unfold scope_grants. cbn [scope_repository scope_actions].
  destruct (_ && _) eqn:E; cbn [negb].
  - apply andb_prop in E as [E Ha%bool_decide_eq_true_1%permitted_elem].
    apply orb_prop in E. rewrite !str_eqb_iff in E. naive_solver.
  - split; [done|]. intros (_ & [?|(Ha & Hrepo)]); [done|].
    rewrite <- not_true_iff_false in E. destruct E. rewrite andb_true_iff, orb_true_iff, !str_eqb_iff.
    split; [done|]. apply bool_decide_eq_true_2. by apply permitted_elem.
Qed.

(** The project a scope names, in the tenant. *)
Definition scope_project (s : AuthState) (tid : str) (scope : RequestedScope) (pid : option str) : Prop :=
  match rs_project scope with
  | Some name => exists p, projects s !! (tid, name) = Some p /\ pid = Some (p_id p)
  | None => pid = None
  end.

Definition issued_claims (subject : str) (t : Tenant) (pid : option str) (role : Role)
    (scope : RequestedScope) : TokenClaims :=
  token_claims cfg rq subject (t_id t) (Some (t_storage_prefix t)) pid role
    [mkTokenScope (or_empty (rs_repository scope)) (permitted role (rs_actions scope))]
    (token_ttl_seconds cfg).

Definition issued_event (subject : str) (role : Role) (scope : RequestedScope) : AuthAuditEvent :=
  event rq subject (rs_tenant scope) (rs_project scope)
    ("token_issued:" ++ actions_debug (permitted role (rs_actions scope))) Allow
    ("role=" ++ role_debug role) None None.

(** The conditions under which [post_token] issues [resp] and leaves [s']. *)
Definition post_token_issues authorization token scope s s' resp : Prop :=
  rq_limited rq = false /\
  exists s1 subject t pid signed,
    authenticate_request cfg lib rq authorization token s = (s1, Ok subject) /\
    tenants s1 !! rs_tenant scope = Some t /\ t_enabled t = true /\
    scope_project s1 (t_id t) scope pid /\
    let role := resolve_role cfg s1 subject (t_id t) pid in
    (rs_actions scope = [] \/ permitted role (rs_actions scope) <> []) /\
    encode_claims lib (issued_claims subject t pid role scope) = Some signed /\
    resp = mkTokenResponse signed (token_ttl_seconds cfg) (rq_now rq) /\
    s' = log_event (issued_event subject role scope) s1.

Lemma refused_guard {A} (allowed requested : list A) :
  negb (0 <? length allowed)%nat && (0 <? length requested)%nat = false <->
  requested = [] \/ allowed <> [].
Proof. destruct allowed, requested; cbn; naive_solver. Qed.

Lemma find_tenant_ok name s s' t :
  find_tenant name s = (s', Ok t) <-> s' = s /\ tenants s !! name = Some t.
Proof.
  unfold find_tenant, bind, gets, lift, ok_or. destruct (tenants s !! name); naive_solver.
Qed.

Lemma scope_project_ok scope tid s s' pid :
  (match rs_project scope with
   | Some name => let! p := find_project tid name in ret (Some (p_id p))
   | None => ret None
   end) s = (s', Ok pid) <-> s' = s /\ scope_project s tid scope pid.
Proof.
  unfold scope_project. destruct (rs_project scope) as [name|]; [|unfold ret; naive_solver].
  unfold bind, find_project, gets, lift, bind, ok_or, ret.
  destruct (projects s !! (tid, name)); naive_solver.
Qed.

Lemma sign_token_ok c s s' token :
  sign_token lib c s = (s', Ok token) <-> s' = s /\ encode_claims lib c = Some token.
Proof. unfold sign_token, lift, ok_or. destruct (encode_claims lib c); naive_solver. Qed.

Lemma guard_ok (b : bool) (m : M AuthState RegistryError unit) s s' u :
  (forall s' u, m s <> (s', Ok u)) ->
  (if b then m else ret tt) s = (s', Ok u) <-> b = false /\ s' = s.
Proof. unfold ret. destruct b, u; naive_solver. Qed.

Lemma post_token_exact authorization token scope s s' resp :
  post_token cfg lib rq authorization token scope s = (s', Ok resp) <->
  post_token_issues authorization token scope s s' resp.
Proof.
  unfold post_token, post_token_issues. split.
  - intros H. step H s0 u0 Hl. apply guard_ok in Hl as [Hl ->]; [|by intros].
    step H s1 auth Ha. unfold attempt in Ha.
    destruct (authenticate_request cfg lib rq authorization token s) as [s1' r]. injection Ha as <- <-.
    step H s2 subject Hs. destruct r as [sub|e]; [injection Hs as <- <-|done].
    step H s3 t Ht. apply find_tenant_ok in Ht as [-> Ht].
    step H s4 u4 He. apply guard_ok in He as [He%negb_false_iff ->]; [|by intros].
    step H s5 pid Hp. apply scope_project_ok in Hp as [-> Hp].
    step H s6 role Hr. injection Hr as <- <-.
    step H s7 u7 Hg. apply guard_ok in Hg as [Hg ->]; [|by intros]. rewrite refused_guard in Hg.
    step H s8 signed Hk. apply sign_token_ok in Hk as [-> Hk].
    step H s9 u9 Hlog. injection Hlog as <-. injection H as <- <-.
    split; [done|]. by exists s1', sub, t, pid, signed.
  - intros (Hl & s1 & subject & t & pid & signed & Ha & Ht & He & Hp & Hg & Hk & -> & ->).
    etrans; [eapply bind_run, guard_ok; [by intros|done]|].
    etrans; [eapply bind_run; unfold attempt; by rewrite Ha|].
    etrans; [by eapply bind_run|].
    etrans; [by eapply bind_run, find_tenant_ok|].
    etrans; [eapply bind_run, guard_ok; [by intros|by rewrite He]|].
    etrans; [by eapply bind_run, scope_project_ok|].
    etrans; [by eapply bind_run|].
    etrans; [eapply bind_run, guard_ok; [by intros|]; split; [by apply refused_guard|done]|].
    etrans; [by eapply bind_run, sign_token_ok|]. done.
  Unshelve. all: exact tt.
Qed.
End issuance.


(** ** Docker tokens *)

Section docker.
Context (cfg : ServiceConfig) (lib : AuthLib) (rq : AuthReq).

Definition requested_scope (query : DockerTokenQuery) : RequestedScope :=
  default default_scope (dq_scope query ≫= parse_docker_scope).

Definition docker_project (s : AuthState) (tid : str) (scope : RequestedScope) : option str :=
  name ← rs_project scope; p_id <$> projects s !! (tid, name).

(** The token a tenant's clients get for a subject. *)
Definition docker_claims (s : AuthState) (subject : str) (t : Tenant) (scope : RequestedScope) :
    TokenClaims :=
  let pid := docker_project s (t_id t) scope in
  issued_claims cfg rq subject t pid (resolve_role cfg s subject (t_id t) pid) scope.

Lemma get_token_run authorization query s s1 subject t signed :
  docker_subject cfg lib rq authorization query s = (s1, Ok subject) ->
  tenants s1 !! rs_tenant (requested_scope query) = Some t ->
  encode_claims lib (docker_claims s1 subject t (requested_scope query)) = Some signed ->
  exists s', get_token_inner cfg lib rq authorization query s
             = (s', Ok (mkTokenResponse signed (token_ttl_seconds cfg) (rq_now rq))).
Proof.
  intros Hs Ht Hk. eexists. unfold get_token_inner.
  etrans; [by eapply bind_run|]. etrans; [by eapply bind_run, find_tenant_ok|].
  etrans; [by eapply bind_run|]. etrans; [by eapply bind_run|].
  etrans; [by eapply bind_run, sign_token_ok|]. done.
Qed.

Lemma get_token_ok authorization query s s' resp :
  get_token_inner cfg lib rq authorization query s = (s', Ok resp) ->
  exists s1 subject t,
    docker_subject cfg lib rq authorization query s = (s1, Ok subject) /\
    tenants s1 !! rs_tenant (requested_scope query) = Some t /\
    encode_claims lib (docker_claims s1 subject t (requested_scope query)) = Some (tr_token resp).
Proof.
  unfold get_token_inner. intros H. step H s1 subject Hs. step H s2 t Ht.
  apply find_tenant_ok in Ht as [-> Ht]. step H s3 ps Hps. injection Hps as <- <-.
  step H s4 role Hr. injection Hr as <- <-. step H s5 signed Hk. apply sign_token_ok in Hk as [-> Hk].
  step H s6 u Hl. injection Hl as <-. injection H as _ <-. by exists s1, subject, t.
Qed.
End docker.

(** The Docker token endpoint takes the [account] parameter as the subject
    without any credential: a request that names the bootstrap administrator
    receives a token the registry accepts for every action on every repository
    of every tenant. *)
Lemma account_grants_admin (cfg : ServiceConfig) (lib : AuthLib) (rq : AuthReq)
    (admin : BootstrapAdmin) (scope : option str) (s : AuthState) (t : Tenant) :
  let query := mkDockerTokenQuery scope (Some (ba_username admin)) None None in
  bootstrap_admin cfg = Some admin ->
  tenants s !! rs_tenant (requested_scope query) = Some t ->
  (forall c, exists signed, encode_claims lib c = Some signed) ->
  exists s' resp claims,
    get_token_inner cfg lib rq None query s = (s', Ok resp) /\
    encode_claims lib claims = Some (tr_token resp) /\
    forall tn pn n a, authorize claims tn pn n a = Ok tt.
Proof.
  intros query Hb Ht Hk.
  destruct (Hk (docker_claims cfg rq s (ba_username admin) t (requested_scope query))) as [signed Hs].
  destruct (get_token_run cfg lib rq None query s s (ba_username admin) t signed) as [s' Hr]; [done..|].
  exists s'. eexists. eexists. split; [exact Hr|]. split; [exact Hs|]. intros tn pn n a.
  unfold docker_claims. apply one_scope_authority.
  unfold resolve_role. rewrite Hb, str_eqb_refl. split; [by destruct a|by left].
Qed.

(** ** Docker scopes *)

Definition docker_action (a : Action) : option str :=
  match a with
  | Pull => Some "pull" : option str
  | Push => Some "push" : option str
  | Delete => Some "delete" : option str
  | Tag | Manage => None
  end.

(** The scope text a Docker client sends for a repository of three segments or
    more. *)
Definition docker_scope (t p n : str) (actions : list Action) : str :=
  "repository" ++ ":"%char :: (t ++ "/"%char :: p ++ "/"%char :: n)
  ++ ":"%char :: join_with "," (omap docker_action actions).

Definition path_segment (s : str) : bool := free_of "/" s && free_of ":" s.

Lemma free_of_app c a b : free_of c (a ++ b) = free_of c a && free_of c b.
Proof. apply forallb_app. Qed.

Lemma scope_actions_back actions :
  forallb (fun a => bool_decide (is_Some (docker_action a))) actions = true ->
  omap scope_action (split_on "," (join_with "," (omap docker_action actions))) = actions.
Proof.
  intros H. destruct actions as [|a0 actions0]; [done|]. set (l := a0 :: actions0) in *.
  rewrite split_join.
  - clearbody l. induction l as [|a l IH]; [done|]. cbn in H. apply andb_prop in H as [Ha Hl].
    destruct a; try done; cbn; by rewrite IH.
  - subst l. destruct a0; done.
  - clearbody l. induction l as [|a l IH]; [done|]. cbn in H. apply andb_prop in H as [Ha Hl].
    destruct a; try done; cbn; auto.
Qed.

Lemma parse_docker_scope_back t p n actions :
  path_segment t = true -> path_segment p = true -> free_of ":" n = true ->
  forallb (fun a => bool_decide (is_Some (docker_action a))) actions = true ->
  parse_docker_scope (docker_scope t p n actions) = Some (mkRequestedScope t (Some p) (Some n) actions).
Proof.
  intros [Ht Ht']%andb_prop [Hp Hp']%andb_prop Hn Ha. unfold parse_docker_scope, docker_scope.
  rewrite (splitn3_three ":" "repository"); [|done|].
  - rewrite splitn3_three by done. by rewrite scope_actions_back.
  - rewrite free_of_app, Ht'. cbn. change (forallb _ (p ++ "/"%char :: n)) with (free_of ":" (p ++ "/"%char :: n)).
    rewrite free_of_app, Hp'. cbn. exact Hn.
Qed.

(** A repository path is longer than its last path_segment. *)
Lemma path_longer (t p n : str) : n <> t ++ "/" ++ p ++ "/" ++ n.
Proof. intros H. apply (f_equal length) in H. rewrite !length_app in H. cbn in H. lia. Qed.

(** A Docker scope text of a repository [t/p/n] is read back as tenant
    [t], project [p], repository [n] and its actions.  The token issued for it
    names the repository [n] alone, which is never the path the registry
    compares with: unless the role is [Admin] or [n] is a star, the registry
    refuses every action of that token on [t/p/n] itself. *)
Theorem docker_token_unusable (cfg : ServiceConfig) (lib : AuthLib) (rq : AuthReq)
    (t p n : str) (actions : list Action) :
  path_segment t = true -> path_segment p = true -> free_of ":" n = true ->
  forallb (fun a => bool_decide (is_Some (docker_action a))) actions = true ->
  parse_docker_scope (docker_scope t p n actions) = Some (mkRequestedScope t (Some p) (Some n) actions) /\
  forall authorization account username password s s' resp,
    get_token_inner cfg lib rq authorization
      (mkDockerTokenQuery (Some (docker_scope t p n actions)) account username password) s
      = (s', Ok resp) ->
    exists claims,
      encode_claims lib claims = Some (tr_token resp) /\
      (claims_role claims <> Admin -> n <> "*" -> forall a, authorize claims t p n a <> Ok tt).
Proof.
  intros Ht Hp Hn Ha. pose proof (parse_docker_scope_back t p n actions Ht Hp Hn Ha) as Hb.
  split; [done|]. intros authorization account user password s s' resp H.
  apply get_token_ok in H as (s1 & subject & tn & _ & _ & Hk). eexists. split; [exact Hk|].
  unfold requested_scope. cbn [dq_scope mbind option_bind]. rewrite Hb. cbn [default from_option].
  unfold docker_claims, issued_claims. cbn [claims_role token_claims rs_repository or_empty].
  intros Hr Hs a Hok. apply one_scope_authority in Hok as (_ & [Hadmin|(_ & [Hpath|Hstar])]);
    [done| |done]. by apply path_longer in Hpath.
Qed.

Lemma docker_token_unusable_witness :
  exists claims s' resp,
    get_token_inner demo_cfg demo_lib demo_rq None
      (mkDockerTokenQuery (Some (docker_scope "demo" "default" "app" [Pull; Push])) (Some ("bob" : str)) None
         None) demo_state = (s', Ok resp) /\
    encode_claims demo_lib claims = Some (tr_token resp) /\
    (claims_role claims <> Admin -> authorize claims "demo" "default" "app" Pull <> Ok tt).
Proof.
  destruct (docker_token_unusable demo_cfg demo_lib demo_rq "demo" "default" "app" [Pull; Push])
    as [_ H]; [reflexivity..|].
  destruct (H None (Some ("bob" : str)) None None demo_state
              (exec (get_token_inner demo_cfg demo_lib demo_rq None
                 (mkDockerTokenQuery (Some (docker_scope "demo" "default" "app" [Pull; Push]))
                    (Some ("bob" : str)) None None)) demo_state)
              (mkTokenResponse "bob" 3600 (2 ^ 60))) as (claims & Hk & Hr).
  - apply run_eval. vm_compute. reflexivity.
  - exists claims. eexists. exists (mkTokenResponse "bob" 3600 (2 ^ 60)).
    split; [apply run_eval; vm_compute; reflexivity|]. split; [exact Hk|].
    intros Ha. apply Hr; [exact Ha|discriminate].
Defined.

(** A Docker scope whose repository part is itself a path of another
    tenant yields, without any credential, a token with which the registry
    accepts pulls of that other tenant's repository. *)
Lemma anonymous_cross_tenant_pull (cfg : ServiceConfig) (lib : AuthLib) (rq : AuthReq)
    (t p victim project name : str) (s : AuthState) (tn : Tenant) :
  path_segment t = true -> path_segment p = true ->
  free_of ":" (victim ++ "/" ++ project ++ "/" ++ name) = true ->
  tenants s !! t = Some tn ->
  (forall c, exists signed, encode_claims lib c = Some signed) ->
  exists s' resp claims,
    get_token_inner cfg lib rq None
      (mkDockerTokenQuery (Some (docker_scope t p (victim ++ "/" ++ project ++ "/" ++ name) [Pull]))
         None None None) s = (s', Ok resp) /\
    encode_claims lib claims = Some (tr_token resp) /\
    authorize claims victim project name Pull = Ok tt.
Proof.
  intros Ht Hp Hv Hs Hk. set (query := mkDockerTokenQuery _ _ _ _).
  assert (requested_scope query
          = mkRequestedScope t (Some p) (Some (victim ++ "/" ++ project ++ "/" ++ name)) [Pull]) as Eq.
  { unfold requested_scope. cbn [query dq_scope mbind option_bind].
    by rewrite (parse_docker_scope_back t p _ [Pull] Ht Hp Hv). }
  destruct (Hk (docker_claims cfg rq s "anonymous" tn (requested_scope query))) as [signed Hs'].
  destruct (get_token_run cfg lib rq None query s s "anonymous" tn signed) as [s' Hr];
    [done|by rewrite Eq|done|].
  exists s'. eexists. eexists. split; [exact Hr|]. split; [exact Hs'|]. rewrite Eq.
  unfold docker_claims. apply one_scope_authority. cbn [rs_actions rs_repository].
  split; [by destruct (resolve_role _ _ _ _ _)|]. right. split; [by left|by left].
Qed.

(** The Docker token endpoint needs no credential.  A request whose
    [account] parameter names the bootstrap administrator receives a token the
    registry accepts for every action on every repository of every tenant; and
    an anonymous request whose repository is itself a path of another tenant
    receives a token the registry accepts for pulls of that repository. *)
Theorem docker_tokens_unauthenticated (cfg : ServiceConfig) (lib : AuthLib) (rq : AuthReq)
    (admin : BootstrapAdmin) (t p : str) (s : AuthState) (tn : Tenant) :
  bootstrap_admin cfg = Some admin -> path_segment t = true -> path_segment p = true ->
  tenants s !! t = Some tn -> (forall c, exists signed, encode_claims lib c = Some signed) ->
  (exists s' resp claims,
     get_token_inner cfg lib rq None
       (mkDockerTokenQuery (Some (docker_scope t p "any" [])) (Some (ba_username admin)) None None) s
       = (s', Ok resp) /\
     encode_claims lib claims = Some (tr_token resp) /\
     forall victim project name a, authorize claims victim project name a = Ok tt) /\
  (forall victim project name,
     free_of ":" (victim ++ "/" ++ project ++ "/" ++ name) = true ->
     exists s' resp claims,
       get_token_inner cfg lib rq None
         (mkDockerTokenQuery (Some (docker_scope t p (victim ++ "/" ++ project ++ "/" ++ name) [Pull]))
            None None None) s = (s', Ok resp) /\
       encode_claims lib claims = Some (tr_token resp) /\
       authorize claims victim project name Pull = Ok tt).
Proof.
  intros Hb Ht Hp Hs Hk. split.
  - refine (account_grants_admin cfg lib rq admin (Some (docker_scope t p "any" [])) s tn Hb _ Hk).
    unfold requested_scope. cbn [dq_scope mbind option_bind].
    rewrite (parse_docker_scope_back t p "any" [] Ht Hp eq_refl eq_refl). exact Hs.
  - intros victim project name Hv.
    exact (anonymous_cross_tenant_pull cfg lib rq t p victim project name s tn Ht Hp Hv Hs Hk).
Qed.

Lemma docker_tokens_unauthenticated_witness :
  exists s' resp claims,
    get_token_inner demo_cfg demo_lib demo_rq None
      (mkDockerTokenQuery (Some (docker_scope "demo" "x" "any" [])) (Some ("admin" : str)) None None)
      demo_state = (s', Ok resp) /\
    encode_claims demo_lib claims = Some (tr_token resp) /\
    forall victim project name a, authorize claims victim project name a = Ok tt.
Proof.
  refine (proj1 (docker_tokens_unauthenticated demo_cfg demo_lib demo_rq
    (mkBootstrapAdmin "admin" "secret") "demo" "x" demo_state demo_tenant _ _ _ _ _));
    [reflexivity|reflexivity|reflexivity|apply lookup_insert_eq|].
  intros c. exists (claims_sub c). reflexivity.
Defined.

(** ** Roles *)

Definition is_bootstrap (cfg : ServiceConfig) (subject : str) : bool :=
  match bootstrap_admin cfg with
  | Some admin => str_eqb subject (ba_username admin)
  | None => false
  end.

Lemma resolve_role_eq cfg s subject tid pid :
  resolve_role cfg s subject tid pid =
  if is_bootstrap cfg subject then Admin
  else
    match List.find (project_policy subject tid pid) (access_policies s) with
    | Some p => pol_role p
    | None =>
        match last (List.filter (tenant_policy subject tid) (access_policies s)) with
        | Some p => pol_role p
        | None => default Reader (resolve_role_from_groups cfg s subject)
        end
    end.
Proof.
  unfold resolve_role. fold (is_bootstrap cfg subject). destruct (is_bootstrap cfg subject); [done|].
  rewrite policy_role_eq. destruct (List.find _ _); [done|]. by destruct (last _).
Qed.

Lemma resolve_groups_eq cfg s subject :
  resolve_role_from_groups cfg s subject =
  (u ← users s !! subject; group_roles (group_role_mappings cfg) (u_groups u)).
Proof.
  unfold resolve_role_from_groups. destruct (users s !! subject) as [u|]; [|done]. cbn.
  assert (forall l, matched_roles l [] = []) as Hnil by (by induction l).
  case_bool_decide as Hg.
  - rewrite Hg. pose proof (group_roles_best (group_role_mappings cfg) []) as Hb.
    rewrite Hnil in Hb. destruct (group_roles _ []); [|done]. destruct Hb as [Hb _]. by apply not_elem_of_nil in Hb.
  - case_bool_decide as Hm; [|done]. apply length_zero_iff_nil in Hm. by rewrite Hm.
Qed.

(** The role of a subject: [Admin] for the bootstrap administrator; else
    the first policy on exactly the requested project; else the last policy on
    the whole tenant; else the most privileged role among the group mappings
    that match one of the user's groups; else [Reader]. *)
Theorem role_resolution (cfg : ServiceConfig) (s : AuthState) (subject tid : str) (pid : option str) :
  resolve_role cfg s subject tid pid =
  (if is_bootstrap cfg subject then Admin
   else
     match List.find (project_policy subject tid pid) (access_policies s) with
     | Some p => pol_role p
     | None =>
         match last (List.filter (tenant_policy subject tid) (access_policies s)) with
         | Some p => pol_role p
         | None => default Reader (resolve_role_from_groups cfg s subject)
         end
     end) /\
  (forall r, resolve_role_from_groups cfg s subject = Some r <->
     exists u, users s !! subject = Some u /\
       r ∈ matched_roles (group_role_mappings cfg) (u_groups u) /\
       forall x, x ∈ matched_roles (group_role_mappings cfg) (u_groups u) ->
         (role_rank x <= role_rank r)%nat).
Proof.
  split; [apply resolve_role_eq|]. intros r. rewrite resolve_groups_eq.
  destruct (users s !! subject) as [u|]; cbn; [|naive_solver].
  pose proof (group_roles_best (group_role_mappings cfg) (u_groups u)) as Hb.
  destruct (group_roles _ _) as [r0|]; split.
  - intros [= ->]. eauto.
  - intros (u' & [= <-] & Hin & Hmax). f_equal. destruct Hb as [Hin0 Hmax0].
    pose proof (Hmax _ Hin0). pose proof (Hmax0 _ Hin). destruct r0, r; cbn in *; lia || done.
  - done.
  - intros (u' & [= <-] & Hin & _). rewrite Hb in Hin. by apply not_elem_of_nil in Hin.
Qed.

(** A group name that a mapping's pattern accepts matches the pattern as
    a glob, a star standing for any text; the converse holds for patterns
    without a star and for patterns that end in one, and fails for others, as
    [*-admin] does not accept [x-admin-admin]. *)
Theorem group_patterns (pattern group : str) :
  (group_matches pattern group = true -> glob pattern group) /\
  (contains_byte star pattern = false \/ ends_with [star] pattern = true ->
   glob pattern group -> group_matches pattern group = true) /\
  (glob "*-admin" "x-admin-admin" /\ group_matches "*-admin" "x-admin-admin" = false).
Proof.
  split; [|split].
  3: { split; [|by vm_compute]. apply (glob_star _ "x-admin" "-admin"). by apply glob_plain. }
  all: destruct (str_eqb_spec pattern "*") as [->|Hs].
  - intros _. rewrite <- (app_nil_r group). apply glob_star, glob_nil.
  - destruct (contains_byte star pattern) eqn:Hc.
    2: { unfold group_matches. destruct (str_eqb_spec pattern "*"); [done|].
         rewrite Hc. cbn. rewrite str_eqb_iff. by rewrite glob_plain. }
    destruct (split_on star pattern) as [|p ps] eqn:Hp; [by apply split_on_not_nil in Hp|].
    rewrite (group_matches_loop _ _ p ps) by done. rewrite glob_parts, Hp.
    intros (s' & rest & -> & Hl & He). exists s'. split; [done|]. apply glob_loop_sound in Hl.
    destruct (ends_with [star] pattern) eqn:Ee; [|by rewrite (He eq_refl) in Hl].
    apply ends_with_snoc in Ee as [q ->]. rewrite split_on_snoc in Hp.
    destruct (split_on star q) as [|x qs] eqn:Eq; [by apply split_on_not_nil in Eq|].
    injection Hp as -> <-. by apply in_order_open in Hl.
  - done.
  - intros Hor Hg. destruct (contains_byte star pattern) eqn:Hc.
    2: { apply glob_plain in Hg as ->; [|done]. unfold group_matches.
         destruct (str_eqb group "*"); [done|]. rewrite Hc. apply str_eqb_refl. }
    destruct Hor as [?|He]; [done|].
    destruct (split_on star pattern) as [|p ps] eqn:Hp; [by apply split_on_not_nil in Hp|].
    apply (group_matches_loop _ _ p ps); [done..|]. rewrite glob_parts, Hp in Hg.
    destruct Hg as (s' & -> & Hg).
    destruct (glob_loop_complete (starts_with [star] pattern) _ _ _ Hg) as [rest Hr].
    exists s', rest. split; [done|]. split; [done|]. by rewrite He.
Qed.
