(* ===== verification/ScimTheorems.v ===== *)
(** * Theorems about provisioning

    Off-boarding and provisioning of users by SCIM, and the policies that group
    mappings give them. *)

From S2P Require Import Prelude Json Text Glob Effects Auth AuthCore Scim AuthProofs AuthTheorems.

Local Open Scope Z_scope.

(** ** Provisioning *)

Section provisioning.
Context (cfg : ServiceConfig) (lib : AuthLib) (rq : AuthReq).

(** The subject is gone and nobody else is affected. *)
Definition offboarded (s s' : AuthState) (id : str) : Prop :=
  users s' !! id = None /\
  (is_bootstrap cfg id = false -> forall tid pid, resolve_role cfg s' id tid pid = Reader) /\
  (forall other, other <> id -> users s' !! other = users s !! other /\
     forall tid pid, resolve_role cfg s' other tid pid = resolve_role cfg s other tid pid).

(** Only the subject's own user and policies may differ. *)
Definition only_subject (s s' : AuthState) (id : str) : Prop :=
  (forall other, other <> id -> users s' !! other = users s !! other) /\
  without_subject id (access_policies s') = without_subject id (access_policies s).

Lemma find_filter {A} (f g : A -> bool) l :
  (forall x, f x = true -> g x = true) -> List.find f (List.filter g l) = List.find f l.
Proof.
  intros H. induction l as [|x l IH]; [done|]. cbn. destruct (g x) eqn:Eg; cbn; rewrite IH; [done|].
  destruct (f x) eqn:Ef; [|done]. apply H in Ef. congruence.
Qed.

Lemma filter_filter_sub {A} (f g : A -> bool) l :
  (forall x, f x = true -> g x = true) -> List.filter f (List.filter g l) = List.filter f l.
Proof.
  intros H. induction l as [|x l IH]; [done|]. cbn. destruct (g x) eqn:Eg; cbn; rewrite IH; [done|].
  destruct (f x) eqn:Ef; [|done]. apply H in Ef. congruence.
Qed.

Lemma subject_policy_other subject tid id p :
  subject <> id -> subject_policy subject tid p = true -> negb (str_eqb (pol_subject p) id) = true.
Proof.
  intros Hne [<-%str_eqb_true _]%andb_prop. by destruct (str_eqb_spec (pol_subject p) id).
Qed.

Lemma only_subject_role s s' id other tid pid :
  only_subject s s' id -> other <> id ->
  resolve_role cfg s' other tid pid = resolve_role cfg s other tid pid.
Proof.
  intros [Hu Hp] Hne. rewrite !resolve_role_eq, !resolve_groups_eq, (Hu _ Hne).
  assert (forall f, (forall p, f p = true -> subject_policy other tid p = true) ->
    List.find f (access_policies s') = List.find f (access_policies s) /\
    List.filter f (access_policies s') = List.filter f (access_policies s)) as H.
  { intros f Hf. unfold without_subject in Hp.
    assert (forall p, f p = true -> negb (str_eqb (pol_subject p) id) = true) as Hk.
    { intros p ?. by eapply subject_policy_other, Hf. }
    rewrite <- (find_filter f _ (access_policies s') Hk), <- (find_filter f _ (access_policies s) Hk).
    rewrite <- (filter_filter_sub f _ (access_policies s') Hk).
    rewrite <- (filter_filter_sub f _ (access_policies s) Hk). by rewrite Hp. }
  destruct (H (project_policy other tid pid)) as [-> _]; [by intros p [? _]%andb_prop|].
  destruct (H (tenant_policy other tid)) as [_ ->]; [by intros p [? _]%andb_prop|]. done.
Qed.

Lemma without_subject_twice id ps : without_subject id (without_subject id ps) = without_subject id ps.
Proof. by apply filter_filter_sub. Qed.

Lemma no_policy_reader s id tid pid :
  is_bootstrap cfg id = false -> users s !! id = None ->
  access_policies s = without_subject id (access_policies s) ->
  resolve_role cfg s id tid pid = Reader.
Proof.
  intros Hb Hu Hp. rewrite resolve_role_eq, resolve_groups_eq, Hb, Hu.
  assert (forall f, (forall p, f p = true -> subject_policy id tid p = true) ->
                    List.filter f (access_policies s) = []) as H.
  { intros f Hf. rewrite Hp. clear Hp. unfold without_subject. induction (access_policies s) as [|p ps IH]; [done|].
    cbn. destruct (str_eqb_spec (pol_subject p) id) as [E|E]; cbn; rewrite IH; [done|].
    destruct (f p) eqn:Ef; [|done]. apply Hf, andb_prop in Ef as [Ef%str_eqb_true _]. done. }
  rewrite (H (tenant_policy id tid)) by (by intros p [? _]%andb_prop). cbn.
  destruct (List.find _ _) as [p|] eqn:E; [|done]. apply find_some in E as [Hin Hf].
  assert (p ∈ List.filter (project_policy id tid pid) (access_policies s)) as Hin'.
  { by rewrite list_elem_of_In, filter_In. }
  rewrite H in Hin' by (by intros q [? _]%andb_prop). by apply not_elem_of_nil in Hin'.
Qed.

(** Gone, and only the subject changed: preserved by later patches. *)
Definition removed (s s' : AuthState) (id : str) : Prop :=
  users s' !! id = None /\ access_policies s' = without_subject id (access_policies s') /\
  only_subject s s' id.

Lemma removed_offboarded s s' id : removed s s' id -> offboarded s s' id.
Proof.
  intros (Hu & Hp & Ho). split; [done|]. split; [intros Hb tid pid; by apply no_policy_reader|].
  intros other Hne. split; [by apply Ho|]. intros tid pid. by eapply only_subject_role.
Qed.

Lemma only_subject_refl s id : only_subject s s id.
Proof. by split. Qed.

Lemma deprovision_removed s s0 id : only_subject s0 s id -> removed s0 (exec (deprovision id) s) id.
Proof.
  intros [Hu Hp]. unfold deprovision, exec, bind, modify, removed, only_subject.
  cbn [fst users access_policies set_users set_policies]. rewrite !without_subject_twice.
  split; [apply lookup_delete_eq|]. split; [done|]. split; [|done]. intros other Hne. rewrite lookup_delete_ne by done. by apply Hu.
Qed.

Lemma only_subject_alter s s0 id f :
  only_subject s0 s id -> only_subject s0 (set_users (alter f id) s) id.
Proof.
  intros [Hu Hp]. split; [|done]. intros other Hne. cbn. rewrite lookup_alter_ne by done. by apply Hu.
Qed.

Lemma removed_alter s s0 id f : removed s0 s id -> removed s0 (set_users (alter f id) s) id.
Proof.
  intros (Hu & Hp & Ho). split; [cbn; by rewrite lookup_alter_eq, Hu|]. split; [done|].
  by apply only_subject_alter.
Qed.

Lemma patch_user_op_run id op s :
  exists s', patch_user_op id op s = (s', Ok tt) /\
    (s' = s \/ s' = exec (deprovision id) s \/ exists name, s' = set_users (alter (with_display_name name) id) s).
Proof.
  unfold patch_user_op. destruct (str_eqb _ _); [|eauto].
  case_bool_decide as Ha; [rewrite Ha; destruct (po_value op) as [[|[]| | | | |]|]; cbn; eauto 6|].
  unfold bind, ret. destruct (_ || _); [|eauto]. destruct (po_value op) as [[]|]; eauto 6.
Qed.

(** The operation that deactivates a user. *)
Definition deactivates (op : ScimPatchOperation) : Prop :=
  lowercase (po_op op) = "replace" /\ po_path op = Some ("active" : str) /\
  po_value op = Some (JBool false).

Lemma deactivates_run id op s :
  deactivates op -> patch_user_op id op s = (exec (deprovision id) s, Ok tt).
Proof. intros (Ho & Hp & Hv). unfold patch_user_op. by rewrite Ho, Hp, Hv. Qed.

Lemma patch_ops_removed id ops s0 s :
  only_subject s0 s id ->
  (removed s0 s id \/ exists op, op ∈ ops /\ deactivates op) ->
  exists s', for_each ops (patch_user_op id) s = (s', Ok tt) /\ removed s0 s' id.
Proof.
  revert s. induction ops as [|op ops IH]; intros s Ho Hd.
  - exists s. split; [done|]. destruct Hd as [|(op & Hin & _)]; [done|by apply not_elem_of_nil in Hin].
  - destruct (patch_user_op_run id op s) as (s1 & Hr & Hs). cbn [for_each].
    setoid_rewrite (bind_run _ _ _ _ _ Hr).
    assert (only_subject s0 s1 id) as Ho1.
    { destruct Hs as [->|[->|[n ->]]]; [done| |by apply only_subject_alter].
      by apply (deprovision_removed s s0 id Ho). }
    apply IH; [done|]. destruct Hd as [Hd|(op' & [->|Hin]%elem_of_cons & Hd)]; [left| |eauto].
    + destruct Hs as [->|[->|[n ->]]]; [done|by apply deprovision_removed|by apply removed_alter].
    + left. rewrite deactivates_run in Hr by done. injection Hr as <-. by apply deprovision_removed.
Qed.
End provisioning.

(** Off-boarding by SCIM: a deletion, a patch that sets [active] to
    [false] among any other operations, and, when automatic deactivation is on,
    a replacement by an inactive user, each remove the user and all its
    policies, so that its role is [Reader] in every tenant and project (unless
    it is the bootstrap administrator), and leave every other user and role
    as they were.  Without the configured bearer token nothing changes. *)
Theorem scim_offboarding (cfg : ServiceConfig) (lib : AuthLib) (rq : AuthReq)
    (authorization : option str) (id : str) (ops : list ScimPatchOperation) (su : ScimUser)
    (s : AuthState) :
  match authenticate_scim cfg authorization with
  | Ok _ =>
      (exists s', scim_delete_user cfg authorization id s = (s', Ok tt) /\ offboarded cfg s s' id) /\
      ((exists op, op ∈ ops /\ deactivates op) ->
       exists s' u, scim_patch_user cfg lib authorization id ops s = (s', Ok u) /\
         su_active u = false /\ offboarded cfg s s' id) /\
      (su_active su = false -> scim_auto_deactivate cfg = true ->
       exists s' u, scim_replace_user cfg lib rq authorization id su s = (s', Ok u) /\
         su_active u = false /\ offboarded cfg s s' id)
  | Err e =>
      scim_delete_user cfg authorization id s = (s, Err e) /\
      scim_patch_user cfg lib authorization id ops s = (s, Err e) /\
      scim_replace_user cfg lib rq authorization id su s = (s, Err e)
  end.
Proof.
  unfold scim_delete_user, scim_patch_user, scim_replace_user, bind at 1 2 5, lift.
  destruct (authenticate_scim cfg authorization) as [[]|e]; [|done].
  assert (removed s (exec (deprovision id) s) id) as Hr by apply deprovision_removed, only_subject_refl.
  split; [|split].
  - eexists. split; [by apply run_eval|]. by apply removed_offboarded.
  - intros Hd. destruct (patch_ops_removed id ops s s (only_subject_refl s id) (or_intror Hd)) as (s1 & E & H1).
    exists s1. eexists. rewrite (bind_run _ _ _ _ _ E). unfold bind, gets, ret.
    rewrite (proj1 H1). split; [done|]. split; [done|]. by apply removed_offboarded.
  - intros Ha Hc. exists (exec (deprovision id) s). eexists. rewrite Ha, Hc.
    unfold bind, gets, ret. cbn [negb andb]. unfold deprovision, exec, bind, modify. cbn.
    rewrite lookup_delete_eq. split; [done|]. split; [done|].
    apply removed_offboarded. exact Hr.
Qed.

(** ** Group mappings *)

Section mappings.
Context (cfg : ServiceConfig) (lib : AuthLib) (rq : AuthReq).

(** A mapping that matches one of the groups grants [role] on the tenant it
    names and on its project, or on the whole tenant when it names none or the
    project does not exist. *)
Definition grants (s : AuthState) (groups : list str) (tid : str) (pid : option str) (role : Role) : Prop :=
  exists m t, m ∈ group_role_mappings cfg /\
    existsb (mapping_matches (gm_group m)) groups = true /\
    tenants s !! gm_tenant m = Some t /\
    tid = t_id t /\ pid = mapped_project s (t_id t) m /\ role = gm_role m.

Lemma mapped_policies_elem s subject groups n ms p :
  p ∈ mapped_policies rq s subject groups n ms ->
  pol_subject p = subject /\
  exists m t, m ∈ ms /\ existsb (mapping_matches (gm_group m)) groups = true /\
    tenants s !! gm_tenant m = Some t /\ pol_tenant_id p = t_id t /\
    pol_project_id p = mapped_project s (t_id t) m /\ pol_role p = gm_role m.
Proof.
  revert n. induction ms as [|m ms IH]; intros n; cbn [mapped_policies].
  { intros H. by apply not_elem_of_nil in H. }
  assert (forall n, p ∈ mapped_policies rq s subject groups n ms -> pol_subject p = subject /\
    exists m' t, m' ∈ m :: ms /\ existsb (mapping_matches (gm_group m')) groups = true /\
      tenants s !! gm_tenant m' = Some t /\ pol_tenant_id p = t_id t /\
      pol_project_id p = mapped_project s (t_id t) m' /\ pol_role p = gm_role m') as Hrec.
  { intros k H. destruct (IH k H) as (? & m' & t & ? & Hrest). split; [done|]. exists m', t.
    split; [by right|done]. }
  destruct (existsb _ groups) eqn:E; [|apply Hrec].
  destruct (tenants s !! gm_tenant m) as [t|] eqn:Et; [|apply Hrec].
  intros [->|H]%elem_of_cons; [|by eapply Hrec]. split; [done|]. exists m, t. split; [by left|done].
Qed.

Lemma mapped_policies_has s subject groups n ms m t :
  m ∈ ms -> existsb (mapping_matches (gm_group m)) groups = true -> tenants s !! gm_tenant m = Some t ->
  exists p, p ∈ mapped_policies rq s subject groups n ms /\ pol_subject p = subject /\
    pol_tenant_id p = t_id t /\ pol_project_id p = mapped_project s (t_id t) m /\ pol_role p = gm_role m.
Proof.
  intros Hin Hm Ht. revert n. induction ms as [|m' ms IH]; intros n; [by apply not_elem_of_nil in Hin|].
  cbn [mapped_policies]. apply elem_of_cons in Hin as [<-|Hin].
  - rewrite Hm, Ht. eexists. split; [by left|done].
  - destruct (IH Hin (S n)) as (p & Hp & Hrest). destruct (IH Hin n) as (p' & Hp' & Hrest').
    destruct (existsb (mapping_matches (gm_group m')) groups); [|by exists p'].
    destruct (tenants s !! gm_tenant m') as [t'|]; [exists p; split; [by right|done]|by exists p'].
Qed.

Lemma without_subject_elem id ps p : p ∈ without_subject id ps <-> p ∈ ps /\ pol_subject p <> id.
Proof.
  unfold without_subject. rewrite !list_elem_of_In, filter_In, negb_true_iff.
  destruct (str_eqb_spec (pol_subject p) id); naive_solver.
Qed.

Lemma without_subject_app id a b : without_subject id (a ++ b) = without_subject id a ++ without_subject id b.
Proof. apply List.filter_app. Qed.

Lemma without_subject_own s subject groups n ms :
  without_subject subject (mapped_policies rq s subject groups n ms) = [].
Proof.
  destruct (without_subject _ _) as [|p ps] eqn:E; [done|].
  assert (p ∈ without_subject subject (mapped_policies rq s subject groups n ms)) as H by (rewrite E; by left).
  apply without_subject_elem in H as [[H _]%mapped_policies_elem Hs]. done.
Qed.

(** The world after a user is created. *)
Definition provisioned (su : ScimUser) (s : AuthState) : AuthState :=
  let subject := su_user_name su in
  let u := mkUserRecord subject (scim_email su) (su_display_name su) (scim_group_names su) "scim"
             (rq_now rq) (rq_now rq) 0 in
  let s1 := set_users (<[subject := u]>) s in
  set_policies (fun old => without_subject subject old ++
    mapped_policies rq s1 subject (scim_group_names su) 0 (group_role_mappings cfg)) s1.

Lemma scim_create_user_run authorization su s :
  authenticate_scim cfg authorization = Ok tt -> su_user_name su <> [] ->
  exists u, scim_create_user cfg lib rq authorization su s = (provisioned su s, Ok u).
Proof.
  intros Ha Hn. unfold scim_create_user, bind at 1, lift. rewrite Ha.
  destruct (su_user_name su) eqn:E; [done|]. cbn [non_empty negb]. unfold provisioned. rewrite E. by eexists.
Qed.

Lemma provisioned_only su s : only_subject s (provisioned su s) (su_user_name su).
Proof.
  unfold provisioned. split; cbn [users access_policies set_users set_policies].
  - intros other Hne. by rewrite lookup_insert_ne.
  - by rewrite without_subject_app, without_subject_twice, without_subject_own, app_nil_r.
Qed.
End mappings.

(** Provisioning a user by SCIM replaces the subject's policies by exactly
    those its groups are granted by the configured mappings, records the user
    with its groups, and changes no other user and no other role. *)
Theorem scim_provisioning (cfg : ServiceConfig) (lib : AuthLib) (rq : AuthReq)
    (authorization : option str) (su : ScimUser) (s : AuthState) :
  authenticate_scim cfg authorization = Ok tt -> su_user_name su <> [] ->
  exists s' resp, scim_create_user cfg lib rq authorization su s = (s', Ok resp) /\
    (u_groups <$> users s' !! su_user_name su) = Some (scim_group_names su) /\
    (forall tid pid role,
       (exists p, p ∈ access_policies s' /\ pol_subject p = su_user_name su /\
          pol_tenant_id p = tid /\ pol_project_id p = pid /\ pol_role p = role) <->
       grants cfg s (scim_group_names su) tid pid role) /\
    (forall other, other <> su_user_name su -> users s' !! other = users s !! other /\
       forall tid pid, resolve_role cfg s' other tid pid = resolve_role cfg s other tid pid).
Proof.
  intros Ha Hn. destruct (scim_create_user_run cfg lib rq authorization su s Ha Hn) as [u Hr].
  exists (provisioned cfg rq su s), u. split; [done|].
  split; [unfold provisioned; cbn [users set_users set_policies]; by rewrite lookup_insert_eq|]. split.
  - intros tid pid role. unfold provisioned. cbn [access_policies set_users set_policies]. split.
    + intros (p & [[_ Hp]%without_subject_elem|Hp]%elem_of_app & Hs & <- & <- & <-); [done|].
      apply mapped_policies_elem in Hp as (_ & m & t & ? & ? & ? & ? & ? & ?). by exists m, t.
    + intros (m & t & Hm & He & Ht & -> & -> & ->).
      destruct (mapped_policies_has rq (set_users (<[su_user_name su := mkUserRecord (su_user_name su)
        (scim_email su) (su_display_name su) (scim_group_names su) "scim" (rq_now rq) (rq_now rq) 0]>) s)
        (su_user_name su) (scim_group_names su) 0 _ m t Hm He Ht) as (p & Hp & Hs & Hi & Hj & Hk).
      exists p. split; [apply elem_of_app; by right|done].
  - intros other Hne. pose proof (provisioned_only cfg rq su s) as Ho. split; [by apply Ho|].
    intros tid pid. by eapply only_subject_role.
Qed.

Definition demo_scim_user : ScimUser :=
  mkScimUser [] None None "carol" None true None [] [mkScimGroupRef "g1" None (Some ("dev-core" : str))] None.

Lemma scim_provisioning_witness :
  exists s' resp, scim_create_user demo_cfg demo_lib demo_rq (Some ("Bearer bearer" : str)) demo_scim_user
                    demo_state = (s', Ok resp) /\
    (u_groups <$> users s' !! ("carol" : str)) = Some ["dev-core" : str].
Proof.
  destruct (scim_provisioning demo_cfg demo_lib demo_rq (Some ("Bearer bearer" : str)) demo_scim_user demo_state)
    as (s' & resp & Hr & Hg & _); [vm_compute; reflexivity|discriminate|].
  exists s', resp. split; [exact Hr|exact Hg].
Defined.

(** A group mapping restricted to a project that does not exist in its
    tenant grants its role on the whole tenant: every project of the tenant is
    then open to the provisioned user with that role. *)
Theorem missing_project_widens (cfg : ServiceConfig) (lib : AuthLib) (rq : AuthReq)
    (authorization : option str) (su : ScimUser) (s : AuthState) (m : GroupRoleMapping) (t : Tenant)
    (name : str) :
  authenticate_scim cfg authorization = Ok tt -> su_user_name su <> [] ->
  is_bootstrap cfg (su_user_name su) = false -> group_role_mappings cfg = [m] ->
  existsb (mapping_matches (gm_group m)) (scim_group_names su) = true ->
  tenants s !! gm_tenant m = Some t -> gm_project m = Some name ->
  projects s !! (t_id t, name) = None ->
  exists s' resp, scim_create_user cfg lib rq authorization su s = (s', Ok resp) /\
    forall pid, resolve_role cfg s' (su_user_name su) (t_id t) pid = gm_role m.
Proof.
  intros Ha Hn Hb Hms Hm Ht Hp Hnone.
  destruct (scim_create_user_run cfg lib rq authorization su s Ha Hn) as [u Hr].
  exists (provisioned cfg rq su s), u. split; [done|]. intros pid. rewrite resolve_role_eq, Hb.
  unfold provisioned. cbn [access_policies set_users set_policies]. rewrite Hms.
  cbn [mapped_policies tenants set_users]. rewrite Hm, Ht.
  unfold mapped_project. cbn [projects set_users]. rewrite Hp. cbn [mbind option_bind]. rewrite Hnone.
  set (p := mkAccessPolicy _ _ _ _ _ _).
  assert (forall f, (forall q, f q = true -> subject_policy (su_user_name su) (t_id t) q = true) ->
            List.filter f (without_subject (su_user_name su) (access_policies s)) = []) as Hf.
  { intros f Hf. destruct (List.filter f _) as [|q qs] eqn:E; [done|].
    assert (q ∈ List.filter f (without_subject (su_user_name su) (access_policies s))) as Hq
      by (rewrite E; by left).
    rewrite list_elem_of_In, filter_In, <- list_elem_of_In, without_subject_elem in Hq.
    destruct Hq as [[_ Hne] Hfq]. apply Hf, andb_prop in Hfq as [Hfq%str_eqb_true _]. done. }
  assert (tenant_policy (su_user_name su) (t_id t) p = true) as Htp.
  { unfold tenant_policy, subject_policy. cbn. by rewrite !str_eqb_refl. }
  destruct (List.find _ _) as [q|] eqn:E.
  - apply find_some in E as [Hin Hq]. apply in_app_or in Hin as [Hin|[<-|[]]]; [|done].
    assert (q ∈ List.filter (project_policy (su_user_name su) (t_id t) pid)
                  (without_subject (su_user_name su) (access_policies s))) as Hin'.
    { by rewrite list_elem_of_In, filter_In. }
    rewrite Hf in Hin' by (by intros x [? _]%andb_prop). by apply not_elem_of_nil in Hin'.
  - rewrite List.filter_app, Hf by (by intros x [? _]%andb_prop). cbn [List.filter app]. by rewrite Htp.
Qed.

Lemma missing_project_widens_witness :
  exists s' resp, scim_create_user demo_cfg demo_lib demo_rq (Some ("Bearer bearer" : str)) demo_scim_user
                    demo_state = (s', Ok resp) /\
    resolve_role demo_cfg s' "carol" "t1" (Some ("p1" : str)) = Maintainer.
Proof.
  destruct (missing_project_widens demo_cfg demo_lib demo_rq (Some ("Bearer bearer" : str)) demo_scim_user
              demo_state demo_mapping demo_tenant "ghost") as (s' & resp & Hr & H);
    [vm_compute; reflexivity|discriminate|reflexivity|reflexivity|vm_compute; reflexivity
    |apply lookup_insert_eq|reflexivity|vm_compute; reflexivity|].
  exists s', resp. split; [exact Hr|apply H].
Defined.
