(* ===== verification/AuthReach.v ===== *)
(** * Reachable states of the auth service

    The handlers as steps of the service, invariants of every state it reaches,
    and the life of robot accounts, login sessions, CI tokens and refresh
    tokens. *)

From S2P Require Import Prelude Json Text Glob Effects Auth Utf8 AuthCore AuthService Scim AuthProofs AuthTheorems.

Local Open Scope Z_scope.

(** One request, each with its own clock, identifiers and network answers. *)
Inductive auth_step (cfg : ServiceConfig) (lib : AuthLib) (s : AuthState) : AuthState -> Prop :=
| step_post_token rq a tok sc : auth_step cfg lib s (exec (post_token cfg lib rq a tok sc) s)
| step_get_token rq a q : auth_step cfg lib s (exec (get_token_inner cfg lib rq a q) s)
| step_github rq tok t p acts : auth_step cfg lib s (exec (github_actions_token cfg lib rq tok t p acts) s)
| step_ci rq tok pr t p acts : auth_step cfg lib s (exec (ci_token_exchange cfg lib rq tok pr t p acts) s)
| step_login rq pr uri : auth_step cfg lib s (exec (oidc_login cfg lib rq pr uri) s)
| step_callback rq code key : auth_step cfg lib s (exec (oidc_callback cfg lib rq code key) s)
| step_refresh rq tok : auth_step cfg lib s (exec (refresh_token_handler cfg lib rq tok) s)
| step_revoke id : auth_step cfg lib s (exec (revoke_token_handler id) s)
| step_credentials rq tok : auth_step cfg lib s (exec (credential_exchange cfg lib rq tok) s)
| step_create_robot rq r : auth_step cfg lib s (exec (create_robot_account cfg lib rq r) s)
| step_delete_robot id : auth_step cfg lib s (exec (delete_robot_account id) s)
| step_create_user rq a su : auth_step cfg lib s (exec (scim_create_user cfg lib rq a su) s)
| step_replace_user rq a id su : auth_step cfg lib s (exec (scim_replace_user cfg lib rq a id su) s)
| step_patch_user a id ops : auth_step cfg lib s (exec (scim_patch_user cfg lib a id ops) s)
| step_delete_user a id : auth_step cfg lib s (exec (scim_delete_user cfg a id) s)
| step_create_group rq a g : auth_step cfg lib s (exec (scim_create_group cfg rq a g) s)
| step_patch_group rq a id ops : auth_step cfg lib s (exec (scim_patch_group cfg rq a id ops) s)
| step_delete_group a id : auth_step cfg lib s (exec (scim_delete_group cfg a id) s).

Definition auth_reachable (cfg : ServiceConfig) (lib : AuthLib) (rq0 : AuthReq) : AuthState -> Prop :=
  rtc (auth_step cfg lib) (initial_state cfg lib rq0).

(** Tables are keyed by what their entries say, cached keys belong to a
    configured provider, the log is bounded, and tenants, projects and refresh
    tokens are what the service started with. *)
Record auth_wf (cfg : ServiceConfig) (ts : gmap str Tenant) (ps : gmap (str * str) Project)
    (s : AuthState) : Prop := {
  wf_tenants : tenants s = ts;
  wf_projects : projects s = ps;
  wf_refresh : refresh_tokens s = ∅;
  wf_users : map_Forall (fun k u => u_subject u = k) (users s);
  wf_robots : map_Forall (fun k r => rb_id r = k) (robot_accounts s);
  wf_sessions : map_Forall (fun k x => os_state x = k) (oidc_sessions s);
  wf_groups : map_Forall (fun k g => sg_id g = Some k) (scim_groups s);
  wf_jwks : map_Forall (fun k p => cp_issuer_url p = k /\ exists c, c ∈ oidc_providers cfg /\
              op_issuer_url c = k /\ cp_client_id p = op_client_id c) (jwks_cache s);
  wf_log : (length (audit_events s) <= MAX_AUDIT_EVENTS)%nat
}.

Section preservation.
Context (cfg : ServiceConfig) (lib : AuthLib) (ts : gmap str Tenant) (ps : gmap (str * str) Project).

Abbreviation wf := (auth_wf cfg ts ps).

Lemma wf_record e : preserves wf (record e).
Proof.
  apply preserves_modify. intros s []. split; try done. cbn [audit_events log_event push_event].
  unfold push_event. rewrite length_app. cbn [length].
  destruct (Nat.leb_spec MAX_AUDIT_EVENTS (length (audit_events s))); [|lia].
  destruct (audit_events s); cbn in *; unfold MAX_AUDIT_EVENTS in *; lia.
Qed.

Lemma wf_set_users f {E} :
  (forall us, map_Forall (fun k u => u_subject u = k) us -> map_Forall (fun k u => u_subject u = k) (f us)) ->
  preserves (E := E) wf (modify (set_users f)).
Proof. intros Hf. apply preserves_modify. intros s []. split; try done. by apply Hf. Qed.

Lemma wf_set_policies f {E} : preserves (E := E) wf (modify (set_policies f)).
Proof. apply preserves_modify. intros s []. by split. Qed.

Lemma wf_set_sessions f {E} :
  (forall xs, map_Forall (fun k x => os_state x = k) xs -> map_Forall (fun k x => os_state x = k) (f xs)) ->
  preserves (E := E) wf (modify (set_sessions f)).
Proof. intros Hf. apply preserves_modify. intros s []. split; try done. by apply Hf. Qed.

Lemma wf_set_robots f {E} :
  (forall xs, map_Forall (fun k x => rb_id x = k) xs -> map_Forall (fun k x => rb_id x = k) (f xs)) ->
  preserves (E := E) wf (modify (set_robots f)).
Proof. intros Hf. apply preserves_modify. intros s []. split; try done. by apply Hf. Qed.

Lemma wf_set_groups f {E} :
  (forall xs, map_Forall (fun k x => sg_id x = Some k) xs -> map_Forall (fun k x => sg_id x = Some k) (f xs)) ->
  preserves (E := E) wf (modify (set_groups f)).
Proof. intros Hf. apply preserves_modify. intros s []. split; try done. by apply Hf. Qed.

Lemma wf_revoked f {E} : preserves (E := E) wf (modify (set_revoked f)).
Proof. apply preserves_modify. intros s []. by split. Qed.

Lemma wf_alter_refresh f id {E} : preserves (E := E) wf (modify (set_refresh (alter f id))).
Proof.
  apply preserves_modify. intros s []. split; try done. cbn [refresh_tokens set_refresh].
  rewrite wf_refresh0. apply map_eq. intros i. by rewrite lookup_alter, lookup_empty; case_decide.
Qed.

Lemma map_Forall_alter_keep {A} (P : str -> A -> Prop) (f : A -> A) (k : str) (m : gmap str A) :
  (forall x, P k x -> P k (f x)) -> map_Forall P m -> map_Forall P (alter f k m).
Proof.
  intros Hf Hm i x. rewrite lookup_alter_Some. intros [(<- & y & Hy & ->)|[_ Hx]]; [|by apply Hm].
  by apply Hf, Hm.
Qed.

Ltac keyed := intros ? ?; first
  [ by apply map_Forall_insert_2 | by apply map_Forall_delete
  | by apply map_Forall_alter_keep ].

Lemma wf_provision rq sub email name groups how : preserves wf (provision_user cfg rq sub email name groups how).
Proof.
  apply wf_set_users. intros us Hus. destruct (us !! sub) as [u|] eqn:E.
  - apply map_Forall_insert_2; [|done]. cbn. by apply Hus.
  - destruct (auto_provision_users cfg); [|done]. by apply map_Forall_insert_2.
Qed.

Lemma wf_robot rq name secret : preserves wf (authenticate_robot lib rq name secret).
Proof.
  intros s Hs. unfold exec, authenticate_robot. destruct (robot_scan _ _ _ _) as [[r|]|]; [|done..].
  refine (wf_set_robots _ (E := RegistryError) _ s Hs). keyed.
Qed.

Lemma wf_discover rq c : c ∈ oidc_providers cfg -> preserves wf (discover_provider lib rq c).
Proof.
  intros Hc. unfold discover_provider. apply preserves_bind; [apply preserves_lift|]. intros keys.
  apply preserves_modify. intros s []. split; try done. cbn [jwks_cache set_jwks].
  apply map_Forall_insert_2; [|done]. cbn. eauto.
Qed.

Lemma config_for_in issuer c : config_for cfg issuer = Some c -> c ∈ oidc_providers cfg.
Proof. unfold config_for. intros H. apply find_some in H as [H _]. by apply list_elem_of_In. Qed.

(** Follow the program, case by case. *)
Ltac follow :=
  repeat match goal with
    | |- forall _, _ => intros ?
    | |- preserves _ (bind _ _) => apply preserves_bind
    | |- preserves _ (ret _) => apply preserves_ret
    | |- preserves _ (throw _) => apply preserves_throw
    | |- preserves _ (lift _) => apply preserves_lift
    | |- preserves _ (gets _) => apply preserves_gets
    | |- preserves _ (attempt _) => apply preserves_attempt
    | |- preserves _ (rethrow _ _) => apply preserves_rethrow
    | |- preserves _ (for_each _ _) => apply preserves_for_each
    | |- preserves _ (record _) => apply wf_record
    | |- preserves _ (provision_user _ _ _ _ _ _ _) => apply wf_provision
    | |- preserves _ (authenticate_robot _ _ _ _) => apply wf_robot
    | |- preserves _ (modify (set_policies _)) => apply wf_set_policies
    | |- preserves _ (modify (set_revoked _)) => apply wf_revoked
    | |- preserves _ (modify (set_refresh (alter _ _))) => apply wf_alter_refresh
    | |- preserves _ (match _ with _ => _ end) => case_match
    end.

Lemma wf_validate_token rq token : preserves wf (validate_token cfg lib rq token).
Proof.
  unfold validate_token, validate_token_with_rediscovery, refresh_provider. follow.
  all: by eapply wf_discover, config_for_in.
Qed.

Lemma wf_authenticate_request rq a token : preserves wf (authenticate_request cfg lib rq a token).
Proof.
  unfold authenticate_request, validate_identity_token. follow. all: apply wf_validate_token.
Qed.

Lemma wf_post_token rq a token scope : preserves wf (post_token cfg lib rq a token scope).
Proof.
  unfold post_token, find_tenant, find_project, sign_token. follow. all: apply wf_authenticate_request.
Qed.

Lemma wf_get_token rq a query : preserves wf (get_token_inner cfg lib rq a query).
Proof.
  unfold get_token_inner, docker_subject, docker_login, find_tenant, sign_token. by follow.
Qed.

Lemma wf_github rq token t p actions : preserves wf (github_actions_token cfg lib rq token t p actions).
Proof.
  unfold github_actions_token, validate_github_oidc_token, verified_issuer, find_tenant, find_project,
    sign_token. follow. all: apply wf_validate_token.
Qed.

Lemma wf_ci rq token pr t p actions : preserves wf (ci_token_exchange cfg lib rq token pr t p actions).
Proof.
  unfold ci_token_exchange, verified_issuer, find_tenant, find_project, sign_token. follow.
  all: apply wf_validate_token.
Qed.

Lemma wf_login rq pr uri : preserves wf (oidc_login cfg lib rq pr uri).
Proof. unfold oidc_login. follow. apply wf_set_sessions. keyed. Qed.

Lemma wf_callback rq code key : preserves wf (oidc_callback cfg lib rq code key).
Proof. unfold oidc_callback, take_session, sign_token. follow. apply wf_set_sessions. keyed. Qed.

Lemma wf_refresh_handler rq token : preserves wf (refresh_token_handler cfg lib rq token).
Proof. unfold refresh_token_handler, sign_token. by follow. Qed.

Lemma wf_revoke id : preserves wf (revoke_token_handler id).
Proof. unfold revoke_token_handler. by follow. Qed.

Lemma wf_credentials rq token : preserves wf (credential_exchange cfg lib rq token).
Proof. unfold credential_exchange, sign_token. by follow. Qed.

Lemma wf_create_robot rq r : preserves wf (create_robot_account cfg lib rq r).
Proof. unfold create_robot_account. follow. all: apply wf_set_robots; keyed. Qed.

Lemma wf_delete_robot id : preserves wf (delete_robot_account id).
Proof. unfold delete_robot_account. follow. apply wf_set_robots. keyed. Qed.

Lemma wf_deprovision id : preserves wf (deprovision id).
Proof. unfold deprovision. follow. apply wf_set_users. keyed. Qed.

Lemma wf_apply_policies rq n sub groups : preserves wf (apply_group_policies cfg rq n sub groups).
Proof. unfold apply_group_policies. by follow. Qed.

Lemma wf_create_user rq a su : preserves wf (scim_create_user cfg lib rq a su).
Proof.
  unfold scim_create_user. follow; [|apply wf_apply_policies]. apply wf_set_users. keyed.
Qed.

Lemma wf_replace_user rq a id su : preserves wf (scim_replace_user cfg lib rq a id su).
Proof.
  unfold scim_replace_user. follow; [apply wf_deprovision| |apply wf_apply_policies].
  apply wf_set_users. keyed.
Qed.

Lemma wf_patch_user a id ops : preserves wf (scim_patch_user cfg lib a id ops).
Proof.
  unfold scim_patch_user, patch_user_op. follow.
  all: first [apply wf_deprovision | apply wf_set_users; keyed].
Qed.

Lemma wf_delete_user a id : preserves wf (scim_delete_user cfg a id).
Proof. unfold scim_delete_user. follow. apply wf_deprovision. Qed.

Lemma wf_create_group rq a g : preserves wf (scim_create_group cfg rq a g).
Proof.
  unfold scim_create_group. follow; [apply wf_set_users; keyed|]. apply wf_set_groups. keyed.
Qed.

Lemma wf_delete_group a id : preserves wf (scim_delete_group cfg a id).
Proof.
  unfold scim_delete_group. follow; [apply wf_set_groups; keyed|]. apply wf_set_users.
  intros us Hus k u. rewrite lookup_fmap, fmap_Some. intros (u' & Hu & ->). by apply (Hus k u').
Qed.

(** A group under change keeps its identifier. *)
Definition keeps_id (g : ScimGroup) (m : M AuthState ScimError (ScimGroup * nat)) : Prop :=
  forall s s' r, m s = (s', Ok r) -> sg_id (fst r) = sg_id g.

Lemma keeps_id_ret g g' n : sg_id g' = sg_id g -> keeps_id g (ret (g', n)).
Proof. by intros H s s' r [= <- <-]. Qed.

Lemma keeps_id_last {A} g (m : M AuthState ScimError A) k :
  (forall a, keeps_id g (k a)) -> keeps_id g (bind m k).
Proof. intros H s s' r (s1 & a & _ & E)%bind_ok. by eapply H. Qed.

Lemma keeps_id_bind g m k :
  keeps_id g m -> (forall r, sg_id (fst r) = sg_id g -> keeps_id g (k r)) -> keeps_id g (bind m k).
Proof. intros Hm Hk s s' r (s1 & a & E1 & E2)%bind_ok. eapply (Hk a); [by eapply Hm|done]. Qed.

Lemma add_member_step rq g n m :
  preserves wf (add_member cfg rq g n m) /\ keeps_id g (add_member cfg rq g n m).
Proof.
  unfold add_member. split.
  - follow; [|apply wf_apply_policies]. apply wf_set_users. keyed.
  - case_match; [by apply keeps_id_ret|]. apply keeps_id_last. intros us. apply keeps_id_last.
    intros k. by apply keeps_id_ret.
Qed.

Lemma add_members_step rq g n ms :
  preserves wf (add_members cfg rq g n ms) /\ keeps_id g (add_members cfg rq g n ms).
Proof.
  revert g n. induction ms as [|m ms IH]; intros g n; cbn [add_members].
  - split; [apply preserves_ret|by apply keeps_id_ret].
  - split.
    + apply preserves_bind; [apply add_member_step|]. intros r. apply IH.
    + apply keeps_id_bind; [apply add_member_step|]. intros r Hr s s' r' E. rewrite <- Hr. by eapply IH.
Qed.

Lemma patch_group_op_step rq g n op :
  preserves wf (patch_group_op cfg rq g n op) /\ keeps_id g (patch_group_op cfg rq g n op).
Proof.
  unfold patch_group_op, remove_member. split.
  - follow; [apply add_members_step| |apply wf_apply_policies]. apply wf_set_users. keyed.
  - repeat case_match; first [by apply keeps_id_ret | apply add_members_step | idtac].
    apply keeps_id_last. intros us. apply keeps_id_last. intros k. by apply keeps_id_ret.
Qed.

Lemma patch_group_ops_step rq g n ops :
  preserves wf (patch_group_ops cfg rq g n ops) /\ keeps_id g (patch_group_ops cfg rq g n ops).
Proof.
  revert g n. induction ops as [|op ops IH]; intros g n; cbn [patch_group_ops].
  - split; [apply preserves_ret|by apply keeps_id_ret].
  - split.
    + apply preserves_bind; [apply patch_group_op_step|]. intros r. apply IH.
    + apply keeps_id_bind; [apply patch_group_op_step|]. intros r Hr s s' r' E. rewrite <- Hr. by eapply IH.
Qed.

Lemma wf_patch_group rq a id ops : preserves wf (scim_patch_group cfg rq a id ops).
Proof.
  intros s Hs. unfold exec, scim_patch_group, bind at 1, lift. destruct (authenticate_scim cfg a); [|done].
  unfold bind at 1, gets. unfold bind at 1, ok_or. destruct (scim_groups s !! id) as [g|] eqn:Eg; [|done].
  unfold bind at 1. destruct (patch_group_ops_step rq g 0 ops) as [Hp Hk]. specialize (Hp s Hs).
  unfold exec in Hp. destruct (patch_group_ops cfg rq g 0 ops s) as [s1 [r|e]] eqn:Er; [|done].
  refine (wf_set_groups _ (E := ScimError) _ s1 Hp). intros xs Hxs. apply map_Forall_insert_2; [|done].
  rewrite (Hk _ _ _ Er). by apply (wf_groups _ _ _ _ Hs).
Qed.

Lemma wf_step s s' : auth_step cfg lib s s' -> wf s -> wf s'.
Proof.
  intros Hstep Hs. destruct Hstep; revert s Hs;
    first [ apply wf_post_token | apply wf_get_token | apply wf_github | apply wf_ci | apply wf_login
          | apply wf_callback | apply wf_refresh_handler | apply wf_revoke | apply wf_credentials
          | apply wf_create_robot | apply wf_delete_robot | apply wf_create_user | apply wf_replace_user
          | apply wf_patch_user | apply wf_delete_user | apply wf_create_group | apply wf_patch_group
          | apply wf_delete_group ].
Qed.
End preservation.

Lemma wf_initial cfg lib rq0 :
  auth_wf cfg (fst (fst (seed_demo_data rq0))) (snd (fst (seed_demo_data rq0))) (initial_state cfg lib rq0).
Proof.
  unfold initial_state. apply (preserves_for_each (auth_wf cfg _ _)).
  - intros c Hc. apply preserves_bind; [apply preserves_attempt, wf_discover, Hc|].
    intros r. apply preserves_ret.
  - split; try done. cbn. unfold MAX_AUDIT_EVENTS. lia.
Qed.

Lemma wf_reachable cfg lib rq0 s :
  auth_reachable cfg lib rq0 s ->
  auth_wf cfg (fst (fst (seed_demo_data rq0))) (snd (fst (seed_demo_data rq0))) s.
Proof.
  intros H. pose proof (wf_initial cfg lib rq0) as Hi. unfold auth_reachable in H.
  induction H as [|a b c Hab _ IH]; [done|]. apply IH. by eapply wf_step.
Qed.

(** C7: In every state the service reaches, users, robot accounts, login
    sessions and groups are stored under their own identifiers, cached signing
    keys belong to a configured provider and are checked with its client
    identifier, the log holds at most a thousand events, and tenants and
    projects are those of the start.  No request ever stores a refresh token, so
    the refresh endpoint refuses every request it can receive. *)
Theorem auth_invariant (cfg : ServiceConfig) (lib : AuthLib) (rq0 rq : AuthReq) (s : AuthState)
    (token : str) :
  auth_reachable cfg lib rq0 s ->
  auth_wf cfg (fst (fst (seed_demo_data rq0))) (snd (fst (seed_demo_data rq0))) s /\
  refresh_token_handler cfg lib rq token s = (s, Err (TokenInvalid "invalid refresh token")).
Proof.
  intros H%wf_reachable. split; [done|]. unfold refresh_token_handler, bind, gets, lift, ok_or.
  by rewrite (wf_refresh _ _ _ _ H), lookup_empty.
Qed.

Lemma auth_invariant_witness :
  refresh_token_handler demo_cfg demo_lib demo_rq "r"
    (exec (revoke_token_handler "r") (initial_state demo_cfg demo_lib demo_rq))
  = (exec (revoke_token_handler "r") (initial_state demo_cfg demo_lib demo_rq),
     Err (TokenInvalid "invalid refresh token")).
Proof.
  apply (auth_invariant demo_cfg demo_lib demo_rq demo_rq _ "r").
  apply rtc_once. apply step_revoke.
Defined.

(** ** Robot accounts *)

Lemma alphanumeric_ok b : is_ascii_alphanumeric (alphanumeric b) = true.
Proof.
  unfold alphanumeric. pose proof (Z.mod_pos_bound b 62 ltac:(lia)) as Hb.
  set (i := b mod 62) in *. clearbody i. clear b.
  assert (forall n, (n <= 61)%nat -> is_ascii_alphanumeric (ascii_of_N (Z.to_N
    (let idx := Z.of_nat n in if idx <? 10 then 48 + idx else if idx <? 36 then 97 + idx - 10
                              else 65 + idx - 36))) = true) as H.
  { intros n Hn. do 62 (destruct n as [|n]; [by vm_compute|]). lia. }
  specialize (H (Z.to_nat i) ltac:(lia)). rewrite Z2Nat.id in H by lia. exact H.
Qed.

Section robots.
Context (cfg : ServiceConfig) (lib : AuthLib).
Context (Hord : forall A (l : list A), map_order lib A l ≡ₚ l).

Lemma robot_values_elem s x :
  x ∈ robot_values lib s <-> exists k, robot_accounts s !! k = Some x.
Proof.
  unfold robot_values. rewrite (Hord _ _), list_elem_of_In, in_map_iff. split.
  - intros ([k y] & <- & H). exists k. by apply elem_of_map_to_list, list_elem_of_In.
  - intros [k H]. exists (k, x). split; [done|]. by apply list_elem_of_In, elem_of_map_to_list.
Qed.

(** The login of the only account of a name. *)
Lemma sole_robot_login rq name password s k x :
  robot_accounts s !! k = Some x -> rb_name x = name -> rb_enabled x = true ->
  (forall j y, robot_accounts s !! j = Some y -> rb_name y = name -> y = x) ->
  (eval (authenticate_robot lib rq name password) s = Ok ("robot:" ++ name) <->
   sha256_hex_of lib password = rb_secret_hash x /\
   match rb_expires_at x with Some e => rq_now rq <= e | None => True end) /\
  (forall e, eval (authenticate_robot lib rq name password) s = Err e -> e = Unauthorized).
Proof.
  intros Hx Hn He Hu. split.
  - unfold eval. split.
    + destruct (authenticate_robot lib rq name password s) as [s' [sub|e]] eqn:E; [|done]. intros _.
      apply authenticate_robot_ok in E as (_ & y & [j Hy]%robot_values_elem & (Hyn & _ & Hh & Hexp) & _).
      by rewrite (Hu j y Hy Hyn) in Hh, Hexp.
    + intros [Hh Hexp]. unfold authenticate_robot.
      rewrite (robot_scan_unique _ _ _ _ x); [done| |done|].
      * apply robot_values_elem. eauto.
      * intros y [j Hy]%robot_values_elem. eauto.
  - unfold eval. intros e. destruct (authenticate_robot lib rq name password s) as [s' [sub|e']] eqn:E; [done|].
    apply authenticate_robot_err in E as [_ ->]. by intros [= <-].
Qed.
End robots.

(** The life of a robot account whose name is not in use: its creation
    returns a secret of 48 letters and digits; a login with that name then
    succeeds exactly for passwords with the secret's hash and no later than the
    expiry, and is [Unauthorized] otherwise; after its deletion no password
    logs in. *)
Theorem robot_lifecycle (cfg : ServiceConfig) (lib : AuthLib) (rq : AuthReq) (r : CreateRobotRequest)
    (s s1 : AuthState) (id secret : str) :
  (forall A (l : list A), map_order lib A l ≡ₚ l) ->
  map_Forall (fun _ x => rb_name x <> cr_name r) (robot_accounts s) ->
  create_robot_account cfg lib rq r s = (s1, Ok (id, secret)) ->
  robot_accounts_enabled cfg = true /\
  length secret = 48%nat /\ forallb is_ascii_alphanumeric secret = true /\
  (forall rq' password,
     (eval (authenticate_robot lib rq' (cr_name r) password) s1 = Ok ("robot:" ++ cr_name r) <->
      sha256_hex_of lib password = sha256_hex_of lib secret /\
      match cr_expires_in_seconds r with
      | Some n => rq_now rq' <= rq_now rq + i64_wrap n * 1000000000
      | None => True
      end) /\
     (forall e, eval (authenticate_robot lib rq' (cr_name r) password) s1 = Err e -> e = Unauthorized)) /\
  (exists s2, delete_robot_account id s1 = (s2, Ok true) /\
     forall rq' password, authenticate_robot lib rq' (cr_name r) password s2 = (s2, Err Unauthorized)).
Proof.
  intros Hord Hfree. unfold create_robot_account. destruct (robot_accounts_enabled cfg); [|done].
  cbn [negb]. intros H. step H s0 expires He. step H s2 u Hm. injection Hm as <-. injection H as <- <- <-.
  assert (s0 = s /\ match cr_expires_in_seconds r, expires with
                    | Some n, Some t => t = rq_now rq + i64_wrap n * 1000000000
                    | None, None => True
                    | _, _ => False
                    end) as [-> Hexp].
  { revert He. unfold lift, robot_expiry. destruct (cr_expires_in_seconds r) as [n|]; [|by intros [= <- <-]].
    destruct (_ && _); [by intros [= <- <-]|done]. }
  split; [done|]. split; [unfold random_text; by rewrite length_map, length_seq|]. split; [|split].
  - unfold random_text. apply forallb_forall. intros c (i & <- & _)%in_map_iff. apply alphanumeric_ok.
  - intros rq' password.
    destruct (sole_robot_login lib Hord rq' (cr_name r) password
      (set_robots (<[rq_uuid rq 0 := mkRobotAccount (rq_uuid rq 0) (cr_name r) (cr_description r) (cr_tenant r)
         (cr_project r) (role_named (cr_role r)) (sha256_hex_of lib (random_text rq 48)) (rq_now rq) expires
         None true]>) s) (rq_uuid rq 0) _ (lookup_insert_eq _ _ _)) as [Hiff Herr]; [done|done| |].
    + intros j y. cbn [robot_accounts set_robots]. rewrite lookup_insert_Some.
      intros [[_ <-]|[_ Hy]]; [done|]. intros Hn. by apply Hfree in Hy.
    + split; [|done]. rewrite Hiff. cbn [rb_secret_hash rb_expires_at].
      destruct (cr_expires_in_seconds r), expires; naive_solver.
  - unfold delete_robot_account. eexists. split.
    { unfold bind, gets, modify, ret. cbn [robot_accounts set_robots]. rewrite lookup_insert_eq. done. }
    intros rq' password. unfold authenticate_robot. rewrite robot_scan_none; [done|].
    intros x [j Hx]%robot_values_elem; [|done]. cbn [robot_accounts set_robots] in Hx.
    rewrite delete_insert_eq in Hx. apply lookup_delete_Some in Hx as [_ Hx]. by apply Hfree in Hx.
Qed.

Definition demo_robot : CreateRobotRequest := mkCreateRobotRequest "bot" "" "demo" None "reader" (Some 60).

Lemma robot_lifecycle_witness :
  exists s1 id secret,
    create_robot_account demo_cfg demo_lib demo_rq demo_robot demo_state = (s1, Ok (id, secret)) /\
    eval (authenticate_robot demo_lib demo_rq "bot" secret) s1 = Ok ("robot:" ++ "bot").
Proof.
  eexists. exists (dec 0), (random_text demo_rq 48).
  split; [apply run_eval; vm_compute; reflexivity|].
  destruct (robot_lifecycle demo_cfg demo_lib demo_rq demo_robot demo_state
              (exec (create_robot_account demo_cfg demo_lib demo_rq demo_robot) demo_state)
              (dec 0) (random_text demo_rq 48)) as (_ & _ & _ & H & _).
  - intros A l. reflexivity.
  - apply map_Forall_empty.
  - apply run_eval. vm_compute. reflexivity.
  - apply (H demo_rq). split; [reflexivity|]. vm_compute. discriminate.
Defined.

(** ** Login sessions *)

Section sessions.
Context (cfg : ServiceConfig) (lib : AuthLib) (rq : AuthReq).

Lemma take_session_ok key s s' x :
  take_session key s = (s', Ok x) <-> oidc_sessions s !! key = Some x /\ s' = set_sessions (delete key) s.
Proof.
  unfold take_session, bind, gets, lift, ok_or, modify, ret. destruct (oidc_sessions s !! key); naive_solver.
Qed.

Definition no_session (key : str) (s : AuthState) : Prop := oidc_sessions s !! key = None.

Lemma no_session_provision key sub email name groups how :
  preserves (no_session key) (provision_user cfg rq sub email name groups how).
Proof. by apply preserves_modify. Qed.

Lemma no_session_record key e : preserves (no_session key) (record e).
Proof. by apply preserves_modify. Qed.

Lemma callback_spends code key s : no_session key (exec (oidc_callback cfg lib rq code key) s).
Proof.
  unfold oidc_callback, exec, bind at 1.
  destruct (take_session key s) as [s1 [x|e]] eqn:E.
  2: { revert E. unfold take_session, bind, gets, lift, ok_or, modify, ret, no_session.
       destruct (oidc_sessions s !! key) eqn:Ek; [done|]. by intros [= <- _]. }
  apply take_session_ok in E as [_ ->].
  assert (no_session key (set_sessions (delete key) s)) as Hn by apply lookup_delete_eq.
  revert Hn. generalize (set_sessions (delete key) s) as s1.
  match goal with |- forall s1, _ -> no_session _ (fst (?m s1)) => change (preserves (no_session key) m) end.
  repeat match goal with
    | |- preserves _ (bind _ _) => apply preserves_bind
    | |- preserves _ (ret _) => apply preserves_ret
    | |- preserves _ (throw _) => apply preserves_throw
    | |- preserves _ (lift _) => apply preserves_lift
    | |- preserves _ (gets _) => apply preserves_gets
    | |- preserves _ (record _) => apply no_session_record
    | |- preserves _ (provision_user _ _ _ _ _ _ _) => apply no_session_provision
    | |- preserves _ (sign_token _ _) => apply preserves_lift
    | |- forall _, _ => intros ?
    | |- preserves _ (match _ with _ => _ end) => case_match
    end.
Qed.

(** What a completed login rests on. *)
Definition login_completes (code key : str) (s : AuthState) (location : str) : Prop :=
  exists x c id_token payload claims t tid prefix role token,
    oidc_sessions s !! key = Some x /\
    num_seconds (rq_now rq - os_created_at x) <= 600 /\
    config_for cfg (os_provider_name x) = Some c /\
    exchange_code cfg rq c code (os_pkce_verifier x) = Ok id_token /\
    jwt_payload lib id_token "id_token is not a valid JWT" "invalid base64 in id_token payload" = Ok payload /\
    (json_of lib payload ≫= de_oidc_user) = Some claims /\
    (op_allowed_groups c = [] \/ exists g, g ∈ ouc_groups claims /\ g ∈ op_allowed_groups c) /\
    first_tenant lib rq s = (t, tid, prefix) /\
    encode_claims lib (token_claims cfg rq (ouc_sub claims) tid (Some prefix) None role []
                         (token_ttl_seconds cfg)) = Some token /\
    location = os_redirect_uri x ++ "?token=" ++ url_encode token ++ "&expires_in="
                 ++ dec (token_ttl_seconds cfg).

Lemma ok_or_ok {A} (o : option A) (e : RegistryError) a : ok_or o e = Ok a <-> o = Some a.
Proof. destruct o; cbn; naive_solver. Qed.

Lemma allowed_groups_guard (allowed groups : list str) :
  (0 <? length allowed)%nat && negb (existsb (fun g => bool_decide (g ∈ allowed)) groups) = false <->
  allowed = [] \/ exists g, g ∈ groups /\ g ∈ allowed.
Proof.
  destruct allowed as [|a allowed]; [naive_solver|]. cbn [length Nat.ltb Nat.leb andb].
  rewrite negb_false_iff, existsb_exists. setoid_rewrite bool_decide_eq_true.
  setoid_rewrite <- list_elem_of_In. naive_solver.
Qed.

Lemma callback_ok code key s s' location :
  oidc_callback cfg lib rq code key s = (s', Ok location) -> login_completes code key s location.
Proof.
  unfold oidc_callback. intros H. step H s1 x Hx. apply take_session_ok in Hx as [Hx ->].
  step H s2 u2 Hage. apply guard_ok in Hage as [Hage%Z.ltb_ge ->]; [|by intros].
  step H s3 c Hc. injection Hc as <- Hc. apply ok_or_ok in Hc.
  step H s4 id_token Hi. injection Hi as <- Hi. step H s5 payload Hp. injection Hp as <- Hp.
  step H s6 claims Hcl. injection Hcl as <- Hcl. apply ok_or_ok in Hcl.
  step H s7 u7 Hg. apply guard_ok in Hg as [Hg%allowed_groups_guard ->]; [|by intros].
  step H s8 u8 Hpr. injection Hpr as <- _. step H s9 ft Hft. injection Hft as <- Hft.
  destruct ft as [[t tid] prefix]. step H s10 role Hr. injection Hr as <- <-.
  step H s11 token Hk. apply sign_token_ok in Hk as [-> Hk]. step H s12 u12 Hl. injection Hl as <-.
  injection H as _ <-. exists x, c, id_token, payload, claims, t, tid, prefix. eexists. exists token.
  do 7 (split; [done|]). split; [exact Hft|]. split; [exact Hk|done].
Qed.
End sessions.

(** A login session is spent by the first callback that names it, whatever
    its outcome, and a callback without a session is refused.  A callback that
    succeeds found a session at most ten minutes old, exchanged the code with
    the session's own verifier at a configured provider, and met the provider's
    group restriction; it sends the signed token to the address the login
    request chose. *)
Theorem session_single_use (cfg : ServiceConfig) (lib : AuthLib) (rq : AuthReq) (code key : str)
    (s : AuthState) :
  no_session key (exec (oidc_callback cfg lib rq code key) s) /\
  (no_session key s ->
   oidc_callback cfg lib rq code key s
   = (s, Err (TokenInvalid "invalid or expired OIDC session state"))) /\
  (forall s' location, oidc_callback cfg lib rq code key s = (s', Ok location) ->
   login_completes cfg lib rq code key s location) /\
  (forall provider redirect s' url, oidc_login cfg lib rq provider redirect s = (s', Ok url) ->
   exists c, c ∈ oidc_providers cfg /\
     oidc_sessions s' !! rq_uuid rq 0
     = Some (mkOidcSession (rq_uuid rq 0) (random_text rq 64) (op_issuer_url c) redirect (rq_now rq))).
Proof.
  split; [apply callback_spends|]. split; [|split; [intros s' location; apply callback_ok|]].
  - intros Hn. unfold oidc_callback, bind at 1, take_session, bind at 1, gets, lift, ok_or.
    unfold bind at 1. by rewrite Hn.
  - intros provider redirect s' url. unfold oidc_login. intros H. step H s1 c Hc. injection Hc as <- Hc.
    apply ok_or_ok, find_some in Hc as [Hc _]. step H s2 u Hm. injection Hm as <-. injection H as <- _.
    exists c. split; [by apply list_elem_of_In|]. cbn [oidc_sessions set_sessions]. apply lookup_insert_eq.
Qed.

(** An API login with an identity token replaces the user's groups by
    none: after it, no group mapping gives the subject a role. *)
Theorem login_forgets_groups (cfg : ServiceConfig) (lib : AuthLib) (rq : AuthReq)
    (authorization : option str) (token : str) (s s' : AuthState) (subject : str) :
  extract_basic_auth lib authorization = None ->
  authenticate_request cfg lib rq authorization token s = (s', Ok subject) ->
  resolve_role_from_groups cfg s' subject = None.
Proof.
  intros Ha H. unfold authenticate_request in H. rewrite Ha in H. step H s1 b Hb. injection Hb as <- <-.
  apply authenticate_token_ok in H as (_ & _ & Hg). unfold resolve_role_from_groups.
  destruct (users s' !! subject) as [u|] eqn:E; [|done]. cbn. by rewrite (Hg u eq_refl).
Qed.

Lemma login_forgets_groups_witness :
  resolve_role_from_groups demo_cfg
    (exec (authenticate_request demo_cfg demo_lib demo_rq None "h.p.s") demo_state) "alice" = None.
Proof.
  apply (login_forgets_groups demo_cfg demo_lib demo_rq None "h.p.s" demo_state); [reflexivity|].
  apply run_eval. vm_compute. reflexivity.
Defined.

(** ** CI tokens *)

Section ci.
Context (cfg : ServiceConfig) (lib : AuthLib) (rq : AuthReq).

(** The issuer's keys are known or can be fetched. *)
Definition known_issuer (s : AuthState) (issuer : str) : Prop :=
  is_Some (jwks_cache s !! issuer) \/ exists c, c ∈ oidc_providers cfg /\ op_issuer_url c = issuer.

Lemma verified_issuer_ok issuer token s s' :
  verified_issuer cfg lib rq issuer token s = (s', Ok tt) ->
  only_jwks s s' /\ (known_issuer s issuer -> exists c, verified lib s' token c).
Proof.
  unfold verified_issuer, known_issuer. intros H. step H s1 cache Hc. injection Hc as <- <-.
  destruct (_ || _) eqn:E.
  - step H s2 c Hv. injection H as <-. apply validate_token_ok in Hv as [Hv Ho]. eauto.
  - injection H as <-. split; [apply only_jwks_refl|]. apply orb_false_iff in E as [E1 E2].
    intros [Hk|(c & Hc & Hi)]; [by apply bool_decide_eq_false in E1|].
    rewrite <- not_true_iff_false, existsb_exists in E2. destruct E2. exists c.
    split; [by apply list_elem_of_In|by apply str_eqb_iff].
Qed.

Lemma check_claims_ok filters v :
  check_claims filters v = Ok tt <->
  forall k values, (k, values) ∈ filters -> values = [] \/ or_empty (claim_str k v) ∈ values.
Proof.
  induction filters as [|[k values] filters IH]; cbn [check_claims].
  - split; [|done]. intros _ k values H. by apply not_elem_of_nil in H.
  - destruct (_ && _) eqn:E.
    + apply andb_prop in E as [E1 E2%negb_true_iff%bool_decide_eq_false]. split; [done|]. intros H.
      destruct (H k values ltac:(by left)) as [->|?]; [|done]. done.
    + rewrite IH. split.
      * intros H k' values' [[= -> ->]|Hin]%elem_of_cons; [|by apply H].
        apply andb_false_iff in E as [E|E%negb_false_iff%bool_decide_eq_true]; [|by right].
        left. by destruct values.
      * intros H k' values' Hin. apply H. by right.
Qed.

(** A token whose scopes name no repository. *)
Lemma empty_repository_refused claims actions t p n a :
  claims_role claims <> Admin -> scopes claims = [mkTokenScope [] actions] ->
  authorize claims t p n a <> Ok tt.
Proof.
  intros Hr Hs. unfold authorize. destruct (can _ _); [|done]. cbn [negb]. case_bool_decide; [done|].
  rewrite Hs. cbn [existsb scope_grants scope_repository]. unfold scope_grants. cbn [scope_repository].
  destruct (str_eqb_spec [] (t ++ "/" ++ p ++ "/" ++ n)) as [E|_]; [by destruct t|].
  destruct (str_eqb_spec [] "*"); [done|]. done.
Qed.

Lemma find_project_ok tid name s s' p :
  find_project tid name s = (s', Ok p) <-> s' = s /\ projects s !! (tid, name) = Some p.
Proof.
  unfold find_project, bind, gets, lift, ok_or. destruct (projects s !! (tid, name)); naive_solver.
Qed.

(** What an exchange has checked. *)
Definition ci_checks (token : str) (ci : CiOidcProvider) (v : json) : Prop :=
  (exists payload, jwt_payload lib token "CI OIDC token is not a valid JWT"
                     "invalid base64 in CI token payload" = Ok payload /\ json_of lib payload = Some v) /\
  or_empty (claim_str "iss" v) = ci_issuer_url ci /\
  (forall e, (json_get "exp" v ≫= as_i64) = Some e -> timestamp (rq_now rq) <= e) /\
  (forall k values, (k, values) ∈ ci_allowed_claims ci -> values = [] \/ or_empty (claim_str k v) ∈ values).
End ci.

(** A CI exchange that succeeds used a configured provider, a token whose
    issuer is the provider's, which has not expired and whose claims are all in
    the allowed lists, and, when the issuer is a known identity provider, whose
    signature was verified; the token issued lives at most as long as the
    provider allows.  It names no repository, so that the registry refuses it
    for every action on every repository unless the provider's default role is
    [admin]. *)
Theorem ci_exchange (cfg : ServiceConfig) (lib : AuthLib) (rq : AuthReq)
    (token provider tname pname : str) (actions : list Action) (s s' : AuthState) (resp : TokenResponse) :
  ci_token_exchange cfg lib rq token provider tname pname actions s = (s', Ok resp) ->
  exists ci v claims,
    ci ∈ ci_providers cfg /\ ci_name ci = provider /\ ci_checks lib rq token ci v /\
    (known_issuer cfg s (ci_issuer_url ci) -> exists c, verified lib s' token c) /\
    encode_claims lib claims = Some (tr_token resp) /\
    tr_expires_in resp <= ci_max_ttl_seconds ci /\
    claims_role claims = role_named (ci_default_role ci) /\
    (claims_role claims <> Admin -> forall t p n a, authorize claims t p n a <> Ok tt).
Proof.
  unfold ci_token_exchange. intros H. step H s1 ci Hci. injection Hci as <- Hci.
  apply ok_or_ok, find_some in Hci as [Hin Hname%str_eqb_true].
  step H s2 u2 Hv. destruct u2. apply verified_issuer_ok in Hv as [_ Hv].
  step H s3 payload Hp. injection Hp as <- Hp. step H s4 v Hj. injection Hj as <- Hj. apply ok_or_ok in Hj.
  step H s5 u5 Hi. apply guard_ok in Hi as [Hi%negb_false_iff%str_eqb_true ->]; [|by intros].
  step H s6 u6 Hx. apply guard_ok in Hx as [Hx ->]; [|by intros].
  step H s7 u7 Hc. injection Hc as <- Hc. destruct u7. rewrite check_claims_ok in Hc.
  step H s8 t Ht. apply find_tenant_ok in Ht as [-> Ht].
  step H s9 p Hpr. apply find_project_ok in Hpr as [-> Hpr].
  step H s10 u10 Hg. apply guard_ok in Hg as [_ ->]; [|by intros].
  step H s11 signed Hk. apply sign_token_ok in Hk as [-> Hk]. step H s12 u12 Hl. injection Hl as <-.
  injection H as <- <-. exists ci, v. eexists. split; [by apply list_elem_of_In|]. split; [done|].
  split. { split; [eauto|]. split; [done|]. split; [|done]. intros e He. rewrite He in Hx. lia. }
  split; [exact Hv|]. split; [exact Hk|]. split; [cbn; lia|]. split; [done|].
  intros Hr tn pn n a. by eapply empty_repository_refused.
Qed.

Lemma ci_exchange_witness :
  exists ci v claims,
    ci_checks demo_lib demo_rq "h.p.s" ci v /\
    encode_claims demo_lib claims = Some ("ci:alice" : str) /\ claims_role claims = Maintainer.
Proof.
  destruct (ci_exchange demo_cfg demo_lib demo_rq "h.p.s" "ci" "demo" "default" [Pull] demo_state
              (exec (ci_token_exchange demo_cfg demo_lib demo_rq "h.p.s" "ci" "demo" "default" [Pull])
                 demo_state) (mkTokenResponse "ci:alice" 600 (2 ^ 60)))
    as (ci & v & claims & Hin & _ & Hc & _ & Hk & _ & Hr & _).
  - apply run_eval. vm_compute. reflexivity.
  - exists ci, v, claims. split; [exact Hc|]. split; [exact Hk|]. rewrite Hr.
    apply list_elem_of_singleton in Hin. rewrite Hin. reflexivity.
Defined.
