(* ===== verification/Signing.v ===== *)
(** * Image signatures ([crates/specton-signing])

    Verification policies and the tables that hold them ([policy.rs],
    [policy_store.rs], [store.rs]), signature artifacts and envelopes
    ([artifact.rs], [cosign_payload.rs]), key material and its resolution
    ([key_provider.rs], [providers/composite.rs]), and the two signers and
    verifiers: ed25519 seeds ([memory.rs]) and PEM keys through the [sigstore]
    crate ([sigstore_keyed.rs]).  The cryptography, base64 and the JSON text
    are libraries and appear as parameters. *)

From S2P Require Import Prelude Json Text Effects.

Local Open Scope Z_scope.

(** ** Errors ([error.rs]) *)

Inductive SignError : Type :=
| SignNotImplemented (what : str)
| SignUnknownKey (what : str)
| ProviderUnavailable (what : str)
| SignCrypto (what : str)
| InvalidIdentity (what : str)
| SignSerde (what : str).

Inductive VerifyError : Type :=
| VerifyNotImplemented (what : str)
| NoSignatures
| VerifyUnknownKey (what : str)
| VerifyCrypto (what : str)
| PolicyDenied (what : str)
| Malformed (what : str)
| VerifySerde (what : str).

Definition verify_error_display (e : VerifyError) : str :=
  match e with
  | VerifyNotImplemented s => "not implemented: " ++ s
  | NoSignatures => "no signatures provided"
  | VerifyUnknownKey s => "unknown key ref: " ++ s
  | VerifyCrypto s => "crypto: " ++ s
  | PolicyDenied s => "policy denied: " ++ s
  | Malformed s => "malformed signature artifact: " ++ s
  | VerifySerde s => "serde: " ++ s
  end.

Inductive KeyProviderError : Type :=
| KeyNotFound (what : str)
| KeyUnavailable (what : str)
| InvalidPem (what : str).

Definition key_error_display (e : KeyProviderError) : str :=
  match e with
  | KeyNotFound s => "key not found: " ++ s
  | KeyUnavailable s => "unavailable: " ++ s
  | InvalidPem s => "invalid pem: " ++ s
  end.

(** ** Policies ([policy.rs]) *)

Inductive OnViolation : Type := OnBlock | OnWarn | OnLog.

Inductive TrustedSigner : Type :=
| SignerKey (ref : str) (identity_name : option str)
| SignerKeyless (issuer subject_pattern : str).

Definition key_ref (s : TrustedSigner) : option str :=
  match s with
  | SignerKey ref _ => Some ref
  | SignerKeyless _ _ => None
  end.

Record VerificationPolicy : Type := mkVerificationPolicy {
  vp_id : str;
  vp_name : str;
  required : bool;
  trusted_signers : list TrustedSigner;
  vp_on_violation : OnViolation
}.

(** [id] is the fresh identifier. *)
Definition require_keys (id name : str) (refs : list str) : VerificationPolicy :=
  mkVerificationPolicy id name true (map (fun r => SignerKey r None) refs) OnBlock.

Record VerificationOutcome : Type := mkVerificationOutcome {
  trusted : bool;
  matched_signers : list str;
  vo_policy_id : str;
  vo_reason : option str
}.

(** ** Stored policies ([policy_store.rs]) *)

Record PolicyScope : Type := mkPolicyScope {
  scope_projects : list str;
  scope_repositories : list str
}.

Definition scope_admits (l : list str) (x : str) : bool :=
  bool_decide (l = []) || existsb (fun p => str_eqb p "*" || str_eqb p x) l.

Definition scope_matches (s : PolicyScope) (project repository : str) : bool :=
  scope_admits (scope_projects s) project && scope_admits (scope_repositories s) repository.

Record PolicySpec : Type := mkPolicySpec {
  spec_scope : PolicyScope;
  spec_required : bool;
  spec_trusted_signers : list TrustedSigner;
  spec_on_violation : OnViolation
}.

Record StoredVerificationPolicy : Type := mkStoredVerificationPolicy {
  sp_id : str;
  sp_name : str;
  sp_tenant : str;
  sp_spec : PolicySpec;
  sp_enabled : bool;
  sp_on_violation : OnViolation;
  sp_updated_at : Z
}.

Definition as_verification_policy (p : StoredVerificationPolicy) : VerificationPolicy :=
  mkVerificationPolicy (sp_id p) (sp_name p) (spec_required (sp_spec p))
    (spec_trusted_signers (sp_spec p)) (sp_on_violation p).

Definition violation_text (v : OnViolation) : str :=
  match v with
  | OnBlock => "block"
  | OnWarn => "warn"
  | OnLog => "log"
  end.

Definition parse_on_violation (s : str) : OnViolation :=
  if str_eqb s "warn" then OnWarn else if str_eqb s "log" then OnLog else OnBlock.

(** [serde_json::to_value(&policy.spec)] *)
Definition signer_value (s : TrustedSigner) : json :=
  match s with
  | SignerKey ref name =>
      JObject [("key" : str,
                JObject ([("key_ref" : str, JString ref)]
                           ++ match name with
                              | Some n => [("identity_name" : str, JString n)]
                              | None => []
                              end))]
  | SignerKeyless issuer pattern =>
      JObject [("keyless" : str,
                JObject [("issuer" : str, JString issuer); ("subject_pattern" : str, JString pattern)])]
  end.

Definition scope_value (s : PolicyScope) : json :=
  JObject [("projects" : str, JArray (map JString (scope_projects s)));
           ("repositories" : str, JArray (map JString (scope_repositories s)))].

Definition spec_value (s : PolicySpec) : json :=
  JObject [("scope" : str, scope_value (spec_scope s));
           ("required" : str, JBool (spec_required s));
           ("trusted_signers" : str, JArray (map signer_value (spec_trusted_signers s)));
           ("on_violation" : str, JString (violation_text (spec_on_violation s)))].

(** [serde_json::from_value(spec_val)] *)
Definition de_bool (v : json) : option bool :=
  match v with
  | JBool b => Some b
  | _ => None
  end.

Definition de_violation (v : json) : option OnViolation :=
  let variant (s : str) :=
    if str_eqb s "block" then Some OnBlock
    else if str_eqb s "warn" then Some OnWarn
    else if str_eqb s "log" then Some OnLog
    else None in
  match v with
  | JString s => variant s
  | JObject [(s, JNull)] => variant s
  | _ => None
  end.

Definition de_signer (v : json) : option TrustedSigner :=
  match v with
  | JObject [(variant, content)] =>
      if str_eqb variant "key" then
        match value_struct [("key_ref" : str, false); ("identity_name" : str, true)] content with
        | Some [ref; name] =>
            match de_required as_str ref, de_option as_str name with
            | Some ref, Some name => Some (SignerKey ref name)
            | _, _ => None
            end
        | _ => None
        end
      else if str_eqb variant "keyless" then
        match value_struct [("issuer" : str, false); ("subject_pattern" : str, false)] content with
        | Some [issuer; pattern] =>
            match de_required as_str issuer, de_required as_str pattern with
            | Some issuer, Some pattern => Some (SignerKeyless issuer pattern)
            | _, _ => None
            end
        | _ => None
        end
      else None
  | _ => None
  end.

Definition de_scope (v : json) : option PolicyScope :=
  match value_struct [("projects" : str, true); ("repositories" : str, true)] v with
  | Some [ps; rs] =>
      match de_or [] (de_vec as_str) ps, de_or [] (de_vec as_str) rs with
      | Some ps, Some rs => Some (mkPolicyScope ps rs)
      | _, _ => None
      end
  | _ => None
  end.

Definition de_spec (v : json) : option PolicySpec :=
  match value_struct [("scope" : str, true); ("required" : str, true);
                      ("trusted_signers" : str, true); ("on_violation" : str, true)] v with
  | Some [scope; req; signers; violation] =>
      match de_or (mkPolicyScope [] []) de_scope scope, de_or true de_bool req,
            de_or [] (de_vec de_signer) signers, de_or OnBlock de_violation violation with
      | Some scope, Some req, Some signers, Some violation =>
          Some (mkPolicySpec scope req signers violation)
      | _, _, _, _ => None
      end
  | _ => None
  end.

(** ** The policy table

    [verification_policies], unique by tenant and name and by id. *)
Record PolicyRow : Type := mkPolicyRow {
  pr_id : str;
  pr_name : str;
  pr_tenant : str;
  pr_spec : json;
  pr_enabled : bool;
  pr_on_violation : str;
  pr_updated_at : Z
}.

Abbreviation PolicyTable := (gmap (str * str) PolicyRow).

Inductive PolicyStoreError : Type :=
| PolicySqlx (what : str)
| PolicySpecError (what : str).

Definition policy_store_display (e : PolicyStoreError) : str :=
  match e with
  | PolicySqlx s => "sqlx: " ++ s
  | PolicySpecError s => "invalid policy spec: " ++ s
  end.

(** What a statement depends on besides the table: whether it fails,
    the texts of the database's and the deserializer's errors, and the order in
    which [ORDER BY name] returns rows, which depends on the collation. *)
Record PolicyDb : Type := mkPolicyDb {
  policy_db_error : option str;
  policy_id_taken : str;
  spec_error : json -> str;
  order_by_name : list PolicyRow -> list PolicyRow
}.

Section policy_store.
Context (db : PolicyDb).

Definition row_to_policy (r : PolicyRow) : result StoredVerificationPolicy PolicyStoreError :=
  match de_spec (pr_spec r) with
  | None => Err (PolicySpecError (spec_error db (pr_spec r)))
  | Some spec =>
      Ok (mkStoredVerificationPolicy (pr_id r) (pr_name r) (pr_tenant r) spec (pr_enabled r)
            (parse_on_violation (pr_on_violation r)) (pr_updated_at r))
  end.

Fixpoint rows_to_policies (rows : list PolicyRow) :
    result (list StoredVerificationPolicy) PolicyStoreError :=
  match rows with
  | [] => Ok []
  | r :: rows' =>
      match row_to_policy r with
      | Err e => Err e
      | Ok p => match rows_to_policies rows' with
                | Err e => Err e
                | Ok ps => Ok (p :: ps)
                end
      end
  end.

Definition policy_query {X} (m : M PolicyTable PolicyStoreError X) : M PolicyTable PolicyStoreError X :=
  match policy_db_error db with
  | Some e => throw (PolicySqlx e)
  | None => m
  end.

Definition upsert (p : StoredVerificationPolicy) : M PolicyTable PolicyStoreError unit :=
  policy_query (fun t =>
    let key := (sp_tenant p, sp_name p) in
    let clash := existsb (fun kv => negb (bool_decide (kv.1 = key)) && str_eqb (pr_id kv.2) (sp_id p))
                   (map_to_list t) in
    if clash then (t, Err (PolicySqlx (policy_id_taken db)))
    else (<[key := mkPolicyRow (sp_id p) (sp_name p) (sp_tenant p) (spec_value (sp_spec p))
                     (sp_enabled p) (violation_text (sp_on_violation p)) (sp_updated_at p)]> t, Ok tt)).

Definition get (tenant name : str) : M PolicyTable PolicyStoreError (option StoredVerificationPolicy) :=
  policy_query (fun t =>
    match t !! (tenant, name) with
    | None => (t, Ok None)
    | Some r => (t, match row_to_policy r with
                    | Ok p => Ok (Some p)
                    | Err e => Err e
                    end)
    end).

Definition tenant_rows (tenant : str) (t : PolicyTable) : list PolicyRow :=
  List.filter (fun r => str_eqb (pr_tenant r) tenant) (map snd (map_to_list t)).

Definition list_for_tenant (tenant : str) : M PolicyTable PolicyStoreError (list StoredVerificationPolicy) :=
  policy_query (fun t => (t, rows_to_policies (order_by_name db (tenant_rows tenant t)))).

Definition delete_policy (tenant name : str) : M PolicyTable PolicyStoreError bool :=
  policy_query (fun t => (delete (tenant, name) t, Ok (bool_decide (is_Some (t !! (tenant, name)))))).

Definition resolve (tenant project repository : str) :
    M PolicyTable PolicyStoreError (option StoredVerificationPolicy) :=
  let! policies := list_for_tenant tenant in
  ret (List.find (fun p => scope_matches (spec_scope (sp_spec p)) project repository)
         (List.filter sp_enabled policies)).
End policy_store.

(** ** The signature table ([store.rs])

    [signatures], unique by subject and signature digest. *)
Record SignatureRecord : Type := mkSignatureRecord {
  sig_id : str;
  sig_subject : str;
  sig_tenant : str;
  sig_project : str;
  sig_repository : str;
  signature_digest : str;
  sig_signer : option str;
  sig_type : str;
  sig_media_type : option str;
  sig_size : Z;
  rekor_log_index : option Z;
  signed_at : Z
}.

Abbreviation SignatureTable := (gmap (str * str) SignatureRecord).

(** The conflict clause leaves the owner columns of the first row. *)
Definition put_signature (r : SignatureRecord) (t : SignatureTable) : SignatureTable :=
  let merge (old : option SignatureRecord) :=
    match old with
    | None => Some r
    | Some o =>
        Some (mkSignatureRecord (sig_id o) (sig_subject o) (sig_tenant o) (sig_project o)
                (sig_repository o) (signature_digest o) (sig_signer r) (sig_type r)
                (sig_media_type r) (sig_size r) (rekor_log_index o) (signed_at r))
    end in
  partial_alter merge (sig_subject r, signature_digest r) t.

Definition signed_for (tenant project repository subject : str) (r : SignatureRecord) : bool :=
  str_eqb (sig_tenant r) tenant && str_eqb (sig_project r) project
  && str_eqb (sig_repository r) repository && str_eqb (sig_subject r) subject.

(** [order] is the database's [ORDER BY signed_at DESC]. *)
Definition list_for_subject (order : list SignatureRecord -> list SignatureRecord)
    (tenant project repository subject : str) (t : SignatureTable) : list SignatureRecord :=
  order (List.filter (signed_for tenant project repository subject) (map snd (map_to_list t))).

(** ** Artifacts and envelopes *)

Record SignatureArtifact : Type := mkSignatureArtifact {
  art_media_type : str;
  art_body : str;
  art_signer_identity : str;
  art_signature_type : str
}.

Definition MEDIA_TYPE_ED25519_V1 : str := "application/vnd.spectoncr.signing.ed25519.v1+json".
Definition MEDIA_TYPE_COSIGN_SIMPLE : str := "application/vnd.dev.cosign.simplesigning.v1+json".
Definition MEDIA_TYPE_COSIGN_ENVELOPE_V1 : str :=
  "application/vnd.spectoncr.signing.cosign-envelope.v1+json".

Definition cosign_sig_tag (subject_digest : str) : option str :=
  match strip_prefix "sha256:" subject_digest with
  | None => None
  | Some hex =>
      if negb (non_empty hex) || negb (forallb is_ascii_hexdigit hex) then None
      else Some ("sha256-" ++ hex ++ ".sig")
  end.

Record Ed25519Envelope : Type := mkEd25519Envelope {
  ed_digest : str;
  ed_key_ref : str;
  ed_signature : str;
  ed_algorithm : str
}.

Record CosignEnvelope : Type := mkCosignEnvelope {
  env_digest : str;
  env_key_ref : str;
  payload_b64 : str;
  signature_b64 : str;
  env_algorithm : str
}.

Definition ed25519_value (e : Ed25519Envelope) : json :=
  JObject [("digest" : str, JString (ed_digest e)); ("key_ref" : str, JString (ed_key_ref e));
           ("signature" : str, JString (ed_signature e));
           ("algorithm" : str, JString (ed_algorithm e))].

Definition de_ed25519 (v : json) : option Ed25519Envelope :=
  match de_struct [("digest" : str, false); ("key_ref" : str, false); ("signature" : str, false);
                   ("algorithm" : str, false)] v with
  | Some [d; k; s; a] =>
      match de_required as_str d, de_required as_str k, de_required as_str s, de_required as_str a with
      | Some d, Some k, Some s, Some a => Some (mkEd25519Envelope d k s a)
      | _, _, _, _ => None
      end
  | _ => None
  end.

Definition cosign_value (e : CosignEnvelope) : json :=
  JObject [("digest" : str, JString (env_digest e)); ("key_ref" : str, JString (env_key_ref e));
           ("payload_b64" : str, JString (payload_b64 e));
           ("signature_b64" : str, JString (signature_b64 e));
           ("algorithm" : str, JString (env_algorithm e))].

Definition de_cosign (v : json) : option CosignEnvelope :=
  match de_struct [("digest" : str, false); ("key_ref" : str, false); ("payload_b64" : str, false);
                   ("signature_b64" : str, false); ("algorithm" : str, false)] v with
  | Some [d; k; p; s; a] =>
      match de_required as_str d, de_required as_str k, de_required as_str p,
            de_required as_str s, de_required as_str a with
      | Some d, Some k, Some p, Some s, Some a => Some (mkCosignEnvelope d k p s a)
      | _, _, _, _, _ => None
      end
  | _ => None
  end.

(** [Vec<u8>] in JSON: an array of numbers. *)
Definition de_u8 (v : json) : option ascii :=
  match v with
  | JInt z => if (0 <=? z) && (z <=? 255) then Some (ascii_of_N (Z.to_N z)) else None
  | _ => None
  end.

Definition de_artifact (v : json) : option SignatureArtifact :=
  match de_struct [("media_type" : str, false); ("body" : str, false);
                   ("signer_identity" : str, false); ("signature_type" : str, false)] v with
  | Some [m; b; s; t] =>
      match de_required as_str m, de_required (de_vec de_u8) b, de_required as_str s,
            de_required as_str t with
      | Some m, Some b, Some s, Some t => Some (mkSignatureArtifact m b s t)
      | _, _, _, _ => None
      end
  | _ => None
  end.

(** What a keyed cosign signature signs. *)
Definition simple_signing (subject_digest : str) : json :=
  JObject
    [("critical" : str,
      JObject [("identity" : str, JObject [("docker-reference" : str, JString [])]);
               ("image" : str, JObject [("docker-manifest-digest" : str, JString subject_digest)]);
               ("type" : str, JString "cosign container image signature")]);
     ("optional" : str, JNull)].

(** ** Keys ([key_provider.rs], [providers/composite.rs]) *)

Record KeyMaterial : Type := mkKeyMaterial {
  km_key_ref : str;
  private_pem : option str;
  public_pem : option str;
  ed25519_seed : option str;
  ed25519_public : option str
}.

Abbreviation KeyProvider := (str -> result KeyMaterial KeyProviderError).

Definition memory_insert (m : KeyMaterial) (keys : gmap str KeyMaterial) : gmap str KeyMaterial :=
  <[km_key_ref m := m]> keys.

Definition memory_resolve (keys : gmap str KeyMaterial) : KeyProvider :=
  fun ref => ok_or (keys !! ref) (KeyNotFound ref).

Definition is_file_ref (ref : str) : bool :=
  starts_with "file://" ref || starts_with "/" ref || starts_with "./" ref
  || ends_with ".pem" ref || ends_with ".key" ref.

Definition composite_resolve (memory : option (gmap str KeyMaterial)) (file vault_kv : option KeyProvider) :
    KeyProvider :=
  fun ref =>
    if starts_with "vault://transit/" ref then
      Err (KeyUnavailable
             "vault://transit/ refs require VaultTransitSigner, not KeyProvider::resolve")
    else if starts_with "vault://" ref then
      match vault_kv with
      | Some v => v ref
      | None => Err (KeyUnavailable "vault provider not configured")
      end
    else if is_file_ref ref then
      match file with
      | Some f => f ref
      | None => Err (KeyUnavailable "file provider not configured")
      end
    else
      match memory with
      | None => Err (KeyNotFound ref)
      | Some m =>
          match memory_resolve m ref with
          | Ok mat => Ok mat
          | Err _ =>
              let short := match strip_prefix "memory://" ref with
                           | Some name => Some name
                           | None => strip_prefix "cosign://" ref
                           end in
              match short with
              | Some name =>
                  match memory_resolve m ("cosign://" ++ name) with
                  | Ok mat => Ok mat
                  | Err _ => memory_resolve m name
                  end
              | None => Err (KeyNotFound ref)
              end
          end
      end.

Inductive SigningIdentity : Type :=
| IdKeyed (ref : str)
| IdKeyless (fulcio_url oidc_token : str).

(** ** The libraries

    JSON text, base64 and ed25519. *)
Record CryptoLib : Type := mkCryptoLib {
  from_slice : str -> option json;
  to_vec : json -> str;
  b64_encode : str -> str;
  b64_decode : str -> option str;
  ed_verifying_key : str -> str;
  ed_key_from_bytes : str -> result str str;
  ed_sign : str -> str -> str;
  ed_verify : str -> str -> str -> bool
}.

(** [sigstore]'s key pairs, schemes, signers and verification keys. *)
Inductive KeyKind : Type := EcdsaPair | Ed25519Pair | RsaPair.

Record SigstoreLib : Type := mkSigstoreLib {
  scheme : Type;
  keypair : Type;
  pair_signer : Type;
  verification_key : Type;
  ECDSA_P256_SHA256_ASN1 : scheme;
  ED25519 : scheme;
  RSA_PSS_SHA256_2048 : scheme;
  scheme_default : scheme;
  scheme_label : scheme -> str;
  scheme_try_from : str -> option scheme;
  pair_from_pem : str -> result keypair str;
  pair_kind : keypair -> KeyKind;
  to_sigstore_signer : keypair -> scheme -> result pair_signer str;
  signer_sign : pair_signer -> str -> result str str;
  key_from_pem : str -> scheme -> result verification_key str;
  to_verification_key : keypair -> scheme -> result verification_key str;
  verify_signature : verification_key -> str -> str -> bool
}.

Section with_libraries.
Context (lib : CryptoLib) (ss : SigstoreLib) (keys : KeyProvider).

Definition to_artifact (e : Ed25519Envelope) (signer_identity : str) : SignatureArtifact :=
  mkSignatureArtifact MEDIA_TYPE_ED25519_V1 (to_vec lib (ed25519_value e)) signer_identity "cosign-key".

(** The error texts are logged only. *)
Definition from_artifact (a : SignatureArtifact) : option Ed25519Envelope :=
  if negb (str_eqb (art_media_type a) MEDIA_TYPE_ED25519_V1) then None
  else from_slice lib (art_body a) ≫= de_ed25519.

(** ** What both verifiers do around their loops *)

Definition unsigned (p : VerificationPolicy) : result VerificationOutcome VerifyError :=
  if required p then
    match vp_on_violation p with
    | OnBlock => Err NoSignatures
    | OnWarn | OnLog => Ok (mkVerificationOutcome false [] (vp_id p) (Some "no signatures" : option str))
    end
  else Ok (mkVerificationOutcome true [] (vp_id p) None).

Definition unmatched (p : VerificationPolicy) : result VerificationOutcome VerifyError :=
  let reason : str := "no trusted signature verified" in
  match vp_on_violation p with
  | OnBlock => Err (PolicyDenied reason)
  | OnWarn | OnLog => Ok (mkVerificationOutcome false [] (vp_id p) (Some reason))
  end.

Definition trusted_refs (p : VerificationPolicy) : list str := omap key_ref (trusted_signers p).

(** [!trusted_refs.is_empty() && !trusted_refs.contains(key_ref)] *)
Definition untrusted (p : VerificationPolicy) (ref : str) : bool :=
  negb (bool_decide (trusted_refs p = [])) && negb (bool_decide (ref ∈ trusted_refs p)).

(** ** Ed25519 seeds ([memory.rs]) *)

Definition signing_payload (subject_digest : str) : str := subject_digest.

Definition signing_key_from_material (m : KeyMaterial) : result str SignError :=
  match ed25519_seed m with
  | Some seed => Ok seed
  | None =>
      match private_pem m with
      | Some _ => Err (SignNotImplemented "PEM private keys require Sigstore/Vault provider (B2)")
      | None => Err (SignCrypto ("key " ++ km_key_ref m ++ " has no ed25519 private material"))
      end
  end.

Definition verifying_key_from_material (m : KeyMaterial) : result str VerifyError :=
  match ed25519_public m, ed25519_seed m with
  | Some public, _ => map_err (fun e => VerifyCrypto ("public key: " ++ e)) (ed_key_from_bytes lib public)
  | None, Some seed => Ok (ed_verifying_key lib seed)
  | None, None =>
      match public_pem m with
      | Some _ => Err (VerifyNotImplemented "PEM public keys require Sigstore/Vault provider (B2)")
      | None => Err (VerifyCrypto ("key " ++ km_key_ref m ++ " has no ed25519 public material"))
      end
  end.

Definition not_sha256 (subject_digest : str) : SignError :=
  InvalidIdentity ("subject digest must be sha256:..., got " ++ subject_digest).

Definition memory_sign (subject_digest : str) (identity : SigningIdentity) :
    result SignatureArtifact SignError :=
  match identity with
  | IdKeyless _ _ =>
      Err (InvalidIdentity "MemoryKeyedSigner does not support keyless; use SigstoreSigner (B2)")
  | IdKeyed ref =>
      if negb (starts_with "sha256:" subject_digest) then Err (not_sha256 subject_digest)
      else
        match keys ref with
        | Err e => Err (SignUnknownKey (key_error_display e))
        | Ok material =>
            match signing_key_from_material material with
            | Err e => Err e
            | Ok sk =>
                let sig := ed_sign lib sk (signing_payload subject_digest) in
                Ok (to_artifact (mkEd25519Envelope subject_digest ref (b64_encode lib sig) "ed25519") ref)
            end
        end
  end.

(** One round of the loop: the key whose signature verified. *)
Definition memory_match (subject_digest : str) (p : VerificationPolicy) (a : SignatureArtifact) :
    option str :=
  match from_artifact a with
  | None => None
  | Some env =>
      if negb (str_eqb (ed_digest env) subject_digest) then None
      else if untrusted p (ed_key_ref env) then None
      else
        match keys (ed_key_ref env) with
        | Err _ => None
        | Ok material =>
            match verifying_key_from_material material, b64_decode lib (ed_signature env) with
            | Ok vk, Some sig =>
                if negb (length sig =? 64)%nat then None
                else if ed_verify lib vk (signing_payload subject_digest) sig then Some (ed_key_ref env)
                else None
            | _, _ => None
            end
        end
  end.

Definition memory_verify (subject_digest : str) (signatures : list SignatureArtifact)
    (p : VerificationPolicy) : result VerificationOutcome VerifyError :=
  match signatures with
  | [] => unsigned p
  | _ =>
      match omap (memory_match subject_digest p) signatures with
      | [] => if required p then unmatched p
              else Ok (mkVerificationOutcome false [] (vp_id p) None)
      | matched => Ok (mkVerificationOutcome true matched (vp_id p) None)
      end
  end.

(** ** PEM keys ([sigstore_keyed.rs]) *)

Definition scheme_for_keypair (kp : keypair ss) : scheme ss :=
  match pair_kind ss kp with
  | EcdsaPair => ECDSA_P256_SHA256_ASN1 ss
  | Ed25519Pair => ED25519 ss
  | RsaPair => RSA_PSS_SHA256_2048 ss
  end.

Definition keypair_from_material (m : KeyMaterial) : result (keypair ss) SignError :=
  match private_pem m with
  | Some pem => map_err SignCrypto (pair_from_pem ss pem)
  | None =>
      Err (SignCrypto ("key " ++ km_key_ref m
                         ++ " has no PEM private key; use MemoryKeyedSigner for raw ed25519 seeds"))
  end.

Definition verification_key_from_material (m : KeyMaterial) (s : scheme ss) :
    result (verification_key ss) VerifyError :=
  match public_pem m, private_pem m with
  | Some pub, _ => map_err VerifyCrypto (key_from_pem ss pub s)
  | None, Some priv =>
      match pair_from_pem ss priv with
      | Err e => Err (VerifyCrypto e)
      | Ok kp => map_err VerifyCrypto (to_verification_key ss kp s)
      end
  | None, None =>
      Err (VerifyCrypto ("key " ++ km_key_ref m ++ " has no PEM material for verification"))
  end.

(** The envelope around a signature of the payload. *)
Definition sign_with (kp : keypair ss) (subject_digest ref : str) : result SignatureArtifact SignError :=
  let s := scheme_for_keypair kp in
  match to_sigstore_signer ss kp s with
  | Err e => Err (SignCrypto e)
  | Ok signer =>
      let payload := to_vec lib (simple_signing subject_digest) in
      match signer_sign ss signer payload with
      | Err e => Err (SignCrypto e)
      | Ok sig =>
          let env := mkCosignEnvelope subject_digest ref (b64_encode lib payload)
                       (b64_encode lib sig) (scheme_label ss s) in
          Ok (mkSignatureArtifact MEDIA_TYPE_COSIGN_ENVELOPE_V1 (to_vec lib (cosign_value env)) ref
                "cosign-key")
      end
  end.

Definition sigstore_sign (subject_digest : str) (identity : SigningIdentity) :
    result SignatureArtifact SignError :=
  match identity with
  | IdKeyless _ _ =>
      Err (SignNotImplemented "keyless Fulcio signing lands with Rekor wiring (post-B2)")
  | IdKeyed ref =>
      if starts_with "vault://transit/" ref then
        Err (InvalidIdentity "use VaultTransitSigner for vault://transit/ refs")
      else if negb (starts_with "sha256:" subject_digest) then Err (not_sha256 subject_digest)
      else
        match keys ref with
        | Err e => Err (SignUnknownKey (key_error_display e))
        | Ok material =>
            match keypair_from_material material with
            | Err e => Err e
            | Ok kp => sign_with kp subject_digest ref
            end
        end
  end.

(** The part of a round that checks the signature of an envelope. *)
Definition envelope_verifies (env : CosignEnvelope) : bool :=
  match keys (env_key_ref env) with
  | Err _ => false
  | Ok material =>
      let s := default (scheme_default ss) (scheme_try_from ss (env_algorithm env)) in
      match verification_key_from_material material s with
      | Err _ => false
      | Ok vk =>
          match b64_decode lib (payload_b64 env), b64_decode lib (signature_b64 env) with
          | Some payload, Some sig => verify_signature ss vk sig payload
          | _, _ => false
          end
      end
  end.

Definition sigstore_match (subject_digest : str) (p : VerificationPolicy) (a : SignatureArtifact) :
    option str :=
  if negb (str_eqb (art_media_type a) MEDIA_TYPE_COSIGN_ENVELOPE_V1) then None
  else
    match from_slice lib (art_body a) ≫= de_cosign with
    | None => None
    | Some env =>
        if negb (str_eqb (env_digest env) subject_digest) then None
        else if untrusted p (env_key_ref env) then None
        else if str_eqb (env_algorithm env) "vault-transit" then None
        else if envelope_verifies env then Some (env_key_ref env)
        else None
    end.

Definition sigstore_verify (subject_digest : str) (signatures : list SignatureArtifact)
    (p : VerificationPolicy) : result VerificationOutcome VerifyError :=
  match signatures with
  | [] => unsigned p
  | _ =>
      match omap (sigstore_match subject_digest p) signatures with
      | [] => if required p then unmatched p
              else Ok (mkVerificationOutcome true [] (vp_id p) None)
      | matched => Ok (mkVerificationOutcome true matched (vp_id p) None)
      end
  end.
End with_libraries.
