(* ===== verification/SigningProofs.v ===== *)
(** * What a verified signature shows

    The verifiers of [Signing] against a declarative reading: which artifacts
    make a required policy trust a digest, that a fresh signature verifies, and
    how far the verdict is bound to the image.  The policy and signature tables
    are covered as well: storing and reading a policy, and which repository a
    signature row belongs to. *)

From S2P Require Import Prelude Json Text Effects Signing.

Local Open Scope Z_scope.

Lemma omap_nil_iff {A B} (f : A -> option B) l : omap f l = [] <-> forall x, x ∈ l -> f x = None.
Proof.
  induction l as [|a l IH]; simpl.
  - split; [|done]. intros _ x Hx. by apply not_elem_of_nil in Hx.
  - destruct (f a) eqn:E; split.
    + done.
    + intros H. by rewrite (H a ltac:(left)) in E.
    + intros H x [->|Hx]%elem_of_cons; [done|]. by apply IH.
    + intros H. apply IH. intros x Hx. apply H. by right.
Qed.

Lemma omap_head {A B} (f : A -> option B) l y ys : omap f l = y :: ys -> exists x, x ∈ l /\ f x = Some y.
Proof. intros E. apply list_elem_of_omap. rewrite E. left. Qed.

(** ** Verification *)

Section verification.
Context (lib : CryptoLib) (ss : SigstoreLib) (keys : KeyProvider).

(** A key the policy trusts: any, if it names none. *)
Definition accepts_key (p : VerificationPolicy) (k : str) : Prop :=
  trusted_refs p = [] \/ k ∈ trusted_refs p.

Lemma untrusted_false p k : untrusted p k = false <-> accepts_key p k.
Proof.
  unfold untrusted, accepts_key. rewrite andb_false_iff, !negb_false_iff, !bool_decide_eq_true. done.
Qed.

(** The artifact holds an envelope for the digest whose payload its key, one
    the policy accepts, has signed. *)
Definition sigstore_attests (d : str) (p : VerificationPolicy) (a : SignatureArtifact) (k : str) : Prop :=
  exists env material vk payload sig,
    art_media_type a = MEDIA_TYPE_COSIGN_ENVELOPE_V1 /\
    from_slice lib (art_body a) ≫= de_cosign = Some env /\
    env_digest env = d /\ env_key_ref env = k /\ accepts_key p k /\
    env_algorithm env <> "vault-transit" /\ keys k = Ok material /\
    verification_key_from_material ss material
      (default (scheme_default ss) (scheme_try_from ss (env_algorithm env))) = Ok vk /\
    b64_decode lib (payload_b64 env) = Some payload /\
    b64_decode lib (signature_b64 env) = Some sig /\ verify_signature ss vk sig payload = true.

(** Here the signed text is the digest itself. *)
Definition memory_attests (d : str) (p : VerificationPolicy) (a : SignatureArtifact) (k : str) : Prop :=
  exists env material vk sig,
    from_artifact lib a = Some env /\ ed_digest env = d /\ ed_key_ref env = k /\ accepts_key p k /\
    keys k = Ok material /\ verifying_key_from_material lib material = Ok vk /\
    b64_decode lib (ed_signature env) = Some sig /\ length sig = 64%nat /\ ed_verify lib vk d sig = true.

Lemma sigstore_match_some d p a k : sigstore_match lib ss keys d p a = Some k <-> sigstore_attests d p a k.
Proof.
  unfold sigstore_match, sigstore_attests, envelope_verifies. split.
  - destruct (str_eqb_spec (art_media_type a) MEDIA_TYPE_COSIGN_ENVELOPE_V1); [cbn [negb]|done].
    destruct (_ ≫= _) as [env|]; [|done].
    destruct (str_eqb_spec (env_digest env) d); [cbn [negb]|done].
    destruct (untrusted p _) eqn:Et; [done|]. apply untrusted_false in Et.
    destruct (str_eqb_spec (env_algorithm env) "vault-transit"); [done|].
    destruct (keys _) as [material|] eqn:Ek; [|done]. cbn zeta.
    destruct (verification_key_from_material _ _ _) as [vk|] eqn:Ev; [|done].
    destruct (b64_decode lib (payload_b64 env)) as [payload|] eqn:Ep; [|done].
    destruct (b64_decode lib (signature_b64 env)) as [sig|] eqn:Es; [|done].
    destruct (verify_signature _ _ _ _) eqn:Eg; [|done]. intros [= <-].
    by exists env, material, vk, payload, sig.
  - intros (env & material & vk & payload & sig & -> & -> & <- & <- & Ht%untrusted_false & Ha & Hk & Hv & Hp & Hs & Hg).
    rewrite !str_eqb_refl, Ht. cbn [negb].
    destruct (str_eqb_spec (env_algorithm env) "vault-transit"); [done|].
    rewrite Hk. cbn zeta. by rewrite Hv, Hp, Hs, Hg.
Qed.

Lemma memory_match_some d p a k : memory_match lib keys d p a = Some k <-> memory_attests d p a k.
Proof.
  unfold memory_match, memory_attests, signing_payload. split.
  - destruct (from_artifact lib a) as [env|]; [|done].
    destruct (str_eqb_spec (ed_digest env) d); [cbn [negb]|done].
    destruct (untrusted p _) eqn:Et; [done|]. apply untrusted_false in Et.
    destruct (keys _) as [material|] eqn:Ek; [|done].
    destruct (verifying_key_from_material _ _) as [vk|] eqn:Ev; [|done].
    destruct (b64_decode _ _) as [sig|] eqn:Es; [|done].
    destruct (Nat.eqb_spec (length sig) 64); [cbn [negb]|done].
    destruct (ed_verify _ _ _ _) eqn:Eg; [|done]. intros [= <-].
    by exists env, material, vk, sig.
  - intros (env & material & vk & sig & -> & <- & <- & Ht%untrusted_false & Hk & Hv & Hs & Hl & Hg).
    by rewrite str_eqb_refl, Ht, Hk, Hv, Hs, Hl, Hg.
Qed.

(** The two verifiers around their loops. *)
Definition loop_verdict (f : SignatureArtifact -> option str) (lax : bool) (sigs : list SignatureArtifact)
    (p : VerificationPolicy) : result VerificationOutcome VerifyError :=
  match sigs with
  | [] => unsigned p
  | _ => match omap f sigs with
         | [] => if required p then unmatched p else Ok (mkVerificationOutcome lax [] (vp_id p) None)
         | matched => Ok (mkVerificationOutcome true matched (vp_id p) None)
         end
  end.

Lemma unmatched_untrusted p o : unmatched p = Ok o -> trusted o = false.
Proof. unfold unmatched. destruct (vp_on_violation p); by intros [= <-]. Qed.

Lemma loop_trusted f lax sigs p : required p = true ->
  (exists o, loop_verdict f lax sigs p = Ok o /\ trusted o = true) <-> exists a k, a ∈ sigs /\ f a = Some k.
Proof.
  intros Hr. unfold loop_verdict, unsigned. rewrite Hr. split.
  - intros (o & Ho & Ht). destruct sigs as [|a0 sigs]; [destruct (vp_on_violation p); naive_solver|].
    destruct (omap f (a0 :: sigs)) as [|k ks] eqn:E.
    + apply unmatched_untrusted in Ho. congruence.
    + apply omap_head in E as (a & Ha & Hk). eauto.
  - intros (a & k & Ha & Hk). destruct sigs as [|a0 sigs]; [by apply not_elem_of_nil in Ha|].
    destruct (omap f (a0 :: sigs)) as [|k0 ks] eqn:E; [|by eexists].
    rewrite omap_nil_iff in E. by rewrite (E a Ha) in Hk.
Qed.

Lemma sigstore_loop d sigs p :
  sigstore_verify lib ss keys d sigs p = loop_verdict (sigstore_match lib ss keys d p) true sigs p.
Proof. done. Qed.

Lemma memory_loop d sigs p :
  memory_verify lib keys d sigs p = loop_verdict (memory_match lib keys d p) false sigs p.
Proof. done. Qed.

Lemma sigstore_trusted d sigs p : required p = true ->
  (exists o, sigstore_verify lib ss keys d sigs p = Ok o /\ trusted o = true) <->
  exists a k, a ∈ sigs /\ sigstore_attests d p a k.
Proof. intros Hr. rewrite sigstore_loop, loop_trusted by done. by setoid_rewrite sigstore_match_some. Qed.

Lemma memory_trusted d sigs p : required p = true ->
  (exists o, memory_verify lib keys d sigs p = Ok o /\ trusted o = true) <->
  exists a k, a ∈ sigs /\ memory_attests d p a k.
Proof. intros Hr. rewrite memory_loop, loop_trusted by done. by setoid_rewrite memory_match_some. Qed.

(** The envelope of another digest around the same payload and signature. *)
Definition rewrap (d : str) (env : CosignEnvelope) : CosignEnvelope :=
  mkCosignEnvelope d (env_key_ref env) (payload_b64 env) (signature_b64 env) (env_algorithm env).

Lemma attests_rewrap d d' p a a' k env :
  sigstore_attests d p a k -> from_slice lib (art_body a) ≫= de_cosign = Some env ->
  art_media_type a' = MEDIA_TYPE_COSIGN_ENVELOPE_V1 ->
  from_slice lib (art_body a') ≫= de_cosign = Some (rewrap d' env) ->
  sigstore_attests d' p a' k.
Proof.
  intros (env' & material & vk & payload & sig & _ & He & _ & Hk & Hrest) Henv Hm Hp.
  rewrite Henv in He. injection He as <-. by exists (rewrap d' env), material, vk, payload, sig.
Qed.
End verification.

(** ** Fresh signatures *)

(** What [serde_json] and [base64] promise: text decodes to what was encoded. *)
Class CodecLaws (lib : CryptoLib) : Prop := {
  text_round_trip fs :
    from_slice lib (to_vec lib (JObject (map (fun kv : str * str => (kv.1, JString kv.2)) fs)))
    = Some (JObject (map (fun kv => (kv.1, JString kv.2)) fs));
  b64_round_trip s : b64_decode lib (b64_encode lib s) = Some s
}.

(** What an ed25519 library promises of a key derived from a seed. *)
Class Ed25519Laws (lib : CryptoLib) : Prop := {
  ed_sign_verifies seed m : ed_verify lib (ed_verifying_key lib seed) m (ed_sign lib seed m) = true;
  ed_sign_length seed m : length (ed_sign lib seed m) = 64%nat
}.

Section fresh.
Context (lib : CryptoLib) (ss : SigstoreLib) (keys : KeyProvider) `{!CodecLaws lib}.

Lemma cosign_decodes env : from_slice lib (to_vec lib (cosign_value env)) ≫= de_cosign = Some env.
Proof.
  pose proof (text_round_trip (lib := lib)
    [("digest" : str, env_digest env); ("key_ref" : str, env_key_ref env);
     ("payload_b64" : str, payload_b64 env); ("signature_b64" : str, signature_b64 env);
     ("algorithm" : str, env_algorithm env)]) as H. cbn [map fst snd] in H.
  unfold cosign_value. rewrite H. by destruct env.
Qed.

Lemma ed25519_decodes env : from_slice lib (to_vec lib (ed25519_value env)) ≫= de_ed25519 = Some env.
Proof.
  pose proof (text_round_trip (lib := lib)
    [("digest" : str, ed_digest env); ("key_ref" : str, ed_key_ref env);
     ("signature" : str, ed_signature env); ("algorithm" : str, ed_algorithm env)]) as H.
  cbn [map fst snd] in H. unfold ed25519_value. rewrite H. by destruct env.
Qed.

Lemma accepts_required id name k refs : k ∈ refs -> accepts_key (require_keys id name refs) k.
Proof.
  intros Hk. right. unfold trusted_refs, require_keys. cbn.
  apply list_elem_of_omap. exists (SignerKey k None). split; [|done].
  apply list_elem_of_fmap. by exists k.
Qed.

Lemma memory_sign_attests `{!Ed25519Laws lib} d k m seed a id name :
  keys k = Ok m -> ed25519_seed m = Some seed ->
  verifying_key_from_material lib m = Ok (ed_verifying_key lib seed) ->
  memory_sign lib keys d (IdKeyed k) = Ok a ->
  memory_attests lib keys d (require_keys id name [k]) a k.
Proof.
  intros Hm Hseed Hvk. unfold memory_sign. destruct (negb _); [done|].
  rewrite Hm. unfold signing_key_from_material. rewrite Hseed. intros [= <-].
  eexists _, m, (ed_verifying_key lib seed), (ed_sign lib seed d). split.
  { unfold from_artifact, to_artifact. cbn [art_media_type art_body].
    rewrite str_eqb_refl. cbn [negb]. apply ed25519_decodes. }
  cbn. split_and!; try done.
  - by apply accepts_required, list_elem_of_singleton.
  - apply b64_round_trip.
  - apply ed_sign_length.
  - apply ed_sign_verifies.
Qed.

(** A verification key that accepts what the key pair signs. *)
Definition pairs_with (kp : keypair ss) (vk : verification_key ss) : Prop :=
  forall signer m sig, to_sigstore_signer ss kp (scheme_for_keypair ss kp) = Ok signer ->
    signer_sign ss signer m = Ok sig -> verify_signature ss vk sig m = true.

Lemma sigstore_sign_attests d k a id name m kp vk :
  keys k = Ok m -> keypair_from_material ss m = Ok kp ->
  verification_key_from_material ss m (scheme_for_keypair ss kp) = Ok vk -> pairs_with kp vk ->
  scheme_try_from ss (scheme_label ss (scheme_for_keypair ss kp)) = Some (scheme_for_keypair ss kp) ->
  scheme_label ss (scheme_for_keypair ss kp) <> "vault-transit" ->
  sigstore_sign lib ss keys d (IdKeyed k) = Ok a ->
  sigstore_attests lib ss keys d (require_keys id name [k]) a k.
Proof.
  intros Hm Hkp Hvk Hpair Hscheme Hlabel. unfold sigstore_sign.
  destruct (starts_with _ k); [done|]. destruct (negb _); [done|]. rewrite Hm, Hkp. unfold sign_with.
  destruct (to_sigstore_signer _ _ _) as [signer|] eqn:Es; [|done].
  destruct (signer_sign _ _ _) as [sig|] eqn:Eg; [|done]. intros [= <-].
  eexists _, m, vk, _, sig. split; [done|]. split; [apply cosign_decodes|].
  cbn. rewrite Hscheme. split_and!; try done.
  - by apply accepts_required, list_elem_of_singleton.
  - apply b64_round_trip.
  - apply b64_round_trip.
  - by eapply Hpair.
Qed.
End fresh.

(** ** Tables *)

Lemma signer_round_trip s : de_signer (signer_value s) = Some s.
Proof. destruct s as [ref [n|]|]; reflexivity. Qed.

Lemma violation_round_trip v : de_violation (JString (violation_text v)) = Some v.
Proof. by destruct v. Qed.

Lemma parse_violation_text v : parse_on_violation (violation_text v) = v.
Proof. by destruct v. Qed.

Lemma signers_round_trip l : de_vec de_signer (JArray (map signer_value l)) = Some l.
Proof. by apply (traverse_map signer_value de_signer), signer_round_trip. Qed.

Lemma scope_round_trip s : de_scope (scope_value s) = Some s.
Proof.
  destruct s as [ps rs]. unfold de_scope, scope_value. cbn -[de_vec str_eqb].
  literal_keys. cbn [de_or]. by rewrite !strings_round_trip.
Qed.

Lemma spec_round_trip s : de_spec (spec_value s) = Some s.
Proof.
  destruct s as [scope req signers violation]. unfold de_spec, spec_value.
  cbn -[de_vec de_scope scope_value de_violation violation_text str_eqb].
  literal_keys. cbn [de_or de_bool]. by rewrite scope_round_trip, signers_round_trip, violation_round_trip.
Qed.

Definition row_of (p : StoredVerificationPolicy) : PolicyRow :=
  mkPolicyRow (sp_id p) (sp_name p) (sp_tenant p) (spec_value (sp_spec p)) (sp_enabled p)
    (violation_text (sp_on_violation p)) (sp_updated_at p).

Lemma row_round_trip db p : row_to_policy db (row_of p) = Ok p.
Proof.
  unfold row_to_policy. cbn -[de_spec spec_value parse_on_violation violation_text].
  rewrite spec_round_trip, parse_violation_text. by destruct p.
Qed.

(** Every row is one a policy was stored as, under its own key. *)
Definition table_wf (t : PolicyTable) : Prop :=
  forall k r, t !! k = Some r -> exists p, r = row_of p /\ k = (sp_tenant p, sp_name p).

Lemma rows_to_policies_ok db ps : rows_to_policies db (map row_of ps) = Ok ps.
Proof. induction ps as [|p ps IH]; [done|]. cbn -[row_to_policy]. by rewrite row_round_trip, IH. Qed.

Lemma upsert_inv db p t t' r :
  upsert db p t = (t', r) ->
  (r = Ok tt /\ policy_db_error db = None /\ t' = <[(sp_tenant p, sp_name p) := row_of p]> t) \/
  (exists e, r = Err e) /\ t' = t.
Proof.
  unfold upsert, policy_query, throw. destruct (policy_db_error db); [intros [= <- <-]; eauto|].
  destruct (existsb _ _); intros [= <- <-]; eauto.
Qed.

Lemma upsert_wf db p t : table_wf t -> table_wf (exec (upsert db p) t).
Proof.
  intros Hwf. unfold exec. destruct (upsert db p t) as [t' r] eqn:E.
  apply upsert_inv in E as [(_ & _ & ->)|[_ ->]]; [|done].
  intros k r0. cbn. rewrite lookup_insert_Some. intros [[<- <-]|[_ Hk]]; [by exists p|]. by apply Hwf.
Qed.

Lemma delete_policy_wf db tenant name t : table_wf t -> table_wf (exec (delete_policy db tenant name) t).
Proof.
  intros Hwf. unfold exec, delete_policy, policy_query, throw. destruct (policy_db_error db); [done|].
  intros k r. cbn. rewrite lookup_delete_Some. intros [_ Hk]. by apply Hwf.
Qed.

Lemma wf_row_of t r : table_wf t -> r ∈ map snd (map_to_list t) -> exists p, r = row_of p.
Proof.
  intros Hwf ([k r'] & -> & Hkr)%list_elem_of_fmap. apply elem_of_map_to_list in Hkr.
  destruct (Hwf _ _ Hkr) as (p & -> & _). by exists p.
Qed.

Lemma map_row_of rows : (forall r, r ∈ rows -> exists p, r = row_of p) -> exists ps, rows = map row_of ps.
Proof.
  induction rows as [|r rows IH]; intros H; [by exists []|].
  destruct (H r ltac:(left)) as [p ->]. destruct IH as [ps ->]; [intros r' Hr'; apply H; by right|].
  by exists (p :: ps).
Qed.

(** The rows of a tenant, read back. *)
Lemma list_for_tenant_ok db tenant t :
  table_wf t -> policy_db_error db = None -> (forall l, order_by_name db l ≡ₚ l) ->
  exists ps, list_for_tenant db tenant t = (t, Ok ps) /\
    forall p, p ∈ ps <-> sp_tenant p = tenant /\ t !! (sp_tenant p, sp_name p) = Some (row_of p).
Proof.
  intros Hwf Hdb Hord. unfold list_for_tenant, policy_query. rewrite Hdb.
  set (rows := order_by_name db (tenant_rows tenant t)).
  assert (forall r, r ∈ rows <-> r ∈ map snd (map_to_list t) /\ pr_tenant r = tenant) as Hrows.
  { intros r. unfold rows. rewrite (Hord _). unfold tenant_rows.
    rewrite list_elem_of_In, filter_In, <- list_elem_of_In.
    by destruct (str_eqb_spec (pr_tenant r) tenant); naive_solver. }
  destruct (map_row_of rows) as [ps Hps]; [intros r [Hr _]%Hrows; by eapply wf_row_of|].
  exists ps. rewrite Hps, rows_to_policies_ok. split; [done|]. intros p.
  assert (p ∈ ps <-> row_of p ∈ rows) as ->.
  { rewrite Hps. split; [intros Hp; apply list_elem_of_fmap; by exists p|].
    intros (p' & Heq & Hp')%list_elem_of_fmap.
    pose proof (row_round_trip db p) as H1. rewrite Heq, row_round_trip in H1. by injection H1 as ->. }
  rewrite Hrows, list_elem_of_fmap. cbn. split.
  - intros [([k r] & Hr & Hkr) Ht]. apply elem_of_map_to_list in Hkr. cbn in Hr. subst r.
    destruct (Hwf _ _ Hkr) as (p' & Heq & ->). split; [done|].
    pose proof (row_round_trip db p) as H1. rewrite Heq, row_round_trip in H1. by injection H1 as ->.
  - intros [Ht Hl]. split; [|done]. exists ((sp_tenant p, sp_name p), row_of p).
    by rewrite elem_of_map_to_list.
Qed.

Lemma put_signature_lookup r t :
  exists r', put_signature r t !! (sig_subject r, signature_digest r) = Some r' /\
    match t !! (sig_subject r, signature_digest r) with
    | None => r' = r
    | Some o => sig_tenant r' = sig_tenant o /\ sig_project r' = sig_project o /\
                sig_repository r' = sig_repository o /\ sig_subject r' = sig_subject o /\
                signature_digest r' = signature_digest o
    end.
Proof.
  unfold put_signature. rewrite lookup_partial_alter_eq.
  destruct (t !! _) as [o|]; eexists; (split; [reflexivity|]); done.
Qed.

(** ** Theorems *)

(** C13: A required policy trusts a digest exactly when one of the artifacts holds
    an envelope for it, under a key the policy accepts (any, if it names none),
    with a valid signature.  The ed25519 verifier checks the signature on the
    digest itself; the PEM verifier on whatever payload the envelope carries. *)
Theorem signature_verification (lib : CryptoLib) (ss : SigstoreLib) (keys : KeyProvider) (d : str)
    (sigs : list SignatureArtifact) (p : VerificationPolicy) (Hrequired : required p = true) :
  ((exists o, sigstore_verify lib ss keys d sigs p = Ok o /\ trusted o = true) <->
   exists a k, a ∈ sigs /\ sigstore_attests lib ss keys d p a k) /\
  ((exists o, memory_verify lib keys d sigs p = Ok o /\ trusted o = true) <->
   exists a k, a ∈ sigs /\ memory_attests lib keys d p a k).
Proof. split; [by apply sigstore_trusted|by apply memory_trusted]. Qed.

(** The PEM verifier never compares the signed payload with the digest: when an
    artifact verifies for one image, its payload and signature put in an
    envelope for any other digest verify for that image too. *)
Theorem signature_replay (lib : CryptoLib) (ss : SigstoreLib) (keys : KeyProvider) (d d' : str)
    (p : VerificationPolicy) (a a' : SignatureArtifact) (env : CosignEnvelope)
    (Hrequired : required p = true)
    (Hd : exists o, sigstore_verify lib ss keys d [a] p = Ok o /\ trusted o = true)
    (Henv : from_slice lib (art_body a) ≫= de_cosign = Some env)
    (Hmedia : art_media_type a' = MEDIA_TYPE_COSIGN_ENVELOPE_V1)
    (Hbody : from_slice lib (art_body a') ≫= de_cosign = Some (rewrap d' env)) :
  exists o, sigstore_verify lib ss keys d' [a'] p = Ok o /\ trusted o = true.
Proof.
  apply sigstore_trusted in Hd as (a0 & k & ->%list_elem_of_singleton & Hk); [|done].
  apply sigstore_trusted; [done|]. exists a', k. split; [left|]. by eapply attests_rewrap.
Qed.

(** What either signer produces for a digest under a key, the matching verifier
    accepts for a policy that requires that key. *)
Theorem sign_verify_round_trip (lib : CryptoLib) (ss : SigstoreLib) (keys : KeyProvider)
    `{!CodecLaws lib} `{!Ed25519Laws lib} (d k id name : str) (m : KeyMaterial)
    (Hk : keys k = Ok m) :
  (forall seed a, ed25519_seed m = Some seed ->
     verifying_key_from_material lib m = Ok (ed_verifying_key lib seed) ->
     memory_sign lib keys d (IdKeyed k) = Ok a ->
     exists o, memory_verify lib keys d [a] (require_keys id name [k]) = Ok o /\ trusted o = true) /\
  (forall kp vk a, keypair_from_material ss m = Ok kp ->
     verification_key_from_material ss m (scheme_for_keypair ss kp) = Ok vk -> pairs_with ss kp vk ->
     scheme_try_from ss (scheme_label ss (scheme_for_keypair ss kp)) = Some (scheme_for_keypair ss kp) ->
     scheme_label ss (scheme_for_keypair ss kp) <> "vault-transit" ->
     sigstore_sign lib ss keys d (IdKeyed k) = Ok a ->
     exists o, sigstore_verify lib ss keys d [a] (require_keys id name [k]) = Ok o /\ trusted o = true).
Proof.
  split; intros.
  - apply memory_trusted; [done|]. exists a, k. split; [left|]. by eapply memory_sign_attests.
  - apply sigstore_trusted; [done|]. exists a, k. split; [left|]. by eapply sigstore_sign_attests.
Qed.

(** A policy reads back as it was stored, the other policies are untouched, and
    the listing of a tenant holds exactly its stored policies. *)
Theorem policy_round_trip (db : PolicyDb) (p : StoredVerificationPolicy) (t t' : PolicyTable)
    (Hwf : table_wf t) (Hup : upsert db p t = (t', Ok tt)) (Horder : forall l, order_by_name db l ≡ₚ l) :
  get db (sp_tenant p) (sp_name p) t' = (t', Ok (Some p)) /\
  (forall tenant name, (tenant, name) <> (sp_tenant p, sp_name p) ->
     snd (get db tenant name t') = snd (get db tenant name t)) /\
  exists ps, list_for_tenant db (sp_tenant p) t' = (t', Ok ps) /\ p ∈ ps /\
    forall q, sp_name q <> sp_name p ->
      q ∈ ps <-> sp_tenant q = sp_tenant p /\ t !! (sp_tenant q, sp_name q) = Some (row_of q).
Proof.
  pose proof (upsert_wf db p t Hwf) as Hwf'. unfold exec in Hwf'. rewrite Hup in Hwf'. cbn in Hwf'.
  apply upsert_inv in Hup as [(_ & Hdb & ->)|[(e & He) _]]; [|done]. split_and!.
  - unfold get, policy_query. by rewrite Hdb, lookup_insert_eq, row_round_trip.
  - intros tenant name Hne. unfold get, policy_query. rewrite Hdb, lookup_insert_ne by congruence.
    by destruct (t !! _).
  - destruct (list_for_tenant_ok db (sp_tenant p) _ Hwf' Hdb Horder) as (ps & Hps & Hin).
    exists ps. split; [done|]. split; [apply Hin; by rewrite lookup_insert_eq|].
    intros q Hq. rewrite Hin, lookup_insert_ne by congruence. done.
Qed.

(** A signature row keeps the repository it was first registered for: when the
    same signature of the same image is registered for another repository, that
    repository's listing does not show it. *)
Theorem signature_row_owner (r o : SignatureRecord) (t : SignatureTable)
    (order : list SignatureRecord -> list SignatureRecord) (Horder : forall l, order l ≡ₚ l)
    (Hkeys : forall k x, t !! k = Some x -> k = (sig_subject x, signature_digest x))
    (Ho : t !! (sig_subject r, signature_digest r) = Some o)
    (Hother : sig_repository o <> sig_repository r) :
  forall x, x ∈ list_for_subject order (sig_tenant r) (sig_project r) (sig_repository r) (sig_subject r)
                  (put_signature r t) ->
    signature_digest x <> signature_digest r.
Proof.
  intros x. unfold list_for_subject. rewrite (Horder _), list_elem_of_In, filter_In, <- list_elem_of_In.
  intros [([k x'] & -> & Hx)%list_elem_of_fmap Hs] Hd. apply elem_of_map_to_list in Hx. cbn in *.
  unfold signed_for in Hs. rewrite !andb_true_iff in Hs. destruct Hs as [[[_ _] Hrepo%str_eqb_true] Hsub%str_eqb_true].
  destruct (decide (k = (sig_subject r, signature_digest r))) as [->|Hk].
  - destruct (put_signature_lookup r t) as (r' & Hr' & Hrest). rewrite Hx in Hr'. injection Hr' as <-.
    rewrite Ho in Hrest. destruct Hrest as (_ & _ & Hr & _). congruence.
  - unfold put_signature in Hx. rewrite lookup_partial_alter_ne in Hx by done.
    apply Hkeys in Hx. congruence.
Qed.

(** ** A small cryptographic library for the witnesses *)

Fixpoint bits (p : positive) : str :=
  match p with
  | xH => []
  | xO p => ("0" : ascii) :: bits p
  | xI p => ("1" : ascii) :: bits p
  end.

Fixpoint unbits (s : str) : positive :=
  match s with
  | [] => xH
  | c :: s => if byte_eqb c "1" then xI (unbits s) else xO (unbits s)
  end.

Lemma unbits_bits p : unbits (bits p) = p.
Proof. induction p; cbn; [by rewrite IHp..|done]. Qed.

Definition text_fields (v : json) : list (str * str) :=
  match v with
  | JObject fs => omap (fun kv => (fun s => (kv.1, s)) <$> as_str kv.2) fs
  | _ => []
  end.

Definition padded (s : str) : str := take 64 (s ++ repeat ("0" : ascii) 64).

Definition demo_crypto : CryptoLib :=
  mkCryptoLib
    (fun s => (fun fs : list (str * str) => JObject (map (fun kv => (kv.1, JString kv.2)) fs)) <$> decode (unbits s))
    (fun v => bits (encode (text_fields v))) (fun s => s) Some (fun seed => seed) (fun k => Ok k)
    (fun seed m => padded (seed ++ m)) (fun vk m sig => str_eqb sig (padded (vk ++ m))).

#[local] Instance demo_codec : CodecLaws demo_crypto.
Proof.
  split; [|done]. intros fs. cbn. rewrite unbits_bits, decode_encode. cbn. do 3 f_equal.
  induction fs as [|[k v] fs IH]; [done|]. cbn. by rewrite IH.
Qed.

#[local] Instance demo_ed25519 : Ed25519Laws demo_crypto.
Proof.
  split; intros; cbn; [apply str_eqb_refl|]. unfold padded. rewrite length_take, length_app, repeat_length. lia.
Qed.

(** A key pair is its PEM text; a signature is the text before the message. *)
Definition demo_sigstore : SigstoreLib :=
  mkSigstoreLib unit str str str tt tt tt tt (fun _ => "ED25519") (fun _ => Some tt) Ok (fun _ => Ed25519Pair)
    (fun kp _ => Ok kp) (fun kp m => Ok (kp ++ m)) (fun pem _ => Ok pem) (fun kp _ => Ok kp)
    (fun vk sig m => str_eqb sig (vk ++ m)).

Definition demo_material : KeyMaterial := mkKeyMaterial "k" (Some ("pem" : str)) None (Some ("seed" : str)) None.
Definition demo_keys : KeyProvider := memory_resolve (memory_insert demo_material ∅).

Definition demo_envelope (d : str) : CosignEnvelope :=
  mkCosignEnvelope d "k" "payload" "pempayload" "ED25519".
Definition demo_artifact (d : str) : SignatureArtifact :=
  mkSignatureArtifact MEDIA_TYPE_COSIGN_ENVELOPE_V1 (to_vec demo_crypto (cosign_value (demo_envelope d))) "k" "cosign-key".

Lemma demo_attests d p : accepts_key p "k" ->
  sigstore_attests demo_crypto demo_sigstore demo_keys d p (demo_artifact d) "k".
Proof.
  intros Hk. exists (demo_envelope d), demo_material, "pem", "payload", "pempayload".
  split; [done|]. split; [apply cosign_decodes, _|]. by split_and!.
Qed.

Lemma signature_verification_witness :
  exists o, sigstore_verify demo_crypto demo_sigstore demo_keys "sha256:a" [demo_artifact "sha256:a"]
              (require_keys "p" "prod" ["k" : str]) = Ok o /\ trusted o = true.
Proof.
  refine (proj2 (proj1 (signature_verification demo_crypto demo_sigstore demo_keys "sha256:a"
            [demo_artifact "sha256:a"] (require_keys "p" "prod" ["k" : str]) eq_refl)) _).
  exists (demo_artifact "sha256:a"), "k". split; [left|]. by apply demo_attests, accepts_required, list_elem_of_singleton.
Defined.

Lemma signature_replay_witness :
  exists o, sigstore_verify demo_crypto demo_sigstore demo_keys "sha256:b" [demo_artifact "sha256:b"]
              (require_keys "p" "prod" ["k" : str]) = Ok o /\ trusted o = true.
Proof.
  refine (signature_replay demo_crypto demo_sigstore demo_keys "sha256:a" "sha256:b"
            (require_keys "p" "prod" ["k" : str]) (demo_artifact "sha256:a") (demo_artifact "sha256:b")
            (demo_envelope "sha256:a") eq_refl _ _ eq_refl _).
  - apply sigstore_trusted; [reflexivity|]. exists (demo_artifact "sha256:a"), "k".
    split; [left|]. by apply demo_attests, accepts_required, list_elem_of_singleton.
  - apply cosign_decodes, _.
  - apply (cosign_decodes demo_crypto (demo_envelope "sha256:b")).
Defined.

Lemma sign_verify_round_trip_witness :
  exists a o, sigstore_sign demo_crypto demo_sigstore demo_keys "sha256:a" (IdKeyed "k") = Ok a /\
    sigstore_verify demo_crypto demo_sigstore demo_keys "sha256:a" [a] (require_keys "p" "prod" ["k" : str]) = Ok o /\
    trusted o = true.
Proof.
  eexists.
  destruct (proj2 (sign_verify_round_trip demo_crypto demo_sigstore demo_keys "sha256:a" "k" "p" "prod"
                     demo_material eq_refl) "pem" "pem" _ eq_refl eq_refl
              ltac:(intros sg mm sig [= <-] [= <-]; apply str_eqb_refl) eq_refl ltac:(discriminate) eq_refl)
    as (o & Ho & Ht).
  exists o. split; [reflexivity|]. split; [exact Ho|exact Ht].
Defined.
