(* ===== verification/Admission.v ===== *)
(** * The admission gate's decisions ([crates/specton-registry/src/admission.rs])

    Admission policies and their scopes, the cache of recent decisions, the
    evaluation of the policies that apply to an image, and the tables of
    policies and decisions. *)

From S2P Require Import Prelude Json Text Orders Effects Deb Matcher Policy Auth.

Local Open Scope Z_scope.

(** ** Policies *)

Inductive OnUnknown : Type := UnknownBlock | UnknownScan | UnknownAllow.
Inductive OnTimeout : Type := TimeoutBlock | TimeoutWarn | TimeoutAllow.

Record SeverityThreshold : Type := mkSeverityThreshold {
  thr_block : BlockRules;
  thr_warn : BlockRules
}.

Record AdmissionScope : Type := mkAdmissionScope {
  adm_projects : list str;
  adm_repositories : list str
}.

Record AdmissionPolicySpec : Type := mkAdmissionPolicySpec {
  adm_scope : AdmissionScope;
  signature_required : bool;
  severity_threshold : SeverityThreshold;
  on_unknown : OnUnknown;
  on_timeout : OnTimeout;
  scan_wait_secs : Z
}.

Definition no_rules : BlockRules := mkBlockRules None None None None.

Definition default_scan_wait : Z := 5.

Record AdmissionPolicy : Type := mkAdmissionPolicy {
  adm_id : str;
  adm_name : str;
  adm_tenant : str;
  adm_spec : AdmissionPolicySpec;
  adm_enabled : bool;
  adm_updated_at : Z
}.

Definition glob_match (pattern value : str) : bool :=
  match strip_suffix "*" pattern with
  | Some prefix => starts_with prefix value
  | None => str_eqb pattern value
  end.

Definition matches_scope (p : AdmissionPolicy) (project repository : str) : bool :=
  let scope := adm_scope (adm_spec p) in
  (bool_decide (adm_projects scope = [])
   || existsb (fun x => str_eqb x "*" || str_eqb x project) (adm_projects scope))
  && (bool_decide (adm_repositories scope = [])
      || existsb (fun r => str_eqb r "*" || str_eqb r repository || glob_match r repository)
           (adm_repositories scope)).

Inductive AdmissionVerdict : Type :=
| Allow
| Warn (reason : str)
| Block (reason code : str).

Definition is_block (v : AdmissionVerdict) : bool :=
  match v with
  | Block _ _ => true
  | Allow | Warn _ => false
  end.

(** ** The decision cache

    Instants are nanoseconds on a monotonic clock. *)
Record CacheEntry : Type := mkCacheEntry {
  ce_verdict : AdmissionVerdict;
  ce_expires : Z
}.

Record DecisionCache : Type := mkDecisionCache {
  inner : gmap str CacheEntry;
  ttl : Z
}.

Definition new_cache (ttl_secs : Z) : DecisionCache := mkDecisionCache ∅ (Z.max ttl_secs 1 * 10 ^ 9).

Definition cache_get (now : Z) (key : str) (c : DecisionCache) : option AdmissionVerdict :=
  match inner c !! key with
  | None => None
  | Some e => if ce_expires e <=? now then None else Some (ce_verdict e)
  end.

(** The clock is read at the insertion and, if the map has grown past its
    limit, again for the pruning. *)
Definition cache_put (now prune_now : Z) (key : str) (v : AdmissionVerdict) (c : DecisionCache) :
    DecisionCache :=
  let m := <[key := mkCacheEntry v (now + ttl c)]> (inner c) in
  mkDecisionCache
    (if 10000 <? Z.of_nat (size m) then filter (fun kv => prune_now < ce_expires kv.2) m else m) (ttl c).

(** ** Evaluation *)

Record EvaluateInput : Type := mkEvaluateInput {
  in_tenant : str;
  in_project : str;
  in_repository : str;
  in_digest : str;
  bypass : bool;
  signature_ok : option bool
}.

Definition merge_verdict (a b : AdmissionVerdict) : AdmissionVerdict :=
  match a, b with
  | Block _ _, _ => a
  | _, Block _ _ => b
  | Warn _, Allow => a
  | Allow, Warn _ => b
  | _, _ => a
  end.

(** [scan] holds the findings of the scan result, if there is one. *)
Definition evaluate_one (p : AdmissionPolicy) (scan : option (list Vulnerability))
    (signature_ok : option bool) : AdmissionVerdict :=
  let unverified (reason : str) := Block ("policy " ++ adm_name p ++ reason) "MANIFEST_UNVERIFIED" in
  let signature_fault :=
    if signature_required (adm_spec p) then
      match signature_ok with
      | Some true => None
      | Some false => Some (unverified ": signature required but missing/invalid")
      | None => Some (unverified ": signature required")
      end
    else None in
  match signature_fault with
  | Some v => v
  | None =>
      match scan with
      | None =>
          match on_unknown (adm_spec p) with
          | UnknownAllow => Allow
          | UnknownScan => Warn ("policy " ++ adm_name p ++ ": no scan result; scan-on-pull deferred")
          | UnknownBlock => unverified ": no scan result for digest"
          end
      | Some vulns =>
          let block_eval := Policy.evaluate (thr_block (severity_threshold (adm_spec p))) vulns in
          match pe_status block_eval with
          | Fail =>
              unverified (": " ++ default ("severity threshold exceeded" : str) (pe_reason block_eval))
          | Pass =>
              let warn_eval := Policy.evaluate (thr_warn (severity_threshold (adm_spec p))) vulns in
              match pe_status warn_eval with
              | Fail =>
                  Warn ("policy " ++ adm_name p ++ ": "
                          ++ default ("warn threshold exceeded" : str) (pe_reason warn_eval))
              | Pass => Allow
              end
          end
      end
  end.

Definition applicable (policies : list AdmissionPolicy) (i : EvaluateInput) : list AdmissionPolicy :=
  List.filter (fun p => adm_enabled p && str_eqb (adm_tenant p) (in_tenant i)
                        && matches_scope p (in_project i) (in_repository i)) policies.

Definition cache_key (digest policy_id : str) : str := "admit:" ++ digest ++ ":" ++ policy_id.

(** The clock readings of a round: the lookup, the insertion, the pruning. *)
Record Ticks : Type := mkTicks {
  t_get : Z;
  t_put : Z;
  t_prune : Z
}.

(** The loop over the applicable policies; [n] counts the rounds. *)
Fixpoint evaluate_loop (clock : nat -> Ticks) (n : nat) (ps : list AdmissionPolicy)
    (scan : option (list Vulnerability)) (i : EvaluateInput) (worst : AdmissionVerdict)
    (c : DecisionCache) : DecisionCache * AdmissionVerdict :=
  match ps with
  | [] => (c, worst)
  | p :: ps' =>
      let key := cache_key (in_digest i) (adm_id p) in
      match cache_get (t_get (clock n)) key c with
      | Some cached => evaluate_loop clock (S n) ps' scan i (merge_verdict worst cached) c
      | None =>
          let v := evaluate_one p scan (signature_ok i) in
          evaluate_loop clock (S n) ps' scan i (merge_verdict worst v)
            (cache_put (t_put (clock n)) (t_prune (clock n)) key v c)
      end
  end.

Definition evaluate (clock : nat -> Ticks) (policies : list AdmissionPolicy)
    (scan : option (list Vulnerability)) (i : EvaluateInput) (c : DecisionCache) :
    DecisionCache * AdmissionVerdict :=
  if bypass i then (c, Allow) else evaluate_loop clock 0 (applicable policies i) scan i Allow c.

(** ** Policies as JSON *)

Definition option_value (o : option str) : json :=
  match o with
  | Some s => JString s
  | None => JNull
  end.

Definition rules_value (b : BlockRules) : json :=
  JObject [("critical" : str, option_value (b_critical b)); ("high" : str, option_value (b_high b));
           ("medium" : str, option_value (b_medium b)); ("low" : str, option_value (b_low b))].

Definition unknown_text (u : OnUnknown) : str :=
  match u with
  | UnknownBlock => "block"
  | UnknownScan => "scan"
  | UnknownAllow => "allow"
  end.

Definition timeout_text (t : OnTimeout) : str :=
  match t with
  | TimeoutBlock => "block"
  | TimeoutWarn => "warn"
  | TimeoutAllow => "allow"
  end.

Definition admission_spec_value (s : AdmissionPolicySpec) : json :=
  JObject
    [("scope" : str,
      JObject [("projects" : str, JArray (map JString (adm_projects (adm_scope s))));
               ("repositories" : str, JArray (map JString (adm_repositories (adm_scope s))))]);
     ("signature_required" : str, JBool (signature_required s));
     ("severity_threshold" : str,
      JObject [("block" : str, rules_value (thr_block (severity_threshold s)));
               ("warn" : str, rules_value (thr_warn (severity_threshold s)))]);
     ("on_unknown" : str, JString (unknown_text (on_unknown s)));
     ("on_timeout" : str, JString (timeout_text (on_timeout s)));
     ("scan_wait_secs" : str, JInt (scan_wait_secs s))].

Definition de_rules (v : json) : option BlockRules :=
  match value_struct [("critical" : str, false); ("high" : str, false); ("medium" : str, false);
                      ("low" : str, false)] v with
  | Some [c; h; m; l] =>
      match de_option as_str c, de_option as_str h, de_option as_str m, de_option as_str l with
      | Some c, Some h, Some m, Some l => Some (mkBlockRules c h m l)
      | _, _, _, _ => None
      end
  | _ => None
  end.

Definition de_threshold (v : json) : option SeverityThreshold :=
  match value_struct [("block" : str, true); ("warn" : str, true)] v with
  | Some [b; w] =>
      match de_or no_rules de_rules b, de_or no_rules de_rules w with
      | Some b, Some w => Some (mkSeverityThreshold b w)
      | _, _ => None
      end
  | _ => None
  end.

Definition de_admission_scope (v : json) : option AdmissionScope :=
  match value_struct [("projects" : str, true); ("repositories" : str, true)] v with
  | Some [ps; rs] =>
      match de_or [] (de_vec as_str) ps, de_or [] (de_vec as_str) rs with
      | Some ps, Some rs => Some (mkAdmissionScope ps rs)
      | _, _ => None
      end
  | _ => None
  end.

(** A unit variant: its name, or an object of its name with [null]. *)
Definition de_variant {A} (variants : list (str * A)) (v : json) : option A :=
  match v with
  | JString s => assoc s variants
  | JObject [(s, JNull)] => assoc s variants
  | _ => None
  end.

Definition de_unknown : json -> option OnUnknown :=
  de_variant [("block" : str, UnknownBlock); ("scan" : str, UnknownScan); ("allow" : str, UnknownAllow)].

Definition de_timeout : json -> option OnTimeout :=
  de_variant [("block" : str, TimeoutBlock); ("warn" : str, TimeoutWarn); ("allow" : str, TimeoutAllow)].

Definition de_flag (v : json) : option bool :=
  match v with
  | JBool b => Some b
  | _ => None
  end.

Definition de_admission_spec (v : json) : option AdmissionPolicySpec :=
  match value_struct [("scope" : str, true); ("signature_required" : str, true);
                      ("severity_threshold" : str, true); ("on_unknown" : str, true);
                      ("on_timeout" : str, true); ("scan_wait_secs" : str, true)] v with
  | Some [scope; sig; thr; unk; tmo; wait] =>
      match de_or (mkAdmissionScope [] []) de_admission_scope scope, de_or false de_flag sig,
            de_or (mkSeverityThreshold no_rules no_rules) de_threshold thr,
            de_or UnknownBlock de_unknown unk, de_or TimeoutBlock de_timeout tmo,
            de_or default_scan_wait as_u64 wait with
      | Some scope, Some sig, Some thr, Some unk, Some tmo, Some wait =>
          Some (mkAdmissionPolicySpec scope sig thr unk tmo wait)
      | _, _, _, _, _, _ => None
      end
  | _ => None
  end.

(** ** The tables ([PgAdmissionStore]) *)

Record AdmissionRow : Type := mkAdmissionRow {
  ar_id : str;
  ar_name : str;
  ar_tenant : str;
  ar_spec : json;
  ar_enabled : bool;
  ar_updated_at : Z
}.

Record Decision : Type := mkDecision {
  dec_digest : str;
  dec_policy : option str;
  dec_verdict : str;
  dec_reason : option str;
  dec_subject : str
}.

Record AdmissionDb : Type := mkAdmissionDb {
  policies : gmap (str * str) AdmissionRow;
  decisions : list Decision
}.

(** How the statements of a call behave: whether one fails, the texts of errors
    (a violated constraint, a document that is not a policy), the clock of the
    database and the order of an unordered query. *)
Record AdmissionQuery : Type := mkAdmissionQuery {
  adm_error : option str;
  adm_constraint : str;
  adm_spec_error : json -> str;
  db_now : Z;
  any_order : list AdmissionRow -> list AdmissionRow
}.

Section store.
Context (q : AdmissionQuery).

(** The id is the primary key, and decisions refer to it: another row must not
    have it, and a row with decisions cannot change its own. *)
Definition upsert (p : AdmissionPolicy) : M AdmissionDb RegistryError unit :=
  fun db =>
    let key := (adm_tenant p, adm_name p) in
    let clash := existsb (fun kv => negb (bool_decide (kv.1 = key)) && str_eqb (ar_id kv.2) (adm_id p))
                   (map_to_list (policies db)) in
    let referenced := match policies db !! key with
                      | Some o => negb (str_eqb (ar_id o) (adm_id p))
                                  && existsb (fun d => bool_decide (dec_policy d = Some (ar_id o)))
                                       (decisions db)
                      | None => false
                      end in
    match adm_error q with
    | Some e => (db, Err (Internal e))
    | None =>
        if clash || referenced then (db, Err (Internal (adm_constraint q)))
        else
          (mkAdmissionDb
             (<[key := mkAdmissionRow (adm_id p) (adm_name p) (adm_tenant p)
                         (admission_spec_value (adm_spec p)) (adm_enabled p) (db_now q)]> (policies db))
             (decisions db), Ok tt)
    end.

Definition enabled_rows (tenant : str) (db : AdmissionDb) : list AdmissionRow :=
  List.filter (fun r => str_eqb (ar_tenant r) tenant && ar_enabled r)
    (map snd (map_to_list (policies db))).

Fixpoint rows_to_admission (rows : list AdmissionRow) : result (list AdmissionPolicy) RegistryError :=
  match rows with
  | [] => Ok []
  | r :: rows' =>
      match de_admission_spec (ar_spec r) with
      | None => Err (Internal ("admission policy spec: " ++ adm_spec_error q (ar_spec r)))
      | Some spec =>
          match rows_to_admission rows' with
          | Err e => Err e
          | Ok ps => Ok (mkAdmissionPolicy (ar_id r) (ar_name r) (ar_tenant r) spec (ar_enabled r)
                           (ar_updated_at r) :: ps)
          end
      end
  end.

Definition list_tenant (tenant : str) : M AdmissionDb RegistryError (list AdmissionPolicy) :=
  fun db =>
    match adm_error q with
    | Some e => (db, Err (Internal e))
    | None => (db, rows_to_admission (any_order q (enabled_rows tenant db)))
    end.

(** A policy id that is no longer in the table violates the foreign key. *)
Definition record_decision (digest : str) (policy_id : option str) (v : AdmissionVerdict) (who : str) :
    M AdmissionDb RegistryError unit :=
  fun db =>
    let '(verdict, reason) :=
      match v with
      | Allow => ("allow" : str, None)
      | Warn reason => ("warn" : str, Some reason)
      | Block reason _ => ("block" : str, Some reason)
      end in
    let known := match policy_id with
                 | Some i => existsb (fun kv => str_eqb (ar_id kv.2) i) (map_to_list (policies db))
                 | None => true
                 end in
    match adm_error q with
    | Some e => (db, Err (Internal e))
    | None =>
        if known then
          (mkAdmissionDb (policies db) (decisions db ++ [mkDecision digest policy_id verdict reason who]),
           Ok tt)
        else (db, Err (Internal (adm_constraint q)))
    end.
End store.

(** The scan result store, when one is configured; an error counts as no result. *)
Definition fetch_scan (store : option (str -> result (option (list Vulnerability)) str)) (digest : str) :
    option (list Vulnerability) :=
  match store with
  | None => None
  | Some get => match get digest with
                | Ok r => r
                | Err _ => None
                end
  end.
