(* ===== verification/AdmissionProofs.v ===== *)
(** * What an admission decision shows

    The verdict of the evaluation as the most severe of the applicable
    policies' verdicts, cached or fresh; when a policy refuses an image; the
    policy table; and what the cache carries over between decisions. *)

From S2P Require Import Prelude Json Text Orders Effects Deb Matcher Policy Auth Admission.

Local Open Scope Z_scope.

(** ** Verdicts *)

Definition rank (v : AdmissionVerdict) : nat :=
  match v with
  | Allow => 0
  | Warn _ => 1
  | Block _ _ => 2
  end.

Lemma merge_rank a b : rank (merge_verdict a b) = Nat.max (rank a) (rank b).
Proof. by destruct a, b. Qed.

Lemma merge_first a b : rank a = rank b -> merge_verdict a b = a.
Proof. by destruct a, b. Qed.

Lemma is_block_rank v : is_block v = true <-> rank v = 2%nat.
Proof. by destruct v. Qed.

Lemma rank_allow v : rank v = 0%nat <-> v = Allow.
Proof. by destruct v. Qed.

(** The most severe of a list of verdicts, the first of them among equals. *)
Definition worst_of (vs : list AdmissionVerdict) : AdmissionVerdict := foldl merge_verdict Allow vs.

Lemma fold_rank vs a : forall n,
  (n <= rank (foldl merge_verdict a vs))%nat <-> (n <= rank a)%nat \/ exists v, v ∈ vs /\ (n <= rank v)%nat.
Proof.
  revert a. induction vs as [|b vs IH]; intros a n; cbn.
  - split; [auto|]. intros [H|(v & Hv & _)]; [done|]. by apply not_elem_of_nil in Hv.
  - rewrite IH, merge_rank. split.
    + intros [H|(v & Hv & Hn)]; [|right; exists v; split; [by right|done]].
      destruct (Nat.max_spec (rank a) (rank b)) as [[_ Hm]|[_ Hm]]; rewrite Hm in H; [|by left].
      right. exists b. split; [left|done].
    + intros [H|(v & [->|Hv]%elem_of_cons & Hn)]; [left; lia|left; lia|right; eauto].
Qed.

Lemma worst_block vs : is_block (worst_of vs) = true <-> exists v, v ∈ vs /\ is_block v = true.
Proof.
  rewrite is_block_rank. unfold worst_of. pose proof (fold_rank vs Allow 2) as H. cbn in H.
  assert (Hle : forall v, (rank v <= 2)%nat) by (intros []; cbn; lia).
  pose proof (Hle (foldl merge_verdict Allow vs)). split.
  - intros E. destruct (proj1 H) as [?|(v & Hv & Hr)]; [lia|lia|]. exists v. split; [done|].
    apply is_block_rank. pose proof (Hle v). lia.
  - intros (v & Hv & Hr%is_block_rank). enough (2 <= rank (foldl merge_verdict Allow vs))%nat by lia.
    apply H. right. exists v. split; [done|lia].
Qed.

Lemma worst_allow vs : worst_of vs = Allow <-> forall v, v ∈ vs -> v = Allow.
Proof.
  rewrite <- rank_allow. unfold worst_of. pose proof (fold_rank vs Allow 1) as H. cbn in H. split.
  - intros E v Hv. apply rank_allow. destruct (decide (1 <= rank v)%nat); [|lia].
    assert (1 <= rank (foldl merge_verdict Allow vs))%nat by (apply H; eauto). lia.
  - intros Hall. destruct (decide (1 <= rank (foldl merge_verdict Allow vs))%nat) as [Hr|]; [|lia].
    apply H in Hr as [?|(v & Hv & Hr)]; [lia|]. rewrite (Hall v Hv) in Hr. cbn in Hr. lia.
Qed.

(** ** When a policy refuses an image *)

Definition refuses (p : AdmissionPolicy) (scan : option (list Vulnerability)) (sig : option bool) : Prop :=
  (signature_required (adm_spec p) = true /\ sig <> Some true) \/
  match scan with
  | None => on_unknown (adm_spec p) = UnknownBlock
  | Some vulns => pe_status (Policy.evaluate (thr_block (severity_threshold (adm_spec p))) vulns) = Fail
  end.

(** The verdict once the signature is settled. *)
Lemma scan_verdict_block p scan : is_block (evaluate_one p scan (Some true)) = true <->
  match scan with
  | None => on_unknown (adm_spec p) = UnknownBlock
  | Some vulns => pe_status (Policy.evaluate (thr_block (severity_threshold (adm_spec p))) vulns) = Fail
  end.
Proof.
  unfold evaluate_one. destruct (signature_required (adm_spec p)); cbv iota;
    (destruct scan as [vulns|];
     [destruct (pe_status (Policy.evaluate (thr_block _) vulns));
        [destruct (pe_status (Policy.evaluate (thr_warn _) vulns))|]
     |destruct (on_unknown (adm_spec p))]); cbn; split; congruence.
Qed.

Lemma unsigned_verdict p scan sig : signature_required (adm_spec p) = false ->
  evaluate_one p scan sig = evaluate_one p scan (Some true).
Proof. intros H. unfold evaluate_one. by rewrite H. Qed.

Lemma evaluate_one_block p scan sig : is_block (evaluate_one p scan sig) = true <-> refuses p scan sig.
Proof.
  unfold refuses. rewrite <- scan_verdict_block. destruct (signature_required (adm_spec p)) eqn:Hr.
  - destruct (decide (sig = Some true)) as [->|Hs].
    + split; [by right|]. by intros [[_ []]|].
    + split; [by left|]. intros _. unfold evaluate_one. rewrite Hr. by destruct sig as [[]|].
  - rewrite (unsigned_verdict p scan sig Hr). split; [by right|]. by intros [[]|].
Qed.

(** ** The cache *)

Lemma cache_key_inj d i i' : cache_key d i = cache_key d i' -> i = i'.
Proof. unfold cache_key. by intros H%app_inv_head%app_inv_head%app_inv_head. Qed.

Lemma prune_lookup (m : gmap str CacheEntry) t prune key :
  prune <= t ->
  match filter (fun kv => prune < ce_expires kv.2) m !! key with
  | Some e => m !! key = Some e
  | None => forall e, m !! key = Some e -> ce_expires e <= t
  end.
Proof.
  intros Ht. destruct (filter _ m !! key) as [e|] eqn:E.
  - by apply map_lookup_filter_Some in E as [E _].
  - intros e He. apply map_lookup_filter_None in E as [E|E]; [congruence|].
    specialize (E e He). cbn in E. lia.
Qed.

Lemma cache_get_put_ne t now prune key key' v c : key <> key' -> prune <= t ->
  cache_get t key (cache_put now prune key' v c) = cache_get t key c.
Proof.
  intros Hne Ht. unfold cache_get, cache_put. cbn [inner]. destruct (10000 <? _).
  - pose proof (prune_lookup (<[key' := mkCacheEntry v (now + ttl c)]> (inner c)) t prune key Ht) as Hl.
    destruct (filter _ _ !! key) as [e|] eqn:E; rewrite lookup_insert_ne in Hl by done; [by rewrite Hl|].
    destruct (inner c !! key) as [e|]; [|done]. specialize (Hl e eq_refl).
    by rewrite (proj2 (Z.leb_le _ _) Hl).
  - by rewrite lookup_insert_ne by done.
Qed.

Lemma cache_get_put_eq t now prune key v c : prune < now + ttl c -> t < now + ttl c ->
  cache_get t key (cache_put now prune key v c) = Some v.
Proof.
  intros Hp Ht. unfold cache_get, cache_put. cbn [inner].
  assert (Hl : <[key := mkCacheEntry v (now + ttl c)]> (inner c) !! key = Some (mkCacheEntry v (now + ttl c)))
    by apply lookup_insert_eq.
  assert (Hf : filter (fun kv => prune < ce_expires kv.2) (<[key := mkCacheEntry v (now + ttl c)]> (inner c))
                 !! key = Some (mkCacheEntry v (now + ttl c))) by (by apply map_lookup_filter_Some).
  destruct (_ <? _); rewrite ?Hf, ?Hl; cbn; destruct (Z.leb_spec (now + ttl c) t); [lia|done|lia|done].
Qed.

(** ** The evaluation *)

(** The verdict of a policy in round [n]: the cached one while it lives. *)
Definition effective (clock : nat -> Ticks) (scan : option (list Vulnerability)) (i : EvaluateInput)
    (c : DecisionCache) (n : nat) (p : AdmissionPolicy) : AdmissionVerdict :=
  match cache_get (t_get (clock n)) (cache_key (in_digest i) (adm_id p)) c with
  | Some v => v
  | None => evaluate_one p scan (signature_ok i)
  end.

(** A later round does not read the clock earlier. *)
Definition forward (clock : nat -> Ticks) : Prop :=
  forall m n, (m < n)%nat -> t_prune (clock m) <= t_get (clock n).

Lemma evaluate_loop_worst clock ps scan i : forward clock ->
  forall n worst c, NoDup (map adm_id ps) ->
  snd (evaluate_loop clock n ps scan i worst c)
  = foldl merge_verdict worst (imap (fun k => effective clock scan i c (n + k)) ps).
Proof.
  intros Hf. induction ps as [|p ps IH]; intros n worst c Hnd; [done|]. cbn.
  apply NoDup_cons in Hnd as [Hp Hnd]. rewrite Nat.add_0_r. unfold effective at 1.
  destruct (cache_get (t_get (clock n)) _ c) as [v|] eqn:E; rewrite IH by done; f_equal;
    apply imap_ext; intros k q Hq; cbn; rewrite Nat.add_succ_r; [done|].
  unfold effective. rewrite cache_get_put_ne; [done| |apply Hf; lia].
  intros Heq%cache_key_inj. apply Hp. rewrite <- Heq. apply list_elem_of_fmap.
  exists q. split; [done|]. by eapply list_elem_of_lookup_2.
Qed.

Lemma elem_of_imap_effective clock scan i c ps v :
  v ∈ imap (effective clock scan i c) ps <->
  exists n p, ps !! n = Some p /\ v = effective clock scan i c n p.
Proof.
  rewrite list_elem_of_lookup. setoid_rewrite list_lookup_imap.
  split; [intros (n & H)|intros (n & p & Hp & ->)].
  - destruct (ps !! n) as [p|] eqn:E; [|done]. injection H as <-. eauto.
  - exists n. by rewrite Hp.
Qed.

Lemma evaluate_worst clock policies scan i c :
  forward clock -> bypass i = false -> NoDup (map adm_id (applicable policies i)) ->
  snd (evaluate clock policies scan i c) = worst_of (imap (effective clock scan i c) (applicable policies i)).
Proof. intros Hf Hb Hnd. unfold evaluate. rewrite Hb. by apply evaluate_loop_worst. Qed.

Lemma evaluate_loop_ttl clock ps scan i : forall n worst c,
  ttl (fst (evaluate_loop clock n ps scan i worst c)) = ttl c.
Proof.
  induction ps as [|p ps IH]; intros n worst c; [done|]. cbn.
  destruct (cache_get _ _ c); by rewrite IH.
Qed.

(** The evaluation refuses exactly when an applicable policy does, if no earlier
    decision about the digest is still cached. *)
Lemma evaluate_fresh clock policies scan i c :
  forward clock -> bypass i = false -> NoDup (map adm_id (applicable policies i)) ->
  (forall n p, p ∈ applicable policies i ->
     cache_get (t_get (clock n)) (cache_key (in_digest i) (adm_id p)) c = None) ->
  is_block (snd (evaluate clock policies scan i c)) = true <->
  exists p, p ∈ applicable policies i /\ refuses p scan (signature_ok i).
Proof.
  intros Hf Hb Hnd Hfresh. rewrite evaluate_worst, worst_block by done.
  setoid_rewrite elem_of_imap_effective. setoid_rewrite <- evaluate_one_block. split.
  - intros (v & (n & p & Hp & ->) & Hv). exists p. apply list_elem_of_lookup_2 in Hp. split; [done|].
    unfold effective in Hv. by rewrite Hfresh in Hv.
  - intros (p & Hp & Hv). apply list_elem_of_lookup in Hp as Hn. destruct Hn as [n Hn].
    eexists. split; [by exists n, p|]. unfold effective. by rewrite Hfresh.
Qed.

(** ** The policy table *)

Lemma option_round_trip o : de_option as_str (Some (option_value o)) = Some o.
Proof. by destruct o. Qed.

Lemma rules_round_trip b : de_rules (rules_value b) = Some b.
Proof.
  destruct b. unfold de_rules, rules_value. cbn -[str_eqb de_option]. literal_keys.
  by rewrite !option_round_trip.
Qed.

Lemma unknown_round_trip u : de_unknown (JString (unknown_text u)) = Some u.
Proof. by destruct u. Qed.

Lemma timeout_round_trip t : de_timeout (JString (timeout_text t)) = Some t.
Proof. by destruct t. Qed.

Lemma admission_spec_round_trip s : 0 <= scan_wait_secs s <= u64_max ->
  de_admission_spec (admission_spec_value s) = Some s.
Proof.
  destruct s as [[ps rs] sig [block warn] unk tmo wait]. intros [Hw1 Hw2].
  unfold de_admission_spec, admission_spec_value, de_admission_scope, de_threshold.
  cbn -[str_eqb de_vec de_rules rules_value de_unknown de_timeout unknown_text timeout_text as_u64].
  literal_keys. cbn [de_or de_flag value_struct map fst assoc].
  literal_keys. cbn [de_or].
  rewrite !strings_round_trip, !rules_round_trip, unknown_round_trip, timeout_round_trip.
  cbn in Hw1, Hw2. unfold as_u64.
  by rewrite (proj2 (Z.leb_le _ _) Hw1), (proj2 (Z.leb_le _ _) Hw2).
Qed.
