(* ===== verification/Registry.v ===== *)
(** * The registry's handlers ([crates/specton-registry/src/main.rs])

    The OCI distribution endpoints: manifest and blob reads, manifest push and
    delete, chunked blob uploads, tag and catalog listings, and the endpoints
    that receive replicated content.  A handler is a function of the
    application state, the request and the world: the object store, the
    refcount tables, the audit log, the tag-lifetime table, and what has been
    queued for replication, webhooks and background tasks. *)

From S2P Require Import Prelude Json Text Orders Effects Store Multipart Paths Gc AuditLog RegistryAudit.
From S2P Require Import Ephemeral Auth Utf8.

Local Open Scope Z_scope.

(** ** Replication events ([specton-replication/src/event.rs]) *)

Inductive ReplicationEventType : Type := ManifestPush | BlobPush | ManifestDelete.

Record ReplicationEvent : Type := mkReplicationEvent {
  re_id : str;
  re_type : ReplicationEventType;
  re_tenant : str;
  re_project : str;
  re_repo : str;
  re_reference : str;
  re_digest : str;
  re_size : Z;
  re_timestamp : Z;
  re_region : str
}.

(** ** Webhook payloads ([webhook.rs]) *)

Record WebhookPayload : Type := mkWebhookPayload {
  wh_id : str;
  wh_event : str;
  wh_timestamp : Z;
  wh_tenant : str;
  wh_project : str;
  wh_repository : str;
  wh_reference : str;
  wh_digest : str;
  wh_size : Z;
  wh_region : option str
}.

(** ** Background tasks spawned by the handlers *)

Inductive UsageOp : Type := OpPull | OpPush | OpManifestGet | OpManifestPut | OpDelete.

Inductive task : Type :=
| TUsage (at_time : Z) (tenant project repository : str) (op : UsageOp) (bytes status : Z) (who : str)
| TScan (id digest tenant project repository reference : str) (enqueued_at : Z)
| TValidate (media_type body digest : str)
| TLineage (tenant project repository config_digest child_digest : str)
| TLazyIndex (layer_digest format tenant project repository : str).

(** A row of [tags], keyed by tenant, project, repository and tag. *)
Record TagRow : Type := mkTagRow {
  tag_digest : str;
  pushed_by : str;
  pushed_at : Z;
  expires_at : Z
}.

Record Registry (W A : Type) : Type := mkRegistry {
  store : W;
  gc_db : Db;
  audit_log : RegistryAuditLog A;
  tags : gmap (str * str * str * str) TagRow;
  replication : list ReplicationEvent;
  webhooks : list WebhookPayload;
  tasks : list task
}.
Arguments mkRegistry {W A}.
Arguments store {W A}.
Arguments gc_db {W A}.
Arguments audit_log {W A}.
Arguments tags {W A}.
Arguments replication {W A}.
Arguments webhooks {W A}.
Arguments tasks {W A}.

(** A handler returns an error, or panics on an [unwrap]. *)
Inductive failure : Type :=
| Fail (e : RegistryError)
| Panic.

Inductive response_body : Type :=
| NoBody
| Bytes (b : str)
| TagListBody (name : str) (tags : list str)
| CatalogBody (repositories : list str).

Record Response : Type := mkResponse {
  resp_status : Z;
  resp_headers : list (str * str);
  resp_body : response_body
}.

(** ** Library functions the handlers call *)

Record Libraries : Type := mkLibraries {
  store_path : str -> str;
  sha256_hex : str -> str;
  parse_json : str -> option json;
  json_error : str -> str;
  header_ok : str -> bool;
  store_display : StoreError -> str;
  audit_display : AuditError -> str;
  part_order : nat -> list nat;
  rfc3339 : str -> option Z;
  to_rfc3339 : Z -> str;
  max_utc : Z;
  parse_artifact : str -> option (str * str * str);
  parse_envelope : str -> option str
}.

(** What differs from one run of a handler to the next: the clock, fresh
    identifiers, the sampling draw, and which database statements and queue
    sends fail. *)
Record Request : Type := mkRequest {
  now : Z;
  elapsed_ms : Z;
  fresh_id : str;
  sampled : bool;
  refs_refused : option str;
  ttl_refused : bool;
  queue_closed : bool;
  hooks_closed : bool
}.

Inductive MirrorFailure : Type :=
| NotFoundEquivalent
| OtherMirror (display : str)
| MirrorPanic.

(** Configuration, and the services behind the handlers. *)
Record AppState (W A : Type) : Type := mkAppState {
  multipart_threshold_mb : Z;
  multipart_part_size_mb : Z;
  multipart_concurrency : Z;
  signing_enabled : bool;
  admission_enabled : bool;
  gc_refcounter : bool;
  gc_pool : bool;
  artifact_registry : bool;
  scanner_queue : bool;
  lazy_format : option str;
  local_region : option str;
  webhook_handle : bool;
  mirror_manifest : option (str -> str -> str -> str -> M W MirrorFailure str);
  mirror_blob : option (str -> str -> str -> str -> M W MirrorFailure str);
  failover_manager : option (bool * (str -> option (Z * str)));
  enforce_pull_signature_policy :
    str -> str -> str -> str -> str -> M (Registry W A) failure unit;
  enforce_admission :
    TokenClaims -> str -> str -> str -> str -> M (Registry W A) failure unit;
  register_signature_metadata :
    str -> str -> str -> str -> str -> str -> Z -> option str -> str -> str -> str ->
    M (Registry W A) str unit
}.
Arguments mkAppState {W A}.
Arguments multipart_threshold_mb {W A}.
Arguments multipart_part_size_mb {W A}.
Arguments multipart_concurrency {W A}.
Arguments signing_enabled {W A}.
Arguments admission_enabled {W A}.
Arguments gc_refcounter {W A}.
Arguments gc_pool {W A}.
Arguments artifact_registry {W A}.
Arguments scanner_queue {W A}.
Arguments lazy_format {W A}.
Arguments local_region {W A}.
Arguments webhook_handle {W A}.
Arguments mirror_manifest {W A}.
Arguments mirror_blob {W A}.
Arguments failover_manager {W A}.
Arguments enforce_pull_signature_policy {W A}.
Arguments enforce_admission {W A}.
Arguments register_signature_metadata {W A}.

Record RepoPath : Type := mkRepoPath {
  tenant : str;
  project : str;
  name : str
}.

Record PaginationQuery : Type := mkPaginationQuery {
  page_n : option nat;
  page_last : option str
}.

(** ** Cosign tags ([specton-signing/src/store.rs]) *)

Definition subject_digest_from_sig_tag (tag : str) : option str :=
  match strip_suffix ".sig" tag with
  | None => None
  | Some rest =>
      match strip_prefix "sha256-" rest with
      | None => None
      | Some hex =>
          if negb (non_empty hex) || negb (forallb is_ascii_hexdigit hex) then None
          else Some ("sha256:" ++ hex)
      end
  end.

Definition is_cosign_sig_tag (tag : str) : bool :=
  match subject_digest_from_sig_tag tag with
  | Some _ => true
  | None => false
  end.

Definition is_store_not_found (e : StoreError) : bool :=
  match e with
  | NotFound _ => true
  | AlreadyExists _ | Generic _ _ => false
  end.

Definition failover_read (failover : option (bool * (str -> option (Z * str)))) (path : str) :
    option str :=
  match failover with
  | None => None
  | Some (is_local_primary, proxy_get) =>
      if is_local_primary then None
      else match proxy_get path with
           | Some (status, body) => if (200 <=? status) && (status <? 300) then Some body else None
           | None => None
           end
  end.

(** ** Sorting and pagination *)

(** [a <= b] on strings *)
Definition str_leb (a b : str) : bool :=
  match bytes_cmp a b with
  | Gt => false
  | _ => true
  end.

Definition str_le (a b : str) : Prop := str_leb a b = true.

#[global] Instance str_le_dec : RelDecision str_le.
Proof. intros a b. unfold str_le. apply _. Defined.

(** [v.sort()] *)
Definition sort_strs (l : list str) : list str := merge_sort str_le l.

Fixpoint skip_while (f : str -> bool) (l : list str) : list str :=
  match l with
  | x :: l' => if f x then skip_while f l' else l
  | [] => []
  end.

Definition paginate (q : PaginationQuery) (l : list str) : list str :=
  let l := match page_last q with
           | Some last => skip_while (fun t => str_leb t last) l
           | None => l
           end in
  match page_n q with
  | Some n => take n l
  | None => l
  end.

(** The non-empty remainders of the listed paths after [prefix]. *)
Definition tags_of (prefix : str) (metas : list ObjectMeta) : list str :=
  omap (fun meta => match strip_prefix prefix (location meta) with
                    | Some [] | None => None
                    | Some tag => Some tag
                    end) metas.

(** [s.trim_end_matches('/')] *)
Fixpoint trim_end_slashes (s : str) : str :=
  match s with
  | [] => []
  | c :: s' =>
      match trim_end_slashes s' with
      | [] => if byte_is 47 c then [] else [c]
      | t => c :: t
      end
  end.

Section handlers.
Context {W A : Type} `{ObjectStore W} `{AuditSink A} (lib : Libraries) (state : AppState W A).

Abbreviation World := (Registry W A).
Abbreviation Handler := (M World failure Response).

(** ** Access to the parts of the world *)

Definition set_store (w : W) (s : World) : World :=
  mkRegistry w (gc_db s) (audit_log s) (tags s) (replication s) (webhooks s) (tasks s).

Definition set_audit_log (l : RegistryAuditLog A) (s : World) : World :=
  mkRegistry (store s) (gc_db s) l (tags s) (replication s) (webhooks s) (tasks s).

Definition in_store {E X} (m : M W E X) : M World E X :=
  fun s => let '(w, r) := m (store s) in (set_store w s, r).

(** [.map_err(|e| RegistryError::Storage(e.to_string()))?] *)
Definition storage (e : StoreError) : failure := Fail (Storage (store_display lib e)).
Definition stored {X} (m : M W StoreError X) : M World failure X := rethrow storage (in_store m).

Definition authorized (claims : TokenClaims) (p : RepoPath) (a : Action) : M World failure unit :=
  rethrow Fail (lift (authorize claims (tenant p) (project p) (name p) a)).

(** [HeaderValue::from_str(v).unwrap()] *)
Definition header (k v : str) : M World failure (str * str) :=
  if header_ok lib v then ret (k, v) else throw Panic.

Definition audit_record (rq : Request) (e : RegistryAuditEvent) : M World str unit :=
  fun s => let '(l, r) := record (audit_display lib) (sampled rq) e (audit_log s) in
           (set_audit_log l s, r).

Definition spawn (t : task) : M World failure unit :=
  modify (fun s => mkRegistry (store s) (gc_db s) (audit_log s) (tags s) (replication s)
                     (webhooks s) (tasks s ++ [t])).

(** [repl.enqueue(event).await]: [send] waits for room; a closed channel drops
    the event. *)
Definition enqueue (rq : Request) (e : ReplicationEvent) : M World failure unit :=
  when (negb (queue_closed rq))
    (modify (fun s => mkRegistry (store s) (gc_db s) (audit_log s) (tags s) (replication s ++ [e])
                        (webhooks s) (tasks s))).

(** [wh.notify(payload).await] *)
Definition notify (rq : Request) (p : WebhookPayload) : M World failure unit :=
  when (webhook_handle state && negb (hooks_closed rq))
    (modify (fun s => mkRegistry (store s) (gc_db s) (audit_log s) (tags s) (replication s)
                        (webhooks s ++ [p]) (tasks s))).

Definition replicate_event (rq : Request) (ty : ReplicationEventType) (p : RepoPath)
    (reference digest : str) (sz : Z) : M World failure unit :=
  match local_region state with
  | Some region =>
      enqueue rq (mkReplicationEvent (fresh_id rq) ty (tenant p) (project p) (name p) reference
                    digest sz (now rq) region)
  | None => ret tt
  end.

Definition webhook_event (rq : Request) (event : str) (p : RepoPath) (reference digest : str)
    (sz : Z) : M World failure unit :=
  notify rq (mkWebhookPayload (fresh_id rq) event (now rq) (tenant p) (project p) (name p) reference
               digest sz (local_region state)).

Definition record_usage (rq : Request) (p : RepoPath) (op : UsageOp) (bytes status : Z) (who : str) :
    M World failure unit :=
  spawn (TUsage (now rq) (tenant p) (project p) (name p) op bytes status who).

Definition audit_event (rq : Request) (claims : TokenClaims) (event : str) (p : RepoPath)
    (reference digest : str) (sz status : Z) : RegistryAuditEvent :=
  mkRegistryAuditEvent (now rq) event (claims_sub claims) (tenant p) (project p) (name p) reference
    digest sz status (elapsed_ms rq).

(** A write-class record: a failure is [AuditUnavailable]. *)
Definition audited (rq : Request) (e : RegistryAuditEvent) : M World failure unit :=
  rethrow (fun what => Fail (AuditUnavailable what)) (audit_record rq e).

Definition chunked_put_config : ChunkedPutConfig :=
  let MB := 1024 * 1024 in
  mkChunkedPutConfig (u64_saturating_mul (multipart_threshold_mb state) MB)
    (u64_saturating_mul (multipart_part_size_mb state) MB) (multipart_concurrency state).

(** ** References *)

Definition digest_of (data : str) : str := sha256_digest (sha256_hex lib) data.

Definition read_tag_link (p : RepoPath) (tag : str) : M World failure (option str) :=
  let path := store_path lib (tag_link_path (tenant p) (project p) (name p) tag) in
  let! r := attempt (in_store (os_get path)) in
  match r with
  | Ok bytes => ret (Some (trim (from_utf8_lossy bytes)))
  | Err e => if is_store_not_found e then ret None else throw (storage e)
  end.

(** The loop of [delete_tags_for_digest] over the listed links. *)
Fixpoint delete_links (p : RepoPath) (prefix digest : str) (links : list ObjectMeta)
    (removed : list str) : M World failure (list str) :=
  match links with
  | [] => ret removed
  | meta :: links' =>
      match strip_prefix prefix (location meta) with
      | None | Some [] => delete_links p prefix digest links' removed
      | Some tag =>
          let! link := read_tag_link p tag in
          if bool_decide (link = Some digest) then
            let! r := attempt (in_store (os_delete (location meta))) in
            match r with
            | Ok _ => delete_links p prefix digest links' (removed ++ [tag])
            | Err e => if is_store_not_found e then delete_links p prefix digest links' removed
                       else throw (storage e)
            end
          else delete_links p prefix digest links' removed
      end
  end.

Definition delete_tags_for_digest (p : RepoPath) (digest : str) : M World failure (list str) :=
  let prefix := tags_prefix (tenant p) (project p) (name p) in
  let! links := stored (os_list (Some (store_path lib prefix))) in
  delete_links p prefix digest links [].

Definition resolve_manifest_path (p : RepoPath) (reference : str) : M World failure str :=
  let normalized := match strip_prefix "sha256-" reference with
                    | Some rest => "sha256:" ++ rest
                    | None => reference
                    end in
  if starts_with "sha256:" normalized then
    ret (manifest_path (tenant p) (project p) (name p) normalized)
  else
    let path := store_path lib (tag_link_path (tenant p) (project p) (name p) reference) in
    let! bytes := rethrow (fun _ => Fail (ManifestUnknown reference)) (in_store (os_get path)) in
    match from_utf8 bytes with
    | None => throw (Fail (ManifestInvalid "tag link contains invalid UTF-8"))
    | Some digest => ret (manifest_path (tenant p) (project p) (name p) (trim digest))
    end.

Definition oci_manifest : str := "application/vnd.oci.image.manifest.v1+json".
Definition oci_index : str := "application/vnd.oci.image.index.v1+json".

Definition detect_manifest_media_type (data : str) : str :=
  match parse_json lib data with
  | None => oci_manifest
  | Some v =>
      match json_get "mediaType" v ≫= as_str with
      | Some mt => mt
      | None =>
          match json_get "schemaVersion" v ≫= as_u64 with
          | Some sv =>
              if sv =? 2 then
                match json_get "manifests" v with
                | Some _ => oci_index
                | None => oci_manifest
                end
              else oci_manifest
          | None => oci_manifest
          end
      end
  end.

(** ** Reads *)

Definition manifest_headers (data : str) : M World failure (list (str * str)) :=
  let! h1 := header "Docker-Content-Digest" (digest_of data) in
  let! h2 := header "content-type" (detect_manifest_media_type data) in
  let! h3 := header "content-length" (dec (len data)) in
  ret [h1; h2; h3].

Definition head_manifest (claims : TokenClaims) (p : RepoPath) (reference : str) : Handler :=
  do! authorized claims p Pull in
  let! path := resolve_manifest_path p reference in
  let! data := rethrow (fun e => if is_store_not_found e then Fail (ManifestUnknown reference)
                                 else storage e)
                 (in_store (os_get (store_path lib path))) in
  let! headers := manifest_headers data in
  ret (mkResponse 200 headers NoBody).

(** The pull-through mirror, then another region. *)
Definition remote_read
    (mirror : option (str -> str -> str -> str -> M W MirrorFailure str)) (p : RepoPath)
    (kind reference : str) (unknown : RegistryError) : M World failure str :=
  match mirror with
  | Some fetch =>
      rethrow (fun e => match e with
                        | NotFoundEquivalent => Fail unknown
                        | OtherMirror d => Fail (UpstreamError d)
                        | MirrorPanic => Panic
                        end)
        (in_store (fetch (tenant p) (project p) (name p) reference))
  | None =>
      match failover_read (failover_manager state)
              ("/v2/" ++ tenant p ++ "/" ++ project p ++ "/" ++ name p ++ "/" ++ kind ++ "/"
                 ++ reference) with
      | Some body => ret body
      | None => throw (Fail unknown)
      end
  end.

(** The local copy; a failed resolution or a dangling link is a miss. *)
Definition local_manifest (p : RepoPath) (reference : str) : M World failure (option str) :=
  let! resolved := attempt (resolve_manifest_path p reference) in
  match resolved with
  | Ok path =>
      let! r := attempt (in_store (os_get (store_path lib path))) in
      match r with
      | Ok data => ret (Some data)
      | Err e => if is_store_not_found e then ret None else throw (storage e)
      end
  | Err _ => ret None
  end.

Definition get_manifest (rq : Request) (claims : TokenClaims) (p : RepoPath) (reference : str) :
    Handler :=
  do! authorized claims p Pull in
  let! local := local_manifest p reference in
  let! data := match local with
               | Some data => ret data
               | None => remote_read (mirror_manifest state) p "manifests" reference
                           (ManifestUnknown reference)
               end in
  let digest := digest_of data in
  do! when (signing_enabled state && negb (is_cosign_sig_tag reference))
        (enforce_pull_signature_policy state (claims_sub claims) (tenant p) (project p) (name p)
           digest) in
  do! when (admission_enabled state && negb (is_cosign_sig_tag reference))
        (enforce_admission state claims (tenant p) (project p) (name p) digest) in
  let! headers := manifest_headers data in
  let! _ := attempt (audit_record rq (audit_event rq claims "manifest.pull" p reference digest
                                       (len data) 200)) in
  do! record_usage rq p OpManifestGet (len data) 200 (claims_sub claims) in
  ret (mkResponse 200
         (headers ++ [("Docker-Distribution-API-Version" : str, "registry/2.0" : str)]) (Bytes data)).

Definition head_blob (claims : TokenClaims) (p : RepoPath) (digest : str) : Handler :=
  do! authorized claims p Pull in
  let path := store_path lib (blob_path (tenant p) (project p) (name p) digest) in
  let! meta := rethrow (fun _ => Fail (BlobUnknown digest)) (in_store (os_head path)) in
  let! h1 := header "Docker-Content-Digest" digest in
  let! h2 := header "content-length" (dec (size meta)) in
  ret (mkResponse 200 [h1; h2; ("content-type" : str, "application/octet-stream" : str)] NoBody).

Definition get_blob (rq : Request) (claims : TokenClaims) (p : RepoPath) (digest : str) : Handler :=
  do! authorized claims p Pull in
  let path := store_path lib (blob_path (tenant p) (project p) (name p) digest) in
  let! r := attempt (in_store (os_get path)) in
  let! data := match r with
               | Ok data => ret data
               | Err e =>
                   if negb (is_store_not_found e) then throw (storage e)
                   else remote_read (mirror_blob state) p "blobs" digest (BlobUnknown digest)
               end in
  let! h1 := header "Docker-Content-Digest" digest in
  let! h2 := header "content-length" (dec (len data)) in
  let! _ := attempt (audit_record rq (audit_event rq claims "blob.pull" p [] digest (len data) 200)) in
  do! record_usage rq p OpPull (len data) 200 (claims_sub claims) in
  ret (mkResponse 200 [h1; h2; ("content-type" : str, "application/octet-stream" : str)] (Bytes data)).

(** ** Manifest push *)

(** The [X-SpectonCR-TTL] header of a tag push: the response header to add. *)
Definition push_ttl (rq : Request) (claims : TokenClaims) (p : RepoPath) (reference digest : str)
    (ttl_header : option str) : M World failure (list (str * str)) :=
  match ttl_header with
  | Some raw =>
      if gc_pool state then
        match parse_ttl_header (rfc3339 lib) (max_utc lib) (now rq) raw with
        | None => throw Panic
        | Some (Err _) => ret []
        | Some (Ok t) =>
            if ttl_refused rq then ret []
            else
              let row := mkTagRow digest (claims_sub claims) (now rq) t in
              let upsert (old : option TagRow) :=
                match old with
                | Some o => Some (mkTagRow digest (pushed_by o) (now rq) t)
                | None => Some row
                end in
              do! modify (fun s => mkRegistry (store s) (gc_db s) (audit_log s)
                            (partial_alter upsert (tenant p, project p, name p, reference) (tags s))
                            (replication s) (webhooks s) (tasks s)) in
              ret [("X-SpectonCR-TTL-Expires-At" : str, to_rfc3339 lib t)]
        end
      else ret []
  | None => ret []
  end.

(** Online-GC bookkeeping; a database failure is logged and ignored. *)
Definition push_refs (rq : Request) (p : RepoPath) (digest body : str) : M World failure unit :=
  match extract_blob_digests (parse_json lib) body with
  | Some blobs =>
      when (gc_refcounter state)
        (modify (fun s => mkRegistry (store s)
                   (fst (add_refs (refs_refused rq) (now rq / nanos) (tenant p) (project p) (name p)
                           digest blobs (gc_db s)))
                   (audit_log s) (tags s) (replication s) (webhooks s) (tasks s)))
  | None => ret tt
  end.

(** Artifact validation, lineage capture. *)
Definition push_tasks (p : RepoPath) (digest body : str) : M World failure unit :=
  do! when (artifact_registry state && gc_pool state)
        (spawn (TValidate (detect_manifest_media_type body) body digest)) in
  match extract_config_digest (parse_json lib) body with
  | Some config_digest =>
      when (gc_pool state) (spawn (TLineage (tenant p) (project p) (name p) config_digest digest))
  | None => ret tt
  end.

(** Signer identity, type and media type of a pushed signature. *)
Definition signature_fields (body : str) : option str * str * str :=
  match parse_artifact lib body with
  | Some (signer, ty, mt) => (Some signer, ty, mt)
  | None =>
      match parse_envelope lib body with
      | Some key_ref =>
          (Some key_ref, "cosign-key", "application/vnd.spectoncr.signing.cosign-envelope.v1+json")
      | None => (None, "cosign-key", detect_manifest_media_type body)
      end
  end.

Definition push_signature (claims : TokenClaims) (p : RepoPath) (reference digest body : str) :
    M World failure unit :=
  if signing_enabled state then
    match subject_digest_from_sig_tag reference with
    | Some subject =>
        let '(signer, ty, mt) := signature_fields body in
        let! _ := attempt (register_signature_metadata state (claims_sub claims) (tenant p)
                             (project p) (name p) subject digest (len body) signer ty mt reference) in
        ret tt
    | None => ret tt
    end
  else ret tt.

(** The extra response headers that are valid. *)
Definition extra_headers (hs : list (str * str)) : list (str * str) :=
  filter (fun h => header_ok lib h.2 = true) hs.

Definition put_manifest (rq : Request) (claims : TokenClaims) (p : RepoPath) (reference : str)
    (ttl_header : option str) (body : str) : Handler :=
  do! authorized claims p Push in
  do! match parse_json lib body with
      | Some _ => ret tt
      | None => throw (Fail (ManifestInvalid (json_error lib body)))
      end in
  let digest := digest_of body in
  do! stored (os_put (store_path lib (manifest_path (tenant p) (project p) (name p) digest)) body) in
  let! extra :=
    if negb (starts_with "sha256:" reference) then
      do! stored (os_put (store_path lib (tag_link_path (tenant p) (project p) (name p) reference))
                    digest) in
      push_ttl rq claims p reference digest ttl_header
    else ret [] in
  do! push_refs rq p digest body in
  do! push_tasks p digest body in
  do! replicate_event rq ManifestPush p reference digest (len body) in
  do! webhook_event rq "manifest.push" p reference digest (len body) in
  do! when (scanner_queue state)
        (spawn (TScan (fresh_id rq) digest (tenant p) (project p) (name p) reference (now rq))) in
  let! h1 := header "Docker-Content-Digest" digest in
  let! h2 := header "location" ("/v2/" ++ tenant p ++ "/" ++ project p ++ "/" ++ name p
                                  ++ "/manifests/" ++ digest) in
  do! audited rq (audit_event rq claims "manifest.push" p reference digest (len body) 201) in
  do! record_usage rq p OpManifestPut (len body) 201 (claims_sub claims) in
  do! push_signature claims p reference digest body in
  ret (mkResponse 201
         ([h1; h2; ("Docker-Distribution-API-Version" : str, "registry/2.0" : str)]
            ++ extra_headers extra) NoBody).

(** ** Manifest delete *)

(** The digest a reference names, and whether the reference is a tag. *)
Definition delete_target (p : RepoPath) (reference : str) : M World failure (str * bool) :=
  match strip_prefix "sha256-" reference with
  | Some hex => ret ("sha256:" ++ hex, false)
  | None =>
      if starts_with "sha256:" reference then ret (reference, false)
      else
        let! link := read_tag_link p reference in
        match link with
        | Some digest => ret (digest, true)
        | None => throw (Fail (ManifestUnknown reference))
        end
  end.

Definition remove_manifest (rq : Request) (p : RepoPath) (reference digest : str) :
    M World failure unit :=
  let! r := attempt (in_store (os_delete (store_path lib
              (manifest_path (tenant p) (project p) (name p) digest)))) in
  let! existed := match r with
                  | Ok _ => ret true
                  | Err e => if is_store_not_found e then ret false else throw (storage e)
                  end in
  let! removed := delete_tags_for_digest p digest in
  if negb existed && bool_decide (removed = []) then throw (Fail (ManifestUnknown reference))
  else
    when (gc_refcounter state)
      (modify (fun s => mkRegistry (store s)
                 (fst (remove_refs (refs_refused rq) (now rq / nanos) (tenant p) digest (gc_db s)))
                 (audit_log s) (tags s) (replication s) (webhooks s) (tasks s))).

Definition delete_manifest (rq : Request) (claims : TokenClaims) (p : RepoPath) (reference : str) :
    Handler :=
  do! authorized claims p Delete in
  let! (digest, is_tag) := delete_target p reference in
  do! if is_tag : bool then
        stored (os_delete (store_path lib (tag_link_path (tenant p) (project p) (name p) reference)))
      else remove_manifest rq p reference digest in
  do! replicate_event rq ManifestDelete p (if is_tag : bool then reference else digest) digest 0 in
  do! webhook_event rq "manifest.delete" p reference reference 0 in
  do! audited rq (audit_event rq claims "manifest.delete" p reference reference 0 202) in
  do! record_usage rq p OpDelete 0 202 (claims_sub claims) in
  ret (mkResponse 202 [] NoBody).

(** ** Blob uploads *)

Definition upload_location (p : RepoPath) (uuid : str) : str :=
  "/v2/" ++ tenant p ++ "/" ++ project p ++ "/" ++ name p ++ "/blobs/uploads/" ++ uuid.

Definition initiate_blob_upload (rq : Request) (claims : TokenClaims) (p : RepoPath) : Handler :=
  do! authorized claims p Push in
  let upload_id := fresh_id rq in
  do! stored (os_put (store_path lib (upload_path (tenant p) (project p) (name p) upload_id)) []) in
  let! h1 := header "location" (upload_location p upload_id) in
  let! h2 := header "Docker-Upload-UUID" upload_id in
  ret (mkResponse 202
         [h1; h2; ("range" : str, "0-0" : str); ("content-length" : str, "0" : str);
          ("Docker-Distribution-API-Version" : str, "registry/2.0" : str)] NoBody).

Definition upload_blob_chunk (claims : TokenClaims) (p : RepoPath) (uuid body : str) : Handler :=
  do! authorized claims p Push in
  let path := store_path lib (upload_path (tenant p) (project p) (name p) uuid) in
  let! existing := rethrow (fun _ => Fail BlobUploadInvalid) (in_store (os_get path)) in
  let combined := existing ++ body in
  do! stored (put_chunked (part_order lib) path combined chunked_put_config) in
  let! h1 := header "location" (upload_location p uuid) in
  let! h2 := header "Docker-Upload-UUID" uuid in
  let! h3 := header "range" ("0-" ++ dec (Z.max 0 (len combined - 1))) in
  ret (mkResponse 202
         [h1; h2; h3; ("content-length" : str, "0" : str);
          ("Docker-Distribution-API-Version" : str, "registry/2.0" : str)] NoBody).

Definition complete_blob_upload (rq : Request) (claims : TokenClaims) (p : RepoPath)
    (uuid : str) (digest : option str) (body : str) : Handler :=
  do! authorized claims p Push in
  let! expected := lift (ok_or digest (Fail (DigestInvalid "sha256:..." "<missing>"))) in
  let up_path := store_path lib (upload_path (tenant p) (project p) (name p) uuid) in
  let! existing := rethrow (fun _ => Fail BlobUploadInvalid) (in_store (os_get up_path)) in
  let final_data := if non_empty body then existing ++ body else existing in
  let actual := digest_of final_data in
  if negb (str_eqb actual expected) then throw (Fail (DigestInvalid expected actual))
  else
    do! stored (put_chunked (part_order lib)
                  (store_path lib (blob_path (tenant p) (project p) (name p) expected)) final_data
                  chunked_put_config) in
    let! _ := attempt (F := StoreError) (in_store (os_delete up_path)) in
    do! replicate_event rq BlobPush p expected expected (len final_data) in
    do! webhook_event rq "blob.push" p [] expected (len final_data) in
    let! h1 := header "location" ("/v2/" ++ tenant p ++ "/" ++ project p ++ "/" ++ name p
                                    ++ "/blobs/" ++ expected) in
    let! h2 := header "Docker-Content-Digest" expected in
    do! audited rq (audit_event rq claims "blob.push" p [] expected (len final_data) 201) in
    do! record_usage rq p OpPush (len final_data) 201 (claims_sub claims) in
    do! match lazy_format state with
        | Some format =>
            when (gc_pool state)
              (spawn (TLazyIndex expected format (tenant p) (project p) (name p)))
        | None => ret tt
        end in
    ret (mkResponse 201
           [h1; h2; ("content-length" : str, "0" : str);
            ("Docker-Distribution-API-Version" : str, "registry/2.0" : str)] NoBody).

(** ** Listings *)

Definition list_tags (claims : TokenClaims) (p : RepoPath) (q : PaginationQuery) : Handler :=
  do! authorized claims p Pull in
  let prefix := tags_prefix (tenant p) (project p) (name p) in
  let! metas := stored (os_list (Some (store_path lib prefix))) in
  ret (mkResponse 200 []
         (TagListBody (tenant p ++ "/" ++ project p ++ "/" ++ name p)
            (paginate q (sort_strs (tags_of prefix metas))))).

(** The repositories of each project; a project that cannot be listed is skipped. *)
Fixpoint walk_projects (projects : list str) (acc : list str) : M World failure (list str) :=
  match projects with
  | [] => ret acc
  | project_prefix :: projects' =>
      let! r := attempt (F := StoreError) (in_store (os_list_with_delimiter (Some project_prefix))) in
      let repos := match r with
                   | Ok prefixes => filter (fun n => non_empty n = true) (map trim_end_slashes prefixes)
                   | Err _ => []
                   end in
      walk_projects projects' (acc ++ repos)
  end.

Definition catalog (claims : TokenClaims) (q : PaginationQuery) : Handler :=
  let prefix := match tenant_name claims with
                | Some n => n
                | None => tenant_id claims
                end in
  let! projects := stored (os_list_with_delimiter (Some (store_path lib prefix))) in
  let! repositories := walk_projects projects [] in
  ret (mkResponse 200 [] (CatalogBody (paginate q (sort_strs repositories)))).

(** ** Content replicated from another region *)

(** A header that is present and visible ASCII. *)
Definition extract_header (headers : gmap str str) (k : str) : result str failure :=
  ok_or (headers !! k) (Fail (Internal ("missing header: " ++ k))).

Definition internal_replicate_manifest (rq : Request) (headers : gmap str str) (body : str) :
    Handler :=
  let! t := lift (extract_header headers "x-replication-tenant") in
  let! pr := lift (extract_header headers "x-replication-project") in
  let! repo := lift (extract_header headers "x-replication-repo") in
  let! reference := lift (extract_header headers "x-replication-reference") in
  let! digest := lift (extract_header headers "x-replication-digest") in
  do! stored (os_put (store_path lib (manifest_path t pr repo digest)) body) in
  do! (if negb (starts_with "sha256:" reference)
       then stored (os_put (store_path lib (tag_link_path t pr repo reference)) digest)
       else ret tt) in
  let source_region := default [] (headers !! ("x-replication-source-region" : str)) in
  do! audited rq (mkRegistryAuditEvent (now rq) "manifest.replicated"
                    ("replication:" ++ source_region) t pr repo reference digest (len body) 200 0) in
  ret (mkResponse 200 [] NoBody).

Definition internal_replicate_blob (headers : gmap str str) (body : str) : Handler :=
  let! t := lift (extract_header headers "x-replication-tenant") in
  let! pr := lift (extract_header headers "x-replication-project") in
  let! repo := lift (extract_header headers "x-replication-repo") in
  let! digest := lift (extract_header headers "x-replication-digest") in
  do! stored (put_chunked (part_order lib) (store_path lib (blob_path t pr repo digest)) body
                chunked_put_config) in
  ret (mkResponse 200 [] NoBody).

(** [event] is the deserialized body. *)
Definition internal_replicate_delete (event : result ReplicationEvent str) : Handler :=
  let! e := lift (map_err (fun d => Fail (Internal ("invalid replication event: " ++ d))) event) in
  let p := mkRepoPath (re_tenant e) (re_project e) (re_repo e) in
  do! (if starts_with "sha256:" (re_reference e) then
         let! _ := attempt (F := StoreError) (in_store (os_delete (store_path lib
                     (manifest_path (re_tenant e) (re_project e) (re_repo e) (re_digest e))))) in
         let! _ := delete_tags_for_digest p (re_digest e) in
         ret tt
       else
         let! _ := attempt (F := StoreError) (in_store (os_delete (store_path lib
                     (tag_link_path (re_tenant e) (re_project e) (re_repo e) (re_reference e))))) in
         ret tt) in
  ret (mkResponse 200 [] NoBody).

(** ** Routes *)

Inductive op : Type :=
| HeadManifest (reference : str)
| GetManifest (reference : str)
| PutManifest (reference : str) (ttl_header : option str) (body : str)
| DeleteManifest (reference : str)
| HeadBlob (digest : str)
| GetBlob (digest : str)
| InitiateUpload
| UploadChunk (uuid body : str)
| CompleteUpload (uuid : str) (digest : option str) (body : str)
| ListTags (q : PaginationQuery).

Definition op_action (o : op) : Action :=
  match o with
  | HeadManifest _ | GetManifest _ | HeadBlob _ | GetBlob _ | ListTags _ => Pull
  | PutManifest _ _ _ | InitiateUpload | UploadChunk _ _ | CompleteUpload _ _ _ => Push
  | DeleteManifest _ => Delete
  end.

Definition serve (rq : Request) (claims : TokenClaims) (p : RepoPath) (o : op) : Handler :=
  match o with
  | HeadManifest reference => head_manifest claims p reference
  | GetManifest reference => get_manifest rq claims p reference
  | PutManifest reference ttl body => put_manifest rq claims p reference ttl body
  | DeleteManifest reference => delete_manifest rq claims p reference
  | HeadBlob digest => head_blob claims p digest
  | GetBlob digest => get_blob rq claims p digest
  | InitiateUpload => initiate_blob_upload rq claims p
  | UploadChunk uuid body => upload_blob_chunk claims p uuid body
  | CompleteUpload uuid digest body => complete_blob_upload rq claims p uuid digest body
  | ListTags q => list_tags claims p q
  end.

(** A sequence of requests. *)
Definition serve_all (rs : list (Request * TokenClaims * RepoPath * op)) (s : World) : World :=
  foldl (fun s '(rq, claims, p, o) => exec (serve rq claims p o) s) s rs.
End handlers.

Definition DEFAULT_TENANT : str := "_".

(** The repository of a two-segment Docker path. *)
Definition two_segment (project name : str) : RepoPath := mkRepoPath DEFAULT_TENANT project name.
