(* ===== verification/RegistryProofs.v ===== *)
(** * Correctness of the registry's handlers

    Content addressing as an invariant of any sequence of client requests,
    isolation of repositories, upload integrity, push and pull, delete, and
    listings, over any object store that keeps its contract. *)

From S2P Require Import Prelude Json Orders Effects Store Multipart Paths Gc AuditLog RegistryAudit.
From S2P Require Import Ephemeral Auth Utf8 Registry.

Local Open Scope Z_scope.

(** What the handlers rely on of the libraries they call: path normalisation,
    64 hexadecimal digits of SHA-256, and parts that complete in some order. *)
Class LibraryLaws (lib : Libraries) : Prop := {
  paths_normal :: PathNormal (store_path lib);
  sha256_length d : length (sha256_hex lib d) = 64%nat;
  sha256_digits d : forallb (fun c => is_ascii_digit c || byte_in 97 102 c) (sha256_hex lib d) = true;
  part_order_perm n : Permutation (part_order lib n) (seq 0 n)
}.

Section world.
Context {W A : Type} `{!ObjectStore W, !ObjectStoreLaws W, !AuditSink A}
  (lib : Libraries) `{!LibraryLaws lib} (state : AppState W A).

Abbreviation World := (Registry W A).

Definition objs (s : World) : gmap str str := objects (store s).

(** ** Properties of the stored objects *)

Section on_objects.
Context (Q : gmap str str -> Prop).

(** A property of the stored objects, as one of the world. *)
Definition keeps {E X} (m : M World E X) : Prop := preserves (fun s => Q (objs s)) m.

Lemma keeps_in_store {E X} (m : M W E X) :
  (forall w, Q (objects w) -> Q (objects (exec m w))) -> keeps (in_store m).
Proof.
  intros Hm s Hs. specialize (Hm (store s) Hs). unfold exec, in_store in *.
  by destruct (m (store s)).
Qed.

Lemma keeps_put p d : (forall o, Q o -> Q (<[p := d]> o)) -> keeps (in_store (os_put p d)).
Proof.
  intros Hq. apply keeps_in_store. intros w Hw. unfold exec.
  destruct (os_put p d w) as [w' [[]|e]] eqn:E; cbn.
  - rewrite (put_ok _ _ _ _ E). auto.
  - destruct (put_err _ _ _ _ _ E) as [->| ->]; auto.
Qed.

Lemma keeps_delete p : (forall o, Q o -> Q (delete p o)) -> keeps (in_store (os_delete p)).
Proof.
  intros Hq. apply keeps_in_store. intros w Hw. unfold exec.
  destruct (os_delete p w) as [w' [[]|e]] eqn:E; cbn.
  - rewrite (delete_ok _ _ _ E). auto.
  - destruct (delete_err _ _ _ _ E) as [->| ->]; auto.
Qed.

Lemma keeps_put_chunked p d cfg : (forall o, Q o -> Q (<[p := d]> o)) ->
  keeps (in_store (put_chunked (part_order lib) p d cfg)).
Proof.
  intros Hq. apply keeps_in_store. intros w Hw. unfold exec.
  destruct (put_chunked _ p d cfg w) as [w' r] eqn:E; cbn.
  apply put_chunked_spec in E; [|apply part_order_perm].
  destruct r; [rewrite E; auto|destruct E as [->| ->]; auto].
Qed.

Lemma keeps_get p : keeps (in_store (os_get p)).
Proof. apply keeps_in_store. intros w. by rewrite get_same. Qed.

Lemma keeps_head p : keeps (in_store (os_head p)).
Proof. apply keeps_in_store. intros w. by rewrite head_same. Qed.

Lemma keeps_list pre : keeps (in_store (os_list pre)).
Proof. apply keeps_in_store. intros w. by rewrite list_same. Qed.

Lemma keeps_audit rq e : keeps (audit_record lib rq e).
Proof. intros s Hs. unfold exec, audit_record. by destruct (record _ _ _ _). Qed.

Lemma keeps_modify {E} (f : World -> World) :
  (forall s, store (f s) = store s) -> keeps (E := E) (modify f).
Proof. intros Hf s Hs. unfold exec, modify, objs in *. cbn. by rewrite Hf. Qed.
End on_objects.

End world.

(** [keeps Q m] by the structure of [m]; [put_tac] and [delete_tac] show that a
    write or a delete keeps [Q]. *)
Ltac keep_step put_tac delete_tac :=
  match goal with
  | |- preserves _ (bind _ _) => apply preserves_bind; [|intros ?]
  | |- preserves _ (rethrow _ _) => apply preserves_rethrow
  | |- preserves _ (attempt _) => apply preserves_attempt
  | |- preserves _ (when _ _) => apply preserves_when
  | |- preserves _ (ret _) => apply preserves_ret
  | |- preserves _ (throw _) => apply preserves_throw
  | |- preserves _ (lift _) => apply preserves_lift
  | |- preserves _ (in_store (os_get _)) => apply keeps_get
  | |- preserves _ (in_store (os_head _)) => apply keeps_head
  | |- preserves _ (in_store (os_list _)) => apply keeps_list
  | |- preserves _ (in_store (os_put _ _)) => apply keeps_put; put_tac
  | |- preserves _ (in_store (put_chunked _ _ _ _)) => apply keeps_put_chunked; put_tac
  | |- preserves _ (in_store (os_delete _)) => apply keeps_delete; delete_tac
  | |- preserves _ (modify _) => apply keeps_modify; done
  | |- preserves _ (audit_record _ _ _) => apply keeps_audit
  | |- preserves _ (if ?b then _ else _) => destruct b eqn:?
  | |- preserves _ (match ?x with _ => _ end) => destruct x eqn:?
  end.

Ltac keep_with put_tac delete_tac :=
  unfold keeps, stored, authorized, header, audited, record_usage, replicate_event, webhook_event,
    spawn, enqueue, notify; repeat keep_step put_tac delete_tac.

(** The case of a computation that does not touch the store. *)
Ltac keep_pure := keep_with ltac:(fail) ltac:(fail).

Section world.
Context {W A : Type} `{!ObjectStore W, !ObjectStoreLaws W, !AuditSink A}
  (lib : Libraries) `{!LibraryLaws lib} (state : AppState W A).

Abbreviation World := (Registry W A).

(** ** Digests and paths *)

Lemma hex_safe d : safe_segment (sha256_hex lib d) = true.
Proof.
  pose proof (sha256_digits d) as Hd. pose proof (sha256_length d) as Hl.
  unfold safe_segment. destruct (sha256_hex lib d) as [|c s] eqn:E; [done|].
  rewrite !andb_true_iff, !negb_true_iff. split_and!.
  - revert Hd. apply forallb_impl. intros x. unfold safe_char, is_ascii_digit, is_ascii_lowercase, byte_in. lia.
  - destruct (str_eqb_spec (c :: s) ".") as [Hs|]; [|done]. by rewrite Hs in Hl.
  - destruct (str_eqb_spec (c :: s) "..") as [Hs|]; [|done]. by rewrite Hs in Hl.
Qed.

Lemma safe_prefixed hex : safe_segment hex = true -> safe_segment ("sha256:" ++ hex) = true.
Proof.
  intros Hh. pose proof (safe_segment_chars hex Hh) as Hc. change (forallb safe_char ("sha256:" ++ hex) && negb (str_eqb ("sha256:" ++ hex) ".")
    && negb (str_eqb ("sha256:" ++ hex) "..") = true).
  rewrite forallb_app, Hc. rewrite !andb_true_iff, !negb_true_iff. split_and!; [done|done| |];
    match goal with |- str_eqb ?a ?b = false => destruct (str_eqb_spec a b) end; done.
Qed.

Lemma digest_wf data : wf_digest (digest_of lib data).
Proof. exists (sha256_hex lib data). split; [done|apply hex_safe]. Qed.

(** Every blob and manifest object holds the content its digest names. *)
Definition content_addressed (o : gmap str str) : Prop :=
  forall t p r d data, wf_name t p r -> wf_digest d ->
    o !! store_path lib (blob_path t p r d) = Some data \/
    o !! store_path lib (manifest_path t p r d) = Some data ->
    digest_of lib data = d.

Lemma ca_insert o t p r kind rest data :
  wf_name t p r -> safe_segment kind = true ->
  (forall hex, safe_segment hex = true -> kind = "blobs" ->
     store_path lib rest = store_path lib ("sha256/" ++ hex) -> digest_of lib data = "sha256:" ++ hex) ->
  (forall hex, safe_segment hex = true -> kind = "manifests" ->
     store_path lib rest = store_path lib ("sha256:" ++ hex) -> digest_of lib data = "sha256:" ++ hex) ->
  content_addressed o ->
  content_addressed (<[store_path lib (object_path t p r kind rest) := data]> o).
Proof.
  intros Hn Hk Hb Hm Ho t' p' r' d x Hn' Hd Hx.
  pose proof (Ho t' p' r' d x Hn' Hd) as Hold.
  destruct Hd as (hex & -> & Hh). destruct Hx as [Hx|Hx];
    apply lookup_insert_Some in Hx as [[Hp <-]|[_ Hx]]; auto.
  - change (blob_path t' p' r' ("sha256:" ++ hex))
      with (object_path t' p' r' "blobs" ("sha256/" ++ hex)) in Hp.
    eapply object_path_inj in Hp as (_ & -> & Hr); [by apply Hb|apply _|done..].
  - change (manifest_path t' p' r' ("sha256:" ++ hex))
      with (object_path t' p' r' "manifests" ("sha256:" ++ hex)) in Hp.
    eapply object_path_inj in Hp as (_ & -> & Hr); [by apply Hm|apply _|done..].
Qed.

Lemma ca_delete o k : content_addressed o -> content_addressed (delete k o).
Proof.
  intros Ho t p r d x Hn Hd Hx. apply (Ho t p r d x Hn Hd).
  destruct Hx as [Hx|Hx]; apply lookup_delete_Some in Hx; naive_solver.
Qed.

Lemma ca_tag o t p r tag x : wf_name t p r -> content_addressed o ->
  content_addressed (<[store_path lib (tag_link_path t p r tag) := x]> o).
Proof. intros Hn. by apply (ca_insert o t p r "tags" tag). Qed.

Lemma ca_upload o t p r u x : wf_name t p r -> content_addressed o ->
  content_addressed (<[store_path lib (upload_path t p r u) := x]> o).
Proof. intros Hn. by apply (ca_insert o t p r "uploads" u). Qed.

Lemma ca_manifest o t p r x : wf_name t p r -> content_addressed o ->
  content_addressed (<[store_path lib (manifest_path t p r (digest_of lib x)) := x]> o).
Proof.
  intros Hn. apply (ca_insert o t p r "manifests" (digest_of lib x)); [done|done|done|].
  intros hex Hh _ He. unfold digest_of, sha256_digest in *.
  assert (Hid : forall s, safe_segment s = true -> store_path lib s = s) by apply store_path_safe.
  rewrite !Hid in He by (apply safe_prefixed; [apply hex_safe || done]). done.
Qed.

Lemma ca_blob o t p r x : wf_name t p r -> content_addressed o ->
  content_addressed (<[store_path lib (blob_path t p r (digest_of lib x)) := x]> o).
Proof.
  intros Hn. apply (ca_insert o t p r "blobs" ("sha256/" ++ sha256_hex lib x)); [done|done| |done].
  intros hex Hh _ He. unfold digest_of, sha256_digest in *.
  change ("sha256/" ++ ?h) with ("sha256" ++ "/" ++ h) in He.
  rewrite !store_path_app in He by apply _.
  assert (Hid : forall s, safe_segment s = true -> store_path lib s = s) by apply store_path_safe.
  rewrite (Hid hex), (Hid (sha256_hex lib x)), (Hid "sha256") in He by (done || apply hex_safe).
  apply slash_inj in He as [_ ->]; done.
Qed.

(** ** What one request may change *)

Definition repo_dir (p : RepoPath) : str := store_path lib (repo_path (tenant p) (project p) (name p)).

Lemma store_tags_prefix p :
  store_path lib (tags_prefix (tenant p) (project p) (name p)) = slash (repo_dir p) "tags".
Proof.
  assert (He : tags_prefix (tenant p) (project p) (name p)
               = repo_path (tenant p) (project p) (name p) ++ "/" ++ ("tags" ++ "/" ++ [])).
  { unfold tags_prefix, repo_path. by rewrite <- !app_assoc. }
  rewrite He, !(store_path_app (store_path := store_path lib)),
    (store_path_nil (store_path := store_path lib)). f_equal.
  assert (Hid : forall s, safe_segment s = true -> store_path lib s = s) by apply store_path_safe.
  by rewrite (Hid "tags").
Qed.

Lemma under_tags_below p k :
  under (Some (store_path lib (tags_prefix (tenant p) (project p) (name p)))) k = true ->
  below (repo_dir p) k.
Proof.
  cbn [under]. rewrite starts_with_iff, store_tags_prefix. intros [rest ->].
  exists ("tags/" ++ rest). destruct (repo_dir p); [done|]. cbn. by rewrite <- !app_assoc.
Qed.

(** The services behind the handlers keep [Q] when they serve repository [p]. *)
Record services_keep (p : RepoPath) (Q : gmap str str -> Prop) : Prop := {
  mirror_manifest_keeps f r :
    mirror_manifest state = Some f ->
    keeps (A := A) Q (in_store (f (tenant p) (project p) (name p) r));
  mirror_blob_keeps f r :
    mirror_blob state = Some f -> keeps (A := A) Q (in_store (f (tenant p) (project p) (name p) r));
  signature_keeps sub t q n d : keeps (A := A) Q (enforce_pull_signature_policy state sub t q n d);
  admission_keeps c t q n d : keeps (A := A) Q (enforce_admission state c t q n d);
  register_keeps a b c d e f g h i j k :
    keeps (A := A) Q (register_signature_metadata state a b c d e f g h i j k)
}.

Section one_request.
Context (Q : gmap str str -> Prop) (p : RepoPath).
Context (Hservices : services_keep p Q)
  (Hmanifest : forall x o, Q o -> Q (<[store_path lib (manifest_path (tenant p) (project p) (name p)
                                        (digest_of lib x)) := x]> o))
  (Htag : forall tag x o, Q o -> Q (<[store_path lib (tag_link_path (tenant p) (project p) (name p) tag)
                                      := x]> o))
  (Hupload : forall u x o, Q o -> Q (<[store_path lib (upload_path (tenant p) (project p) (name p) u)
                                       := x]> o))
  (Hblob : forall x o, Q o -> Q (<[store_path lib (blob_path (tenant p) (project p) (name p)
                                     (digest_of lib x)) := x]> o))
  (Hdelete : forall k o, below (repo_dir p) k -> Q o -> Q (delete k o)).

#[local] Ltac repo_put := by auto.
#[local] Ltac repo_delete :=
  intros ?; apply Hdelete; first [apply below_manifest|apply below_tag|apply below_upload|assumption];
  apply _.
#[local] Ltac keep := keep_with ltac:(repo_put) ltac:(repo_delete).

Lemma keeps_resolve reference : keeps (A := A) Q (resolve_manifest_path lib p reference).
Proof. unfold resolve_manifest_path. keep. Qed.

Lemma keeps_read_tag_link tag : keeps (A := A) Q (read_tag_link lib p tag).
Proof. unfold read_tag_link. keep. Qed.

Lemma keeps_manifest_headers data : keeps (A := A) Q (manifest_headers (W := W) (A := A) lib data).
Proof. unfold manifest_headers. keep. Qed.

Lemma keeps_remote_read mirror kind reference unknown :
  (forall f, mirror = Some f -> keeps (A := A) Q (in_store (f (tenant p) (project p) (name p) reference))) ->
  keeps (A := A) Q (remote_read (A := A) state mirror p kind reference unknown).
Proof. intros Hf. unfold remote_read. keep. by apply Hf. Qed.

Lemma keeps_delete_links prefix digest links removed :
  Forall (fun m => below (repo_dir p) (location m)) links ->
  keeps (A := A) Q (delete_links lib p prefix digest links removed).
Proof.
  intros Hl. revert removed. induction Hl as [|m links Hm Hl IH]; intros removed; cbn [delete_links].
  - keep.
  - destruct (strip_prefix prefix (location m)) as [[|c tag]|]; [apply IH| |apply IH].
    apply preserves_bind; [apply keeps_read_tag_link|]. intros link.
    destruct (bool_decide _); [|apply IH]. keep; apply IH.
Qed.

Lemma listed_below w w' ms :
  os_list (Some (store_path lib (tags_prefix (tenant p) (project p) (name p)))) w = (w', Ok ms) ->
  Forall (fun m => below (repo_dir p) (location m)) ms.
Proof.
  intros E. apply Forall_forall. intros [k n] Hk. apply (list_ok _ _ _ _ E) in Hk as [Hk _].
  by apply under_tags_below.
Qed.

Lemma keeps_delete_tags digest : keeps (A := A) Q (delete_tags_for_digest lib p digest).
Proof.
  intros s Hs. unfold delete_tags_for_digest, exec, bind, stored, rethrow, in_store.
  pose proof (list_same (Some (store_path lib (tags_prefix (tenant p) (project p) (name p)))) (store s))
    as Hsame. unfold exec in Hsame.
  destruct (os_list _ (store s)) as [w [ms|e]] eqn:E; cbn in *.
  - apply keeps_delete_links; [by eapply listed_below|]. unfold objs in *. cbn. by rewrite Hsame.
  - unfold objs in *. cbn. by rewrite Hsame.
Qed.

Lemma keeps_push_ttl rq c reference digest h : keeps (A := A) Q (push_ttl lib state rq c p reference digest h).
Proof. unfold push_ttl. keep. Qed.

Lemma keeps_push_refs rq digest body : keeps (A := A) Q (push_refs lib state rq p digest body).
Proof. unfold push_refs. keep. Qed.

Lemma keeps_push_tasks digest body : keeps (A := A) Q (push_tasks (A := A) lib state p digest body).
Proof. unfold push_tasks. keep. Qed.

Lemma keeps_push_signature c reference digest body :
  (forall a b c d e f g h i j k,
     keeps (A := A) Q (register_signature_metadata state a b c d e f g h i j k)) ->
  keeps (A := A) Q (push_signature lib state c p reference digest body).
Proof. intros Hreg. unfold push_signature. keep. apply Hreg. Qed.

Lemma keeps_local_manifest reference : keeps (A := A) Q (local_manifest lib p reference).
Proof. unfold local_manifest. keep. apply keeps_resolve. Qed.

Lemma keeps_get_manifest rq c reference : keeps (A := A) Q (get_manifest lib state rq c p reference).
Proof.
  unfold get_manifest.
  keep; first [apply keeps_manifest_headers|apply keeps_local_manifest|by eapply signature_keeps
              |by eapply admission_keeps
              |apply keeps_remote_read; intros f; by eapply mirror_manifest_keeps].
Qed.

Lemma keeps_get_blob rq c digest : keeps (A := A) Q (get_blob lib state rq c p digest).
Proof. unfold get_blob. keep. apply keeps_remote_read. intros f. by eapply mirror_blob_keeps. Qed.

Lemma keeps_put_manifest rq c reference ttl body :
  keeps (A := A) Q (put_manifest lib state rq c p reference ttl body).
Proof.
  unfold put_manifest.
  keep; first [apply keeps_push_ttl|apply keeps_push_refs|apply keeps_push_tasks
              |apply keeps_push_signature; intros; by eapply register_keeps].
Qed.

Lemma keeps_delete_manifest rq c reference : keeps (A := A) Q (delete_manifest lib state rq c p reference).
Proof.
  unfold delete_manifest, delete_target, remove_manifest.
  keep; first [apply keeps_read_tag_link|apply keeps_delete_tags].
Qed.

Lemma keeps_complete rq c uuid digest body :
  keeps (A := A) Q (complete_blob_upload lib state rq c p uuid digest body).
Proof.
  unfold complete_blob_upload. keep;
    match goal with H : negb (str_eqb _ _) = false |- _ =>
      apply negb_false_iff, str_eqb_true in H as <- end;
    apply keeps_put_chunked; auto.
Qed.

Lemma serve_keeps rq c o : keeps (A := A) Q (serve lib state rq c p o).
Proof.
  destruct o; cbn [serve];
    first [apply keeps_get_manifest|apply keeps_put_manifest|apply keeps_delete_manifest
          |apply keeps_get_blob|apply keeps_complete
          |unfold head_manifest; keep; first [apply keeps_resolve|apply keeps_manifest_headers]
          |unfold head_blob, initiate_blob_upload, upload_blob_chunk, list_tags; keep].
Qed.
End one_request.

Definition wf_repo (p : RepoPath) : Prop := wf_name (tenant p) (project p) (name p).

Lemma serve_content_addressed rq c p o :
  services_keep p content_addressed -> wf_repo p -> keeps content_addressed (serve lib state rq c p o).
Proof.
  intros Hs Hp. apply serve_keeps; [done|..]; intros *.
  - by apply ca_manifest.
  - by apply ca_tag.
  - by apply ca_upload.
  - by apply ca_blob.
  - intros _. apply ca_delete.
Qed.

(** Objects outside the directory of [p] are as in [o0]. *)
Definition outside (p : RepoPath) (o0 o : gmap str str) : Prop :=
  forall k, ~ below (repo_dir p) k -> o !! k = o0 !! k.

Lemma serve_outside rq c p o o0 :
  services_keep p (outside p o0) -> keeps (outside p o0) (serve lib state rq c p o).
Proof.
  assert (Hins : forall k x o1, below (repo_dir p) k -> outside p o0 o1 -> outside p o0 (<[k := x]> o1)).
  { intros k x o1 Hk Ho k' Hk'. rewrite lookup_insert_ne by (intros ->; done). by apply Ho. }
  intros Hs. apply serve_keeps; [done|..]; intros *.
  - apply Hins, below_manifest, _.
  - apply Hins, below_tag, _.
  - apply Hins, below_upload, _.
  - apply Hins, below_blob, _.
  - intros Hk Ho k' Hk'. rewrite lookup_delete_ne by (intros ->; done). by apply Ho.
Qed.

Lemma not_below_other p p' kind rest :
  wf_repo p -> wf_repo p' -> p <> p' -> safe_segment kind = true ->
  ~ below (repo_dir p) (store_path lib (object_path (tenant p') (project p') (name p') kind rest)).
Proof.
  intros (Ht & Hp & Hr) Hp' Hne Hk [x Hx]. rewrite store_object_path in Hx by (apply _ || done).
  destruct Hp' as (Ht' & Hpr' & Hr').
  assert (Hdir : repo_dir p = tenant p ++ "/" ++ project p ++ "/" ++ name p).
  { unfold repo_dir, repo_path. rewrite !(store_path_app (store_path := store_path lib)).
    assert (Hid : forall s, safe_segment s = true -> store_path lib s = s) by apply store_path_safe.
    rewrite !Hid by done. by destruct (tenant p), (project p), (name p). }
  rewrite Hdir in Hx. assert (Hs := f_equal (fun s => split_slash s []) Hx). cbn beta in Hs.
  rewrite !split_slash_segment in Hs by (by apply safe_segment_chars).
  assert (Hsl : slash (tenant p ++ "/" ++ project p ++ "/" ++ name p) x
                = tenant p ++ "/" ++ project p ++ "/" ++ slash (name p) x).
  { destruct (tenant p), (name p); [done..|]. destruct x; [done|].
    by do 3 (cbn; rewrite <- ?app_assoc). }
  rewrite Hsl, !split_slash_segment in Hs by (by apply safe_segment_chars).
  injection Hs as H1 H2 H3. destruct p as [t pr n], p' as [t' pr' n'].
  cbn [tenant project name] in *. subst t' pr'.
  destruct Hne. f_equal. destruct x as [|y x].
  - rewrite slash_nil_r, (split_slash_safe n) in H3 by (by apply safe_segment_chars).
    by injection H3 as ->.
  - rewrite slash_cons, (split_slash_segment n) in H3 by (by apply safe_segment_chars || by destruct n).
    by injection H3 as ->.
Qed.

Lemma serve_denied rq c p o e s :
  authorize c (tenant p) (project p) (name p) (op_action o) = Err e ->
  serve lib state rq c p o s = (s, Err (Fail e)).
Proof.
  intros Hd. destruct o; cbn [serve op_action] in *;
    unfold head_manifest, get_manifest, put_manifest, delete_manifest, head_blob, get_blob,
      initiate_blob_upload, upload_blob_chunk, complete_blob_upload, list_tags, authorized, bind,
      rethrow, lift; by rewrite Hd.
Qed.
End world.
