(* ===== verification/RegistryFlows.v ===== *)
(** * Client flows through the registry

    What sequences of requests of one client achieve: a chunked upload
    followed by a pull, a manifest push followed by a pull by tag or digest,
    deletes, listings walked page by page, and the cases in which the code
    departs from what its comments promise. *)

From S2P Require Import Prelude Json Orders Effects Store Multipart Paths Gc AuditLog RegistryAudit.
From S2P Require Import Ephemeral Auth Utf8 Registry RegistryProofs.

Local Open Scope Z_scope.

Section flows.
Context {W A : Type} `{!ObjectStore W, !ObjectStoreLaws W, !AuditSink A}
  (lib : Libraries) `{!LibraryLaws lib} (state : AppState W A).

Abbreviation World := (Registry W A).

(** ** Inversion of the handlers' steps *)

Lemma in_store_inv {E X} (m : M W E X) (s s' : World) r :
  in_store m s = (s', r) -> exists w, m (store s) = (w, r) /\ objs s' = objects w.
Proof. unfold in_store. destruct (m (store s)) as [w r']. intros [= <- <-]. eauto. Qed.

Lemma rethrow_inv {S E F X} (g : F -> E) (m : M S F X) s s' r :
  rethrow g m s = (s', r) -> exists r', m s = (s', r') /\ r = map_err g r'.
Proof. unfold rethrow. destruct (m s) as [s1 r1]. intros [= <- <-]. eauto. Qed.

Lemma rethrow_ok {S E F X} (g : F -> E) (m : M S F X) s s' x :
  rethrow g m s = (s', Ok x) -> m s = (s', Ok x).
Proof. intros ([y|e] & H & Hr)%rethrow_inv; cbn in Hr; by simplify_eq. Qed.

Lemma attempt_inv {S E F X} (m : M S F X) s s' (r : result (result X F) E) :
  attempt m s = (s', r) -> exists r', m s = (s', r') /\ r = Ok r'.
Proof. unfold attempt. destruct (m s) as [s1 r1]. intros [= <- <-]. eauto. Qed.

Lemma get_inv k (s s' : World) (r : result str StoreError) :
  in_store (os_get k) s = (s', r) ->
  objs s' = objs s /\ (forall d, r = Ok d -> objs s !! k = Some d) /\
  (forall e, r = Err e -> is_store_not_found e = true -> objs s !! k = None).
Proof.
  intros (w & E & ->)%in_store_inv. pose proof (get_same k (store s)) as Hs.
  unfold exec in Hs. rewrite E in Hs. split; [done|]. split.
  - intros d ->. by eapply get_ok.
  - intros [] -> He; try done. by eapply get_not_found.
Qed.

Lemma stored_put_ok k d (s s' : World) x :
  stored lib (os_put k d) s = (s', Ok x) -> objs s' = <[k := d]> (objs s).
Proof. intros (w & E & ->)%rethrow_ok%in_store_inv. destruct x. by apply put_ok. Qed.

Lemma stored_put_chunked_ok k d cfg (s s' : World) x :
  stored lib (put_chunked (part_order lib) k d cfg) s = (s', Ok x) -> objs s' = <[k := d]> (objs s).
Proof.
  intros (w & E & ->)%rethrow_ok%in_store_inv.
  apply put_chunked_spec in E; [done|apply part_order_perm].
Qed.

Lemma keeps_run {E X : Type} (Q : gmap str str -> Prop) (m : M World E X) s s' r :
  keeps Q m -> Q (objs s) -> m s = (s', r) -> Q (objs s').
Proof. intros Hk Hq Hm. specialize (Hk s Hq). unfold exec in Hk. by rewrite Hm in Hk. Qed.

Lemma keeps_objs {E X : Type} (m : M World E X) s s' r :
  (forall Q, keeps Q m) -> m s = (s', r) -> objs s' = objs s.
Proof. intros Hk. apply (keeps_run (fun o => o = objs s)); [apply Hk|done]. Qed.

Lemma authorized_inv c p a (s s' : World) r :
  authorized c p a s = (s', r) -> s' = s.
Proof. unfold authorized, rethrow, lift. by intros [= <- <-]. Qed.
End flows.

Tactic Notation "inv_bind" hyp(H) "as" ident(s) ident(a) ident(Hs) :=
  apply bind_ok in H as (s & a & Hs & H).

Tactic Notation "inv_step" hyp(H) "as" ident(s) ident(a) ident(Hs) :=
  apply bind_step in H as [(s & a & Hs & H)|(a & Hs & ->)].

(** The authorization step, which leaves the world as it is. *)
Ltac skip_auth H :=
  let Hs := fresh "Hs" in
  apply bind_ok in H as (? & ? & Hs & H); apply authorized_inv in Hs as ->.

Section uploads.
Context {W A : Type} `{!ObjectStore W, !ObjectStoreLaws W, !AuditSink A}
  (lib : Libraries) `{!LibraryLaws lib} (state : AppState W A) (p : RepoPath).

Abbreviation World := (Registry W A).

Definition upload_at (uuid : str) : str :=
  store_path lib (upload_path (tenant p) (project p) (name p) uuid).
Definition blob_at (digest : str) : str :=
  store_path lib (blob_path (tenant p) (project p) (name p) digest).

Lemma initiate_ok rq c (s s' : World) resp :
  initiate_blob_upload lib rq c p s = (s', Ok resp) ->
  objs s' = <[upload_at (fresh_id rq) := []]> (objs s).
Proof.
  unfold initiate_blob_upload. intros Hr. skip_auth Hr. inv_bind Hr as s1 a H1.
  apply stored_put_ok in H1. trans (objs s1); [|done]. revert Hr. apply keeps_objs. intros Q. keep_pure.
Qed.

Lemma chunk_ok c uuid body (s s' : World) resp :
  upload_blob_chunk lib state c p uuid body s = (s', Ok resp) ->
  exists existing, objs s !! upload_at uuid = Some existing /\
    objs s' = <[upload_at uuid := existing ++ body]> (objs s).
Proof.
  unfold upload_blob_chunk. intros Hr. skip_auth Hr. inv_bind Hr as s1 a H1.
  apply rethrow_ok, get_inv in H1 as (Ho & Hg & _). inv_bind Hr as s2 b H2.
  apply stored_put_chunked_ok in H2; [|apply _]. exists a. split; [by apply Hg|].
  trans (objs s2); [|by rewrite H2, Ho]. revert Hr. apply keeps_objs. intros Q. keep_pure.
Qed.

Lemma chunks_ok c uuid chunks existing (s s' : World) :
  objs s !! upload_at uuid = Some existing ->
  for_each chunks (fun b => let! _ := upload_blob_chunk lib state c p uuid b in ret tt) s = (s', Ok tt) ->
  objs s' !! upload_at uuid = Some (existing ++ concat chunks).
Proof.
  revert existing s. induction chunks as [|b chunks IH]; intros existing s He Hr; cbn [for_each] in Hr.
  - injection Hr as <-. cbn. by rewrite app_nil_r.
  - inv_bind Hr as s1 a H1. inv_bind H1 as s2 resp H2. injection H1 as <- <-.
    apply chunk_ok in H2 as (ex & Hex & Ho).
    rewrite (IH (existing ++ b) s2); [|rewrite Ho; simplify_map_eq; done|done].
    cbn. by rewrite <- app_assoc.
Qed.

Lemma upload_not_blob uuid d : wf_repo p -> wf_digest d -> upload_at uuid <> blob_at d.
Proof.
  intros Hp (hex & -> & Hh) He.
  apply (object_path_inj (store_path lib) (tenant p) (project p) (name p) "uploads" uuid
           (tenant p) (project p) (name p) "blobs" ("sha256/" ++ hex)) in He as (_ & ? & _); done.
Qed.

Lemma complete_upload_ok rq c uuid dg body (s s' : World) resp :
  wf_repo p -> complete_blob_upload lib state rq c p uuid dg body s = (s', Ok resp) ->
  exists existing, objs s !! upload_at uuid = Some existing /\
    dg = Some (digest_of lib (existing ++ body)) /\
    objs s' !! blob_at (digest_of lib (existing ++ body)) = Some (existing ++ body).
Proof.
  intros Hp. unfold complete_blob_upload. intros Hr. skip_auth Hr. inv_bind Hr as s1 d H1.
  destruct dg as [e|]; [|done]. injection H1 as <- <-. inv_bind Hr as s2 existing H2.
  apply rethrow_ok, get_inv in H2 as (Ho & Hg & _).
  assert (Hd : (if non_empty body then existing ++ body else existing) = existing ++ body).
  { destruct body; cbn; by rewrite ?app_nil_r. }
  rewrite Hd in Hr. destruct (str_eqb_spec (digest_of lib (existing ++ body)) e) as [<-|]; cbn [negb] in Hr;
    [|done].
  inv_bind Hr as s3 a H3. apply stored_put_chunked_ok in H3; [|apply _].
  exists existing. split; [by apply Hg|]. split; [done|].
  pose (Q := fun o : gmap str str => o !! blob_at (digest_of lib (existing ++ body)) = Some (existing ++ body)).
  revert Hr. apply (keeps_run Q).
  - keep_with ltac:(fail) ltac:(idtac). intros o. unfold Q. rewrite lookup_delete_ne; [done|].
    apply upload_not_blob, digest_wf; done.
  - unfold Q, blob_at. rewrite H3. by simplify_map_eq.
Qed.

Lemma get_blob_ok rq c d data (s s' : World) resp :
  objs s !! blob_at d = Some data -> get_blob lib state rq c p d s = (s', Ok resp) ->
  resp_status resp = 200 /\ resp_body resp = Bytes data.
Proof.
  intros Hd. unfold get_blob. intros Hr. skip_auth Hr. inv_bind Hr as s1 r H1.
  apply attempt_inv in H1 as (r' & H1 & [= ->]). apply get_inv in H1 as (_ & Hg & Hn).
  inv_bind Hr as s2 x H2. destruct r' as [y|e].
  - injection H2 as _ <-. specialize (Hg y eq_refl). inv_bind Hr as s3 h1 H3. inv_bind Hr as s4 h2 H4.
    inv_bind Hr as s5 u H5. inv_bind Hr as s6 v H6. injection Hr as _ <-. unfold blob_at in Hd. naive_solver.
  - destruct (is_store_not_found e) eqn:He; [|done]. specialize (Hn e eq_refl He). unfold blob_at in Hd. congruence.
Qed.

Lemma complete_mismatch rq c uuid e body existing (s : World) :
  objs s !! upload_at uuid = Some existing -> digest_of lib (existing ++ body) <> e ->
  objs (exec (complete_blob_upload lib state rq c p uuid (Some e) body) s) = objs s /\
  is_ok (eval (complete_blob_upload lib state rq c p uuid (Some e) body) s) = false.
Proof.
  intros Hu Hne. unfold exec, eval. destruct (complete_blob_upload _ _ _ _ _ _ _ _ s) as [s' r] eqn:Hr.
  cbn. revert Hr. unfold complete_blob_upload, authorized. unfold bind at 1, rethrow at 1, lift at 1.
  destruct (authorize _ _ _ _ _) as [[]|err]; cbn [map_err]; [|by intros [= <- <-]].
  unfold bind at 1. cbn [ok_or lift]. unfold lift. unfold bind at 1.
  destruct (rethrow _ (in_store (os_get _)) s) as [s1 r1] eqn:H1.
  apply rethrow_inv in H1 as (r1' & H1 & ->). apply get_inv in H1 as (Ho & Hg & _).
  destruct r1' as [x|err]; cbn [map_err]; [|intros [= <- <-]; by rewrite Ho].
  assert (x = existing) as -> by (specialize (Hg x eq_refl); unfold upload_at in Hu; congruence).
  assert (Hd : (if non_empty body then existing ++ body else existing) = existing ++ body).
  { destruct body; cbn; by rewrite ?app_nil_r. }
  rewrite Hd. destruct (str_eqb_spec (digest_of lib (existing ++ body)) e); [done|].
  cbn [negb]. unfold throw. intros [= <- <-]. by rewrite Ho.
Qed.

(** A whole upload: the session, its chunks in order, and the last bytes with
    the digest. *)
Definition upload_session (rq : Request) (c : TokenClaims) (chunks : list str) (digest : option str)
    (body : str) : M World failure Response :=
  let! _ := initiate_blob_upload lib rq c p in
  do! for_each chunks (fun b => let! _ := upload_blob_chunk lib state c p (fresh_id rq) b in ret tt) in
  complete_blob_upload lib state rq c p (fresh_id rq) digest body.

Lemma upload_session_ok rq c chunks dg body (s s' : World) resp :
  wf_repo p -> upload_session rq c chunks dg body s = (s', Ok resp) ->
  dg = Some (digest_of lib (concat chunks ++ body)) /\
  objs s' !! blob_at (digest_of lib (concat chunks ++ body)) = Some (concat chunks ++ body).
Proof.
  intros Hp Hr. unfold upload_session in Hr. inv_bind Hr as s1 a H1. apply initiate_ok in H1.
  inv_bind Hr as s2 b H2. destruct b.
  apply (chunks_ok _ _ _ []) in H2; [|rewrite H1; by simplify_map_eq].
  apply complete_upload_ok in Hr as (ex & Hex & Hd & Hb); [|done].
  rewrite H2 in Hex. injection Hex as <-. done.
Qed.
End uploads.

Section manifests.
Context {W A : Type} `{!ObjectStore W, !ObjectStoreLaws W, !AuditSink A}
  (lib : Libraries) `{!LibraryLaws lib} (state : AppState W A) (p : RepoPath).

Abbreviation World := (Registry W A).

Definition manifest_at (digest : str) : str :=
  store_path lib (manifest_path (tenant p) (project p) (name p) digest).
Definition tag_at (tag : str) : str :=
  store_path lib (tag_link_path (tenant p) (project p) (name p) tag).

(** The objects after a push of [body] under [reference]. *)
Definition pushed (reference body : str) (o : gmap str str) : gmap str str :=
  let d := digest_of lib body in
  let o := <[manifest_at d := body]> o in
  if starts_with "sha256:" reference then o else <[tag_at reference := d]> o.

(** Registering signature metadata touches the database only. *)
Definition registers_metadata : Prop :=
  forall Q a b c d e f g h i j k, keeps Q (register_signature_metadata state a b c d e f g h i j k).

Lemma authorize_err c t pr n a e : authorize c t pr n a = Err e -> exists reason, e = Forbidden reason.
Proof. unfold authorize. repeat case_match; naive_solver. Qed.

(** Outcomes a push can only have once its objects are written. *)
Definition after_write (r : result Response failure) : Prop :=
  match r with
  | Ok _ | Err Panic | Err (Fail (AuditUnavailable _)) => True
  | Err (Fail _) => False
  end.

Lemma authorized_err c a (s s' : World) e :
  authorized c p a s = (s', Err e) -> exists reason, e = Fail (Forbidden reason).
Proof.
  unfold authorized, rethrow, lift. destruct (authorize _ _ _ _ _) as [|err] eqn:E; [done|].
  intros [= _ <-]. apply authorize_err in E as [x ->]. eauto.
Qed.

Lemma stored_err {X : Type} (m : M W StoreError X) (s s' : World) e :
  stored lib m s = (s', Err e) -> exists what, e = Fail (Storage what).
Proof.
  intros ([x|err] & _ & He)%rethrow_inv; cbn in He; simplify_eq. unfold storage. eauto.
Qed.

(** The part of a push that writes objects. *)
Lemma push_objects rq c reference ttl body (s s' : World) r :
  let d := digest_of lib body in
  (if negb (starts_with "sha256:" reference) then
     do! stored lib (os_put (tag_at reference) d) in push_ttl lib state rq c p reference d ttl
   else ret []) s = (s', r) ->
  (forall what, r <> Err (Fail (Storage what))) ->
  objs s' = (if starts_with "sha256:" reference then objs s else <[tag_at reference := d]> (objs s)).
Proof.
  cbv zeta. destruct (starts_with "sha256:" reference); cbn [negb].
  - by intros [= <- _].
  - intros [(s1 & [] & H1 & H2)|(e & H1 & ->)]%bind_step Hr.
    + apply stored_put_ok in H1. rewrite <- H1. revert H2. apply keeps_objs. intros Q. apply keeps_push_ttl.
    + apply stored_err in H1 as [what ->]. by destruct (Hr what).
Qed.

Lemma put_manifest_writes rq c reference ttl body (s s' : World) r :
  registers_metadata -> put_manifest lib state rq c p reference ttl body s = (s', r) -> after_write r ->
  parse_json lib body <> None /\ objs s' = pushed reference body (objs s).
Proof.
  intros Hreg Hr Ha. unfold put_manifest in Hr. unfold pushed.
  apply bind_step in Hr as [(s1 & [] & H1 & Hr)|(e & [x ->]%authorized_err & ->)]; [|done].
  apply authorized_inv in H1 as ->. apply bind_step in Hr as [(s1 & [] & H1 & Hr)|(e & H1 & ->)].
  2: { destruct (parse_json lib body); [done|]. unfold throw in H1. by simplify_eq. }
  destruct (parse_json lib body) eqn:Ej; [|done]. injection H1 as <-. split; [done|].
  apply bind_step in Hr as [(s1 & [] & H1 & Hr)|(e & [x ->]%stored_err & ->)]; [|done].
  apply stored_put_ok in H1. unfold manifest_at. rewrite <- H1.
  apply bind_step in Hr as [(s2 & extra & H2 & Hr)|(e & H2 & ->)].
  - apply push_objects in H2; [|done]. rewrite <- H2. revert Hr. apply keeps_objs. intros Q.
    keep_pure; first [apply keeps_push_refs|apply keeps_push_tasks
                     |apply keeps_push_signature; intros; apply Hreg].
  - apply push_objects in H2; [done|]. intros what [= ->]. done.
Qed.

(** ** Reading it back *)

Lemma hex_graphic data : forallb graphic (sha256_hex lib data) = true.
Proof.
  generalize (sha256_digits (lib := lib) data). apply forallb_impl.
  intros c. unfold is_ascii_digit, graphic, byte_in. lia.
Qed.

Lemma digest_graphic data : forallb graphic (digest_of lib data) = true.
Proof. unfold digest_of, sha256_digest. rewrite forallb_app, hex_graphic. done. Qed.

Lemma trim_digest data : trim (digest_of lib data) = digest_of lib data.
Proof.
  pose proof (digest_graphic data) as Hg.
  destruct (exists_last (l := digest_of lib data) ltac:(done)) as (m & x & Hx).
  eapply (trim_graphic _ "s"%char x); [done|done|done|].
  rewrite Hx, forallb_app in Hg. cbn in Hg. rewrite !andb_true_iff in Hg. tauto.
Qed.

Lemma digest_shape data :
  strip_prefix "sha256-" (digest_of lib data) = None /\ starts_with "sha256:" (digest_of lib data) = true.
Proof. done. Qed.

Lemma digest_ascii data : forallb (fun c => byte_val c <? 128) (digest_of lib data) = true.
Proof.
  generalize (digest_graphic data). apply forallb_impl. intros c. unfold graphic, byte_in. lia.
Qed.

Lemma tag_not_manifest tag d : wf_repo p -> tag_at tag <> manifest_at d.
Proof.
  intros Hp He.
  apply (object_path_inj (store_path lib) (tenant p) (project p) (name p) "tags" tag
           (tenant p) (project p) (name p) "manifests" d) in He as (_ & ? & _); done.
Qed.

(** A reference the handlers read as a tag. *)
Definition is_tag (reference : str) : Prop :=
  starts_with "sha256:" reference = false /\ strip_prefix "sha256-" reference = None.

(** [reference] names the manifest [data] in [o]: by digest, or by a tag link
    whose text is the digest. *)
Definition names (o : gmap str str) (reference data : str) : Prop :=
  o !! manifest_at (digest_of lib data) = Some data /\
  (reference = digest_of lib data \/
   is_tag reference /\ o !! tag_at reference = Some (digest_of lib data)).

Lemma resolve_names reference data (s s' : World) r :
  names (objs s) reference data -> resolve_manifest_path lib p reference s = (s', r) ->
  objs s' = objs s /\
  (r = Ok (manifest_path (tenant p) (project p) (name p) (digest_of lib data)) \/
   r = Err (Fail (ManifestUnknown reference))).
Proof.
  intros [_ Href] Hr. split; [revert Hr; apply keeps_objs; intros Q; apply keeps_resolve|].
  unfold resolve_manifest_path in Hr. destruct Href as [->|[[Hs Hd] Ht]].
  - destruct (digest_shape data) as [H1 H2]. rewrite H1, H2 in Hr. injection Hr as _ <-. by left.
  - rewrite Hd, Hs in Hr. apply bind_step in Hr as [(s1 & x & H1 & Hr)|(e & H1 & ->)].
    + apply rethrow_ok, get_inv in H1 as (_ & Hg & _). specialize (Hg x eq_refl).
      unfold tag_at in Ht. assert (x = digest_of lib data) as -> by congruence.
      rewrite from_utf8_ascii, trim_digest in Hr by apply digest_ascii. injection Hr as _ <-. by left.
    + apply rethrow_inv in H1 as ([x|err] & _ & He); cbn in He; simplify_eq. by right.
Qed.

Lemma local_names reference data (s s' : World) x :
  names (objs s) reference data -> local_manifest lib p reference s = (s', Ok (Some x)) -> x = data.
Proof.
  intros Hn Hr. unfold local_manifest in Hr. inv_bind Hr as s1 r H1.
  apply attempt_inv in H1 as (r' & H1 & [= ->]).
  apply (resolve_names reference data) in H1 as [Ho [-> | ->]]; [|done|done].
  inv_bind Hr as s2 r H2. apply attempt_inv in H2 as (r' & H2 & [= ->]).
  apply get_inv in H2 as (_ & Hg & _). destruct r' as [y|e]; [|by case_match].
  injection Hr as _ <-. specialize (Hg y eq_refl). destruct Hn as [Hm _]. unfold manifest_at in Hm. congruence.
Qed.

(** Without a fault the local copy is found. *)
Lemma local_names_reliable healthy `{!Reliable W healthy} reference data (s : World) :
  healthy (store s) ->
  names (objs s) reference data -> eval (local_manifest lib p reference) s = Ok (Some data).
Proof.
  intros Hrel [Hm Href]. unfold eval, local_manifest, resolve_manifest_path.
  assert (Hget : forall k d (s1 : World), healthy (store s1) -> objs s1 !! k = Some d ->
            exists s2, in_store (os_get k) s1 = (s2, Ok d) /\ objs s2 = objs s1 /\ healthy (store s2)).
  { intros k d s1 Hh Hk. destruct (healthy_get (store s1) k d Hh Hk) as (w & E & Hw).
    exists (set_store w s1). assert (Hr : in_store (os_get k) s1 = (set_store w s1, Ok d))
      by (unfold in_store; by rewrite E).
    split; [done|]. split; [by apply get_inv in Hr as [? _]|done]. }
  destruct Href as [->|[[Hs Hd] Ht]].
  - destruct (digest_shape data) as [-> ->]. destruct (Hget _ _ s Hrel Hm) as (s2 & E & _).
    unfold bind, attempt, ret. unfold manifest_at in E. by rewrite E.
  - rewrite Hd, Hs. destruct (Hget _ _ s Hrel Ht) as (s2 & E & Ho & Hh).
    unfold bind, attempt, rethrow. unfold tag_at in E. rewrite E. cbn [map_err].
    rewrite from_utf8_ascii, trim_digest by apply digest_ascii. unfold ret.
    rewrite <- Ho in Hm. destruct (Hget _ _ s2 Hh Hm) as (s3 & E3 & _).
    unfold manifest_at in E3. by rewrite E3.
Qed.

Lemma manifest_headers_ok data (s s' : World) hs :
  manifest_headers lib data s = (s', Ok hs) ->
  (("Docker-Content-Digest" : str), digest_of lib data) ∈ hs.
Proof.
  unfold manifest_headers, header. intros Hr. inv_bind Hr as s1 h1 H1. inv_bind Hr as s2 h2 H2.
  inv_bind Hr as s3 h3 H3. injection Hr as _ <-.
  destruct (header_ok lib (digest_of lib data)); [|done]. injection H1 as _ <-. set_solver.
Qed.

Lemma get_manifest_names rq c reference data (s s' : World) resp :
  mirror_manifest state = None -> failover_manager state = None ->
  names (objs s) reference data -> get_manifest lib state rq c p reference s = (s', Ok resp) ->
  resp_body resp = Bytes data /\
  (("Docker-Content-Digest" : str), digest_of lib data) ∈ resp_headers resp.
Proof.
  intros Hmi Hfo Hn Hr. unfold get_manifest in Hr. skip_auth Hr. inv_bind Hr as s1 local H1.
  inv_bind Hr as s2 x H2. assert (x = data) as ->.
  { destruct local as [y|].
    - injection H2 as _ <-. by eapply local_names.
    - unfold remote_read in H2. by rewrite Hmi, Hfo in H2. }
  inv_bind Hr as s3 u3 H3. inv_bind Hr as s4 u4 H4. inv_bind Hr as s5 hs H5.
  inv_bind Hr as s6 u6 H6. inv_bind Hr as s7 u7 H7. injection Hr as _ <-. split; [done|].
  apply manifest_headers_ok in H5. cbn. set_solver.
Qed.

Lemma pushed_names reference body o :
  wf_repo p -> is_tag reference ->
  names (pushed reference body o) reference body /\
  names (pushed reference body o) (digest_of lib body) body.
Proof.
  intros Hp Htag. unfold names, pushed. rewrite (proj1 Htag).
  pose proof (tag_not_manifest reference (digest_of lib body) Hp) as Hne.
  split_and!; [by simplify_map_eq|right; split; [done|by simplify_map_eq]|by simplify_map_eq|by left].
Qed.
End manifests.

(** ** Deletes *)

Section deletes.
Context {W A : Type} `{!ObjectStore W, !ObjectStoreLaws W, !AuditSink A}
  (lib : Libraries) `{!LibraryLaws lib} (state : AppState W A) (p : RepoPath).

Abbreviation World := (Registry W A).
Abbreviation prefix := (tags_prefix (tenant p) (project p) (name p)).

(** The text of a link, as the handlers read it. *)
Definition link_text (bytes : str) : str := trim (from_utf8_lossy bytes).

Lemma tag_at_plain tag : wf_repo p -> safe_segment tag = true -> tag_at lib p tag = prefix ++ tag.
Proof.
  intros Hp Ht. unfold tag_at.
  change (tag_link_path (tenant p) (project p) (name p) tag)
    with (object_path (tenant p) (project p) (name p) "tags" tag).
  rewrite store_object_path by (apply _ || done).
  assert (Hid : forall s, safe_segment s = true -> store_path lib s = s) by apply store_path_safe.
  rewrite (Hid tag Ht). unfold tags_prefix. rewrite <- !app_assoc. by destruct tag.
Qed.

Lemma tag_listed tag : wf_repo p -> safe_segment tag = true ->
  under (Some (store_path lib prefix)) (tag_at lib p tag) = true.
Proof.
  intros Hp Ht. cbn [under]. apply starts_with_iff. exists tag. rewrite tag_at_plain by done.
  rewrite store_tags_prefix by apply _. destruct Hp as (H1 & H2 & H3).
  unfold repo_dir, repo_path, tags_prefix. rewrite !(store_path_app (store_path := store_path lib)).
  assert (Hid : forall s, safe_segment s = true -> store_path lib s = s) by apply store_path_safe.
  rewrite !Hid by done. destruct (tenant p), (project p), (name p); [done..|].
  by do 4 (cbn; rewrite <- ?app_assoc).
Qed.

Lemma delete_inv k (s s' : World) (r : result unit StoreError) :
  in_store (os_delete k) s = (s', r) ->
  (r = Ok tt -> objs s' = delete k (objs s)) /\
  (forall e, r = Err e -> objs s' = objs s \/ objs s' = delete k (objs s)) /\
  (forall e, r = Err e -> is_store_not_found e = true -> objs s' !! k = None).
Proof.
  intros (w & E & ->)%in_store_inv. split_and!.
  - intros ->. by apply delete_ok.
  - intros e ->. by eapply delete_err.
  - intros [] -> He; try done. by eapply delete_not_found.
Qed.

Lemma read_tag_link_inv tag (s s' : World) link :
  read_tag_link lib p tag s = (s', Ok link) ->
  objs s' = objs s /\ link = link_text <$> objs s !! tag_at lib p tag.
Proof.
  unfold read_tag_link. intros Hr. inv_bind Hr as s1 r H1.
  apply attempt_inv in H1 as (r' & H1 & [= ->]). apply get_inv in H1 as (Ho & Hg & Hn).
  destruct r' as [x|e].
  - injection Hr as <- <-. split; [done|]. unfold tag_at. by rewrite (Hg x eq_refl).
  - destruct (is_store_not_found e) eqn:He; [|done]. injection Hr as <- <-.
    split; [done|]. unfold tag_at. by rewrite (Hn e eq_refl He).
Qed.

(** [o'] is [o] without some links to [digest]. *)
Definition pruned (digest : str) (o o' : gmap str str) : Prop :=
  forall k, o' !! k = o !! k \/
    o' !! k = None /\ exists tag bytes, k = prefix ++ tag /\ o !! tag_at lib p tag = Some bytes /\
      link_text bytes = digest.

Lemma pruned_refl digest o : pruned digest o o.
Proof. intros k. by left. Qed.

Lemma pruned_lookup digest o o' k x : pruned digest o o' -> o' !! k = Some x -> o !! k = Some x.
Proof. intros Hp Hk. destruct (Hp k) as [<-|[Hn _]]; [done|congruence]. Qed.

Lemma pruned_trans digest o1 o2 o3 : pruned digest o1 o2 -> pruned digest o2 o3 -> pruned digest o1 o3.
Proof.
  intros H12 H23 k. destruct (H23 k) as [->|(Hn & tag & bytes & Hk & Ht & Hd)]; [apply H12|right].
  split; [done|]. exists tag, bytes. split; [done|]. split; [by eapply pruned_lookup|done].
Qed.

Lemma pruned_delete digest o tag bytes :
  o !! tag_at lib p tag = Some bytes -> link_text bytes = digest ->
  pruned digest o (delete (prefix ++ tag) o).
Proof.
  intros Ht Hd k. destruct (decide (k = prefix ++ tag)) as [->|Hne].
  - right. split; [apply lookup_delete_eq|]. eauto.
  - left. by apply lookup_delete_ne.
Qed.

(** No link at [tag] points to [digest]. *)
Definition unlinked (digest : str) (o : gmap str str) (tag : str) : Prop :=
  forall bytes, o !! tag_at lib p tag = Some bytes -> link_text bytes <> digest.

Lemma unlinked_pruned digest o o' tag : pruned digest o o' -> unlinked digest o tag -> unlinked digest o' tag.
Proof. intros Hp Hu bytes Hb. apply Hu. by eapply pruned_lookup. Qed.

(** One link that points to [digest]. *)
Lemma delete_link_step digest m tag (s s1 : World) r bytes :
  location m = prefix ++ tag -> objs s !! tag_at lib p tag = Some bytes -> link_text bytes = digest ->
  in_store (os_delete (location m)) s = (s1, r) ->
  (r = Ok tt \/ exists e, r = Err e /\ is_store_not_found e = true) ->
  pruned digest (objs s) (objs s1) /\ objs s1 !! (prefix ++ tag) = None.
Proof.
  intros Hm Hb Hd (Hok & Herr & Hnf)%delete_inv Hr. rewrite Hm in *.
  pose proof (pruned_delete digest (objs s) tag bytes Hb Hd) as Hp.
  destruct Hr as [->|(e & -> & He)].
  - rewrite (Hok eq_refl). split; [done|apply lookup_delete_eq].
  - split; [|by apply (Hnf e)]. destruct (Herr e eq_refl) as [-> | ->]; [apply pruned_refl|done].
Qed.

Lemma delete_links_spec digest links removed (s s' : World) rem :
  delete_links lib p prefix digest links removed s = (s', Ok rem) ->
  pruned digest (objs s) (objs s') /\
  forall m tag, m ∈ links -> location m = prefix ++ tag -> tag <> [] -> tag_at lib p tag = prefix ++ tag ->
    unlinked digest (objs s') tag.
Proof.
  revert removed s. induction links as [|m links IH]; intros removed s Hr; cbn [delete_links] in Hr.
  { injection Hr as <- _. split; [apply pruned_refl|set_solver]. }
  assert (Hcons : forall s1 rm, delete_links lib p prefix digest links rm s1 = (s', Ok rem) ->
            pruned digest (objs s) (objs s1) ->
            (forall tag, location m = prefix ++ tag -> tag <> [] -> tag_at lib p tag = prefix ++ tag ->
               unlinked digest (objs s1) tag) ->
            pruned digest (objs s) (objs s') /\
            forall m' tag, m' ∈ m :: links -> location m' = prefix ++ tag -> tag <> [] ->
              tag_at lib p tag = prefix ++ tag -> unlinked digest (objs s') tag).
  { intros s1 rm Hrun Hp Hm. destruct (IH rm s1 Hrun) as [Hp' Hu]. split; [by eapply pruned_trans|].
    intros m' tag [->|Hin]%elem_of_cons Hl Hne Ht; [|by eapply Hu].
    eapply unlinked_pruned; [exact Hp'|]. by apply Hm. }
  clear IH. destruct (strip_prefix prefix (location m)) as [[|c tag]|] eqn:E.
  - eapply Hcons; [exact Hr|apply pruned_refl|]. intros tag Hl Hne _. exfalso.
    apply (strip_prefix_some prefix) in Hl. congruence.
  - inv_bind Hr as s1 link H1. apply read_tag_link_inv in H1 as [Ho Hlink]. rewrite <- Ho in Hlink, Hcons |- *.
    apply strip_prefix_some in E.
    assert (Hfun : forall tag', location m = prefix ++ tag' -> tag' = c :: tag).
    { intros tag' Hl. rewrite E in Hl. by apply app_inv_head in Hl. }
    case_bool_decide as Hd.
    + inv_bind Hr as s2 r H2. apply attempt_inv in H2 as (r' & H2 & [= ->]).
      destruct (objs s1 !! tag_at lib p (c :: tag)) as [bytes|] eqn:Hb; cbn in Hlink; [|congruence].
      assert (Hstep : r' = Ok tt \/ exists e, r' = Err e /\ is_store_not_found e = true).
      { destruct r' as [[]|e]; [by left|]. destruct (is_store_not_found e) eqn:He; [|done]. eauto. }
      destruct (delete_link_step digest m (c :: tag) s1 s2 r' bytes) as [Hp Hn]; [done..|congruence|done|done|].
      assert (Hrest : exists rm, delete_links lib p prefix digest links rm s2 = (s', Ok rem)).
      { destruct r' as [|e]; [eauto|]. destruct (is_store_not_found e); [eauto|done]. }
      destruct Hrest as [rm Hrest]. eapply Hcons; [exact Hrest|done|].
      intros tag' Hl _ Ht bytes' Hb'. apply Hfun in Hl as ->. congruence.
    + eapply Hcons; [exact Hr|apply pruned_refl|]. intros tag' Hl _ _ bytes' Hb'.
      apply Hfun in Hl as ->. rewrite Hb' in Hlink. cbn in Hlink. congruence.
  - eapply Hcons; [exact Hr|apply pruned_refl|]. intros tag Hl Hne _. exfalso.
    apply (strip_prefix_some prefix) in Hl. congruence.
Qed.

Lemma delete_tags_spec digest (s s' : World) rem :
  wf_repo p -> delete_tags_for_digest lib p digest s = (s', Ok rem) ->
  pruned digest (objs s) (objs s') /\
  forall tag, safe_segment tag = true -> unlinked digest (objs s') tag.
Proof.
  intros Hp. unfold delete_tags_for_digest. intros Hr. inv_bind Hr as s1 links H1.
  apply rethrow_ok, in_store_inv in H1 as (w & H1 & Ho).
  assert (Hsame : objs s1 = objs s).
  { rewrite Ho. pose proof (list_same (Some (store_path lib prefix)) (store s)) as Hs.
    unfold exec in Hs. by rewrite H1 in Hs. }
  apply delete_links_spec in Hr as [Hpr Hu]. rewrite Hsame in Hpr. split; [done|].
  intros tag Ht bytes Hb. pose proof (tag_at_plain tag Hp Ht) as Hplain.
  pose proof (pruned_lookup _ _ _ _ _ Hpr Hb) as Hb0.
  refine (Hu (mkObjectMeta (tag_at lib p tag) (Z.of_nat (length bytes))) tag _ Hplain _ Hplain bytes Hb).
  - apply (list_ok _ _ _ _ H1). split; [by apply tag_listed|]. eauto.
  - by intros ->.
Qed.

(** The digest a reference spells out, with the dash encoding undone. *)
Definition digest_ref (reference : str) : option str :=
  match strip_prefix "sha256-" reference with
  | Some hex => Some ("sha256:" ++ hex)
  | None => if starts_with "sha256:" reference then Some reference else None
  end.

Lemma remove_manifest_ok rq reference d (s s' : World) :
  wf_repo p -> remove_manifest lib state rq p reference d s = (s', Ok tt) ->
  pruned d (delete (manifest_at lib p d) (objs s)) (objs s') /\
  forall tag, safe_segment tag = true -> unlinked d (objs s') tag.
Proof.
  intros Hp. unfold remove_manifest. intros Hr. inv_bind Hr as s1 r H1.
  apply attempt_inv in H1 as (r' & H1 & [= ->]). apply delete_inv in H1 as (Hok & Herr & Hnf).
  inv_bind Hr as s2 existed H2.
  assert (Hdel : objs s2 = delete (manifest_at lib p d) (objs s)).
  { destruct r' as [[]|e]; [injection H2 as <- _; by apply Hok|].
    destruct (is_store_not_found e) eqn:He; [|done]. injection H2 as <- _.
    specialize (Hnf e eq_refl He). destruct (Herr e eq_refl) as [Ho|Ho]; [|done].
    rewrite Ho in Hnf |- *. symmetry. by apply delete_id. }
  inv_bind Hr as s3 rem H3. apply delete_tags_spec in H3 as [Hpr Hu]; [|done]. rewrite Hdel in Hpr.
  assert (Hsame : objs s' = objs s3).
  { revert Hr. apply keeps_objs. intros Q. keep_pure. }
  by rewrite Hsame.
Qed.

Lemma delete_tail rq c reference d x (s s' : World) r :
  (do! replicate_event state rq ManifestDelete p x d 0 in
   do! webhook_event state rq "manifest.delete" p reference reference 0 in
   do! audited lib rq (audit_event rq c "manifest.delete" p reference reference 0 202) in
   do! record_usage rq p OpDelete 0 202 (claims_sub c) in
   ret (mkResponse 202 [] NoBody)) s = (s', r) -> objs s' = objs s.
Proof. apply keeps_objs. intros Q. keep_pure. Qed.

Lemma delete_by_digest_ok rq c reference d (s s' : World) resp :
  wf_repo p -> digest_ref reference = Some d ->
  delete_manifest lib state rq c p reference s = (s', Ok resp) ->
  pruned d (delete (manifest_at lib p d) (objs s)) (objs s') /\
  forall tag, safe_segment tag = true -> unlinked d (objs s') tag.
Proof.
  intros Hp Hd. unfold delete_manifest. intros Hr. skip_auth Hr. inv_bind Hr as s1 x H1.
  assert (x = (d, false) /\ s1 = s) as [-> ->].
  { unfold delete_target, ret in H1. unfold digest_ref in Hd.
    destruct (strip_prefix "sha256-" reference); [by simplify_eq|].
    destruct (starts_with "sha256:" reference); by simplify_eq. }
  cbn [fst snd] in Hr. inv_bind Hr as s2 u H2. destruct u. apply remove_manifest_ok in H2; [|done].
  apply delete_tail in Hr. by rewrite Hr.
Qed.

Lemma delete_by_tag_ok rq c reference (s s' : World) resp :
  is_tag reference -> delete_manifest lib state rq c p reference s = (s', Ok resp) ->
  objs s !! tag_at lib p reference <> None /\ objs s' = delete (tag_at lib p reference) (objs s).
Proof.
  intros [Hs Hd]. unfold delete_manifest. intros Hr. skip_auth Hr. inv_bind Hr as s1 x H1.
  unfold delete_target in H1. rewrite Hd, Hs in H1. inv_bind H1 as s2 link H2.
  apply read_tag_link_inv in H2 as [Ho Hlink]. destruct link as [d|]; [|done].
  injection H1 as <- <-. inv_bind Hr as s3 u H3. destruct u.
  apply rethrow_ok, delete_inv in H3 as (Hok & _ & _). apply delete_tail in Hr.
  rewrite Hr, (Hok eq_refl), Ho. split; [|done]. intros Hn. by rewrite Hn in Hlink.
Qed.
End deletes.

(** ** Listings *)

Definition str_lt (a b : str) : Prop := bytes_cmp a b = Lt.

Lemma str_le_lt a b : str_le a b <-> a = b \/ str_lt a b.
Proof.
  unfold str_le, str_leb, str_lt. rewrite <- bytes_cmp_eq. destruct (bytes_cmp a b); naive_solver.
Qed.

#[global] Instance str_le_trans : Transitive str_le.
Proof.
  intros a b c. rewrite !str_le_lt. intros [->|H1] [->|H2]; auto. right. unfold str_lt in *.
  by eapply cmp_trans_lt.
Qed.

#[global] Instance str_le_total : Total str_le.
Proof.
  intros a b. rewrite !str_le_lt. unfold str_lt. destruct (bytes_cmp a b) eqn:E; auto.
  - left. left. by apply bytes_cmp_eq.
  - right. right. by apply (cmp_gt_lt (cmp := bytes_cmp)).
Qed.

(** Strictly increasing. *)
Definition increasing (l : list str) : Prop := StronglySorted str_lt l.

Lemma sort_increasing l : NoDup l -> increasing (sort_strs l).
Proof.
  intros Hn. unfold sort_strs.
  assert (Hs : StronglySorted str_le (merge_sort str_le l)) by (apply StronglySorted_merge_sort; apply _).
  assert (Hn' : NoDup (merge_sort str_le l)) by by rewrite merge_sort_Permutation.
  unfold increasing. induction Hs as [|x l' Hs IH Hx]; constructor.
  - apply IH. by apply NoDup_cons in Hn' as [_ ?].
  - apply NoDup_cons in Hn' as [Hni _]. rewrite Forall_forall in Hx |- *. intros y Hy.
    specialize (Hx y Hy). apply str_le_lt in Hx as [->|?]; done.
Qed.

(** A client that asks for [n] names at a time, each page after the last name
    of the one before. *)
Fixpoint walk (fuel : nat) (n : nat) (after : option str) (l : list str) : list str :=
  match fuel with
  | O => []
  | S fuel' =>
      match paginate (mkPaginationQuery (Some n) after) l with
      | [] => []
      | page => page ++ walk fuel' n (last page) l
      end
  end.

Lemma skip_while_app f l1 l2 : Forall (fun x => f x = true) l1 -> skip_while f (l1 ++ l2) = skip_while f l2.
Proof. induction 1 as [|x l1 Hx _ IH]; cbn; [done|]. by rewrite Hx. Qed.

Lemma skip_increasing l1 x l2 : increasing (l1 ++ x :: l2) ->
  skip_while (fun t => str_leb t x) (l1 ++ x :: l2) = l2.
Proof.
  intros Hs. replace (l1 ++ x :: l2) with ((l1 ++ [x]) ++ l2) by by rewrite <- app_assoc.
  apply StronglySorted_app in Hs as (Hc & _ & Hs). rewrite skip_while_app.
  - apply StronglySorted_inv in Hs as [_ Hx]. destruct l2 as [|y l2]; [done|]. cbn.
    apply Forall_cons in Hx as [Hy _]. unfold str_lt in Hy. unfold str_leb.
    rewrite (cmp_antisym (cmp := bytes_cmp)), Hy. done.
  - apply Forall_app. split.
    + apply Forall_forall. intros y Hy. apply str_le_lt. right. apply Hc; set_solver.
    + constructor; [|done]. apply str_le_lt. by left.
Qed.

Lemma paginate_after n l1 l2 : increasing (l1 ++ l2) ->
  paginate (mkPaginationQuery (Some n) (last l1)) (l1 ++ l2) = take n l2.
Proof.
  intros Hs. unfold paginate. cbn [page_last page_n]. destruct l1 as [|x l1 _] using rev_ind; [done|].
  rewrite last_snoc. rewrite <- app_assoc in Hs |- *. cbn [app] in *. by rewrite skip_increasing.
Qed.

Lemma walk_from fuel n l1 l2 :
  increasing (l1 ++ l2) -> (0 < n)%nat -> (length l2 <= fuel)%nat -> walk fuel n (last l1) (l1 ++ l2) = l2.
Proof.
  revert l1 l2. induction fuel as [|fuel IH]; intros l1 l2 Hs Hn Hf; cbn [walk].
  - destruct l2; [done|]. cbn in Hf. lia.
  - rewrite paginate_after by done. destruct l2 as [|y l2]; [by rewrite take_nil|].
    destruct (take n (y :: l2)) as [|z page] eqn:Hp; [destruct n; [lia|done]|]. rewrite <- Hp.
    replace (l1 ++ y :: l2) with ((l1 ++ take n (y :: l2)) ++ drop n (y :: l2))
      by by rewrite <- app_assoc, take_drop.
    replace (last (take n (y :: l2))) with (last (l1 ++ take n (y :: l2))).
    + rewrite IH; [apply take_drop| |done|].
      * by rewrite <- app_assoc, take_drop.
      * rewrite length_drop. cbn in *. lia.
    + rewrite Hp, last_app. destruct (last (z :: page)) eqn:E; [done|]. by apply last_None in E.
Qed.

Lemma elem_tags_of pre ms tag :
  tag ∈ tags_of pre ms <-> tag <> [] /\ exists m, m ∈ ms /\ location m = pre ++ tag.
Proof.
  unfold tags_of. rewrite list_elem_of_omap. split.
  - intros (m & Hm & He). destruct (strip_prefix pre (location m)) as [[|c t]|] eqn:E; [done| |done].
    injection He as <-. apply strip_prefix_some in E. split; [done|eauto].
  - intros (Hne & m & Hm & Hl). exists m. split; [done|].
    apply strip_prefix_some in Hl. rewrite Hl. by destruct tag.
Qed.

Lemma nodup_tags_of pre ms : NoDup (map location ms) -> NoDup (tags_of pre ms).
Proof.
  induction ms as [|m ms IH]; cbn [map]; intros Hn; [constructor|].
  apply NoDup_cons in Hn as [Hni Hn]. specialize (IH Hn). unfold tags_of. cbn.
  destruct (strip_prefix pre (location m)) as [[|c t]|] eqn:E; [done| |done].
  apply NoDup_cons. split; [|done]. intros (_ & m' & Hm' & Hl)%elem_tags_of.
  apply strip_prefix_some in E. apply Hni. rewrite E, <- Hl. by apply list_elem_of_fmap_2.
Qed.

Section listing.
Context {W A : Type} `{!ObjectStore W, !ObjectStoreLaws W, !AuditSink A}
  (lib : Libraries) `{!LibraryLaws lib} (p : RepoPath).

Abbreviation World := (Registry W A).
Abbreviation prefix := (tags_prefix (tenant p) (project p) (name p)).

Lemma list_tags_ok c q (s s' : World) resp :
  wf_repo p -> list_tags lib c p q s = (s', Ok resp) ->
  exists all, resp_body resp = TagListBody (tenant p ++ "/" ++ project p ++ "/" ++ name p) (paginate q all) /\
    increasing all /\
    forall tag, safe_segment tag = true -> tag ∈ all <-> is_Some (objs s !! tag_at lib p tag).
Proof.
  intros Hp. unfold list_tags. intros Hr. skip_auth Hr. inv_bind Hr as s1 ms H1.
  apply rethrow_ok, in_store_inv in H1 as (w & H1 & _). injection Hr as _ <-.
  exists (sort_strs (tags_of prefix ms)). split; [done|]. split.
  - apply sort_increasing, nodup_tags_of. by eapply list_nodup.
  - intros tag Ht. unfold sort_strs. rewrite merge_sort_Permutation, elem_tags_of.
    pose proof (tag_at_plain lib p tag Hp Ht) as Hplain. split.
    + intros (_ & [k n] & Hm & Hl). cbn in Hl. subst k. rewrite <- Hplain in Hm.
      apply (list_ok _ _ _ _ H1) in Hm as (_ & d & Hd & _). by exists d.
    + intros [d Hd]. split; [by intros ->|]. exists (mkObjectMeta (tag_at lib p tag) (Z.of_nat (length d))).
      split; [|done]. apply (list_ok _ _ _ _ H1). split; [by apply tag_listed|eauto].
Qed.
End listing.
