(* ===== verification/RegistryTheorems.v ===== *)
(** * What the registry guarantees

    The properties of the handlers, each at an instance: a registry over the
    in-memory store, with a table of a few objects and an administrator's
    token. *)

From S2P Require Import Prelude Text Json Orders Effects Store Multipart Paths Gc AuditLog RegistryAudit.
From S2P Require Import Ephemeral Auth Utf8 Registry RegistryProofs RegistryFlows.

Local Open Scope Z_scope.

(** ** An instance *)

(** A stand-in for SHA-256: 64 digits that depend on the length. *)
Definition demo_sha (d : str) : str :=
  replicate 63 "0"%char ++ [digit_char (Z.of_nat (length d) mod 10)].

Definition demo_lib : Libraries :=
  mkLibraries normal_path demo_sha (fun _ => Some JNull) (fun _ => "invalid") (fun _ => true)
    (fun _ => "io") (fun _ => "sink") (seq 0) (fun _ => None) (fun _ => "time")
    (8210298412799 * nanos) (fun _ => None) (fun _ => None).

#[local] Instance demo_lib_laws : LibraryLaws demo_lib.
Proof.
  split; [apply _| | |done].
  - intros d. cbn [sha256_hex demo_lib]. unfold demo_sha. by rewrite length_app, length_replicate.
  - intros d. cbn [sha256_hex demo_lib]. unfold demo_sha. rewrite forallb_app. apply andb_true_iff.
    split; [done|]. cbn [forallb]. rewrite digit_char_digit; [done|]. apply Z.mod_pos_bound. lia.
Qed.

(** A sink that accepts or refuses every event. *)
#[local] Instance demo_sink : AuditSink bool :=
  {| sink_append _ := fun up : bool => (up, if up then Ok 1 else Err (Unavailable "down")) |}.

Definition demo_state : AppState Memory bool :=
  mkAppState 64 32 4 false false true true false false None None false None None None
    (fun _ _ _ _ _ => ret tt) (fun _ _ _ _ _ => ret tt) (fun _ _ _ _ _ _ _ _ _ _ _ => ret tt).

Definition demo_world (objs : gmap str str) (fs : list fault) (up : bool) : Registry Memory bool :=
  mkRegistry (memory_of objs fs) db_empty (with_sink up true) ∅ [] [] [].

Definition demo_rq : Request := mkRequest 0 1 "u1" true None false false false.
Definition demo_claims : TokenClaims :=
  mkTokenClaims "i" "alice" "a" 0 0 "j" "t" None None Admin [].
Definition demo_repo : RepoPath := mkRepoPath "a" "b" "c".

Lemma demo_services p Q : services_keep demo_state p Q.
Proof. split; try done; intros; apply preserves_ret. Qed.

Lemma demo_wf : wf_repo demo_repo.
Proof. done. Qed.

(** ** Isolation *)

(** C4: Repositories are isolated: a request without the permission changes
    nothing and fails with the authorization error; any other request changes
    only objects below its own repository, so no object of another
    well-formed repository. *)
Theorem repository_isolation {W A : Type} `{!ObjectStore W, !ObjectStoreLaws W, !AuditSink A}
    (lib : Libraries) `{!LibraryLaws lib} (state : AppState W A) (rq : Request) (c : TokenClaims)
    (p : RepoPath) (o : op) (s : Registry W A)
    (Hservices : services_keep state p (outside lib p (objs s))) :
  (forall e, authorize c (tenant p) (project p) (name p) (op_action o) = Err e ->
     serve lib state rq c p o s = (s, Err (Fail e))) /\
  (forall k, ~ below (repo_dir lib p) k -> objs (exec (serve lib state rq c p o) s) !! k = objs s !! k) /\
  (forall p' kind rest, wf_repo p -> wf_repo p' -> p <> p' -> safe_segment kind = true ->
     let k := store_path lib (object_path (tenant p') (project p') (name p') kind rest) in
     objs (exec (serve lib state rq c p o) s) !! k = objs s !! k).
Proof.
  assert (Hout : forall k, ~ below (repo_dir lib p) k ->
            objs (exec (serve lib state rq c p o) s) !! k = objs s !! k).
  { apply (serve_outside lib state rq c p o (objs s) Hservices s). by intros k. }
  split; [intros e; apply serve_denied|]. split; [done|].
  intros p' kind rest Hp Hp' Hne Hk. apply Hout. by apply not_below_other.
Qed.

Lemma repository_isolation_witness :
  objs (exec (serve demo_lib demo_state demo_rq demo_claims demo_repo (DeleteManifest "latest"))
          (demo_world {["a/b/x/tags/latest" := "d"]} [] true)) !! "a/b/x/tags/latest" = Some "d".
Proof.
  destruct (repository_isolation demo_lib demo_state demo_rq demo_claims demo_repo (DeleteManifest "latest")
    (demo_world {["a/b/x/tags/latest" := "d"]} [] true) (demo_services _ _)) as (_ & _ & H).
  exact (H (mkRepoPath "a" "b" "x") "tags" "latest" demo_wf ltac:(done) ltac:(done) eq_refl).
Defined.

(** ** Uploads *)

(** C3: An upload stores what was sent: when a session, its chunks and the
    final request all succeed, the announced digest is the digest of the
    chunks and the last bytes in order, the blob stored under it is exactly
    that data, and a later pull that succeeds returns it. *)
Theorem upload_round_trip {W A : Type} `{!ObjectStore W, !ObjectStoreLaws W, !AuditSink A}
    (lib : Libraries) `{!LibraryLaws lib} (state : AppState W A) (p : RepoPath) (rq : Request)
    (c : TokenClaims) (chunks : list str) (dg : option str) (body : str) (s s' : Registry W A)
    (resp : Response) (Hp : wf_repo p)
    (Hrun : upload_session lib state p rq c chunks dg body s = (s', Ok resp)) :
  let data := concat chunks ++ body in
  dg = Some (digest_of lib data) /\
  objs s' !! blob_at lib p (digest_of lib data) = Some data /\
  (forall rq' c' s2 s3 resp', objs s2 = objs s' ->
     get_blob lib state rq' c' p (digest_of lib data) s2 = (s3, Ok resp') ->
     resp_status resp' = 200 /\ resp_body resp' = Bytes data).
Proof.
  destruct (upload_session_ok lib state p rq c chunks dg body s s' resp Hp Hrun) as [Hd Hb].
  split; [done|]. split; [done|]. intros rq' c' s2 s3 resp' Ho. eapply get_blob_ok. by rewrite Ho.
Qed.

Lemma upload_round_trip_witness :
  exists s' resp, upload_session demo_lib demo_state demo_repo demo_rq demo_claims ["ab"; "c"]
      (Some (digest_of demo_lib "abcd")) "d" (demo_world ∅ [] true) = (s', Ok resp) /\
    objs s' !! blob_at demo_lib demo_repo (digest_of demo_lib "abcd") = Some ("abcd" : str).
Proof.
  eexists _, _. split; [apply run_eval; vm_compute; reflexivity|].
  refine (proj1 (proj2 (upload_round_trip demo_lib demo_state demo_repo demo_rq demo_claims ["ab"; "c"]
    (Some (digest_of demo_lib "abcd")) "d" (demo_world ∅ [] true) _ _ demo_wf _))).
  apply run_eval. vm_compute. reflexivity.
Defined.

(** A digest that does not match is refused: completing an upload whose
    bytes hash to something else fails and leaves every object as it was. *)
Theorem upload_rejects_mismatch {W A : Type} `{!ObjectStore W, !ObjectStoreLaws W, !AuditSink A}
    (lib : Libraries) `{!LibraryLaws lib} (state : AppState W A) (p : RepoPath) (rq : Request)
    (c : TokenClaims) (uuid expected body existing : str) (s : Registry W A)
    (Hup : objs s !! upload_at lib p uuid = Some existing)
    (Hne : digest_of lib (existing ++ body) <> expected) :
  objs (exec (complete_blob_upload lib state rq c p uuid (Some expected) body) s) = objs s /\
  is_ok (eval (complete_blob_upload lib state rq c p uuid (Some expected) body) s) = false.
Proof. by apply (complete_mismatch lib state p rq c uuid expected body existing s). Qed.

Lemma upload_rejects_mismatch_witness :
  let s := demo_world {["a/b/c/uploads/u1" := "abc"]} [] true in
  objs (exec (complete_blob_upload demo_lib demo_state demo_rq demo_claims demo_repo "u1"
                (Some "sha256:00") []) s) = objs s.
Proof.
  cbv zeta.
  apply (upload_rejects_mismatch demo_lib demo_state demo_repo demo_rq demo_claims "u1" "sha256:00" []
    "abc"); [reflexivity|vm_compute; discriminate].
Defined.

(** ** Push and pull *)

(** C2: A pushed manifest is pulled back: after a push that returns [201], a
    pull by its tag or by its digest that returns does so with exactly the
    pushed bytes and their digest (nothing else can be served when there is
    no mirror and no failover region), and a store that answers finds the
    local copy. *)
Theorem push_then_pull {W A : Type} `{!ObjectStore W, !ObjectStoreLaws W, !AuditSink A}
    (lib : Libraries) `{!LibraryLaws lib} (state : AppState W A) (p : RepoPath) (rq : Request)
    (c : TokenClaims) (tag : str) (ttl : option str) (body : str) (s s1 s2 : Registry W A)
    (resp : Response) (reference : str) (Hp : wf_repo p) (Htag : is_tag tag)
    (Hreg : registers_metadata state)
    (Hmirror : mirror_manifest state = None) (Hfailover : failover_manager state = None)
    (Hput : put_manifest lib state rq c p tag ttl body s = (s1, Ok resp)) (Hobjs : objs s2 = objs s1)
    (Href : reference = tag \/ reference = digest_of lib body) :
  (forall rq' c' s3 resp', get_manifest lib state rq' c' p reference s2 = (s3, Ok resp') ->
     resp_body resp' = Bytes body /\
     (("Docker-Content-Digest" : str), digest_of lib body) ∈ resp_headers resp') /\
  (forall healthy, Reliable W healthy -> healthy (store s2) ->
   eval (local_manifest lib p reference) s2 = Ok (Some body)).
Proof.
  apply put_manifest_writes in Hput as [_ Ho]; [|done|done].
  destruct (pushed_names lib p tag body (objs s) Hp Htag) as [Hn1 Hn2].
  rewrite <- Ho, <- Hobjs in Hn1, Hn2.
  assert (Hn : names lib p (objs s2) reference body) by by destruct Href as [-> | ->].
  split; [|intros healthy Hrel Hh; by apply (local_names_reliable lib p healthy)].
  intros rq' c' s3 resp' Hg. by eapply get_manifest_names.
Qed.

Lemma push_then_pull_witness :
  exists s1 resp, put_manifest demo_lib demo_state demo_rq demo_claims demo_repo "latest" None "{}"
      (demo_world ∅ [] true) = (s1, Ok resp) /\
    forall s3 resp', get_manifest demo_lib demo_state demo_rq demo_claims demo_repo "latest" s1 = (s3, Ok resp') ->
      resp_body resp' = Bytes "{}".
Proof.
  eexists _, _. split; [apply run_eval; vm_compute; reflexivity|]. intros s3 resp' Hg.
  refine (proj1 (proj1 (push_then_pull demo_lib demo_state demo_repo demo_rq demo_claims "latest" None "{}"
    (demo_world ∅ [] true) _ _ _ "latest" demo_wf _ _ eq_refl eq_refl _ eq_refl (or_introl eq_refl))
    demo_rq demo_claims s3 resp' Hg)).
  - by split.
  - intros Q a b c d e f g h i j k. apply preserves_ret.
  - apply run_eval. vm_compute. reflexivity.
Defined.

(** ** Deletes *)

(** A delete by digest leaves no tag behind: when it returns [202], the
    manifest is gone, no tag of the repository links to it, and the only other
    objects removed are tag links that pointed to it. *)
Theorem delete_by_digest {W A : Type} `{!ObjectStore W, !ObjectStoreLaws W, !AuditSink A}
    (lib : Libraries) `{!LibraryLaws lib} (state : AppState W A) (p : RepoPath) (rq : Request)
    (c : TokenClaims) (reference d : str) (s s' : Registry W A) (resp : Response)
    (Hp : wf_repo p) (Hd : digest_ref reference = Some d)
    (Hrun : delete_manifest lib state rq c p reference s = (s', Ok resp)) :
  objs s' !! manifest_at lib p d = None /\
  (forall tag, safe_segment tag = true -> unlinked lib p d (objs s') tag) /\
  pruned lib p d (delete (manifest_at lib p d) (objs s)) (objs s').
Proof.
  destruct (delete_by_digest_ok lib state p rq c reference d s s' resp Hp Hd Hrun) as [Hpr Hu].
  split; [|done]. destruct (objs s' !! manifest_at lib p d) eqn:E; [|done].
  eapply pruned_lookup in E; [|done]. by rewrite lookup_delete_eq in E.
Qed.

Definition demo_digest : str := digest_of demo_lib "{}".
Definition demo_objects : gmap str str :=
  <["a/b/c/tags/v1" := demo_digest]> (<["a/b/c/tags/v2" := demo_digest]>
    {["a/b/c/manifests/" ++ demo_digest := "{}"]}).

Lemma delete_by_digest_witness :
  exists s' resp, delete_manifest demo_lib demo_state demo_rq demo_claims demo_repo demo_digest
      (demo_world demo_objects [] true) = (s', Ok resp) /\
    unlinked demo_lib demo_repo demo_digest (objs s') "v1".
Proof.
  eexists _, _. split; [apply run_eval; vm_compute; reflexivity|].
  refine (proj1 (proj2 (delete_by_digest demo_lib demo_state demo_repo demo_rq demo_claims demo_digest
    demo_digest (demo_world demo_objects [] true) _ _ demo_wf eq_refl _)) "v1" eq_refl).
  apply run_eval. vm_compute. reflexivity.
Defined.

(** A delete by tag removes that tag only: the tag existed, its link is
    gone and every other object, the manifest included, is as it was. *)
Theorem delete_by_tag {W A : Type} `{!ObjectStore W, !ObjectStoreLaws W, !AuditSink A}
    (lib : Libraries) `{!LibraryLaws lib} (state : AppState W A) (p : RepoPath) (rq : Request)
    (c : TokenClaims) (tag : str) (s s' : Registry W A) (resp : Response)
    (Htag : is_tag tag) (Hrun : delete_manifest lib state rq c p tag s = (s', Ok resp)) :
  objs s !! tag_at lib p tag <> None /\ objs s' = delete (tag_at lib p tag) (objs s).
Proof. exact (delete_by_tag_ok lib state p rq c tag s s' resp Htag Hrun). Qed.

Lemma delete_by_tag_witness :
  exists s' resp, delete_manifest demo_lib demo_state demo_rq demo_claims demo_repo "v1"
      (demo_world demo_objects [] true) = (s', Ok resp) /\
    objs s' = delete (tag_at demo_lib demo_repo "v1") demo_objects.
Proof.
  eexists _, _. split; [apply run_eval; vm_compute; reflexivity|].
  refine (proj2 (delete_by_tag demo_lib demo_state demo_repo demo_rq demo_claims "v1"
    (demo_world demo_objects [] true) _ _ _ _)); [by split|].
  apply run_eval. vm_compute. reflexivity.
Defined.

(** ** Listings *)

(** The tag listing is exact and its pages tile it: a listing that returns
    is a page of a strictly increasing list that holds a tag exactly when the
    repository has a link for it, and a client that walks pages of any
    positive size sees that whole list, each tag once. *)
Theorem tag_listing {W A : Type} `{!ObjectStore W, !ObjectStoreLaws W, !AuditSink A}
    (lib : Libraries) `{!LibraryLaws lib} (p : RepoPath) (c : TokenClaims) (q : PaginationQuery)
    (s s' : Registry W A) (resp : Response) (Hp : wf_repo p)
    (Hrun : list_tags lib c p q s = (s', Ok resp)) :
  exists all,
    resp_body resp = TagListBody (tenant p ++ "/" ++ project p ++ "/" ++ name p) (paginate q all) /\
    increasing all /\
    (forall tag, safe_segment tag = true -> tag ∈ all <-> is_Some (objs s !! tag_at lib p tag)) /\
    (forall n, (0 < n)%nat -> walk (length all) n None all = all).
Proof.
  destruct (list_tags_ok lib p c q s s' resp Hp Hrun) as (all & Hb & Hi & He).
  exists all. split_and!; [done|done|done|]. intros n Hn. by apply (walk_from (length all) n [] all).
Qed.

Lemma tag_listing_witness :
  exists s' resp, list_tags demo_lib demo_claims demo_repo (mkPaginationQuery (Some 1%nat) (Some "v1"))
      (demo_world demo_objects [] true) = (s', Ok resp) /\
    resp_body resp = TagListBody "a/b/c" ["v2"] /\
    exists all, resp_body resp = TagListBody "a/b/c" (paginate (mkPaginationQuery (Some 1%nat) (Some "v1")) all)
      /\ increasing all.
Proof.
  eexists _, _. split; [apply run_eval; vm_compute; reflexivity|]. split; [reflexivity|].
  refine (match tag_listing demo_lib demo_repo demo_claims (mkPaginationQuery (Some 1%nat) (Some "v1"))
            (demo_world demo_objects [] true) _ _ demo_wf _ with
          | ex_intro _ all (conj Hb (conj Hi _)) => ex_intro _ all (conj Hb Hi)
          end).
  apply run_eval. vm_compute. reflexivity.
Defined.

(** ** Where the code departs from its comments *)

(** A push that fails late is stored all the same: when the audit sink
    refuses the event of a fail-closed log ([503]), or when the handler panics
    (a lifetime header out of range, a location that is no header value), the
    manifest and the tag link have been written. *)
Theorem failed_push_is_stored {W A : Type} `{!ObjectStore W, !ObjectStoreLaws W, !AuditSink A}
    (lib : Libraries) `{!LibraryLaws lib} (state : AppState W A) (p : RepoPath) (rq : Request)
    (c : TokenClaims) (reference : str) (ttl : option str) (body : str) (s s' : Registry W A)
    (e : failure) (Hreg : registers_metadata state)
    (Hrun : put_manifest lib state rq c p reference ttl body s = (s', Err e))
    (Hlate : e = Panic \/ exists what, e = Fail (AuditUnavailable what)) :
  objs s' = pushed lib p reference body (objs s).
Proof. eapply put_manifest_writes in Hrun as [_ Ho]; [done|done|]. by destruct Hlate as [->|[what ->]]. Qed.

Lemma failed_push_is_stored_witness :
  (exists s', put_manifest demo_lib demo_state demo_rq demo_claims demo_repo "v1" None "{}"
       (demo_world ∅ [] false) = (s', Err (Fail (AuditUnavailable "sink"))) /\
     objs s' = pushed demo_lib demo_repo "v1" "{}" ∅) /\
  (exists s', put_manifest demo_lib demo_state demo_rq demo_claims demo_repo "v1" (Some "999999999999d") "{}"
       (demo_world ∅ [] true) = (s', Err Panic) /\
     objs s' = pushed demo_lib demo_repo "v1" "{}" ∅).
Proof.
  split; eexists; (split; [apply run_eval; vm_compute; reflexivity|]).
  - refine (failed_push_is_stored demo_lib demo_state demo_repo demo_rq demo_claims "v1" None "{}"
      (demo_world ∅ [] false) _ (Fail (AuditUnavailable "sink")) _ _ (or_intror (ex_intro _ "sink" eq_refl))).
    + intros Q a b c d e f g h i j k. apply preserves_ret.
    + apply run_eval. vm_compute. reflexivity.
  - refine (failed_push_is_stored demo_lib demo_state demo_repo demo_rq demo_claims "v1"
      (Some "999999999999d") "{}" (demo_world ∅ [] true) _ Panic _ _ (or_introl eq_refl)).
    + intros Q a b c d e f g h i j k. apply preserves_ret.
    + apply run_eval. vm_compute. reflexivity.
Defined.

Lemma sig_tag_not_digest lib `{!LibraryLaws lib} p hex body :
  wf_repo p -> hex <> [] -> forallb is_ascii_hexdigit hex = true ->
  manifest_at lib p (digest_of lib body) <> manifest_at lib p ("sha256:" ++ hex ++ ".sig") /\
  tag_at lib p ("sha256-" ++ hex ++ ".sig") <> manifest_at lib p ("sha256:" ++ hex ++ ".sig").
Proof.
  intros Hp Hne Hh. split; [|by apply tag_not_manifest].
  assert (Hsafe : safe_segment (hex ++ ".sig") = true).
  { unfold safe_segment. destruct (hex ++ ".sig") as [|x l] eqn:E; [by destruct hex|].
    rewrite <- E, forallb_app, !andb_true_iff, !negb_true_iff. split_and!; [|done|..].
    - revert Hh. apply forallb_impl. intros y.
      unfold is_ascii_hexdigit, safe_char, is_ascii_digit, is_ascii_lowercase, is_ascii_uppercase, byte_in. lia.
    - destruct (str_eqb_spec (hex ++ ".sig") ".") as [Hs|]; [|done]. by destruct hex as [|? []].
    - destruct (str_eqb_spec (hex ++ ".sig") "..") as [Hs|]; [|done]. by destruct hex as [|? [|? []]]. }
  intros He.
  apply (object_path_inj (store_path lib) (tenant p) (project p) (name p) "manifests" (digest_of lib body)
    (tenant p) (project p) (name p) "manifests" ("sha256:" ++ hex ++ ".sig")) in He as (_ & _ & He); [|done..].
  assert (Hid : forall s, safe_segment s = true -> store_path lib s = s) by apply store_path_safe.
  assert (Hdig : safe_segment (digest_of lib body) = true) by apply safe_prefixed, hex_safe, _.
  rewrite (Hid _ Hdig), (Hid _ (safe_prefixed _ Hsafe)) in He.
  unfold digest_of, sha256_digest in He. apply app_inv_head in He.
  pose proof (sha256_digits (lib := lib) body) as Hd. rewrite He, forallb_app in Hd.
  by apply andb_true_iff in Hd as [_ Hd].
Qed.

(** A cosign signature pushed under its tag cannot be pulled: a push to
    [sha256-<hex>.sig] writes a tag link, but reads take the reference for a
    digest, so unless a manifest happens to be stored under that very name a
    [HEAD] of the tag that was just pushed fails. *)
Theorem sig_tag_unreachable {W A : Type} `{!ObjectStore W, !ObjectStoreLaws W, !AuditSink A}
    (lib : Libraries) `{!LibraryLaws lib} (state : AppState W A) (p : RepoPath) (rq : Request)
    (c c' : TokenClaims) (hex : str) (ttl : option str) (body : str) (s s1 s2 : Registry W A)
    (resp : Response) (Hp : wf_repo p) (Hreg : registers_metadata state)
    (Hne : hex <> []) (Hhex : forallb is_ascii_hexdigit hex = true)
    (Hput : put_manifest lib state rq c p ("sha256-" ++ hex ++ ".sig") ttl body s = (s1, Ok resp))
    (Habsent : objs s !! manifest_at lib p ("sha256:" ++ hex ++ ".sig") = None)
    (Hobjs : objs s2 = objs s1) :
  objs s2 !! tag_at lib p ("sha256-" ++ hex ++ ".sig") = Some (digest_of lib body) /\
  is_ok (eval (head_manifest lib c' p ("sha256-" ++ hex ++ ".sig")) s2) = false.
Proof.
  apply put_manifest_writes in Hput as [_ Ho]; [|done|done].
  destruct (sig_tag_not_digest lib p hex body Hp Hne Hhex) as [Hn1 Hn2]. rewrite Hobjs, Ho. split.
  - unfold pushed. change (starts_with "sha256:" ("sha256-" ++ hex ++ ".sig")) with false. by simplify_map_eq.
  - unfold eval. destruct (head_manifest lib c' p _ s2) as [s3 [r|e]] eqn:Hr; [exfalso|done].
    unfold head_manifest in Hr. skip_auth Hr. inv_bind Hr as s4 path H1.
    unfold resolve_manifest_path in H1.
    rewrite (proj2 (strip_prefix_some "sha256-" ("sha256-" ++ hex ++ ".sig") (hex ++ ".sig")) eq_refl) in H1.
    change (starts_with "sha256:" ("sha256:" ++ hex ++ ".sig")) with true in H1. injection H1 as <- <-.
    inv_bind Hr as s5 x H2. apply rethrow_ok, get_inv in H2 as (_ & Hg & _). specialize (Hg x eq_refl).
    assert (Hnone : objs s2 !! manifest_at lib p ("sha256:" ++ hex ++ ".sig") = None).
    { rewrite Hobjs, Ho. unfold pushed. cbv zeta. by case_match; rewrite ?lookup_insert_ne by done. }
    by pose proof (eq_trans (eq_sym Hnone) Hg).
Qed.

Lemma sig_tag_unreachable_witness :
  exists s1 resp, put_manifest demo_lib demo_state demo_rq demo_claims demo_repo "sha256-ab.sig" None "{}"
      (demo_world ∅ [] true) = (s1, Ok resp) /\
    is_ok (eval (head_manifest demo_lib demo_claims demo_repo "sha256-ab.sig") s1) = false.
Proof.
  eexists _, _. split; [apply run_eval; vm_compute; reflexivity|].
  refine (proj2 (sig_tag_unreachable demo_lib demo_state demo_repo demo_rq demo_claims demo_claims "ab" None
    "{}" (demo_world ∅ [] true) _ _ _ demo_wf _ _ eq_refl _ eq_refl eq_refl)).
  - intros Q a b c d e f g h i j k. apply preserves_ret.
  - discriminate.
  - apply run_eval. vm_compute. reflexivity.
Defined.

(** The headers of a replicated manifest. *)
Definition replication_headers (p : RepoPath) (reference digest : str) : gmap str str :=
  <["x-replication-tenant" := tenant p]> (<["x-replication-project" := project p]>
  (<["x-replication-repo" := name p]> (<["x-replication-reference" := reference]>
  {["x-replication-digest" := digest]}))).

Lemma replication_headers_lookup p reference digest :
  let h := replication_headers p reference digest in
  extract_header h "x-replication-tenant" = Ok (tenant p) /\
  extract_header h "x-replication-project" = Ok (project p) /\
  extract_header h "x-replication-repo" = Ok (name p) /\
  extract_header h "x-replication-reference" = Ok reference /\
  extract_header h "x-replication-digest" = Ok digest.
Proof. unfold extract_header, replication_headers. split_and!; by simplify_map_eq. Qed.

(** Replicated content is stored unverified and unauthorized: the endpoint
    takes no token, and when it answers [200] the body has been stored under
    the digest of the request whatever its content, so a body with another
    digest breaks content addressing. *)
Theorem replication_unverified {W A : Type} `{!ObjectStore W, !ObjectStoreLaws W, !AuditSink A}
    (lib : Libraries) `{!LibraryLaws lib} (rq : Request) (p : RepoPath) (digest body : str)
    (s s' : Registry W A) (resp : Response) (Hp : wf_repo p) (Hd : wf_digest digest)
    (Hforged : digest_of lib body <> digest)
    (Hrun : internal_replicate_manifest lib rq (replication_headers p digest digest) body s
            = (s', Ok resp)) :
  objs s' !! manifest_at lib p digest = Some body /\ ~ content_addressed lib (objs s').
Proof.
  destruct (replication_headers_lookup p digest digest) as (H1 & H2 & H3 & H4 & H5).
  unfold internal_replicate_manifest in Hrun. rewrite H1, H2, H3, H4, H5 in Hrun.
  do 5 (inv_bind Hrun as sa a Ha; injection Ha as <- <-). inv_bind Hrun as s1 u Hput.
  apply stored_put_ok in Hput.
  assert (Hpre : starts_with "sha256:" digest = true).
  { destruct Hd as (hex & -> & _). apply starts_with_iff. eauto. }
  rewrite Hpre in Hrun. cbn [negb] in Hrun.
  assert (Ho : objs s' = objs s1) by (revert Hrun; apply keeps_objs; intros Q; keep_pure).
  assert (Hm : objs s' !! manifest_at lib p digest = Some body).
  { rewrite Ho, Hput. unfold manifest_at. by simplify_map_eq. }
  split; [done|]. intros Hca. apply Hforged, (Hca _ _ _ _ _ Hp Hd). by right.
Qed.

Lemma replication_unverified_witness :
  exists s' resp, internal_replicate_manifest demo_lib demo_rq
      (replication_headers demo_repo "sha256:ff" "sha256:ff") "evil" (demo_world ∅ [] true) = (s', Ok resp) /\
    ~ content_addressed demo_lib (objs s').
Proof.
  eexists _, _. split; [apply run_eval; vm_compute; reflexivity|].
  refine (proj2 (replication_unverified demo_lib demo_rq demo_repo "sha256:ff" "evil" (demo_world ∅ [] true)
    _ _ demo_wf _ _ _)).
  - by exists "ff".
  - vm_compute. discriminate.
  - apply run_eval. vm_compute. reflexivity.
Defined.

(** A storage failure on a tag link is answered [404]: whatever error the
    store returns for the link, a [HEAD] of the tag, and a [GET] without a
    mirror or a failover region, report the manifest as unknown. *)
Theorem tag_read_failure_is_404 {W A : Type} `{!ObjectStore W, !ObjectStoreLaws W, !AuditSink A}
    (lib : Libraries) `{!LibraryLaws lib} (state : AppState W A) (p : RepoPath) (rq : Request)
    (c : TokenClaims) (tag : str) (e : StoreError) (s : Registry W A)
    (Hauth : authorize c (tenant p) (project p) (name p) Pull = Ok tt) (Htag : is_tag tag)
    (Hget : eval (os_get (tag_at lib p tag)) (store s) = Err e)
    (Hmirror : mirror_manifest state = None) (Hfailover : failover_manager state = None) :
  eval (head_manifest lib c p tag) s = Err (Fail (ManifestUnknown tag)) /\
  eval (get_manifest lib state rq c p tag) s = Err (Fail (ManifestUnknown tag)) /\
  error_status (ManifestUnknown tag) = 404.
Proof.
  destruct Htag as [Hs Hd].
  assert (Hres : exists s1, resolve_manifest_path lib p tag s = (s1, Err (Fail (ManifestUnknown tag)))).
  { unfold resolve_manifest_path. rewrite Hd, Hs. unfold bind, rethrow, in_store. unfold eval, tag_at in Hget.
    destruct (os_get _ (store s)) as [w r]. cbn in Hget. rewrite Hget. cbn. eauto. }
  destruct Hres as [s1 Hres]. unfold eval, head_manifest, get_manifest, local_manifest, authorized.
  unfold bind, rethrow, lift, attempt. rewrite Hauth. cbn [map_err]. rewrite Hres. cbn.
  unfold remote_read. rewrite Hmirror, Hfailover. done.
Qed.

Lemma tag_read_failure_is_404_witness :
  eval (head_manifest demo_lib demo_claims demo_repo "v1") (demo_world demo_objects [Lost] true)
  = Err (Fail (ManifestUnknown "v1")).
Proof.
  refine (proj1 (tag_read_failure_is_404 demo_lib demo_state demo_repo demo_rq demo_claims "v1"
    (Generic "memory" "connection reset") (demo_world demo_objects [Lost] true) eq_refl _ eq_refl eq_refl eq_refl)).
  by split.
Defined.
