(* ===== verification/ScanTheorems.v ===== *)
(** * What the vulnerability scanner promises

    The comparators as orders on version strings, the range check and the
    query against that order, the policy verdict, and the life of a
    suppression. *)

From S2P Require Import Prelude Json Orders Deb Rpm Apk Pep440 Matcher Policy.

(** ** Version orders *)

Section lawful.
Context (compare : Comparator) `{!LawfulCompare compare}.

Lemma compare_opp a b o : compare a b = Ok o -> compare b a = Ok (CompOpp o).
Proof.
  intros H. destruct (compare_ok_inv compare _ _ _ H) as (va & vb & Ha & Hb & <-).
  rewrite (compare_ok compare b a vb va) by done. by rewrite (cmp_antisym va vb).
Qed.

Lemma compare_defined a b :
  (exists o, compare a b = Ok o) <-> compare a a = Ok Eq /\ compare b b = Ok Eq.
Proof.
  split.
  - intros [o H]. destruct (compare_ok_inv compare _ _ _ H) as (va & vb & Ha & Hb & _).
    rewrite (compare_ok compare a a va va), (compare_ok compare b b vb vb) by done.
    by rewrite !cmp_refl.
  - intros [H1 H2]. destruct (compare_ok_inv compare _ _ _ H1) as (va & _ & Ha & _).
    destruct (compare_ok_inv compare _ _ _ H2) as (vb & _ & Hb & _).
    exists (lc_cmp va vb). by apply compare_ok.
Qed.

Lemma version_lt_le_trans a b c :
  version_lt compare a b -> version_le compare b c -> version_lt compare a c.
Proof.
  intros H1 H2. destruct (compare_ok_inv compare _ _ _ H1) as (va & vb & Ha & Hb & E1).
  destruct (version_le_inv compare _ _ H2) as (vb' & vc & Hb' & Hc & E2).
  assert (vb' = vb) as -> by congruence.
  unfold version_lt. rewrite (compare_ok compare a c va vc) by done. f_equal.
  destruct (lc_cmp vb vc) eqn:E; [|by eapply cmp_trans_lt|done].
  rewrite (cmp_antisym vc va), (cmp_eq_l vc vb va), (cmp_antisym va vb), E1; [done|].
  by rewrite (cmp_antisym vb vc), E.
Qed.
End lawful.

(** The comparators of the ecosystems other than [rpm] are all lawful. *)
Lemma for_ecosystem_lawful {V} (parse : str -> result V str) cmp `{!CmpLaws cmp} eco c :
  for_ecosystem parse cmp eco = Some c -> eco <> "rpm" -> exists _ : LawfulCompare c, True.
Proof.
  unfold for_ecosystem, str_eqb. intros H Hne. rewrite (bool_decide_false (eco = "rpm")) in H by done.
  repeat (destruct (bool_decide _ || bool_decide _) || destruct (bool_decide _));
    simplify_eq; by unshelve eexists; [apply _|].
Qed.

(** For every ecosystem but rpm the comparator that [for_ecosystem]
    selects is a total preorder on the versions that parse: a comparison
    succeeds exactly when both sides are valid (comparable to themselves),
    swapping the sides swaps the answer, and [<=] and [<] chain.  For npm,
    cargo and go this rests on [semver::Version] being [Ord]. *)
Theorem ecosystem_order {V} (parse : str -> result V str) cmp `{!CmpLaws cmp} eco c :
  for_ecosystem parse cmp eco = Some c -> eco <> "rpm" ->
  (forall a b, (exists o, c a b = Ok o) <-> c a a = Ok Eq /\ c b b = Ok Eq) /\
  (forall a b o, c a b = Ok o -> c b a = Ok (CompOpp o)) /\
  (forall x y z, version_le c x y -> version_le c y z -> version_le c x z) /\
  (forall x y z, version_le c x y -> version_lt c y z -> version_lt c x z) /\
  (forall x y z, version_lt c x y -> version_le c y z -> version_lt c x z).
Proof.
  intros H Hne. destruct (for_ecosystem_lawful parse cmp eco c H Hne) as [L _].
  split_and!; eauto using compare_defined, compare_opp, version_le_trans, version_le_lt_trans,
    version_lt_le_trans.
Qed.

Lemma ecosystem_order_witness :
  version_lt Deb.compare "1.0~rc1" "1.1".
Proof.
  destruct (ecosystem_order (fun _ => Err "no") Z.compare "deb" Deb.compare eq_refl ltac:(done))
    as (_ & _ & _ & H & _).
  apply (H "1.0~rc1" "1.0" "1.1"); [left|]; reflexivity.
Defined.

(** Debian components.  With the fuel the model gives it the loop of
    [compare_component] returns, and its answer is the reference order on the
    list of (non-digit run, digit run) chunks padded with empty chunks; a
    purely numeric component is ordered as an integer of unbounded size; and
    appending [~] and anything makes a component older. *)
Theorem deb_component_order a b :
  Deb.compare_loop (S (length a `max` length b)) a b = Some (Deb.component_cmp a b) /\
  (all_digits a -> all_digits b -> Deb.compare_component a b = (digits_val a ?= digits_val b)%Z) /\
  (forall t, Deb.compare_component (a ++ "~" ++ t) a = Lt).
Proof.
  split_and!; [by apply Deb.compare_loop_ok; lia|apply Deb.component_numeric|].
  apply Deb.component_tilde.
Qed.

(** RPM versions.  The loop of [rpmvercmp] returns within its fuel,
    swapping the sides swaps the answer, and on versions without the markers
    [~] and [^] the answer is the lexicographic order of the digit and letter
    runs (letters below numbers, numbers by value, more runs newer), which is
    a total preorder. *)
Theorem rpm_version_order a b :
  is_Some (Rpm.rpm_loop (S (length a + length b)) a b) /\
  Rpm.rpmvercmp b a = CompOpp (Rpm.rpmvercmp a b) /\
  (Rpm.plain a = true -> Rpm.plain b = true ->
   Rpm.rpmvercmp a b =
   list_cmp Rpm.token_cmp (Rpm.tokens (S (length a)) a) (Rpm.tokens (S (length b)) b)).
Proof.
  split_and!; [apply Rpm.rpm_loop_total; lia|apply Rpm.rpmvercmp_opp|apply Rpm.rpmvercmp_plain].
Qed.

(** With the marker [^] the RPM comparison is not an order: [1.0.] equals
    [1.0], [1.0] is older than [1.0^], and [1.0^] is older than [1.0.].  A
    range with [fixed = 1.0^] therefore contains [1.0] and not the version
    [1.0.] that compares equal to it. *)
Theorem rpm_caret_cycle :
  Rpm.compare "1.0." "1.0" = Ok Eq /\ Rpm.compare "1.0" "1.0^" = Ok Lt /\
  Rpm.compare "1.0^" "1.0." = Ok Lt /\
  exists row,
    in_range Rpm.compare "1.0" row = true /\ in_range Rpm.compare "1.0." row = false.
Proof.
  split_and!; [reflexivity..|].
  exists (mkQueryRow "CVE-1" [] None None None None JNull None (Some "1.0^") None).
  by split; vm_compute.
Qed.

(** Alpine versions.  The parser reads back every version of the grammar
    from its printed form, so equal text is the only way for two of them to
    denote one version. *)
Theorem apk_parse_render v :
  Apk.wf v ->
  Apk.parse (Apk.render v) = Ok v /\
  (forall w, Apk.wf w -> Apk.render v = Apk.render w -> v = w) /\
  Apk.compare (Apk.render v) (Apk.render v) = Ok Eq.
Proof.
  intros Hv. split_and!; [by apply Apk.parse_render| |].
  - intros w Hw E. apply (f_equal Apk.parse) in E. rewrite !Apk.parse_render in E by done. congruence.
  - unfold Apk.compare. rewrite Apk.parse_render by done. simpl. by rewrite cmp_refl.
Qed.

Lemma apk_parse_render_witness :
  Apk.parse "1.36.1b_rc2_p0-r5" =
  Ok (Apk.mkApkVersion [1; 36; 1]%Z (Some "b"%char) [(-1, 2); (5, 0)]%Z 5).
Proof.
  apply (apk_parse_render
    (Apk.mkApkVersion [1; 36; 1]%Z (Some "b"%char) [(-1, 2); (5, 0)]%Z 5)).
  constructor; simpl; unfold in_u64, Apk.valid_rank; repeat constructor; try done; lia.
Defined.

(** A version with only a release, and its phases. *)
Definition phase (rel : list Z) (p : option (Pep440.PreKind * Z)) (po d : option Z) :
    Pep440.Pep440Version :=
  Pep440.mkPep440Version 0 rel p po d.

(** Python versions.  Releases compare with missing components read as
    zero, whatever their lengths; within one release the phases are ordered
    development, alpha, beta, candidate, final, post-release, whatever their
    numbers; and inside one phase a development version precedes the version
    it leads to. *)
Theorem pep440_phases :
  (forall v w,
    Pep440.epoch v = Pep440.epoch w -> Pep440.release v <> [] -> Pep440.release w <> [] ->
    Forall (Z.le 0) (Pep440.release v) -> Forall (Z.le 0) (Pep440.release w) ->
    pad_cmp 0%Z Z.compare (Pep440.release v) (Pep440.release w) <> Eq ->
    Pep440.version_cmp v w = pad_cmp 0%Z Z.compare (Pep440.release v) (Pep440.release w)) /\
  (forall rel d a b c p,
    Pep440.version_cmp (phase rel None None (Some d)) (phase rel (Some (Pep440.Alpha, a)) None None) = Lt /\
    Pep440.version_cmp (phase rel (Some (Pep440.Alpha, a)) None None)
      (phase rel (Some (Pep440.Beta, b)) None None) = Lt /\
    Pep440.version_cmp (phase rel (Some (Pep440.Beta, b)) None None)
      (phase rel (Some (Pep440.Rc, c)) None None) = Lt /\
    Pep440.version_cmp (phase rel (Some (Pep440.Rc, c)) None None) (phase rel None None None) = Lt /\
    Pep440.version_cmp (phase rel None None None) (phase rel None (Some p) None) = Lt) /\
  (forall rel pre post d,
    Pep440.version_cmp (phase rel pre post (Some d)) (phase rel pre post None) = Lt).
Proof.
  split_and!.
  - intros v w He Nv Nw Pv Pw Hne. unfold Pep440.version_cmp, cmp_seq at 1 2.
    unfold cmp_on at 1 3. rewrite He, Z.compare_refl. cbn [then_cmp]. unfold cmp_on at 1.
    rewrite Pep440.release_cmp_pad by done. by destruct (pad_cmp _ _ _ _).
  - intros. unfold Pep440.version_cmp, cmp_seq, cmp_on, phase. simpl.
    rewrite !cmp_refl. by repeat split.
  - intros rel pre post d. unfold Pep440.version_cmp, cmp_seq, cmp_on, phase. simpl.
    rewrite !cmp_refl. unfold Pep440.pre_key. simpl.
    destruct pre as [[k n]|], post as [p|]; simpl; rewrite ?cmp_refl; done.
Qed.

(** ** Matching *)

(** The range check of the vulnerability query is exact.  Against a
    lawful comparator a version is reported for an advisory row exactly when
    it is at or above [introduced] (unless that is the literal [0]), strictly
    below [fixed], and at or below [last_affected], each where present; a
    version that does not parse is in no bounded range; and the versions
    reported for a row form an interval. *)
Theorem range_check_exact c `{!LawfulCompare c} v row :
  (in_range c v row = true <->
   (forall intro, r_introduced row = Some intro -> intro <> "0" -> version_le c intro v) /\
   (forall fixed, r_fixed row = Some fixed -> version_lt c v fixed) /\
   (forall last, r_last_affected row = Some last -> version_le c v last)) /\
  (forall lo hi,
    in_range c lo row = true -> in_range c hi row = true ->
    version_le c lo v -> version_le c v hi -> in_range c v row = true).
Proof. split; [by apply in_range_iff|]. intros lo hi. by apply in_range_convex. Qed.

Section query.
Context {V : Type} (parse : str -> result V str) (cmp : V -> V -> comparison).
Context {DbError : Type} (fetch : str -> str -> result (list QueryRow) DbError).

Abbreviation query' := (query parse cmp fetch).

(** The findings of one package. *)
Definition block (pkg : Package) (out : list Vulnerability) : Prop :=
  exists c rows, for_ecosystem parse cmp (p_ecosystem pkg) = Some c /\
    fetch (p_ecosystem pkg) (p_name pkg) = Ok rows /\ out = query_rows c pkg ∅ rows.

Lemma query_blocks packages out :
  query' packages = Ok out ->
  exists blocks : list (Package * list Vulnerability),
    out = concat (map snd blocks) /\
    map fst blocks = List.filter
      (fun p => bool_decide (is_Some (for_ecosystem parse cmp (p_ecosystem p)))) packages /\
    Forall (fun b => block b.1 b.2) blocks.
Proof.
  revert out. induction packages as [|pkg packages IH]; intros out; cbn [query List.filter].
  { intros [= <-]. by exists []. }
  destruct (for_ecosystem _ _ _) as [c|] eqn:Ec.
  - rewrite bool_decide_true by eauto.
    destruct (fetch _ _) as [rows|] eqn:Ef; [|done]. cbn [result_bind].
    destruct (query' packages) as [out'|] eqn:Eq; [|done]. cbn [result_bind]. intros [= <-].
    destruct (IH out' eq_refl) as (bs & -> & Hp & Hb).
    exists ((pkg, query_rows c pkg ∅ rows) :: bs). simpl. rewrite Hp.
    split_and!; [done|done|]. constructor; [|done]. by exists c, rows.
  - rewrite bool_decide_false by (by intros [? ?]). apply IH.
Qed.
End query.

(** C35: A query that succeeds reports, package by package in order, at most
    one finding per advisory id; every finding comes from a fetched row whose
    range contains the installed version, and no row in range is missed: its
    id is among the findings of that package. *)
Theorem query_exact {V DbError} (parse : str -> result V str) cmp
    (fetch : str -> str -> result (list QueryRow) DbError) packages out :
  query parse cmp fetch packages = Ok out ->
  exists blocks : list (Package * list Vulnerability),
    out = concat (map snd blocks) /\
    map fst blocks = List.filter
      (fun p => bool_decide (is_Some (for_ecosystem parse cmp (p_ecosystem p)))) packages /\
    Forall (fun '(pkg, vs) =>
      NoDup (v_id <$> vs) /\
      exists c rows, for_ecosystem parse cmp (p_ecosystem pkg) = Some c /\
        fetch (p_ecosystem pkg) (p_name pkg) = Ok rows /\
        (forall v, v ∈ vs -> exists row, row ∈ rows /\ v = finding pkg row /\
           in_range c (p_version pkg) row = true) /\
        (forall row, row ∈ rows -> in_range c (p_version pkg) row = true ->
           r_id row ∈ v_id <$> vs)) blocks.
Proof.
  intros (bs & Ho & Hp & Hb)%query_blocks. exists bs. split_and!; [done..|].
  eapply Forall_impl; [exact Hb|]. intros [pkg vs]. cbn [fst snd]. intros (c & rows & Hc & Hf & ->).
  split; [apply query_rows_nodup|]. exists c, rows. split_and!; [done..| |].
  - intros v (row & ? & ? & ? & _)%query_rows_in. eauto.
  - intros row Hr Hin. by destruct (query_rows_complete c pkg ∅ rows row Hr Hin) as [?%elem_of_empty|].
Qed.

Definition sample_package : Package := mkPackage "openssl" "3.0.2-0ubuntu1" "deb" "" None.

Definition sample_rows : list QueryRow :=
  [mkQueryRow "CVE-1" [] None None (Some "HIGH") None JNull (Some "0") (Some "3.0.2-0ubuntu1.2") None;
   mkQueryRow "CVE-1" [] None None (Some "HIGH") None JNull (Some "3.0.0") None None;
   mkQueryRow "CVE-2" [] None None (Some "LOW") None JNull None (Some "3.0.1") None].

Definition sample_fetch (eco name : str) : result (list QueryRow) str :=
  if str_eqb name "openssl" then Ok sample_rows else Err "no table".

Lemma query_exact_witness :
  exists out, query (fun _ => Err "no") Z.compare sample_fetch [sample_package] = Ok out /\
    map v_id out = ["CVE-1" : str] /\
    exists blocks : list (Package * list Vulnerability), out = concat (map snd blocks).
Proof.
  eexists. split_and!; [vm_compute; reflexivity|reflexivity|].
  destruct (query_exact (fun _ => Err "no") Z.compare sample_fetch [sample_package] _ eq_refl)
    as (blocks & H & _). by exists blocks.
Defined.

Lemma range_check_exact_witness :
  in_range Deb.compare "1.5" (mkQueryRow "CVE-1" [] None None None None JNull
    (Some "1.0") (Some "2.0") None) = true.
Proof.
  apply (range_check_exact Deb.compare "1.5" (mkQueryRow "CVE-1" [] None None None None JNull
    (Some "1.0") (Some "2.0") None)).
  simpl. split_and!; [intros intro [= <-] _; by left|by intros fixed [= <-]|done].
Defined.

(** ** Policy *)

(** A rule as written in a policy file. *)
Definition rule_text (r : rule_op * Z) : str := op_text r.1 ++ dec r.2.

Definition rules_text (rules : Severity -> option (rule_op * Z)) : BlockRules :=
  mkBlockRules (rule_text <$> rules Critical) (rule_text <$> rules High)
    (rule_text <$> rules Medium) (rule_text <$> rules Low).

(** C40: The verdict of [evaluate].  For threshold rules written [OP N] with
    [N] a 32-bit number and fewer than 2^32 findings, the image passes exactly
    when no threshold is met by the number of findings of its severity that
    are not suppressed; findings of unknown severity never block; and the
    count the policy sees after [apply] is the number of findings no active
    suppression covers. *)
Theorem policy_verdict rules db now tenant project repository vulns vulns' :
  (Z.of_nat (length vulns) <= u32_max)%Z ->
  (forall sev op z, rules sev = Some (op, z) -> in_u32 z) ->
  apply db (fun _ => now) (fun _ => None) tenant project repository 0 vulns = (vulns', Ok tt) ->
  (pe_status (evaluate (rules_text rules) vulns') = Pass <->
   forall sev op z, sev <> Unknown -> rules sev = Some (op, z) ->
     op_holds op (Z.of_nat (length (List.filter
       (fun v => negb (existsb (suppression_hit now tenant project repository v) (suppressions db)))
       (counted sev vulns)))) z = false).
Proof.
  intros Hlen Hz. rewrite (apply_ok _ _ _ now) by done. intros [= <-].
  rewrite evaluate_pass_iff.
  assert (Hr : forall sev, rule_of sev (rules_text rules) =
    if bool_decide (sev = Unknown) then None else rule_text <$> rules sev) by by intros [].
  assert (Hc : forall sev, count_of sev
    (summarize (apply_suppressions db now tenant project repository vulns)) =
    Z.of_nat (length (List.filter (fun v => negb (existsb
      (suppression_hit now tenant project repository v) (suppressions db))) (counted sev vulns)))).
  { intros sev. rewrite summarize_count, apply_counted; [done|].
    unfold apply_suppressions. by rewrite length_map. }
  setoid_rewrite Hr. setoid_rewrite Hc. split.
  - intros H sev op z Hne Hs. rewrite <- (rule_matches_text op z) by eauto.
    apply H. by rewrite bool_decide_false, Hs.
  - intros H sev r. case_bool_decide as E; [done|].
    intros ([op z] & Hs & ->)%fmap_Some. unfold rule_text.
    rewrite rule_matches_text by eauto. simpl. eauto.
Qed.

Definition sample_vuln (id : str) (sev : Severity) : Vulnerability :=
  mkVulnerability id [] "openssl" "deb" "3.0.2" None sev None None None None [] false.

Definition sample_rules (sev : Severity) : option (rule_op * Z) :=
  match sev with
  | Critical => Some (OpGt, 0%Z)
  | High => Some (OpGe, 2%Z)
  | _ => None
  end.

Lemma policy_verdict_witness :
  pe_status (evaluate (rules_text sample_rules) [sample_vuln "CVE-1" High]) = Pass.
Proof.
  apply (policy_verdict sample_rules (mkSupDb [] []) 0 "t" "p" "r" [sample_vuln "CVE-1" High]).
  - done.
  - intros [] op z [= <- <-]; split; vm_compute; discriminate.
  - reflexivity.
  - intros [] op z Hne [= <- <-]; reflexivity.
Defined.

(** ** Suppressions *)

Lemma existsb_active_fresh id rows :
  id ∉ map s_id rows -> existsb (active_id id) rows = false.
Proof.
  induction rows as [|r rows IH]; [done|]. cbn [map existsb]. intros Hn.
  rewrite elem_of_cons in Hn. rewrite IH by tauto.
  unfold active_id. destruct (Z.eqb_spec (s_id r) id); [naive_solver|done].
Qed.

Lemma map_active_fresh id (f : SuppressionRow -> SuppressionRow) rows :
  id ∉ map s_id rows -> map (fun r => if active_id id r then f r else r) rows = rows.
Proof.
  induction rows as [|r rows IH]; [done|]. cbn [map]. intros Hn.
  rewrite elem_of_cons in Hn. rewrite IH by tauto. unfold active_id.
  destruct (Z.eqb_spec (s_id r) id); [naive_solver|done].
Qed.

Lemma hit_revoked now when tenant project repository v r :
  suppression_hit now tenant project repository v (revoke_row when r) = false.
Proof. unfold suppression_hit. cbn. by rewrite andb_false_r. Qed.

Lemma active_id_new id cve t p r pk reason who at_ ex :
  active_id id (mkSuppressionRow id cve t p r pk reason who at_ ex None) = true.
Proof. unfold active_id. cbn. by rewrite Z.eqb_refl. Qed.

(** The life of a suppression.  Creating one under a fresh id and applying
    the table marks exactly the findings it covers (same CVE, not expired, and
    every scope it names equal to that of the scan) besides those already
    covered, so a suppression scoped to a tenant hides nothing of another;
    revoking it restores every scan's verdict as it was before; both steps are
    in the audit log; and a second revocation finds nothing to revoke and
    changes nothing. *)
Theorem suppression_lifecycle db t0 t1 id actor actor' input :
  id ∉ map s_id (suppressions db) ->
  exists db1 db2,
    create db None t0 id actor input = (db1, Ok id) /\
    revoke db1 None t1 actor' id = (db2, Ok true) /\
    (forall t2 who, revoke db2 None t2 who id = (db2, Ok false)) /\
    audit_log db2 = audit_log db ++ [mkAuditLogRow actor "suppression.create" id;
                                     mkAuditLogRow actor' "suppression.revoke" id] /\
    (forall now tenant project repository vulns,
      let applied db := apply db (fun _ => now) (fun _ => None) tenant project repository 0 vulns in
      applied db2 = applied db /\
      (applied db1).1 = map (fun v =>
        if str_eqb (n_cve_id input) (v_id v)
           && match n_expires_at input with None => true | Some e => (now <? e)%Z end
           && scope_ok (n_scope_tenant input) tenant && scope_ok (n_scope_project input) project
           && scope_ok (n_scope_repository input) repository
           && scope_ok (n_scope_package input) (v_package v)
        then set_suppressed v else v)
        (applied db).1).
Proof.
  intros Hf. eexists _, _. split_and!; [reflexivity| | | |].
  - unfold revoke. cbn [suppressions]. rewrite existsb_app, existsb_active_fresh by done.
    cbn [existsb]. by rewrite active_id_new.
  - intros t2 who. unfold revoke. cbn [suppressions audit_log].
    rewrite map_app, map_active_fresh, existsb_app, existsb_active_fresh by done.
    cbn [map existsb]. rewrite active_id_new. unfold active_id. cbn. by rewrite andb_false_r.
  - cbn [audit_log]. by rewrite <- app_assoc.
  - intros now tenant project repository vulns. cbv beta zeta.
    rewrite !(apply_ok _ _ _ now) by done. unfold apply_suppressions.
    cbn [suppressions fst]. rewrite map_app, map_active_fresh by done. split.
    + f_equal. apply map_ext. intros v. rewrite existsb_app. cbn [map existsb].
      by rewrite active_id_new, hit_revoked, !orb_false_r.
    + rewrite map_map. apply map_ext. intros v. rewrite existsb_app. cbn [existsb].
      unfold suppression_hit at 2. cbn. rewrite andb_true_r, orb_false_r.
      destruct (existsb _ _); simpl; repeat case_match; done.
Qed.

Lemma suppression_lifecycle_witness :
  exists db1, create (mkSupDb [] []) None 10 7 "alice"
    (mkNewSuppression "CVE-1" (Some "t") None None None "accepted" (Some 100%Z)) = (db1, Ok 7%Z) /\
    (apply db1 (fun _ => 50%Z) (fun _ => None) "other" "p" "r" 0 [sample_vuln "CVE-1" High]).1 =
    [sample_vuln "CVE-1" High].
Proof.
  destruct (suppression_lifecycle (mkSupDb [] []) 10 20 7 "alice" "bob"
    (mkNewSuppression "CVE-1" (Some "t") None None None "accepted" (Some 100%Z)))
    as (db1 & db2 & H1 & _ & _ & _ & H).
  { simpl. apply not_elem_of_nil. }
  exists db1. split; [exact H1|].
  destruct (H 50%Z "other" "p" "r" [sample_vuln "CVE-1" High]) as [_ E]. exact E.
Defined.
