(* ===== verification/Gate.v ===== *)
(** * Signatures and admission in the registry ([crates/specton-registry/src/main.rs])

    The checks a manifest passes before it is served, verify-on-pull and the
    admission gate, and the endpoints behind them: uploading signatures,
    managing verification and admission policies, the dry-run evaluator.  The
    tables and the decision cache sit beside the object store in [Gate], which
    is an object store itself, so that the handlers of [Registry] run on it with
    these checks as the services they call. *)

From S2P Require Import Prelude Json Text Effects Store Paths AuditLog RegistryAudit Auth Utf8.
From S2P Require Import Multipart Matcher Signing Admission Registry.

Local Open Scope Z_scope.

(** ** Referrers ([specton-lazy/src/referrers.rs]) *)

Record Referrer : Type := mkReferrer {
  ref_subject : str;
  ref_artifact : str;
  ref_type : str;
  ref_media_type : str;
  ref_size : Z
}.

(** ** The state *)

Record Gate (W : Type) : Type := mkGate {
  g_store : W;
  g_policies : PolicyTable;
  g_signatures : SignatureTable;
  g_referrers : gmap (str * str) Referrer;
  g_admission : AdmissionDb;
  g_cache : DecisionCache
}.
Arguments mkGate {W}.
Arguments g_store {W}.
Arguments g_policies {W}.
Arguments g_signatures {W}.
Arguments g_referrers {W}.
Arguments g_admission {W}.
Arguments g_cache {W}.

Section parts.
Context {W : Type}.

Definition on_store {E X} (m : M W E X) : M (Gate W) E X :=
  fun g => let '(w, r) := m (g_store g) in
           (mkGate w (g_policies g) (g_signatures g) (g_referrers g) (g_admission g) (g_cache g), r).

Definition on_policies {E X} (m : M PolicyTable E X) : M (Gate W) E X :=
  fun g => let '(t, r) := m (g_policies g) in
           (mkGate (g_store g) t (g_signatures g) (g_referrers g) (g_admission g) (g_cache g), r).

Definition on_admission {E X} (m : M AdmissionDb E X) : M (Gate W) E X :=
  fun g => let '(db, r) := m (g_admission g) in
           (mkGate (g_store g) (g_policies g) (g_signatures g) (g_referrers g) db (g_cache g), r).

Definition on_cache {E X} (f : DecisionCache -> DecisionCache * X) : M (Gate W) E X :=
  fun g => let '(c, x) := f (g_cache g) in
           (mkGate (g_store g) (g_policies g) (g_signatures g) (g_referrers g) (g_admission g) c, Ok x).
End parts.

#[export] Instance gate_store {W} `{ObjectStore W} : ObjectStore (Gate W) := {
  os_put p d := on_store (os_put p d);
  os_get p := on_store (os_get p);
  os_head p := on_store (os_head p);
  os_delete p := on_store (os_delete p);
  os_list pre := on_store (os_list pre);
  os_list_with_delimiter pre := on_store (os_list_with_delimiter pre);
  os_put_multipart p := on_store (os_put_multipart p);
  os_put_part u i d := on_store (os_put_part u i d);
  os_complete u := on_store (os_complete u);
  os_abort u := on_store (os_abort u)
}.

(** ** Configuration and libraries *)

Record GateConfig : Type := mkGateConfig {
  require_for_pull : bool;
  gate_keys : KeyProvider;
  crypto : CryptoLib;
  sigstore : SigstoreLib;
  scan_store : option (str -> result (option (list Vulnerability)) str);
  debug_str : str -> str
}.

(** How the statements of one check behave. *)
Record SigQuery : Type := mkSigQuery {
  policy_db : PolicyDb;
  sig_error : option str;
  by_signed_at : list SignatureRecord -> list SignatureRecord
}.

Record SigPut : Type := mkSigPut {
  put_error : option str;
  referrer_fails : bool
}.

Record AdmissionRq : Type := mkAdmissionRq {
  list_query : AdmissionQuery;
  decision_query : AdmissionQuery;
  clock : nat -> Ticks;
  inner_check : SigQuery
}.

(** [format!("{:?}", policy.on_violation).to_lowercase()] *)
Definition violation_debug (v : OnViolation) : str :=
  match v with
  | OnBlock => "block"
  | OnWarn => "warn"
  | OnLog => "log"
  end.

Definition claims_bypass_admission (claims : TokenClaims) : bool :=
  contains_str "bypass-admission" (claims_sub claims)
  || bool_decide (claims_role claims = Admin)
     && existsb (fun s => str_eqb (scope_repository s) "*"
                          || bool_decide (Manage ∈ scope_actions s)) (scopes claims).

(** ** Image references ([promote.rs]) *)

Record ImageRef : Type := mkImageRef {
  ir_tenant : str;
  ir_project : str;
  ir_repository : str;
  ir_reference : str
}.

Definition parse_image_ref (s : str) : result ImageRef RegistryError :=
  let invalid (why : str) := ManifestInvalid ("invalid image ref '" ++ s ++ "' " ++ why) in
  let split :=
    match split_once_byte "@"%char s with
    | Some (p, d) => Ok (p, d)
    | None =>
        match rsplit_once_byte ":"%char s with
        | Some (p, t) =>
            if contains_byte "/"%char p then Ok (p, t)
            else Err (invalid "(expected tenant/project/repo:tag)")
        | None => Err (invalid "(missing :tag or @digest)")
        end
    end in
  match split with
  | Err e => Err e
  | Ok (path, reference) =>
      match split_on "/"%char path with
      | [t; p; r] =>
          if non_empty t && non_empty p && non_empty r then Ok (mkImageRef t p r reference)
          else Err (invalid ("(expected tenant/project/repo:tag, got " ++ path ++ ")"))
      | _ => Err (invalid ("(expected tenant/project/repo:tag, got " ++ path ++ ")"))
      end
  end.

Definition repo_of (r : ImageRef) : RepoPath := mkRepoPath (ir_tenant r) (ir_project r) (ir_repository r).

Section gate.
Context {W A : Type} `{ObjectStore W} `{AuditSink A} (lib : Libraries) (cfg : GateConfig).
Context (base : AppState W A).

Abbreviation World := (Registry (Gate W) A).

Definition internal {E} (display : E -> str) (e : E) : failure := Fail (Internal (display e)).

(** [state.audit_log.sink().append(event)], whose result the callers drop. *)
Definition append_event (e : AuditEvent) : M World failure unit :=
  fun s => (set_audit_log (exec (append_sink e) (audit_log s)) s, Ok tt).

(** ** Verify-on-pull *)

Definition load_artifact (p : RepoPath) (rec : SignatureRecord) :
    M World failure (option SignatureArtifact) :=
  let path := blob_path (tenant p) (project p) (name p) (signature_digest rec) in
  let! r := attempt (F := StoreError) (in_store (os_get (store_path lib path))) in
  ret (match r with
       | Err _ => None
       | Ok bytes =>
           match from_slice (crypto cfg) bytes ≫= de_artifact with
           | Some art => Some art
           | None =>
               match from_slice (crypto cfg) bytes ≫= de_cosign with
               | Some env => Some (mkSignatureArtifact MEDIA_TYPE_COSIGN_ENVELOPE_V1 bytes
                                     (env_key_ref env) "cosign-key")
               | None => None
               end
           end
       end).

Fixpoint load_artifacts (p : RepoPath) (records : list SignatureRecord) :
    M World failure (list SignatureArtifact) :=
  match records with
  | [] => ret []
  | rec :: records' =>
      let! art := load_artifact p rec in
      let! arts := load_artifacts p records' in
      ret (match art with
           | Some a => a :: arts
           | None => arts
           end)
  end.

Definition query_signatures (q : SigQuery) (p : RepoPath) (digest : str) :
    M World failure (list SignatureRecord) :=
  match sig_error q with
  | Some e => throw (Fail (Internal ("sqlx: " ++ e)))
  | None => gets (fun s => list_for_subject (by_signed_at q) (tenant p) (project p) (name p) digest
                             (g_signatures (store s)))
  end.

(** Whether the registered signatures satisfy the policy, and why not. *)
Definition check_signatures (p : RepoPath) (digest : str) (policy : VerificationPolicy)
    (records : list SignatureRecord) : M World failure (bool * str) :=
  if bool_decide (trusted_refs policy = []) then
    ret (match records with
         | [] => (false, "no signatures registered for digest" : str)
         | _ => (true, [])
         end)
  else
    let! artifacts := load_artifacts p records in
    ret (match sigstore_verify (crypto cfg) (sigstore cfg) (gate_keys cfg) digest artifacts policy with
         | Ok outcome => (trusted outcome, default [] (vo_reason outcome))
         | Err e => (false, verify_error_display e)
         end).

(** The policy that applies: the stored one, or the configured default. *)
Definition pull_policy (stored : option StoredVerificationPolicy) : option VerificationPolicy :=
  match stored with
  | Some p => Some (as_verification_policy p)
  | None =>
      if require_for_pull cfg then
        Some (mkVerificationPolicy "00000000-0000-0000-0000-000000000000" "require_for_pull" true [] OnBlock)
      else None
  end.

Definition signature_miss (rq : Request) (who : str) (p : RepoPath) (digest : str)
    (policy : VerificationPolicy) (reason : str) : AuditEvent :=
  mkAuditEvent (now rq) AuditLog.Policy "signature.verify.miss" (mkActor who None None None)
    (Some (mkSubject (Some (tenant p)) (Some (project p)) (Some (name p)) None (Some digest))) Success
    [("on_violation" : str, JString (violation_debug (vp_on_violation policy)));
     ("policy" : str, JString (vp_name policy)); ("reason" : str, JString reason)].

Definition enforce_pull_signature_policy (rq : Request) (q : SigQuery) (who : str) (p : RepoPath)
    (digest : str) : M World failure unit :=
  if negb (gc_pool base) then
    if require_for_pull cfg
    then throw (Fail (Forbidden "signature required but policy store unavailable"))
    else ret tt
  else
    let! stored := rethrow (internal policy_store_display)
                     (in_store (on_policies (Signing.resolve (policy_db q) (tenant p) (project p) (name p)))) in
    match pull_policy stored with
    | None => ret tt
    | Some policy =>
        if negb (required policy) then ret tt
        else
          let! records := query_signatures q p digest in
          let! (trusted, reason) := check_signatures p digest policy records in
          if trusted : bool then ret tt
          else
            do! append_event (signature_miss rq who p digest policy reason) in
            match vp_on_violation policy with
            | OnBlock =>
                throw (Fail (Forbidden ("signature policy " ++ debug_str cfg (vp_name policy) ++ ": " ++ reason)))
            | OnWarn | OnLog => ret tt
            end
    end.

(** ** Uploading signatures *)

Definition register_signature_metadata (rq : Request) (q : SigPut) (who : str) (p : RepoPath)
    (subject digest : str) (sz : Z) (signer : option str) (ty media_type reference : str) :
    M World failure str :=
  if negb (gc_pool base) then
    throw (Fail (Internal "signature store requires Postgres (enable scanner/GC or audit pool)"))
  else
    let rec := mkSignatureRecord (fresh_id rq) subject (tenant p) (project p) (name p) digest signer ty
                 (Some media_type) sz None (now rq) in
    do! match put_error q with
        | Some e => throw (Fail (Internal ("signature store: sqlx: " ++ e)))
        | None => in_store (modify (fun g => mkGate (g_store g) (g_policies g)
                                                (put_signature rec (g_signatures g)) (g_referrers g)
                                                (g_admission g) (g_cache g)))
        end in
    do! when (negb (referrer_fails q))
          (in_store (modify (fun g => mkGate (g_store g) (g_policies g) (g_signatures g)
             (<[(subject, digest) := mkReferrer subject digest media_type media_type sz]> (g_referrers g))
             (g_admission g) (g_cache g)))) in
    let! _ := attempt (F := str) (audit_record lib rq
                (mkRegistryAuditEvent (now rq) "signature.push" who (tenant p) (project p) (name p)
                   reference digest sz 201 0)) in
    do! append_event
          (mkAuditEvent (now rq) AuditLog.Sign "signature.push" (mkActor who None None None)
             (Some (mkSubject (Some (tenant p)) (Some (project p)) (Some (name p)) (Some reference)
                      (Some digest))) Success
             [("signer_identity" : str, match signer with
                                        | Some s => JString s
                                        | None => JNull
                                        end)]) in
    ret (fresh_id rq).

Definition persist_signature (rq : Request) (q : SigPut) (who : str) (p : RepoPath) (subject body : str)
    (signer : option str) (ty media_type : str) : M World failure (str * str) :=
  if negb (signing_enabled base) then
    throw (Fail (Forbidden "signing disabled ([signing].enabled=false)"))
  else
    let digest := digest_of lib body in
    do! stored lib (os_put (store_path lib (blob_path (tenant p) (project p) (name p) digest)) body) in
    do! stored lib (os_put (store_path lib (manifest_path (tenant p) (project p) (name p) digest)) body) in
    let! tag := lift (ok_or (cosign_sig_tag subject)
                        (Fail (ManifestInvalid "subject digest must be sha256:..."))) in
    do! stored lib (os_put (store_path lib (tag_link_path (tenant p) (project p) (name p) tag)) digest) in
    let! id := register_signature_metadata rq q who p subject digest (len body) signer ty media_type tag in
    ret (digest, id).

(** Signer, type and media type of an uploaded body. *)
Definition uploaded_fields (body : str) : option str * str * str :=
  match from_slice (crypto cfg) body ≫= de_artifact with
  | Some art => (Some (art_signer_identity art), art_signature_type art, art_media_type art)
  | None =>
      match from_slice (crypto cfg) body ≫= de_cosign with
      | Some env => (Some (env_key_ref env), "cosign-key", MEDIA_TYPE_COSIGN_ENVELOPE_V1)
      | None => (None, "cosign-key", MEDIA_TYPE_COSIGN_SIMPLE)
      end
  end.

(** The answer of an upload: the location, the identifiers and the tag. *)
Record Uploaded : Type := mkUploaded {
  up_location : str;
  up_id : str;
  up_subject : str;
  up_digest : str;
  up_tag : option str
}.

Definition upload_signature (rq : Request) (q : SigPut) (claims : TokenClaims) (p : RepoPath)
    (subject body : str) : M World failure Uploaded :=
  do! authorized claims p Push in
  if negb (starts_with "sha256:" subject) then
    throw (Fail (ManifestInvalid "subject digest must be sha256:..."))
  else
    let '(signer, ty, media_type) := uploaded_fields body in
    let! (digest, id) := persist_signature rq q (claims_sub claims) p subject body signer ty media_type in
    ret (mkUploaded ("/v2/" ++ tenant p ++ "/" ++ project p ++ "/" ++ name p ++ "/blobs/" ++ digest)
           id subject digest (cosign_sig_tag subject)).

Definition list_signatures (q : SigQuery) (claims : TokenClaims) (p : RepoPath) (digest : str) :
    M World failure (list SignatureRecord) :=
  do! authorized claims p Pull in
  if negb (signing_enabled base) then
    throw (Fail (Forbidden "signing disabled ([signing].enabled=false)"))
  else if negb (gc_pool base) then throw (Fail (Internal "signature store not configured"))
  else query_signatures q p digest.

(** ** Verification policies *)

Record PolicyUpsertBody : Type := mkPolicyUpsertBody {
  pub_id : option str;
  pub_enabled : option bool;
  pub_spec : PolicySpec;
  pub_on_violation : option OnViolation
}.

Definition signing_admin_authorize (claims : TokenClaims) : M World failure unit :=
  if bool_decide (claims_role claims = Admin) then ret tt
  else throw (Fail (Forbidden "signing policy endpoints require Admin role")).

Definition policy_pool : M World failure unit :=
  if gc_pool base then ret tt else throw (Fail (Internal "policy store not configured")).

Definition upsert_verification_policy (rq : Request) (db : PolicyDb) (claims : TokenClaims)
    (tenant name : str) (body : PolicyUpsertBody) : M World failure StoredVerificationPolicy :=
  do! signing_admin_authorize claims in
  if negb (signing_enabled base) then
    throw (Fail (Forbidden "signing disabled ([signing].enabled=false)"))
  else
    do! policy_pool in
    let policy := mkStoredVerificationPolicy (default (fresh_id rq) (pub_id body)) name tenant (pub_spec body)
                    (default true (pub_enabled body))
                    (default (spec_on_violation (pub_spec body)) (pub_on_violation body)) (now rq) in
    do! rethrow (internal policy_store_display) (in_store (on_policies (Signing.upsert db policy))) in
    ret policy.

Definition get_verification_policy (db : PolicyDb) (claims : TokenClaims) (tenant name : str) :
    M World failure StoredVerificationPolicy :=
  do! signing_admin_authorize claims in
  do! policy_pool in
  let! found := rethrow (internal policy_store_display)
                  (in_store (on_policies (Signing.get db tenant name))) in
  lift (ok_or found (Fail (NameUnknown name))).

Definition delete_verification_policy (db : PolicyDb) (claims : TokenClaims) (tenant name : str) :
    M World failure unit :=
  do! signing_admin_authorize claims in
  do! policy_pool in
  let! deleted := rethrow (internal policy_store_display)
                    (in_store (on_policies (delete_policy db tenant name))) in
  if deleted : bool then ret tt else throw (Fail (NameUnknown name)).

(** ** The admission gate *)

Definition admission_audit (rq : Request) (claims : TokenClaims) (event : str) (p : RepoPath) (digest : str)
    (status : Z) : M World failure unit :=
  let! _ := attempt (F := str) (audit_record lib rq
              (mkRegistryAuditEvent (now rq) event (claims_sub claims) (tenant p) (project p) (name p)
                 digest digest 0 status 0)) in
  ret tt.

(** The result of the signature check the policies are evaluated with. *)
Definition admission_signature (rq : Request) (q : AdmissionRq) (claims : TokenClaims) (p : RepoPath)
    (digest : str) (policies : list AdmissionPolicy) : M World failure (option bool) :=
  if existsb (fun a => signature_required (adm_spec a)) policies then
    if signing_enabled base then
      let! r := attempt (enforce_pull_signature_policy rq (inner_check q) (claims_sub claims) p digest) in
      ret (Some (match r with
                 | Ok _ => true
                 | Err _ => false
                 end))
    else ret (Some false)
  else ret (Some true).

Definition enforce_admission (rq : Request) (q : AdmissionRq) (claims : TokenClaims) (p : RepoPath)
    (digest : str) : M World failure unit :=
  if negb (gc_pool base) then ret tt
  else
    let! listed := attempt (in_store (on_admission (list_tenant (list_query q) (tenant p)))) in
    match listed with
    | Err _ | Ok [] => ret tt
    | Ok policies =>
        let scan := fetch_scan (scan_store cfg) digest in
        let! sig := admission_signature rq q claims p digest policies in
        let input := mkEvaluateInput (tenant p) (project p) (name p) digest
                       (claims_bypass_admission claims) sig in
        let! verdict := in_store (on_cache (Admission.evaluate (clock q) policies scan input)) in
        let! _ := attempt (in_store (on_admission
                    (record_decision (decision_query q) digest (adm_id <$> head policies) verdict
                       (claims_sub claims)))) in
        match verdict with
        | Allow => ret tt
        | Warn _ => admission_audit rq claims "admission.warn" p digest 200
        | Block reason _ =>
            do! admission_audit rq claims "admission.block" p digest 403 in
            throw (Fail (ManifestUnverified reason))
        end
    end.

Definition admission_on : M World failure unit :=
  if admission_enabled base then ret tt
  else throw (Fail (Forbidden "admission disabled ([admission] enabled=false)")).

(** The digest of a reference, without reading the manifest. *)
Definition reference_digest (r : ImageRef) : M World failure str :=
  if starts_with "sha256:" (ir_reference r) then ret (ir_reference r)
  else
    let! link := read_tag_link lib (repo_of r) (ir_reference r) in
    lift (ok_or link (Fail (TagUnknown (ir_reference r)))).

(** A dry run: the policies of the tenant, or the named one, with the signature
    taken as valid. *)
Definition admit_test (q : AdmissionRq) (claims : TokenClaims) (image_ref : str) (policy_name : option str) :
    M World failure AdmissionVerdict :=
  do! admission_on in
  let! parsed := rethrow Fail (lift (parse_image_ref image_ref)) in
  do! authorized claims (repo_of parsed) Manage in
  let! digest := reference_digest parsed in
  do! (if gc_pool base then ret tt else throw (Fail (Internal "admission requires Postgres"))) in
  let! policies := rethrow Fail (in_store (on_admission (list_tenant (list_query q) (ir_tenant parsed)))) in
  let policies := match policy_name with
                  | Some n => List.filter (fun a => str_eqb (adm_name a) n) policies
                  | None => policies
                  end in
  let scan := fetch_scan (scan_store cfg) digest in
  in_store (on_cache (Admission.evaluate (clock q) policies scan
    (mkEvaluateInput (ir_tenant parsed) (ir_project parsed) (ir_repository parsed) digest false (Some true)))).

Definition upsert_admission_policy (rq : Request) (q : AdmissionQuery) (claims : TokenClaims)
    (tenant name : str) (id : option str) (enabled : option bool) (spec : AdmissionPolicySpec) :
    M World failure AdmissionPolicy :=
  do! admission_on in
  if negb (bool_decide (claims_role claims = Admin)) then
    throw (Fail (Forbidden "admin required to upsert AdmissionPolicy"))
  else
    do! (if gc_pool base then ret tt else throw (Fail (Internal "admission requires Postgres"))) in
    let policy := mkAdmissionPolicy (default (fresh_id rq) id) name tenant spec (default true enabled) (now rq) in
    do! rethrow Fail (in_store (on_admission (Admission.upsert q policy))) in
    ret policy.

(** ** The registry with its gates

    [base] with the object store replaced by [Gate] and the checks of this file
    as the services. *)
Definition gated (rq : Request) (sq : SigQuery) (sp : SigPut) (aq : AdmissionRq) : AppState (Gate W) A :=
  mkAppState (multipart_threshold_mb base) (multipart_part_size_mb base) (multipart_concurrency base)
    (signing_enabled base) (admission_enabled base) (gc_refcounter base) (gc_pool base)
    (artifact_registry base) (scanner_queue base) (lazy_format base) (local_region base)
    (webhook_handle base)
    ((fun f t p n r => on_store (f t p n r)) <$> mirror_manifest base)
    ((fun f t p n r => on_store (f t p n r)) <$> mirror_blob base)
    (failover_manager base)
    (fun who t p n digest => enforce_pull_signature_policy rq sq who (mkRepoPath t p n) digest)
    (fun claims t p n digest => enforce_admission rq aq claims (mkRepoPath t p n) digest)
    (fun who t p n subject digest sz signer ty mt reference =>
       do! rethrow (fun _ => []) (register_signature_metadata rq sp who (mkRepoPath t p n) subject digest sz
                                    signer ty mt reference) in
       ret tt).
End gate.
