(* ===== verification/GateProofs.v ===== *)
(** * Lemmas about the gates

    [Gate] is a lawful object store; the checks leave the objects alone, so the
    theorems of the registry hold with them; and the steps of verify-on-pull and
    of the admission gate, inverted. *)

From S2P Require Import Prelude Json Text Effects Store Multipart Paths AuditLog RegistryAudit Auth Utf8.
From S2P Require Import Matcher Policy Signing SigningProofs Admission Registry RegistryProofs RegistryFlows Gate.

Local Open Scope Z_scope.

(** ** The store of the gate *)

Lemma on_store_inv {W E X} (m : M W E X) g g' r :
  on_store m g = (g', r) ->
  exists w, m (g_store g) = (w, r) /\ g_store g' = w /\ g_policies g' = g_policies g /\
    g_signatures g' = g_signatures g /\ g_admission g' = g_admission g /\ g_cache g' = g_cache g.
Proof. unfold on_store. destruct (m (g_store g)) as [w r']. intros [= <- <-]. by exists w. Qed.

Lemma on_store_exec {W E X} (m : M W E X) g : g_store (exec (on_store m) g) = exec m (g_store g).
Proof. unfold exec, on_store. by destruct (m (g_store g)). Qed.

#[export] Instance gate_laws {W} `{!ObjectStore W, !ObjectStoreLaws W} : ObjectStoreLaws (Gate W) :=
  zoom_laws g_store (fun w g => mkGate w (g_policies g) (g_signatures g) (g_referrers g)
                                  (g_admission g) (g_cache g)) (fun _ _ => eq_refl).

Section gate.
Context {W A : Type} `{!ObjectStore W, !ObjectStoreLaws W, !AuditSink A}
  (lib : Libraries) `{!LibraryLaws lib} (cfg : GateConfig) (base : AppState W A).

Abbreviation World := (Registry (Gate W) A).

(** ** The checks leave the objects alone *)

Section objects_kept.
Context (Q : gmap str str -> Prop).

Lemma keeps_gate {E X} (m : M (Gate W) E X) :
  (forall g, g_store (exec m g) = g_store g) -> keeps (A := A) Q (in_store m).
Proof. intros Hm. apply keeps_in_store. intros g Hg. cbn in *. by rewrite Hm. Qed.

Lemma keeps_policies {E X} (m : M PolicyTable E X) : keeps (A := A) Q (in_store (on_policies m)).
Proof. apply keeps_gate. intros g. unfold exec, on_policies. by destruct (m _). Qed.

Lemma keeps_admission {E X} (m : M AdmissionDb E X) : keeps (A := A) Q (in_store (on_admission m)).
Proof. apply keeps_gate. intros g. unfold exec, on_admission. by destruct (m _). Qed.

Lemma keeps_cache {E X} (f : DecisionCache -> DecisionCache * X) :
  keeps (A := A) Q (in_store (on_cache (E := E) f)).
Proof. apply keeps_gate. intros g. unfold exec, on_cache. by destruct (f _). Qed.

Lemma keeps_append e : keeps (A := A) Q (append_event (W := W) e).
Proof. by intros s. Qed.

Lemma keeps_gets {E X} (f : World -> X) : keeps (A := A) (W := Gate W) (E := E) Q (gets f).
Proof. by intros s. Qed.

#[local] Ltac gate_step :=
  match goal with
  | |- preserves _ (bind _ _) => apply preserves_bind; [|intros ?]
  | |- preserves _ (rethrow _ _) => apply preserves_rethrow
  | |- preserves _ (attempt _) => apply preserves_attempt
  | |- preserves _ (when _ _) => apply preserves_when
  | |- preserves _ (ret _) => apply preserves_ret
  | |- preserves _ (throw _) => apply preserves_throw
  | |- preserves _ (lift _) => apply preserves_lift
  | |- preserves _ (gets _) => apply keeps_gets
  | |- preserves _ (in_store (on_policies _)) => apply keeps_policies
  | |- preserves _ (in_store (on_admission _)) => apply keeps_admission
  | |- preserves _ (in_store (on_cache _)) => apply keeps_cache
  | |- preserves _ (in_store (os_get _)) => apply keeps_get
  | |- preserves _ (in_store (modify _)) => by apply keeps_gate
  | |- preserves _ (append_event _) => apply keeps_append
  | |- preserves _ (audit_record _ _ _) => apply keeps_audit
  | |- preserves _ (match ?x with _ => _ end) => destruct x
  end.
#[local] Ltac gate_keep :=
  unfold keeps, stored, authorized, header, audited; repeat gate_step.

Lemma keeps_load p rec : keeps (A := A) Q (load_artifact lib cfg p rec).
Proof. unfold load_artifact. gate_keep. Qed.

Lemma keeps_loads p recs : keeps (A := A) Q (load_artifacts lib cfg p recs).
Proof.
  induction recs as [|rec recs IH]; cbn; [apply preserves_ret|].
  apply preserves_bind; [apply keeps_load|intros art].
  apply preserves_bind; [apply IH|intros arts]. apply preserves_ret.
Qed.

Lemma keeps_check p d policy recs : keeps (A := A) Q (check_signatures lib cfg p d policy recs).
Proof.
  unfold check_signatures. case_bool_decide; [apply preserves_ret|].
  apply preserves_bind; [apply keeps_loads|intros arts; apply preserves_ret].
Qed.

Lemma keeps_enforce rq q who p d :
  keeps (A := A) Q (enforce_pull_signature_policy lib cfg base rq q who p d).
Proof.
  unfold enforce_pull_signature_policy, query_signatures. gate_keep; apply keeps_check.
Qed.

Lemma keeps_admission_audit rq c e p d st : keeps (A := A) Q (admission_audit (W := W) lib rq c e p d st).
Proof. unfold admission_audit. gate_keep. Qed.

Lemma keeps_enforce_admission rq q c p d :
  keeps (A := A) Q (enforce_admission lib cfg base rq q c p d).
Proof.
  unfold enforce_admission, admission_signature.
  gate_keep; first [apply keeps_enforce | apply keeps_admission_audit].
Qed.

Lemma keeps_register rq q who p sub d sz signer ty mt r :
  keeps (A := A) Q (register_signature_metadata lib base rq q who p sub d sz signer ty mt r).
Proof.
  unfold register_signature_metadata. gate_keep.
Qed.
End objects_kept.

(** With lawful mirrors the services of the gated registry keep what its own
    handlers keep. *)
Lemma gated_services rq sq sp aq p Q :
  mirror_manifest base = None -> mirror_blob base = None ->
  services_keep (gated lib cfg base rq sq sp aq) p Q.
Proof.
  intros Hm Hb. split; cbn; rewrite ?Hm, ?Hb; try done; intros.
  - apply keeps_enforce.
  - apply keeps_enforce_admission.
  - apply preserves_bind; [apply preserves_rethrow, keeps_register|intros; apply preserves_ret].
Qed.

(** ** The policy and signature tables *)

Definition tables (s : World) : PolicyTable * SignatureTable :=
  (g_policies (store s), g_signatures (store s)).

Section tables_kept.
Context (T : PolicyTable * SignatureTable).

Definition same_tables {E X} (m : M World E X) : Prop := preserves (fun s => tables s = T) m.

Lemma tables_store {E X} (m : M W E X) : same_tables (in_store (on_store m)).
Proof.
  intros s Hs. unfold exec, in_store, on_store, tables in *. by destruct (m (g_store (store s))).
Qed.

Lemma tables_get k : same_tables (in_store (os_get k)).
Proof. apply tables_store. Qed.

#[local] Ltac tabs :=
  unfold same_tables, stored, authorized, header, audited;
  repeat first
    [ apply tables_get | apply tables_store
    | apply preserves_bind; [|intros ?] | apply preserves_rethrow | apply preserves_attempt
    | apply preserves_when | apply preserves_ret | apply preserves_throw | apply preserves_lift
    | match goal with
      | |- context [match ?x with _ => _ end] => destruct x
      end ].

Lemma tables_local p reference : same_tables (local_manifest lib p reference).
Proof. unfold local_manifest, resolve_manifest_path. tabs. Qed.

Lemma tables_remote rq sq sp aq p kind reference e :
  same_tables (remote_read (gated lib cfg base rq sq sp aq)
                 (mirror_manifest (gated lib cfg base rq sq sp aq)) p kind reference e).
Proof. unfold remote_read. cbn. destruct (mirror_manifest base); cbn; tabs. Qed.
End tables_kept.

Lemma same_tables_run {E X} (m : M World E X) s s' r :
  (forall T, same_tables T m) -> m s = (s', r) -> tables s' = tables s.
Proof. intros Hm E0. specialize (Hm (tables s) s eq_refl). unfold exec in Hm. by rewrite E0 in Hm. Qed.

(** ** Verify-on-pull *)

(** What the registry makes of the bytes of a stored signature. *)
Definition stored_artifact (bytes : str) : option SignatureArtifact :=
  match from_slice (crypto cfg) bytes ≫= de_artifact with
  | Some art => Some art
  | None =>
      (fun env => mkSignatureArtifact MEDIA_TYPE_COSIGN_ENVELOPE_V1 bytes (env_key_ref env) "cosign-key")
        <$> (from_slice (crypto cfg) bytes ≫= de_cosign)
  end.

Definition signature_at (p : RepoPath) (rec : SignatureRecord) : str :=
  store_path lib (blob_path (tenant p) (project p) (name p) (signature_digest rec)).

Lemma load_inv p rec (s s' : World) r :
  load_artifact lib cfg p rec s = (s', r) ->
  objs s' = objs s /\ exists art, r = Ok art /\
    forall a, art = Some a -> exists bytes, objs s !! signature_at p rec = Some bytes /\ stored_artifact bytes = Some a.
Proof.
  intros H. split; [revert H; apply keeps_objs; intros Q; apply keeps_load|].
  unfold load_artifact in H. apply bind_step in H as [(s1 & r1 & H1 & H)|(e & H1 & ->)].
  - apply attempt_inv in H1 as (r' & H1 & [= ->]). apply get_inv in H1 as (_ & Hg & _).
    injection H as _ <-. eexists. split; [done|]. intros a Ha. destruct r' as [bytes|e]; [|done].
    exists bytes. split; [by apply Hg|]. unfold stored_artifact. revert Ha.
    by repeat case_match.
  - apply attempt_inv in H1 as (r' & _ & He). done.
Qed.

Lemma loads_inv p recs : forall (s s' : World) r,
  load_artifacts lib cfg p recs s = (s', r) ->
  objs s' = objs s /\ exists arts, r = Ok arts /\
    forall a, a ∈ arts -> exists rec bytes, rec ∈ recs /\ objs s !! signature_at p rec = Some bytes /\
                                     stored_artifact bytes = Some a.
Proof.
  induction recs as [|rec recs IH]; intros s s' r H; cbn in H.
  { injection H as <- <-. split; [done|]. exists []. split; [done|]. intros a Ha. by apply not_elem_of_nil in Ha. }
  apply bind_step in H as [(s1 & art & H1 & H)|(e & H1 & ->)].
  2:{ apply load_inv in H1 as (_ & art & He & _). done. }
  apply load_inv in H1 as (Ho1 & art' & [= <-] & Hart).
  apply bind_step in H as [(s2 & arts & H2 & H)|(e & H2 & ->)].
  2:{ apply IH in H2 as (_ & arts & He & _). done. }
  apply IH in H2 as (Ho2 & arts' & [= <-] & Harts). injection H as <- <-.
  split; [congruence|]. eexists. split; [done|]. intros a Ha.
  assert (a ∈ arts \/ art = Some a) as [Hin|Hin].
  { destruct art; [apply elem_of_cons in Ha as [->|Ha]; auto|auto]. }
  - destruct (Harts a Hin) as (rec' & bytes & Hr & Hb & Hs). exists rec', bytes.
    split; [by right|]. by rewrite <- Ho1.
  - destruct (Hart a Hin) as (bytes & Hb & Hs). exists rec, bytes. split; [left|done].
Qed.

(** The signatures of an image in the table, and the ones that verify. *)
Definition registered (p : RepoPath) (digest : str) (s : World) (rec : SignatureRecord) : Prop :=
  signed_for (tenant p) (project p) (name p) digest rec = true /\
  rec ∈ map snd (map_to_list (g_signatures (store s))).

Definition verified (p : RepoPath) (digest : str) (policy : VerificationPolicy) (s : World)
    (rec : SignatureRecord) : Prop :=
  exists bytes a k, objs s !! signature_at p rec = Some bytes /\ stored_artifact bytes = Some a /\
    sigstore_attests (crypto cfg) (sigstore cfg) (gate_keys cfg) digest policy a k.

Lemma query_inv q p digest (s s' : World) recs :
  (forall l, by_signed_at q l ≡ₚ l) ->
  query_signatures q p digest s = (s', Ok recs) ->
  s' = s /\ forall rec, rec ∈ recs <-> registered p digest s rec.
Proof.
  intros Hord H. unfold query_signatures in H. destruct (sig_error q); [done|].
  injection H as <- <-. split; [done|]. intros rec. unfold list_for_subject, registered.
  rewrite (Hord _), list_elem_of_In, filter_In, <- list_elem_of_In. tauto.
Qed.

Lemma check_inv p digest policy recs (s s' : World) ok reason :
  required policy = true -> check_signatures lib cfg p digest policy recs s = (s', Ok (ok, reason)) ->
  objs s' = objs s /\
  (ok = true -> exists rec, rec ∈ recs /\ (trusted_refs policy <> [] -> verified p digest policy s rec)).
Proof.
  intros Hr H. split; [revert H; apply keeps_objs; intros Q; apply keeps_check|].
  unfold check_signatures in H. case_bool_decide as Ht.
  - destruct recs as [|rec recs]; injection H as _ <- _; [done|]. intros _. exists rec.
    split; [left|]. by rewrite Ht.
  - inv_bind H as s1 arts H1. apply loads_inv in H1 as (Ho & arts' & [= <-] & Harts).
    intros ->. destruct (sigstore_verify _ _ _ _ _ _) as [o|e] eqn:Ev; [|done].
    injection H as _ Hok _.
    destruct (proj1 (sigstore_trusted (crypto cfg) (sigstore cfg) (gate_keys cfg) digest arts policy Hr))
      as (a & k & Ha & Hk); [eauto|].
    destruct (Harts a Ha) as (rec & bytes & Hrec & Hb & Hs). exists rec. split; [done|]. intros _.
    by exists bytes, a, k.
Qed.

(** A check that passes under a blocking policy found a signature. *)
Lemma enforce_inv rq q who p digest (s s' : World) stored policy :
  gc_pool base = true -> (forall l, by_signed_at q l ≡ₚ l) ->
  snd (Signing.resolve (policy_db q) (tenant p) (project p) (name p) (g_policies (store s))) = Ok stored ->
  pull_policy cfg stored = Some policy -> required policy = true -> vp_on_violation policy = OnBlock ->
  enforce_pull_signature_policy lib cfg base rq q who p digest s = (s', Ok tt) ->
  exists rec, registered p digest s rec /\ (trusted_refs policy <> [] -> verified p digest policy s rec).
Proof.
  intros Hpool Hord Hres Hpol Hreq Hblock H. unfold enforce_pull_signature_policy in H.
  rewrite Hpool in H. cbn [negb] in H. inv_bind H as s1 st H1.
  apply rethrow_ok in H1. pose proof (keeps_objs (A := A) (W := Gate W) _ _ _ _ (fun Q => keeps_policies Q _) H1) as Ho1.
  unfold in_store, on_policies in H1.
  destruct (Signing.resolve _ _ _ _ _) as [t r] eqn:Er. cbn in Hres. subst r.
  assert (t = g_policies (store s)) as ->.
  { revert Er. unfold Signing.resolve, list_for_tenant, policy_query, bind, throw, ret.
    destruct (policy_db_error _); [congruence|]. destruct (rows_to_policies _ _); congruence. }
  injection H1 as <- <-. rewrite Hpol, Hreq in H. cbn [negb] in H.
  inv_bind H as s2 recs H2. apply query_inv in H2 as (-> & Hrecs); [|done].
  inv_bind H as s3 x H3. destruct x as [ok reason].
  apply check_inv in H3 as (Ho3 & Hok); [|done]. destruct ok.
  - destruct (Hok eq_refl) as (rec & Hrec & Hv). exists rec. split.
    + apply Hrecs in Hrec. done.
    + intros Ht. destruct (Hv Ht) as (bytes & a & k & Hb & Ha). exists bytes, a, k. by rewrite <- Ho1.
  - inv_bind H as s4 u H4. by rewrite Hblock in H.
Qed.

(** ** A registered signature is found *)

(** States of the store in which reads of stored objects succeed, and go on
    succeeding. *)
Record steady (R : W -> Prop) : Prop := {
  steady_get w k d : R w -> objects w !! k = Some d -> eval (os_get k) w = Ok d;
  steady_keep w k : R w -> R (exec (os_get k) w)
}.

Section steady.
Context (R : W -> Prop) (HR : steady R).

Lemma get_steady k (s s' : World) (r : result str StoreError) : R (g_store (store s)) ->
  in_store (os_get k) s = (s', r) ->
  R (g_store (store s')) /\ forall d, objs s !! k = Some d -> r = Ok d.
Proof.
  intros Hs E. unfold in_store in E. destruct (os_get k (store s)) as [g r'] eqn:Eg. injection E as <- <-.
  apply on_store_inv in Eg as (w & Eg & Hw & _). cbn. rewrite Hw.
  pose proof (steady_keep R HR _ k Hs) as Hk. unfold exec in Hk. rewrite Eg in Hk. split; [done|].
  intros d Hd. pose proof (steady_get R HR _ k d Hs Hd) as Hg. unfold eval in Hg. by rewrite Eg in Hg.
Qed.

Lemma load_steady p rec (s s' : World) r : R (g_store (store s)) ->
  load_artifact lib cfg p rec s = (s', r) ->
  R (g_store (store s')) /\
  forall bytes a, objs s !! signature_at p rec = Some bytes -> stored_artifact bytes = Some a -> r = Ok (Some a).
Proof.
  intros Hs E. unfold load_artifact, bind, attempt in E. destruct (in_store (os_get _) s) as [s1 r1] eqn:Eg.
  apply get_steady in Eg as [H1 H2]; [|done]. injection E as <- <-. split; [done|].
  intros bytes a Hb Ha. rewrite (H2 bytes Hb). f_equal. rewrite <- Ha. unfold stored_artifact.
  by repeat case_match.
Qed.

Lemma loads_find p recs rec bytes a : stored_artifact bytes = Some a -> rec ∈ recs ->
  forall s : World, R (g_store (store s)) -> objs s !! signature_at p rec = Some bytes ->
  exists s' arts, load_artifacts lib cfg p recs s = (s', Ok arts) /\ a ∈ arts.
Proof.
  intros Ha. induction recs as [|rec0 recs IH]; intros Hrec s Hs Hb; [by apply not_elem_of_nil in Hrec|].
  cbn. destruct (load_artifact lib cfg p rec0 s) as [s1 r1] eqn:E1.
  pose proof (load_steady _ _ _ _ _ Hs E1) as [Hs1 Hfound].
  pose proof (load_inv _ _ _ _ _ E1) as (Ho1 & art & -> & _). rewrite (bind_run _ _ _ _ _ E1).
  destruct (load_artifacts lib cfg p recs s1) as [s2 r2] eqn:E2.
  pose proof (loads_inv _ _ _ _ _ E2) as (_ & arts & -> & _). rewrite (bind_run _ _ _ _ _ E2).
  eexists _, _. split; [reflexivity|]. apply elem_of_cons in Hrec as [<-|Hrec].
  - pose proof (Hfound bytes a Hb Ha) as [= ->]. left.
  - rewrite <- Ho1 in Hb. destruct (IH Hrec s1 Hs1 Hb) as (s2' & arts' & E & Hin). rewrite E2 in E.
    injection E as _ ->. destruct art; [by right|done].
Qed.

Lemma check_passes p digest policy recs rec (s : World) :
  R (g_store (store s)) -> required policy = true -> rec ∈ recs -> verified p digest policy s rec ->
  exists s' reason, check_signatures lib cfg p digest policy recs s = (s', Ok (true, reason)).
Proof.
  intros Hs Hr Hrec (bytes & a & k & Hb & Ha & Hk). unfold check_signatures. case_bool_decide.
  { destruct recs; [by apply not_elem_of_nil in Hrec|]. eexists _, _. reflexivity. }
  destruct (loads_find p recs rec bytes a Ha Hrec s Hs Hb) as (s1 & arts & E & Hin).
  rewrite (bind_run _ _ _ _ _ E).
  destruct (proj2 (sigstore_trusted (crypto cfg) (sigstore cfg) (gate_keys cfg) digest arts policy Hr))
    as (o & Ho & Ht); [eauto|].
  eexists _, _. unfold ret. rewrite Ho, Ht. reflexivity.
Qed.
End steady.

Lemma resolve_same (db : PolicyDb) (t p n : str) (tbl : PolicyTable) : fst (Signing.resolve db t p n tbl) = tbl.
Proof.
  unfold Signing.resolve, list_for_tenant, policy_query, bind, throw, ret.
  destruct (policy_db_error db); [done|]. by destruct (rows_to_policies _ _).
Qed.

(** A check finds a signature that is registered and verifies. *)
Lemma enforce_passes R rq q who p digest (s : World) stored policy rec :
  gc_pool base = true -> (forall l, by_signed_at q l ≡ₚ l) -> sig_error q = None ->
  steady R -> R (g_store (store s)) ->
  snd (Signing.resolve (policy_db q) (tenant p) (project p) (name p) (g_policies (store s))) = Ok stored ->
  pull_policy cfg stored = Some policy -> required policy = true ->
  registered p digest s rec -> verified p digest policy s rec ->
  eval (enforce_pull_signature_policy lib cfg base rq q who p digest) s = Ok tt.
Proof.
  intros Hpool Hord Hsig HR Hs Hres Hpol Hreq Hreg Hver. unfold enforce_pull_signature_policy.
  rewrite Hpool. cbn [negb].
  destruct (Signing.resolve (policy_db q) (tenant p) (project p) (name p) (g_policies (store s))) as [t r] eqn:Er.
  pose proof (resolve_same (policy_db q) (tenant p) (project p) (name p) (g_policies (store s))) as Ht.
  rewrite Er in Ht. cbn in Ht, Hres. subst t r.
  set (s1 := set_store (mkGate (g_store (store s)) (g_policies (store s)) (g_signatures (store s))
               (g_referrers (store s)) (g_admission (store s)) (g_cache (store s))) s).
  assert (rethrow (internal policy_store_display) (in_store (on_policies
            (Signing.resolve (policy_db q) (tenant p) (project p) (name p)))) s = (s1, Ok stored)) as E1.
  { unfold rethrow, in_store, on_policies. by rewrite Er. }
  unfold eval. rewrite (bind_run _ _ _ _ _ E1), Hpol, Hreq. cbn [negb].
  destruct (query_signatures q p digest s1) as [s2 r2] eqn:E2.
  assert (exists recs, r2 = Ok recs) as [recs ->].
  { unfold query_signatures in E2. rewrite Hsig in E2. injection E2 as _ <-. eauto. }
  rewrite (bind_run _ _ _ _ _ E2). apply query_inv in E2 as (-> & Hrecs); [|done].
  destruct (check_passes R HR p digest policy recs rec s1) as (s3 & reason & E3);
    [done|done|by apply Hrecs|done|]. by rewrite (bind_run _ _ _ _ _ E3).
Qed.

(** ** Uploads *)

Definition uploaded_record (rq : Request) (p : RepoPath) (subject body : str) : SignatureRecord :=
  let '(signer, ty, mt) := uploaded_fields cfg body in
  mkSignatureRecord (fresh_id rq) subject (tenant p) (project p) (name p) (digest_of lib body) signer ty
    (Some mt) (len body) None (now rq).

Lemma register_inv rq q who p subject d sz signer ty mt r (s s' : World) x :
  register_signature_metadata lib base rq q who p subject d sz signer ty mt r s = (s', Ok x) ->
  gc_pool base = true /\ objs s' = objs s /\
  g_signatures (store s') = put_signature (mkSignatureRecord (fresh_id rq) subject (tenant p) (project p)
    (name p) d signer ty (Some mt) sz None (now rq)) (g_signatures (store s)).
Proof.
  intros H. split; [|split].
  - unfold register_signature_metadata in H. by destruct (gc_pool base).
  - revert H. apply keeps_objs. intros Q. apply keeps_register.
  - unfold register_signature_metadata in H. destruct (gc_pool base); [cbn [negb] in H|done].
    inv_bind H as s1 u1 H1. destruct (put_error q); [done|]. injection H1 as <-.
    inv_bind H as s2 u2 H2. inv_bind H as s3 u3 H3. apply attempt_inv in H3 as (r3 & H3 & _).
    inv_bind H as s4 u4 H4. injection H as <- _. injection H4 as <- _. cbn.
    unfold audit_record in H3. destruct (record _ _ _ _) as [l r']. injection H3 as <- _. cbn.
    destruct (referrer_fails q); injection H2 as <- _; reflexivity.
Qed.

Lemma stored_tables k d (s s' : World) x :
  stored lib (os_put k d) s = (s', Ok x) -> g_signatures (store s') = g_signatures (store s).
Proof.
  intros H%rethrow_ok. unfold in_store in H. destruct (os_put k d (store s)) as [g r] eqn:E.
  injection H as <- _. apply on_store_inv in E as (w & _ & _ & _ & Hs & _). done.
Qed.

Lemma blob_not_kind p kind rest body : wf_repo p -> safe_segment kind = true -> kind <> "blobs" ->
  store_path lib (object_path (tenant p) (project p) (name p) kind rest) <> blob_at lib p (digest_of lib body).
Proof.
  intros Hp Hk Hne He. destruct (digest_wf lib body) as (hex & Hd & Hh). rewrite Hd in He.
  apply (object_path_inj (store_path lib) (tenant p) (project p) (name p) kind rest
           (tenant p) (project p) (name p) "blobs" ("sha256/" ++ hex)) in He as (_ & ? & _); done.
Qed.

Lemma upload_inv rq q claims p subject body (s s' : World) up :
  wf_repo p -> upload_signature lib cfg base rq q claims p subject body s = (s', Ok up) ->
  gc_pool base = true /\ objs s' !! signature_at p (uploaded_record rq p subject body) = Some body /\
  g_signatures (store s') = put_signature (uploaded_record rq p subject body) (g_signatures (store s)).
Proof.
  intros Hwf H. unfold upload_signature in H. skip_auth H. destruct (negb _); [done|].
  unfold uploaded_record, signature_at. destruct (uploaded_fields cfg body) as [[signer ty] mt].
  inv_bind H as s1 x H1. destruct x as [d i]. injection H as <- _. unfold persist_signature in H1.
  destruct (negb _); [done|]. inv_bind H1 as s2 u2 H2. inv_bind H1 as s3 u3 H3. inv_bind H1 as s4 tag H4.
  assert (s4 = s3) as -> by (unfold lift in H4; congruence).
  inv_bind H1 as s5 u5 H5. inv_bind H1 as s6 u6 H6. injection H1 as <- _ _.
  apply register_inv in H6 as (Hpool & Ho & Hs). split; [done|]. split.
  - rewrite Ho, (stored_put_ok _ _ _ _ _ _ H5). cbn [signature_digest].
    rewrite lookup_insert_ne by (by apply (blob_not_kind p "tags")).
    rewrite (stored_put_ok _ _ _ _ _ _ H3), lookup_insert_ne by (by apply (blob_not_kind p "manifests")).
    by rewrite (stored_put_ok _ _ _ _ _ _ H2), lookup_insert_eq.
  - by rewrite Hs, (stored_tables _ _ _ _ _ H5), (stored_tables _ _ _ _ _ H3), (stored_tables _ _ _ _ _ H2).
Qed.

(** The row of an upload belongs to the repository unless another one has
    registered the same signature of the same image. *)
Lemma upload_registered rq q claims p subject body (s s' : World) up :
  wf_repo p -> upload_signature lib cfg base rq q claims p subject body s = (s', Ok up) ->
  (forall o, g_signatures (store s) !! (subject, digest_of lib body) = Some o ->
     signed_for (tenant p) (project p) (name p) subject o = true /\ signature_digest o = digest_of lib body) ->
  exists rec, registered p subject s' rec /\ objs s' !! signature_at p rec = Some body.
Proof.
  intros Hwf H Howner. apply upload_inv in H as (_ & Hb & Hs); [|done].
  assert (Hrec : sig_subject (uploaded_record rq p subject body) = subject /\
                 signature_digest (uploaded_record rq p subject body) = digest_of lib body /\
                 signed_for (tenant p) (project p) (name p) subject (uploaded_record rq p subject body) = true).
  { unfold uploaded_record, signed_for. destruct (uploaded_fields cfg body) as [[??]?]. cbn.
    by rewrite !str_eqb_refl. }
  destruct Hrec as (Hsub & Hdig & Hfor).
  destruct (put_signature_lookup (uploaded_record rq p subject body) (g_signatures (store s))) as (r & Hr & Hold).
  rewrite <- Hs in Hr. exists r. unfold registered, signature_at in *. rewrite Hdig in Hb.
  assert (signed_for (tenant p) (project p) (name p) subject r = true /\
          signature_digest r = digest_of lib body) as [Hf Hd].
  { rewrite Hsub, Hdig in Hold. destruct (g_signatures (store s) !! (subject, digest_of lib body)) as [o|].
    - destruct (Howner o eq_refl) as [Ho1 Ho2]. destruct Hold as (H1 & H2 & H3 & H4 & H5).
      unfold signed_for in *. rewrite H1, H2, H3, H4. split; [done|congruence].
    - by rewrite Hold. }
  split; [split; [done|]|by rewrite Hd].
  apply list_elem_of_fmap. eexists (_, r). split; [done|]. by apply elem_of_map_to_list.
Qed.

(** ** The admission gate *)

(** A query that leaves its table alone leaves the world alone. *)
Lemma admission_query_same {E X} (m : M AdmissionDb E X) (s : World) r :
  m (g_admission (store s)) = (g_admission (store s), r) -> in_store (on_admission m) s = (s, r).
Proof. intros H. unfold in_store, on_admission. rewrite H. by destruct s as [[]]. Qed.

Lemma list_tenant_run q t (s : World) : exists r,
  snd (list_tenant q t (g_admission (store s))) = r /\
  in_store (on_admission (list_tenant q t)) s = (s, r).
Proof.
  eexists. split; [reflexivity|]. apply admission_query_same. unfold list_tenant. by destruct (adm_error q).
Qed.

(** The signature check touches neither the cache nor the admission tables. *)
Definition decided (s : World) : DecisionCache * AdmissionDb := (g_cache (store s), g_admission (store s)).

Section decided_kept.
Context (D : DecisionCache * AdmissionDb).
#[local] Abbreviation same_decided m := (preserves (fun s : World => decided s = D) m).

Lemma decided_get k : same_decided (in_store (E := StoreError) (os_get k)).
Proof.
  intros s Hs. unfold exec, in_store, decided in *. cbn. unfold on_store.
  by destruct (os_get k (g_store (store s))).
Qed.

Lemma decided_policies {E X} (m : M PolicyTable E X) : same_decided (in_store (on_policies m)).
Proof.
  intros s Hs. unfold exec, in_store, on_policies, decided in *. by destruct (m (g_policies (store s))).
Qed.

Lemma decided_loads p recs : same_decided (load_artifacts lib cfg p recs).
Proof.
  induction recs as [|rec recs IH]; cbn; [apply preserves_ret|].
  apply preserves_bind; [|intros art; apply preserves_bind; [apply IH|intros; apply preserves_ret]].
  unfold load_artifact. apply preserves_bind; [apply preserves_attempt, decided_get|intros; apply preserves_ret].
Qed.

Lemma decided_enforce rq q who p d :
  same_decided (enforce_pull_signature_policy lib cfg base rq q who p d).
Proof.
  unfold enforce_pull_signature_policy, query_signatures, check_signatures.
  repeat first
    [ apply decided_policies | apply decided_loads | apply preserves_gets | by intros s
    | apply preserves_bind; [|intros ?] | apply preserves_rethrow
    | match goal with
      | |- context [match ?x with _ => _ end] => destruct x
      end ].
Qed.

Lemma decided_signature rq q c p d ps : same_decided (admission_signature lib cfg base rq q c p d ps).
Proof.
  unfold admission_signature. repeat case_match; try apply preserves_ret.
  apply preserves_bind; [apply preserves_attempt, decided_enforce|intros; apply preserves_ret].
Qed.
End decided_kept.

Lemma signature_run rq q c p d ps (s : World) : exists s1 sig,
  admission_signature lib cfg base rq q c p d ps s = (s1, Ok (Some sig)) /\ decided s1 = decided s.
Proof.
  destruct (admission_signature lib cfg base rq q c p d ps s) as [s1 r] eqn:E.
  pose proof (decided_signature (decided s) rq q c p d ps s eq_refl) as Hd. unfold exec in Hd. rewrite E in Hd.
  assert (exists sig, r = Ok (Some sig)) as [sig ->]; [|by exists s1, sig].
  revert E. unfold admission_signature. destruct (existsb _ _); [|intros [= _ <-]; eauto].
  destruct (signing_enabled base); [|intros [= _ <-]; eauto].
  unfold bind, attempt. destruct (enforce_pull_signature_policy _ _ _ _ _ _ _ _ _) as [s2 r2].
  intros [= _ <-]. eauto.
Qed.

Lemma admission_audit_ok rq c e p d st (s : World) : eval (admission_audit lib rq c e p d st) s = Ok tt.
Proof. unfold eval, admission_audit, bind, attempt. by destruct (audit_record _ _ _ _). Qed.

Definition admission_input (c : TokenClaims) (p : RepoPath) (digest : str) (sig : option bool) : EvaluateInput :=
  mkEvaluateInput (tenant p) (project p) (name p) digest (claims_bypass_admission c) sig.

Definition verdict_result (v : AdmissionVerdict) : result unit failure :=
  match v with
  | Block reason _ => Err (Fail (ManifestUnverified reason))
  | Allow | Warn _ => Ok tt
  end.

Lemma enforce_admission_eval rq q c p digest (s s1 : World) ps sig :
  gc_pool base = true ->
  snd (list_tenant (list_query q) (tenant p) (g_admission (store s))) = Ok ps -> ps <> [] ->
  admission_signature lib cfg base rq q c p digest ps s = (s1, Ok sig) ->
  eval (enforce_admission lib cfg base rq q c p digest) s
  = verdict_result (snd (Admission.evaluate (clock q) ps (fetch_scan (scan_store cfg) digest)
                           (admission_input c p digest sig) (g_cache (store s)))).
Proof.
  intros Hpool Hlist Hne Hsig. unfold eval, enforce_admission. rewrite Hpool. cbn [negb].
  destruct (list_tenant_run (list_query q) (tenant p) s) as (r & Hr & Hrun). rewrite Hlist in Hr. subst r.
  unfold bind at 1, attempt at 1. rewrite Hrun. clear Hrun. destruct ps as [|pol ps]; [done|].
  rewrite (bind_run _ _ _ _ _ Hsig).
  assert (g_cache (store s1) = g_cache (store s)) as Hc.
  { pose proof (decided_signature (decided s) rq q c p digest (pol :: ps) s eq_refl) as Hd.
    unfold exec in Hd. rewrite Hsig in Hd. by injection Hd. }
  unfold bind at 1, in_store at 1, on_cache at 1. rewrite Hc. fold (admission_input c p digest sig).
  destruct (Admission.evaluate _ _ _ _ _) as [c' v] eqn:Ev. unfold bind at 1, attempt at 1.
  destruct (in_store (on_admission _) _) as [s3 r3]. cbn [snd]. destruct v; cbn; [done|apply admission_audit_ok|].
  unfold bind at 1. pose proof (admission_audit_ok rq c "admission.block" p digest 403 s3) as Ha.
  unfold eval in Ha. by destruct (admission_audit lib rq c "admission.block" p digest 403 s3) as [s4 [[]|e]].
Qed.

Lemma verdict_blocked v : verdict_result v = Ok tt <-> is_block v <> true.
Proof. by destruct v. Qed.
End gate.
