(* ===== verification/GateTheorems.v ===== *)
(** * The gates of the registry

    What a pull that passes verify-on-pull shows, that an uploaded signature is
    found again, when the admission gate refuses, and where the two checks admit
    more than their policies say. *)

From S2P Require Import Prelude Json Text Effects Store Multipart Paths AuditLog RegistryAudit Auth Utf8.
From S2P Require Import Gc Matcher Policy Signing SigningProofs Admission AdmissionProofs.
From S2P Require Import Registry RegistryProofs RegistryFlows RegistryTheorems Gate GateProofs.

Local Open Scope Z_scope.

(** ** Verify-on-pull *)

(** C12: With signing on and a database, a manifest that is served for a reference
    other than a signature tag ([sha256-<hex>.sig], which is served without the
    check), from a repository that has a required, blocking policy, has a
    signature registered for that repository and its digest; if the policy names
    keys, the stored bytes of that signature hold an envelope for the digest
    signed by one of them. *)
Theorem verify_on_pull {W A : Type} `{!ObjectStore W, !ObjectStoreLaws W, !AuditSink A}
    (lib : Libraries) `{!LibraryLaws lib} (cfg : GateConfig) (base : AppState W A) (rq : Request)
    (sq : SigQuery) (sp : SigPut) (aq : AdmissionRq) (claims : TokenClaims) (p : RepoPath)
    (reference : str) (stored : option StoredVerificationPolicy) (policy : VerificationPolicy)
    (s s' : Registry (Gate W) A) (resp : Response)
    (Hsigning : signing_enabled base = true) (Hpool : gc_pool base = true)
    (Horder : forall l, by_signed_at sq l ≡ₚ l) (Href : is_cosign_sig_tag reference = false)
    (Hresolved : snd (Signing.resolve (policy_db sq) (tenant p) (project p) (name p)
                        (g_policies (store s))) = Ok stored)
    (Hpolicy : pull_policy cfg stored = Some policy)
    (Hrequired : required policy = true) (Hblock : vp_on_violation policy = OnBlock)
    (Hpull : get_manifest lib (gated lib cfg base rq sq sp aq) rq claims p reference s = (s', Ok resp)) :
  exists data rec, resp_body resp = Bytes data /\
    registered p (digest_of lib data) s rec /\
    (trusted_refs policy <> [] -> verified lib cfg p (digest_of lib data) policy s' rec).
Proof.
  unfold get_manifest in Hpull. skip_auth Hpull. inv_bind Hpull as s1 local H1. inv_bind Hpull as s2 data H2.
  apply (same_tables_run _ _ _ _ (fun T => tables_local lib T p reference)) in H1 as Ht1.
  assert (tables s2 = tables s1) as Ht2.
  { destruct local; [by injection H2 as <- _|].
    revert H2. apply same_tables_run. intros T. apply tables_remote. }
  change (signing_enabled (gated lib cfg base rq sq sp aq)) with (signing_enabled base) in Hpull.
  rewrite Hsigning, Href in Hpull. cbn [andb negb when] in Hpull.
  inv_bind Hpull as s3 u3 H3. destruct u3. inv_bind Hpull as s4 u4 H4. inv_bind Hpull as s5 hs H5.
  inv_bind Hpull as s6 u6 H6. inv_bind Hpull as s7 u7 H7. injection Hpull as <- <-.
  assert (objs s7 = objs s2) as Ho.
  { apply (keeps_objs _ _ _ _ (fun Q => keeps_enforce lib cfg base Q _ _ _ _ _)) in H3 as <-.
    assert (objs s4 = objs s3) as <-.
    { destruct (admission_enabled _ && _); [|by injection H4 as <- _]. revert H4.
      apply keeps_objs. intros Q. apply keeps_enforce_admission. }
    apply (keeps_objs _ _ _ _ (fun Q => keeps_manifest_headers lib Q _)) in H5 as <-.
    apply attempt_inv in H6 as (r6 & H6 & _).
    apply (keeps_objs _ _ _ _ (fun Q => keeps_audit lib Q _ _)) in H6 as <-.
    by injection H7 as <- _. }
  unfold tables in Ht1, Ht2. injection Ht1 as Hp1 Hs1. injection Ht2 as Hp2 Hs2.
  apply (enforce_inv lib cfg base rq sq _ _ _ _ _ stored policy) in H3 as (rec & Hreg & Hver);
    [|done|done|by cbn; rewrite Hp2, Hp1|done|done|done].
  exists data, rec. split; [done|]. split.
  - unfold registered in *. cbn in Hreg. by rewrite <- Hs1, <- Hs2.
  - intros Ht. destruct (Hver Ht) as (bytes & a & k & Hb & Ha). exists bytes, a, k. by rewrite Ho.
Qed.

(** A signature that was uploaded is found: if the uploaded body attests the
    image under the policy, and no other repository has registered the same
    signature of it, then a check of the image passes, as long as the database
    and the store answer. *)
Theorem uploaded_signature_accepted {W A : Type} `{!ObjectStore W, !ObjectStoreLaws W, !AuditSink A}
    (lib : Libraries) `{!LibraryLaws lib} (cfg : GateConfig) (base : AppState W A) (rq rq' : Request)
    (sp : SigPut) (sq : SigQuery) (claims : TokenClaims) (who : str) (p : RepoPath) (subject body : str)
    (stored : option StoredVerificationPolicy) (policy : VerificationPolicy) (a : SignatureArtifact) (k : str)
    (s s' : Registry (Gate W) A) (up : Uploaded) (Hwf : wf_repo p)
    (Hupload : upload_signature lib cfg base rq sp claims p subject body s = (s', Ok up))
    (Howner : forall o, g_signatures (store s) !! (subject, digest_of lib body) = Some o ->
       signed_for (tenant p) (project p) (name p) subject o = true /\ signature_digest o = digest_of lib body)
    (Hartifact : stored_artifact cfg body = Some a)
    (Hattests : sigstore_attests (crypto cfg) (sigstore cfg) (gate_keys cfg) subject policy a k)
    (Hresolved : snd (Signing.resolve (policy_db sq) (tenant p) (project p) (name p)
                        (g_policies (store s'))) = Ok stored)
    (Hpolicy : pull_policy cfg stored = Some policy) (Hrequired : required policy = true)
    (Hdb : sig_error sq = None) (Horder : forall l, by_signed_at sq l ≡ₚ l)
    (R : W -> Prop) (HR : steady R) (Hreads : R (g_store (store s'))) :
  eval (enforce_pull_signature_policy lib cfg base rq' sq who p subject) s' = Ok tt.
Proof.
  destruct (upload_inv lib cfg base rq sp claims p subject body s s' up Hwf Hupload) as (Hpool & _ & _).
  destruct (upload_registered lib cfg base rq sp claims p subject body s s' up Hwf Hupload Howner)
    as (rec & Hreg & Hb).
  eapply enforce_passes; [done..|]. by exists body, a, k.
Qed.

(** ** Content addressing *)

(** A request of the distribution API, and what the database and the clock
    answer to the checks it goes through. *)
Record GatedRequest : Type := mkGatedRequest {
  gr_request : Request;
  gr_signatures : SigQuery;
  gr_register : SigPut;
  gr_admission : AdmissionRq;
  gr_claims : TokenClaims;
  gr_repo : RepoPath;
  gr_op : op
}.

Definition serve_gated {W A : Type} `{!ObjectStore W, !AuditSink A} (lib : Libraries) (cfg : GateConfig)
    (base : AppState W A) (s : Registry (Gate W) A) (r : GatedRequest) : Registry (Gate W) A :=
  exec (serve lib (gated lib cfg base (gr_request r) (gr_signatures r) (gr_register r) (gr_admission r))
          (gr_request r) (gr_claims r) (gr_repo r) (gr_op r)) s.

(** C1: Content addressing is an invariant of a registry without a pull-through
    mirror: whatever sequence of requests of the distribution API to well-formed
    repositories is served, through verify-on-pull and admission, with whatever
    failures of the store, the database and the audit log, if every object at a
    blob or manifest path of a well-formed repository had the digest of that
    path, it still has. *)
Theorem content_addressing {W A : Type} `{!ObjectStore W, !ObjectStoreLaws W, !AuditSink A}
    (lib : Libraries) `{!LibraryLaws lib} (cfg : GateConfig) (base : AppState W A)
    (rs : list GatedRequest) (s : Registry (Gate W) A)
    (Hmanifest : mirror_manifest base = None) (Hblob : mirror_blob base = None)
    (Hnames : Forall (fun r => wf_repo (gr_repo r)) rs) (Hs : content_addressed lib (objs s)) :
  content_addressed lib (objs (foldl (serve_gated lib cfg base) s rs)).
Proof.
  revert s Hs. induction Hnames as [|r rs Hp _ IH]; intros s Hs; [done|]. cbn [foldl]. apply IH.
  apply (serve_content_addressed lib (gated lib cfg base (gr_request r) (gr_signatures r) (gr_register r) (gr_admission r))
           (gr_request r) (gr_claims r) (gr_repo r) (gr_op r)); [by apply gated_services|done|done].
Qed.

(** ** Admission *)

(** The verdict is the most severe among the applicable policies: it is a
    refusal exactly if one of them refuses, and an admission without a warning
    exactly if all of them admit.  The verdict of a policy is the cached one
    while it lives; otherwise the policy refuses exactly when it requires a
    signature that was not found valid, when there is no scan result and it
    does not admit unknown images, or when a blocking threshold is exceeded. *)
Theorem admission_decision (clock : nat -> Ticks) (policies : list AdmissionPolicy)
    (scan : option (list Vulnerability)) (i : EvaluateInput) (c : DecisionCache)
    (Hclock : forward clock) (Hbypass : bypass i = false)
    (Hids : NoDup (map adm_id (applicable policies i))) :
  (is_block (snd (Admission.evaluate clock policies scan i c)) = true <->
   exists n p, applicable policies i !! n = Some p /\ is_block (effective clock scan i c n p) = true) /\
  (snd (Admission.evaluate clock policies scan i c) = Allow <->
   forall n p, applicable policies i !! n = Some p -> effective clock scan i c n p = Allow) /\
  (forall n p, cache_get (t_get (clock n)) (cache_key (in_digest i) (adm_id p)) c = None ->
     is_block (effective clock scan i c n p) = true <-> refuses p scan (signature_ok i)).
Proof.
  rewrite evaluate_worst, worst_block, worst_allow by done. setoid_rewrite elem_of_imap_effective. split_and!.
  - naive_solver.
  - naive_solver.
  - intros n p Hc. unfold effective. rewrite Hc. apply evaluate_one_block.
Qed.

(** C15: The gate of a pull, for a token that does not bypass it, a digest with no
    decision in the cache and a clock that does not go back.  Without a database,
    or when the policies of the tenant cannot be read or decoded, the pull
    passes.  Otherwise, the policies having distinct ids (their primary key), it
    passes exactly when no applicable policy of the tenant refuses the image,
    given its scan result and the outcome of the signature check. *)
Theorem admission_gate {W A : Type} `{!ObjectStore W, !ObjectStoreLaws W, !AuditSink A}
    (lib : Libraries) `{!LibraryLaws lib} (cfg : GateConfig) (base : AppState W A) (rq : Request)
    (q : AdmissionRq) (claims : TokenClaims) (p : RepoPath) (digest : str)
    (s : Registry (Gate W) A)
    (Hclock : forward (clock q)) (Hbypass : claims_bypass_admission claims = false)
    (Hfresh : forall a, inner (g_cache (store s)) !! cache_key digest (adm_id a) = None) :
  let passes := eval (enforce_admission lib cfg base rq q claims p digest) s = Ok tt in
  if gc_pool base then
    match snd (list_tenant (list_query q) (tenant p) (g_admission (store s))) with
    | Err _ => passes
    | Ok policies =>
        NoDup (map adm_id policies) ->
        exists sig,
          eval (admission_signature lib cfg base rq q claims p digest policies) s = Ok (Some sig) /\
          (passes <->
           forall a, a ∈ applicable policies (admission_input claims p digest (Some sig)) ->
             ~ refuses a (fetch_scan (scan_store cfg) digest) (Some sig))
    end
  else passes.
Proof.
  cbv zeta. destruct (gc_pool base) eqn:Hpool; [|by unfold eval, enforce_admission; rewrite Hpool].
  destruct (list_tenant_run (list_query q) (tenant p) s) as (r & Hr & Hrun). rewrite Hr.
  destruct r as [policies|e].
  2: { unfold eval, enforce_admission. rewrite Hpool. cbn [negb]. unfold bind, attempt. by rewrite Hrun. }
  intros Hids.
  destruct (signature_run lib cfg base rq q claims p digest policies s) as (s1 & sig & Hsig & _).
  exists sig. unfold eval at 1. rewrite Hsig. split; [done|].
  destruct (decide (policies = [])) as [->|Hne].
  { unfold eval, enforce_admission. rewrite Hpool. cbn [negb]. unfold bind, attempt. rewrite Hrun. split; [|done].
    intros _ a Ha. by apply not_elem_of_nil in Ha. }
  rewrite (enforce_admission_eval lib cfg base rq q claims p digest s s1 policies (Some sig)) by done.
  rewrite verdict_blocked, evaluate_fresh; [naive_solver|done|done| |].
  - unfold applicable. revert Hids. clear. induction policies as [|a l IH]; [done|]. cbn.
    intros [Ha Hl]%NoDup_cons. destruct (_ && _); [|by apply IH]. cbn. apply NoDup_cons. split; [|by apply IH].
    intros (b & Hb & Hin)%list_elem_of_fmap. apply Ha. rewrite Hb. apply list_elem_of_fmap. exists b.
    split; [done|]. apply list_elem_of_In, filter_In in Hin as [Hin _]. by apply list_elem_of_In.
  - intros n a _. unfold cache_get. by rewrite Hfresh.
Qed.

(** Decisions are cached under the digest and the policy only, and the dry run
    takes the signature as valid: with signing off, an image that a policy
    refuses for want of a signature is admitted after a dry run of the
    evaluator, until the cached decision expires. *)
Theorem dry_run_admits {W A : Type} `{!ObjectStore W, !ObjectStoreLaws W, !AuditSink A}
    (lib : Libraries) `{!LibraryLaws lib} (cfg : GateConfig) (base : AppState W A) (rq : Request)
    (q q' : AdmissionRq) (admin claims : TokenClaims) (image : str) (p : RepoPath) (digest : str)
    (s s' : Registry (Gate W) A) (a : AdmissionPolicy)
    (Hpool : gc_pool base = true) (Hsigning : signing_enabled base = false)
    (Himage : parse_image_ref image = Ok (mkImageRef (tenant p) (project p) (name p) digest))
    (Hdigest : starts_with "sha256:" digest = true)
    (Hlist : snd (list_tenant (list_query q) (tenant p) (g_admission (store s))) = Ok [a])
    (Hlist' : snd (list_tenant (list_query q') (tenant p) (g_admission (store s))) = Ok [a])
    (Hrequired : signature_required (adm_spec a) = true)
    (Happlies : forall b sig, applicable [a] (mkEvaluateInput (tenant p) (project p) (name p) digest b sig) = [a])
    (Hbypass : claims_bypass_admission claims = false)
    (Hfresh : inner (g_cache (store s)) !! cache_key digest (adm_id a) = None)
    (Hsoon : t_prune (clock q 0) < t_put (clock q 0) + ttl (g_cache (store s)) /\
             t_get (clock q' 0) < t_put (clock q 0) + ttl (g_cache (store s)))
    (Htest : admit_test lib cfg base q admin image None s = (s', Ok Allow)) :
  (exists reason, eval (enforce_admission lib cfg base rq q' claims p digest) s
                  = Err (Fail (ManifestUnverified reason))) /\
  eval (enforce_admission lib cfg base rq q' claims p digest) s' = Ok tt.
Proof.
  assert (Hsig : forall s0, admission_signature lib cfg base rq q' claims p digest [a] s0
                            = (s0, Ok (Some false))).
  { intros s0. unfold admission_signature. cbn. by rewrite Hrequired, Hsigning. }
  assert (Hnone : forall t, cache_get t (cache_key digest (adm_id a)) (g_cache (store s)) = None).
  { intros t. unfold cache_get. by rewrite Hfresh. }
  split.
  - rewrite (enforce_admission_eval lib cfg base rq q' claims p digest s s [a] (Some false)) by done.
    unfold Admission.evaluate, admission_input. cbn [bypass]. rewrite Hbypass, Happlies. cbn [evaluate_loop in_digest].
    rewrite Hnone. unfold evaluate_one. cbn [signature_ok]. rewrite Hrequired. cbn. eauto.
  - assert (s' = set_store (mkGate (g_store (store s')) (g_policies (store s')) (g_signatures (store s'))
                   (g_referrers (store s')) (g_admission (store s)) (g_cache (store s'))) s' /\
            cache_get (t_get (clock q' 0)) (cache_key digest (adm_id a)) (g_cache (store s')) = Some Allow)
      as [Hs' Hcached].
    { unfold admit_test in Htest. inv_bind Htest as s1 u1 H1.
      assert (s1 = s) as -> by (unfold admission_on in H1; destruct (admission_enabled base); by injection H1).
      inv_bind Htest as s2 parsed H2. rewrite Himage in H2. injection H2 as <- <-.
      skip_auth Htest. inv_bind Htest as s3 d H3. unfold reference_digest in H3. cbn [ir_reference] in H3.
      rewrite Hdigest in H3. injection H3 as <- <-. rewrite Hpool in Htest. inv_bind Htest as s4 u4 H4.
      injection H4 as <- _. inv_bind Htest as s5 ps H5. apply rethrow_ok in H5. cbn [ir_tenant] in H5.
      destruct (list_tenant_run (list_query q) (tenant p) s) as (r & Hr & Hrun).
      rewrite Hlist in Hr. subst r. rewrite Hrun in H5. injection H5 as <- <-.
      unfold in_store, on_cache, Admission.evaluate in Htest. cbn [bypass ir_tenant ir_project ir_repository] in Htest.
      rewrite Happlies in Htest. cbn [evaluate_loop in_digest] in Htest. rewrite Hnone in Htest.
      injection Htest as <- Hv. split; [by destruct s as [[]]|]. cbn [store set_store g_cache].
      rewrite cache_get_put_eq by lia. f_equal. cbn [signature_ok] in *. by destruct (evaluate_one _ _ _). }
    rewrite (enforce_admission_eval lib cfg base rq q' claims p digest s' s' [a] (Some false)); [|done| |done|done].
    + unfold Admission.evaluate, admission_input. cbn [bypass]. rewrite Hbypass, Happlies.
      cbn [evaluate_loop in_digest]. by rewrite Hcached.
    + rewrite Hs'. cbn. done.
Qed.

(** A required signature is not required when the tenant has no verification
    policy: with signing on and none stored, the signature check of the gate
    succeeds for every image.  And when the policies cannot be read, the gate
    admits everything. *)
Theorem admission_gaps {W A : Type} `{!ObjectStore W, !ObjectStoreLaws W, !AuditSink A}
    (lib : Libraries) `{!LibraryLaws lib} (cfg : GateConfig) (base : AppState W A) (rq : Request)
    (q : AdmissionRq) (claims : TokenClaims) (p : RepoPath) (digest : str) (s : Registry (Gate W) A) :
  (forall policies,
     signing_enabled base = true -> require_for_pull cfg = false ->
     snd (Signing.resolve (policy_db (inner_check q)) (tenant p) (project p) (name p)
            (g_policies (store s))) = Ok None ->
     eval (admission_signature lib cfg base rq q claims p digest policies) s = Ok (Some true)) /\
  (forall e, adm_error (list_query q) = Some e ->
     eval (enforce_admission lib cfg base rq q claims p digest) s = Ok tt).
Proof.
  split.
  - intros policies Hsign Hreq Hres. unfold eval, admission_signature. destruct (existsb _ _); [|done].
    rewrite Hsign. unfold bind at 1, attempt.
    assert (eval (enforce_pull_signature_policy lib cfg base rq (inner_check q) (claims_sub claims) p digest) s
            = Ok tt) as He.
    { unfold eval, enforce_pull_signature_policy. rewrite Hreq. destruct (gc_pool base); [|done]. cbn [negb].
      unfold bind at 1, rethrow, in_store, on_policies.
      destruct (Signing.resolve _ _ _ _ _) as [t r]. cbn in Hres. subst r. cbn [map_err].
      unfold pull_policy. by rewrite Hreq. }
    unfold eval in He. by destruct (enforce_pull_signature_policy _ _ _ _ _ _ _ _ s) as [s1 [[]|e]].
  - intros e He. unfold eval, enforce_admission. destruct (gc_pool base); [|done]. cbn [negb].
    unfold bind, attempt, in_store, on_admission, list_tenant. by rewrite He.
Qed.

(** A stored policy cannot be replaced under a new identifier once a decision
    refers to it. *)
Theorem decided_policy_is_fixed (q : AdmissionQuery) (p : AdmissionPolicy) (db : AdmissionDb)
    (row : AdmissionRow) (d : Decision) (Hrow : policies db !! (adm_tenant p, adm_name p) = Some row)
    (Hd : d ∈ decisions db) (Href : dec_policy d = Some (ar_id row)) (Hnew : adm_id p <> ar_id row) :
  exists e, Admission.upsert q p db = (db, Err (Internal e)).
Proof.
  unfold Admission.upsert. rewrite Hrow. destruct (adm_error q); [eauto|].
  assert (existsb (fun d => bool_decide (dec_policy d = Some (ar_id row))) (decisions db) = true) as ->.
  { apply existsb_exists. exists d. rewrite <- list_elem_of_In. by rewrite bool_decide_eq_true_2. }
  destruct (str_eqb_spec (ar_id row) (adm_id p)); [congruence|]. rewrite orb_true_r. eauto.
Qed.

(** ** Instances *)

#[local] Existing Instance demo_lib_laws.
#[local] Existing Instance demo_sink.

Definition gate_base (signing : bool) : AppState Memory bool :=
  mkAppState 64 32 4 signing true true true false false None None false None None None
    (fun _ _ _ _ _ => ret tt) (fun _ _ _ _ _ => ret tt) (fun _ _ _ _ _ _ _ _ _ _ _ => ret tt).

Definition gate_cfg : GateConfig :=
  mkGateConfig false demo_keys demo_crypto demo_sigstore None (fun s => s).

Definition demo_stored : StoredVerificationPolicy :=
  mkStoredVerificationPolicy "id" "prod" "a"
    (mkPolicySpec (mkPolicyScope [] []) true [SignerKey "k" None] OnBlock) true OnBlock 0.

Definition demo_adm_policy : AdmissionPolicy :=
  mkAdmissionPolicy "p1" "adm" "a"
    (mkAdmissionPolicySpec (mkAdmissionScope [] []) true (mkSeverityThreshold no_rules no_rules)
       UnknownAllow TimeoutBlock 5) true 0.

Definition demo_policy_db : PolicyDb := mkPolicyDb None "taken" (fun _ => "bad") (fun l => l).
Definition demo_sig_query : SigQuery := mkSigQuery demo_policy_db None (fun l => l).
Definition demo_sig_put : SigPut := mkSigPut None false.
Definition demo_adm_query : AdmissionQuery := mkAdmissionQuery None "taken" (fun _ => "bad") 0 (fun l => l).
Definition demo_adm_rq : AdmissionRq :=
  mkAdmissionRq demo_adm_query demo_adm_query (fun _ => mkTicks 0 0 0) demo_sig_query.

(** The body of a signature of the manifest, and its row. *)
Definition demo_signature : str := to_vec demo_crypto (cosign_value (demo_envelope demo_digest)).
Definition demo_record : SignatureRecord :=
  mkSignatureRecord "u1" demo_digest "a" "b" "c" (digest_of demo_lib demo_signature) (Some ("k" : str))
    "cosign-key" None 0 None 0.

Definition gate_world (signed : bool) : Registry (Gate Memory) bool :=
  mkRegistry
    (mkGate (memory_of (<["a/b/c/blobs/sha256/" ++ demo_sha demo_signature := demo_signature]> demo_objects) [])
       {[("a" : str, "prod" : str) := row_of demo_stored]}
       (if signed then {[(demo_digest, digest_of demo_lib demo_signature) := demo_record]} else ∅) ∅
       (mkAdmissionDb {[("a" : str, "adm" : str) :=
                          mkAdmissionRow "p1" "adm" "a" (admission_spec_value (adm_spec demo_adm_policy)) true 0]} [])
       (new_cache 30))
    db_empty (with_sink true true) ∅ [] [] [].

Definition puller : TokenClaims :=
  mkTokenClaims "i" "bob" "a" 0 0 "j" "t" None None Reader [mkTokenScope "a/b/c" [Auth.Pull]].

Lemma verify_on_pull_witness :
  exists s' resp data rec,
    get_manifest demo_lib (gated demo_lib gate_cfg (gate_base true) demo_rq demo_sig_query demo_sig_put demo_adm_rq)
      demo_rq puller demo_repo "v1" (gate_world true) = (s', Ok resp) /\
    resp_body resp = Bytes data /\ registered demo_repo (digest_of demo_lib data) (gate_world true) rec.
Proof.
  eexists _, _. 
  destruct (verify_on_pull demo_lib gate_cfg (gate_base true) demo_rq demo_sig_query demo_sig_put demo_adm_rq
              puller demo_repo "v1" (Some demo_stored) (as_verification_policy demo_stored) (gate_world true) _ _
              eq_refl eq_refl (fun l => reflexivity l) eq_refl ltac:(vm_compute; reflexivity) eq_refl eq_refl eq_refl
              ltac:(apply run_eval; vm_compute; reflexivity)) as (data & rec & Hb & Hr & _).
  exists data, rec. split; [apply run_eval; vm_compute; reflexivity|]. split; [exact Hb|exact Hr].
Defined.

Lemma content_addressing_witness :
  let push := mkGatedRequest demo_rq demo_sig_query demo_sig_put demo_adm_rq demo_claims demo_repo
                (PutManifest "latest" None "{}") in
  let empty := mkRegistry (mkGate (memory_of ∅ [Late]) ∅ ∅ ∅ (mkAdmissionDb ∅ []) (new_cache 30))
                 db_empty (with_sink true true) ∅ [] [] [] in
  content_addressed demo_lib (objs (foldl (serve_gated demo_lib gate_cfg (gate_base true)) empty [push; push])).
Proof.
  cbv zeta. apply (content_addressing demo_lib gate_cfg (gate_base true)); [reflexivity|reflexivity|repeat constructor|].
  intros t p r d data _ _ [H|H]; change (objs _) with (∅ : gmap str str) in H; by rewrite lookup_empty in H.
Defined.

(** A memory with no fault left is steady. *)
Lemma memory_steady : steady (fun w : Memory => faults w = []).
Proof.
  split; intros w k; cbn; unfold mem_get, faulty, eval, exec.
  - intros d -> Hd. cbn in Hd. by rewrite Hd.
  - intros Hf. rewrite Hf. cbn. by destruct (mem_objects w !! k).
Qed.

Lemma uploaded_signature_accepted_witness :
  exists s' up,
    upload_signature demo_lib gate_cfg (gate_base true) demo_rq demo_sig_put demo_claims demo_repo demo_digest
      demo_signature (gate_world false) = (s', Ok up) /\
    eval (enforce_pull_signature_policy demo_lib gate_cfg (gate_base true) demo_rq demo_sig_query "bob" demo_repo
            demo_digest) s' = Ok tt.
Proof.
  eexists _, _. split; [apply run_eval; vm_compute; reflexivity|].
  refine (uploaded_signature_accepted demo_lib gate_cfg (gate_base true) demo_rq demo_rq demo_sig_put demo_sig_query
    demo_claims "bob" demo_repo demo_digest demo_signature (Some demo_stored) (as_verification_policy demo_stored)
    (demo_artifact demo_digest) "k" (gate_world false) _ _ demo_wf
    ltac:(apply run_eval; vm_compute; reflexivity) _ _ _ _ eq_refl eq_refl eq_refl (fun l => reflexivity l)
    (fun w => faults w = []) memory_steady _).
  - intros o Ho. exfalso. revert Ho. cbn. by rewrite lookup_empty.
  - vm_compute. reflexivity.
  - apply demo_attests. apply (accepts_required "id" "prod" "k" ["k" : str]). by apply list_elem_of_singleton.
  - vm_compute. reflexivity.
  - vm_compute. reflexivity.
Defined.

Lemma demo_forward : forward (clock demo_adm_rq).
Proof. intros m n _. cbn. lia. Qed.

Lemma admission_decision_witness :
  is_block (snd (Admission.evaluate (clock demo_adm_rq) [demo_adm_policy] None
                   (admission_input puller demo_repo demo_digest (Some false)) (new_cache 30))) = true.
Proof.
  refine (proj2 (proj1 (admission_decision (clock demo_adm_rq) [demo_adm_policy] None
            (admission_input puller demo_repo demo_digest (Some false)) (new_cache 30) demo_forward eq_refl _)) _).
  - vm_compute. apply NoDup_singleton.
  - exists 0%nat, demo_adm_policy. split; reflexivity.
Defined.

Lemma admission_gate_witness :
  exists sig,
    eval (admission_signature demo_lib gate_cfg (gate_base true) demo_rq demo_adm_rq puller demo_repo demo_digest
            [demo_adm_policy]) (gate_world true) = Ok (Some sig) /\
    (eval (enforce_admission demo_lib gate_cfg (gate_base true) demo_rq demo_adm_rq puller demo_repo demo_digest)
       (gate_world true) = Ok tt <->
     forall a, a ∈ applicable [demo_adm_policy] (admission_input puller demo_repo demo_digest (Some sig)) ->
       ~ refuses a None (Some sig)).
Proof.
  pose proof (admission_gate demo_lib gate_cfg (gate_base true) demo_rq demo_adm_rq puller demo_repo demo_digest
            (gate_world true) demo_forward eq_refl (fun a => lookup_empty _)) as H. cbv zeta in H.
  change (gc_pool (gate_base true)) with true in H.
  assert (Hl : snd (list_tenant (list_query demo_adm_rq) (tenant demo_repo) (g_admission (store (gate_world true))))
          = Ok [demo_adm_policy]) by (vm_compute; reflexivity).
  rewrite Hl in H. exact (H (NoDup_singleton _)).
Defined.

Lemma dry_run_admits_witness :
  exists s', admit_test demo_lib gate_cfg (gate_base false) demo_adm_rq demo_claims ("a/b/c@" ++ demo_digest) None
               (gate_world false) = (s', Ok Allow) /\
    eval (enforce_admission demo_lib gate_cfg (gate_base false) demo_rq demo_adm_rq puller demo_repo demo_digest) s'
    = Ok tt.
Proof.
  eexists. split; [apply run_eval; vm_compute; reflexivity|].
  refine (proj2 (dry_run_admits demo_lib gate_cfg (gate_base false) demo_rq demo_adm_rq demo_adm_rq demo_claims puller
            ("a/b/c@" ++ demo_digest) demo_repo demo_digest (gate_world false) _ demo_adm_policy eq_refl eq_refl
            _ _ _ _ eq_refl _ eq_refl _ _ _)).
  - vm_compute. reflexivity.
  - vm_compute. reflexivity.
  - vm_compute. reflexivity.
  - vm_compute. reflexivity.
  - intros b sig. vm_compute. reflexivity.
  - cbn. apply lookup_empty.
  - cbn. lia.
  - apply run_eval. vm_compute. reflexivity.
Defined.
