(* ===== verification/Promote.v ===== *)
(** * Promotion ([crates/specton-registry/src/promote.rs] and its handler)

    Copying an image from one repository to another, in one object store or
    between two: the objects the manifest references, the manifest, the
    signature, and last the tag.  The source store, the destination store if it
    is another one, and the table of promotions form the state [Sides]. *)

From S2P Require Import Prelude Json Text Effects Store Paths AuditLog RegistryAudit Auth Utf8.
From S2P Require Import Multipart Matcher Policy Signing Admission Registry Gate.

Local Open Scope Z_scope.

(** [ObjectStore::copy], which only this component calls. *)
Class CopyStore (W : Type) : Type := os_copy : str -> str -> M W StoreError unit.

Class CopyLaws (W : Type) `{ObjectStoreLaws W, CopyStore W} : Prop := {
  copy_ok w w' a b :
    os_copy a b w = (w', Ok tt) ->
    exists d, objects w !! a = Some d /\ objects w' = <[b := d]> (objects w);
  copy_err w w' a b e :
    os_copy a b w = (w', Err e) ->
    objects w' = objects w \/
    exists d, objects w !! a = Some d /\ objects w' = <[b := d]> (objects w)
}.

Definition mem_copy (a b : str) : M Memory StoreError unit :=
  fun s => match mem_objects s !! a with
           | Some d => (set_objects <[b := d]> s, Ok tt)
           | None => (s, Err (NotFound a))
           end.

#[global] Instance memory_copy : CopyStore Memory := fun a b => faulty (mem_copy a b).

(** ** Requests *)

Inductive PromoteMode : Type :=
| Force
| DryRun
| OnPolicyPass (policy : str).

Record PromoteRequest : Type := mkPromoteRequest {
  pr_source : ImageRef;
  pr_dest : ImageRef;
  include_signatures : bool;
  include_attestations : bool;
  pr_mode : PromoteMode
}.

Record PromoteOutcome : Type := mkPromoteOutcome {
  po_id : str;
  src_digest : str;
  dst_digest : str;
  po_state : str;
  bytes_copied : Z;
  blob_count : Z;
  signatures_copied : Z;
  po_dry_run : option bool
}.

(** A row of [promotions]. *)
Record PromotionRow : Type := mkPromotionRow {
  row_actor : str;
  row_source : ImageRef;
  row_digest : str;
  row_dest : ImageRef;
  row_state : str;
  row_finished : option Z;
  row_bytes : Z;
  row_blobs : Z;
  row_signatures : Z
}.

(** ** The state *)

Record Sides (W : Type) : Type := mkSides {
  near : W;
  far : option W;
  promotions : gmap str PromotionRow
}.
Arguments mkSides {W}.
Arguments near {W}.
Arguments far {W}.
Arguments promotions {W}.

Section sides.
Context {W : Type}.

Definition on_near {E X} (m : M W E X) : M (Sides W) E X :=
  fun s => let '(w, r) := m (near s) in (mkSides w (far s) (promotions s), r).

(** The destination: the second store, or the first one if there is none. *)
Definition on_dest {E X} (m : M W E X) : M (Sides W) E X :=
  fun s => match far s with
           | None => on_near m s
           | Some v => let '(v, r) := m v in (mkSides (near s) (Some v) (promotions s), r)
           end.

Definition same_store (s : Sides W) : bool :=
  match far s with
  | None => true
  | Some _ => false
  end.

Definition set_promotions (f : gmap str PromotionRow -> gmap str PromotionRow) (s : Sides W) : Sides W :=
  mkSides (near s) (far s) (f (promotions s)).
End sides.

(** The registry's own store is the near one. *)
#[export] Instance sides_store {W} `{ObjectStore W} : ObjectStore (Sides W) := {
  os_put p d := on_near (os_put p d);
  os_get p := on_near (os_get p);
  os_head p := on_near (os_head p);
  os_delete p := on_near (os_delete p);
  os_list pre := on_near (os_list pre);
  os_list_with_delimiter pre := on_near (os_list_with_delimiter pre);
  os_put_multipart p := on_near (os_put_multipart p);
  os_put_part u i d := on_near (os_put_part u i d);
  os_complete u := on_near (os_complete u);
  os_abort u := on_near (os_abort u)
}.

(** ** Manifests *)

(** [manifest.get(k).and_then(as_array)], empty if there is none. *)
Definition array_of (k : str) (v : json) : list json :=
  match json_get k v with
  | Some (JArray l) => l
  | _ => []
  end.

Definition digest_field (v : json) : option str := json_get "digest" v ≫= as_str.

Definition collect_referenced_digests (manifest : json) : list str :=
  option_list (json_get "config" manifest ≫= digest_field)
  ++ omap digest_field (array_of "layers" manifest)
  ++ omap digest_field (array_of "manifests" manifest).

(** [u64] and [u32] counters, which wrap in a release build. *)
Definition u64_add (a b : Z) : Z := (a + b) mod (u64_max + 1).
Definition u32_of (n : Z) : Z := n mod (u32_max + 1).

(** The cosign tag of a digest. *)
Definition sig_tag_of (digest : str) : str :=
  "sha256-" ++ (match strip_prefix "sha256:" digest with
                | Some hex => hex
                | None => digest
                end) ++ ".sig".

(** How the statements of a promotion behave: its identifier and clock, and
    whether the two statements on [promotions] fail, which the code ignores. *)
Record PromoteRq : Type := mkPromoteRq {
  pq_id : str;
  pq_finished : Z;
  insert_fails : bool;
  update_fails : bool
}.

Section promote.
Context {W : Type} `{ObjectStore W} `{CopyStore W} (lib : Libraries).

Abbreviation World := (Sides W).

(** [.map_err(|e| RegistryError::Storage(e.to_string()))?] *)
Definition stored_at {X} (m : M World StoreError X) : M World RegistryError X :=
  rethrow (fun e => Storage (store_display lib e)) m.

(** The two stores, as runs of a store operation. *)
Inductive side : Type := Src | Dst.

Definition on_side {E X} (s : side) (m : M W E X) : M World E X :=
  match s with
  | Src => on_near m
  | Dst => on_dest m
  end.

Definition store_get (s : side) (path : str) : M World RegistryError str :=
  rethrow (fun e => if is_store_not_found e then ManifestUnknown path else Storage (store_display lib e))
    (on_side s (os_get (store_path lib path))).

Definition store_exists (s : side) (path : str) : M World RegistryError bool :=
  let! r := attempt (on_side s (os_head (store_path lib path))) in
  match r with
  | Ok _ => ret true
  | Err e => if is_store_not_found e then ret false else throw (Storage (store_display lib e))
  end.

Definition head_size (s : side) (path : str) : M World RegistryError Z :=
  let! meta := stored_at (on_side s (os_head (store_path lib path))) in
  ret (size meta).

Definition get_put (from to : str) : M World RegistryError Z :=
  let! bytes := store_get Src from in
  do! stored_at (on_side Dst (os_put (store_path lib to) bytes)) in
  ret (Z.of_nat (length bytes)).

Definition copy_object (from to : str) : M World RegistryError Z :=
  let! same := gets same_store in
  if same && str_eqb from to then head_size Src from
  else
    let! there := store_exists Dst to in
    if there : bool then head_size Dst to
    else if same : bool then
      let! r := attempt (F := StoreError) (on_side Src (os_copy (store_path lib from) (store_path lib to))) in
      match r with
      | Ok _ => head_size Dst to
      | Err _ => get_put from to
      end
    else get_put from to.

Definition resolve_digest (r : ImageRef) : M World RegistryError (str * str) :=
  let! digest :=
    if starts_with "sha256:" (ir_reference r) then ret (ir_reference r)
    else
      let! bytes := rethrow (fun _ => TagUnknown (ir_reference r))
                      (store_get Src (tag_link_path (ir_tenant r) (ir_project r) (ir_repository r)
                                        (ir_reference r))) in
      ret (trim (from_utf8_lossy bytes)) in
  let! bytes := rethrow (fun _ => ManifestUnknown digest)
                  (store_get Src (manifest_path (ir_tenant r) (ir_project r) (ir_repository r) digest)) in
  ret (digest, bytes).

Definition blob_of (r : ImageRef) (digest : str) : str :=
  blob_path (ir_tenant r) (ir_project r) (ir_repository r) digest.
Definition manifest_of (r : ImageRef) (digest : str) : str :=
  manifest_path (ir_tenant r) (ir_project r) (ir_repository r) digest.
Definition tag_of (r : ImageRef) (tag : str) : str :=
  tag_link_path (ir_tenant r) (ir_project r) (ir_repository r) tag.

(** The loop over the referenced digests: the bytes copied and the objects. *)
Fixpoint copy_blobs (src dst : ImageRef) (digests : list str) (bytes count : Z) :
    M World RegistryError (Z * Z) :=
  match digests with
  | [] => ret (bytes, count)
  | dig :: digests' =>
      let! is_blob := store_exists Src (blob_of src dig) in
      if is_blob : bool then
        let! n := copy_object (blob_of src dig) (blob_of dst dig) in
        copy_blobs src dst digests' (u64_add bytes n) (u32_of (count + 1))
      else
        let! is_manifest := store_exists Src (manifest_of src dig) in
        if is_manifest : bool then
          let! n := copy_object (manifest_of src dig) (manifest_of dst dig) in
          copy_blobs src dst digests' (u64_add bytes n) (u32_of (count + 1))
        else throw (BlobUnknown dig)
  end.

(** The loop over the blobs of a signature manifest. *)
Fixpoint copy_signature_blobs (src dst : ImageRef) (digests : list str) (bytes : Z) :
    M World RegistryError Z :=
  match digests with
  | [] => ret bytes
  | dig :: digests' =>
      let! is_blob := store_exists Src (blob_of src dig) in
      if is_blob : bool then
        let! n := copy_object (blob_of src dig) (blob_of dst dig) in
        copy_signature_blobs src dst digests' (u64_add bytes n)
      else copy_signature_blobs src dst digests' bytes
  end.

(** The signature behind the cosign tag: the bytes copied so far and whether
    one was copied. *)
Definition copy_signature (src dst : ImageRef) (digest : str) (bytes : Z) :
    M World RegistryError (Z * Z) :=
  let sig_tag := sig_tag_of digest in
  let! linked := store_exists Src (tag_of src sig_tag) in
  if negb linked then ret (bytes, 0)
  else
    let! link := store_get Src (tag_of src sig_tag) in
    let sig_digest := trim (from_utf8_lossy link) in
    let! there := store_exists Src (manifest_of src sig_digest) in
    if negb there then ret (bytes, 0)
    else
      let! sig_bytes := store_get Src (manifest_of src sig_digest) in
      let! bytes := match parse_json lib sig_bytes with
                    | Some sig_json => copy_signature_blobs src dst (collect_referenced_digests sig_json) bytes
                    | None => ret bytes
                    end in
      let! n := copy_object (manifest_of src sig_digest) (manifest_of dst sig_digest) in
      do! stored_at (on_side Dst (os_put (store_path lib (tag_of dst sig_tag)) sig_digest)) in
      ret (u64_add bytes n, 1).

(** Everything a promotion writes before the tag: the counters. *)
Definition copy_image (req : PromoteRequest) (digest : str) (digests : list str) :
    M World RegistryError (Z * Z * Z) :=
  let! (bytes, count) := copy_blobs (pr_source req) (pr_dest req) digests 0 0 in
  let! n := copy_object (manifest_of (pr_source req) digest) (manifest_of (pr_dest req) digest) in
  let bytes := u64_add bytes n in
  if include_signatures req then
    let! (bytes, sigs) := copy_signature (pr_source req) (pr_dest req) digest bytes in
    ret (bytes, count, sigs)
  else ret (bytes, count, 0).

(** The two statements on [promotions], whose failures are ignored. *)
Definition insert_promotion (rq : PromoteRq) (actor : str) (req : PromoteRequest) (digest : str) :
    M World RegistryError unit :=
  modify (set_promotions (fun t =>
    if insert_fails rq || bool_decide (is_Some (t !! pq_id rq)) then t
    else <[pq_id rq := mkPromotionRow actor (pr_source req) digest (pr_dest req) "copying" None 0 0 0]> t)).

(** [n as i32] *)
Definition as_i32 (n : Z) : Z := (n + 2 ^ 31) mod 2 ^ 32 - 2 ^ 31.

Definition finish_promotion (rq : PromoteRq) (bytes count sigs : Z) : M World RegistryError unit :=
  modify (set_promotions (fun t =>
    if update_fails rq then t
    else alter (fun r => mkPromotionRow (row_actor r) (row_source r) (row_digest r) (row_dest r) "done"
                           (Some (pq_finished rq)) (i64_wrap bytes) (as_i32 count) (as_i32 sigs))
           (pq_id rq) t)).

Definition is_dry_run (m : PromoteMode) : bool :=
  match m with
  | DryRun => true
  | Force | OnPolicyPass _ => false
  end.

(** The copies, then the tag link, unless the destination is named by digest. *)
Definition publish (pool : bool) (rq : PromoteRq) (req : PromoteRequest) (digest : str) (digests : list str) :
    M World RegistryError PromoteOutcome :=
  let! (bytes, count, sigs) := copy_image req digest digests in
  do! when (negb (starts_with "sha256:" (ir_reference (pr_dest req))))
        (stored_at (on_side Dst (os_put (store_path lib (tag_of (pr_dest req) (ir_reference (pr_dest req))))
                                   digest))) in
  do! when pool (finish_promotion rq bytes count sigs) in
  ret (mkPromoteOutcome (pq_id rq) digest digest "done" bytes count sigs None).

Definition promote (pool : bool) (rq : PromoteRq) (actor : str) (req : PromoteRequest) :
    M World RegistryError PromoteOutcome :=
  let! (digest, bytes) := resolve_digest (pr_source req) in
  let! manifest := lift (ok_or (parse_json lib bytes) (ManifestInvalid (json_error lib bytes))) in
  let digests := collect_referenced_digests manifest in
  if is_dry_run (pr_mode req) then
    ret (mkPromoteOutcome (pq_id rq) digest digest "dry_run" 0 (u32_of (Z.of_nat (length digests))) 0 (Some true))
  else
    do! when pool (insert_promotion rq actor req digest) in
    publish pool rq req digest digests.
End promote.

(** ** The handler *)

Record PromoteBody : Type := mkPromoteBody {
  pb_source : str;
  pb_dest : str;
  pb_signatures : bool;
  pb_attestations : bool;
  pb_mode : option str;
  pb_policy : option str
}.

Definition mode_of (body : PromoteBody) : PromoteMode :=
  match pb_mode body with
  | Some m =>
      if str_eqb m "dry_run" || str_eqb m "dry-run" then DryRun
      else if str_eqb m "on_policy_pass" then OnPolicyPass (default [] (pb_policy body))
      else Force
  | None => Force
  end.

(** The request of a body whose references parse; a policy is checked before. *)
Definition request_of (body : PromoteBody) (source dest : ImageRef) : PromoteRequest :=
  mkPromoteRequest source dest (pb_signatures body) (pb_attestations body)
    (match mode_of body with
     | OnPolicyPass _ => Force
     | m => m
     end).

Section handler.
Context {W A : Type} `{ObjectStore W} `{CopyStore W} `{AuditSink A}.
Context (lib : Libraries) (cfg : GateConfig) (promotion_enabled : bool) (base : AppState (Sides W) A).

Abbreviation World := (Registry (Gate (Sides W)) A).

(** The admission policies of the destination, on the digest of the source,
    with the signature taken as valid. *)
Definition policy_pass (q : AdmissionRq) (source dest : ImageRef) (policy : str) : M World failure unit :=
  if negb (admission_enabled base) then ret tt
  else
    let! digest := reference_digest lib source in
    do! (if gc_pool base then ret tt else throw (Fail (Internal "on_policy_pass requires Postgres"))) in
    let! policies := rethrow Fail (in_store (on_admission (list_tenant (list_query q) (ir_tenant dest)))) in
    let policies := if non_empty policy then List.filter (fun a => str_eqb (adm_name a) policy) policies
                    else policies in
    let scan := fetch_scan (scan_store cfg) digest in
    let! verdict := in_store (on_cache (Admission.evaluate (clock q) policies scan
      (mkEvaluateInput (ir_tenant dest) (ir_project dest) (ir_repository dest) digest false (Some true)))) in
    match verdict with
    | Block reason _ => throw (Fail (ManifestUnverified ("promote on_policy_pass failed: " ++ reason)))
    | Allow | Warn _ => ret tt
    end.

Definition promote_handler (rq : Request) (pq : PromoteRq) (q : AdmissionRq) (claims : TokenClaims)
    (body : PromoteBody) : M World failure PromoteOutcome :=
  do! (if promotion_enabled then ret tt
       else throw (Fail (Forbidden "promotion disabled ([promotion] enabled=false)"))) in
  let! source := rethrow Fail (lift (parse_image_ref (pb_source body))) in
  let! dest := rethrow Fail (lift (parse_image_ref (pb_dest body))) in
  do! authorized claims (repo_of source) Pull in
  do! authorized claims (repo_of dest) Push in
  do! match mode_of body with
      | OnPolicyPass policy => policy_pass q source dest policy
      | Force | DryRun => ret tt
      end in
  let! outcome := rethrow Fail (in_store (on_store (promote lib (gc_pool base) pq (claims_sub claims)
                                                      (request_of body source dest)))) in
  let! _ := attempt (F := str) (audit_record lib rq
              (mkRegistryAuditEvent (now rq) "manifest.promote" (claims_sub claims) (ir_tenant dest)
                 (ir_project dest) (ir_repository dest) (ir_reference dest) (dst_digest outcome)
                 (bytes_copied outcome) 200 0)) in
  ret outcome.
End handler.
