(* ===== verification/PromoteProofs.v ===== *)
(** * Lemmas about promotion

    What the steps of a promotion may change, as a relation between the states
    before and after ([grown]), and a small program logic of triples on top of
    it. *)

From stdpp Require Import relations.
From S2P Require Import Prelude Json Text Effects Store Paths AuditLog RegistryAudit Auth Utf8.
From S2P Require Import Signing Admission Registry RegistryProofs RegistryFlows Gate Promote.

Local Open Scope Z_scope.

Lemma mem_copy_inv a b s s' r :
  mem_copy a b s = (s', r) ->
  (exists d, mem_objects s !! a = Some d /\ s' = set_objects <[b := d]> s /\ r = Ok tt) \/
  (s' = s /\ r = Err (NotFound a)).
Proof. unfold mem_copy. destruct (mem_objects s !! a) as [d|]; intros [= <- <-]; eauto. Qed.

#[global] Instance memory_copy_laws : CopyLaws Memory.
Proof.
  split; unfold os_copy, memory_copy; intros w w' a b.
  - intros [[(d & Hd & -> & _)|[_ [=]]]%mem_copy_inv|(st & e & [=] & _)]%faulty_inv. eauto.
  - intros e [[(d & Hd & _ & [=])|[-> _]]%mem_copy_inv|(st & e' & _ & [->| ->])]%faulty_inv; auto.
    unfold exec. destruct (mem_copy a b (unfault w)) as [s1 r1] eqn:E.
    apply mem_copy_inv in E as [(d & Hd & -> & _)|[-> _]]; [right; eauto|by left].
Qed.

Section sides.
Context {W : Type} `{!ObjectStore W, !ObjectStoreLaws W, !CopyStore W, !CopyLaws W} (lib : Libraries).

Abbreviation World := (Sides W).

Definition src_objs (s : World) : gmap str str := objects (near s).
Definition dst_objs (s : World) : gmap str str :=
  match far s with
  | None => objects (near s)
  | Some v => objects v
  end.
Definition objs_on (sd : side) : World -> gmap str str :=
  match sd with
  | Src => src_objs
  | Dst => dst_objs
  end.

Lemma same_store_objs s : same_store s = true -> dst_objs s = src_objs s.
Proof. unfold same_store, dst_objs, src_objs. by destruct (far s). Qed.

(** ** What a run may change

    Objects are kept; a new object of the destination is a copy, between two
    keys that [K] relates, of an object of the source.  The keys of [T], tag
    links, may be overwritten.  A source store that is not the destination is
    left alone. *)
Definition kept (T : str -> Prop) (o o' : gmap str str) : Prop :=
  forall k x, o !! k = Some x -> is_Some (o' !! k) /\ (~ T k -> o' !! k = Some x).

Definition effects (K : str -> str -> Prop) (T : str -> Prop) (s s' : World) : Prop :=
  same_store s' = same_store s /\
  (same_store s = false -> src_objs s' = src_objs s) /\
  kept T (src_objs s) (src_objs s') /\ kept T (dst_objs s) (dst_objs s') /\
  forall k x, ~ T k -> dst_objs s' !! k = Some x ->
    dst_objs s !! k = Some x \/ exists a, K a k /\ (~ T a -> src_objs s' !! a = Some x).

Lemma kept_refl T o : kept T o o.
Proof. intros k x Hx. by rewrite Hx. Qed.

Lemma kept_trans T o1 o2 o3 : kept T o1 o2 -> kept T o2 o3 -> kept T o1 o3.
Proof.
  intros H1 H2 k x Hx. destruct (H1 k x Hx) as [[y Hy] Hk]. destruct (H2 k y Hy) as [Hs _].
  split; [done|]. intros Ht. apply (H2 k x (Hk Ht)), Ht.
Qed.

Lemma kept_insert (T : str -> Prop) o k d :
  T k \/ o !! k = None \/ o !! k = Some d -> kept T o (<[k := d]> o).
Proof.
  intros Hk i x Hx. destruct (decide (k = i)) as [<-|Hne].
  - rewrite lookup_insert_eq. split; [done|]. intros Ht. naive_solver.
  - by rewrite lookup_insert_ne, Hx.
Qed.

(** A step that leaves the objects as they are. *)
Definition same_objs (s s' : World) : Prop :=
  src_objs s' = src_objs s /\ dst_objs s' = dst_objs s /\ same_store s' = same_store s.

Lemma same_objs_trans s1 s2 s3 : same_objs s1 s2 -> same_objs s2 s3 -> same_objs s1 s3.
Proof. unfold same_objs. intuition congruence. Qed.

Lemma same_effects K T s s' : same_objs s s' -> effects K T s s'.
Proof.
  intros (Hs & Hd & Hb). unfold effects. rewrite Hs, Hd. split_and!; try done; [apply kept_refl..|]. auto.
Qed.

Lemma effects_trans K T s1 s2 s3 : effects K T s1 s2 -> effects K T s2 s3 -> effects K T s1 s3.
Proof.
  intros (Hb1 & Hu1 & Hs1 & Hd1 & Hn1) (Hb2 & Hu2 & Hs2 & Hd2 & Hn2). split_and!.
  - congruence.
  - intros H. rewrite Hu2, Hu1; congruence.
  - by eapply kept_trans.
  - by eapply kept_trans.
  - intros k x Ht [Hx|(a & Hk & Ha)]%Hn2; [|by eauto|done].
    apply Hn1 in Hx as [Hx|(a & Hk & Ha)]; [by auto| |done].
    right. exists a. split; [done|]. intros HT. by apply (Hs2 a x (Ha HT)).
Qed.

(** A write to the destination that may insert [d] at [k]. *)
Definition may_insert (k d : str) (s s' : World) : Prop :=
  same_store s' = same_store s /\
  (dst_objs s' = dst_objs s \/ dst_objs s' = <[k := d]> (dst_objs s)) /\
  src_objs s' = if same_store s then dst_objs s' else src_objs s.

(** When it is one of the writes of a promotion. *)
Definition allowed (K : str -> str -> Prop) (T : str -> Prop) (k d : str) (s : World) : Prop :=
  T k \/ ((dst_objs s !! k = None \/ dst_objs s !! k = Some d) /\
          exists a, K a k /\ src_objs s !! a = Some d).

Definition write (K : str -> str -> Prop) (T : str -> Prop) (s s' : World) : Prop :=
  same_objs s s' \/ exists k d, may_insert k d s s' /\ allowed K T k d s.

Definition grown (K : str -> str -> Prop) (T : str -> Prop) : World -> World -> Prop := rtc (write K T).

Lemma grown_trans K T s1 s2 s3 : grown K T s1 s2 -> grown K T s2 s3 -> grown K T s1 s3.
Proof. intros; by etrans. Qed.

Lemma same_grown K T s s' : same_objs s s' -> grown K T s s'.
Proof. intros H. apply rtc_once. by left. Qed.

Lemma insert_grown (K : str -> str -> Prop) (T : str -> Prop) k d s s' :
  may_insert k d s s' -> allowed K T k d s -> grown K T s s'.
Proof. intros H1 H2. apply rtc_once. right. eauto. Qed.

Lemma insert_effects (K : str -> str -> Prop) (T : str -> Prop) k d s s' :
  may_insert k d s s' -> allowed K T k d s -> effects K T s s'.
Proof.
  unfold allowed. intros (Hb & Hd & Hs) Hk.
  assert (Hkept : kept T (dst_objs s) (dst_objs s')).
  { destruct Hd as [->| ->]; [apply kept_refl|]. apply kept_insert. naive_solver. }
  assert (Hsrc : kept T (src_objs s) (src_objs s')).
  { rewrite Hs. destruct (same_store s) eqn:E; [|apply kept_refl]. by rewrite <- same_store_objs. }
  split; [done|]. split; [by intros E; rewrite Hs, E|]. split; [done|]. split; [done|].
  intros i x Ht Hx. destruct Hd as [Hd|Hd]; rewrite Hd in Hx; [by left|].
  destruct (decide (k = i)) as [<-|Hne]; [|rewrite lookup_insert_ne in Hx by done; by left].
  rewrite lookup_insert_eq in Hx. injection Hx as <-. destruct Hk as [Hk|[_ (a & Hk & Ha)]]; [done|].
  right. exists a. split; [done|]. intros HT. by apply (Hsrc a d Ha).
Qed.

Lemma grown_effects K T s s' : grown K T s s' -> effects K T s s'.
Proof.
  induction 1 as [s|s1 s2 s3 [Hs|(k & d & Hi & Ha)] _ IH]; [by apply same_effects| |].
  - eapply effects_trans; [by apply same_effects|done].
  - eapply effects_trans; [by eapply insert_effects|done].
Qed.

(** ** The operations of the stores *)

Lemma on_near_inv {E X} (m : M W E X) s s' r :
  on_near m s = (s', r) ->
  exists w, m (near s) = (w, r) /\ near s' = w /\ far s' = far s.
Proof. unfold on_near. destruct (m (near s)) as [w r']. intros [= <- <-]. by exists w. Qed.

Lemma on_side_read {E X} sd (m : M W E X) s s' r :
  (forall w, objects (exec m w) = objects w) -> on_side sd m s = (s', r) ->
  same_objs s s' /\ exists w w', objects w = objs_on sd s /\ m w = (w', r).
Proof.
  intros Hm. assert (Hr : forall w w' r, m w = (w', r) -> objects w' = objects w).
  { intros w w' r' E1. pose proof (Hm w) as H. unfold exec in H. by rewrite E1 in H. }
  destruct sd; cbn [on_side]; unfold same_objs, objs_on, src_objs, dst_objs, same_store.
  - intros (w & Hw & <- & ->)%on_near_inv. rewrite (Hr _ _ _ Hw).
    split; [by destruct (far s)|by exists (near s), (near s')].
  - unfold on_dest. destruct (far s) as [v|] eqn:Ef.
    + destruct (m v) as [v' r'] eqn:Ev. intros [= <- <-]. cbn. rewrite (Hr _ _ _ Ev).
      split; [done|by exists v, v'].
    + intros (w & Hw & <- & ->)%on_near_inv. rewrite Ef, (Hr _ _ _ Hw).
      split; [done|by exists (near s), (near s')].
Qed.

Lemma get_at sd k s s' r :
  on_side sd (os_get k) s = (s', r) ->
  same_objs s s' /\ (forall d, r = Ok d -> objs_on sd s !! k = Some d).
Proof.
  intros (Hs & w & w' & <- & Hw)%on_side_read; [|apply get_same]. split; [done|].
  intros d ->. by eapply get_ok.
Qed.

Lemma head_at sd k s s' r :
  on_side sd (os_head k) s = (s', r) ->
  same_objs s s' /\ (forall m, r = Ok m -> is_Some (objs_on sd s !! k)) /\
  (forall e, r = Err e -> is_store_not_found e = true -> objs_on sd s !! k = None).
Proof.
  intros (Hs & w & w' & <- & Hw)%on_side_read; [|apply head_same]. split; [done|]. split.
  - intros m ->. apply head_ok in Hw as (d & Hd & _). by exists d.
  - intros [] -> He; try done. by eapply head_not_found.
Qed.

Lemma put_at k d s s' r :
  on_side Dst (os_put k d) s = (s', r) ->
  may_insert k d s s' /\ (r = Ok tt -> dst_objs s' = <[k := d]> (dst_objs s)).
Proof.
  assert (Hp : forall w w' r, os_put k d w = (w', r) ->
            (objects w' = objects w \/ objects w' = <[k := d]> (objects w)) /\
            (r = Ok tt -> objects w' = <[k := d]> (objects w))).
  { intros w w' [[]|e] Hw; [|split; [by eapply put_err|done]].
    rewrite (put_ok _ _ _ _ Hw). auto. }
  unfold may_insert, same_store, dst_objs, src_objs. cbn [on_side]. unfold on_dest.
  destruct (far s) as [v|] eqn:Ef.
  - destruct (os_put k d v) as [v' r'] eqn:Ev. intros [= <- <-]. cbn. destruct (Hp _ _ _ Ev). auto.
  - intros (w & Hw & <- & ->)%on_near_inv. rewrite Ef. destruct (Hp _ _ _ Hw). auto.
Qed.

(** ** Triples

    From a state that satisfies the first assertion, the run grows the state,
    and its value and final state satisfy the second one. *)
Section triples.
Context (K : str -> str -> Prop) (T : str -> Prop).

Definition triple {X} (P : World -> Prop) (m : M World RegistryError X) (Q : X -> World -> Prop) : Prop :=
  forall s s' r, P s -> m s = (s', r) -> grown K T s s' /\ (forall x, r = Ok x -> Q x s').

(** An assertion that later steps keep. *)
Definition stable (P : World -> Prop) : Prop := forall s s', grown K T s s' -> P s -> P s'.

Lemma triple_bind {X Y} P (m : M World RegistryError X) (k : X -> M World RegistryError Y) Q R :
  triple P m Q -> (forall x, triple (Q x) (k x) R) -> triple P (bind m k) R.
Proof.
  intros Hm Hk s s' r Hp [(s1 & x & H1 & H2)|(e & H1 & ->)]%bind_step.
  - destruct (Hm _ _ _ Hp H1) as [Hg Hq]. destruct (Hk x _ _ _ (Hq x eq_refl) H2) as [Hg' Hr].
    split; [by eapply grown_trans|done].
  - by destruct (Hm _ _ _ Hp H1) as [Hg Hq].
Qed.

Lemma triple_ret {X} (x : X) P (Q : X -> World -> Prop) :
  (forall s, P s -> Q x s) -> triple P (ret x) Q.
Proof. intros H s s' r Hp [= <- <-]. split; [by apply same_grown|]. intros ? [= <-]. auto. Qed.

Lemma triple_throw {X} e P (Q : X -> World -> Prop) : triple P (throw e) Q.
Proof. intros s s' r Hp [= <- <-]. split; [by apply same_grown|done]. Qed.

Lemma triple_weaken {X} (P P' : World -> Prop) (m : M World RegistryError X) (Q Q' : X -> World -> Prop) :
  (forall s, P' s -> P s) -> (forall x s, Q x s -> Q' x s) -> triple P m Q -> triple P' m Q'.
Proof. intros HP HQ H s s' r Hp Hm. destruct (H s s' r (HP s Hp) Hm). eauto. Qed.

Lemma triple_pre {X} (P P' : World -> Prop) (m : M World RegistryError X) (Q : X -> World -> Prop) :
  triple P m Q -> (forall s, P' s -> P s) -> triple P' m Q.
Proof. intros H HP. by eapply triple_weaken. Qed.

Lemma triple_frame {X} F P (m : M World RegistryError X) Q :
  stable F -> triple P m Q -> triple (fun s => F s /\ P s) m (fun x s => F s /\ Q x s).
Proof.
  intros HF H s s' r [Hf Hp] Hm. destruct (H s s' r Hp Hm) as [Hg Hq]. split; [done|].
  intros x Hx. split; [by eapply HF|auto].
Qed.

(** A step that only reads. *)
Lemma triple_read {X} P (m : M World RegistryError X) :
  (forall s s' r, m s = (s', r) -> same_objs s s') -> stable P -> triple P m (fun _ => P).
Proof.
  intros H HP s s' r Hp Hm. pose proof (same_grown K T _ _ (H _ _ _ Hm)) as Hg.
  split; [done|]. intros _ _. by eapply HP.
Qed.

Definition present (sd : side) (k : str) (s : World) : Prop := is_Some (objs_on sd s !! k).

Lemma stable_present sd k : stable (present sd k).
Proof.
  intros s s' (_ & _ & Hs & Hd & _)%grown_effects [x Hx]. destruct sd; [apply (Hs k x Hx)|apply (Hd k x Hx)].
Qed.

Lemma stable_all {I} (P : I -> World -> Prop) : (forall i, stable (P i)) -> stable (fun s => forall i, P i s).
Proof. intros H s s' Hg HP i. by eapply H. Qed.

Lemma stable_impl (A : Prop) (P : World -> Prop) : stable P -> stable (fun s => A -> P s).
Proof. intros H s s' Hg HP HA. by eapply H; [|apply HP]. Qed.
End triples.

Lemma stable_and K T P Q : stable K T P -> stable K T Q -> stable K T (fun s => P s /\ Q s).
Proof. intros HP HQ s s' Hg []. split; [by eapply HP|by eapply HQ]. Qed.

Lemma stable_or K T P Q : stable K T P -> stable K T Q -> stable K T (fun s => P s \/ Q s).
Proof. intros HP HQ s s' Hg []; [left; by eapply HP|right; by eapply HQ]. Qed.

(** ** The steps of a promotion *)

Abbreviation key := (store_path lib).

Lemma store_get_at sd path s s' r :
  store_get lib sd path s = (s', r) ->
  same_objs s s' /\ (forall d, r = Ok d -> objs_on sd s !! key path = Some d).
Proof.
  unfold store_get. intros (r' & (Hs & Hd)%get_at & ->)%rethrow_inv. split; [done|].
  destruct r' as [d'|e]; intros d [= <-]. auto.
Qed.

Lemma store_exists_at sd path s s' r :
  store_exists lib sd path s = (s', r) ->
  same_objs s s' /\ (r = Ok true -> present sd (key path) s) /\
  (r = Ok false -> objs_on sd s !! key path = None).
Proof.
  unfold store_exists. intros Hr. inv_step Hr as s1 a H1; apply attempt_inv in H1 as (r' & H1 & He); [|done].
  injection He as ->. apply head_at in H1 as (Hs & Hm & He).
  destruct r' as [m|e]; [|destruct (is_store_not_found e) eqn:En]; injection Hr as <- <-; split; try done.
  - split; [|done]. intros _. by eapply Hm.
  - split; [done|]. intros _. by eapply He.
Qed.

Lemma head_size_at sd path s s' r :
  head_size lib sd path s = (s', r) ->
  same_objs s s' /\ (forall n, r = Ok n -> present sd (key path) s).
Proof.
  unfold head_size, stored_at. intros Hr.
  inv_step Hr as s1 a H1; apply rethrow_inv in H1 as ([m|e] & (Hs & Hm & _)%head_at & He); cbn in He; simplify_eq.
  - injection Hr as <- <-. split; [done|]. intros. by eapply Hm.
  - done.
Qed.

Lemma present_same sd k s s' : same_objs s s' -> present sd k s -> present sd k s'.
Proof. intros (Hs & Hd & _). unfold present. destruct sd; cbn; by rewrite ?Hs, ?Hd. Qed.

Section copies.
Context (K : str -> str -> Prop) (T : str -> Prop).

Lemma get_put_at from to s s' r :
  K (key from) (key to) ->
  dst_objs s !! key to = None \/ dst_objs s !! key to = src_objs s !! key from ->
  get_put lib from to s = (s', r) ->
  grown K T s s' /\ (forall n, r = Ok n -> present Dst (key to) s').
Proof.
  unfold get_put, stored_at. intros HK Hd Hr. inv_step Hr as s1 bytes H1.
  2: { apply store_get_at in H1 as [Hs _]. split; [by apply same_grown|done]. }
  apply store_get_at in H1 as [Hs Hg]. specialize (Hg bytes eq_refl). cbn in Hg.
  assert (Hins : forall s2, may_insert (key to) bytes s1 s2 -> grown K T s s2).
  { intros s2 Hm. eapply grown_trans; [by apply same_grown|]. eapply insert_grown; [done|]. right.
    destruct Hs as (Hs & -> & _). rewrite Hs. rewrite Hg in Hd. eauto. }
  inv_step Hr as s2 u H2; apply rethrow_inv in H2 as (r' & (Hm & Hok)%put_at & He).
  - injection Hr as <- <-. split; [by apply Hins|]. intros n _. destruct r' as [[]|e]; [|done].
    unfold present. cbn. rewrite (Hok eq_refl), lookup_insert_eq. done.
  - split; [by apply Hins|done].
Qed.

(** The native copy within one store. *)
Lemma copy_at a b s s' r :
  same_store s = true -> K a b -> dst_objs s !! b = None ->
  on_side Src (os_copy a b) s = (s', r) ->
  grown K T s s' /\ (r = Ok tt -> present Dst b s') /\
  (dst_objs s' !! b = None \/ dst_objs s' !! b = src_objs s' !! a).
Proof.
  intros Hb HK Hnone (w & Hw & Hn & Hf)%on_near_inv.
  assert (Hb' : same_store s' = same_store s) by (unfold same_store; by rewrite Hf).
  assert (Hd : forall d, src_objs s !! a = Some d -> src_objs s' = <[b := d]> (src_objs s) ->
            may_insert b d s s' /\ dst_objs s' !! b = Some d /\ src_objs s' !! a = Some d).
  { intros d Ha Hs. rewrite (same_store_objs s') by congruence. unfold may_insert.
    rewrite (same_store_objs s'), (same_store_objs s), Hb, Hs by congruence.
    split; [split; [congruence|by auto]|]. split; [by rewrite lookup_insert_eq|].
    destruct (decide (a = b)) as [->|Hne]; [by rewrite lookup_insert_eq|by rewrite lookup_insert_ne]. }
  assert (Hins : forall d, src_objs s !! a = Some d -> src_objs s' = <[b := d]> (src_objs s) ->
            grown K T s s').
  { intros d Ha Hs. eapply insert_grown; [by apply (Hd d)|]. right. eauto. }
  unfold src_objs in Hd, Hins. destruct r as [[]|e].
  - apply copy_ok in Hw as (d & Ha & Hs). rewrite <- Hn in Hs. destruct (Hd d Ha Hs) as (_ & H1 & H2).
    split; [by eapply Hins|]. split; [intros _; by exists d|right; unfold src_objs; congruence].
  - apply copy_err in Hw as [Hs|(d & Ha & Hs)]; rewrite <- Hn in Hs.
    + assert (same_objs s s') as Hsame.
      { split_and!; [done| |done]. rewrite !same_store_objs by congruence. done. }
      split; [by apply same_grown|]. split; [done|]. left. destruct Hsame as (_ & -> & _). done.
    + destruct (Hd d Ha Hs) as (_ & H1 & H2). split; [by eapply Hins|]. split; [done|].
      right; unfold src_objs; congruence.
Qed.

Lemma copy_object_triple from to :
  K (key from) (key to) ->
  triple K T (fun _ => True) (copy_object lib from to) (fun _ => present Dst (key to)).
Proof.
  intros HK s s' r _. unfold copy_object. intros Hr. inv_step Hr as s0 same H0; [|done].
  injection H0 as <- <-. destruct (same_store s) eqn:Hb; cbn [andb] in Hr.
  - destruct (str_eqb_spec from to) as [->|Hne].
    { apply head_size_at in Hr as [Hs Hp]. split; [by apply same_grown|]. intros n Hn.
      eapply present_same; [done|]. unfold present. cbn. rewrite same_store_objs by done. by eapply Hp. }
    inv_step Hr as s1 there H1; apply store_exists_at in H1 as (Hs & Ht & Hf);
      [|split; [by apply same_grown|done]].
    destruct there.
    { apply head_size_at in Hr as [Hs' Hp]. split; [apply same_grown; by eapply same_objs_trans|].
      intros n Hn. eapply present_same; [done|]. by eapply Hp. }
    inv_step Hr as s2 rc H2; apply attempt_inv in H2 as (r' & H2 & He); [|done]. injection He as ->.
    specialize (Hf eq_refl). destruct Hs as (Hs1 & Hs2 & Hs3).
    apply copy_at in H2 as (Hg & Hok & Hat); [|congruence|done|cbn in Hf; congruence].
    assert (Hg' : grown K T s s2) by (eapply grown_trans; [by apply same_grown|done]).
    destruct r' as [[]|e].
    + apply head_size_at in Hr as [Hs' Hp]. split; [eapply grown_trans; [done|by apply same_grown]|].
      intros n Hn. eapply present_same; [done|]. auto.
    + apply get_put_at in Hr as [Hg2 Hp]; [|done..]. split; [by eapply grown_trans|done].
  - inv_step Hr as s1 there H1; apply store_exists_at in H1 as (Hs & Ht & Hf);
      [|split; [by apply same_grown|done]].
    destruct there.
    { apply head_size_at in Hr as [Hs' Hp]. split; [apply same_grown; by eapply same_objs_trans|].
      intros n Hn. eapply present_same; [done|]. by eapply Hp. }
    specialize (Hf eq_refl). apply get_put_at in Hr as [Hg2 Hp]; [|done|].
    + split; [eapply grown_trans; [by apply same_grown|done]|done].
    + left. destruct Hs as (_ & -> & _). done.
Qed.

Lemma store_exists_triple sd path :
  triple K T (fun _ => True) (store_exists lib sd path) (fun b s => b = true -> present sd (key path) s).
Proof.
  intros s s' r _ (Hs & Ht & _)%store_exists_at. split; [by apply same_grown|].
  intros b -> ->. eapply present_same; [done|]. auto.
Qed.

Lemma store_get_triple sd path :
  triple K T (fun _ => True) (store_get lib sd path) (fun _ _ => True).
Proof. intros s s' r _ [Hs _]%store_get_at. split; [by apply same_grown|done]. Qed.

Lemma put_triple k d :
  T k -> triple K T (fun _ => True) (stored_at lib (on_side Dst (os_put k d))) (fun _ _ => True).
Proof.
  intros Ht s s' r _ (r' & [Hm _]%put_at & _)%rethrow_inv. split; [|done].
  eapply insert_grown; [done|by left].
Qed.
End copies.

(** ** The loops *)

Section images.
Context (src dst : ImageRef).

(** Between which keys the objects of the digests [D] are copied. *)
Definition copies (D : str -> Prop) (a b : str) : Prop :=
  exists dig, D dig /\
    ((a = key (blob_of src dig) /\ b = key (blob_of dst dig)) \/
     (a = key (manifest_of src dig) /\ b = key (manifest_of dst dig))).

(** The object of a digest is in both repositories, as a blob or as a manifest. *)
Definition arrived (dig : str) (s : World) : Prop :=
  (present Src (key (blob_of src dig)) s /\ present Dst (key (blob_of dst dig)) s) \/
  (present Src (key (manifest_of src dig)) s /\ present Dst (key (manifest_of dst dig)) s).

Context (D : str -> Prop) (T : str -> Prop).

Abbreviation K := (copies D).

Lemma stable_arrived dig : stable K T (arrived dig).
Proof. apply stable_or; apply stable_and; apply stable_present. Qed.

Lemma copy_blob_triple dig F :
  D dig -> stable K T F ->
  triple K T F (copy_object lib (blob_of src dig) (blob_of dst dig))
    (fun _ s => F s /\ present Dst (key (blob_of dst dig)) s).
Proof.
  intros HD HF. eapply triple_weaken; [| |eapply (triple_frame K T F); [done|apply copy_object_triple]].
  - by intros s.
  - by intros x s.
  - exists dig. eauto.
Qed.

Lemma copy_manifest_triple dig F :
  D dig -> stable K T F ->
  triple K T F (copy_object lib (manifest_of src dig) (manifest_of dst dig))
    (fun _ s => F s /\ present Dst (key (manifest_of dst dig)) s).
Proof.
  intros HD HF. eapply triple_weaken; [| |eapply (triple_frame K T F); [done|apply copy_object_triple]].
  - by intros s.
  - by intros x s.
  - exists dig. eauto.
Qed.

Lemma copy_blobs_triple digests bytes count :
  (forall dig, dig ∈ digests -> D dig) ->
  triple K T (fun _ => True) (copy_blobs lib src dst digests bytes count)
    (fun _ s => forall dig, dig ∈ digests -> arrived dig s).
Proof.
  revert bytes count. induction digests as [|dig digests IH]; intros bytes count HD; cbn [copy_blobs].
  { apply triple_ret. intros s _ d Hd. by apply not_elem_of_nil in Hd. }
  assert (Hrest : forall b c, triple K T (arrived dig) (copy_blobs lib src dst digests b c)
                    (fun _ s => forall d, d ∈ dig :: digests -> arrived d s)).
  { intros b c. eapply triple_weaken; [| |apply (triple_frame K T (arrived dig) (fun _ => True)
      _ (fun _ s => forall d, d ∈ digests -> arrived d s)); [apply stable_arrived|apply IH]].
    - by intros s.
    - intros x s [Ha Hr] d [->|Hd]%elem_of_cons; auto.
    - intros d Hd. apply HD. by right. }
  eapply triple_bind; [apply store_exists_triple|intros [|]; cbn beta iota].
  - eapply triple_bind; [apply copy_blob_triple; [apply HD; by left|apply stable_impl, stable_present]|].
    intros n. eapply triple_pre; [apply Hrest|]. intros s [H1 H2]. left. auto.
  - eapply triple_bind; [eapply triple_pre; [apply store_exists_triple|done]|].
    intros [|]; cbn beta iota; [|apply triple_throw].
    eapply triple_bind; [apply copy_manifest_triple; [apply HD; by left|apply stable_impl, stable_present]|].
    intros n. eapply triple_pre; [apply Hrest|]. intros s [H1 H2]. right. auto.
Qed.

Lemma copy_signature_blobs_triple digests bytes :
  (forall dig, D dig) ->
  triple K T (fun _ => True) (copy_signature_blobs lib src dst digests bytes) (fun _ _ => True).
Proof.
  intros HD. revert bytes. induction digests as [|dig digests IH]; intros bytes; cbn [copy_signature_blobs].
  { by apply triple_ret. }
  eapply triple_bind; [apply store_exists_triple|].
  intros [|]; cbn beta iota; [|by eapply triple_pre].
  eapply triple_bind; [apply copy_blob_triple; [done|apply stable_impl, stable_present]|].
  intros n. by eapply triple_pre.
Qed.

Lemma copy_signature_triple digest bytes :
  (forall dig, D dig) -> T (key (tag_of dst (sig_tag_of digest))) ->
  triple K T (fun _ => True) (copy_signature lib src dst digest bytes) (fun _ _ => True).
Proof.
  intros HD HT. unfold copy_signature.
  assert (Hex : forall path, triple K T (fun _ => True) (store_exists lib Src path) (fun _ _ => True))
    by (intros path; by eapply triple_weaken; [| |apply store_exists_triple]).
  eapply triple_bind; [apply Hex|intros [|]; cbn [negb]; [|by apply triple_ret]].
  eapply triple_bind; [apply store_get_triple|intros link].
  eapply triple_bind; [apply Hex|intros [|]; cbn [negb]; [|by apply triple_ret]].
  eapply triple_bind; [apply store_get_triple|intros sig_bytes].
  eapply (triple_bind _ _ _ _ _ (fun _ _ => True)).
  { destruct (parse_json lib sig_bytes); [by apply copy_signature_blobs_triple|by apply triple_ret]. }
  intros bytes'. eapply triple_bind; [by apply copy_manifest_triple|intros n].
  eapply triple_bind; [by eapply triple_pre; [apply put_triple|]|intros u]. by apply triple_ret.
Qed.

Lemma stable_arrivals (digests : list str) : stable K T (fun s => forall dig, dig ∈ digests -> arrived dig s).
Proof. intros s s' Hg H dig Hd. eapply stable_arrived; [done|auto]. Qed.

(** The image, without its tag, is at the destination. *)
Definition complete (digest : str) (digests : list str) (s : World) : Prop :=
  present Dst (key (manifest_of dst digest)) s /\ forall dig, dig ∈ digests -> arrived dig s.

Lemma stable_complete digest digests : stable K T (complete digest digests).
Proof. apply stable_and; [apply stable_present|apply stable_arrivals]. Qed.
End images.

Lemma copy_image_triple D T req digest digests :
  (forall dig, dig ∈ digests -> D dig) -> D digest ->
  (include_signatures req = true -> (forall dig, D dig) /\ T (key (tag_of (pr_dest req) (sig_tag_of digest)))) ->
  triple (copies (pr_source req) (pr_dest req) D) T (fun _ => True) (copy_image lib req digest digests)
    (fun _ => complete (pr_source req) (pr_dest req) digest digests).
Proof.
  intros Hds Hd Hsig. unfold copy_image.
  eapply triple_bind; [by apply copy_blobs_triple|intros [bytes count]].
  eapply triple_bind.
  { apply copy_manifest_triple; [done|apply stable_arrivals]. }
  intros n. destruct (include_signatures req).
  - destruct Hsig as [HD HT]; [done|].
    eapply (triple_bind _ _ _ _ _ (fun _ => complete (pr_source req) (pr_dest req) digest digests));
      [|intros [b c]; by apply triple_ret].
    eapply triple_weaken; [| |apply (triple_frame _ _ (complete (pr_source req) (pr_dest req) digest digests));
      [apply stable_complete|by apply copy_signature_triple]].
    + intros s [H1 H2]. by split.
    + by intros x s [H _].
  - apply triple_ret. intros s [H1 H2]. by split.
Qed.

(** ** The whole promotion *)

(** The manifest a reference names at the source. *)
Definition resolved (r : ImageRef) (digest bytes : str) (s : World) : Prop :=
  src_objs s !! key (manifest_of r digest) = Some bytes /\
  if starts_with "sha256:" (ir_reference r) then digest = ir_reference r
  else exists link, src_objs s !! key (tag_of r (ir_reference r)) = Some link /\
         digest = trim (from_utf8_lossy link).

Lemma resolve_at r s s' res :
  resolve_digest lib r s = (s', res) ->
  same_objs s s' /\ (forall digest bytes, res = Ok (digest, bytes) -> resolved r digest bytes s).
Proof.
  unfold resolve_digest, resolved. intros Hr. inv_step Hr as s1 digest H1.
  - assert (Hd : same_objs s s1 /\ if starts_with "sha256:" (ir_reference r) then digest = ir_reference r
        else exists link, src_objs s !! key (tag_of r (ir_reference r)) = Some link /\
               digest = trim (from_utf8_lossy link)).
    { destruct (starts_with _ _); [by injection H1 as <- <-|].
      apply bind_ok in H1 as (s2 & link & H2%rethrow_ok & H1). injection H1 as <- <-.
      apply store_get_at in H2 as [Hs Hg]. split; [done|]. exists link. split; [by apply Hg|done]. }
    destruct Hd as [Hs Hd]. inv_step Hr as s2 bytes H2.
    + apply rethrow_ok, store_get_at in H2 as [Hs2 Hg]. injection Hr as <- <-.
      split; [by eapply same_objs_trans|]. intros d b [= <- <-]. split; [|done].
      destruct Hs as (Hs & _). rewrite <- Hs. by apply Hg.
    + apply rethrow_inv in H2 as (r' & [Hs2 _]%store_get_at & _). split; [by eapply same_objs_trans|done].
  - split; [|done]. destruct (starts_with _ _); [done|]. apply bind_err in H1 as [H1|(s2 & link & _ & H1)]; [|done].
    by apply rethrow_inv in H1 as (r' & [Hs2 _]%store_get_at & _).
Qed.

Lemma promotions_same f s s' (r : result unit RegistryError) :
  modify (set_promotions f) s = (s', r) -> same_objs s s' /\ r = Ok tt.
Proof. intros [= <- <-]. by split. Qed.

(** The tag is written last, after the image has arrived. *)
Definition tag_written (req : PromoteRequest) (digest : str) (s s' : World) (ok : bool) : Prop :=
  if starts_with "sha256:" (ir_reference (pr_dest req)) then same_objs s s'
  else let k := key (tag_of (pr_dest req) (ir_reference (pr_dest req))) in
    exists s1, may_insert k digest s s1 /\ same_objs s1 s' /\
      (ok = true -> dst_objs s1 = <[k := digest]> (dst_objs s)).

Definition published (req : PromoteRequest) (digest : str) (digests : list str) (s1 s' : World)
    (r : result PromoteOutcome RegistryError) : Prop :=
  (same_objs s1 s' /\ is_ok r = false) \/
  (complete (pr_source req) (pr_dest req) digest digests s1 /\
   (forall o, r = Ok o -> dst_digest o = digest) /\ tag_written req digest s1 s' (is_ok r)).

Lemma publish_inv pool rq req digest digests s s' r :
  publish lib pool rq req digest digests s = (s', r) ->
  exists s1, published req digest digests s1 s' r /\
    forall (D T : str -> Prop), (forall dig, dig ∈ digest :: digests -> D dig) ->
      (include_signatures req = true ->
         (forall dig, D dig) /\ T (key (tag_of (pr_dest req) (sig_tag_of digest)))) ->
      grown (copies (pr_source req) (pr_dest req) D) T s s1.
Proof.
  unfold publish. intros Hr.
  assert (Hcopy : forall s1 r1 (D T : str -> Prop), copy_image lib req digest digests s = (s1, r1) ->
            (forall dig, dig ∈ digest :: digests -> D dig) ->
            (include_signatures req = true ->
               (forall dig, D dig) /\ T (key (tag_of (pr_dest req) (sig_tag_of digest)))) ->
            grown (copies (pr_source req) (pr_dest req) D) T s s1 /\
            (forall x, r1 = Ok x -> complete (pr_source req) (pr_dest req) digest digests s1)).
  { intros s1 r1 D T Hc HD HT. eapply (copy_image_triple D T); [..|exact I|exact Hc]; [|by apply HD; left|done].
    intros dig Hd. apply HD. by right. }
  inv_step Hr as s1 out H1.
  2: { exists s'. split; [by left|]. intros D T HD HT. by eapply Hcopy. }
  exists s1. split; [right|intros D T HD HT; by eapply Hcopy]. destruct out as [[bytes count] sigs].
  split; [by eapply (Hcopy _ _ (fun _ => True) (fun _ => True) H1)|]. unfold tag_written. cbn zeta.
  assert (Hend : forall s2, (do! when pool (finish_promotion rq bytes count sigs) in
             ret (mkPromoteOutcome (pq_id rq) digest digest "done" bytes count sigs None)) s2 = (s', r) ->
             same_objs s2 s' /\ (forall o, r = Ok o -> dst_digest o = digest)).
  { intros s2 H2. destruct pool; injection H2 as <- <-; (split; [done|]); by intros o [= <-]. }
  destruct (starts_with _ _); cbn [negb when] in Hr.
  - destruct (Hend s1 Hr). done.
  - inv_step Hr as s2 u H2; apply rethrow_inv in H2 as (r' & (Hm & Hok)%put_at & He).
    + destruct (Hend s2 Hr) as [Hs Ho]. split; [done|]. exists s2. destruct r' as [[]|e]; [|done]. auto.
    + split; [done|]. exists s'. done.
Qed.

(** A run either stops before it has written, or publishes what the source
    reference names. *)
Lemma promote_inv pool rq actor req s s' r :
  promote lib pool rq actor req s = (s', r) -> is_dry_run (pr_mode req) = false ->
  (same_objs s s' /\ is_ok r = false) \/
  exists digest bytes manifest s1,
    resolved (pr_source req) digest bytes s /\ parse_json lib bytes = Some manifest /\
    published req digest (collect_referenced_digests manifest) s1 s' r /\
    forall (D T : str -> Prop), (forall dig, dig ∈ digest :: collect_referenced_digests manifest -> D dig) ->
       (include_signatures req = true ->
          (forall dig, D dig) /\ T (key (tag_of (pr_dest req) (sig_tag_of digest)))) ->
       grown (copies (pr_source req) (pr_dest req) D) T s s1.
Proof.
  unfold promote. intros Hr Hdry. inv_step Hr as s1 p H1.
  2: { apply resolve_at in H1 as [Hs _]. by left. }
  destruct p as [digest bytes]. apply resolve_at in H1 as [Hs1 Hres]. specialize (Hres _ _ eq_refl).
  inv_step Hr as s2 manifest H2; injection H2 as <- H2; [|by left].
  destruct (parse_json lib bytes) as [v|] eqn:Hp; [|done]. injection H2 as <-. rewrite Hdry in Hr.
  inv_step Hr as s2 u H2.
  - assert (Hs2 : same_objs s s2).
    { destruct pool; [apply promotions_same in H2 as [Hs2 _]; by eapply same_objs_trans|by injection H2 as <-]. }
    apply publish_inv in Hr as (s3 & Hpub & Hg). right. exists digest, bytes, v, s3. split_and!; try done.
    intros D T HD HT. eapply grown_trans; [by apply same_grown|auto].
  - destruct pool; [by apply promotions_same in H2 as [_ [=]]|done].
Qed.
End sides.
