(* ===== verification/PromoteTheorems.v ===== *)
(** * Theorems about promotion

    A promotion publishes the tag last, writes only copies of source objects
    below the destination repository, keeps content addressing, and needs the
    permissions of both repositories; what it copies is one level deep. *)

From stdpp Require Import relations.
From S2P Require Import Prelude Json Text Effects Store Paths Gc AuditLog RegistryAudit Auth Utf8 Matcher Policy.
From S2P Require Import Signing Admission AdmissionProofs Registry RegistryProofs RegistryFlows RegistryTheorems.
From S2P Require Import Gate GateProofs GateTheorems.
From S2P Require Import Promote PromoteProofs.

Local Open Scope Z_scope.

Definition wf_ref (r : ImageRef) : Prop := wf_name (ir_tenant r) (ir_project r) (ir_repository r).

(** ** Paths *)

Section paths.
Context (lib : Libraries) `{!LibraryLaws lib}.

Definition object_of (r : ImageRef) (kind rest : str) : str :=
  object_path (ir_tenant r) (ir_project r) (ir_repository r) kind rest.

Definition bare (digest : str) : str :=
  match strip_prefix "sha256:" digest with
  | Some h => h
  | None => digest
  end.

Lemma blob_of_object r d : blob_of r d = object_of r "blobs" ("sha256/" ++ bare d).
Proof. done. Qed.

Lemma manifest_of_object r d : manifest_of r d = object_of r "manifests" d.
Proof. done. Qed.

Lemma tag_of_object r t : tag_of r t = object_of r "tags" t.
Proof. done. Qed.

Lemma object_kind r r' kind kind' rest rest' :
  wf_ref r -> wf_ref r' -> safe_segment kind = true -> safe_segment kind' = true -> kind <> kind' ->
  store_path lib (object_of r kind rest) <> store_path lib (object_of r' kind' rest').
Proof. intros Hr Hr' Hk Hk' Hne He. by eapply object_path_inj in He as (_ & ? & _); [|apply _|..]. Qed.

(** Paths that normalise alike name the same object. *)
Lemma object_moves r kind rest rest' :
  wf_ref r -> safe_segment kind = true -> store_path lib rest = store_path lib rest' ->
  store_path lib (object_of r kind rest) = store_path lib (object_of r kind rest').
Proof. intros Hr Hk He. unfold object_of. by rewrite !store_object_path, He by (done || apply _). Qed.

(** A tag link is not among the keys objects are copied to or from. *)
Lemma copies_no_tag src dst D a k t :
  wf_ref src -> wf_ref dst -> copies lib src dst D a k ->
  k <> store_path lib (tag_of dst t) /\ a <> store_path lib (tag_of dst t).
Proof.
  intros Hs Hd (dig & _ & [[-> ->]|[-> ->]]); rewrite ?blob_of_object, ?manifest_of_object, tag_of_object;
    (split; by apply object_kind).
Qed.
End paths.

Section promotion.
Context {W : Type} `{!ObjectStore W, !ObjectStoreLaws W, !CopyStore W, !CopyLaws W}
  (lib : Libraries) `{!LibraryLaws lib}.

Abbreviation World := (Sides W).

(** ** Frames *)

(** A key nothing is copied to keeps its object. *)
Lemma effects_frame K T (s s' : World) k :
  effects K T s s' -> ~ T k -> (forall a, ~ K a k) -> dst_objs s' !! k = dst_objs s !! k.
Proof.
  intros (_ & _ & _ & Hd & Hn) HT HK. destruct (dst_objs s !! k) as [x|] eqn:E.
  - by apply (Hd k x E).
  - destruct (dst_objs s' !! k) as [x|] eqn:E'; [|done].
    apply Hn in E' as [Hx|(a & Ha & _)]; [congruence|by destruct (HK a)|done].
Qed.

Lemma insert_present k d (s s' : World) i :
  may_insert k d s s' -> present Dst i s -> present Dst i s'.
Proof.
  intros (_ & Hd & _) Hp. unfold present in *. cbn in *. destruct Hd as [->| ->]; [done|].
  destruct (decide (k = i)) as [->|Hne]; [by rewrite lookup_insert_eq|by rewrite lookup_insert_ne].
Qed.

(** ** Content addressing *)

Definition both_addressed (s : World) : Prop :=
  content_addressed lib (src_objs s) /\ content_addressed lib (dst_objs s).

Definition tag_keys (r : ImageRef) (k : str) : Prop := exists t, k = store_path lib (tag_of r t).

Lemma copy_addressed src dst kind rest o o' x :
  wf_ref src -> wf_ref dst ->
  (kind = "blobs" /\ (exists h, rest = "sha256/" ++ h)) \/ kind = "manifests" ->
  content_addressed lib o -> o !! store_path lib (object_of src kind rest) = Some x ->
  content_addressed lib o' -> content_addressed lib (<[store_path lib (object_of dst kind rest) := x]> o').
Proof.
  intros Hs Hd Hk Ho Hx Ho'. apply ca_insert; try done.
  - naive_solver.
  - intros hex Hh -> Hr. apply (Ho _ _ _ ("sha256:" ++ hex) x Hs); [by exists hex|]. left.
    change (blob_path _ _ _ _) with (object_of src "blobs" ("sha256/" ++ hex)).
    by rewrite <- (object_moves lib src "blobs" rest).
  - intros hex Hh -> Hr. apply (Ho _ _ _ ("sha256:" ++ hex) x Hs); [by exists hex|]. right.
    change (manifest_path _ _ _ _) with (object_of src "manifests" ("sha256:" ++ hex)).
    by rewrite <- (object_moves lib src "manifests" rest).
Qed.

Lemma insert_addressed src dst D k d (s : World) :
  wf_ref src -> wf_ref dst -> both_addressed s ->
  allowed (copies lib src dst D) (tag_keys dst) k d s ->
  content_addressed lib (<[k := d]> (dst_objs s)).
Proof.
  intros Hs Hd [Hcs Hcd] [[t ->]|[_ (a & (dig & _ & [[-> ->]|[-> ->]]) & Ha)]].
  - rewrite tag_of_object. by apply ca_insert.
  - rewrite blob_of_object in *. apply (copy_addressed src dst "blobs" _ (src_objs s)); try done. left. eauto.
  - rewrite manifest_of_object in *. apply (copy_addressed src dst "manifests" _ (src_objs s)); try done. by right.
Qed.

Lemma grown_addressed src dst D (s s' : World) :
  wf_ref src -> wf_ref dst -> grown (copies lib src dst D) (tag_keys dst) s s' ->
  both_addressed s -> both_addressed s'.
Proof.
  intros Hs Hd. induction 1 as [s|s1 s2 s3 [(H1 & H2 & _)|(k & d & Hm & Ha)] _ IH]; [done|..]; intros Hc;
    apply IH; unfold both_addressed in *.
  - by rewrite H1, H2.
  - pose proof (insert_addressed _ _ _ _ _ _ Hs Hd Hc Ha) as Hi. destruct Hc as [Hcs Hcd].
    destruct Hm as (_ & Hdst & Hsrc). rewrite Hsrc.
    assert (content_addressed lib (dst_objs s2)) by (by destruct Hdst as [->| ->]).
    by destruct (same_store s1).
Qed.

(** A whole run grows the state, tag included. *)
Lemma promote_grown pool rq actor req (s s' : World) r :
  promote lib pool rq actor req s = (s', r) ->
  grown (copies lib (pr_source req) (pr_dest req) (fun _ => True)) (tag_keys (pr_dest req)) s s'.
Proof.
  intros Hr. destruct (is_dry_run (pr_mode req)) eqn:Hdry.
  - unfold promote in Hr. rewrite Hdry in Hr. apply same_grown.
    inv_step Hr as s1 p H1; apply resolve_at in H1 as [Hs _]; [|done]. destruct p as [digest bytes].
    inv_step Hr as s2 v H2; injection H2 as <- _; [by injection Hr as <- <-|done].
  - apply promote_inv in Hr as [[Hs _]|(digest & bytes & v & s1 & _ & _ & Hp & Hg)];
      [by apply same_grown| |done].
    eapply grown_trans; [apply Hg; [done|]; intros _; split; [done|by eexists]|]. clear Hg.
    destruct Hp as [[Hs _]|(_ & _ & Ht)]; [by apply same_grown|]. unfold tag_written in Ht.
    destruct (starts_with _ _); [by apply same_grown|]. destruct Ht as (s2 & Hm & Hs & _).
    eapply grown_trans; [|by apply same_grown]. eapply insert_grown; [done|]. left. by eexists.
Qed.
End promotion.

(** ** Theorems *)

(** C14: A promotion is atomic at the tag, whatever fails on the way: the tag of the
    destination is what it was, or it names the digest the source reference
    named and the manifest and every object it lists are in the destination
    (a destination that is the image's own signature tag apart).  When the
    promotion reports success the image is complete and, unless the destination
    is named by digest, the tag names it. *)
Theorem promotion_atomic {W : Type} `{!ObjectStore W, !ObjectStoreLaws W, !CopyStore W, !CopyLaws W}
    (lib : Libraries) `{!LibraryLaws lib} (pool : bool) (rq : PromoteRq) (actor : str) (req : PromoteRequest)
    (s s' : Sides W) (r : result PromoteOutcome RegistryError)
    (Hsrc : wf_ref (pr_source req)) (Hdst : wf_ref (pr_dest req)) (Hmode : is_dry_run (pr_mode req) = false)
    (Hrun : promote lib pool rq actor req s = (s', r)) :
  let tag := store_path lib (tag_of (pr_dest req) (ir_reference (pr_dest req))) in
  let arrives digest :=
    exists bytes manifest,
      resolved lib (pr_source req) digest bytes s /\ parse_json lib bytes = Some manifest /\
      complete lib (pr_source req) (pr_dest req) digest (collect_referenced_digests manifest) s' in
  (dst_objs s' !! tag = dst_objs s !! tag \/
   exists digest, tag = store_path lib (tag_of (pr_dest req) (sig_tag_of digest)) \/
     (dst_objs s' !! tag = Some digest /\ arrives digest)) /\
  (forall o, r = Ok o ->
     arrives (dst_digest o) /\
     (starts_with "sha256:" (ir_reference (pr_dest req)) = false -> dst_objs s' !! tag = Some (dst_digest o))).
Proof.
  cbn zeta. apply promote_inv in Hrun as [[(_ & Hs & _) Hr]|(digest & bytes & v & s1 & Hres & Hp & Hpub & Hg)];
    [split; [left; by rewrite Hs|by intros o ->]| |done].
  set (tag := store_path lib (tag_of (pr_dest req) (ir_reference (pr_dest req)))).
  set (sig := store_path lib (tag_of (pr_dest req) (sig_tag_of digest))).
  assert (Hgrown : grown (copies lib (pr_source req) (pr_dest req) (fun _ => True)) (fun k => k = sig) s s1)
    by (apply Hg; [done|by intros]).
  apply grown_effects in Hgrown. assert (Hkeep : tag = sig \/ dst_objs s1 !! tag = dst_objs s !! tag).
  { destruct (decide (tag = sig)) as [|Hne]; [by left|right]. eapply effects_frame; [done|done|].
    intros a Ha. by destruct (copies_no_tag lib _ _ _ _ _ (ir_reference (pr_dest req)) Hsrc Hdst Ha). }
  destruct Hpub as [[(_ & Hs & _) Hr]|(Hc & Ho & Ht)].
  { split; [|by intros o ->]. rewrite Hs. naive_solver. }
  unfold tag_written in Ht. destruct (starts_with "sha256:" _).
  - assert (Hc' : complete lib (pr_source req) (pr_dest req) digest (collect_referenced_digests v) s').
    { eapply (stable_complete _ _ _ (fun _ => True) (fun _ => True)); [by apply same_grown|done]. }
    destruct Ht as (_ & Hs & _). rewrite Hs. split; [naive_solver|]. intros o Hr. split; [|done].
    rewrite (Ho o Hr). by exists bytes, v.
  - destruct Ht as (s2 & Hm & Hs & Hok).
    assert (Hc' : complete lib (pr_source req) (pr_dest req) digest (collect_referenced_digests v) s').
    { eapply (stable_complete _ _ _ (fun _ => True) (fun _ => True)); [|exact Hc].
      eapply grown_trans; [eapply insert_grown; [exact Hm|by left]|by apply same_grown]. }
    destruct Hs as (_ & Hs & _). rewrite Hs. split.
    + destruct Hm as (_ & [Hd|Hd] & _); rewrite Hd; [naive_solver|]. right. exists digest. right.
      rewrite lookup_insert_eq. split; [done|by exists bytes, v].
    + intros o ->. rewrite (Ho o eq_refl). split; [by exists bytes, v|]. intros _.
      rewrite (Hok eq_refl). by rewrite lookup_insert_eq.
Qed.

(** A promotion, successful or not, keeps both stores content addressed, never
    touches a source store that is not the destination, and in the destination
    changes nothing but tag links of the destination repository: every other
    object is kept, and a new one is a copy of the object of the same digest in
    the source repository. *)
Theorem promotion_contained {W : Type} `{!ObjectStore W, !ObjectStoreLaws W, !CopyStore W, !CopyLaws W}
    (lib : Libraries) `{!LibraryLaws lib} (pool : bool) (rq : PromoteRq) (actor : str) (req : PromoteRequest)
    (s s' : Sides W) (r : result PromoteOutcome RegistryError)
    (Hsrc : wf_ref (pr_source req)) (Hdst : wf_ref (pr_dest req))
    (Hrun : promote lib pool rq actor req s = (s', r)) :
  (both_addressed lib s -> both_addressed lib s') /\
  (same_store s = false -> src_objs s' = src_objs s) /\
  (forall k, (forall t, k <> store_path lib (tag_of (pr_dest req) t)) ->
     (forall x, dst_objs s !! k = Some x -> dst_objs s' !! k = Some x) /\
     (forall x, dst_objs s' !! k = Some x ->
        dst_objs s !! k = Some x \/
        exists dig, (k = store_path lib (blob_of (pr_dest req) dig) /\
                     src_objs s' !! store_path lib (blob_of (pr_source req) dig) = Some x) \/
                    (k = store_path lib (manifest_of (pr_dest req) dig) /\
                     src_objs s' !! store_path lib (manifest_of (pr_source req) dig) = Some x))).
Proof.
  apply promote_grown in Hrun. split; [by apply (grown_addressed lib _ _ _ _ _ Hsrc Hdst Hrun)|].
  apply grown_effects in Hrun as (_ & Hu & _ & Hd & Hn). split; [done|]. intros k Hk.
  assert (HT : ~ tag_keys lib (pr_dest req) k) by (intros [t Ht]; by apply (Hk t)).
  split; [intros x Hx; by apply (Hd k x Hx)|]. intros x [Hx|(a & Ha & Hx)]%Hn; [by left| |done]. right.
  assert (Hsx : src_objs s' !! a = Some x).
  { apply Hx. intros [t ->]. by destruct (copies_no_tag lib _ _ _ _ _ t Hsrc Hdst Ha). }
  destruct Ha as (dig & _ & [[-> ->]|[-> ->]]); exists dig; auto.
Qed.

(** Promotion follows the manifest one level: a blob that is not listed in the
    promoted manifest itself is not copied.  So for an image index, whose
    manifest lists manifests, the layers of those manifests stay behind. *)
Theorem promotion_shallow {W : Type} `{!ObjectStore W, !ObjectStoreLaws W, !CopyStore W, !CopyLaws W}
    (lib : Libraries) `{!LibraryLaws lib} (pool : bool) (rq : PromoteRq) (actor : str) (req : PromoteRequest)
    (s s' : Sides W) (o : PromoteOutcome) (bytes : str) (manifest : json) (layer : str)
    (Hsrc : wf_ref (pr_source req)) (Hdst : wf_ref (pr_dest req)) (Hmode : is_dry_run (pr_mode req) = false)
    (Hsig : include_signatures req = false)
    (Hrun : promote lib pool rq actor req s = (s', Ok o))
    (Hres : resolved lib (pr_source req) (dst_digest o) bytes s)
    (Hparse : parse_json lib bytes = Some manifest)
    (Hlayer : forall dig, dig ∈ dst_digest o :: collect_referenced_digests manifest ->
       store_path lib (bare dig) <> store_path lib (bare layer))
    (Habsent : dst_objs s !! store_path lib (blob_of (pr_dest req) layer) = None) :
  dst_objs s' !! store_path lib (blob_of (pr_dest req) layer) = None.
Proof.
  apply promote_inv in Hrun as [[_ [=]]|(digest & bytes' & v & s1 & Hres' & Hp & Hpub & Hg)]; [|done].
  destruct Hpub as [[_ [=]]|(_ & Ho & Ht)]. specialize (Ho o eq_refl). subst digest.
  assert (bytes' = bytes) as -> by (destruct Hres as [H1 _], Hres' as [H2 _]; congruence).
  rewrite Hparse in Hp. injection Hp as <-.
  assert (Hgrown : grown (copies lib (pr_source req) (pr_dest req)
            (fun d => d ∈ dst_digest o :: collect_referenced_digests manifest)) (fun _ => False) s s1)
    by (apply Hg; [done|congruence]).
  apply grown_effects in Hgrown. rewrite <- Habsent.
  assert (H1 : dst_objs s1 !! store_path lib (blob_of (pr_dest req) layer)
               = dst_objs s !! store_path lib (blob_of (pr_dest req) layer)).
  { eapply effects_frame; [done|by intros []|]. intros a (dig & Hd & [[_ He]|[_ He]]);
      rewrite ?blob_of_object, ?manifest_of_object in He.
    - eapply object_path_inj in He as (_ & _ & He); [|apply _|done..].
      change ("sha256/" ++ bare ?x) with ("sha256" ++ "/" ++ bare x) in He.
      rewrite !(store_path_app (store_path := store_path lib)), !(store_path_safe "sha256") in He by done.
      apply slash_inj in He as [_ He]; [|done..]. by apply (Hlayer dig Hd).
    - by eapply object_kind in He; [|done..]. }
  rewrite <- H1. unfold tag_written in Ht. destruct (starts_with "sha256:" _); [by destruct Ht as (_ & -> & _)|].
  destruct Ht as (s2 & (_ & Hm & _) & (_ & -> & _) & _). destruct Hm as [->| ->]; [done|].
  rewrite lookup_insert_ne; [done|]. rewrite blob_of_object, tag_of_object. by apply object_kind.
Qed.

(** ** The handler *)

Section handler.
Context {W A : Type} `{!ObjectStore W, !ObjectStoreLaws W, !CopyStore W, !CopyLaws W, !AuditSink A}
  (lib : Libraries) `{!LibraryLaws lib} (cfg : GateConfig) (enabled : bool) (base : AppState (Sides W) A).

Abbreviation World := (Registry (Gate (Sides W)) A).

Definition sides (s : World) : Sides W := g_store (store s).

Definition permitted_both (claims : TokenClaims) (source dest : ImageRef) : Prop :=
  authorize claims (ir_tenant source) (ir_project source) (ir_repository source) Pull = Ok tt /\
  authorize claims (ir_tenant dest) (ir_project dest) (ir_repository dest) Push = Ok tt.

Definition policy_step (q : AdmissionRq) (body : PromoteBody) (source dest : ImageRef) : M World failure unit :=
  match mode_of body with
  | OnPolicyPass policy => policy_pass lib cfg base q source dest policy
  | Force | DryRun => ret tt
  end.

Lemma authorized_run claims r a (s s' : World) res :
  authorized claims (repo_of r) a s = (s', res) ->
  s' = s /\ (is_ok res = true <->
             authorize claims (ir_tenant r) (ir_project r) (ir_repository r) a = Ok tt).
Proof.
  unfold authorized, rethrow, lift. cbn. destruct (authorize _ _ _ _ _) as [[]|e]; intros [= <- <-]; done.
Qed.

(** The steps of the handler. *)
Lemma handler_inv rq pq q claims body source dest (s s' : World) r :
  parse_image_ref (pb_source body) = Ok source -> parse_image_ref (pb_dest body) = Ok dest ->
  promote_handler lib cfg enabled base rq pq q claims body s = (s', r) ->
  (s' = s /\ is_ok r = false /\ ~ (enabled = true /\ permitted_both claims source dest)) \/
  (enabled = true /\ permitted_both claims source dest /\
   exists s1 u, policy_step q body source dest s = (s1, u) /\
     ((is_ok u = false /\ s' = s1 /\ is_ok r = false) \/
      exists s2 res, u = Ok tt /\
        in_store (on_store (promote lib (gc_pool base) pq (claims_sub claims) (request_of body source dest))) s1
          = (s2, res) /\
        sides s' = sides s2 /\ r = map_err Fail res)).
Proof.
  intros Hsrc Hdst. unfold promote_handler. intros Hr.
  destruct enabled; [|inv_step Hr as s0 u0 H0; [done|injection H0 as <- <-]; left; by split_and!; [..|intros [? _]]].
  inv_step Hr as s0 u0 H0; [injection H0 as <- <-|done].
  rewrite Hsrc in Hr. inv_step Hr as s0 x H0; [injection H0 as <- <-|done].
  rewrite Hdst in Hr. inv_step Hr as s0 x H0; [injection H0 as <- <-|done].
  inv_step Hr as s0 x H0; apply authorized_run in H0 as [-> Hpull];
    [|left; by split_and!; [..|intros (_ & H0%Hpull & _)]].
  inv_step Hr as s0 y H0; apply authorized_run in H0 as [-> Hpush];
    [|left; by split_and!; [..|intros (_ & _ & H0%Hpush)]].
  right. split; [done|]. split; [by split; [apply Hpull|apply Hpush]|].
  inv_step Hr as s1 u H1.
  2: { exists s', (Err u). split; [exact H1|]. by left. }
  exists s1, (Ok u). split; [exact H1|]. right. destruct u.
  inv_step Hr as s2 o H2; apply rethrow_inv in H2 as (res & H2 & He).
  2: { exists s', res. split; [done|]. split; [exact H2|]. by rewrite He. }
  exists s2, res. split; [done|]. split; [exact H2|]. rewrite <- He.
  inv_step Hr as s3 a H3; apply attempt_inv in H3 as (r' & H3 & Ha); [|done]. injection Hr as <- <-.
  split; [|done]. unfold audit_record in H3. destruct (record _ _ _ _). by injection H3 as <- _.
Qed.

(** Resolving a reference reads one object. *)
Lemma reference_digest_inv r (s s1 : World) res :
  reference_digest lib r s = (s1, res) ->
  same_objs (sides s) (sides s1) /\ g_cache (store s1) = g_cache (store s) /\
  g_admission (store s1) = g_admission (store s).
Proof.
  unfold reference_digest. destruct (starts_with _ _); [by intros [= <- _]|].
  assert (Hlink : forall s1 res, read_tag_link lib (repo_of r) (ir_reference r) s = (s1, res) ->
            same_objs (sides s) (sides s1) /\ g_cache (store s1) = g_cache (store s) /\
            g_admission (store s1) = g_admission (store s)).
  { clear s1 res. intros s1 res Hr. unfold read_tag_link in Hr.
    inv_step Hr as s2 x H2; apply attempt_inv in H2 as (r' & H2 & Hx); [|done].
    assert (s1 = s2) as ->. { injection Hx as ->. destruct r' as [|e]; [|destruct (is_store_not_found e)]; by injection Hr. }
    unfold in_store in H2. cbn in H2. destruct (on_store _ (store s)) as [g r0] eqn:E. injection H2 as <- <-.
    apply on_store_inv in E as (w & Hw & Hg & _ & _ & Ha & Hc). unfold sides. cbn [store set_store]. rewrite Hg.
    split; [|done]. by destruct (on_side_read Src _ _ _ _ (get_same _) Hw). }
  intros Hr. inv_step Hr as s2 x H2; [injection Hr as <- _|]; by apply Hlink in H2.
Qed.

(** The policy check writes no object. *)
Lemma policy_step_objects q body source dest (s s1 : World) u :
  policy_step q body source dest s = (s1, u) -> same_objs (sides s) (sides s1).
Proof.
  unfold policy_step, policy_pass. destruct (mode_of body); [by intros [= <- _]..|].
  destruct (admission_enabled base); cbn [negb]; [|by intros [= <- _]]. intros Hr.
  inv_step Hr as s0 digest H0; apply reference_digest_inv in H0 as [Hs _]; [|done].
  destruct (gc_pool base); [|inv_step Hr as s2 x H2; [done|by injection H2 as <- _]].
  inv_step Hr as s2 x H2; [injection H2 as <- <-|done].
  inv_step Hr as s2 ps H2; apply rethrow_inv in H2 as (r' & H2 & Hx);
    (destruct (list_tenant_run (list_query q) (ir_tenant dest) s0) as (r0 & _ & Hrun); rewrite Hrun in H2;
     injection H2 as <- <-); [|done].
  unfold bind at 1, in_store, on_cache in Hr. destruct (Admission.evaluate _ _ _ _ _) as [c' v'].
  by destruct v'; injection Hr as <- _.
Qed.

(** The admission policies a promotion is checked against. *)
Definition chosen (policy : str) (policies : list AdmissionPolicy) : list AdmissionPolicy :=
  if non_empty policy then List.filter (fun a => str_eqb (adm_name a) policy) policies else policies.

Definition dest_input (dest : ImageRef) (digest : str) : EvaluateInput :=
  mkEvaluateInput (ir_tenant dest) (ir_project dest) (ir_repository dest) digest false (Some true).

Lemma policy_step_blocks q body source dest policy policies digest a (s s0 s1 : World) u :
  mode_of body = OnPolicyPass policy -> admission_enabled base = true -> forward (clock q) ->
  reference_digest lib source s = (s0, Ok digest) ->
  snd (list_tenant (list_query q) (ir_tenant dest) (g_admission (store s))) = Ok policies ->
  NoDup (map adm_id (applicable (chosen policy policies) (dest_input dest digest))) ->
  (forall a, inner (g_cache (store s)) !! cache_key digest (adm_id a) = None) ->
  a ∈ applicable (chosen policy policies) (dest_input dest digest) ->
  refuses a (fetch_scan (scan_store cfg) digest) (Some true) ->
  policy_step q body source dest s = (s1, u) -> is_ok u = false.
Proof.
  intros Hm Hadm Hclock Href Hlist Hnd Hfresh Ha Hrefuse. unfold policy_step, policy_pass. rewrite Hm, Hadm. cbn [negb].
  intros Hr. rewrite (bind_run _ _ _ _ _ Href) in Hr. apply reference_digest_inv in Href as (_ & Hc & Hdb).
  destruct (gc_pool base); [|by inv_step Hr as s2 x H2; [done|]]. inv_step Hr as s2 x H2; [|done].
  injection H2 as <- <-. inv_step Hr as s2 ps H2; apply rethrow_inv in H2 as (r' & H2 & Hx); [|done].
  destruct (list_tenant_run (list_query q) (ir_tenant dest) s0) as (r0 & Hr0 & Hrun). rewrite Hrun in H2.
  injection H2 as <- <-. rewrite Hdb, Hlist in Hr0. subst r0. cbn in Hx. injection Hx as <-.
  inv_step Hr as s3 v H3; [|done]. unfold in_store, on_cache in H3. fold (chosen policy ps) in H3.
  fold (dest_input dest digest) in H3.
  assert (Hb : is_block (snd (Admission.evaluate (clock q) (chosen policy ps) (fetch_scan (scan_store cfg) digest)
                 (dest_input dest digest) (g_cache (store s0)))) = true).
  { apply evaluate_fresh; [done..| |by exists a]. intros n b _. unfold cache_get. cbn [in_digest dest_input]. by rewrite Hc, Hfresh. }
  destruct (Admission.evaluate _ _ _ _ _) as [c' v']. injection H3 as _ <-. cbn in Hb. destruct v'; try done.
  by injection Hr as _ <-.
Qed.

Lemma promote_dry pool pq who req (s s' : Sides W) r :
  is_dry_run (pr_mode req) = true -> promote lib pool pq who req s = (s', r) -> same_objs s s'.
Proof.
  unfold promote. intros Hd Hr. rewrite Hd in Hr.
  inv_step Hr as s1 x H1; apply resolve_at in H1 as [Hs _]; [|done]. destruct x as [d b].
  inv_step Hr as s2 v H2; injection H2 as <- _; [by injection Hr as <- _|done].
Qed.
End handler.

(** A promotion needs the feature switched on and the caller to be allowed to
    pull from the source and push to the destination; without that nothing
    happens at all.  A dry run writes no object.  And with the admission gate
    on, a promotion that is to happen only if the policies pass is refused, with
    no object written, when one of the chosen policies refuses the digest at
    the destination, if no decision about it is cached. *)
Theorem promotion_guarded {W A : Type} `{!ObjectStore W, !ObjectStoreLaws W, !CopyStore W, !CopyLaws W, !AuditSink A}
    (lib : Libraries) `{!LibraryLaws lib} (cfg : GateConfig) (enabled : bool) (base : AppState (Sides W) A)
    (rq : Request) (pq : PromoteRq) (q : AdmissionRq) (claims : TokenClaims) (body : PromoteBody)
    (source dest : ImageRef) (s s' : Registry (Gate (Sides W)) A) (r : result PromoteOutcome failure)
    (Hsource : parse_image_ref (pb_source body) = Ok source) (Hdest : parse_image_ref (pb_dest body) = Ok dest)
    (Hrun : promote_handler lib cfg enabled base rq pq q claims body s = (s', r)) :
  (is_ok r = true -> enabled = true /\ permitted_both claims source dest) /\
  (~ (enabled = true /\ permitted_both claims source dest) -> s' = s /\ is_ok r = false) /\
  (mode_of body = DryRun -> same_objs (sides s) (sides s')) /\
  (forall policy policies digest a s0,
     mode_of body = OnPolicyPass policy -> admission_enabled base = true -> forward (clock q) ->
     reference_digest lib source s = (s0, Ok digest) ->
     snd (list_tenant (list_query q) (ir_tenant dest) (g_admission (store s))) = Ok policies ->
     NoDup (map adm_id (applicable (chosen policy policies) (dest_input dest digest))) ->
     (forall a, inner (g_cache (store s)) !! cache_key digest (adm_id a) = None) ->
     a ∈ applicable (chosen policy policies) (dest_input dest digest) ->
     refuses a (fetch_scan (scan_store cfg) digest) (Some true) ->
     is_ok r = false /\ same_objs (sides s) (sides s')).
Proof.
  destruct (handler_inv lib cfg enabled base rq pq q claims body source dest s s' r Hsource Hdest Hrun)
    as [(-> & Hr & Hn)|(He & Hp & s1 & u & Hu & Hrest)].
  { split_and!; [by rewrite Hr|done|done|]. intros. by split. }
  pose proof (policy_step_objects lib cfg base q body source dest s s1 u Hu) as Hs1.
  split; [done|]. split; [by intros []|]. split.
  - intros Hm. destruct Hrest as [(_ & -> & _)|(s2 & res & _ & H2 & -> & _)]; [done|].
    unfold in_store in H2. destruct (on_store _ (store s1)) as [g r0] eqn:E. injection H2 as <- <-.
    apply on_store_inv in E as (w & Hw & Hg & _). unfold sides. cbn. rewrite Hg.
    eapply same_objs_trans; [exact Hs1|]. eapply promote_dry; [|exact Hw]. unfold request_of. cbn. by rewrite Hm.
  - intros policy policies digest a s0 Hm Hadm Hc Href Hl Hnd Hf Ha Hre.
    pose proof (policy_step_blocks lib cfg base q body source dest policy policies digest a s s0 s1 u Hm Hadm Hc Href Hl Hnd Hf Ha Hre Hu) as Hno.
    destruct Hrest as [(_ & -> & Hr)|(s2 & res & -> & _)]; [by split|done].
Qed.

(** ** Instances

    An index with one child manifest, which lists a layer, promoted to an empty
    second store. *)

#[local] Existing Instance demo_sink.

Definition promo_parse (b : str) : option json :=
  let listed (k d : str) := Some (JObject [(k, JArray [JObject [("digest" : str, JString d)]])]) in
  if str_eqb b "index" then listed "manifests" "sha256:11"
  else if str_eqb b "manifest" then listed "layers" "sha256:22"
  else None.

Definition promo_lib : Libraries :=
  mkLibraries normal_path demo_sha promo_parse (fun _ => "invalid") (fun _ => true)
    (fun _ => "io") (fun _ => "sink") (seq 0) (fun _ => None) (fun _ => "time")
    0 (fun _ => None) (fun _ => None).

#[local] Instance promo_lib_laws : LibraryLaws promo_lib.
Proof.
  destruct demo_lib_laws as [H1 H2 H3 H4]. split; [exact H1|exact H2|exact H3|exact H4].
Qed.

Definition promo_objects : gmap str str :=
  <["a/b/c/tags/v1" := "sha256:00"]> (<["a/b/c/manifests/sha256:00" := "index"]>
    (<["a/b/c/manifests/sha256:11" := "manifest"]> {["a/b/c/blobs/sha256/22" := "layer"]})).

Definition promo_sides (fs : list fault) : Sides Memory :=
  mkSides (memory_of promo_objects fs) (Some (memory_of ∅ [])) ∅.

Definition promo_source : ImageRef := mkImageRef "a" "b" "c" "v1".
Definition promo_dest : ImageRef := mkImageRef "a" "prod" "c" "v1".
Definition promo_req : PromoteRequest := mkPromoteRequest promo_source promo_dest false false Force.
Definition promo_rq : PromoteRq := mkPromoteRq "u1" 0 false false.

Definition promo_outcome : PromoteOutcome :=
  mkPromoteOutcome "u1" "sha256:00" "sha256:00" "done" 13 1 0 None.

Lemma promotion_atomic_witness :
  exists s', promote promo_lib true promo_rq "alice" promo_req (promo_sides []) = (s', Ok promo_outcome) /\
    dst_objs s' !! store_path promo_lib (tag_of promo_dest "v1") = Some ("sha256:00" : str).
Proof.
  eexists. split; [apply run_eval; vm_compute; reflexivity|].
  refine (proj2 (proj2 (promotion_atomic promo_lib true promo_rq "alice" promo_req (promo_sides []) _ _ _ _ eq_refl
            (run_eval _ _ (Ok promo_outcome) _)) promo_outcome eq_refl) eq_refl).
  - by vm_compute.
  - by vm_compute.
  - vm_compute. reflexivity.
Defined.

Lemma promotion_contained_witness :
  exists s' e, promote promo_lib true promo_rq "alice" promo_req (promo_sides [NoFault; NoFault; Lost]) = (s', Err e) /\
    src_objs s' = promo_objects.
Proof.
  eexists _, _. split; [apply run_eval; vm_compute; reflexivity|].
  refine (proj1 (proj2 (promotion_contained promo_lib true promo_rq "alice" promo_req
            (promo_sides [NoFault; NoFault; Lost]) _ _ _ _ (run_eval _ _ _ _))) eq_refl).
  - by vm_compute.
  - by vm_compute.
  - vm_compute. reflexivity.
Defined.

Lemma promotion_shallow_witness :
  exists s', promote promo_lib true promo_rq "alice" promo_req (promo_sides []) = (s', Ok promo_outcome) /\
    src_objs (promo_sides []) !! store_path promo_lib (blob_of promo_source "sha256:22") = Some ("layer" : str) /\
    dst_objs s' !! store_path promo_lib (blob_of promo_dest "sha256:22") = None.
Proof.
  eexists. split; [apply run_eval; vm_compute; reflexivity|]. split; [vm_compute; reflexivity|].
  refine (promotion_shallow promo_lib true promo_rq "alice" promo_req (promo_sides []) _ promo_outcome "index"
            (JObject [("manifests" : str, JArray [JObject [("digest" : str, JString "sha256:11")]])]) "sha256:22"
            _ _ eq_refl eq_refl (run_eval _ _ _ _) _ eq_refl _ _).
  - by vm_compute.
  - by vm_compute.
  - vm_compute. reflexivity.
  - split; [vm_compute; reflexivity|]. exists "sha256:00". split; vm_compute; reflexivity.
  - intros dig [->|[->|[]%not_elem_of_nil]%elem_of_cons]%elem_of_cons; vm_compute; discriminate.
  - vm_compute. reflexivity.
Defined.

Definition promo_state : AppState (Sides Memory) bool :=
  mkAppState 64 32 4 true true true true false false None None false None None None
    (fun _ _ _ _ _ => ret tt) (fun _ _ _ _ _ => ret tt) (fun _ _ _ _ _ _ _ _ _ _ _ => ret tt).

Definition promo_body : PromoteBody :=
  mkPromoteBody "a/b/c:v1" "a/prod/c:v1" true true (Some ("on_policy_pass" : str)) None.

Definition promo_adm_spec : AdmissionPolicySpec :=
  mkAdmissionPolicySpec (mkAdmissionScope ["prod" : str] []) true (mkSeverityThreshold no_rules no_rules)
    UnknownBlock TimeoutBlock 5.

Definition promo_world : Registry (Gate (Sides Memory)) bool :=
  mkRegistry
    (mkGate (promo_sides []) ∅ ∅ ∅
       (mkAdmissionDb {[("a" : str, "adm" : str) :=
          mkAdmissionRow "p1" "adm" "a" (admission_spec_value promo_adm_spec) true 0]} []) (new_cache 30))
    db_empty (with_sink true true) ∅ [] [] [].

Lemma promotion_guarded_witness :
  exists s' r, promote_handler promo_lib gate_cfg true promo_state demo_rq promo_rq demo_adm_rq demo_claims promo_body
      promo_world = (s', r) /\
    is_ok r = false /\ same_objs (sides promo_world) (sides s').
Proof.
  eexists _, _. split; [apply run_eval; vm_compute; reflexivity|].
  refine (proj2 (proj2 (proj2 (promotion_guarded promo_lib gate_cfg true promo_state demo_rq promo_rq demo_adm_rq
            demo_claims promo_body promo_source promo_dest promo_world _ _ _ _ (run_eval _ _ _ _))))
            "" [mkAdmissionPolicy "p1" "adm" "a" promo_adm_spec true 0] "sha256:00"
            (mkAdmissionPolicy "p1" "adm" "a" promo_adm_spec true 0) _ eq_refl eq_refl demo_forward
            (run_eval _ _ _ _) _ _ _ _ _).
  - vm_compute. reflexivity.
  - vm_compute. reflexivity.
  - vm_compute. reflexivity.
  - vm_compute. reflexivity.
  - vm_compute. reflexivity.
  - vm_compute. apply NoDup_singleton.
  - intros a. cbn. apply lookup_empty.
  - vm_compute. left.
  - right. reflexivity.
Defined.
