(* ===== verification/TtlReaper.v ===== *)
(** * The reaper of expired tags ([crates/specton-ephemeral/src/reaper.rs])

    Batches of expired rows of [tags], the re-check under the row lock, the
    delete of the tag link, the bookkeeping, and the loop around the cycles.
    Between the steps other requests run: a cycle takes what they do to the
    world as a parameter. *)

From S2P Require Import Prelude Text Effects Store Paths Gc AuditLog RegistryAudit Ephemeral Auth Registry.

Local Open Scope Z_scope.

(** ** The state *)

Abbreviation TagKey := (str * str * str * str)%type.

(** The registry's world and the table [ttl_reaps]. *)
Record Ttl (W A : Type) : Type := mkTtl {
  reg : Registry W A;
  ttl_reaps : list TagKey
}.
Arguments mkTtl {W A}.
Arguments reg {W A}.
Arguments ttl_reaps {W A}.

Record TtlReaperConfig : Type := mkTtlReaperConfig {
  ttl_batch : nat
}.

Definition default_config : TtlReaperConfig := mkTtlReaperConfig 100.

Record TtlReaperStats : Type := mkTtlReaperStats {
  tags_reaped : Z;
  cycles : Z;
  paused_cycles : Z;
  errors : Z
}.

(** ** Selecting a batch *)

Definition expired (now : Z) (kv : TagKey * TagRow) : bool := expires_at kv.2 <? now.

Definition expires_le (a b : TagKey * TagRow) : Prop := expires_at a.2 <= expires_at b.2.

#[global] Instance expires_le_dec : RelDecision expires_le.
Proof. intros a b. unfold expires_le. apply _. Defined.

Definition ttl_candidates (cfg : TtlReaperConfig) (now : Z) (t : gmap TagKey TagRow) : list TagKey :=
  map fst (take (ttl_batch cfg)
             (merge_sort expires_le (filter (fun kv => expired now kv = true) (map_to_list t)))).

(** ** Reaping one tag *)

(** How the steps for one tag go: the clock of the re-check, a failure of the
    statements before the delete, what happens to the objects between the
    re-check and the delete (the row is locked, the store is not), a failure of
    the statements after it. *)
Record TagStep (W : Type) : Type := mkTagStep {
  step_now : Z;
  begin_fails : option str;
  meanwhile : W -> W;
  commit_fails : option str
}.
Arguments mkTagStep {W}.
Arguments step_now {W}.
Arguments begin_fails {W}.
Arguments meanwhile {W}.
Arguments commit_fails {W}.

Section reaper.
Context {W A : Type} `{ObjectStore W} (store_path : str -> str).

Abbreviation World := (Ttl W A).

Definition tag_link (k : TagKey) : str :=
  let '(tenant, project, repo, tag) := k in
  store_path (tenant ++ "/" ++ project ++ "/" ++ repo ++ "/tags/" ++ tag).

Definition with_store (w : W) (s : World) : World := mkTtl (set_store w (reg s)) (ttl_reaps s).

Definition drop_tag (k : TagKey) (s : World) : World :=
  let r := reg s in
  mkTtl (mkRegistry (store r) (gc_db r) (audit_log r) (delete k (tags r)) (replication r) (webhooks r) (tasks r))
    (ttl_reaps s ++ [k]).

Definition still_expired (now : Z) (k : TagKey) (s : World) : bool :=
  match tags (reg s) !! k with
  | Some row => expires_at row <? now
  | None => false
  end.

Definition reap_tag (st : TagStep W) (k : TagKey) : M World str bool :=
  fun s =>
    match begin_fails st with
    | Some e => (s, Err e)
    | None =>
        if negb (still_expired (step_now st) k s) then (s, Ok false)
        else
          let '(w, r) := os_delete (tag_link k) (meanwhile st (store (reg s))) in
          let s := with_store w s in
          match r with
          | Ok _ | Err (NotFound _) =>
              match commit_fails st with
              | Some e => (s, Err e)
              | None => (drop_tag k s, Ok true)
              end
          | Err (AlreadyExists _) | Err (Generic _ _) => (s, Err "storage delete failed")
          end
    end.

(** ** A cycle *)

(** What a cycle meets: the clock and a failure of the selection, and for each
    tag of the batch what other requests do before it, whether the reaper has
    been stopped or paused, and how its steps go. *)
Record Round : Type := mkRound {
  select_now : Z;
  select_fails : option str;
  others : nat -> World -> World;
  halted : nat -> bool;
  steps : nat -> TagStep W
}.

Fixpoint reap_tags (rd : Round) (i : nat) (ks : list TagKey) (reaped : Z) (s : World) : World * Z :=
  match ks with
  | [] => (s, reaped)
  | k :: ks' =>
      let s := others rd i s in
      if halted rd i then (s, reaped)
      else
        let '(s, r) := reap_tag (steps rd i) k s in
        reap_tags rd (S i) ks' (match r with
                                | Ok true => reaped + 1
                                | Ok false | Err _ => reaped
                                end) s
  end.

Definition ttl_cycle (cfg : TtlReaperConfig) (rd : Round) : M World str Z :=
  fun s =>
    match select_fails rd with
    | Some e => (s, Err e)
    | None =>
        let '(s, n) := reap_tags rd 0 (ttl_candidates cfg (select_now rd) (tags (reg s))) 0 s in
        (s, Ok n)
    end.

(** ** The loop

    One entry per pass until the reaper is stopped: [None] when it finds itself
    paused. *)
Fixpoint ttl_run (cfg : TtlReaperConfig) (passes : list (option Round)) (st : TtlReaperStats) (s : World) :
    World * TtlReaperStats :=
  match passes with
  | [] => (s, st)
  | None :: passes' =>
      ttl_run cfg passes' (mkTtlReaperStats (tags_reaped st) (cycles st + 1) (paused_cycles st + 1) (errors st)) s
  | Some rd :: passes' =>
      match ttl_cycle cfg rd s with
      | (s, Ok n) =>
          ttl_run cfg passes' (mkTtlReaperStats (tags_reaped st + n) (cycles st + 1) (paused_cycles st) (errors st)) s
      | (s, Err _) =>
          ttl_run cfg passes' (mkTtlReaperStats (tags_reaped st) (cycles st + 1) (paused_cycles st) (errors st + 1)) s
      end
  end.
End reaper.
Arguments mkRound {W A}.
Arguments select_now {W A}.
Arguments select_fails {W A}.
Arguments others {W A}.
Arguments halted {W A}.
Arguments steps {W A}.
