(* ===== verification/TtlTheorems.v ===== *)
(** * What the reaper of expired tags guarantees

    It deletes no object but the links of expired tags, it reaps every expired
    tag in a bounded number of undisturbed passes, and it keeps to a lifetime
    that a later push of the tag did not ask for. *)

From S2P Require Import Prelude Text Effects Store Paths Multipart Gc AuditLog RegistryAudit Ephemeral Auth Utf8.
From S2P Require Import Registry RegistryProofs RegistryFlows RegistryTheorems TtlReaper.

Local Open Scope Z_scope.

Section reaper.
Context {W A : Type} `{!ObjectStore W, !ObjectStoreLaws W} (store_path : str -> str).

Abbreviation World := (Ttl W A).

Definition tag_rows (s : World) : gmap TagKey TagRow := tags (reg s).
Definition tag_objs (s : World) : gmap str str := objects (store (reg s)).

(** ** Safety *)

(** The tags a batch comes to: with which clock and failures, and in which state
    of the world, other requests having run since the batch was selected. *)
Inductive visited_in (rd : Round (W := W) (A := A)) :
    nat -> list TagKey -> World -> TagStep W -> TagKey -> World -> Prop :=
| visit_first i k ks s :
    halted rd i = false -> visited_in rd i (k :: ks) s (steps rd i) k (others rd i s)
| visit_next i k ks s st k' s' :
    halted rd i = false ->
    visited_in rd (S i) ks (exec (reap_tag store_path (steps rd i) k) (others rd i s)) st k' s' ->
    visited_in rd i (k :: ks) s st k' s'.

(** The tags a run of the reaper comes to. *)
Inductive visited (cfg : TtlReaperConfig) :
    list (option Round) -> World -> TagStep W -> TagKey -> World -> Prop :=
| visited_now rd passes s st k s' :
    select_fails rd = None ->
    visited_in rd 0 (ttl_candidates cfg (select_now rd) (tags (reg s))) s st k s' ->
    visited cfg (Some rd :: passes) s st k s'
| visited_later rd passes s st k s' :
    visited cfg passes (exec (ttl_cycle store_path cfg rd) s) st k s' -> visited cfg (Some rd :: passes) s st k s'
| visited_paused passes s st k s' : visited cfg passes s st k s' -> visited cfg (None :: passes) s st k s'.

Lemma visited_in_state rd i ks s st k s' :
  visited_in rd i ks s st k s' -> exists j s0, st = steps rd j /\ s' = others rd j s0.
Proof. induction 1; eauto. Qed.

(** The link of [k] may go: its row is there and has expired by [now]. *)
Definition may_reap (now : Z) (k : TagKey) (s : World) : Prop :=
  exists row, tag_rows s !! k = Some row /\ expires_at row < now.

(** During a pass other requests leave the object [d] at [l] alone. *)
Definition leave_alone (l d : str) (rd : Round (W := W) (A := A)) : Prop :=
  (forall i s, tag_objs s !! l = Some d -> tag_objs (others rd i s) !! l = Some d) /\
  forall i w, objects w !! l = Some d -> objects (meanwhile (steps rd i) w) !! l = Some d.

Lemma reap_tag_spares l d st k (s : World) :
  (forall w, objects w !! l = Some d -> objects (meanwhile st w) !! l = Some d) ->
  (tag_link store_path k = l -> ~ may_reap (step_now st) k s) ->
  tag_objs s !! l = Some d -> tag_objs (exec (reap_tag store_path st k) s) !! l = Some d.
Proof.
  intros Hmean Hkept Hl. unfold exec, reap_tag. destruct (begin_fails st); [done|].
  destruct (still_expired (step_now st) k s) eqn:Hexp; cbn [negb]; [|done].
  assert (Hne : tag_link store_path k <> l).
  { intros He. apply (Hkept He). unfold still_expired in Hexp. unfold may_reap, tag_rows.
    destruct (tags (reg s) !! k) as [row|]; [|done]. exists row. split; [done|lia]. }
  destruct (os_delete (tag_link store_path k) (meanwhile st (store (reg s)))) as [w r] eqn:Hd.
  assert (Hw : objects w !! l = Some d).
  { specialize (Hmean _ Hl). destruct r as [[]|e].
    - by rewrite (delete_ok _ _ _ Hd), lookup_delete_ne.
    - apply delete_err in Hd as [->| ->]; [done|]. by rewrite lookup_delete_ne. }
  by repeat case_match.
Qed.

Lemma reap_tags_spares l d rd i ks n (s : World) :
  leave_alone l d rd ->
  (forall st k s1, visited_in rd i ks s st k s1 -> tag_link store_path k = l -> ~ may_reap (step_now st) k s1) ->
  tag_objs s !! l = Some d -> tag_objs (fst (reap_tags store_path rd i ks n s)) !! l = Some d.
Proof.
  intros [Ho Hm]. revert i n s. induction ks as [|k ks IH]; intros i n s Hv Hl; [done|]. cbn.
  destruct (halted rd i) eqn:Hh; [by apply Ho|].
  pose proof (reap_tag_spares l d (steps rd i) k (others rd i s) (Hm i)) as H1. unfold exec in H1.
  assert (Hnext : forall st k' s1,
    visited_in rd (S i) ks (exec (reap_tag store_path (steps rd i) k) (others rd i s)) st k' s1 ->
    tag_link store_path k' = l -> ~ may_reap (step_now st) k' s1)
    by (intros st k' s1 Hv'; by apply Hv, visit_next).
  unfold exec in Hnext. specialize (H1 (Hv _ _ _ (visit_first rd i k ks s Hh)) (Ho i s Hl)).
  destruct (reap_tag store_path (steps rd i) k (others rd i s)) as [s1 r]. by apply IH.
Qed.

Lemma ttl_run_spares l d cfg passes st (s : World) :
  (forall rd, Some rd ∈ passes -> leave_alone l d rd) ->
  (forall st k s1, visited cfg passes s st k s1 -> tag_link store_path k = l -> ~ may_reap (step_now st) k s1) ->
  tag_objs s !! l = Some d -> tag_objs (fst (ttl_run store_path cfg passes st s)) !! l = Some d.
Proof.
  revert st s. induction passes as [|[rd|] passes IH]; intros st s Ho Hv Hl; cbn; [done| |].
  2: { apply IH; [intros rd Hrd; apply Ho; by right| |done]. intros ? ? ? Hv'. by apply Hv, visited_paused. }
  assert (Hl1 : tag_objs (exec (ttl_cycle store_path cfg rd) s) !! l = Some d).
  { unfold exec, ttl_cycle. destruct (select_fails rd) eqn:Hf; [done|].
    pose proof (reap_tags_spares l d rd 0 (ttl_candidates cfg (select_now rd) (tags (reg s))) 0 s
                  (Ho rd ltac:(by left))) as H1.
    destruct (reap_tags _ _ _ _ _ s). apply H1; [|done]. intros ? ? ? Hv'. by apply Hv, visited_now. }
  assert (Hv1 : forall st k s1, visited cfg passes (exec (ttl_cycle store_path cfg rd) s) st k s1 ->
    tag_link store_path k = l -> ~ may_reap (step_now st) k s1)
    by (intros ? ? ? Hv'; by apply Hv, visited_later).
  unfold exec in Hl1, Hv1. destruct (ttl_cycle store_path cfg rd s) as [s1 [n|e]];
    (apply IH; [intros rd' Hrd; apply Ho; by right|done|done]).
Qed.

(** ** Progress *)

(** A pass at time [now] in which nothing fails and nothing else happens. *)
Definition quiet (now : Z) : Round (W := W) (A := A) :=
  mkRound now None (fun _ s => s) (fun _ => false) (fun _ => mkTagStep now None (fun w => w) None).

(** Deletes are answered, from any state of [R]. *)
Definition deletes (R : W -> Prop) : Prop :=
  forall w w' p r, R w -> os_delete p w = (w', r) -> R w' /\ (r = Ok tt \/ exists q, r = Err (NotFound q)).

Lemma delete_answered R w w' p r :
  deletes R -> R w -> os_delete p w = (w', r) -> R w' /\ objects w' = delete p (objects w).
Proof.
  intros HR Hw Hd. destruct (HR w w' p r Hw Hd) as [Hw' [->|[q ->]]]; split; try done.
  - by apply delete_ok.
  - pose proof (delete_not_found _ _ _ _ Hd) as Hn. apply delete_err in Hd as [Hs|Hs]; [|done].
    rewrite Hs in *. by rewrite delete_id.
Qed.

Lemma reap_tag_quiet R now k row i (s : World) :
  deletes R -> R (store (reg s)) -> tag_rows s !! k = Some row -> expires_at row < now ->
  exists s', reap_tag store_path (steps (quiet now) i) k s = (s', Ok true) /\ R (store (reg s')) /\
    tag_rows s' = delete k (tag_rows s) /\ tag_objs s' = delete (tag_link store_path k) (tag_objs s) /\
    ttl_reaps s' = ttl_reaps s ++ [k].
Proof.
  intros HR Hs Hk Hexp. unfold tag_rows in Hk. unfold reap_tag, still_expired. cbn. rewrite Hk.
  replace (expires_at row <? now) with true by lia. cbn [negb].
  destruct (os_delete _ (store (reg s))) as [w r] eqn:Hd.
  destruct (delete_answered R _ _ _ _ HR Hs Hd) as [Hw Ho].
  destruct (HR _ _ _ _ Hs Hd) as [_ [->|[q ->]]]; (eexists; split; [reflexivity|]); done.
Qed.

(** What a quiet pass leaves of the tables: nothing but expired rows goes, and
    with a row its link. *)
Definition shrunk (now : Z) (s s' : World) : Prop :=
  tag_objs s' ⊆ tag_objs s /\
  forall k, tag_rows s' !! k = tag_rows s !! k \/
    (tag_rows s' !! k = None /\ tag_objs s' !! tag_link store_path k = None /\
     exists row, tag_rows s !! k = Some row /\ expires_at row < now).

Lemma shrunk_trans now s1 s2 s3 : shrunk now s1 s2 -> shrunk now s2 s3 -> shrunk now s1 s3.
Proof.
  intros [Ho1 H1] [Ho2 H2]. split; [by etrans|]. intros k. destruct (H2 k) as [Hk|(Hn & Hl & row & Hr & He)].
  - rewrite Hk. destruct (H1 k) as [|(Hn & Hl & Hr)]; [by left|right]. split_and!; try done.
    destruct (tag_objs s3 !! _) as [x|] eqn:E; [|done]. eapply lookup_weaken in E; [|done]. congruence.
  - right. split_and!; [done..|]. destruct (H1 k) as [<-|(Hn' & _)]; [by exists row|congruence].
Qed.

Definition due (now : Z) (s : World) : gmap TagKey TagRow :=
  filter (fun kv => expired now kv = true) (tag_rows s).

Lemma due_delete now k (s s' : World) :
  tag_rows s' = delete k (tag_rows s) -> due now s' = delete k (due now s).
Proof. unfold due. intros ->. apply map_filter_delete. Qed.

Lemma reap_tags_quiet R now ks i n (s : World) :
  deletes R -> R (store (reg s)) -> NoDup ks -> (forall k, k ∈ ks -> is_Some (due now s !! k)) ->
  let '(s', n') := reap_tags store_path (quiet now) i ks n s in
  R (store (reg s')) /\ shrunk now s s' /\ n' = n + Z.of_nat (length ks) /\
  (base.size (due now s') + length ks = base.size (due now s))%nat.
Proof.
  intros HR. revert i n s. induction ks as [|k ks IH]; intros i n s Hs Hnd Hdue.
  { cbn. split_and!; [done| |lia|lia]. split; [done|]. auto. }
  apply NoDup_cons in Hnd as [Hk Hnd].
  destruct (Hdue k ltac:(by left)) as [row Hrow]. pose proof Hrow as Hd.
  apply map_lookup_filter_Some in Hrow as [Hrow Hexp]. unfold expired in Hexp. cbn in Hexp.
  destruct (reap_tag_quiet R now k row i s HR Hs Hrow ltac:(lia)) as (s1 & Hr & Hs1 & Ht1 & Ho1 & _).
  cbn [reap_tags]. change (halted (quiet now) i) with false. change (others (quiet now) i s) with s. cbv iota.
  rewrite Hr. cbv iota.
  assert (Hdue1 : forall k', k' ∈ ks -> is_Some (due now s1 !! k')).
  { intros k' Hk'. rewrite (due_delete now k s s1 Ht1), lookup_delete_ne by (by intros ->).
    apply Hdue. by right. }
  specialize (IH (S i) (n + 1) s1 Hs1 Hnd Hdue1).
  destruct (reap_tags store_path (quiet now) (S i) ks (n + 1) s1) as [s2 n2].
  destruct IH as (HR2 & Hsh & -> & Hsize). split_and!; [done| |cbn; lia|].
  - eapply shrunk_trans; [|exact Hsh]. split; [rewrite Ho1; apply delete_subseteq|]. intros k'. rewrite Ht1, Ho1.
    destruct (decide (k' = k)) as [->|Hne]; [|left; by rewrite lookup_delete_ne].
    right. rewrite !lookup_delete_eq. split_and!; [done..|]. exists row. split; [done|lia].
  - rewrite (due_delete now k s s1 Ht1), map_size_delete_Some in Hsize by done.
    assert (base.size (due now s) <> 0%nat) by (intros H0%map_size_empty_inv; rewrite H0 in Hd; by rewrite lookup_empty in Hd).
    cbn. lia.
Qed.

(** The batch: expired rows, no row twice, as many as fit. *)
Lemma candidates_due cfg now (s : World) :
  let ks := ttl_candidates cfg now (tag_rows s) in
  NoDup ks /\ (forall k, k ∈ ks -> is_Some (due now s !! k)) /\
  length ks = Nat.min (ttl_batch cfg) (base.size (due now s)).
Proof.
  cbn. unfold ttl_candidates.
  set (l := filter (fun kv => expired now kv = true) (map_to_list (tag_rows s))).
  assert (Hl : Permutation l (map_to_list (due now s))).
  { apply NoDup_Permutation; [apply NoDup_filter, NoDup_map_to_list|apply NoDup_map_to_list|]. intros [k row].
    unfold l, due. rewrite list_elem_of_filter, !elem_of_map_to_list, map_lookup_filter_Some. tauto. }
  assert (Hp : Permutation (merge_sort expires_le l) (map_to_list (due now s)))
    by (by rewrite merge_sort_Permutation).
  split_and!.
  - rewrite <- firstn_map. eapply sublist_NoDup; [|apply sublist_take].
    rewrite (Permutation_map fst Hp). apply NoDup_fst_map_to_list.
  - intros k (kv & -> & Hkv)%list_elem_of_fmap. apply elem_of_take in Hkv as (i & Hi & _).
    apply list_elem_of_lookup_2 in Hi. rewrite Hp in Hi. destruct kv as [k row].
    apply elem_of_map_to_list in Hi. by exists row.
  - by rewrite length_map, length_take, Hp, length_map_to_list.
Qed.

Lemma quiet_cycle R cfg now (s : World) :
  deletes R -> R (store (reg s)) ->
  exists s', ttl_cycle store_path cfg (quiet now) s
    = (s', Ok (Z.of_nat (Nat.min (ttl_batch cfg) (base.size (due now s))))) /\
    R (store (reg s')) /\ shrunk now s s' /\
    base.size (due now s') = (base.size (due now s) - ttl_batch cfg)%nat.
Proof.
  intros HR Hs. destruct (candidates_due cfg now s) as (Hnd & Hdue & Hlen).
  pose proof (reap_tags_quiet R now _ 0 0 s HR Hs Hnd Hdue) as H. unfold ttl_cycle.
  change (select_fails (quiet now)) with (@None str). change (select_now (quiet now)) with now. cbv iota.
  fold (tag_rows s). destruct (reap_tags store_path (quiet now) 0 _ 0 s) as [s' n].
  destruct H as (HR' & Hsh & -> & Hsize). exists s'. rewrite Hlen in *. split_and!; [|done..|lia].
  by rewrite Z.add_0_l.
Qed.
End reaper.

(** A push without a lifetime leaves the table of lifetimes alone, if the
    services it calls do. *)
Section push.
Context {W A : Type} `{!ObjectStore W, !ObjectStoreLaws W, !AuditSink A}
  (lib : Libraries) (state : AppState W A) (t : gmap TagKey TagRow).

Abbreviation same_tags m := (preserves (fun s : Registry W A => tags s = t) m).

Lemma tags_in_store {E X} (m : M W E X) : same_tags (in_store m).
Proof. intros s Hs. unfold exec, in_store. by destruct (m (store s)). Qed.

Lemma tags_audit rq e : same_tags (audit_record lib rq e).
Proof. intros s Hs. unfold exec, audit_record. by destruct (record _ _ _ _). Qed.

Lemma tags_modify {E} f : (forall s : Registry W A, tags (f s) = tags s) -> same_tags (modify (E := E) f).
Proof. intros Hf s Hs. unfold exec. cbn. by rewrite Hf. Qed.

#[local] Ltac tags_step :=
  match goal with
  | |- preserves _ (bind _ _) => apply preserves_bind; [|intros ?]
  | |- preserves _ (rethrow _ _) => apply preserves_rethrow
  | |- preserves _ (attempt _) => apply preserves_attempt
  | |- preserves _ (when _ _) => apply preserves_when
  | |- preserves _ (ret _) => apply preserves_ret
  | |- preserves _ (throw _) => apply preserves_throw
  | |- preserves _ (lift _) => apply preserves_lift
  | |- preserves _ (in_store _) => apply tags_in_store
  | |- preserves _ (audit_record _ _ _) => apply tags_audit
  | |- preserves _ (modify _) => by apply tags_modify
  | |- preserves _ (match ?x with _ => _ end) => destruct x
  end.

Lemma put_manifest_tags rq c p reference body :
  (forall a b d e f g h i j k l, same_tags (register_signature_metadata state a b d e f g h i j k l)) ->
  same_tags (put_manifest lib state rq c p reference None body).
Proof.
  intros Hreg. unfold put_manifest, authorized, stored, push_ttl, push_refs, push_tasks, replicate_event,
    webhook_event, enqueue, notify, record_usage, spawn, header, audited, push_signature.
  repeat tags_step; apply Hreg.
Qed.
End push.

(** ** Theorems *)

(** C33: Safety: an object that other requests leave alone is still there after any
    number of passes of the reaper, whatever fails in them and whatever those
    requests do to the tags in between, unless the reaper comes to a tag whose
    link it is and finds, at that moment and by its clock, that the row of the
    tag has expired.  So a tag that had expired when the batch was selected and
    whose lifetime is extended before the reaper comes to it survives; and, the
    tags being of well-formed repositories, no blob or manifest of such a
    repository is ever deleted. *)
Theorem ttl_spares_unexpired {W A : Type} `{!ObjectStore W, !ObjectStoreLaws W} (store_path : str -> str)
    `{!PathNormal store_path} (cfg : TtlReaperConfig) (passes : list (option (Round (W := W) (A := A))))
    (st : TtlReaperStats) (l d : str) (s : Ttl W A)
    (Hothers : forall rd, Some rd ∈ passes -> leave_alone l d rd) (Hobject : tag_objs s !! l = Some d) :
  let s' := fst (ttl_run store_path cfg passes st s) in
  ((forall step k s1, visited store_path cfg passes s step k s1 -> tag_link store_path k = l ->
      forall row, tag_rows s1 !! k = Some row -> step_now step <= expires_at row) ->
   tag_objs s' !! l = Some d) /\
  ((forall step k s1, visited store_path cfg passes s step k s1 -> wf_name k.1.1.1 k.1.1.2 k.1.2) ->
   forall t p r dg, wf_name t p r ->
     l = store_path (manifest_path t p r dg) \/ wf_digest dg /\ l = store_path (blob_path t p r dg) ->
     tag_objs s' !! l = Some d).
Proof.
  intros s'. split.
  - intros Hkept. apply ttl_run_spares; [done| |done]. intros step k s1 Hv Hl (row & Hrow & Hexp).
    specialize (Hkept step k s1 Hv Hl row Hrow). lia.
  - intros Hwf t p r dg Hn Hl. apply ttl_run_spares; [done| |done]. intros step [[[t' p'] r'] tag] s1 Hv He _.
    specialize (Hwf _ _ _ Hv). cbn in Hwf. destruct Hl as [->|[(hex & -> & Hh) ->]].
    + apply (object_path_inj store_path t' p' r' "tags" tag t p r "manifests" dg) in He as (_ & ? & _); done.
    + apply (object_path_inj store_path t' p' r' "tags" tag t p r "blobs" ("sha256/" ++ hex)) in He
        as (_ & ? & _); done.
Qed.

(** C34: Progress: when deletes are answered and nothing fails or interferes, every
    tag that has expired is gone after as many passes as full batches of them:
    its row and its link are removed, the rows that have not expired stay, and
    the counters report the number of tags and no error. *)
Theorem ttl_reaps_expired {W A : Type} `{!ObjectStore W, !ObjectStoreLaws W} (store_path : str -> str)
    (cfg : TtlReaperConfig) (now : Z) (n : nat) (s : Ttl W A) (R : W -> Prop)
    (Hdeletes : deletes R) (Hstore : R (store (reg s)))
    (Hpasses : (base.size (due now s) <= n * ttl_batch cfg)%nat) :
  let '(s', st) := ttl_run store_path cfg (replicate n (Some (quiet now))) (mkTtlReaperStats 0 0 0 0) s in
  (forall k row, tag_rows s !! k = Some row -> expires_at row < now ->
     tag_rows s' !! k = None /\ tag_objs s' !! tag_link store_path k = None) /\
  (forall k row, tag_rows s !! k = Some row -> now <= expires_at row -> tag_rows s' !! k = Some row) /\
  st = mkTtlReaperStats (Z.of_nat (base.size (due now s))) (Z.of_nat n) 0 0.
Proof.
  assert (H : forall a b, let '(s', st) := ttl_run store_path cfg (replicate n (Some (quiet now)))
                            (mkTtlReaperStats a b 0 0) s in
            shrunk store_path now s s' /\ due now s' = ∅ /\
            st = mkTtlReaperStats (a + Z.of_nat (base.size (due now s))) (b + Z.of_nat n) 0 0).
  { revert s Hstore Hpasses. induction n as [|n IH]; intros s Hs Hn a b; cbn [replicate ttl_run].
    - assert (base.size (due now s) = 0%nat) as H0 by lia. rewrite H0. split_and!; [|by apply map_size_empty_inv|].
      + split; [done|]. auto.
      + f_equal; lia.
    - destruct (quiet_cycle store_path R cfg now s Hdeletes Hs) as (s1 & -> & Hs1 & Hsh & Hsize).
      specialize (IH s1 Hs1 ltac:(lia) (a + Z.of_nat (Nat.min (ttl_batch cfg) (base.size (due now s)))) (b + 1)).
      destruct (ttl_run _ _ _ _ s1) as [s2 st]. destruct IH as (Hsh2 & He & ->).
      split_and!; [by eapply shrunk_trans|done|]. f_equal; lia. }
  specialize (H 0 0). destruct (ttl_run _ _ _ _ s) as [s' st]. destruct H as ([_ Hsh] & He & ->). split_and!.
  - intros k row Hk Hexp. destruct (Hsh k) as [Hk'|(Hn & Hl & _)]; [|done]. exfalso.
    assert (due now s' !! k = Some row) as Hd; [|by rewrite He, lookup_empty in Hd].
    apply map_lookup_filter_Some. rewrite Hk'. split; [done|]. unfold expired. cbn. lia.
  - intros k row Hk Hexp. destruct (Hsh k) as [->|(_ & _ & row' & Hr & Hlt)]; [done|].
    rewrite Hk in Hr. injection Hr as <-. lia.
  - done.
Qed.

(** A tag that was pushed with a lifetime and is pushed again without one keeps
    the old lifetime: once that has passed, the reaper deletes the link of the
    new push. *)
Theorem ttl_outlives_repush {W A : Type} `{!ObjectStore W, !ObjectStoreLaws W, !AuditSink A}
    (lib : Libraries) `{!LibraryLaws lib} (state : AppState W A) (rq : Request) (c : TokenClaims) (p : RepoPath)
    (tag body : str) (row : TagRow) (now : Z) (reaps : list TagKey) (s s' : Registry W A) (resp : Response)
    (R : W -> Prop)
    (Hreg : forall t a b d e f g h i j k l,
       preserves (fun s : Registry W A => tags s = t) (register_signature_metadata state a b d e f g h i j k l))
    (Hkeeps : registers_metadata state) (Htag : starts_with "sha256:" tag = false)
    (Hrow : tags s !! (tenant p, project p, name p, tag) = Some row)
    (Hpush : put_manifest lib state rq c p tag None body s = (s', Ok resp))
    (Hexpired : expires_at row < now) (Hdeletes : deletes R) (Hstore : R (store s')) :
  objs s' !! tag_at lib p tag = Some (digest_of lib body) /\
  exists s2, reap_tag (store_path lib) (mkTagStep now None (fun w => w) None)
      (tenant p, project p, name p, tag) (mkTtl s' reaps) = (s2, Ok true) /\
    tag_objs s2 !! tag_at lib p tag = None.
Proof.
  split.
  - destruct (put_manifest_writes lib state p rq c tag None body s s' (Ok resp) Hkeeps Hpush I) as [_ ->].
    unfold pushed. rewrite Htag. by rewrite lookup_insert_eq.
  - pose proof (put_manifest_tags lib state (tags s) rq c p tag body (Hreg (tags s)) s eq_refl) as Ht.
    unfold exec in Ht. rewrite Hpush in Ht. cbn in Ht.
    destruct (reap_tag_quiet (store_path lib) R now (tenant p, project p, name p, tag) row 0 (mkTtl s' reaps)
                Hdeletes Hstore) as (s2 & Hr & _ & _ & Ho & _); [by rewrite <- Hrow, <- Ht|done|].
    exists s2. split; [exact Hr|]. rewrite Ho. apply lookup_delete_eq.
Qed.

(** ** Instances *)

#[local] Existing Instance demo_lib_laws.
#[local] Existing Instance demo_sink.

Lemma memory_deletes : deletes (fun w : Memory => faults w = []).
Proof.
  intros w w' p r Hw Hd. cbn in Hd. unfold faulty, mem_delete in Hd. rewrite Hw in Hd.
  destruct (mem_objects w !! p); injection Hd as <- <-; cbn; eauto.
Qed.

(** Two tags of a repository, one of which expires at time 10. *)
Definition ttl_key (tag : str) : TagKey := ("a" : str, "b" : str, "c" : str, tag).
Definition ttl_world : Ttl Memory bool :=
  mkTtl (mkRegistry (memory_of demo_objects []) db_empty (with_sink true true)
           (<[ttl_key "v1" := mkTagRow demo_digest "alice" 0 10]>
              {[ttl_key "v2" := mkTagRow demo_digest "alice" 0 50]}) [] [] []) [].

(** Before each tag of the batch another request extends the lifetimes. *)
Definition extended (s : Ttl Memory bool) : Ttl Memory bool :=
  let r := reg s in
  mkTtl (mkRegistry (store r) (gc_db r) (audit_log r)
           ((fun row => mkTagRow (tag_digest row) (pushed_by row) (pushed_at row) 100) <$> tags r)
           (replication r) (webhooks r) (tasks r)) (ttl_reaps s).

Definition extending : Round (W := Memory) (A := bool) :=
  mkRound 60 None (fun _ => extended) (fun _ => false) (fun _ => mkTagStep 61 None (fun w => w) None).

(** Both tags are in the batch, and survive it. *)
Lemma ttl_spares_unexpired_witness :
  ttl_candidates default_config 60 (tag_rows ttl_world) = [ttl_key "v1"; ttl_key "v2"] /\
  tag_objs (fst (ttl_run normal_path default_config [Some extending] (mkTtlReaperStats 0 0 0 0) ttl_world))
    !! ("a/b/c/tags/v2" : str) = Some demo_digest.
Proof.
  split; [vm_compute; reflexivity|].
  refine (proj1 (ttl_spares_unexpired normal_path default_config [Some extending] (mkTtlReaperStats 0 0 0 0)
           "a/b/c/tags/v2" demo_digest ttl_world _ _) _).
  - intros rd [= ->]%list_elem_of_singleton. by split.
  - vm_compute. reflexivity.
  - intros step k s1 Hv _ row Hrow. inversion Hv as [? ? ? ? ? ? _ Hin|? ? ? ? ? ? Hv'|]; subst; [|by inversion Hv'].
    apply visited_in_state in Hin as (j & s0 & -> & ->). cbn in Hrow.
    apply lookup_fmap_Some in Hrow as (row0 & <- & _). cbn. lia.
Defined.

Lemma ttl_reaps_expired_witness :
  tag_rows (fst (ttl_run normal_path default_config [Some (quiet 20)] (mkTtlReaperStats 0 0 0 0) ttl_world))
    !! ttl_key "v1" = None.
Proof.
  pose proof (ttl_reaps_expired normal_path default_config 20 1 ttl_world (fun w => faults w = []) memory_deletes eq_refl
    ltac:(vm_compute; lia)) as H.
  change (replicate 1 (Some (quiet 20))) with [Some (quiet (W := Memory) (A := bool) 20)] in H.
  destruct (ttl_run _ _ _ _ ttl_world) as [s' st].
  refine (proj1 (proj1 H (ttl_key "v1") (mkTagRow demo_digest "alice" 0 10) _ _)); [|cbn; lia].
  apply lookup_insert_eq.
Defined.

Lemma ttl_outlives_repush_witness :
  exists s' resp s2,
    put_manifest demo_lib demo_state demo_rq demo_claims demo_repo "v1" None "{}" (reg ttl_world) = (s', Ok resp) /\
    reap_tag (A := bool) normal_path (mkTagStep 20 None (fun w => w) None) (ttl_key "v1") (mkTtl s' []) = (s2, Ok true) /\
    tag_objs s2 !! ("a/b/c/tags/v1" : str) = None.
Proof.
  eexists _, _.
  destruct (proj2 (ttl_outlives_repush demo_lib demo_state demo_rq demo_claims demo_repo "v1" "{}"
              (mkTagRow demo_digest "alice" 0 10) 20 [] (reg ttl_world) _ _ (fun w => faults w = [])
              ltac:(intros; apply preserves_ret) ltac:(intros ?*; apply preserves_ret) eq_refl
              ltac:(apply lookup_insert_eq) ltac:(apply run_eval; vm_compute; reflexivity) ltac:(cbn; lia) memory_deletes
              ltac:(vm_compute; reflexivity))) as (s2 & Hr & Ho).
  exists s2. split; [apply run_eval; vm_compute; reflexivity|]. split; [exact Hr|exact Ho].
Defined.
