(* ===== verification/Http.v ===== *)
(** * HTTP clients

    Requests and responses as the services exchange them through [reqwest],
    which is not part of the repository: a network is a state that answers
    requests, with whatever behaviour. *)

From S2P Require Import Prelude Effects.

Local Open Scope Z_scope.

Inductive HttpAuth : Type :=
| BearerAuth (token : str)
| BasicAuth (user pass : str)
| RawAuth (value : str).

Record HttpRequest : Type := mkHttpRequest {
  rq_url : str;
  rq_query : list (str * str);
  rq_accept : option str;
  rq_auth : option HttpAuth
}.

(** Header names are in lower case; reading the body may fail, with the
    error's text. *)
Record HttpResponse : Type := mkHttpResponse {
  rs_status : Z;
  rs_headers : list (str * str);
  rs_bytes : result str str;
  rs_text : option str
}.

(** One request; an error is shown by its text. *)
Class Http (N : Type) : Type := {
  http_send : HttpRequest -> M N str HttpResponse
}.

Definition is_success (status : Z) : bool := (200 <=? status) && (status <? 300).

(** [v.to_str()]: visible ASCII, space and tab. *)
Definition visible_header (v : str) : bool := forallb (fun c => byte_in 32 126 c || byte_is 9 c) v.

(** [resp.headers().get(k).and_then(|v| v.to_str().ok())] *)
Fixpoint header_get (k : str) (hs : list (str * str)) : option str :=
  match hs with
  | [] => None
  | (k', v) :: hs' => if str_eqb k k' then (if visible_header v then Some v else None)
                      else header_get k hs'
  end.

(** ** Posting *)

Record PostRequest : Type := mkPostRequest {
  post_url : str;
  post_headers : list (str * str);
  post_body : str
}.

Class HttpPost (N : Type) : Type := {
  http_post : PostRequest -> M N str HttpResponse
}.
