(* ===== verification/Mirror.v ===== *)
(** * Pull-through mirror ([crates/specton-mirror/src])

    The client of one upstream registry ([upstream.rs]: challenges, the token
    flow, the breaker around each fetch), the cache index ([cache.rs]) and the
    service that tries the upstreams in turn and stores what they answer
    ([service.rs]).  The network is a parameter; the state of the service sits
    beside the object store in [Mirrored], which is an object store itself, so
    that the handlers of [Registry] run on it with this service as their
    mirror. *)

From S2P Require Import Prelude Json Text Effects Http Breaker Store Multipart Paths Auth RegistryAudit Registry.

Local Open Scope Z_scope.

(** ** Data of [upstream.rs] *)

Record UpstreamConfig : Type := mkUpstreamConfig {
  up_name : str;
  up_url : str;
  up_username : option str;
  up_password : option str;
  up_cache_ttl_secs : Z;
  up_tenant_prefix : option str
}.

Definition upstream_config_default : UpstreamConfig :=
  mkUpstreamConfig "docker-hub" "https://registry-1.docker.io" None None 3600 None.

Record UpstreamResponse : Type := mkUpstreamResponse {
  ur_data : str;
  ur_content_type : str;
  ur_digest : option str
}.

Record TokenResponse : Type := mkTokenResponse {
  tr_token : option str;
  tr_access_token : option str;
  tr_expires_in : option Z
}.

Definition de_token_response (v : json) : option TokenResponse :=
  match de_struct [("token" : str, true); ("access_token" : str, true); ("expires_in" : str, true)] v with
  | Some [t; a; e] =>
      match de_option as_str t, de_option as_str a, de_option as_u64 e with
      | Some t, Some a, Some e => Some (mkTokenResponse t a e)
      | _, _, _ => None
      end
  | _ => None
  end.

Record Challenge : Type := mkChallenge {
  ch_scheme : str;
  ch_realm : option str;
  ch_service : option str;
  ch_scope : option str
}.

(** ** Challenges *)

(** The loop over [params]: commas split outside quotes only. *)
Fixpoint split_unquoted (in_quotes : bool) (cur s : str) : list str :=
  match s with
  | [] => [cur]
  | c :: s' =>
      if byte_is 34 c then split_unquoted (negb in_quotes) (cur ++ [c]) s'
      else if byte_is 44 c && negb in_quotes then cur :: split_unquoted in_quotes [] s'
      else split_unquoted in_quotes (cur ++ [c]) s'
  end.

(** [s.trim_start_matches(c)] and [s.trim_matches(c)] *)
Definition trim_start_byte (c : ascii) (s : str) : str := snd (span (byte_eqb c) s).
Definition trim_matches (c : ascii) (s : str) : str := trim_end_byte c (trim_start_byte c s).

Definition set_param (ch : Challenge) (key value : str) : Challenge :=
  if str_eqb key "realm" then mkChallenge (ch_scheme ch) (Some value) (ch_service ch) (ch_scope ch)
  else if str_eqb key "service" then
    mkChallenge (ch_scheme ch) (ch_realm ch) (Some value) (ch_scope ch)
  else if str_eqb key "scope" then
    mkChallenge (ch_scheme ch) (ch_realm ch) (ch_service ch) (Some value)
  else ch.

(** The byte of the double quote. *)
Definition quote : ascii := ascii_of_N 34.

Definition add_part (ch : Challenge) (part : str) : Challenge :=
  match split_once_byte "="%char (trim part) with
  | None => ch
  | Some (key, value) => set_param ch (to_ascii_lowercase (trim key)) (trim_matches quote (trim value))
  end.

Definition parse_challenge (header : str) : option Challenge :=
  let header := trim header in
  let '(scheme, params) := match split_once_byte " "%char header with
                           | Some sp => sp
                           | None => (header, [])
                           end in
  if negb (non_empty scheme) then None
  else Some (fold_left add_part (split_unquoted false [] params)
               (mkChallenge (to_ascii_lowercase scheme) None None None)).

Definition resolve_realm (realm upstream_url : str) : str :=
  if starts_with "http://" realm || starts_with "https://" realm then realm
  else
    let origin := match split_once_str "://" upstream_url with
                  | Some (scheme, rest) =>
                      match split_once_byte "/"%char rest with
                      | Some (host, _) => scheme ++ "://" ++ host
                      | None => upstream_url
                      end
                  | None => upstream_url
                  end in
    trim_end_byte "/"%char origin ++ "/" ++ trim_start_byte "/"%char realm.

(** ** Errors *)

Inductive UpstreamErr : Type :=
| RequestFailed (e : str)
| HttpStatus (status : Z) (body : str)
| AuthFailed (e : str)
| CircuitBreakerOpen (name : str)
| ManifestNotFound (reference : str)
| BlobNotFound (digest : str).

Definition upstream_display (e : UpstreamErr) : str :=
  match e with
  | RequestFailed e => "upstream request failed: " ++ e
  | HttpStatus status body => "upstream returned " ++ dec status ++ ": " ++ body
  | AuthFailed e => "upstream authentication failed: " ++ e
  | CircuitBreakerOpen name => "circuit breaker open for upstream '" ++ name ++ "'"
  | ManifestNotFound reference => "manifest not found on upstream: " ++ reference
  | BlobNotFound digest => "blob not found on upstream: " ++ digest
  end.

Definition upstream_not_found_equivalent (e : UpstreamErr) : bool :=
  match e with
  | ManifestNotFound _ | BlobNotFound _ | CircuitBreakerOpen _ | RequestFailed _ => true
  | HttpStatus status _ => (500 <=? status) || (status =? 404)
  | AuthFailed _ => false
  end.

Inductive MirrorError : Type :=
| Upstream (e : UpstreamErr)
| NoUpstreamsConfigured
| NotFoundOnAnyUpstream
| NotInScope
| MirrorStorage (e : str).

Definition mirror_display (e : MirrorError) : str :=
  match e with
  | Upstream e => "upstream error: " ++ upstream_display e
  | NoUpstreamsConfigured => "no upstream registries configured"
  | NotFoundOnAnyUpstream => "artefact not found on any upstream"
  | NotInScope => "mirror scope does not include this request"
  | MirrorStorage e => "storage error: " ++ e
  end.

Definition mirror_not_found_equivalent (e : MirrorError) : bool :=
  match e with
  | NotFoundOnAnyUpstream | NoUpstreamsConfigured | NotInScope => true
  | Upstream u => upstream_not_found_equivalent u
  | MirrorStorage _ => false
  end.

(** A call returns an error or unwinds. *)
Inductive crash (E : Type) : Type :=
| Raised (e : E)
| Unwound.
Arguments Raised {E} e.
Arguments Unwound {E}.

(** ** Library functions and clocks

    [mono_at n] and [utc_at n] are what the [n]-th reading of a clock gives, in
    nanoseconds; an [Instant] beyond [max_instant] is a panic. *)
Record MirrorLib : Type := mkMirrorLib {
  ml : Libraries;
  to_vec_pretty : json -> result str str;
  datetime_ser : Z -> str;
  datetime_de : str -> option Z;
  status_display : Z -> str;
  mono_at : nat -> Z;
  utc_at : nat -> Z;
  max_instant : Z
}.

(** ** The upstream client *)

Record Client : Type := mkClient {
  cl_breaker : Breaker;
  cl_tokens : gmap str (str * Z);
  cl_poisoned : bool
}.

Definition client_new : Client := mkClient breaker_new ∅ false.

Definition upstream_breaker : CircuitBreakerConfig := mkBreakerConfig 5 3 30.

Definition DEFAULT_TOKEN_TTL_SECS : Z := 60.

(** Upstream, kind, outcome and bytes of [record_upstream_outcome]. *)
Record UpstreamOutcome : Type := mkUpstreamOutcome {
  uo_upstream : str;
  uo_kind : str;
  uo_outcome : str;
  uo_bytes : Z
}.

Record Session (N : Type) : Type := mkSession {
  ss_net : N;
  ss_client : Client;
  ss_readings : nat;
  ss_outcomes : list UpstreamOutcome
}.
Arguments mkSession {N}.
Arguments ss_net {N}.
Arguments ss_client {N}.
Arguments ss_readings {N}.
Arguments ss_outcomes {N}.

Section upstream.
Context {N : Type} `{Http N} (env : MirrorLib).

Abbreviation Up := (M (Session N) (crash UpstreamErr)).

Definition set_client (c : Client) (s : Session N) : Session N :=
  mkSession (ss_net s) c (ss_readings s) (ss_outcomes s).

Definition instant_now {E : Type} : M (Session N) E Z :=
  fun s => (mkSession (ss_net s) (ss_client s) (S (ss_readings s)) (ss_outcomes s),
            Ok (mono_at env (ss_readings s))).

Definition update_breaker {E : Type} (f : Breaker -> Breaker) : M (Session N) E unit :=
  modify (fun s => let c := ss_client s in
                   set_client (mkClient (f (cl_breaker c)) (cl_tokens c) (cl_poisoned c)) s).

Definition update_tokens {E : Type} (f : gmap str (str * Z) -> gmap str (str * Z)) : M (Session N) E unit :=
  modify (fun s => let c := ss_client s in
                   set_client (mkClient (cl_breaker c) (f (cl_tokens c)) (cl_poisoned c)) s).

Definition send_raw (rq : HttpRequest) : M (Session N) str HttpResponse :=
  fun s => let '(n, r) := http_send rq (ss_net s) in
           (mkSession n (ss_client s) (ss_readings s) (ss_outcomes s), r).

Definition send (rq : HttpRequest) : Up HttpResponse :=
  rethrow (fun e => Raised (RequestFailed e)) (send_raw rq).

(** A poisoned lock reads as an empty cache. *)
Definition cached_token (scope : str) : Up (option str) :=
  let! c := gets ss_client in
  if cl_poisoned c then ret None
  else match cl_tokens c !! scope with
       | None => ret None
       | Some (tok, expires) =>
           let! now := instant_now in
           ret (if now <? expires then Some tok else None)
       end.

(** Expiry and insertion under the lock; an [Instant] out of range poisons it. *)
Definition cache_token (scope default_scope token : str) (ttl : Z) : Up unit :=
  let! c := gets ss_client in
  if cl_poisoned c then ret tt
  else
    let! now := instant_now in
    let expires := now + Z.max 1 (Z.max 0 (ttl - 5)) * 1000000000 in
    if max_instant env <? expires then
      do! modify (set_client (mkClient (cl_breaker c) (cl_tokens c) true)) in
      throw Unwound
    else
      do! update_tokens <[scope := (token, expires)]> in
      when (negb (str_eqb scope default_scope)) (update_tokens <[default_scope := (token, expires)]>).

Definition auth_failed {A} (e : str) : Up A := throw (Raised (AuthFailed e)).

Definition credentials (config : UpstreamConfig) : option (str * str) :=
  match up_username config, up_password config with
  | Some u, Some p => Some (u, p)
  | _, _ => None
  end.

(** The [("bearer", Some(realm))] arm up to the token. *)
Definition fetch_token (config : UpstreamConfig) (challenge : Challenge) (realm default_scope : str) :
    Up str :=
  let realm := resolve_realm realm (up_url config) in
  let scope := default default_scope (ch_scope challenge) in
  let query := [("scope" : str, scope)] ++ match ch_service challenge with
                                           | Some service => [("service" : str, service)]
                                           | None => []
                                           end in
  let auth := (fun up => BasicAuth (fst up) (snd up)) <$> credentials config in
  let! token_resp :=
    rethrow (fun e => Raised (AuthFailed ("token request to " ++ realm ++ ": " ++ e)))
      (send_raw (mkHttpRequest realm query None auth)) in
  if negb (is_success (rs_status token_resp)) then
    auth_failed ("token endpoint " ++ realm ++ " returned " ++ status_display env (rs_status token_resp))
  else
    let! data := match rs_bytes token_resp with
                 | Ok data => ret data
                 | Err e => auth_failed ("token response from " ++ realm ++ ": " ++ e)
                 end in
    let! body := match parse_json (ml env) data ≫= de_token_response with
                 | Some body => ret body
                 | None => auth_failed ("token response from " ++ realm ++ ": " ++ json_error (ml env) data)
                 end in
    let ttl := default DEFAULT_TOKEN_TTL_SECS (tr_expires_in body) in
    match tr_token body, tr_access_token body with
    | Some token, _ | None, Some token =>
        do! cache_token scope default_scope token ttl in
        ret token
    | None, None => auth_failed ("token endpoint " ++ realm ++ " returned no token")
    end.

(** The answer to a response with status 401. *)
Definition answer_challenge (config : UpstreamConfig) (url default_scope : str) (accept : option str)
    (resp : HttpResponse) : Up HttpResponse :=
  match header_get "www-authenticate" (rs_headers resp) ≫= parse_challenge with
  | None => ret resp
  | Some challenge =>
      match str_eqb (ch_scheme challenge) "bearer", ch_realm challenge with
      | true, Some realm =>
          let! token := fetch_token config challenge realm default_scope in
          send (mkHttpRequest url [] accept (Some (BearerAuth token)))
      | _, _ =>
          if str_eqb (ch_scheme challenge) "basic" then
            match credentials config with
            | Some (user, pass) => send (mkHttpRequest url [] accept (Some (BasicAuth user pass)))
            | None => ret resp
            end
          else ret resp
      end
  end.

Definition authed_get (config : UpstreamConfig) (url repo : str) (accept : option str) :
    Up HttpResponse :=
  let request := fun auth => mkHttpRequest url [] accept auth in
  let default_scope := "repository:" ++ repo ++ ":pull" in
  let unauthenticated :=
    let! resp := send (request None) in
    if negb (rs_status resp =? 401) then ret resp
    else answer_challenge config url default_scope accept resp in
  let! cached := cached_token default_scope in
  match cached with
  | Some token =>
      let! resp := send (request (Some (BearerAuth token))) in
      if negb (rs_status resp =? 401) then ret resp
      else
        let! c := gets ss_client in
        do! when (negb (cl_poisoned c)) (update_tokens (delete default_scope)) in
        unauthenticated
  | None => unauthenticated
  end.

Definition manifest_accept : str :=
  "application/vnd.oci.image.manifest.v1+json, application/vnd.oci.image.index.v1+json, "
  ++ "application/vnd.docker.distribution.manifest.v2+json, "
  ++ "application/vnd.docker.distribution.manifest.list.v2+json".

(** The closure both fetches hand to the breaker. *)
Definition fetch_response (config : UpstreamConfig) (url repo : str) (accept : option str)
    (not_found : UpstreamErr) (default_type : str) (digest : HttpResponse -> option str) :
    Up UpstreamResponse :=
  let! resp := authed_get config url repo accept in
  if rs_status resp =? 404 then throw (Raised not_found)
  else if negb (is_success (rs_status resp)) then
    throw (Raised (HttpStatus (rs_status resp) (or_empty (rs_text resp))))
  else
    let content_type := default default_type (header_get "content-type" (rs_headers resp)) in
    match rs_bytes resp with
    | Ok data => ret (mkUpstreamResponse data content_type (digest resp))
    | Err e => throw (Raised (RequestFailed e))
    end.

(** [cb.call(f)]: a panic in [f] unwinds past the recording. *)
Definition breaker_call {A} (f : Up A) : M (Session N) (CallError (crash UpstreamErr)) A :=
  let! t_check := instant_now in
  let! b := gets (fun s => cl_breaker (ss_client s)) in
  let '(b, allowed) := check_allowed upstream_breaker t_check b in
  do! update_breaker (fun _ => b) in
  if negb allowed then throw BreakerOpen
  else
    let! t_half := instant_now in
    do! update_breaker (try_half_open upstream_breaker t_half) in
    let! r := attempt f in
    match r with
    | Err Unwound => throw (Inner Unwound)
    | _ =>
        let! t_record := instant_now in
        do! update_breaker (Breaker.record upstream_breaker (fun _ => true) t_record r) in
        lift (map_err Inner r)
    end.

Definition record_upstream_outcome (name kind outcome : str) (bytes : Z) : Up unit :=
  modify (fun s => mkSession (ss_net s) (ss_client s) (ss_readings s)
                     (ss_outcomes s ++ [mkUpstreamOutcome name kind outcome bytes])).

Definition outcome_label (e : UpstreamErr) : str :=
  match e with
  | ManifestNotFound _ | BlobNotFound _ => "not_found"
  | AuthFailed _ => "auth_error"
  | HttpStatus status _ => if 500 <=? status then "upstream_5xx" else "error"
  | _ => "error"
  end.

(** The breaker, then the outcome metrics. *)
Definition guarded_fetch (config : UpstreamConfig) (kind : str) (f : Up UpstreamResponse) :
    Up UpstreamResponse :=
  let! r := attempt (breaker_call f) in
  match r with
  | Ok r =>
      do! record_upstream_outcome (up_name config) kind "success" (len (ur_data r)) in
      ret r
  | Err BreakerOpen =>
      do! record_upstream_outcome (up_name config) kind "breaker_open" 0 in
      throw (Raised (CircuitBreakerOpen (up_name config)))
  | Err (Inner Unwound) => throw Unwound
  | Err (Inner (Raised e)) =>
      do! record_upstream_outcome (up_name config) kind (outcome_label e) 0 in
      throw (Raised e)
  end.

Definition upstream_manifest (config : UpstreamConfig) (repo reference : str) : Up UpstreamResponse :=
  let url := up_url config ++ "/v2/" ++ repo ++ "/manifests/" ++ reference in
  guarded_fetch config "manifest"
    (fetch_response config url repo (Some manifest_accept) (ManifestNotFound reference)
       "application/vnd.oci.image.manifest.v1+json"
       (fun resp => header_get "docker-content-digest" (rs_headers resp))).

Definition upstream_blob (config : UpstreamConfig) (repo digest : str) : Up UpstreamResponse :=
  let url := up_url config ++ "/v2/" ++ repo ++ "/blobs/" ++ digest in
  guarded_fetch config "blob"
    (fetch_response config url repo None (BlobNotFound digest) "application/octet-stream"
       (fun _ => Some digest)).
End upstream.

(** ** The cache index ([cache.rs]) *)

Record CacheEntry : Type := mkCacheEntry {
  ce_digest : str;
  ce_upstream_name : str;
  ce_upstream_repo : str;
  ce_cached_at : Z;
  ce_size : Z;
  ce_content_type : str
}.

(** [CacheIndex] is its list of entries. *)
Definition CacheIndex : Type := list CacheEntry.

Inductive CacheError : Type :=
| CacheStorage (e : str)
| CacheSerialization (e : str).

Definition cache_index_path (tenant project repo : str) : str :=
  tenant ++ "/" ++ project ++ "/" ++ repo ++ "/.mirror/cache-index.json".

(** ** Scope ([service.rs]) *)

Inductive MirrorScope : Type :=
| AllScope
| DefaultTenantOnly (default_tenant : str)
| Allowlist (tenants projects : list str)
| Denylist (tenants projects : list str)
| ManifestLinked.

Definition mirror_scope_default : MirrorScope := DefaultTenantOnly "_".

Definition listed (x : str) (l : list str) : bool := existsb (str_eqb x) l.

Definition tenant_project_eligible (scope : MirrorScope) (tenant project : str) : bool :=
  match scope with
  | AllScope => true
  | DefaultTenantOnly default_tenant => str_eqb tenant default_tenant
  | Allowlist tenants projects =>
      if listed tenant tenants then true
      else listed (tenant ++ "/" ++ project) projects || listed project projects
  | Denylist tenants projects =>
      if listed tenant tenants then false
      else negb (listed (tenant ++ "/" ++ project) projects || listed project projects)
  | ManifestLinked => true
  end.

Definition decides_at_tenant_level (scope : MirrorScope) : bool :=
  match scope with
  | ManifestLinked => false
  | _ => true
  end.

(** [mirror_scope_from_config] of the registry's [main.rs]. *)
Record MirrorScopeConfig : Type := mkMirrorScopeConfig {
  sc_mode : option str;
  sc_default_tenant : option str;
  sc_tenants : list str;
  sc_projects : list str
}.

Definition mirror_scope_from_config (cfg : option MirrorScopeConfig) : MirrorScope :=
  match cfg with
  | None => mirror_scope_default
  | Some cfg =>
      let default_tenant := default ("_" : str) (sc_default_tenant cfg) in
      match sc_mode cfg with
      | Some m =>
          if str_eqb m "all" then AllScope
          else if str_eqb m "allowlist" then Allowlist (sc_tenants cfg) (sc_projects cfg)
          else if str_eqb m "denylist" then Denylist (sc_tenants cfg) (sc_projects cfg)
          else if str_eqb m "manifest_linked" || str_eqb m "manifest-linked" then ManifestLinked
          else DefaultTenantOnly default_tenant
      | None => DefaultTenantOnly default_tenant
      end
  end.

Record MirrorConfig : Type := mkMirrorConfig {
  mc_upstreams : list UpstreamConfig;
  mc_cache_ttl_secs : Z;
  mc_scope : MirrorScope
}.

Record MirrorFetchResult : Type := mkMirrorFetchResult {
  mf_data : str;
  mf_content_type : str;
  mf_digest : str
}.

(** What does not change while the service runs. *)
Record MirrorService : Type := mkMirrorService {
  ms_upstreams : list UpstreamConfig;
  ms_tenant_routing : gmap str nat;
  ms_default_ttl_secs : Z;
  ms_scope : MirrorScope
}.

Fixpoint routing (idx : nat) (upstreams : list UpstreamConfig) (acc : gmap str nat) : gmap str nat :=
  match upstreams with
  | [] => acc
  | u :: upstreams' =>
      routing (S idx) upstreams' (match up_tenant_prefix u with
                                  | Some prefix => <[prefix := idx]> acc
                                  | None => acc
                                  end)
  end.

Definition mirror_service_new (config : MirrorConfig) : MirrorService :=
  mkMirrorService (mc_upstreams config) (routing 0 (mc_upstreams config) ∅)
    (mc_cache_ttl_secs config) (mc_scope config).

Definition resolve_upstreams (svc : MirrorService) (tenant : str) : list nat :=
  fold_left (fun indices i => if bool_decide (i ∈ indices) then indices else indices ++ [i])
    (seq 0 (length (ms_upstreams svc)))
    (match ms_tenant_routing svc !! tenant with
     | Some idx => [idx]
     | None => []
     end).

(** ** The state *)

Record Mirrored (N W : Type) : Type := mkMirrored {
  m_store : W;
  m_net : N;
  m_clients : list Client;
  m_readings : nat;
  m_outcomes : list UpstreamOutcome;
  m_fetches : list (str * str)
}.
Arguments mkMirrored {N W}.
Arguments m_store {N W}.
Arguments m_net {N W}.
Arguments m_clients {N W}.
Arguments m_readings {N W}.
Arguments m_outcomes {N W}.
Arguments m_fetches {N W}.

Section service.
Context {N W : Type} `{Http N} `{ObjectStore W} (env : MirrorLib) (svc : MirrorService).

Definition mirrored_new (w : W) (n : N) : Mirrored N W :=
  mkMirrored w n (map (fun _ => client_new) (ms_upstreams svc)) 0 [] [].

Definition mirror_path (p : str) : str := store_path (ml env) p.

Definition set_m_store (w : W) (s : Mirrored N W) : Mirrored N W :=
  mkMirrored w (m_net s) (m_clients s) (m_readings s) (m_outcomes s) (m_fetches s).

Definition on_mirrored {E X} (m : M W E X) : M (Mirrored N W) E X := zoom m_store set_m_store m.

#[global] Instance mirrored_store : ObjectStore (Mirrored N W) := {
  os_put p d := on_mirrored (os_put p d);
  os_get p := on_mirrored (os_get p);
  os_head p := on_mirrored (os_head p);
  os_delete p := on_mirrored (os_delete p);
  os_list pre := on_mirrored (os_list pre);
  os_list_with_delimiter pre := on_mirrored (os_list_with_delimiter pre);
  os_put_multipart p := on_mirrored (os_put_multipart p);
  os_put_part u i d := on_mirrored (os_put_part u i d);
  os_complete u := on_mirrored (os_complete u);
  os_abort u := on_mirrored (os_abort u)
}.

Definition utc_now {E : Type} : M (Mirrored N W) E Z :=
  fun s => (mkMirrored (m_store s) (m_net s) (m_clients s) (S (m_readings s)) (m_outcomes s)
              (m_fetches s), Ok (utc_at env (m_readings s))).

(** [counter!("spectoncr_mirror_fetch_total", ..)] *)
Definition count_fetch {E : Type} (kind outcome : str) : M (Mirrored N W) E unit :=
  modify (fun s => mkMirrored (m_store s) (m_net s) (m_clients s) (m_readings s) (m_outcomes s)
                     (m_fetches s ++ [(kind, outcome)])).

(** ** [CacheManager] *)

Definition ser_entry (e : CacheEntry) : json :=
  JObject [("digest" : str, JString (ce_digest e)); ("upstream_name" : str, JString (ce_upstream_name e));
           ("upstream_repo" : str, JString (ce_upstream_repo e));
           ("cached_at" : str, JString (datetime_ser env (ce_cached_at e)));
           ("size" : str, JInt (ce_size e)); ("content_type" : str, JString (ce_content_type e))].

Definition de_entry (v : json) : option CacheEntry :=
  match de_struct [("digest" : str, false); ("upstream_name" : str, false); ("upstream_repo" : str, false);
                   ("cached_at" : str, false); ("size" : str, false); ("content_type" : str, false)] v with
  | Some [d; n; r; at_; sz; ct] =>
      match de_required as_str d, de_required as_str n, de_required as_str r,
            de_required as_str at_ ≫= datetime_de env, de_required as_u64 sz, de_required as_str ct with
      | Some d, Some n, Some r, Some at_, Some sz, Some ct => Some (mkCacheEntry d n r at_ sz ct)
      | _, _, _, _, _, _ => None
      end
  | _ => None
  end.

Definition ser_index (index : CacheIndex) : json :=
  JObject [("entries" : str, JArray (map ser_entry index))].

Definition de_index (v : json) : option CacheIndex :=
  match de_struct [("entries" : str, false)] v with
  | Some [es] => de_required (de_vec de_entry) es
  | _ => None
  end.

Definition load_index {E : Type} (path : str) : M (Mirrored N W) E CacheIndex :=
  let! r := attempt (os_get path) in
  ret (match r with
       | Ok data => default [] (parse_json (ml env) data ≫= de_index)
       | Err _ => []
       end).

Definition save_index (path : str) (index : CacheIndex) : M (Mirrored N W) CacheError unit :=
  let! data := lift (map_err CacheSerialization (to_vec_pretty env (ser_index index))) in
  rethrow (fun e => CacheStorage (store_display (ml env) e)) (os_put path data).

Definition record_cached (tenant project repo : str) (entry : CacheEntry) :
    M (Mirrored N W) CacheError unit :=
  let path := mirror_path (cache_index_path tenant project repo) in
  let! index := load_index path in
  save_index path
    (List.filter (fun e => negb (str_eqb (ce_digest e) (ce_digest entry))) index ++ [entry]).

(** [(now - cached_at).num_seconds()] truncates towards zero. *)
Definition fresh_at (now ttl : Z) (e : CacheEntry) : bool :=
  let age := Z.quot (now - ce_cached_at e) 1000000000 in
  (0 <=? age) && (age <? ttl).

Definition is_cached_valid {E : Type} (tenant project repo digest : str) (ttl_secs : option Z) :
    M (Mirrored N W) E bool :=
  let! index := load_index (mirror_path (cache_index_path tenant project repo)) in
  let ttl := default (ms_default_ttl_secs svc) ttl_secs in
  match List.find (fun e => str_eqb (ce_digest e) digest) index with
  | Some entry =>
      let! now := utc_now in
      ret (fresh_at now ttl entry)
  | None => ret false
  end.

Definition evict_expired (tenant project repo : str) (ttl_secs : option Z) :
    M (Mirrored N W) CacheError Z :=
  let path := mirror_path (cache_index_path tenant project repo) in
  let! index := load_index path in
  let ttl := default (ms_default_ttl_secs svc) ttl_secs in
  let! now := utc_now in
  let kept := List.filter (fresh_at now ttl) index in
  let evicted := Z.of_nat (length index) - Z.of_nat (length kept) in
  do! when (0 <? evicted) (save_index path kept) in
  ret evicted.

(** ** [MirrorService] *)

Abbreviation Mir := (M (Mirrored N W) (crash MirrorError)).

Definition is_scope_eligible (tenant project : str) : bool :=
  tenant_project_eligible (ms_scope svc) tenant project.

Definition is_blob_manifest_linked (tenant project name digest : str) : Mir bool :=
  is_cached_valid tenant project name digest (Some u64_max).

(** A call on one of the clients; [&self.upstreams[idx]] panics out of range. *)
Definition at_upstream {A} (idx : nat) (f : UpstreamConfig -> M (Session N) (crash UpstreamErr) A) :
    M (Mirrored N W) (crash UpstreamErr) A :=
  fun s =>
    match ms_upstreams svc !! idx, m_clients s !! idx with
    | Some config, Some client =>
        let '(ss, r) := f config (mkSession (m_net s) client (m_readings s) (m_outcomes s)) in
        (mkMirrored (m_store s) (ss_net ss) (<[idx := ss_client ss]> (m_clients s)) (ss_readings ss)
           (ss_outcomes ss) (m_fetches s), r)
    | _, _ => (s, Err Unwound)
    end.

Definition upstream_name_at (idx : nat) : str :=
  match ms_upstreams svc !! idx with
  | Some config => up_name config
  | None => []
  end.

(** The [Ok(response)] arm of [fetch_manifest]. *)
Definition cache_manifest (tenant project name reference : str) (idx : nat) (response : UpstreamResponse) :
    Mir MirrorFetchResult :=
  let digest := default (sha256_digest (sha256_hex (ml env)) (ur_data response)) (ur_digest response) in
  let! _ := attempt (os_put (mirror_path (manifest_path tenant project name digest)) (ur_data response)) in
  let! _ := if starts_with "sha256:" reference then ret (Ok tt)
            else attempt (os_put (mirror_path (tag_link_path tenant project name reference)) digest) in
  let! now := utc_now in
  let! _ := attempt (record_cached tenant project name
                       (mkCacheEntry digest (upstream_name_at idx) (project ++ "/" ++ name) now
                          (len (ur_data response)) (ur_content_type response))) in
  do! count_fetch "manifest" "fetched" in
  ret (mkMirrorFetchResult (ur_data response) (ur_content_type response) digest).

Definition cache_blob (tenant project name digest : str) (idx : nat) (response : UpstreamResponse) :
    Mir MirrorFetchResult :=
  let! _ := attempt (os_put (mirror_path (blob_path tenant project name digest)) (ur_data response)) in
  let! now := utc_now in
  let! _ := attempt (record_cached tenant project name
                       (mkCacheEntry digest (upstream_name_at idx) (project ++ "/" ++ name) now
                          (len (ur_data response)) (ur_content_type response))) in
  do! count_fetch "blob" "fetched" in
  ret (mkMirrorFetchResult (ur_data response) (ur_content_type response) digest).

(** The loop over the upstreams and what follows it: [fetch] asks one
    upstream, [cache] stores what it answered. *)
Fixpoint try_upstreams (kind : str) (fetch : UpstreamConfig -> M (Session N) (crash UpstreamErr) UpstreamResponse)
    (cache : nat -> UpstreamResponse -> Mir MirrorFetchResult)
    (indices : list nat) (all_not_found : bool) (last_err : option UpstreamErr) :
    Mir MirrorFetchResult :=
  match indices with
  | [] =>
      if all_not_found then
        do! count_fetch kind "not_found" in
        throw (Raised NotFoundOnAnyUpstream)
      else
        do! count_fetch kind "error" in
        throw (Raised (match last_err with
                       | Some e => Upstream e
                       | None => NoUpstreamsConfigured
                       end))
  | idx :: indices' =>
      let! r := attempt (at_upstream idx fetch) in
      match r with
      | Ok response => cache idx response
      | Err Unwound => throw Unwound
      | Err (Raised e) =>
          try_upstreams kind fetch cache indices' (all_not_found && upstream_not_found_equivalent e) (Some e)
      end
  end.

Definition fetch_manifest (tenant project name reference : str) : Mir MirrorFetchResult :=
  if negb (is_scope_eligible tenant project) then
    do! count_fetch "manifest" "skipped_scope" in
    throw (Raised NotInScope)
  else
    let upstream_repo := project ++ "/" ++ name in
    match resolve_upstreams svc tenant with
    | [] =>
        do! count_fetch "manifest" "no_upstreams" in
        throw (Raised NoUpstreamsConfigured)
    | indices =>
        try_upstreams "manifest" (fun config => upstream_manifest env config upstream_repo reference)
          (cache_manifest tenant project name reference) indices true None
    end.

Definition fetch_blob (tenant project name digest : str) : Mir MirrorFetchResult :=
  if negb (is_scope_eligible tenant project) then
    do! count_fetch "blob" "skipped_scope" in
    throw (Raised NotInScope)
  else
    let! linked := if decides_at_tenant_level (ms_scope svc) then ret true
                   else is_blob_manifest_linked tenant project name digest in
    if negb linked then
      do! count_fetch "blob" "skipped_unlinked" in
      throw (Raised NotInScope)
    else
      let upstream_repo := project ++ "/" ++ name in
      match resolve_upstreams svc tenant with
      | [] =>
          do! count_fetch "blob" "no_upstreams" in
          throw (Raised NoUpstreamsConfigured)
      | indices =>
          try_upstreams "blob" (fun config => upstream_blob env config upstream_repo digest)
            (cache_blob tenant project name digest) indices true None
      end.

(** ** The service as the registry's mirror *)

Definition mirror_failure (e : crash MirrorError) : MirrorFailure :=
  match e with
  | Unwound => MirrorPanic
  | Raised e => if mirror_not_found_equivalent e then NotFoundEquivalent
                else OtherMirror (mirror_display e)
  end.

Definition as_mirror (fetch : str -> str -> str -> str -> Mir MirrorFetchResult) (t p n r : str) :
    M (Mirrored N W) MirrorFailure str :=
  rethrow mirror_failure (let! result := fetch t p n r in ret (mf_data result)).

Definition with_mirror {A} (base : AppState (Mirrored N W) A) : AppState (Mirrored N W) A :=
  mkAppState (multipart_threshold_mb base) (multipart_part_size_mb base) (multipart_concurrency base)
    (signing_enabled base) (admission_enabled base) (gc_refcounter base) (gc_pool base)
    (artifact_registry base) (scanner_queue base) (lazy_format base) (local_region base)
    (webhook_handle base) (Some (as_mirror fetch_manifest)) (Some (as_mirror fetch_blob))
    (failover_manager base) (enforce_pull_signature_policy base) (enforce_admission base)
    (register_signature_metadata base).
End service.
