(* ===== verification/MirrorProofs.v ===== *)
(** * Lemmas about the mirror

    The mirrored state is a lawful object store; where an accepted response
    came from; which objects a fetch may write; the order in which upstreams
    are tried; and the requests an authenticated read sends. *)

From S2P Require Import Prelude Json Text Effects Http Breaker Store Multipart Paths AuditLog RegistryAudit Auth Utf8.
From S2P Require Import Registry RegistryProofs RegistryFlows Mirror.

Local Open Scope Z_scope.

#[export] Instance mirrored_laws {N W} `{!ObjectStore W, !ObjectStoreLaws W} :
    ObjectStoreLaws (Mirrored N W) :=
  zoom_laws m_store set_m_store (fun _ _ => eq_refl).

#[export] Instance mirrored_reliable {N W} `{!ObjectStore W, !ObjectStoreLaws W} (healthy : W -> Prop)
    `{!Reliable W healthy} : Reliable (Mirrored N W) (fun m => healthy (m_store m)).
Proof. by apply (zoom_reliable m_store set_m_store (fun _ _ => eq_refl)). Qed.

(** ** The upstream client *)

Section client.
Context {N : Type} `{!Http N} (env : MirrorLib).

Lemma send_raw_inv rq (s s' : Session N) r :
  send_raw rq s = (s', r) ->
  http_send rq (ss_net s) = (ss_net s', r) /\ ss_client s' = ss_client s.
Proof. unfold send_raw. destruct (http_send rq (ss_net s)). by intros [= <- <-]. Qed.

Lemma send_ok rq (s s' : Session N) resp :
  send rq s = (s', Ok resp) -> http_send rq (ss_net s) = (ss_net s', Ok resp).
Proof. by intros [H _]%rethrow_ok%send_raw_inv. Qed.

(** The response was given to a request for [url]. *)
Definition answers (url : str) (resp : HttpResponse) : Prop :=
  exists n n' rq, rq_url rq = url /\ rq_query rq = [] /\ http_send rq n = (n', Ok resp).

Lemma send_answers url accept auth (s s' : Session N) resp :
  send (mkHttpRequest url [] accept auth) s = (s', Ok resp) -> answers url resp.
Proof.
  intros H%send_ok. by exists (ss_net s), (ss_net s'), (mkHttpRequest url [] accept auth).
Qed.

Lemma answer_challenge_answers config url scope accept (s s' : Session N) resp resp' :
  answers url resp -> answer_challenge env config url scope accept resp s = (s', Ok resp') ->
  answers url resp'.
Proof.
  intros Hr. unfold answer_challenge. repeat case_match.
  all: try by intros [= _ <-].
  all: try by apply send_answers.
  intros (s1 & tok & _ & Hs)%bind_ok. by eapply send_answers.
Qed.

Lemma authed_get_answers config url repo accept (s s' : Session N) resp :
  authed_get env config url repo accept s = (s', Ok resp) -> answers url resp.
Proof.
  assert (Hplain : forall s s' resp,
    (let! resp := send (mkHttpRequest url [] accept None) in
     if negb (rs_status resp =? 401) then ret resp
     else answer_challenge env config url ("repository:" ++ repo ++ ":pull") accept resp) s
    = (s', Ok resp) -> answers url resp).
  { intros s1 s2 x (s3 & y & Hy%send_answers & H)%bind_ok. case_match; [by injection H as _ <-|].
    by eapply answer_challenge_answers. }
  unfold authed_get. intros (s1 & [tok|] & _ & H)%bind_ok; [|by eapply Hplain].
  apply bind_ok in H as (s2 & y & Hy%send_answers & H). case_match; [by injection H as _ <-|].
  apply bind_ok in H as (s3 & c & _ & H). apply bind_ok in H as (s4 & [] & _ & H). by eapply Hplain.
Qed.

(** An accepted response is one the upstream gave with a success status. *)
Lemma fetch_response_ok config url repo accept nf dt digest (s s' : Session N) r :
  fetch_response env config url repo accept nf dt digest s = (s', Ok r) ->
  exists resp, answers url resp /\ is_success (rs_status resp) = true /\
    rs_bytes resp = Ok (ur_data r) /\ ur_digest r = digest resp /\
    ur_content_type r = default dt (header_get "content-type" (rs_headers resp)).
Proof.
  unfold fetch_response. intros (s1 & resp & Ha%authed_get_answers & H)%bind_ok.
  case_match; [done|]. destruct (is_success (rs_status resp)) eqn:Hs; [|done]. cbn [negb] in H.
  destruct (rs_bytes resp) as [data|] eqn:Hb; [|done]. injection H as _ <-. by exists resp.
Qed.

Lemma breaker_call_ok {A} (f : M (Session N) (crash UpstreamErr) A) (s s' : Session N) x :
  breaker_call env f s = (s', Ok x) -> exists s1 s2, f s1 = (s2, Ok x).
Proof.
  unfold breaker_call. intros (s1 & t & _ & H)%bind_ok. apply bind_ok in H as (s2 & b & _ & H).
  destruct (check_allowed _ _ _) as [b' al]. apply bind_ok in H as (s3 & [] & _ & H).
  destruct al; [|done]. cbn [negb] in H. apply bind_ok in H as (s4 & th & _ & H).
  apply bind_ok in H as (s5 & [] & _ & H). apply bind_ok in H as (s6 & r & Hr & H).
  apply attempt_inv in Hr as (r' & Hf & [= <-]).
  destruct r as [y|[e|]]; [| |done].
  - apply bind_ok in H as (s7 & tr & _ & H). apply bind_ok in H as (s8 & [] & _ & H).
    injection H as _ <-. eauto.
  - apply bind_ok in H as (s7 & tr & _ & H). by apply bind_ok in H as (s8 & [] & _ & H).
Qed.

Lemma guarded_fetch_ok config kind f (s s' : Session N) r :
  guarded_fetch env config kind f s = (s', Ok r) -> exists s1 s2, f s1 = (s2, Ok r).
Proof.
  unfold guarded_fetch. intros (s1 & x & Hx & H)%bind_ok.
  apply attempt_inv in Hx as (y & Hy & [= <-]).
  destruct x as [z|[|[e|]]]; [|by apply bind_ok in H as (? & [] & _ & H)..|done].
  apply bind_ok in H as (s2 & [] & _ & H). injection H as _ <-. by eapply breaker_call_ok.
Qed.
End client.

(** ** Upstreams and their order *)

Lemma filter_fresh (acc l : list nat) i :
  i ∉ l -> filter (fun j => j ∉ acc ++ [i]) l = filter (fun j => j ∉ acc) l.
Proof.
  induction l as [|j l IH]; intros Hi; [done|]. apply not_elem_of_cons in Hi as [Hij Hi].
  destruct (decide (j ∈ acc)) as [Hj|Hj].
  - rewrite !filter_cons_False by set_solver. by apply IH.
  - rewrite !filter_cons_True by set_solver. f_equal. by apply IH.
Qed.

Lemma collect_indices (l acc : list nat) :
  NoDup l ->
  fold_left (fun indices i => if bool_decide (i ∈ indices) then indices else indices ++ [i]) l acc
  = acc ++ filter (fun i => i ∉ acc) l.
Proof.
  revert acc. induction l as [|i l IH]; intros acc Hl; cbn [fold_left]; [by rewrite app_nil_r|].
  apply NoDup_cons in Hl as [Hi Hl]. rewrite IH by done. case_bool_decide as Hin.
  - by rewrite filter_cons_False by tauto.
  - by rewrite filter_cons_True, <- app_assoc, filter_fresh.
Qed.

(** The routing table holds, for each prefix, the last upstream configured
    with it. *)
Lemma routing_lookup l idx acc t i :
  routing idx l acc !! t = Some i ->
  (acc !! t = Some i /\ Forall (fun u => up_tenant_prefix u <> Some t) l) \/
  exists k u, l !! k = Some u /\ up_tenant_prefix u = Some t /\ i = (idx + k)%nat /\
    Forall (fun u => up_tenant_prefix u <> Some t) (drop (S k) l).
Proof.
  revert idx acc. induction l as [|u l IH]; intros idx acc; cbn [routing]; [by left|].
  intros [[Ha Hl]|(k & v & Hk & Hv & -> & Hl)]%IH.
  - destruct (up_tenant_prefix u) as [pre|] eqn:Hu.
    + destruct (decide (pre = t)) as [->|Hne].
      * right. exists 0%nat, u. rewrite lookup_insert_eq in Ha. injection Ha as <-. split_and!; [done|done|lia|done].
      * left. rewrite lookup_insert_ne in Ha by done. split; [done|]. constructor; [congruence|done].
    + left. split; [done|]. constructor; [congruence|done].
  - right. exists (S k), v. split_and!; [done|done|lia|done].
Qed.

Lemma routing_last l idx acc t k u :
  l !! k = Some u -> up_tenant_prefix u = Some t ->
  Forall (fun u => up_tenant_prefix u <> Some t) (drop (S k) l) ->
  routing idx l acc !! t = Some (idx + k)%nat.
Proof.
  assert (Hkeep : forall l idx acc, Forall (fun u => up_tenant_prefix u <> Some t) l ->
            routing idx l acc !! t = acc !! t).
  { clear. induction l as [|u l IH]; intros idx acc Hl; cbn; [done|]. apply Forall_cons in Hl as [Hu Hl].
    rewrite IH by done. case_match; [|done]. rewrite lookup_insert_ne by congruence. done. }
  revert idx acc k. induction l as [|v l IH]; intros idx acc k; [by rewrite lookup_nil|].
  destruct k as [|k]; cbn; intros Hk Hu Hl.
  - injection Hk as ->. rewrite Hu, Hkeep, lookup_insert_eq by done. f_equal. lia.
  - rewrite (IH _ _ k) by done. f_equal. lia.
Qed.

Lemma resolve_first cfg t k u :
  mc_upstreams cfg !! k = Some u -> up_tenant_prefix u = Some t ->
  Forall (fun u => up_tenant_prefix u <> Some t) (drop (S k) (mc_upstreams cfg)) ->
  hd_error (resolve_upstreams (mirror_service_new cfg) t) = Some k.
Proof.
  intros Hk Hu Hl. unfold resolve_upstreams. cbn [ms_upstreams ms_tenant_routing mirror_service_new].
  rewrite collect_indices by apply NoDup_ListNoDup, seq_NoDup. by rewrite (routing_last _ 0 ∅ t k u).
Qed.

Lemma routing_bound cfg t i :
  routing 0 (mc_upstreams cfg) ∅ !! t = Some i -> (i < length (mc_upstreams cfg))%nat.
Proof.
  intros [[H _]|(k & u & Hk & _ & -> & _)]%routing_lookup; [by rewrite lookup_empty in H|].
  by apply lookup_lt_Some in Hk.
Qed.

Lemma resolve_perm cfg t :
  Permutation (resolve_upstreams (mirror_service_new cfg) t) (seq 0 (length (mc_upstreams cfg))).
Proof.
  unfold resolve_upstreams. cbn [ms_upstreams ms_tenant_routing mirror_service_new].
  rewrite collect_indices by apply NoDup_ListNoDup, seq_NoDup.
  destruct (routing 0 (mc_upstreams cfg) ∅ !! t) as [i|] eqn:Hi.
  - apply routing_bound in Hi. apply NoDup_Permutation.
    + apply NoDup_app. split_and!; [apply NoDup_singleton| |apply NoDup_filter, NoDup_ListNoDup, seq_NoDup].
      intros x Hx. rewrite list_elem_of_filter. tauto.
    + apply NoDup_ListNoDup, seq_NoDup.
    + intros x. rewrite elem_of_app, list_elem_of_filter, elem_of_seq, list_elem_of_singleton.
      destruct (decide (x = i)); naive_solver lia.
  - assert (He : filter (fun i => i ∉ ([] : list nat)) (seq 0 (length (mc_upstreams cfg)))
                 = seq 0 (length (mc_upstreams cfg))).
    { clear. induction (seq 0 _) as [|x l IH]; [done|].
      rewrite filter_cons_True by apply not_elem_of_nil. by rewrite IH. }
    by rewrite He.
Qed.

(** ** What a fetch may write *)

Section writes.
Context {N W : Type} `{!Http N, !ObjectStore W, !ObjectStoreLaws W} (env : MirrorLib) (svc : MirrorService).
Context (Q : gmap str str -> Prop).

Definition mkeeps {E X} (m : M (Mirrored N W) E X) : Prop :=
  preserves (fun s => Q (objects (m_store s))) m.

Lemma mkeeps_put k d : (forall o, Q o -> Q (<[k := d]> o)) -> mkeeps (os_put k d).
Proof.
  intros Hq s Hs. cbn [os_put mirrored_store]. unfold on_mirrored. rewrite zoom_exec by done. unfold exec.
  destruct (os_put k d (m_store s)) as [w [[]|e]] eqn:E; cbn.
  - rewrite (put_ok _ _ _ _ E). auto.
  - destruct (put_err _ _ _ _ _ E) as [->| ->]; auto.
Qed.

Lemma mkeeps_get k : mkeeps (os_get k).
Proof.
  intros s Hs. cbn [os_get mirrored_store]. unfold on_mirrored.
  by rewrite zoom_exec, get_same by done.
Qed.

Lemma mkeeps_same {E X} (m : M (Mirrored N W) E X) :
  (forall s, m_store (exec m s) = m_store s) -> mkeeps m.
Proof. intros Hm s Hs. by rewrite Hm. Qed.

Lemma at_upstream_store {A} idx (f : UpstreamConfig -> M (Session N) (crash UpstreamErr) A)
    (s : Mirrored N W) : m_store (exec (at_upstream svc idx f) s) = m_store s.
Proof. unfold exec, at_upstream. repeat case_match; done. Qed.

Section repo.
Context (t p n : str).
Context (Hindex : forall x o, Q o -> Q (<[mirror_path env (cache_index_path t p n) := x]> o))
  (Htag : forall tag x o, Q o -> Q (<[mirror_path env (tag_link_path t p n tag) := x]> o)).

#[local] Ltac mkeep_step :=
  match goal with
  | |- preserves _ (bind _ _) => apply preserves_bind; [|intros ?]
  | |- preserves _ (rethrow _ _) => apply preserves_rethrow
  | |- preserves _ (attempt _) => apply preserves_attempt
  | |- preserves _ (when _ _) => apply preserves_when
  | |- preserves _ (ret _) => apply preserves_ret
  | |- preserves _ (throw _) => apply preserves_throw
  | |- preserves _ (lift _) => apply preserves_lift
  | |- preserves _ (os_get _) => apply mkeeps_get
  | |- preserves _ (os_put _ _) => apply mkeeps_put; by auto
  | |- preserves _ (utc_now _) => by apply mkeeps_same
  | |- preserves _ (count_fetch _ _) => by apply mkeeps_same
  | |- preserves _ (match ?x with _ => _ end) => destruct x eqn:?
  end.
#[local] Ltac mkeep := unfold mkeeps; repeat mkeep_step.

Lemma mkeeps_record entry : mkeeps (record_cached (N := N) env t p n entry).
Proof. unfold record_cached, load_index, save_index. mkeep. Qed.

Lemma mkeeps_evict ttl : mkeeps (evict_expired (N := N) env svc t p n ttl).
Proof. unfold evict_expired, load_index, save_index. mkeep. Qed.

Lemma mkeeps_linked d : mkeeps (is_blob_manifest_linked (N := N) env svc t p n d).
Proof. unfold is_blob_manifest_linked, is_cached_valid, load_index. mkeep. Qed.

Lemma mkeeps_cache_manifest reference idx resp :
  (forall o, Q o -> Q (<[mirror_path env (manifest_path t p n
     (default (sha256_digest (sha256_hex (ml env)) (ur_data resp)) (ur_digest resp))) := ur_data resp]> o)) ->
  mkeeps (cache_manifest (N := N) env svc t p n reference idx resp).
Proof. intros Hm. unfold cache_manifest. mkeep; apply mkeeps_record. Qed.

Lemma mkeeps_cache_blob digest idx resp :
  (forall o, Q o -> Q (<[mirror_path env (blob_path t p n digest) := ur_data resp]> o)) ->
  mkeeps (cache_blob (N := N) env svc t p n digest idx resp).
Proof. intros Hb. unfold cache_blob. mkeep; apply mkeeps_record. Qed.

(** A response some upstream gave. *)
Definition offered (fetch : UpstreamConfig -> M (Session N) (crash UpstreamErr) UpstreamResponse)
    (resp : UpstreamResponse) : Prop :=
  exists config ss ss', config ∈ ms_upstreams svc /\ fetch config ss = (ss', Ok resp).

Lemma at_upstream_ok {A} idx (f : UpstreamConfig -> M (Session N) (crash UpstreamErr) A)
    (s s' : Mirrored N W) x :
  at_upstream svc idx f s = (s', Ok x) ->
  exists config ss ss', ms_upstreams svc !! idx = Some config /\ f config ss = (ss', Ok x).
Proof.
  unfold at_upstream. destruct (ms_upstreams svc !! idx) as [config|]; [|done].
  destruct (m_clients s !! idx) as [c|]; [|done]. destruct (f config _) as [ss' r] eqn:E.
  intros [= _ ->]. eauto.
Qed.

Lemma mkeeps_try kind fetch cache indices b e :
  (forall idx resp, offered fetch resp -> mkeeps (cache idx resp)) ->
  mkeeps (try_upstreams svc kind fetch cache indices b e).
Proof.
  intros Hc. revert b e. induction indices as [|idx l IH]; intros b e; cbn [try_upstreams].
  - mkeep.
  - intros s Hs. unfold exec, bind, attempt.
    pose proof (at_upstream_store idx fetch s) as Hst. unfold exec in Hst.
    destruct (at_upstream svc idx fetch s) as [s1 r] eqn:E. cbn in Hst.
    assert (Hs1 : Q (objects (m_store s1))) by (by rewrite Hst).
    destruct r as [resp|[e'|]].
    + apply Hc; [|done]. apply at_upstream_ok in E as (config & ss & ss' & Hi & Hf).
      exists config, ss, ss'. split; [by eapply list_elem_of_lookup_2|done].
    + by apply IH.
    + done.
Qed.

Lemma mkeeps_fetch_manifest reference :
  (forall resp o, offered (fun config => upstream_manifest env config (p ++ "/" ++ n) reference) resp ->
     Q o -> Q (<[mirror_path env (manifest_path t p n
       (default (sha256_digest (sha256_hex (ml env)) (ur_data resp)) (ur_digest resp))) := ur_data resp]> o)) ->
  mkeeps (fetch_manifest env svc t p n reference).
Proof.
  intros Hm. unfold fetch_manifest. mkeep. apply mkeeps_try. intros i resp Hr.
  apply mkeeps_cache_manifest. auto.
Qed.

Lemma mkeeps_fetch_blob digest :
  (forall resp o, offered (fun config => upstream_blob env config (p ++ "/" ++ n) digest) resp ->
     Q o -> Q (<[mirror_path env (blob_path t p n digest) := ur_data resp]> o)) ->
  mkeeps (fetch_blob env svc t p n digest).
Proof.
  intros Hb. unfold fetch_blob. mkeep; [apply mkeeps_linked|]. apply mkeeps_try. intros i resp Hr.
  apply mkeeps_cache_blob. auto.
Qed.
End repo.
End writes.

(** The services of a registry with the mirror keep what the mirror keeps. *)
Lemma mirrored_services {N W A} `{!Http N, !ObjectStore W, !ObjectStoreLaws W, !AuditSink A}
    (env : MirrorLib) (svc : MirrorService) (base : AppState (Mirrored N W) A) p Q :
  services_keep base p Q ->
  (forall r, mkeeps Q (fetch_manifest (N := N) (W := W) env svc (tenant p) (project p) (name p) r)) ->
  (forall d, mkeeps Q (fetch_blob (N := N) (W := W) env svc (tenant p) (project p) (name p) d)) ->
  services_keep (with_mirror env svc base) p Q.
Proof.
  intros [_ _ Hs Ha Hr] Hm Hb. split; cbn; [| |apply Hs|apply Ha|apply Hr].
  - intros f r [= <-]. apply keeps_in_store. intros s Hq. unfold as_mirror.
    apply (preserves_rethrow (fun s => Q (objects (m_store s)))); [|done].
    apply preserves_bind; [apply Hm|intros; apply preserves_ret].
  - intros f r [= <-]. apply keeps_in_store. intros s Hq. unfold as_mirror.
    apply (preserves_rethrow (fun s => Q (objects (m_store s)))); [|done].
    apply preserves_bind; [apply Hb|intros; apply preserves_ret].
Qed.

(** ** The loop over the upstreams *)

Lemma last_default {A} (x : A) l d d' : List.last (x :: l) d = List.last (x :: l) d'.
Proof. revert x. induction l as [|y l IH]; intros x; [done|]. apply (IH y). Qed.

Section outcome.
Context {N W : Type} `{!Http N, !ObjectStore W} (env : MirrorLib) (svc : MirrorService).
Context (fetch : UpstreamConfig -> M (Session N) (crash UpstreamErr) UpstreamResponse).

(** The upstreams [l] were asked one after the other and each failed. *)
Inductive tried : list nat -> Mirrored N W -> list UpstreamErr -> Mirrored N W -> Prop :=
| tried_nil s : tried [] s [] s
| tried_cons idx l e errs s s1 s2 :
    at_upstream svc idx fetch s = (s1, Err (Raised e)) -> tried l s1 errs s2 ->
    tried (idx :: l) s (e :: errs) s2.

(** What the loop returns when no upstream answered. *)
Definition exhausted (b : bool) (last : option UpstreamErr) (errs : list UpstreamErr) : MirrorError :=
  if b && forallb upstream_not_found_equivalent errs then NotFoundOnAnyUpstream
  else match List.last (map Some errs) last with
       | Some e => Upstream e
       | None => NoUpstreamsConfigured
       end.

Lemma try_upstreams_inv kind cache l b last (s s' : Mirrored N W) r :
  try_upstreams svc kind fetch cache l b last s = (s', r) ->
  exists pre rest errs s1, l = pre ++ rest /\ tried pre s errs s1 /\
    match rest with
    | [] => r = Err (Raised (exhausted b last errs)) /\ m_store s' = m_store s1 /\ m_net s' = m_net s1
    | idx :: _ =>
        (exists s2 resp, at_upstream svc idx fetch s1 = (s2, Ok resp) /\ cache idx resp s2 = (s', r)) \/
        (at_upstream svc idx fetch s1 = (s', Err Unwound) /\ r = Err Unwound)
    end.
Proof.
  revert b last s. induction l as [|idx l IH]; intros b last s; cbn [try_upstreams].
  - intros Hr. exists [], [], [], s. split; [done|]. split; [constructor|]. unfold exhausted. cbn [forallb map List.last].
    rewrite andb_true_r. destruct b; by injection Hr as <- <-.
  - unfold bind, attempt. destruct (at_upstream svc idx fetch s) as [s1 [resp|[e|]]] eqn:E; intros Hr.
    + exists [], (idx :: l), [], s. split; [done|]. split; [constructor|]. left. eauto.
    + apply IH in Hr as (pre & rest & errs & s2 & -> & Ht & Hrest).
      exists (idx :: pre), rest, (e :: errs), s2. split; [done|]. split; [by econstructor|].
      destruct rest; [|done]. destruct Hrest as (-> & Hrest). split; [|done]. do 2 f_equal.
      unfold exhausted. cbn [forallb]. rewrite andb_assoc. case_match; [done|].
      destruct errs as [|e' errs]; [done|]. cbn [map]. by rewrite (last_default (Some e') _ (Some e) last).
    + injection Hr as <- <-. exists [], (idx :: l), [], s. split; [done|]. split; [constructor|]. by right.
Qed.

Lemma tried_store l s errs s' : tried l s errs s' -> m_store s' = m_store s.
Proof.
  induction 1 as [|idx l e errs s s1 s2 Hu _ IH]; [done|]. rewrite IH.
  pose proof (at_upstream_store svc idx fetch s) as Hs. unfold exec in Hs. by rewrite Hu in Hs.
Qed.

Lemma tried_length l s errs s' : tried l s errs s' -> length errs = length l.
Proof. induction 1; cbn; congruence. Qed.
End outcome.

(** The cache index a store holds for a repository, as a reader sees it. *)
Definition stored_index (env : MirrorLib) (t p n : str) (o : gmap str str) : CacheIndex :=
  match o !! mirror_path env (cache_index_path t p n) with
  | Some data => default [] (parse_json (ml env) data ≫= de_index env)
  | None => []
  end.

Section caching.
Context {N W : Type} `{!Http N, !ObjectStore W} (env : MirrorLib) (svc : MirrorService).

(** Storing what an upstream answered never fails the fetch. *)
Lemma cache_manifest_result t p n reference idx resp (s s' : Mirrored N W) r :
  cache_manifest env svc t p n reference idx resp s = (s', r) ->
  r = Ok (mkMirrorFetchResult (ur_data resp) (ur_content_type resp)
            (default (sha256_digest (sha256_hex (ml env)) (ur_data resp)) (ur_digest resp))) /\
  m_net s' = m_net s /\ m_clients s' = m_clients s.
Proof.
  unfold cache_manifest, record_cached, load_index, save_index, bind, attempt, rethrow, lift, ret.
  cbn [os_put os_get mirrored_store]. unfold on_mirrored, zoom, utc_now, count_fetch, modify.
  repeat (case_match || simplify_eq/=); by intros [= <- <-].
Qed.
End caching.

(** ** The requests of one authenticated read *)

(** A network that remembers what was sent and what came back. *)
Record Logged (N : Type) : Type := mkLogged {
  lg_net : N;
  lg_sent : list (HttpRequest * result HttpResponse str)
}.
Arguments mkLogged {N}.
Arguments lg_net {N}.
Arguments lg_sent {N}.

#[export] Instance logged_http {N} `{!Http N} : Http (Logged N) := {
  http_send rq := fun l => let '(n, r) := http_send rq (lg_net l) in
                           (mkLogged n (lg_sent l ++ [(rq, r)]), r)
}.

Section requests.
Context {N : Type} `{!Http N} (env : MirrorLib) (config : UpstreamConfig).

Abbreviation sent s := (lg_sent (ss_net (N := Logged N) s)).

(** A response that asks for credentials, with its challenge. *)
Definition challenge_in (log : list (HttpRequest * result HttpResponse str)) (ch : Challenge) : Prop :=
  exists rq resp, (rq, Ok resp) ∈ log /\ rs_status resp = 401 /\
    header_get "www-authenticate" (rs_headers resp) ≫= parse_challenge = Some ch.

(** Requests that may follow [log]: bearer tokens go to [url] alone, and
    credentials only where a challenge received before sends them. *)
Definition justified (url : str) (log : list (HttpRequest * result HttpResponse str))
    (rq : HttpRequest) : Prop :=
  match rq_auth rq with
  | None => True
  | Some (BearerAuth _) => rq_url rq = url
  | Some (RawAuth _) => False
  | Some (BasicAuth u p) =>
      credentials config = Some (u, p) /\
      exists ch, challenge_in log ch /\
        ((ch_scheme ch = "basic" /\ rq_url rq = url) \/
         (ch_scheme ch = "bearer" /\
          exists realm, ch_realm ch = Some realm /\ rq_url rq = resolve_realm realm (up_url config)))
  end.

(** At most [k] requests were sent, each justified by the ones before it. *)
Definition requests (url : str) (k : nat) (log log' : list (HttpRequest * result HttpResponse str)) : Prop :=
  exists new, log' = log ++ new /\ (length new <= k)%nat /\
    forall i rq r, new !! i = Some (rq, r) -> justified url (log ++ take i new) rq.

Lemma requests_none url log : requests url 0 log log.
Proof. exists []. rewrite app_nil_r. split; [done|]. split; [done|]. intros i rq r Hi. by rewrite lookup_nil in Hi. Qed.

Lemma requests_one url log rq r : justified url log rq -> requests url 1 log (log ++ [(rq, r)]).
Proof.
  intros Hj. exists [(rq, r)]. split; [done|]. split; [done|]. intros [|i] rq' r'; cbn; [|by destruct i].
  intros [= <- <-]. by rewrite app_nil_r.
Qed.

Lemma requests_trans url k k' l1 l2 l3 :
  requests url k l1 l2 -> requests url k' l2 l3 -> requests url (k + k') l1 l3.
Proof.
  intros (n1 & -> & Hl1 & H1) (n2 & -> & Hl2 & H2). exists (n1 ++ n2). rewrite <- app_assoc.
  split; [done|]. split; [rewrite length_app; lia|]. intros i rq r Hi.
  apply lookup_app_Some in Hi as [Hi|[Hle Hi]].
  - rewrite take_app_le by (apply lookup_lt_Some in Hi; lia). by eapply H1.
  - rewrite take_app_ge by done. rewrite app_assoc. by eapply H2.
Qed.

Lemma requests_weaken url k k' l1 l2 : requests url k l1 l2 -> (k <= k')%nat -> requests url k' l1 l2.
Proof. intros (n & -> & Hl & H) Hk. exists n. split; [done|]. split; [lia|done]. Qed.

Lemma send_raw_sent url rq (s s' : Session (Logged N)) r :
  justified url (sent s) rq -> send_raw rq s = (s', r) ->
  requests url 1 (sent s) (sent s') /\ sent s' = sent s ++ [(rq, r)] /\ ss_client s' = ss_client s.
Proof.
  intros Hj Hr. apply send_raw_inv in Hr as [Hs Hc]. cbn in Hs. destruct (http_send rq _) as [n x].
  injection Hs as Hs <-. rewrite <- Hs. cbn. split; [by apply requests_one|done].
Qed.

Lemma send_sent url rq (s s' : Session (Logged N)) r :
  justified url (sent s) rq -> send rq s = (s', r) ->
  requests url 1 (sent s) (sent s') /\ (forall resp, r = Ok resp -> (rq, Ok resp) ∈ sent s').
Proof.
  intros Hj (r' & Hr & ->)%rethrow_inv. apply (send_raw_sent url) in Hr as (Hq & He & _); [|done].
  split; [done|]. intros resp Hr. rewrite He. destruct r'; [|done]. injection Hr as ->. set_solver.
Qed.

Lemma cache_token_sent scope ds token ttl (s s' : Session (Logged N)) r :
  cache_token env scope ds token ttl s = (s', r) -> sent s' = sent s.
Proof.
  intros Hr. unfold cache_token, bind, when, gets, instant_now, update_tokens, modify, throw, ret in Hr.
  by repeat (case_match || simplify_eq/=).
Qed.

Lemma cached_token_sent scope (s s' : Session (Logged N)) r :
  cached_token env scope s = (s', r) -> sent s' = sent s.
Proof.
  intros Hr. unfold cached_token, bind, gets, instant_now, ret in Hr.
  by repeat (case_match || simplify_eq/=).
Qed.

Lemma fetch_token_sent url ch realm ds (s s' : Session (Logged N)) r :
  challenge_in (sent s) ch -> ch_scheme ch = "bearer" -> ch_realm ch = Some realm ->
  fetch_token env config ch realm ds s = (s', r) -> requests url 1 (sent s) (sent s').
Proof.
  intros Hc Hb Hrealm Hr. unfold fetch_token in Hr. unfold bind at 1 in Hr.
  match type of Hr with context[rethrow ?g (send_raw ?q) s] => set (rq := q) in Hr end.
  assert (Hj : justified url (sent s) rq).
  { unfold justified, rq. cbn. destruct (credentials config) as [[u p]|]; [|done]. cbn. eauto 10. }
  destruct (rethrow _ (send_raw rq) s) as [s1 x] eqn:E.
  apply rethrow_inv in E as (y & E & Hy). apply (send_raw_sent url) in E as (Hq & _ & _); [|done].
  destruct x as [resp|]; [|by injection Hr as <- <-].
  assert (Hs : sent s' = sent s1); [|by rewrite Hs]. clear Hq Hy Hj.
  unfold auth_failed, bind, ret, throw in Hr.
  repeat (case_match || simplify_eq/=); try done; by eapply cache_token_sent.
Qed.

Lemma challenge_in_mono url k l l' ch : requests url k l l' -> challenge_in l ch -> challenge_in l' ch.
Proof. intros (new & -> & _) (rq & resp & Hin & H). exists rq, resp. split; [set_solver|done]. Qed.

Lemma requests_same url k log : requests url k log log.
Proof. apply (requests_weaken url 0); [apply requests_none|lia]. Qed.

Lemma answer_challenge_sent url scope accept resp rq0 (s s' : Session (Logged N)) r :
  (rq0, Ok resp) ∈ sent s -> rs_status resp = 401 ->
  answer_challenge env config url scope accept resp s = (s', r) -> requests url 2 (sent s) (sent s').
Proof.
  intros Hin H401 Hr. unfold answer_challenge in Hr.
  destruct (header_get _ _ ≫= _) as [ch|] eqn:Hch; [|injection Hr as <- _; apply requests_same].
  assert (Hc : challenge_in (sent s) ch) by (by exists rq0, resp).
  assert (Hbasic : (if str_eqb (ch_scheme ch) "basic" then
            match credentials config with
            | Some (user, pass) => send (mkHttpRequest url [] accept (Some (BasicAuth user pass)))
            | None => ret resp
            end
          else ret resp) s = (s', r) -> requests url 2 (sent s) (sent s')).
  { destruct (str_eqb_spec (ch_scheme ch) "basic") as [Hk|]; [|intros [= <- _]; apply requests_same].
    destruct (credentials config) as [[u p]|] eqn:Hcr; [|intros [= <- _]; apply requests_same].
    intros Hs. apply (send_sent url) in Hs as [Hs _]; [apply (requests_weaken url 1); [done|lia]|].
    split; [done|]. exists ch. split; [done|]. by left. }
  destruct (str_eqb_spec (ch_scheme ch) "bearer") as [Hb|_]; [|by destruct (ch_realm ch); apply Hbasic].
  destruct (ch_realm ch) as [realm|] eqn:Hrealm; [|by apply Hbasic].
  unfold bind in Hr. destruct (fetch_token _ _ _ _ _ _) as [s1 x] eqn:E.
  apply (fetch_token_sent url) in E; [|done..]. destruct x as [tok|].
  - apply (send_sent url) in Hr as [Hr _]; [|done]. by apply (requests_trans url 1 1 _ (sent s1)).
  - injection Hr as <- _. apply (requests_weaken url 1); [done|lia].
Qed.

Lemma authed_get_sent url repo accept (s s' : Session (Logged N)) r :
  authed_get env config url repo accept s = (s', r) -> requests url 4 (sent s) (sent s').
Proof.
  assert (Hplain : forall s s' r,
    (let! resp := send (mkHttpRequest url [] accept None) in
     if negb (rs_status resp =? 401) then ret resp
     else answer_challenge env config url ("repository:" ++ repo ++ ":pull") accept resp) s
    = (s', r) -> requests url 3 (sent s) (sent s')).
  { clear. intros s s' r Hr. unfold bind in Hr. destruct (send _ s) as [s1 x] eqn:E.
    apply (send_sent url) in E as [Hq Hin]; [|done].
    destruct x as [resp|]; [|injection Hr as <- _; apply (requests_weaken url 1); [done|lia]].
    destruct (rs_status resp =? 401) eqn:H401;
      [|injection Hr as <- _; apply (requests_weaken url 1); [done|lia]]. cbn [negb] in Hr.
    eapply answer_challenge_sent in Hr; [|by apply Hin|by apply Z.eqb_eq].
    by apply (requests_trans url 1 2 _ (sent s1)). }
  unfold authed_get. unfold bind at 1. destruct (cached_token _ _ _) as [s1 x] eqn:E.
  apply cached_token_sent in E. rewrite <- E. destruct x as [[tok|]|];
    [|intros Hr%Hplain; apply (requests_weaken url 3); [done|lia]|intros [= <- _]; apply requests_same].
  unfold bind at 1. destruct (send _ s1) as [s2 y] eqn:E2. apply (send_sent url) in E2 as [Hq _]; [|done].
  assert (Hq4 : requests url 4 (sent s1) (sent s2)) by (apply (requests_weaken url 1); [done|lia]).
  destruct y as [resp|]; [|by intros [= <- _]]. destruct (rs_status resp =? 401); [|by intros [= <- _]].
  cbn [negb]. intros Hr. apply (requests_trans url 1 3 _ (sent s2)); [done|].
  unfold bind at 1, gets at 1 in Hr. unfold bind at 1 in Hr.
  destruct (when _ _ s2) as [s3 z] eqn:E3. assert (Hs3 : sent s3 = sent s2 /\ is_ok z = true).
  { unfold when, update_tokens, modify, ret in E3. by repeat (case_match || simplify_eq/=). }
  destruct Hs3 as [Hs3 Hz]. destruct z; [|done]. rewrite <- Hs3. by eapply Hplain.
Qed.
End requests.
