(* ===== verification/MirrorTheorems.v ===== *)
(** * What the mirror guarantees

    Which requests reach an upstream, what a fetch answers and stores, the
    requests and tokens of the authentication flow, and challenges, over any
    network and any object store that keeps its contract. *)

From S2P Require Import Prelude Json Text Effects Http Breaker Store Multipart Paths AuditLog RegistryAudit Auth Utf8.
From S2P Require Import Gc Registry RegistryProofs RegistryFlows RegistryTheorems Mirror MirrorProofs.

Local Open Scope Z_scope.

(** ** Scope *)

(** The requests a scope admits. *)
Definition on_list (t p : str) (tenants projects : list str) : Prop :=
  t ∈ tenants \/ t ++ "/" ++ p ∈ projects \/ p ∈ projects.

Definition in_scope (scope : MirrorScope) (t p : str) : Prop :=
  match scope with
  | AllScope | ManifestLinked => True
  | DefaultTenantOnly d => t = d
  | Allowlist tenants projects => on_list t p tenants projects
  | Denylist tenants projects => ~ on_list t p tenants projects
  end.

Lemma listed_spec (x : str) l : listed x l = true <-> x ∈ l.
Proof.
  unfold listed. rewrite existsb_exists, list_elem_of_In. split.
  - intros (y & Hy & Heq). by apply str_eqb_true in Heq as ->.
  - intros Hx. exists x. split; [done|]. apply str_eqb_refl.
Qed.

Lemma eligible_in_scope scope (t p : str) : tenant_project_eligible scope t p = true <-> in_scope scope t p.
Proof.
  assert (Hl : forall tenants projects,
    (if listed t tenants then true else listed (t ++ "/" ++ p) projects || listed p projects) = true <->
    on_list t p tenants projects).
  { intros tenants projects. unfold on_list. rewrite <- !listed_spec.
    destruct (listed t tenants), (listed _ projects), (listed p projects); cbn; intuition done. }
  destruct scope as [|d|tenants projects|tenants projects|]; cbn; try done.
  - destruct (str_eqb_spec t d); by split.
  - rewrite <- Hl. destruct (listed t tenants); cbn; [by split|].
    destruct (_ || _); cbn; by split.
Qed.

Section scope.
Context {N W A : Type} `{!Http N, !ObjectStore W, !ObjectStoreLaws W, !AuditSink A}.
Context (env : MirrorLib) (svc : MirrorService).

(** Nothing was sent, no breaker or token changed, and no object. *)
Definition quiet (s s' : Mirrored N W) : Prop :=
  m_net s' = m_net s /\ m_clients s' = m_clients s /\ objects (m_store s') = objects (m_store s).

(** The blobs a scope excludes: of a tenant or project out of scope, or, under
    [ManifestLinked], not in the cache index of the repository. *)
Definition blob_excluded (t p n d : str) (s : Mirrored N W) : Prop :=
  ~ in_scope (ms_scope svc) t p \/
  ms_scope svc = ManifestLinked /\ Forall (fun e => ce_digest e <> d) (stored_index env t p n (objects (m_store s))).

Lemma quiet_get k (s : Mirrored N W) : quiet s (exec (os_get k) s).
Proof.
  unfold quiet. pose proof (get_same k s) as Ho. unfold exec in *. destruct (os_get k s) as [s1 x] eqn:E. cbn in *.
  apply zoom_inv in E as (w & _ & ->). by split_and!.
Qed.

Lemma manifest_out_of_scope t p n r s :
  ~ in_scope (ms_scope svc) t p ->
  exists s', fetch_manifest env svc t p n r s = (s', Err (Raised NotInScope)) /\ quiet s s'.
Proof.
  intros He. rewrite <- eligible_in_scope in He. apply not_true_is_false in He.
  unfold fetch_manifest, is_scope_eligible. rewrite He. by eexists.
Qed.

Lemma blob_out_of_scope t p n d s :
  blob_excluded t p n d s -> exists s', fetch_blob env svc t p n d s = (s', Err (Raised NotInScope)) /\ quiet s s'.
Proof.
  intros [He|[Hs Hindex]].
  { rewrite <- eligible_in_scope in He. apply not_true_is_false in He.
    unfold fetch_blob, is_scope_eligible. rewrite He. by eexists. }
  unfold fetch_blob, is_scope_eligible. rewrite Hs. cbn [tenant_project_eligible negb decides_at_tenant_level].
  unfold is_blob_manifest_linked, is_cached_valid, load_index, bind, attempt.
  pose proof (quiet_get (mirror_path env (cache_index_path t p n)) s) as Hq. unfold exec in Hq.
  destruct (os_get (mirror_path env (cache_index_path t p n)) s) as [s1 x] eqn:E. cbn [fst] in Hq.
  assert (Hf : List.find (fun e => str_eqb (ce_digest e) d)
                 (match x with Ok data => default [] (parse_json (ml env) data ≫= de_index env)
                          | Err _ => [] end) = None).
  { destruct x as [data|]; [|done]. apply get_ok in E. cbn in E. unfold stored_index in Hindex.
    rewrite E in Hindex. revert Hindex.
    destruct (parse_json (ml env) data ≫= de_index env) as [l|]; cbn; [|done].
    induction 1 as [|e l He _ IH]; cbn; [done|]. by destruct (str_eqb_spec (ce_digest e) d). }
  cbn [ret]. unfold ret at 1. cbn beta iota. rewrite Hf. cbn. by eexists.
Qed.

Abbreviation RWorld := (Registry (Mirrored N W) A).

Lemma quiet_local p r (w : RWorld) : quiet (store w) (store (exec (local_manifest (ml env) p r) w)).
Proof.
  set (P := fun w' : RWorld => quiet (store w) (store w')).
  assert (Hget : forall E (f : StoreError -> E) k, preserves P (rethrow f (in_store (os_get k)))).
  { intros E f k w' (Hn & Hc & Ho). pose proof (quiet_get k (store w')) as (Hn' & Hc' & Ho').
    unfold P, quiet, exec, rethrow, in_store in *. destruct (os_get k (store w')) as [s1 x]. cbn in *. split_and!; congruence. }
  assert (Hget' : forall k, preserves (E := StoreError) P (in_store (os_get k))).
  { intros k w' Hw. specialize (Hget _ (fun e => e) k w' Hw). unfold exec, rethrow in *. by destruct (in_store _ w'). }
  assert (Hp : preserves P (local_manifest (ml env) p r)).
  { unfold local_manifest, resolve_manifest_path. apply preserves_bind.
    - apply preserves_attempt. destruct (starts_with _ _); [apply preserves_ret|].
      apply preserves_bind; [apply Hget|]. intros b.
      destruct (from_utf8 b); [apply preserves_ret|apply preserves_throw].
    - intros [path|e]; [|apply preserves_ret]. apply preserves_bind; [apply preserves_attempt, Hget'|]. intros [d|e].
      + apply preserves_ret.
      + destruct (is_store_not_found e); [apply preserves_ret|apply preserves_throw]. }
  by apply Hp.
Qed.
End scope.

(** C21: A request the scope excludes reaches no upstream: a tenant or project out of
    scope, or, under [ManifestLinked], a blob the cache index of its repository
    does not list.  Neither the network, nor the breakers and tokens of the
    clients, nor the stored objects change; and a permitted pull of a manifest or blob
    that is not stored is answered as for an unknown manifest or blob, also leaving
    them alone. *)
Theorem mirror_scope_isolation {N W A : Type} `{!Http N, !ObjectStore W, !ObjectStoreLaws W, !AuditSink A}
    (env : MirrorLib) (svc : MirrorService) (base : AppState (Mirrored N W) A) (rq : Request) (claims : TokenClaims)
    (p : RepoPath) (r : str) (w : Registry (Mirrored N W) A) :
  let state := with_mirror env svc base in
  let permitted := authorize claims (tenant p) (project p) (name p) Auth.Pull = Ok tt in
  (~ in_scope (ms_scope svc) (tenant p) (project p) ->
   quiet (store w) (exec (fetch_manifest env svc (tenant p) (project p) (name p) r) (store w)) /\
   (permitted -> eval (local_manifest (ml env) p r) w = Ok None ->
    exists w', get_manifest (ml env) state rq claims p r w = (w', Err (Fail (ManifestUnknown r))) /\
      quiet (store w) (store w'))) /\
  (blob_excluded env svc (tenant p) (project p) (name p) r (store w) ->
   quiet (store w) (exec (fetch_blob env svc (tenant p) (project p) (name p) r) (store w)) /\
   (permitted ->
    (exists e, eval (os_get (store_path (ml env) (blob_path (tenant p) (project p) (name p) r))) (store w) = Err e /\
       is_store_not_found e = true) ->
    exists w', get_blob (ml env) state rq claims p r w = (w', Err (Fail (BlobUnknown r))) /\
      quiet (store w) (store w'))).
Proof.
  intros state permitted.
  assert (Htrans : forall a b c : Mirrored N W, quiet a b -> quiet b c -> quiet a c).
  { intros a b c (H1 & H2 & H3) (H4 & H5 & H6). unfold quiet. split_and!; congruence. }
  split; intros Hex.
  - split; [destruct (manifest_out_of_scope env svc _ _ (name p) r (store w) Hex) as (s' & Hrun & Hq); unfold exec; by rewrite Hrun|].
    intros Hauth Hlocal. unfold get_manifest, authorized, rethrow, lift. unfold bind at 1. rewrite Hauth. cbn [map_err].
    pose proof (quiet_local env p r w) as Hq. unfold eval, exec in Hlocal, Hq. unfold bind at 1.
    destruct (local_manifest (ml env) p r w) as [w1 x]. cbn in Hlocal, Hq. subst x.
    destruct (manifest_out_of_scope env svc _ _ (name p) r (store w1) Hex) as (s' & Hrun & Hq').
    unfold bind at 1, remote_read, rethrow, in_store. cbn [state with_mirror mirror_manifest].
    unfold as_mirror, rethrow. unfold bind at 1. rewrite Hrun. cbn. eexists. split; [done|]. by eapply Htrans.
  - split; [destruct (blob_out_of_scope env svc _ _ (name p) r (store w) Hex) as (s' & Hrun & Hq); unfold exec; by rewrite Hrun|].
    intros Hauth (e & He & Hnf). unfold get_blob, authorized, rethrow, lift. unfold bind at 1. rewrite Hauth. cbn [map_err].
    set (k := store_path (ml env) (blob_path (tenant p) (project p) (name p) r)) in *.
    pose proof (quiet_get k (store w)) as Hq. unfold eval, exec in He, Hq. unfold bind at 1, attempt, in_store at 1.
    destruct (os_get k (store w)) as [s1 x] eqn:Eg. cbn in He, Hq. subst x. rewrite Hnf. cbn [negb].
    assert (Hex1 : blob_excluded env svc (tenant p) (project p) (name p) r s1).
    { destruct Hex as [Hex|[Hs Hi]]; [by left|]. right. split; [done|]. destruct Hq as (_ & _ & Ho). by rewrite Ho. }
    destruct (blob_out_of_scope env svc _ _ (name p) r s1 Hex1) as (s' & Hrun & Hq').
    unfold bind at 1, remote_read, rethrow, in_store. cbn [state with_mirror mirror_blob].
    unfold as_mirror, rethrow. unfold bind at 1. cbn [store set_store]. rewrite Hrun. cbn. eexists. split; [done|].
    by eapply Htrans.
Qed.

(** ** Pulling through *)

(** What the handler makes of the result of a fetch. *)
Definition mirrored_answer (unknown : RegistryError) (r : result MirrorFetchResult (crash MirrorError)) :
    result str failure :=
  match r with
  | Ok x => Ok (mf_data x)
  | Err Unwound => Err Panic
  | Err (Raised e) => if mirror_not_found_equivalent e then Err (Fail unknown)
                      else Err (Fail (UpstreamError (mirror_display e)))
  end.

Lemma remote_answer {N W A : Type} `{!Http N, !ObjectStore W} env svc (base : AppState (Mirrored N W) A)
    t p n reference unknown (w : Registry (Mirrored N W) A) s' r :
  fetch_manifest env svc t p n reference (store w) = (s', r) ->
  eval (remote_read (with_mirror env svc base) (mirror_manifest (with_mirror env svc base)) (mkRepoPath t p n)
          "manifests" reference unknown) w = mirrored_answer unknown r.
Proof.
  intros Hrun. unfold eval, remote_read, with_mirror, as_mirror, rethrow, in_store, bind.
  cbn [mirror_manifest tenant project name]. rewrite Hrun. destruct r as [x|[e|]]; try done. cbn.
  by destruct (mirror_not_found_equivalent e).
Qed.

(** C22: A fetch of a manifest in scope asks the upstreams one after the other, each at
    most once, the one routed to the tenant first, and answers with the first
    response: its bytes, its content type, and the digest the upstream names or
    else the digest of the bytes.  Storing it does not make the fetch fail.  When
    every upstream fails, the answer is "not found" if each of them was missing
    the manifest, unreachable, failing or behind an open breaker, and the error of
    the last one otherwise.  The handler above returns the bytes, answers 404 to a
    failure that amounts to not found, and 502 exactly when the last upstream
    refused the credentials or answered a status below 500 other than 404; a
    panic of the client unwinds through it. *)
Theorem pull_through {N W A : Type} `{!Http N, !ObjectStore W} (env : MirrorLib) (cfg : MirrorConfig)
    (base : AppState (Mirrored N W) A) (t p n reference : str) (w : Registry (Mirrored N W) A)
    (s' : Mirrored N W) (r : result MirrorFetchResult (crash MirrorError))
    (Hscope : tenant_project_eligible (mc_scope cfg) t p = true)
    (Hrun : fetch_manifest env (mirror_service_new cfg) t p n reference (store w) = (s', r)) :
  let svc := mirror_service_new cfg in
  let ask config := upstream_manifest (N := N) env config (p ++ "/" ++ n) reference in
  let state := with_mirror env svc base in
  let answer := eval (remote_read state (mirror_manifest state) (mkRepoPath t p n) "manifests" reference
                        (ManifestUnknown reference)) w in
  let refused e := (exists x, e = AuthFailed x) \/
                   exists status body, e = HttpStatus status body /\ status < 500 /\ status <> 404 in
  exists pre rest errs s1,
    resolve_upstreams svc t = pre ++ rest /\
    Permutation (pre ++ rest) (seq 0 (length (mc_upstreams cfg))) /\
    (forall k u, mc_upstreams cfg !! k = Some u -> up_tenant_prefix u = Some t ->
       Forall (fun v => up_tenant_prefix v <> Some t) (drop (S k) (mc_upstreams cfg)) ->
       hd_error (pre ++ rest) = Some k) /\
    tried svc ask pre (store w) errs s1 /\
    match rest with
    | idx :: _ =>
        match eval (at_upstream svc idx ask) s1 with
        | Ok resp => r = Ok (mkMirrorFetchResult (ur_data resp) (ur_content_type resp)
                               (default (sha256_digest (sha256_hex (ml env)) (ur_data resp)) (ur_digest resp))) /\
                     answer = Ok (ur_data resp)
        | Err e => e = Unwound /\ r = Err Unwound /\ answer = Err Panic
        end
    | [] =>
        m_store s' = m_store (store w) /\
        (errs = [] -> r = Err (Raised NoUpstreamsConfigured)) /\
        (errs <> [] -> forallb upstream_not_found_equivalent errs = true ->
           r = Err (Raised NotFoundOnAnyUpstream)) /\
        (forallb upstream_not_found_equivalent errs = false ->
           exists errs' e, errs = errs' ++ [e] /\ r = Err (Raised (Upstream e))) /\
        exists e, answer = Err (Fail e) /\
          ((e = ManifestUnknown reference /\ error_status e = 404 /\
            (forall u, last errs = Some u -> ~ refused u)) \/
           (error_status e = 502 /\ exists u, last errs = Some u /\ refused u /\
              e = UpstreamError (mirror_display (Upstream u))))
    end.
Proof.
  intros svc ask state answer refused.
  pose proof (resolve_perm cfg t) as Hperm. pose proof (resolve_first cfg t) as Hfirst.
  assert (Heval : answer = mirrored_answer (ManifestUnknown reference) r) by (by eapply remote_answer).
  assert (Hrefused : forall u, refused u <-> upstream_not_found_equivalent u = false).
  { intros u. unfold refused. destruct u; cbn; rewrite ?orb_false_iff, ?Z.leb_gt, ?Z.eqb_neq;
      split; try naive_solver. }
  unfold fetch_manifest, is_scope_eligible in Hrun. cbn [ms_scope mirror_service_new] in Hrun.
  rewrite Hscope in Hrun. cbn [negb] in Hrun. revert Hrun. fold svc in Hperm, Hfirst |- *.
  destruct (resolve_upstreams svc t) as [|i l] eqn:Hl.
  { intros [= <- <-]. exists [], [], [], (store w). do 4 (split; [done || constructor|]).
    do 4 (split; [done|]). eexists. split; [exact Heval|]. by left. }
  intros (pre & rest & errs & s1 & Hsplit & Ht & Hrest)%try_upstreams_inv.
  exists pre, rest, errs, s1. split; [done|]. rewrite <- Hsplit. do 3 (split; [done|]).
  destruct rest as [|idx rest].
  - destruct Hrest as (-> & Hst & _). rewrite Hst, (tried_store _ _ _ _ _ _ Ht). split; [done|].
    assert (Hne : errs <> []).
    { intros ->. apply tried_length in Ht. by destruct pre. }
    rewrite Heval. clear - Hne Hrefused. destruct errs as [|u errs _] using rev_ind; [done|].
    unfold exhausted. cbn [andb]. rewrite map_app. cbn [map]. rewrite List.last_last, last_snoc.
    split; [done|]. split; [by intros _ ->|]. split; [intros ->; eauto|].
    destruct (forallb _ (errs ++ [u])) eqn:Hall; cbn.
    + eexists. split; [done|]. left. split; [done|]. split; [done|]. intros ? [= <-]. rewrite Hrefused.
      rewrite forallb_app in Hall. cbn in Hall. destruct (upstream_not_found_equivalent u); [done|].
      by rewrite !andb_false_r in Hall.
    + destruct (upstream_not_found_equivalent u) eqn:Hu; eexists; (split; [done|]).
      * left. split; [done|]. split; [done|]. intros ? [= <-]. rewrite Hrefused. congruence.
      * right. split; [done|]. exists u. by rewrite Hrefused.
  - destruct Hrest as [(s2 & resp & Hask & Hcache)|[Hask ->]]; unfold eval, ask; rewrite Hask; cbn; [|done].
    apply cache_manifest_result in Hcache as [-> _]. by rewrite Heval.
Qed.

(** ** The registry's invariants with a mirror *)

(** What an upstream that follows the distribution specification does: the body
    of a successful answer has the digest the header names, and a blob the
    digest it was asked by. *)
Class HonestUpstreams (N : Type) `{!Http N} (lib : Libraries) : Prop := {
  honest_digest (n n' : N) rq rs data d :
    http_send rq n = (n', Ok rs) -> is_success (rs_status rs) = true -> rs_bytes rs = Ok data ->
    header_get "docker-content-digest" (rs_headers rs) = Some d -> d = digest_of lib data;
  honest_blob (n n' : N) rq rs data base repo d :
    http_send rq n = (n', Ok rs) -> is_success (rs_status rs) = true -> rs_bytes rs = Ok data ->
    rq_url rq = base ++ "/v2/" ++ repo ++ "/blobs/" ++ d -> rq_query rq = [] -> digest_of lib data = d
}.

Section honest.
Context {N W : Type} `{!Http N, !ObjectStore W, !ObjectStoreLaws W} (env : MirrorLib) (svc : MirrorService).
Context `{!LibraryLaws (ml env)}.

Lemma mirror_path_index p k : mirror_path env (cache_index_path (tenant p) (project p) (name p)) = k ->
  below (repo_dir (ml env) p) k.
Proof. intros <-. apply (below_repo_kind (store_path (ml env)) _ _ _ ".mirror/cache-index.json" []). Qed.

Lemma fetch_outside p o0 :
  (forall r, mkeeps (outside (ml env) p o0)
     (fetch_manifest (N := N) (W := W) env svc (tenant p) (project p) (name p) r)) /\
  (forall d, mkeeps (outside (ml env) p o0)
     (fetch_blob (N := N) (W := W) env svc (tenant p) (project p) (name p) d)).
Proof.
  assert (Hins : forall k x o, below (repo_dir (ml env) p) k -> outside (ml env) p o0 o ->
            outside (ml env) p o0 (<[k := x]> o)).
  { intros k x o Hk Ho k' Hk'. rewrite lookup_insert_ne by (intros ->; done). by apply Ho. }
  split; intros r.
  - apply mkeeps_fetch_manifest; intros *; 
      [|apply Hins, (below_tag (store_path (ml env)))
      |intros _; apply Hins, (below_manifest (store_path (ml env)))].
    by apply Hins, mirror_path_index.
  - apply mkeeps_fetch_blob; intros *; [by apply Hins, mirror_path_index|
      intros _; apply Hins, (below_blob (store_path (ml env)))].
Qed.

Context `{!HonestUpstreams N (ml env)}.

Lemma ca_index o p x : wf_repo p -> content_addressed (ml env) o ->
  content_addressed (ml env) (<[mirror_path env (cache_index_path (tenant p) (project p) (name p)) := x]> o).
Proof. intros Hp. by apply (ca_insert (ml env) o _ _ _ ".mirror" "cache-index.json"). Qed.

Lemma fetch_content_addressed p : wf_repo p ->
  (forall r, mkeeps (content_addressed (ml env))
     (fetch_manifest (N := N) (W := W) env svc (tenant p) (project p) (name p) r)) /\
  (forall d, mkeeps (content_addressed (ml env))
     (fetch_blob (N := N) (W := W) env svc (tenant p) (project p) (name p) d)).
Proof.
  intros Hp. split; intros r.
  - apply mkeeps_fetch_manifest; intros *; [by apply ca_index|by apply ca_tag|].
    intros (config & ss & ss' & _ & Hf) Ho. apply guarded_fetch_ok in Hf as (s1 & s2 & Hf).
    apply fetch_response_ok in Hf as (rs & (n & n' & rq & _ & _ & Hs) & Hok & Hb & Hd & _).
    assert (He : default (sha256_digest (sha256_hex (ml env)) (ur_data resp)) (ur_digest resp)
                 = digest_of (ml env) (ur_data resp)).
    { rewrite Hd. destruct (header_get _ _) as [d|] eqn:Hh; [|done]. cbn. by eapply honest_digest. }
    rewrite He. by apply ca_manifest.
  - apply mkeeps_fetch_blob; intros *; [by apply ca_index|].
    intros (config & ss & ss' & _ & Hf) Ho. apply guarded_fetch_ok in Hf as (s1 & s2 & Hf).
    apply fetch_response_ok in Hf as (rs & (n & n' & rq & Hu & Hq & Hs) & Hok & Hb & _ & _).
    assert (He : digest_of (ml env) (ur_data resp) = r) by (by eapply honest_blob).
    rewrite <- He. by apply ca_blob.
Qed.
End honest.

(** C23: With the mirror in place the registry keeps its invariants: whatever an
    upstream answers, serving a request changes only objects below its own
    repository; and as long as upstreams answer with the content their digests
    name, every blob and manifest path holds the content of its digest after any
    sequence of requests, with whatever failures of the store and the network. *)
Theorem mirrored_registry {N W A : Type}
    `{!Http N, !ObjectStore W, !ObjectStoreLaws W, !AuditSink A} (env : MirrorLib)
    `{!LibraryLaws (ml env)} (svc : MirrorService) (base : AppState (Mirrored N W) A)
    (Hbase : forall p Q, services_keep base p Q) :
  (forall rq c p o s k, ~ below (repo_dir (ml env) p) k ->
     objs (exec (serve (ml env) (with_mirror env svc base) rq c p o) s) !! k = objs s !! k) /\
  (HonestUpstreams N (ml env) ->
   forall rs s, Forall (fun r => wf_repo r.1.2) rs -> content_addressed (ml env) (objs s) ->
     content_addressed (ml env) (objs (serve_all (ml env) (with_mirror env svc base) rs s))).
Proof.
  split.
  - intros rq c p o s k Hk.
    apply (serve_outside (ml env) (with_mirror env svc base) rq c p o (objs s)); [|by intros k'|done].
    destruct (fetch_outside (N := N) (W := W) env svc p (objs s)) as [Hm Hb]. by apply mirrored_services.
  - intros Hh rs s Hnames. revert s. induction Hnames as [|[[[rq c] p] o] rs Hp _ IH]; intros s Hs; [done|].
    cbn [serve_all foldl]. apply IH.
    apply (serve_content_addressed (ml env) (with_mirror env svc base) rq c p o); [|done|done].
    destruct (fetch_content_addressed (N := N) (W := W) env svc p Hp) as [Hm Hb]. by apply mirrored_services.
Qed.

(** ** Credentials *)

(** An authenticated read of a URL sends at most four requests.  Bearer tokens
    are sent to that URL alone.  The configured user name and password are
    never sent unasked: only after an answer with status 401, to that URL if its
    challenge is [Basic], or to the realm of its challenge if it is [Bearer]. *)
Theorem upstream_credentials {N : Type} `{!Http N} (env : MirrorLib) (config : UpstreamConfig)
    (url repo : str) (accept : option str) (s : Session (Logged N)) :
  exists new,
    lg_sent (ss_net (exec (authed_get env config url repo accept) s)) = lg_sent (ss_net s) ++ new /\
    (length new <= 4)%nat /\
    forall i rq r, new !! i = Some (rq, r) ->
      justified config url (lg_sent (ss_net s) ++ take i new) rq.
Proof.
  unfold exec. destruct (authed_get env config url repo accept s) as [s' r] eqn:E.
  by apply (authed_get_sent env config) in E.
Qed.

(** ** Tokens *)

Section tokens.
Context {N : Type} `{!Http N} (env : MirrorLib).

(** A token's expiry, from the clock reading [n] it was stored at. *)
Definition token_bounds (n : nat) (e : Z) : Prop :=
  exists ttl, 0 <= ttl /\ e = mono_at env n + Z.max 1 (ttl - 5) * 1000000000 /\ e <= max_instant env.

(** From [s] to [s'] the clock moved on, tokens were dropped or stored with such
    an expiry, and the lock was poisoned only by a panic. *)
Record tokens_step {A} (s s' : Session N) (r : result A (crash UpstreamErr)) : Prop := {
  ts_readings : (ss_readings s <= ss_readings s')%nat;
  ts_tokens scope tok e : cl_tokens (ss_client s') !! scope = Some (tok, e) ->
    cl_tokens (ss_client s) !! scope = Some (tok, e) \/
    exists n, (ss_readings s <= n < ss_readings s')%nat /\ token_bounds n e;
  ts_poison : cl_poisoned (ss_client s') = true ->
    cl_poisoned (ss_client s) = true \/ r = Err Unwound;
  ts_breaker : cl_breaker (ss_client s') = cl_breaker (ss_client s)
}.

Definition stepping {A} (m : M (Session N) (crash UpstreamErr) A) : Prop :=
  forall s s' r, m s = (s', r) -> tokens_step s s' r.

Lemma stepping_bind {A B} (m : M (Session N) (crash UpstreamErr) A) (k : A -> M (Session N) _ B) :
  stepping m -> (forall a, stepping (k a)) -> stepping (bind m k).
Proof.
  intros Hm Hk s s' r Hr. unfold bind in Hr. destruct (m s) as [s1 x] eqn:E. apply Hm in E as [E1 E2 E3 E4].
  destruct x as [a|e].
  - apply Hk in Hr as [R1 R2 R3 R4]. split; [lia| | |congruence].
    + intros scope tok e [Ht|(n & Hn & Hb)]%R2.
      * apply E2 in Ht as [Ht|(n & Hn & Hb)]; [by left|]. right. exists n. split; [lia|done].
      * right. exists n. split; [lia|done].
    + intros [Hp|Hp]%R3; [|by right]. apply E3 in Hp as [Hp|Hp]; [by left|done].
  - injection Hr as <- <-. split; [done|done| |done]. intros [?|Hp]%E3; [by left|right]. by injection Hp as ->.
Qed.

Lemma stepping_same {A} (m : M (Session N) (crash UpstreamErr) A) :
  (forall s, ss_client (exec m s) = ss_client s /\ (ss_readings s <= ss_readings (exec m s))%nat) ->
  stepping m.
Proof.
  intros Hm s s' r Hr. destruct (Hm s) as [Hc Hl]. unfold exec in Hc, Hl. rewrite Hr in Hc, Hl. cbn in *.
  split; rewrite ?Hc; auto.
Qed.

Lemma stepping_send rq : stepping (send (N := N) rq).
Proof.
  apply stepping_same. intros s. unfold exec, send, rethrow, send_raw. by destruct (http_send _ _).
Qed.

Lemma stepping_forget scope c : stepping (when c (update_tokens (N := N) (delete scope))).
Proof.
  destruct c; [|by apply stepping_same]. intros s s' r [= <- <-]. split; cbn; [done| |by left|done].
  intros sc tok e [_ Ht]%lookup_delete_Some. by left.
Qed.

Lemma stepping_cache scope ds token ttl : 0 <= ttl -> stepping (cache_token (N := N) env scope ds token ttl).
Proof.
  intros Httl s s' r. unfold cache_token, bind, gets, instant_now.
  destruct (cl_poisoned (ss_client s)) eqn:Hp; [intros [= <- <-]; by apply stepping_same with (m := ret tt)|].
  set (e := mono_at env (ss_readings s) + Z.max 1 (Z.max 0 (ttl - 5)) * 1000000000).
  destruct (max_instant env <? e) eqn:Hmax.
  { intros [= <- <-]. split; cbn; [lia|by left|by right|done]. }
  assert (Hb : token_bounds (ss_readings s) e).
  { exists ttl. unfold e in *. lia. }
  assert (Hins : forall sc k tok e' (m : gmap str (str * Z)),
    <[k := (token, e)]> m !! sc = Some (tok, e') -> m !! sc = Some (tok, e') \/ e' = e).
  { intros sc k tok e' m [[_ [= _ ->]]|[_ Hl]]%lookup_insert_Some; auto. }
  intros Hr. assert (Hs' : ss_readings s' = S (ss_readings s) /\ cl_breaker (ss_client s') = cl_breaker (ss_client s)
    /\ cl_poisoned (ss_client s') = false /\
    forall sc tok e', cl_tokens (ss_client s') !! sc = Some (tok, e') ->
      cl_tokens (ss_client s) !! sc = Some (tok, e') \/ e' = e).
  { unfold when, update_tokens, modify, ret in Hr. case_match; injection Hr as <- _; cbn;
      (split; [done|]; split; [done|]; split; [done|]; intros sc tok e' Hl).
    - apply Hins in Hl as [Hl|Hl]; [|by right]. by apply Hins in Hl.
    - by apply Hins in Hl. }
  destruct Hs' as (Hr' & Hbr & Hpo & Htok). split; [lia| |congruence|done].
  intros sc tok e' [Ht| ->]%Htok; [by left|]. right. exists (ss_readings s). split; [lia|done].
Qed.

Lemma as_u64_nonneg v z : as_u64 v = Some z -> 0 <= z.
Proof. unfold as_u64. destruct v; try done. case_match; [|done]. intros [= <-]. lia. Qed.

Lemma de_option_some {A} (de : json -> option A) v x :
  de_option de v = Some (Some x) -> exists j, de j = Some x.
Proof. unfold de_option. destruct v as [[]|]; try done; intros (y & Hy & [= ->])%fmap_Some; eauto. Qed.

Lemma token_ttl_nonneg v b : de_token_response v = Some b ->
  0 <= default DEFAULT_TOKEN_TTL_SECS (tr_expires_in b).
Proof.
  unfold de_token_response. repeat case_match; try done. intros [= <-]. cbn.
  match goal with |- 0 <= default _ ?o => destruct o as [z|]; [|done] end.
  match goal with H : de_option as_u64 _ = Some (Some _) |- _ =>
    apply de_option_some in H as (j & Hj) end.
  by eapply as_u64_nonneg.
Qed.

Ltac stepping_step :=
  match goal with
  | |- stepping (bind _ _) => apply stepping_bind; [|intros ?]
  | |- stepping (send _) => apply stepping_send
  | |- stepping (when _ (update_tokens _)) => apply stepping_forget
  | |- stepping (ret _) => by apply stepping_same
  | |- stepping (throw _) => by apply stepping_same
  | |- stepping (auth_failed _) => by apply stepping_same
  | |- stepping (gets _) => by apply stepping_same
  | |- stepping (instant_now _) => apply stepping_same; intros ?; split; [done|cbn; lia]
  | |- stepping (match ?x with _ => _ end) => destruct x eqn:?
  end.

Lemma stepping_fetch_token config ch realm ds : stepping (fetch_token (N := N) env config ch realm ds).
Proof.
  unfold fetch_token. apply stepping_bind.
  { apply stepping_same. intros s. unfold exec, rethrow, send_raw. by destruct (http_send _ _). }
  intros resp. stepping_step; [by apply stepping_same|]. apply stepping_bind; [repeat stepping_step|intros data].
  destruct (parse_json (ml env) data ≫= de_token_response) as [b|] eqn:Hb;
    [|by apply stepping_same].
  apply bind_Some in Hb as (v & _ & Hb). apply token_ttl_nonneg in Hb.
  intros s s' r Hr. change (ret b) with (ret (S := Session N) (E := crash UpstreamErr) b) in Hr.
  unfold bind at 1, ret at 1 in Hr. revert s s' r Hr.
  match goal with |- forall s s' r, ?m s = (s', r) -> _ => change (stepping m) end.
  repeat stepping_step; by apply stepping_cache.
Qed.

Lemma stepping_authed_get config url repo accept :
  stepping (authed_get (N := N) env config url repo accept).
Proof.
  assert (Hanswer : forall scope resp, stepping (answer_challenge (N := N) env config url scope accept resp)).
  { intros scope resp. unfold answer_challenge. repeat stepping_step. apply stepping_fetch_token. }
  unfold authed_get, cached_token. repeat stepping_step; apply Hanswer.
Qed.
End tokens.

(** Every token in the cache after an authenticated read was there before, or was
    stored during the read with an expiry at least one second and at most
    [ttl - 5] seconds (one second if that is less) after a clock reading of the
    read, within the range of the clock.  The lock of the cache is poisoned only
    by a read that panics. *)
Theorem token_expiry_bounds {N : Type} `{!Http N} (env : MirrorLib) (config : UpstreamConfig)
    (url repo : str) (accept : option str) (s s' : Session N) (r : result HttpResponse (crash UpstreamErr))
    (Hrun : authed_get env config url repo accept s = (s', r)) :
  (forall scope tok e, cl_tokens (ss_client s') !! scope = Some (tok, e) ->
     cl_tokens (ss_client s) !! scope = Some (tok, e) \/
     exists n ttl, (ss_readings s <= n < ss_readings s')%nat /\ 0 <= ttl /\
       mono_at env n + 1000000000 <= e <= mono_at env n + Z.max 1 (ttl - 5) * 1000000000 /\
       e <= max_instant env) /\
  (cl_poisoned (ss_client s') = true -> cl_poisoned (ss_client s) = true \/ r = Err Unwound).
Proof.
  apply stepping_authed_get in Hrun as [_ Ht Hp _]. split; [|done].
  intros scope tok e [Hl|(n & Hn & ttl & H0 & He & Hm)]%Ht; [by left|]. right. exists n, ttl. lia.
Qed.

(** ** A mirrored tag is served from the store from then on *)

Section cached.
Context {N W A : Type} `{!Http N, !ObjectStore W, !ObjectStoreLaws W, !AuditSink A}
  (env : MirrorLib) (svc : MirrorService) `{!LibraryLaws (ml env)} (p : RepoPath).

Context (healthy : W -> Prop) `{!Reliable W healthy}.

Lemma attempt_put k d (s s1 : Mirrored N W) (x : result unit StoreError) E :
  healthy (m_store s) -> attempt (E := E) (os_put k d) s = (s1, Ok x) ->
  objects (m_store s1) = <[k := d]> (objects (m_store s)) /\ healthy (m_store s1).
Proof.
  intros Hok (r & Hr & [= ->])%attempt_inv. cbn in Hr. apply zoom_inv in Hr as (w & Hr & ->). cbn.
  destruct (healthy_put (m_store s) k d Hok) as (w' & E' & Hh). rewrite Hr in E'. injection E' as -> ->.
  split; [by apply put_ok|done].
Qed.

Lemma names_index reference data o x :
  wf_repo p -> names (ml env) p o reference data ->
  names (ml env) p (<[mirror_path env (cache_index_path (tenant p) (project p) (name p)) := x]> o)
    reference data.
Proof.
  intros Hp. assert (Hne : forall kind rest, safe_segment kind = true -> kind <> ".mirror" ->
    mirror_path env (cache_index_path (tenant p) (project p) (name p)) <>
    store_path (ml env) (object_path (tenant p) (project p) (name p) kind rest)).
  { intros kind rest Hk Hm He.
    apply (object_path_inj (store_path (ml env)) _ _ _ ".mirror" "cache-index.json") in He as (_ & ? & _); done. }
  intros [Hman Href]. split.
  - rewrite lookup_insert_ne; [done|]. by apply (Hne "manifests").
  - destruct Href as [?|[Ht Hl]]; [by left|]. right. split; [done|].
    rewrite lookup_insert_ne; [done|]. by apply (Hne "tags").
Qed.

Lemma cache_manifest_names reference idx resp (s s' : Mirrored N W) x :
  wf_repo p -> is_tag reference -> healthy (m_store s) ->
  default (sha256_digest (sha256_hex (ml env)) (ur_data resp)) (ur_digest resp)
    = digest_of (ml env) (ur_data resp) ->
  cache_manifest env svc (tenant p) (project p) (name p) reference idx resp s = (s', x) ->
  names (ml env) p (objects (m_store s')) reference (ur_data resp).
Proof.
  intros Hp Htag Hh Hd Hr. unfold cache_manifest in Hr. rewrite Hd, (proj1 Htag) in Hr.
  apply bind_step in Hr as [(s1 & r1 & H1 & Hr)|(e & (? & _ & [=])%attempt_inv & _)].
  apply attempt_put in H1 as [H1 Hh1]; [|done].
  apply bind_step in Hr as [(s2 & r2 & H2 & Hr)|(e & (? & _ & [=])%attempt_inv & _)].
  apply attempt_put in H2 as [H2 _]; [|done]. rewrite H1 in H2.
  assert (Hn : names (ml env) p (objects (m_store s2)) reference (ur_data resp)).
  { pose proof (tag_not_manifest (ml env) p reference (digest_of (ml env) (ur_data resp)) Hp) as Hne.
    unfold tag_at, manifest_at in Hne. rewrite H2. unfold names, tag_at, manifest_at, mirror_path in *.
    rewrite lookup_insert_ne, !lookup_insert_eq by done. auto. }
  clear H1 H2 Hd Hh Hh1. revert Hr Hn. generalize s2. clear s s1 s2 r1 r2. intros s Hr Hn.
  pose proof (mkeeps_record (N := N) (W := W) env (fun o => names (ml env) p o reference (ur_data resp))
    (tenant p) (project p) (name p) (fun x o => names_index reference (ur_data resp) o x Hp)) as Hrec.
  apply bind_step in Hr as [(s1 & now & [= <- <-] & Hr)|(e & [=] & _)].
  apply bind_step in Hr as [(s2 & r2 & H2 & Hr)|(e & (? & _ & [=])%attempt_inv & _)].
  apply attempt_inv in H2 as (r' & H2 & _).
  match type of H2 with record_cached _ _ _ _ ?en ?st = _ => specialize (Hrec en st Hn) end.
  unfold exec in Hrec. rewrite H2 in Hrec. by injection Hr as <- _.
Qed.
End cached.

(** Once a tag has been fetched from an upstream, and stored without a fault,
    the registry resolves it from its own store, to the bytes fetched then: in
    every later state whose objects are those, whatever the clock reads and
    whatever the upstream would answer by now.  The time to live of the mirror
    configuration plays no part. *)
Theorem mirrored_tag_stays {N W A : Type}
    `{!Http N, !ObjectStore W, !ObjectStoreLaws W, !AuditSink A} (env : MirrorLib)
    `{!LibraryLaws (ml env), !HonestUpstreams N (ml env)} (healthy : W -> Prop) `{!Reliable W healthy}
    (svc : MirrorService) (p : RepoPath)
    (reference : str) (s s' : Mirrored N W) (res : MirrorFetchResult)
    (Hp : wf_repo p) (Htag : is_tag reference)
    (Hhealthy : healthy (m_store s))
    (Hrun : fetch_manifest env svc (tenant p) (project p) (name p) reference s = (s', Ok res)) :
  forall later : Registry (Mirrored N W) A,
    objs later = objects (m_store s') -> healthy (m_store (store later)) ->
    eval (local_manifest (ml env) p reference) later = Ok (Some (mf_data res)).
Proof.
  assert (Hn : names (ml env) p (objects (m_store s')) reference (mf_data res)).
  { revert Hrun. unfold fetch_manifest. destruct (negb _); [done|].
    destruct (resolve_upstreams svc (tenant p)) as [|i l]; [done|].
    intros (pre & rest & errs & s1 & _ & Ht & Hrest)%try_upstreams_inv.
    destruct rest as [|idx rest]; [by destruct Hrest|]. apply tried_store in Ht.
    destruct Hrest as [(s2 & resp & Hask & Hc)|[_ [=]]].
    pose proof Hc as [[= ->] _]%cache_manifest_result. cbn.
    pose proof (at_upstream_store svc idx
      (fun config => upstream_manifest env config (project p ++ "/" ++ name p) reference) s1) as Hst.
    unfold exec in Hst. rewrite Hask in Hst. cbn in Hst.
    apply (cache_manifest_names env svc p healthy) in Hc; [done|done|done|by rewrite Hst, Ht|].
    apply at_upstream_ok in Hask as (config & ss & ss' & _ & (s3 & s4 & Hf)%guarded_fetch_ok).
    apply fetch_response_ok in Hf as (rs & (n & n' & rq & _ & _ & Hs) & Hok & Hb & Hd & _).
    rewrite Hd. destruct (header_get _ _) as [d|] eqn:Hh; [|done]. cbn. by eapply honest_digest. }
  intros later Ho Hh. rewrite <- Ho in Hn.
  by apply (local_names_reliable (ml env) p (fun m : Mirrored N W => healthy (m_store m))).
Qed.

(** ** Challenges *)

Section challenges.

(** A parameter as servers write it, and a challenge of such parameters. *)
Definition render_param (kv : str * str) : str := fst kv ++ "=" ++ [quote] ++ snd kv ++ [quote].
Definition render_challenge (scheme : str) (params : list (str * str)) : str :=
  scheme ++ " " ++ join_with "," (map render_param params).

(** Names are visible ASCII without the separators; values hold no quote. *)
Definition param_name (k : str) : bool :=
  non_empty k && forallb (fun c => graphic c && negb (byte_is 34 c) && negb (byte_is 44 c)
                                   && negb (byte_is 61 c)) k.
Definition param_ok (kv : str * str) : bool := param_name (fst kv) && free_of quote (snd kv).

Lemma trim_quoted v : trim ([quote] ++ v ++ [quote]) = [quote] ++ v ++ [quote].
Proof. by apply (trim_graphic _ quote quote (v ++ [quote]) ([quote] ++ v)). Qed.

Lemma span_free c s : free_of c s = true -> match s with x :: _ => byte_eqb c x = false | [] => True end.
Proof.
  destruct s as [|x s]; [done|]. unfold free_of. cbn. intros [Hx _]%andb_prop.
  destruct (byte_eqb_spec c x) as [->|]; [|done]. by destruct (byte_eqb_spec x x).
Qed.

Lemma free_of_rev c s : free_of c s = true -> free_of c (rev s) = true.
Proof. unfold free_of. rewrite !forallb_forall. intros Hs x Hx. apply Hs. by apply in_rev in Hx. Qed.

Lemma trim_matches_quoted v : free_of quote v = true -> trim_matches quote ([quote] ++ v ++ [quote]) = v.
Proof.
  intros Hv. unfold trim_matches, trim_start_byte.
  destruct v as [|x v]; [done|]. pose proof (span_free _ _ Hv) as Hx.
  change ([quote] ++ (x :: v) ++ [quote]) with ([quote] ++ (x :: v ++ [quote])).
  rewrite span_app_stop by done. cbn [snd]. unfold trim_end_byte.
  change (x :: v ++ [quote]) with ((x :: v) ++ [quote]). rewrite rev_app_distr. cbn [rev app].
  change (rev v ++ [x]) with (rev (x :: v)).
  rewrite (span_app_boundary _ [quote] (rev (x :: v))); [apply rev_involutive|done|].
  apply span_free. by apply free_of_rev.
Qed.

Lemma add_rendered ch kv :
  param_ok kv = true -> add_part ch (render_param kv) = set_param ch (to_ascii_lowercase (fst kv)) (snd kv).
Proof.
  destruct kv as [k v]. unfold param_ok, param_name. cbn [fst snd].
  rewrite !andb_true_iff. intros [[Hne Hk] Hv].
  assert (Hg : forallb graphic k = true).
  { revert Hk. apply forallb_impl. intros c. rewrite !andb_true_iff. tauto. }
  assert (Hk0 : k <> []) by (by destruct k). unfold add_part, render_param. cbn [fst snd].
  assert (Ht : trim (k ++ "=" ++ [quote] ++ v ++ [quote]) = k ++ "=" ++ [quote] ++ v ++ [quote]).
  { destruct k as [|c k]; [done|]. apply andb_prop in Hg as [Hg _].
    apply (trim_graphic _ c quote (k ++ "=" ++ [quote] ++ v ++ [quote]) ((c :: k) ++ "=" ++ [quote] ++ v));
      [done| |done|done]. by rewrite <- !app_assoc. }
  rewrite Ht. change ("=" ++ ?x) with ("="%char :: x). rewrite split_once_byte_free.
  - by rewrite trim_word, trim_quoted, trim_matches_quoted.
  - revert Hk. apply forallb_impl. intros c. rewrite !andb_true_iff. intros [_ Hc].
    destruct (byte_eqb_spec c "="%char) as [->|]; done.
Qed.

(** A scan through text without quotes, inside or outside of them. *)
Lemma split_quoted v cur rest :
  free_of quote v = true -> split_unquoted true cur (v ++ rest) = split_unquoted true (cur ++ v) rest.
Proof.
  revert cur. induction v as [|c v IH]; intros cur Hv; [by rewrite app_nil_r|].
  unfold free_of in Hv. cbn in Hv. apply andb_prop in Hv as [Hc Hv]. cbn [app split_unquoted].
  replace (byte_is 34 c) with false.
  - cbn [negb]. rewrite andb_false_r. rewrite IH by done. by rewrite <- app_assoc.
  - unfold byte_is, byte_val. destruct (Z.eqb_spec (Z.of_N (N_of_ascii c)) 34) as [Hq|]; [|done].
    exfalso. assert (c = quote) as ->; [|by destruct (byte_eqb_spec quote quote)].
    unfold quote. rewrite <- (ascii_N_embedding c). f_equal. lia.
Qed.

Lemma split_name k cur rest :
  param_name k = true -> split_unquoted false cur (k ++ rest) = split_unquoted false (cur ++ k) rest.
Proof.
  unfold param_name. rewrite andb_true_iff. intros [_ Hk]. revert cur.
  induction k as [|c k IH]; intros cur; [by rewrite app_nil_r|]. cbn in Hk.
  apply andb_prop in Hk as [Hc Hk]. rewrite !andb_true_iff, !negb_true_iff in Hc.
  destruct Hc as (((_ & Hq) & Hcomma) & _). cbn [app split_unquoted]. rewrite Hq, Hcomma. cbn [andb].
  rewrite IH by done. by rewrite <- app_assoc.
Qed.

Lemma split_param kv rest :
  param_ok kv = true ->
  split_unquoted false [] (render_param kv ++ rest) = split_unquoted false (render_param kv) rest.
Proof.
  destruct kv as [k v]. unfold param_ok, render_param. cbn [fst snd]. intros [Hk Hv]%andb_prop.
  rewrite <- app_assoc, split_name by done. cbn [app split_unquoted].
  change (byte_is 34 "="%char) with false. change (byte_is 44 "="%char) with false. cbn [andb].
  change (byte_is 34 quote) with true. cbn iota. cbn [negb]. rewrite <- (app_assoc v).
  rewrite (split_quoted v) by done. cbn [app split_unquoted]. change (byte_is 34 quote) with true. cbn iota.
  cbn [negb]. f_equal. by rewrite <- !app_assoc.
Qed.

Lemma split_params params :
  params <> [] -> forallb param_ok params = true ->
  split_unquoted false [] (join_with "," (map render_param params)) = map render_param params.
Proof.
  induction params as [|kv params IH]; [done|]. intros _. cbn [forallb]. intros [Hkv Hps]%andb_prop.
  destruct params as [|kv' params].
  - cbn [map join_with]. rewrite <- (app_nil_r (render_param kv)) at 1. by rewrite split_param.
  - change (join_with "," (map render_param (kv :: kv' :: params)))
      with (render_param kv ++ ","%char :: join_with "," (map render_param (kv' :: params))).
    rewrite split_param by done. cbn [split_unquoted]. change (byte_is 34 ","%char) with false.
    change (byte_is 44 ","%char) with true. cbn [andb negb]. cbn iota. rewrite IH by done. done.
Qed.
End challenges.

(** A challenge as servers write it is read back: whatever the scheme and the
    names, in whatever case, and whatever is between the quotes, commas and
    spaces included.  Of a parameter given twice the last value counts. *)
Theorem challenge_round_trip (scheme : str) (params : list (str * str))
    (Hscheme : scheme <> []) (Hword : forallb graphic scheme = true)
    (Hparams : params <> []) (Hok : forallb param_ok params = true) :
  parse_challenge (render_challenge scheme params) =
  Some (fold_left (fun ch kv => set_param ch (to_ascii_lowercase (fst kv)) (snd kv)) params
          (mkChallenge (to_ascii_lowercase scheme) None None None)).
Proof.
  unfold parse_challenge.
  assert (Htrim : trim (render_challenge scheme params) = render_challenge scheme params).
  { destruct scheme as [|c scheme]; [done|]. cbn in Hword. apply andb_prop in Hword as [Hc _].
    assert (Hlast : exists m, join_with "," (map render_param params) = m ++ [quote]).
    { clear -Hparams. induction params as [|kv params IH]; [done|]. destruct params as [|kv' params].
      - exists (fst kv ++ "=" ++ [quote] ++ snd kv). cbn. unfold render_param. by rewrite <- !app_assoc.
      - destruct IH as [m Hm]; [done|]. exists (render_param kv ++ "," ++ m).
        change (join_with "," (map render_param (kv :: kv' :: params)))
          with (render_param kv ++ "," ++ join_with "," (map render_param (kv' :: params))).
        by rewrite Hm, <- !app_assoc. }
    destruct Hlast as [m Hm]. unfold render_challenge. rewrite Hm.
    apply (trim_graphic _ c quote (scheme ++ " " ++ m ++ [quote]) ((c :: scheme) ++ " " ++ m)); [done| |done|done].
    by rewrite <- !app_assoc. }
  rewrite Htrim. unfold render_challenge. change (" " ++ ?x) with (" "%char :: x).
  rewrite split_once_byte_free.
  2: { revert Hword. apply forallb_impl. intros x. unfold graphic, byte_in. intros Hx.
       destruct (byte_eqb_spec x " "%char) as [->|]; done. }
  replace (non_empty scheme) with true by (by destruct scheme). cbn [negb]. f_equal.
  rewrite split_params by done. clear Hparams Htrim. revert Hok.
  generalize (mkChallenge (to_ascii_lowercase scheme) None None None).
  induction params as [|kv params IH]; intros ch; [done|]. cbn [forallb map fold_left].
  intros [Hkv Hps]%andb_prop. rewrite add_rendered by done. by apply IH.
Qed.

(** ** The cache index *)

Section index.
Context {N W : Type} `{!ObjectStore W, !ObjectStoreLaws W} (env : MirrorLib) (t p n : str).

Lemma load_index_inv E (s s1 : Mirrored N W) (r : result CacheIndex E) :
  load_index env (mirror_path env (cache_index_path t p n)) s = (s1, r) ->
  objects (m_store s1) = objects (m_store s) /\ m_readings s1 = m_readings s /\
  (r = Ok (stored_index env t p n (objects (m_store s))) \/ r = Ok []).
Proof.
  unfold load_index, bind, attempt. destruct (os_get _ s) as [s2 x] eqn:Eg. intros [= <- <-].
  pose proof (get_same (mirror_path env (cache_index_path t p n)) s) as Ho. unfold exec in Ho.
  rewrite Eg in Ho. cbn in Ho. split; [done|].
  split; [cbn in Eg; by apply zoom_inv in Eg as (w & _ & ->)|].
  destruct x as [data|]; [|by right]. apply get_ok in Eg. cbn in Eg.
  unfold stored_index. rewrite Eg. by left.
Qed.

Lemma save_index_ok l (s s' : Mirrored N W) u :
  (forall b, to_vec_pretty env (ser_index env l) = Ok b ->
     parse_json (ml env) b ≫= de_index env = Some l) ->
  save_index env (mirror_path env (cache_index_path t p n)) l s = (s', Ok u) ->
  stored_index env t p n (objects (m_store s')) = l.
Proof.
  intros Hround. unfold save_index. intros (s1 & b & Hb & H)%bind_ok. injection Hb as <- Hb.
  destruct (to_vec_pretty env (ser_index env l)) as [b'|] eqn:E; [|done]. injection Hb as ->.
  apply rethrow_ok in H. cbn in H. apply zoom_inv in H as (w & H & ->). cbn. destruct u.
  apply put_ok in H. unfold stored_index. rewrite H, lookup_insert_eq. by rewrite Hround.
Qed.
End index.

(** Recording an entry that is read back as it was written leaves an index in
    which it is the only entry with its digest and in which the other entries
    are those of the index before, or of none: a failed read of the index counts
    as an empty one, and the entries it held are gone. *)
Theorem cache_index_recorded {N W : Type} `{!ObjectStore W, !ObjectStoreLaws W} (env : MirrorLib)
    (t p n : str) (entry : CacheEntry) (s s' : Mirrored N W)
    (Hround : forall l b, to_vec_pretty env (ser_index env l) = Ok b ->
       parse_json (ml env) b ≫= de_index env = Some l)
    (Hrun : record_cached env t p n entry s = (s', Ok tt)) :
  exists before, (before = stored_index env t p n (objects (m_store s)) \/ before = []) /\
    stored_index env t p n (objects (m_store s')) =
      List.filter (fun e => negb (str_eqb (ce_digest e) (ce_digest entry))) before ++ [entry].
Proof.
  unfold record_cached in Hrun. apply bind_ok in Hrun as (s1 & l & Hl & H).
  apply load_index_inv in Hl as (_ & _ & Hl). exists l. split; [destruct Hl; simplify_eq; auto|].
  exact (save_index_ok env t p n _ _ _ _ (Hround _) H).
Qed.

(** Eviction keeps exactly the entries whose age is not negative and below the
    time to live, and reports how many it dropped; without one to drop it does
    not write. *)
Theorem cache_index_evicted {N W : Type} `{!ObjectStore W, !ObjectStoreLaws W} (env : MirrorLib)
    (svc : MirrorService) (t p n : str) (ttl : option Z) (s s' : Mirrored N W) (k : Z)
    (Hround : forall l b, to_vec_pretty env (ser_index env l) = Ok b ->
       parse_json (ml env) b ≫= de_index env = Some l)
    (Hrun : evict_expired env svc t p n ttl s = (s', Ok k)) :
  let fresh := fresh_at (utc_at env (m_readings s)) (default (ms_default_ttl_secs svc) ttl) in
  exists before, (before = stored_index env t p n (objects (m_store s)) \/ before = []) /\
    k = Z.of_nat (length (List.filter (fun e => negb (fresh e)) before)) /\
    (k = 0 -> objects (m_store s') = objects (m_store s)) /\
    (0 < k -> stored_index env t p n (objects (m_store s')) = List.filter fresh before).
Proof.
  intros fresh. unfold evict_expired in Hrun. apply bind_ok in Hrun as (s1 & l & Hl & H).
  apply load_index_inv in Hl as (Ho & Hc & Hl).
  exists l. split; [destruct Hl; simplify_eq; auto|].
  apply bind_ok in H as (s2 & now & Hnow & H). injection Hnow as <- <-.
  rewrite Hc in H. fold fresh in H. apply bind_ok in H as (s3 & [] & Hw & H). injection H as <- <-.
  assert (Hlen : forall l, Z.of_nat (length l) - Z.of_nat (length (List.filter fresh l))
                 = Z.of_nat (length (List.filter (fun e => negb (fresh e)) l))).
  { clear. induction l as [|e l IH]; [done|]. cbn [List.filter]. destruct (fresh e); cbn [negb length]; lia. }
  rewrite Hlen in Hw |- *. split; [done|]. split.
  - intros H0. rewrite H0 in Hw. by injection Hw as <-.
  - intros Hpos. replace (0 <? _) with true in Hw by (symmetry; by apply Z.ltb_lt).
    exact (save_index_ok env t p n _ _ _ _ (Hround _) Hw).
Qed.

(** ** Instances: a network given by a function *)

Record FnNet : Type := mkFnNet { fn_answer : HttpRequest -> result HttpResponse str }.

#[local] Instance fn_http : Http FnNet := {| http_send rq := fun n => (n, fn_answer n rq) |}.

Definition mirror_env : MirrorLib :=
  mkMirrorLib demo_lib (fun _ => Ok "{}") (fun _ => "t") (fun _ => Some 0) dec Z.of_nat Z.of_nat
    (2 ^ 63 * 1000000000).

Definition hub : UpstreamConfig := mkUpstreamConfig "up" "https://up" (Some "u") (Some "p") 60 (Some "a").
Definition hub_config : MirrorConfig := mkMirrorConfig [hub] 60 AllScope.
Definition hub_mirror : MirrorService := mirror_service_new hub_config.

(** One manifest, with its digest; everything else is missing. *)
Definition hub_answer (rq : HttpRequest) : result HttpResponse str :=
  if str_eqb (rq_url rq) "https://up/v2/b/c/manifests/latest"
  then Ok (mkHttpResponse 200 [("docker-content-digest" : str, digest_of demo_lib "{}")] (Ok "{}") None)
  else Ok (mkHttpResponse 404 [] (Ok "") None).

(** Answers every request for a blob with the same bytes. *)
Definition rogue_answer (rq : HttpRequest) : result HttpResponse str :=
  Ok (mkHttpResponse 200 [] (Ok "{}") None).

Definition hub_state (answer : HttpRequest -> result HttpResponse str) : Mirrored FnNet Memory :=
  mirrored_new hub_mirror (memory_of ∅ []) (mkFnNet answer).

Lemma hub_no_blobs base repo d :
  "https://up/v2/b/c/manifests/latest" <> base ++ "/v2/" ++ repo ++ "/blobs/" ++ d.
Proof.
  intros He. destruct (split_once_str_some "/blobs/" (base ++ "/v2/" ++ repo) d) as (h & u & Hs).
  rewrite <- !app_assoc in Hs. rewrite <- He in Hs. done.
Qed.

(** A network that only ever gives the answers of the hub. *)
Record HubNet : Type := mkHubNet { hub_requests : nat }.

#[local] Instance hub_http : Http HubNet :=
  {| http_send rq := fun n => (mkHubNet (S (hub_requests n)), hub_answer rq) |}.

#[local] Instance hub_honest : HonestUpstreams HubNet demo_lib.
Proof.
  split.
  - intros n n' rq rs data d [= _ Ha] Hs Hb Hh. unfold hub_answer in Ha.
    case_match; injection Ha as <-; [|done]. injection Hb as <-. vm_compute in Hh. injection Hh as <-.
    by vm_compute.
  - intros n n' rq rs data base repo d [= _ Ha] Hs Hb Hu _. unfold hub_answer in Ha.
    destruct (str_eqb_spec (rq_url rq) "https://up/v2/b/c/manifests/latest") as [He|];
      injection Ha as <-; [|done]. rewrite Hu in He. by destruct (hub_no_blobs base repo d).
Qed.

#[local] Existing Instance demo_lib_laws.
#[local] Existing Instance demo_sink.

Definition honest_state : Mirrored HubNet Memory :=
  mirrored_new hub_mirror (memory_of ∅ []) (mkHubNet 0).

Definition mirror_base : AppState (Mirrored HubNet Memory) bool :=
  mkAppState 64 32 4 false false true true false false None None false None None None
    (fun _ _ _ _ _ => ret tt) (fun _ _ _ _ _ => ret tt) (fun _ _ _ _ _ _ _ _ _ _ _ => ret tt).

Lemma pull_through_witness :
  exists s', fetch_manifest mirror_env hub_mirror "a" "b" "c" "v9" honest_state
             = (s', Err (Raised NotFoundOnAnyUpstream)) /\
    m_store s' = m_store honest_state.
Proof.
  eexists. assert (Hrun : fetch_manifest mirror_env hub_mirror "a" "b" "c" "v9" honest_state
    = (exec (fetch_manifest mirror_env hub_mirror "a" "b" "c" "v9") honest_state,
       Err (Raised NotFoundOnAnyUpstream))) by (apply run_eval; vm_compute; reflexivity).
  split; [exact Hrun|].
  destruct (pull_through mirror_env hub_config mirror_base "a" "b" "c" "v9"
              (mkRegistry honest_state db_empty (with_sink true true) ∅ [] [] []) _ _ eq_refl Hrun)
    as (pre & rest & errs & s1 & _ & _ & _ & _ & Hrest).
  destruct rest as [|idx rest]; [exact (proj1 Hrest)|].
  destruct (eval _ _); [destruct Hrest as [Hr _]|destruct Hrest as (_ & Hr & _)]; discriminate.
Defined.

Lemma mirrored_registry_witness :
  content_addressed demo_lib (objs (serve_all demo_lib (with_mirror mirror_env hub_mirror mirror_base)
    [(demo_rq, demo_claims, demo_repo, GetManifest "latest")]
    (mkRegistry honest_state db_empty (with_sink true true) ∅ [] [] []))).
Proof.
  refine (proj2 (mirrored_registry mirror_env hub_mirror mirror_base _) hub_honest _ _ _ _).
  - intros p Q. split; try done; intros; apply preserves_ret.
  - repeat constructor.
  - intros t p r d data _ _ [H|H]; change (objs _) with (∅ : gmap str str) in H;
      by rewrite lookup_empty in H.
Defined.

Lemma token_expiry_bounds_witness :
  exists s' r, authed_get mirror_env hub "https://up/v2/b/c/manifests/latest" "b/c" None
      (mkSession (mkHubNet 0) client_new 0 []) = (s', r) /\
    (cl_poisoned (ss_client s') = true -> r = Err Unwound).
Proof.
  eexists _, _. split; [apply run_eval; reflexivity|]. intros Hp.
  destruct (token_expiry_bounds mirror_env hub "https://up/v2/b/c/manifests/latest" "b/c" None
    (mkSession (mkHubNet 0) client_new 0 []) _ _ (run_eval _ _ _ eq_refl)) as [_ H].
  destruct (H Hp) as [H'|H']; [discriminate H'|exact H'].
Defined.

Definition fetched : Mirrored HubNet Memory :=
  exec (fetch_manifest mirror_env hub_mirror "a" "b" "c" "latest") honest_state.

Definition after_fetch : Registry (Mirrored HubNet Memory) bool :=
  mkRegistry fetched db_empty (with_sink true true) ∅ [] [] [].

Lemma mirrored_tag_stays_witness :
  eval (local_manifest demo_lib demo_repo "latest") after_fetch = Ok (Some ("{}" : str)).
Proof.
  assert (Hrun : fetch_manifest mirror_env hub_mirror "a" "b" "c" "latest" honest_state
    = (fetched,
       Ok (mkMirrorFetchResult "{}" "application/vnd.oci.image.manifest.v1+json" (digest_of demo_lib "{}"))))
    by (unfold fetched; apply run_eval; vm_compute; reflexivity).
  refine (mirrored_tag_stays mirror_env no_faults hub_mirror demo_repo "latest" honest_state fetched _
    demo_wf (conj eq_refl eq_refl) eq_refl Hrun after_fetch (eq_refl (objects (m_store fetched))) _).
  vm_compute. reflexivity.
Defined.

Lemma challenge_round_trip_witness :
  parse_challenge (render_challenge "Bearer"
    [("Realm" : str, "https://auth.example/token" : str); ("scope" : str, "repository:a/b:pull,push" : str)])
  = Some (mkChallenge "bearer" (Some "https://auth.example/token") None (Some "repository:a/b:pull,push")).
Proof.
  etransitivity; [apply challenge_round_trip; done|]. reflexivity.
Defined.

(** Nothing compares what an upstream sends with the digest it was asked for: an
    upstream that answers a request for one blob with other bytes gets them
    stored and served under the digest asked for. *)
Theorem mirror_trusts_upstream :
  let d := ("sha256:" ++ replicate 64 "0"%char) : str in
  exists s', fetch_blob mirror_env hub_mirror "a" "b" "c" d (hub_state rogue_answer)
      = (s', Ok (mkMirrorFetchResult "{}" "application/octet-stream" d)) /\
    content_addressed demo_lib (objects (m_store (hub_state rogue_answer))) /\
    ~ content_addressed demo_lib (objects (m_store s')).
Proof.
  intros d. eexists. split; [apply run_eval; vm_compute; reflexivity|]. split.
  - intros t p r d' data _ _ [H|H]; change (objects _) with (∅ : gmap str str) in H;
      by rewrite lookup_empty in H.
  - intros Hca. assert (Hd : digest_of demo_lib "{}" = d); [|by vm_compute in Hd].
    apply (Hca "a" "b" "c" d); [done|by exists (replicate 64 "0"%char)|].
    left. vm_compute. reflexivity.
Qed.
