(* ===== verification/Replication.v ===== *)
(** * Multi-region replication and failover ([crates/specton-replication/src])

    The health checks of the other regions and the choice of a region to read
    from ([failover.rs]), and the loop that carries write events to every other
    region, each behind its own breaker and retries ([replicator.rs]).  The
    network is a parameter. *)

From S2P Require Import Prelude Text Effects Http Breaker Retry Store Paths Registry.

Local Open Scope Z_scope.

(** ** Regions ([region.rs]) *)

Record RegionConfig : Type := mkRegionConfig {
  rg_name : str;
  rg_endpoint : str;
  rg_internal_endpoint : str;
  rg_is_primary : bool;
  rg_priority : Z
}.

Inductive ReplicationMode : Type := Async | SemiSync.

Record ReplicationPolicy : Type := mkReplicationPolicy {
  pol_mode : ReplicationMode;
  pol_max_lag_secs : Z;
  pol_batch_size : Z;
  pol_sweep_interval_secs : Z
}.

Definition replication_policy_default : ReplicationPolicy := mkReplicationPolicy Async 60 50 10.

Record MultiRegionConfig : Type := mkMultiRegionConfig {
  mr_local_region : str;
  mr_regions : list RegionConfig;
  mr_replication : ReplicationPolicy
}.

(** ** Health ([failover.rs]) *)

Record RegionHealth : Type := mkRegionHealth {
  rh_region : str;
  rh_healthy : bool;
  rh_last_check : Z;
  rh_consecutive_failures : Z;
  rh_response_time_ms : option Z
}.

Record FailoverManager : Type := mkFailoverManager {
  fm_local_region : str;
  fm_regions : list RegionConfig;
  fm_failure_threshold : Z
}.

(** [health_status], and the transition counter's labels in order. *)
Record HealthState : Type := mkHealthState {
  hs_status : gmap str RegionHealth;
  hs_transitions : list (str * str)
}.

Definition failover_new (local_region : str) (regions : list RegionConfig) (now : Z) :
    FailoverManager * HealthState :=
  (mkFailoverManager local_region regions 3,
   mkHealthState
     (fold_left (fun m r => <[rg_name r := mkRegionHealth (rg_name r) true now 0 None]> m) regions ∅)
     []).

(** What one request to [/health] came to, with its duration in milliseconds. *)
Inductive Probe : Type :=
| Answered (status : Z) (elapsed_ms : Z)
| Unreachable.

Definition probe_ok (p : Probe) : bool :=
  match p with
  | Answered status _ => is_success status
  | Unreachable => false
  end.

(** [consecutive_failures += 1] on a [u32], without overflow checks. *)
Definition u32_succ (n : Z) : Z := (n + 1) mod 2 ^ 32.

Definition failed_probe (fm : FailoverManager) (rt : option Z) (now : Z) (h : RegionHealth) :
    RegionHealth * list (str * str) :=
  let failures := u32_succ (rh_consecutive_failures h) in
  if fm_failure_threshold fm <=? failures
  then (mkRegionHealth (rh_region h) false now failures rt,
        if rh_healthy h then [(rh_region h, "unhealthy" : str)] else [])
  else (mkRegionHealth (rh_region h) (rh_healthy h) now failures rt, []).

Definition apply_probe (fm : FailoverManager) (p : Probe) (now : Z) (h : RegionHealth) :
    RegionHealth * list (str * str) :=
  match p with
  | Answered status elapsed_ms =>
      let rt := Some (elapsed_ms mod 2 ^ 64) in
      if is_success status
      then (mkRegionHealth (rh_region h) true now 0 rt,
            if rh_healthy h then [] else [(rh_region h, "healthy" : str)])
      else failed_probe fm rt now h
  | Unreachable => failed_probe fm None now h
  end.

(** The body of the inner loop for one region. *)
Definition check_region (fm : FailoverManager) (region : RegionConfig) (p : Probe) (now : Z)
    (s : HealthState) : HealthState :=
  if str_eqb (rg_name region) (fm_local_region fm) then s
  else
    let h := default (mkRegionHealth (rg_name region) true now 0 None) (hs_status s !! rg_name region) in
    let '(h', t) := apply_probe fm p now h in
    mkHealthState (<[rg_name region := h']> (hs_status s)) (hs_transitions s ++ t).

(** One turn of the endless loop: [probes] are the outcomes in the order of the
    regions, at the time [now]. *)
Fixpoint check_regions (fm : FailoverManager) (regions : list RegionConfig) (probes : list (Probe * Z))
    (s : HealthState) : HealthState :=
  match regions, probes with
  | r :: regions', (p, now) :: probes' =>
      check_regions fm regions' probes' (check_region fm r p now s)
  | _, _ => s
  end.

Definition health_rounds (fm : FailoverManager) (rounds : list (list (Probe * Z))) (s : HealthState) :
    HealthState :=
  fold_left (fun s probes => check_regions fm (fm_regions fm) probes s) rounds s.

(** [sort_by_key(|r| r.priority)]: the sort is stable. *)
Fixpoint insert_region (r : RegionConfig) (l : list RegionConfig) : list RegionConfig :=
  match l with
  | [] => [r]
  | x :: l' => if rg_priority r <=? rg_priority x then r :: l else x :: insert_region r l'
  end.

Definition sort_by_priority (l : list RegionConfig) : list RegionConfig := fold_right insert_region [] l.

Definition region_candidate (fm : FailoverManager) (s : HealthState) (r : RegionConfig) : bool :=
  negb (str_eqb (rg_name r) (fm_local_region fm))
  && match hs_status s !! rg_name r with
     | Some h => rh_healthy h
     | None => false
     end.

Definition next_healthy_region (fm : FailoverManager) (s : HealthState) : option RegionConfig :=
  hd_error (sort_by_priority (List.filter (region_candidate fm s) (fm_regions fm))).

Definition primary_region (fm : FailoverManager) : option RegionConfig :=
  List.find rg_is_primary (fm_regions fm).

Definition is_local_primary (fm : FailoverManager) : bool :=
  existsb (fun r => str_eqb (rg_name r) (fm_local_region fm) && rg_is_primary r) (fm_regions fm).

Record ProxyResponse : Type := mkProxyResponse {
  px_status : Z;
  px_headers : list (str * str);
  px_body : str;
  px_source_region : str
}.

Inductive FailoverError : Type :=
| NoHealthyRegions
| ProxyFailed (e : str).

Definition proxy_get {N} `{Http N} (fm : FailoverManager) (s : HealthState) (path : str)
    (auth_header : option str) : M N FailoverError ProxyResponse :=
  match next_healthy_region fm s with
  | None => throw NoHealthyRegions
  | Some region =>
      let! resp := rethrow ProxyFailed
        (http_send (mkHttpRequest (rg_endpoint region ++ path) [] None (RawAuth <$> auth_header))) in
      let headers := List.filter (fun kv => visible_header (snd kv)) (rs_headers resp) in
      let! body := lift (map_err ProxyFailed (rs_bytes resp)) in
      ret (mkProxyResponse (rs_status resp) headers body (rg_name region))
  end.

(** The manager as the registry's handlers see it. *)
Definition failover_service {N} `{Http N} (fm : FailoverManager) (s : HealthState) (n : N) :
    bool * (str -> option (Z * str)) :=
  (is_local_primary fm,
   fun path => match eval (proxy_get fm s path None) n with
               | Ok r => Some (px_status r, px_body r)
               | Err _ => None
               end).

(** ** Events ([event.rs]) and the replicator ([replicator.rs]) *)

Inductive ReplicationError : Type :=
| ReplStorage (e : str)
| Network (e : str)
| Serialization (e : str)
| RemoteRejected (status : Z) (body : str)
| ReplBreakerOpen (region : str).

(** Library functions, the clocks and the random numbers: [mono n] is the [n]-th
    reading, [random e k hi] the jitter of the [k]-th retry of the [e]-th call. *)
Record ReplLib : Type := mkReplLib {
  rl : Libraries;
  event_to_vec : ReplicationEvent -> result str str;
  format_millis : Z -> str;
  repl_clock : nat -> Z;
  repl_random : nat -> nat -> Z -> Z
}.

Definition replication_breaker : CircuitBreakerConfig := mkBreakerConfig 3 2 30.
Definition replication_retry : RetryPolicy := mkRetryPolicy 3 500 10000 true.

Record Repl (N W : Type) : Type := mkRepl {
  rp_store : W;
  rp_net : N;
  rp_breakers : list Breaker;
  rp_readings : nat;
  rp_retries : list RetryTrace;
  rp_outcomes : list (str * str * str)
}.
Arguments mkRepl {N W}.
Arguments rp_store {N W}.
Arguments rp_net {N W}.
Arguments rp_breakers {N W}.
Arguments rp_readings {N W}.
Arguments rp_retries {N W}.
Arguments rp_outcomes {N W}.

(** [Replicator::new]: every region but the local one. *)
Definition remote_regions (config : MultiRegionConfig) : list RegionConfig :=
  List.filter (fun r => negb (str_eqb (rg_name r) (mr_local_region config))) (mr_regions config).

Section replicator.
Context {N W : Type} `{HttpPost N} `{ObjectStore W} (env : ReplLib).

Definition repl_new (config : MultiRegionConfig) (w : W) (n : N) : Repl N W :=
  mkRepl w n (map (fun _ => breaker_new) (remote_regions config)) 0 [] [].

Definition on_repl {E X} (m : M W E X) : M (Repl N W) E X :=
  fun s => let '(w, r) := m (rp_store s) in
           (mkRepl w (rp_net s) (rp_breakers s) (rp_readings s) (rp_retries s) (rp_outcomes s), r).

(** [event.storage_path()] *)
Definition event_path (e : ReplicationEvent) : str :=
  "_replication/events/" ++ format_millis env (re_timestamp e) ++ "-" ++ re_id e ++ ".json".

Definition persist_event (e : ReplicationEvent) : M (Repl N W) ReplicationError unit :=
  let! data := lift (map_err Serialization (event_to_vec env e)) in
  rethrow (fun x => ReplStorage (store_display (rl env) x))
    (on_repl (os_put (store_path (rl env) (event_path e)) data)).

(** One attempt: the closure the retry policy runs. *)
Definition post_once (rq : result PostRequest ReplicationError) : M N ReplicationError unit :=
  let! rq := lift rq in
  let! resp := rethrow Network (http_post rq) in
  if negb (is_success (rs_status resp))
  then throw (RemoteRejected (rs_status resp) (or_empty (rs_text resp)))
  else ret tt.

Definition outcome_of (r : result unit ReplicationError) : str :=
  match r with
  | Ok _ => "success"
  | Err (ReplBreakerOpen _) => "breaker_open"
  | Err (RemoteRejected _ _) => "remote_rejected"
  | Err _ => "error"
  end.

(** The breaker of region [idx] around the retries around the post, and the
    outcome metric. *)
Definition deliver (idx : nat) (remote : RegionConfig) (kind : str)
    (rq : result PostRequest ReplicationError) : M (Repl N W) ReplicationError unit :=
  fun s =>
    let n := rp_readings s in
    let clk := (repl_clock env n, repl_clock env (n + 1), repl_clock env (n + 2)) in
    let request := fun (nt : N * list RetryTrace) =>
      let '(net, r, tr) :=
        execute_labeled (repl_random env (length (snd nt))) replication_retry (post_once rq) (fst nt) in
      ((net, snd nt ++ [tr]), r) in
    let b := default breaker_new (rp_breakers s !! idx) in
    let '((b, (net, trs)), result) := call replication_breaker clk request (b, (rp_net s, rp_retries s)) in
    let mapped := map_err (fun e => match e with
                                    | BreakerOpen => ReplBreakerOpen (rg_name remote)
                                    | Inner e => e
                                    end) result in
    (mkRepl (rp_store s) net (<[idx := b]> (rp_breakers s)) (n + 3) trs
       (rp_outcomes s ++ [(rg_name remote, kind, outcome_of mapped)]), mapped).

Definition read_local (path : str) : M (Repl N W) ReplicationError str :=
  rethrow (fun x => ReplStorage (store_display (rl env) x)) (on_repl (os_get (store_path (rl env) path))).

Definition replicate_manifest (idx : nat) (remote : RegionConfig) (e : ReplicationEvent) :
    M (Repl N W) ReplicationError unit :=
  let! data := read_local (manifest_path (re_tenant e) (re_project e) (re_repo e) (re_digest e)) in
  deliver idx remote "manifest"
    (Ok (mkPostRequest (rg_internal_endpoint remote ++ "/internal/replicate/manifest")
           [("X-Replication-Event-ID" : str, re_id e); ("X-Replication-Tenant" : str, re_tenant e);
            ("X-Replication-Project" : str, re_project e); ("X-Replication-Repo" : str, re_repo e);
            ("X-Replication-Reference" : str, re_reference e); ("X-Replication-Digest" : str, re_digest e);
            ("X-Replication-Source-Region" : str, re_region e)] data)).

Definition replicate_blob (idx : nat) (remote : RegionConfig) (e : ReplicationEvent) :
    M (Repl N W) ReplicationError unit :=
  let! data := read_local (blob_path (re_tenant e) (re_project e) (re_repo e) (re_digest e)) in
  deliver idx remote "blob"
    (Ok (mkPostRequest (rg_internal_endpoint remote ++ "/internal/replicate/blob")
           [("X-Replication-Event-ID" : str, re_id e); ("X-Replication-Tenant" : str, re_tenant e);
            ("X-Replication-Project" : str, re_project e); ("X-Replication-Repo" : str, re_repo e);
            ("X-Replication-Digest" : str, re_digest e);
            ("X-Replication-Source-Region" : str, re_region e)] data)).

(** The event is serialized anew in each attempt. *)
Definition replicate_delete (idx : nat) (remote : RegionConfig) (e : ReplicationEvent) :
    M (Repl N W) ReplicationError unit :=
  deliver idx remote "delete"
    (match event_to_vec env e with
     | Ok body => Ok (mkPostRequest (rg_internal_endpoint remote ++ "/internal/replicate/delete")
                        [("content-type" : str, "application/json" : str)] body)
     | Err d => Err (Serialization d)
     end).

Definition replicate_to_region (idx : nat) (remote : RegionConfig) (e : ReplicationEvent) :
    M (Repl N W) ReplicationError unit :=
  match re_type e with
  | ManifestPush => replicate_manifest idx remote e
  | BlobPush => replicate_blob idx remote e
  | ManifestDelete => replicate_delete idx remote e
  end.

Fixpoint replicate_to_regions (idx : nat) (remotes : list RegionConfig) (e : ReplicationEvent) :
    M (Repl N W) ReplicationError unit :=
  match remotes with
  | [] => ret tt
  | r :: remotes' =>
      let! _ := attempt (replicate_to_region idx r e) in
      replicate_to_regions (S idx) remotes' e
  end.

(** The body of the loop over received events. *)
Definition process_event (remotes : list RegionConfig) (e : ReplicationEvent) :
    M (Repl N W) ReplicationError unit :=
  let! _ := attempt (persist_event e) in
  replicate_to_regions 0 remotes e.

(** The loop, over the events the channel delivers until it is closed. *)
Definition replication_run (remotes : list RegionConfig) (events : list ReplicationEvent) :
    M (Repl N W) ReplicationError unit :=
  for_each events (process_event remotes).
End replicator.
