(* ===== verification/ReplicationProofs.v ===== *)
(** * Lemmas about replication

    A remote region as a network: its registry behind a connection that may
    lose requests and responses.  What one delivery does to the objects of the
    remote registry, and what the health checks count. *)

From S2P Require Import Prelude Json Text Orders Effects Http Breaker Retry Store Multipart Paths AuditLog RegistryAudit.
From S2P Require Import Auth Utf8 Registry RegistryProofs RegistryFlows Replication.

Local Open Scope Z_scope.

(** ** Remote registries behind a network *)

Inductive NetFault : Type :=
| Delivered
| NotSent        (** the request does not arrive *)
| ResponseLost.  (** the request is served, the response is lost *)

Record Region (W A : Type) : Type := mkRegion {
  rn_world : Registry W A;
  rn_faults : list NetFault
}.
Arguments mkRegion {W A}.
Arguments rn_world {W A}.
Arguments rn_faults {W A}.

(** The other regions by their internal endpoint. *)
Abbreviation Cluster W A := (gmap str (Region W A)).

(** Headers as the server reads them. *)
Definition received_headers (hs : list (str * str)) : gmap str str :=
  fold_right (fun kv m => if visible_header (snd kv) then <[to_ascii_lowercase (fst kv) := snd kv]> m else m)
    ∅ hs.

Inductive Route : Type := RouteManifest | RouteBlob | RouteDelete.

Definition route_path (r : Route) : str :=
  match r with
  | RouteManifest => "/internal/replicate/manifest"
  | RouteBlob => "/internal/replicate/blob"
  | RouteDelete => "/internal/replicate/delete"
  end.

(** The endpoint and the route of a URL. *)
Definition route_of (url : str) : option (str * Route) :=
  match strip_suffix (route_path RouteManifest) url, strip_suffix (route_path RouteBlob) url,
        strip_suffix (route_path RouteDelete) url with
  | Some ep, _, _ => Some (ep, RouteManifest)
  | _, Some ep, _ => Some (ep, RouteBlob)
  | _, _, Some ep => Some (ep, RouteDelete)
  | _, _, _ => None
  end.

Lemma route_of_path ep r : route_of (ep ++ route_path r) = Some (ep, r).
Proof.
  unfold route_of, strip_suffix. rewrite rev_app_distr.
  destruct r;
    [exact (f_equal (fun e => Some (e, RouteManifest)) (rev_involutive ep))
    |exact (f_equal (fun e => Some (e, RouteBlob)) (rev_involutive ep))
    |exact (f_equal (fun e => Some (e, RouteDelete)) (rev_involutive ep))].
Qed.

Section region.
Context {W A : Type} `{!ObjectStore W, !AuditSink A} (lib : Libraries) (state : AppState W A)
  (rq : Request) (from_slice : str -> result ReplicationEvent str).

Definition region_serve (route : Route) (p : PostRequest) : M (Registry W A) failure Response :=
  match route with
  | RouteManifest => internal_replicate_manifest lib rq (received_headers (post_headers p)) (post_body p)
  | RouteBlob => internal_replicate_blob lib state (received_headers (post_headers p)) (post_body p)
  | RouteDelete => internal_replicate_delete lib (from_slice (post_body p))
  end.

Definition region_answer (r : result Response failure) : result HttpResponse str :=
  match r with
  | Ok resp => Ok (mkHttpResponse (resp_status resp) [] (Ok []) (Some []))
  | Err (Fail _) => Ok (mkHttpResponse 500 [] (Ok []) (Some []))
  | Err Panic => Err "connection closed"
  end.

Definition region_post (route : Route) (p : PostRequest) : M (Region W A) str HttpResponse :=
  fun s =>
    match rn_faults s with
    | NotSent :: fs => (mkRegion (rn_world s) fs, Err "connection refused")
    | ResponseLost :: fs => (mkRegion (exec (region_serve route p) (rn_world s)) fs, Err "timed out")
    | fs => let '(w, r) := region_serve route p (rn_world s) in (mkRegion w (tail fs), region_answer r)
    end.

Definition cluster_post (p : PostRequest) : M (Cluster W A) str HttpResponse :=
  fun c =>
    match route_of (post_url p) with
    | None => (c, Err "no such route")
    | Some (ep, route) =>
        match c !! ep with
        | None => (c, Err "no such host")
        | Some reg => let '(reg, r) := region_post route p reg in (<[ep := reg]> c, r)
        end
    end.

Definition cluster_net : HttpPost (Cluster W A) := {| http_post := cluster_post |}.

(** A post to a region: it was not served, or it was, and a success was its answer. *)
Lemma post_once_inv (ep : str) (route : Route) (hs : list (str * str)) (body : str)
    (c c' : Cluster W A) (reg : Region W A) (r : result unit ReplicationError) :
  c !! ep = Some reg ->
  @post_once (Cluster W A) cluster_net (Ok (mkPostRequest (ep ++ route_path route) hs body)) c = (c', r) ->
  exists w fs, c' = <[ep := mkRegion w fs]> c /\
    ((w = rn_world reg /\ is_ok r = false) \/
     exists x, region_serve route (mkPostRequest (ep ++ route_path route) hs body) (rn_world reg) = (w, x) /\
       (is_ok r = true -> is_ok x = true)).
Proof.
  intros Hc Hr. unfold post_once in Hr. apply bind_step in Hr as [(c0 & rq0 & [= <- <-] & Hr)|(e & [=] & _)].
  set (p := mkPostRequest (ep ++ route_path route) hs body) in *.
  assert (Hpost : exists x, cluster_post p c = (c', x) /\
    (is_ok r = true -> exists resp, x = Ok resp /\ is_success (rs_status resp) = true)).
  { apply bind_step in Hr as [(c1 & resp & Hp%rethrow_ok & Hr)|(e & (x & Hp & He)%rethrow_inv & ->)].
    - destruct (is_success (rs_status resp)) eqn:Hs; injection Hr as <- <-; exists (Ok resp); [eauto|].
      split; [done|]. done.
    - exists x. split; [done|]. done. }
  destruct Hpost as (x & Hp & Hok). unfold cluster_post in Hp. cbn [post_url p] in Hp.
  rewrite route_of_path, Hc in Hp. unfold region_post in Hp.
  assert (Hserved : forall fs, (let '(reg0, r0) := (let '(w, y) := region_serve route p (rn_world reg) in
      (mkRegion w (tail fs), region_answer y)) in (<[ep := reg0]> c, r0)) = (c', x) ->
    exists w fs, c' = <[ep := mkRegion w fs]> c /\
    ((w = rn_world reg /\ is_ok r = false) \/
     exists x, region_serve route p (rn_world reg) = (w, x) /\ (is_ok r = true -> is_ok x = true))).
  { intros fs. destruct (region_serve route p (rn_world reg)) as [w y]. intros [= <- <-].
    exists w, (tail fs). split; [done|]. right. exists y. split; [done|]. intros Hr'.
    destruct (Hok Hr') as (resp & Hx & Hs). destruct y as [|[e|]]; cbn in Hx; [done| |done].
    injection Hx as <-. done. }
  destruct (rn_faults reg) as [|[] fs]; [by apply (Hserved [])|by apply (Hserved (Delivered :: fs))|..].
  - injection Hp as <- <-. exists (rn_world reg), fs. split; [done|]. left. split; [done|].
    destruct r; [|done]. destruct Hok as (resp & [=] & _); done.
  - injection Hp as <- <-. unfold exec. destruct (region_serve route p (rn_world reg)) as [w y] eqn:E.
    exists w, fs. split; [done|]. right. exists y. split; [done|]. intros Hr'.
    destruct (Hok Hr') as (resp & [=] & _).
Qed.
End region.

(** ** One delivery *)

Section deliver.
Context {N W : Type} `{!HttpPost N, !ObjectStore W} (env : ReplLib).

(** A delivery touches neither the local store nor another breaker; it was
    rejected by the breaker, or decided by an attempt that started in a state
    failed attempts lead to. *)
Lemma deliver_inv (P : N -> Prop) idx remote kind rq (s s' : Repl N W) r :
  deliver env idx remote kind rq s = (s', r) ->
  P (rp_net s) -> (forall v v' e, P v -> post_once rq v = (v', Err e) -> P v') ->
  rp_store s' = rp_store s /\
  ((rp_net s' = rp_net s /\ r = Err (ReplBreakerOpen (rg_name remote))) \/
   exists v, P v /\ post_once rq v = (rp_net s', r)).
Proof.
  intros Hr Hp Hstep. unfold deliver, call, call_classified in Hr.
  destruct (check_allowed _ _ _) as [b allowed]. destruct allowed; cbn [negb] in Hr.
  2: { injection Hr as <- <-. split; [done|]. by left. }
  unfold execute_labeled in Hr. cbn [fst snd] in Hr.
  destruct (retry_loop _ _ _ _ _ _) as [[net x] tr] eqn:Hl. injection Hr as <- <-. split; [done|]. right.
  apply (retry_last _ _ _ P) in Hl as (v & Hv & Hf); [|done|done]. exists v. split; [done|].
  cbn [rp_net]. rewrite Hf. by destruct x.
Qed.
End deliver.

(** ** What the remote registry does with a request *)

Lemma received_lookup hs k v :
  received_headers hs !! k = Some v -> exists k0, (k0, v) ∈ hs /\ to_ascii_lowercase k0 = k.
Proof.
  induction hs as [|[k0 v0] hs IH]; cbn; [by rewrite lookup_empty|]. case_match.
  - intros [[<- <-]|[_ Hl]]%lookup_insert_Some; [exists k0; set_solver|].
    apply IH in Hl as (k1 & Hin & Hk). exists k1. set_solver.
  - intros (k1 & Hin & Hk)%IH. exists k1. set_solver.
Qed.

Section effects.
Context {W A : Type} `{!ObjectStore W, !ObjectStoreLaws W, !AuditSink A} (lib : Libraries)
  `{!LibraryLaws lib} (state : AppState W A) (rq : Request).

Abbreviation World := (Registry W A).

Lemma extract_inv h k (s s1 : World) v :
  lift (extract_header h k) s = (s1, Ok v) -> s1 = s /\ h !! k = Some v.
Proof. unfold lift, extract_header, ok_or. destruct (h !! k); intros [= <- ?]; by simplify_eq. Qed.

Lemma put_steps k d (s s1 : World) r :
  stored lib (os_put k d) s = (s1, r) ->
  (objs s1 = <[k := d]> (objs s)) \/ (objs s1 = objs s /\ is_ok r = false).
Proof.
  intros (x & Hx & ->)%rethrow_inv. apply in_store_inv in Hx as (w & Hw & ->).
  destruct x as [[]|e]; [left; by apply put_ok|]. destruct (put_err _ _ _ _ _ Hw) as [->|]; auto.
Qed.

(** What a manifest push leaves: the manifest, then the tag link. *)
Definition manifest_stored (t p n reference digest data : str) (tagged : bool) (o : gmap str str) : gmap str str :=
  let o := <[store_path lib (manifest_path t p n digest) := data]> o in
  if tagged && negb (starts_with "sha256:" reference)
  then <[store_path lib (tag_link_path t p n reference) := digest]> o else o.

Lemma manifest_effect h t p n reference digest data (s s' : World) r :
  (forall v, h !! ("x-replication-tenant" : str) = Some v -> v = t) ->
  (forall v, h !! ("x-replication-project" : str) = Some v -> v = p) ->
  (forall v, h !! ("x-replication-repo" : str) = Some v -> v = n) ->
  (forall v, h !! ("x-replication-reference" : str) = Some v -> v = reference) ->
  (forall v, h !! ("x-replication-digest" : str) = Some v -> v = digest) ->
  internal_replicate_manifest lib rq h data s = (s', r) ->
  objs s' = manifest_stored t p n reference digest data true (objs s) \/
  (is_ok r = false /\
   (objs s' = objs s \/ objs s' = manifest_stored t p n reference digest data false (objs s))).
Proof.
  intros Ht Hp Hn Hre Hd Hr. unfold internal_replicate_manifest in Hr.
  apply bind_step in Hr as [(s1 & t' & [-> ->%Ht]%extract_inv & Hr)|(e & [= <- _] & ->)]; [|by right; auto].
  apply bind_step in Hr as [(s1 & p' & [-> ->%Hp]%extract_inv & Hr)|(e & [= <- _] & ->)]; [|by right; auto].
  apply bind_step in Hr as [(s1 & n' & [-> ->%Hn]%extract_inv & Hr)|(e & [= <- _] & ->)]; [|by right; auto].
  apply bind_step in Hr as [(s1 & r' & [-> ->%Hre]%extract_inv & Hr)|(e & [= <- _] & ->)]; [|by right; auto].
  apply bind_step in Hr as [(s1 & d' & [-> ->%Hd]%extract_inv & Hr)|(e & [= <- _] & ->)]; [|by right; auto].
  unfold manifest_stored. cbn [andb].
  apply bind_step in Hr as [(s1 & u & H1%put_steps & Hr)|(e & H1%put_steps & ->)];
    [|right; destruct H1 as [?|[? _]]; auto].
  destruct H1 as [H1|[_ [=]]].
  apply bind_step in Hr as [(s2 & u2 & H2 & Hr)|(e & H2 & ->)].
  - assert (Ho : objs s' = objs s2) by (revert Hr; apply keeps_objs; intros Q; keep_pure).
    left. destruct (starts_with "sha256:" reference); cbn [negb] in *; [injection H2 as <- <-; congruence|].
    apply put_steps in H2 as [H2|[_ [=]]]. congruence.
  - destruct (starts_with "sha256:" reference); cbn [negb] in *; [done|].
    apply put_steps in H2 as [H2|[H2 _]]; [left; congruence|right]. split; [done|]. right. congruence.
Qed.

Lemma blob_effect h t p n digest data (s s' : World) r :
  (forall v, h !! ("x-replication-tenant" : str) = Some v -> v = t) ->
  (forall v, h !! ("x-replication-project" : str) = Some v -> v = p) ->
  (forall v, h !! ("x-replication-repo" : str) = Some v -> v = n) ->
  (forall v, h !! ("x-replication-digest" : str) = Some v -> v = digest) ->
  internal_replicate_blob lib state h data s = (s', r) ->
  objs s' = <[store_path lib (blob_path t p n digest) := data]> (objs s) \/
  (is_ok r = false /\ objs s' = objs s).
Proof.
  intros Ht Hp Hn Hd Hr. unfold internal_replicate_blob in Hr.
  apply bind_step in Hr as [(s1 & t' & [-> ->%Ht]%extract_inv & Hr)|(e & [= <- _] & ->)]; [|by right].
  apply bind_step in Hr as [(s1 & p' & [-> ->%Hp]%extract_inv & Hr)|(e & [= <- _] & ->)]; [|by right].
  apply bind_step in Hr as [(s1 & n' & [-> ->%Hn]%extract_inv & Hr)|(e & [= <- _] & ->)]; [|by right].
  apply bind_step in Hr as [(s1 & d' & [-> ->%Hd]%extract_inv & Hr)|(e & [= <- _] & ->)]; [|by right].
  apply bind_step in Hr as [(s1 & u & H1 & Hr)|(e & H1 & ->)].
  - injection Hr as <- _. left. by apply stored_put_chunked_ok in H1.
  - apply rethrow_inv in H1 as (x & Hx & He). destruct x; [done|].
    apply in_store_inv in Hx as (w & Hw & Ho). rewrite Ho.
    apply put_chunked_spec in Hw; [|apply part_order_perm]. destruct Hw as [-> | ->]; auto.
Qed.
End effects.
