(* ===== verification/ReplicationTheorems.v ===== *)
(** * What replication and failover guarantee

    When a region counts as healthy and which one is read from, what a
    successful delivery has done to the remote registry, and that replication
    keeps the remote registries content-addressed under every fault. *)

From S2P Require Import Prelude Json Text Orders Effects Http Breaker Retry Store Multipart Paths AuditLog RegistryAudit.
From S2P Require Import Gc Auth Utf8 Registry RegistryProofs RegistryFlows RegistryTheorems Replication ReplicationProofs.

Local Open Scope Z_scope.

(** ** Health *)

(** The probes a region failed since the last one it passed. *)
Definition trailing_failures (ps : list Probe) : Z :=
  fold_left (fun n p => if probe_ok p then 0 else n + 1) ps 0.

(** The probes of one round as they are made, by region name. *)
Definition round_probes (fm : FailoverManager) (probes : list (Probe * Z)) : list (str * (Probe * Z)) :=
  zip (map rg_name (fm_regions fm)) probes.

(** The probes of region [r] in a history of rounds. *)
Definition probes_of (fm : FailoverManager) (r : str) (rounds : list (list (Probe * Z))) : list Probe :=
  omap (fun np => if str_eqb (fst np) r then Some (fst (snd np)) else None)
    (concat (map (round_probes fm) rounds)).

Section health.
Context (fm : FailoverManager) (Hthreshold : fm_failure_threshold fm = 3).

(** A region's record after the probes [ps]. *)
Definition health_after (ps : list Probe) (h : RegionHealth) : Prop :=
  rh_healthy h = (trailing_failures ps <? 3) /\
  rh_consecutive_failures h = trailing_failures ps mod 2 ^ 32.

Lemma trailing_snoc ps p :
  trailing_failures (ps ++ [p]) = if probe_ok p then 0 else trailing_failures ps + 1.
Proof. unfold trailing_failures. by rewrite fold_left_app. Qed.

Lemma trailing_nonneg ps : 0 <= trailing_failures ps.
Proof.
  induction ps as [|p ps IH] using rev_ind; [done|]. rewrite trailing_snoc. case_match; lia.
Qed.

Lemma failed_probe_after ps p rt now h :
  probe_ok p = false -> health_after ps h -> health_after (ps ++ [p]) (fst (failed_probe fm rt now h)).
Proof.
  intros Hp [Hh Hc]. unfold health_after, failed_probe. rewrite trailing_snoc, Hp, Hthreshold, Hc.
  pose proof (trailing_nonneg ps) as H0. set (n := trailing_failures ps) in *.
  assert (Hm : u32_succ (n mod 2 ^ 32) = (n + 1) mod 2 ^ 32).
  { unfold u32_succ. by rewrite Zplus_mod_idemp_l. }
  rewrite Hm. destruct (3 <=? (n + 1) mod 2 ^ 32) eqn:Hle; cbn.
  - split; [|done]. symmetry. apply Z.ltb_ge. apply Z.leb_le in Hle.
    assert ((n + 1) mod 2 ^ 32 <= n + 1) by (apply Z.mod_le; lia). lia.
  - split; [|done]. rewrite Hh. apply Z.leb_gt in Hle.
    destruct (decide (n + 1 < 2 ^ 32)) as [Hlt|Hge].
    + rewrite Z.mod_small in Hle by lia. destruct (n <? 3) eqn:H1, (n + 1 <? 3) eqn:H2; try done; lia.
    + destruct (n <? 3) eqn:H1, (n + 1 <? 3) eqn:H2; try done; lia.
Qed.

Lemma apply_probe_after ps p now h :
  health_after ps h -> health_after (ps ++ [p]) (fst (apply_probe fm p now h)).
Proof.
  intros Hh. destruct p as [status ms|]; cbn; [|by apply failed_probe_after].
  destruct (is_success status) eqn:Hs; [|by apply failed_probe_after].
  unfold health_after. rewrite trailing_snoc. cbn. by rewrite Hs.
Qed.

(** The steps of the loop, flattened. *)
Definition probe_step (s : HealthState) (np : RegionConfig * (Probe * Z)) : HealthState :=
  check_region fm (fst np) (fst (snd np)) (snd (snd np)) s.

Lemma check_regions_fold regions probes s :
  check_regions fm regions probes s = fold_left probe_step (zip regions probes) s.
Proof.
  revert probes s. induction regions as [|r regions IH]; intros [|[p now] probes] s; cbn; try done.
Qed.

Lemma probe_steps r l s ps :
  r <> fm_local_region fm ->
  (exists h, hs_status s !! r = Some h /\ health_after ps h) ->
  exists h, hs_status (fold_left probe_step l s) !! r = Some h /\
    health_after (ps ++ omap (fun np => if str_eqb (fst np) r then Some (fst (snd np)) else None)
                          (map (fun rp => (rg_name (fst rp), snd rp)) l)) h.
Proof.
  intros Hr. revert s ps. induction l as [|[reg [p now]] l IH]; intros s ps Hs; cbn.
  { by rewrite app_nil_r. }
  assert (Hstep : exists h, hs_status (probe_step s (reg, (p, now))) !! r = Some h /\
            health_after (if str_eqb (rg_name reg) r then ps ++ [p] else ps) h).
  { destruct Hs as (h & Hl & Hh). unfold probe_step, check_region. cbn [fst snd].
    destruct (str_eqb_spec (rg_name reg) r) as [->|Hne].
    - destruct (str_eqb_spec r (fm_local_region fm)) as [|_]; [done|]. rewrite Hl. cbn [from_option Datatypes.id].
      pose proof (apply_probe_after ps p now h Hh) as Ha. destruct (apply_probe fm p now h) as [h' t].
      cbn [hs_status]. rewrite lookup_insert_eq. eauto.
    - destruct (str_eqb (rg_name reg) (fm_local_region fm)); [eauto|].
      destruct (apply_probe _ _ _ _) as [h' t]. cbn. rewrite lookup_insert_ne by done. eauto. }
  apply IH in Hstep as (h & Hl & Hh). exists h. split; [done|].
  destruct (str_eqb (rg_name reg) r); [by rewrite <- app_assoc in Hh|done].
Qed.

Lemma zip_map_names (regions : list RegionConfig) (probes : list (Probe * Z)) :
  map (fun rp => (rg_name (fst rp), snd rp)) (zip regions probes) = zip (map rg_name regions) probes.
Proof. revert probes. induction regions as [|r l IH]; intros [|p ps]; cbn; try done. by rewrite IH. Qed.

Lemma rounds_health r rounds s ps :
  r <> fm_local_region fm ->
  (exists h, hs_status s !! r = Some h /\ health_after ps h) ->
  exists h, hs_status (health_rounds fm rounds s) !! r = Some h /\
    health_after (ps ++ probes_of fm r rounds) h.
Proof.
  intros Hr. revert s ps. induction rounds as [|probes rounds IH]; intros s ps Hs; cbn.
  { unfold probes_of. cbn. by rewrite app_nil_r. }
  assert (Hround : exists h, hs_status (check_regions fm (fm_regions fm) probes s) !! r = Some h /\
    health_after (ps ++ omap (fun np => if str_eqb (fst np) r then Some (fst (snd np)) else None)
                          (round_probes fm probes)) h).
  { rewrite check_regions_fold. apply (probe_steps r (zip (fm_regions fm) probes)) in Hs; [|done].
    by rewrite zip_map_names in Hs. }
  apply IH in Hround as (h & Hl & Hh). exists h. split; [done|].
  unfold probes_of in *. cbn. by rewrite omap_app, app_assoc.
Qed.
End health.

Lemma failover_new_fresh local regions now r reg :
  reg ∈ regions -> rg_name reg = r ->
  exists h, hs_status (snd (failover_new local regions now)) !! r = Some h /\ health_after [] h.
Proof.
  intros Hin Hname. cbn.
  assert (Hgen : forall l (m : gmap str RegionHealth),
    (exists h, m !! r = Some h /\ health_after [] h) \/ Exists (fun x => rg_name x = r) l ->
    exists h, fold_left (fun m r => <[rg_name r := mkRegionHealth (rg_name r) true now 0 None]> m) l m !! r
              = Some h /\ health_after [] h).
  { clear. induction l as [|x l IH]; intros m [Hm|Hx]; cbn [fold_left]; [done|by inversion Hx|..]; apply IH.
    - left. destruct (decide (rg_name x = r)) as [->|Hne]; [eexists; by rewrite lookup_insert_eq|].
      destruct Hm as (h & Hl & Hh). exists h. by rewrite lookup_insert_ne.
    - inversion Hx as [? ? Hr|]; subst; [left; eexists; by rewrite lookup_insert_eq|by right]. }
  apply Hgen. right. apply Exists_exists. eauto.
Qed.

(** ** The choice of a region *)

Lemma insert_region_perm r l : Permutation (insert_region r l) (r :: l).
Proof.
  induction l as [|x l IH]; cbn; [done|]. case_match; [done|]. rewrite IH. by constructor.
Qed.

Lemma sort_by_priority_perm l : Permutation (sort_by_priority l) l.
Proof. induction l as [|r l IH]; cbn; [done|]. by rewrite insert_region_perm, IH. Qed.

(** The head of the sorted list comes first among those of least priority. *)
Lemma sort_by_priority_head l r :
  hd_error (sort_by_priority l) = Some r ->
  exists before after, l = before ++ r :: after /\
    Forall (fun x => rg_priority r < rg_priority x) before /\
    Forall (fun x => rg_priority r <= rg_priority x) after.
Proof.
  revert r. induction l as [|x l IH]; intros r; [done|].
  change (sort_by_priority (x :: l)) with (insert_region x (sort_by_priority l)).
  destruct (sort_by_priority l) as [|y l'] eqn:E.
  - assert (l = []) as -> by (apply Permutation_nil; rewrite <- E; apply sort_by_priority_perm).
    cbn. intros [= <-]. exists [], []. split; [done|]. split; constructor.
  - destruct (IH y eq_refl) as (before & after & -> & Hb & Ha). cbn [insert_region].
    destruct (rg_priority x <=? rg_priority y) eqn:Hle; intros Hr; cbn [hd_error] in Hr; injection Hr as <-.
    + exists [], (before ++ y :: after). split; [done|]. split; [constructor|].
      apply Z.leb_le in Hle. rewrite Forall_app, Forall_cons.
      split_and!; [eapply Forall_impl; [exact Hb|cbn; lia]|done|eapply Forall_impl; [exact Ha|cbn; lia]].
    + exists (x :: before), after. split; [done|]. apply Z.leb_gt in Hle. split; [by constructor|done].
Qed.

(** C25: Reads fail over to the right region: after any history of health checks,
    with whatever mix of answers and errors, the region chosen is another region
    that has not failed its last three checks, of the least priority among
    those, and the first of that priority in the configuration; and none is
    chosen only if every other region has failed its last three checks. *)
Theorem failover_choice (local : str) (regions : list RegionConfig) (now : Z)
    (rounds : list (list (Probe * Z))) :
  let fm := fst (failover_new local regions now) in
  let s := health_rounds fm rounds (snd (failover_new local regions now)) in
  let alive r := rg_name r <> local /\ trailing_failures (probes_of fm (rg_name r) rounds) < 3 in
  match next_healthy_region fm s with
  | Some r =>
      exists before after, regions = before ++ r :: after /\ alive r /\
        (forall x, x ∈ before -> alive x -> rg_priority r < rg_priority x) /\
        (forall x, x ∈ after -> alive x -> rg_priority r <= rg_priority x)
  | None => forall r, r ∈ regions -> ~ alive r
  end.
Proof.
  intros fm s alive.
  assert (Hcand : forall r, r ∈ regions -> region_candidate fm s r = true <-> alive r).
  { intros r Hr. unfold region_candidate, alive. cbn [fm fst failover_new fm_local_region].
    destruct (str_eqb_spec (rg_name r) local) as [He|Hne]; cbn [negb andb]; [naive_solver|].
    destruct (failover_new_fresh local regions now (rg_name r) r Hr eq_refl) as (h0 & Hl0 & Hh0).
    destruct (rounds_health fm eq_refl (rg_name r) rounds (snd (failover_new local regions now)) [])
      as (h & Hl & Hh & _); [done|eauto|]. fold s in Hl. rewrite Hl, Hh, app_nil_l.
    rewrite Z.ltb_lt. naive_solver. }
  unfold next_healthy_region. change (fm_regions fm) with regions.
  destruct (hd_error _) as [r|] eqn:Hhd.
  - apply sort_by_priority_head in Hhd as (before & after & Hl & Hb & Ha).
    assert (Hsplit : forall l b a, List.filter (region_candidate fm s) l = b ++ r :: a ->
      exists b' a', l = b' ++ r :: a' /\ List.filter (region_candidate fm s) b' = b /\
                    List.filter (region_candidate fm s) a' = a /\ region_candidate fm s r = true).
    { clear. induction l as [|x l IH]; intros b a Hl; cbn [List.filter] in Hl; [by destruct b|].
      destruct (region_candidate fm s x) eqn:Hx.
      - destruct b as [|y b]; cbn [app] in Hl; injection Hl as -> Hl.
        + exists [], l. done.
        + apply IH in Hl as (b' & a' & -> & <- & <- & Hr). exists (y :: b'), a'. cbn [List.filter]. by rewrite Hx.
      - apply IH in Hl as (b' & a' & -> & <- & <- & Hr). exists (x :: b'), a'. cbn [List.filter]. by rewrite Hx. }
    apply Hsplit in Hl as (b & a & Hreg & <- & <- & Hr). exists b, a.
    assert (Hin : forall x, x ∈ b ++ r :: a -> region_candidate fm s x = true <-> alive x).
    { intros x. rewrite <- Hreg. apply Hcand. }
    rewrite Forall_forall in Hb, Ha. split; [done|]. split; [apply Hin; [set_solver|done]|].
    assert (Hmem : forall l x, x ∈ l -> region_candidate fm s x = true ->
              x ∈ List.filter (region_candidate fm s) l).
    { intros l x Hx Hc. apply list_elem_of_In, filter_In. split; [by apply list_elem_of_In|done]. }
    split; intros x Hx Hal; apply Hin in Hal; [|set_solver| |set_solver]; [apply Hb|apply Ha]; by apply Hmem.
  - intros r Hr Hal. apply Hcand in Hal; [|done].
    assert (Hnil : List.filter (region_candidate fm s) regions = []).
    { apply Permutation_nil. rewrite <- (sort_by_priority_perm (List.filter _ _)).
      by destruct (sort_by_priority _). }
    assert (Hf : In r (List.filter (region_candidate fm s) regions))
      by (apply filter_In; split; [by apply list_elem_of_In|done]).
    by rewrite Hnil in Hf.
Qed.

(** ** Delivery *)

Section delivery.
Context {W V A : Type} `{!ObjectStore W, !ObjectStoreLaws W, !ObjectStore V, !ObjectStoreLaws V, !AuditSink A}.
Context (env : ReplLib) (lib : Libraries) `{!LibraryLaws lib} (state : AppState V A) (rq : Request)
  (from_slice : str -> result ReplicationEvent str).

#[local] Instance remote_net : HttpPost (Cluster V A) := cluster_net lib state rq from_slice.

Abbreviation Site := (Repl (Cluster V A) W).

Definition manifest_request_headers (e : ReplicationEvent) : list (str * str) :=
  [("X-Replication-Event-ID" : str, re_id e); ("X-Replication-Tenant" : str, re_tenant e);
   ("X-Replication-Project" : str, re_project e); ("X-Replication-Repo" : str, re_repo e);
   ("X-Replication-Reference" : str, re_reference e); ("X-Replication-Digest" : str, re_digest e);
   ("X-Replication-Source-Region" : str, re_region e)].

Definition blob_request_headers (e : ReplicationEvent) : list (str * str) :=
  [("X-Replication-Event-ID" : str, re_id e); ("X-Replication-Tenant" : str, re_tenant e);
   ("X-Replication-Project" : str, re_project e); ("X-Replication-Repo" : str, re_repo e);
   ("X-Replication-Digest" : str, re_digest e); ("X-Replication-Source-Region" : str, re_region e)].

Lemma manifest_headers_read e :
  let h := received_headers (manifest_request_headers e) in
  (forall v, h !! ("x-replication-tenant" : str) = Some v -> v = re_tenant e) /\
  (forall v, h !! ("x-replication-project" : str) = Some v -> v = re_project e) /\
  (forall v, h !! ("x-replication-repo" : str) = Some v -> v = re_repo e) /\
  (forall v, h !! ("x-replication-reference" : str) = Some v -> v = re_reference e) /\
  (forall v, h !! ("x-replication-digest" : str) = Some v -> v = re_digest e).
Proof.
  split_and!; intros v (k0 & Hin & Hk)%received_lookup;
    repeat (apply elem_of_cons in Hin as [[= -> ->]|Hin]; [first [done|by vm_compute in Hk]|]);
    by apply elem_of_nil in Hin.
Qed.

Lemma blob_headers_read e :
  let h := received_headers (blob_request_headers e) in
  (forall v, h !! ("x-replication-tenant" : str) = Some v -> v = re_tenant e) /\
  (forall v, h !! ("x-replication-project" : str) = Some v -> v = re_project e) /\
  (forall v, h !! ("x-replication-repo" : str) = Some v -> v = re_repo e) /\
  (forall v, h !! ("x-replication-digest" : str) = Some v -> v = re_digest e).
Proof.
  split_and!; intros v (k0 & Hin & Hk)%received_lookup;
    repeat (apply elem_of_cons in Hin as [[= -> ->]|Hin]; [first [done|by vm_compute in Hk]|]);
    by apply elem_of_nil in Hin.
Qed.

Lemma read_local_ok (path : str) (s s1 : Site) (data : str) :
  read_local env path s = (s1, Ok data) ->
  objects (rp_store s) !! store_path (rl env) path = Some data /\
  objects (rp_store s1) = objects (rp_store s) /\ rp_net s1 = rp_net s.
Proof.
  unfold read_local. intros Hr%rethrow_ok. unfold on_repl in Hr.
  pose proof (get_same (store_path (rl env) path) (rp_store s)) as Hs. unfold exec in Hs.
  destruct (os_get _ (rp_store s)) as [w r] eqn:E. injection Hr as <- ->. split; [by eapply get_ok|done].
Qed.

Lemma read_local_err (path : str) (s s1 : Site) (e : ReplicationError) :
  read_local env path s = (s1, Err e) ->
  objects (rp_store s1) = objects (rp_store s) /\ rp_net s1 = rp_net s.
Proof.
  unfold read_local. intros (x & Hr & _)%rethrow_inv. unfold on_repl in Hr.
  pose proof (get_same (store_path (rl env) path) (rp_store s)) as Hs. unfold exec in Hs.
  destruct (os_get _ (rp_store s)) as [w r] eqn:E. injection Hr as <- _. done.
Qed.

(** The objects of a region after a push reached it. *)
Definition received (e : ReplicationEvent) (data : str) (o : gmap str str) : gmap str str :=
  match re_type e with
  | ManifestPush => manifest_stored lib (re_tenant e) (re_project e) (re_repo e) (re_reference e)
                      (re_digest e) data true o
  | BlobPush => <[store_path lib (blob_path (re_tenant e) (re_project e) (re_repo e) (re_digest e)) := data]> o
  | ManifestDelete => o
  end.

Lemma manifest_stored_again t p n r d data b o :
  manifest_stored lib t p n r d data true (manifest_stored lib t p n r d data b o)
  = manifest_stored lib t p n r d data true o.
Proof.
  unfold manifest_stored. cbn [andb]. set (m := store_path lib (manifest_path t p n d)).
  set (g := store_path lib (tag_link_path t p n r)).
  destruct (starts_with "sha256:" r); cbn [negb]; rewrite ?andb_false_r; [by rewrite insert_insert_eq|].
  destruct b; cbn [andb]; [|by rewrite insert_insert_eq].
  destruct (decide (m = g)) as [->|Hne]; [by rewrite !insert_insert_eq|].
  rewrite (insert_insert_ne _ m g) by done. by rewrite !insert_insert_eq.
Qed.

Lemma received_again e data o : received e data (received e data o) = received e data o.
Proof.
  unfold received. destruct (re_type e); [apply manifest_stored_again|by rewrite insert_insert_eq|done].
Qed.

(** Serving the request of a push moves the region towards [received]. *)
Definition push_request (e : ReplicationEvent) (ep data : str) : Route * PostRequest :=
  match re_type e with
  | BlobPush => (RouteBlob, mkPostRequest (ep ++ route_path RouteBlob) (blob_request_headers e) data)
  | _ => (RouteManifest, mkPostRequest (ep ++ route_path RouteManifest) (manifest_request_headers e) data)
  end.

Lemma serve_push (e : ReplicationEvent) (ep data : str) (w w' : Registry V A) (x : result Response failure) :
  re_type e <> ManifestDelete ->
  region_serve lib state rq from_slice (fst (push_request e ep data)) (snd (push_request e ep data)) w = (w', x) ->
  received e data (objs w') = received e data (objs w) /\
  (is_ok x = true -> objs w' = received e data (objs w)).
Proof.
  intros Ht. unfold push_request, received. destruct (re_type e); [| |done]; cbn [fst snd region_serve post_headers post_body].
  - destruct (manifest_headers_read e) as (H1 & H2 & H3 & H4 & H5). intros Hs.
    eapply manifest_effect in Hs; [|done..].
    destruct Hs as [->|[Hx [->| ->]]]; split; rewrite ?manifest_stored_again; try done; by rewrite Hx.
  - destruct (blob_headers_read e) as (H1 & H2 & H3 & H4). intros Hs.
    eapply blob_effect in Hs; [|done..].
    destruct Hs as [->|[Hx ->]]; split; rewrite ?insert_insert_eq; try done; by rewrite Hx.
Qed.

Lemma deliver_push (e : ReplicationEvent) (data : str) (idx : nat) (remote : RegionConfig) (kind : str)
    (s s' : Site) (reg : Region V A) (r : result unit ReplicationError) :
  re_type e <> ManifestDelete -> rp_net s !! rg_internal_endpoint remote = Some reg ->
  deliver env idx remote kind (Ok (snd (push_request e (rg_internal_endpoint remote) data))) s = (s', r) ->
  rp_store s' = rp_store s /\
  exists reg', rp_net s' = <[rg_internal_endpoint remote := reg']> (rp_net s) /\
    received e data (objs (rn_world reg')) = received e data (objs (rn_world reg)) /\
    (r = Ok tt -> objs (rn_world reg') = received e data (objs (rn_world reg))).
Proof.
  intros Ht Hreg Hr. set (ep := rg_internal_endpoint remote) in *.
  set (P := fun v : Cluster V A => exists reg1, v = <[ep := reg1]> (rp_net s) /\
              received e data (objs (rn_world reg1)) = received e data (objs (rn_world reg))).
  assert (Hpost : forall v v' x, P v ->
    post_once (Ok (snd (push_request e ep data))) v = (v', x) ->
    exists reg', v' = <[ep := reg']> (rp_net s) /\
      received e data (objs (rn_world reg')) = received e data (objs (rn_world reg)) /\
      (x = Ok tt -> objs (rn_world reg') = received e data (objs (rn_world reg)))).
  { intros v v' x (reg1 & -> & Hrec) Hp.
    assert (Hreq : exists hs, snd (push_request e ep data)
              = mkPostRequest (ep ++ route_path (fst (push_request e ep data))) hs data).
    { unfold push_request. destruct (re_type e); cbn; eauto. }
    destruct Hreq as [hs Hreq]. rewrite Hreq in Hp.
    eapply post_once_inv in Hp as (w & fs & -> & Hw); [|apply lookup_insert_eq].
    exists (mkRegion w fs). cbn [rn_world]. rewrite insert_insert_eq. split; [done|].
    destruct Hw as [[-> Hx]|(y & Hy & Hok)]; [split; [done|by intros ->]|].
    rewrite <- Hreq in Hy. apply serve_push in Hy as [H1 H2]; [|done]. split; [congruence|].
    intros ->. rewrite <- Hrec. apply H2. by apply Hok. }
  eapply (deliver_inv env P) in Hr as [Hst [[Hn ->]|(v & Hv & Hp)]].
  - split; [done|]. exists reg. rewrite Hn. rewrite insert_id by done. done.
  - split; [done|]. by eapply Hpost.
  - exists reg. by rewrite insert_id.
  - intros v v' x Hv Hp. destruct (Hpost v v' _ Hv Hp) as (reg' & -> & H1 & _). by exists reg'.
Qed.
End delivery.

(** The object an event carries. *)
Definition event_object (e : ReplicationEvent) : str :=
  match re_type e with
  | BlobPush => blob_path (re_tenant e) (re_project e) (re_repo e) (re_digest e)
  | _ => manifest_path (re_tenant e) (re_project e) (re_repo e) (re_digest e)
  end.

(** C24: A push that is reported as replicated has arrived: whatever requests and
    responses were lost in the retries before, the local object was read and the
    region holds exactly its objects from before with that object under its
    digest and, for a manifest pushed by tag, the link of the tag; no other
    region was touched.  A delivery that failed left the region where delivering
    again leads to the same objects. *)
Theorem replica_receives {W V A : Type}
    `{!ObjectStore W, !ObjectStoreLaws W, !ObjectStore V, !ObjectStoreLaws V, !AuditSink A}
    (env : ReplLib) (lib : Libraries) `{!LibraryLaws lib} (state : AppState V A) (rq : Request)
    (from_slice : str -> result ReplicationEvent str) (idx : nat) (remote : RegionConfig)
    (e : ReplicationEvent) (s s' : Repl (Cluster V A) W) (reg : Region V A)
    (r : result unit ReplicationError)
    (Hpush : re_type e <> ManifestDelete)
    (Hreg : rp_net s !! rg_internal_endpoint remote = Some reg)
    (Hrun : @replicate_to_region (Cluster V A) W (cluster_net lib state rq from_slice) _ env idx remote e s
            = (s', r)) :
  objects (rp_store s') = objects (rp_store s) /\
  exists reg' data, rp_net s' = <[rg_internal_endpoint remote := reg']> (rp_net s) /\
    received lib e data (objs (rn_world reg')) = received lib e data (objs (rn_world reg)) /\
    (r = Ok tt ->
     objects (rp_store s) !! store_path (rl env) (event_object e) = Some data /\
     objs (rn_world reg') = received lib e data (objs (rn_world reg))).
Proof.
  assert (Hgen : forall kind path, path = event_object e ->
    (let! data := read_local env path in
     deliver (H := cluster_net lib state rq from_slice) env idx remote kind
       (Ok (snd (push_request e (rg_internal_endpoint remote) data)))) s = (s', r) ->
    objects (rp_store s') = objects (rp_store s) /\
    exists reg' data, rp_net s' = <[rg_internal_endpoint remote := reg']> (rp_net s) /\
      received lib e data (objs (rn_world reg')) = received lib e data (objs (rn_world reg)) /\
      (r = Ok tt ->
       objects (rp_store s) !! store_path (rl env) (event_object e) = Some data /\
       objs (rn_world reg') = received lib e data (objs (rn_world reg)))).
  { intros kind path -> Hr. apply bind_step in Hr as [(s1 & data & Hl & Hr)|(x & Hl & ->)].
    - apply read_local_ok in Hl as (Hobj & Ho & Hn). rewrite <- Hn in Hreg.
      eapply deliver_push in Hr as (Hst & reg' & Hnet & Hrec & Hok); [|done|done|done].
      rewrite Hst. split; [done|]. exists reg', data. rewrite Hnet, Hn. auto.
    - apply read_local_err in Hl as [Ho Hn]. split; [done|]. exists reg, []. rewrite Hn, insert_id by done.
      by split_and!. }
  revert Hrun. unfold replicate_to_region, event_object in *.
  unfold push_request in Hgen. destruct (re_type e); [|apply (Hgen "blob" _ eq_refl)|done].
  apply (Hgen "manifest" _ eq_refl).
Qed.

(** ** Content addressing of the regions *)

Section addressing.
Context {W V A : Type} `{!ObjectStore W, !ObjectStoreLaws W, !ObjectStore V, !ObjectStoreLaws V, !AuditSink A}.
Context (env : ReplLib) `{!LibraryLaws (rl env)} (state : AppState V A) (rq : Request)
  (from_slice : str -> result ReplicationEvent str).

#[local] Instance addressed_net : HttpPost (Cluster V A) := cluster_net (rl env) state rq from_slice.

Abbreviation Site := (Repl (Cluster V A) W).

(** Events of well-formed repositories and digests, whose file name is one
    path segment. *)
Definition event_ok (e : ReplicationEvent) : Prop :=
  wf_name (re_tenant e) (re_project e) (re_repo e) /\ wf_digest (re_digest e) /\
  safe_segment (format_millis env (re_timestamp e) ++ "-" ++ re_id e ++ ".json") = true.

Definition regions_addressed (c : Cluster V A) : Prop :=
  map_Forall (fun _ reg => content_addressed (rl env) (objs (rn_world reg))) c.

Definition sites_addressed (s : Site) : Prop :=
  content_addressed (rl env) (objects (rp_store s)) /\ regions_addressed (rp_net s).

Lemma ca_event e o x : event_ok e -> content_addressed (rl env) o ->
  content_addressed (rl env) (<[store_path (rl env) (event_path env e) := x]> o).
Proof.
  intros (_ & _ & Hf) Ho t p n d data Hn Hd Hx. apply (Ho t p n d data Hn Hd).
  set (f := format_millis env (re_timestamp e) ++ "-" ++ re_id e ++ ".json") in *.
  assert (He : store_path (rl env) (event_path env e) = "_replication/events/" ++ f).
  { change (event_path env e) with ("_replication" ++ "/" ++ "events" ++ "/" ++ f).
    rewrite !store_path_app by apply _.
    assert (Hid : forall s, safe_segment s = true -> store_path (rl env) s = s) by apply store_path_safe.
    rewrite (Hid f Hf), (Hid "_replication" eq_refl), (Hid "events" eq_refl). by destruct f. }
  assert (Hne : forall kind rest, safe_segment kind = true ->
    "_replication/events/" ++ f <> store_path (rl env) (object_path t p n kind rest)).
  { intros kind rest Hk Heq. rewrite store_object_path in Heq by (apply _ || done).
    destruct Hn as (Ht & Hp & Hr). assert (Hs := f_equal (fun s => split_slash s []) Heq). cbn beta in Hs.
    change ("_replication/events/" ++ f) with ("_replication" ++ "/" ++ "events" ++ "/" ++ f) in Hs.
    rewrite !split_slash_segment in Hs by (done || by apply safe_segment_chars).
    rewrite split_slash_safe in Hs by (by apply safe_segment_chars).
    injection Hs as _ _ _ Hs.
    assert (Hcons : forall x cur, split_slash x cur <> []).
    { clear. induction x as [|c x IH]; intros cur; cbn; [done|]. by destruct (byte_is 47 c). }
    by destruct (Hcons (slash kind (store_path (rl env) rest)) []). }
  rewrite He in Hx. destruct Hd as (hex & -> & Hh).
  destruct Hx as [Hx|Hx]; rewrite lookup_insert_ne in Hx; auto.
  - by apply (Hne "blobs").
  - by apply (Hne "manifests").
Qed.

(** What a region serves keeps it content-addressed. *)
Lemma serve_delete_addressed ev (w : Registry V A) :
  content_addressed (rl env) (objs w) ->
  content_addressed (rl env) (objs (exec (internal_replicate_delete (rl env) ev) w)).
Proof.
  revert w. change (keeps (content_addressed (rl env)) (internal_replicate_delete (W := V) (A := A) (rl env) ev)).
  unfold internal_replicate_delete.
  keep_with ltac:(fail) ltac:(intros ?; apply ca_delete).
  apply (keeps_delete_tags (rl env)). intros k o _. apply ca_delete.
Qed.

Lemma serve_push_addressed e ep data (w : Registry V A) :
  event_ok e -> re_type e <> ManifestDelete -> digest_of (rl env) data = re_digest e ->
  content_addressed (rl env) (objs w) ->
  content_addressed (rl env) (objs (exec (region_serve (rl env) state rq from_slice
    (fst (push_request e ep data)) (snd (push_request e ep data))) w)).
Proof.
  intros (Hn & _ & _) Ht Hd Hw. unfold push_request, exec.
  destruct (re_type e); [| |done]; cbn [fst snd region_serve post_headers post_body].
  - destruct (manifest_headers_read e) as (H1 & H2 & H3 & H4 & H5).
    destruct (internal_replicate_manifest _ _ _ _ w) as [w' x] eqn:E.
    eapply manifest_effect in E; [|done..]. cbn [fst].
    assert (Hms : forall b, content_addressed (rl env) (manifest_stored (rl env) (re_tenant e) (re_project e)
      (re_repo e) (re_reference e) (re_digest e) data b (objs w))).
    { intros b. unfold manifest_stored. rewrite <- Hd. case_match; [by apply (ca_tag (rl env)), (ca_manifest (rl env))|by apply (ca_manifest (rl env))]. }
    destruct E as [->|[_ [->| ->]]]; done.
  - destruct (blob_headers_read e) as (H1 & H2 & H3 & H4).
    destruct (internal_replicate_blob _ _ _ _ w) as [w' x] eqn:E.
    eapply blob_effect in E; [|done..]. cbn [fst]. destruct E as [->|[_ ->]]; [|done].
    rewrite <- Hd. by apply ca_blob.
Qed.

Lemma post_addressed (ep : str) (route : Route) (hs : list (str * str)) (body : str)
    (c c' : Cluster V A) (r : result unit ReplicationError) :
  (forall w, content_addressed (rl env) (objs w) ->
     content_addressed (rl env) (objs (exec (region_serve (rl env) state rq from_slice route
       (mkPostRequest (ep ++ route_path route) hs body)) w))) ->
  regions_addressed c ->
  post_once (Ok (mkPostRequest (ep ++ route_path route) hs body)) c = (c', r) -> regions_addressed c'.
Proof.
  intros Hserve Hc Hp. destruct (c !! ep) as [reg|] eqn:Hreg.
  - eapply post_once_inv in Hp as (w & fs & -> & Hw); [|done].
    apply map_Forall_insert_2; [|done]. cbn [rn_world].
    assert (Hold : content_addressed (rl env) (objs (rn_world reg))) by (by apply (Hc ep)).
    destruct Hw as [[-> _]|(x & Hx & _)]; [done|].
    specialize (Hserve (rn_world reg) Hold). unfold exec in Hserve. by rewrite Hx in Hserve.
  - assert (Hsame : c' = c); [|by subst].
    unfold post_once, bind, lift, rethrow in Hp. cbn [http_post addressed_net cluster_net] in Hp.
    unfold cluster_post in Hp. cbn [post_url] in Hp. rewrite route_of_path, Hreg in Hp. by injection Hp as <- _.
Qed.

Lemma deliver_addressed (idx : nat) (remote : RegionConfig) (kind : str) (rq' : result PostRequest ReplicationError)
    (s : Site) :
  (forall c c' r, regions_addressed c -> post_once rq' c = (c', r) -> regions_addressed c') ->
  sites_addressed s -> sites_addressed (exec (deliver env idx remote kind rq') s).
Proof.
  intros Hpost [Hl Hc]. unfold exec. destruct (deliver _ _ _ _ _ s) as [s' r] eqn:E. cbn [fst].
  apply (deliver_inv env regions_addressed) in E as [Hst [[Hn _]|(v & Hv & Hp)]].
  - split; [by rewrite Hst|by rewrite Hn].
  - split; [by rewrite Hst|]. by eapply Hpost.
  - done.
  - intros v v' e. apply Hpost.
Qed.

Lemma replicate_addressed (idx : nat) (remote : RegionConfig) (e : ReplicationEvent) (s : Site) :
  event_ok e -> sites_addressed s -> sites_addressed (exec (replicate_to_region env idx remote e) s).
Proof.
  intros He Hs. pose proof He as (Hn & Hd & _).
  assert (Hread : forall kind path, re_type e <> ManifestDelete ->
    (forall o data, content_addressed (rl env) o -> o !! store_path (rl env) path = Some data ->
       digest_of (rl env) data = re_digest e) ->
    sites_addressed (exec (let! data := read_local env path in
      deliver env idx remote kind (Ok (snd (push_request e (rg_internal_endpoint remote) data)))) s)).
  { intros kind path Ht Hca. unfold exec, bind. destruct (read_local env path s) as [s1 [data|x]] eqn:E.
    - apply read_local_ok in E as (Hobj & Ho & Hnet). apply deliver_addressed.
      + intros c c' r Hc Hp.
        assert (Hreq : exists hs, snd (push_request e (rg_internal_endpoint remote) data)
                  = mkPostRequest (rg_internal_endpoint remote ++ route_path (fst (push_request e (rg_internal_endpoint remote) data))) hs data).
        { unfold push_request. destruct (re_type e); cbn; eauto. }
        destruct Hreq as [hs Hreq]. rewrite Hreq in Hp. eapply post_addressed; [|done|done].
        intros w. rewrite <- Hreq. apply serve_push_addressed; [done|done|].
        apply (Hca (objects (rp_store s))); [apply Hs|done].
      + destruct Hs as [Hl Hc]. split; [by rewrite Ho|by rewrite Hnet].
    - apply read_local_err in E as [Ho Hnet]. destruct Hs as [Hl Hc]. split; cbn; [by rewrite Ho|by rewrite Hnet]. }
  unfold replicate_to_region. unfold push_request in Hread. destruct (re_type e) eqn:Ht.
  - apply (Hread "manifest"); [done|]. intros o data Ho Hk. apply (Ho _ _ _ _ _ Hn Hd). by right.
  - apply (Hread "blob"); [done|]. intros o data Ho Hk. apply (Ho _ _ _ _ _ Hn Hd). by left.
  - apply deliver_addressed; [|done]. intros c c' r Hc Hp. destruct (event_to_vec env e) as [body|d].
    + eapply (post_addressed (rg_internal_endpoint remote) RouteDelete); [|done|exact Hp].
      intros w. apply serve_delete_addressed.
    + unfold post_once, bind, lift in Hp. by injection Hp as <- _.
Qed.
End addressing.

(** Replication keeps every region content-addressed: from sites whose blobs and
    manifests have the digests of their paths, carrying any sequence of events
    of well-formed repositories to any regions leaves them so, whatever requests,
    responses, reads and writes fail on the way. *)
Theorem replication_addressing {W V A : Type}
    `{!ObjectStore W, !ObjectStoreLaws W, !ObjectStore V, !ObjectStoreLaws V, !AuditSink A}
    (env : ReplLib) `{!LibraryLaws (rl env)} (state : AppState V A) (rq : Request)
    (from_slice : str -> result ReplicationEvent str) (remotes : list RegionConfig)
    (events : list ReplicationEvent) (s : Repl (Cluster V A) W)
    (Hevents : Forall (event_ok env) events) (Hs : sites_addressed env s) :
  sites_addressed env (exec (@replication_run (Cluster V A) W (cluster_net (rl env) state rq from_slice) _
                               env remotes events) s).
Proof.
  revert s Hs. apply (preserves_for_each (sites_addressed env)). intros e He.
  rewrite Forall_forall in Hevents. specialize (Hevents e He). unfold process_event.
  apply preserves_bind.
  - apply preserves_attempt. unfold persist_event. apply preserves_bind; [apply preserves_lift|intros data].
    apply preserves_rethrow. intros s [Hl Hc]. unfold exec, on_repl.
    destruct (os_put _ data (rp_store s)) as [w [[]|x]] eqn:E; split; cbn; try done.
    + rewrite (put_ok _ _ _ _ E). by apply ca_event.
    + destruct (put_err _ _ _ _ _ E) as [->| ->]; [done|]. by apply ca_event.
  - intros _. generalize 0%nat. induction remotes as [|r remotes IH]; intros idx; cbn; [apply preserves_ret|].
    apply preserves_bind; [|intros _; apply IH]. apply preserves_attempt. intros s Hs.
    by apply replicate_addressed.
Qed.

(** A replicated delete of a tag is acknowledged whatever the store did: the
    region answers [200] also when the link could not be deleted, and the sender,
    which then counts the event as delivered, does not repeat it. *)
Theorem replicated_delete_acknowledged {V A : Type} `{!ObjectStore V, !AuditSink A} (lib : Libraries)
    (e : ReplicationEvent) (w : Registry V A)
    (Htag : starts_with "sha256:" (re_reference e) = false) :
  eval (internal_replicate_delete lib (Ok e)) w = Ok (mkResponse 200 [] NoBody).
Proof.
  unfold eval, internal_replicate_delete, bind, lift, map_err. rewrite Htag. unfold attempt.
  by destruct (in_store _ w).
Qed.

(** ** Instances *)

#[local] Existing Instance demo_lib_laws.
#[local] Existing Instance demo_sink.

Definition repl_env : ReplLib :=
  mkReplLib demo_lib (fun _ => Ok "{}") (fun _ => "20260101000000000") Z.of_nat (fun _ _ hi => hi).

Definition eu : RegionConfig := mkRegionConfig "eu" "https://eu" "http://eu:5002" false 1.

Definition demo_push : ReplicationEvent :=
  mkReplicationEvent "e1" ManifestPush "a" "b" "c" "latest" (digest_of demo_lib "{}") 2 0 "us".

(** The first response is lost, the second request does not arrive. *)
Definition eu_region : Region Memory bool :=
  mkRegion (demo_world ∅ [] true) [ResponseLost; NotSent].

Definition us_site : Repl (Cluster Memory bool) Memory :=
  mkRepl (memory_of {["a/b/c/manifests/" ++ digest_of demo_lib "{}" := "{}"]} [])
    {["http://eu:5002" := eu_region]} [breaker_new] 0 [] [].

Definition no_event (body : str) : result ReplicationEvent str := Err "unexpected".

Lemma replica_receives_witness :
  exists s' reg' data,
    @replicate_to_region (Cluster Memory bool) Memory (cluster_net demo_lib demo_state demo_rq no_event) _
      repl_env 0 eu demo_push us_site = (s', Ok tt) /\
    rp_net s' = <["http://eu:5002" : str := reg']> (rp_net us_site) /\
    objs (rn_world reg') = received demo_lib demo_push data (objs (rn_world eu_region)).
Proof.
  assert (Hrun : @replicate_to_region (Cluster Memory bool) Memory
      (cluster_net demo_lib demo_state demo_rq no_event) _ repl_env 0 eu demo_push us_site
    = (exec (@replicate_to_region (Cluster Memory bool) Memory
        (cluster_net demo_lib demo_state demo_rq no_event) _ repl_env 0 eu demo_push) us_site, Ok tt))
    by (apply run_eval; vm_compute; reflexivity).
  destruct (replica_receives repl_env demo_lib demo_state demo_rq no_event 0 eu demo_push us_site _ eu_region _
    ltac:(discriminate) (lookup_singleton_eq _ _) Hrun) as (_ & reg' & data & Hnet & _ & Hok).
  exists (exec (@replicate_to_region (Cluster Memory bool) Memory
        (cluster_net demo_lib demo_state demo_rq no_event) _ repl_env 0 eu demo_push) us_site), reg', data.
  split; [exact Hrun|]. split; [exact Hnet|]. exact (proj2 (Hok eq_refl)).
Defined.

Lemma replication_addressing_witness :
  sites_addressed repl_env
    (exec (@replication_run (Cluster Memory bool) Memory (cluster_net demo_lib demo_state demo_rq no_event) _
             repl_env [eu] [demo_push]) us_site).
Proof.
  refine (replication_addressing repl_env demo_state demo_rq no_event [eu] [demo_push] us_site _ _).
  - constructor; [|constructor]. split; [repeat split|]. split; [|reflexivity].
    exists (sha256_hex demo_lib "{}"). split; reflexivity.
  - split.
    + intros t p r d data Hn Hd Hx.
      change (objects (rp_store us_site)) with
        ({["a/b/c/manifests/" ++ digest_of demo_lib "{}" := "{}"]} : gmap str str) in Hx.
      assert (Hmem : content_addressed demo_lib (<[store_path demo_lib (manifest_path "a" "b" "c"
          (digest_of demo_lib "{}")) := "{}"]> ∅)).
      { apply (ca_manifest demo_lib); [done|]. intros t' p' r' d' x _ _ [H|H]; by rewrite lookup_empty in H. }
      apply (Hmem t p r d data Hn Hd).
      change (store_path demo_lib (manifest_path "a" "b" "c" (digest_of demo_lib "{}")))
        with (normal_path ("a/b/c/manifests/" ++ digest_of demo_lib "{}")).
      replace (normal_path ("a/b/c/manifests/" ++ digest_of demo_lib "{}"))
        with ("a/b/c/manifests/" ++ digest_of demo_lib "{}") by (vm_compute; reflexivity).
      exact Hx.
    + apply map_Forall_singleton. intros t p r d data _ _ [H|H];
        change (objs _) with (∅ : gmap str str) in H; by rewrite lookup_empty in H.
Defined.
