(* ===== verification/Webhook.v ===== *)
(** * Webhook delivery ([crates/specton-registry/src/webhook.rs])

    The worker that posts each queued payload to the endpoints subscribed to its
    event, signed with the endpoint's secret, with retries and growing pauses. *)

From S2P Require Import Prelude Effects Http Registry.

Local Open Scope Z_scope.

Record WebhookEndpoint : Type := mkWebhookEndpoint {
  we_name : str;
  we_url : str;
  we_secret : option str;
  we_events : list str;
  we_headers : option (list (str * str))
}.

Record WebhookConfig : Type := mkWebhookConfig {
  wc_endpoints : list WebhookEndpoint;
  wc_max_retries : nat
}.

(** [serde_json::to_vec], HMAC-SHA-256 and [hex::encode]. *)
Record WebhookLib : Type := mkWebhookLib {
  payload_to_vec : WebhookPayload -> result str str;
  hmac_sha256 : str -> str -> str;
  hex_encode : str -> str
}.

(** The network, the pauses slept in milliseconds, and the outcome counters. *)
Record Notifier (N : Type) : Type := mkNotifier {
  nt_net : N;
  nt_slept : list Z;
  nt_outcomes : list (str * str)
}.
Arguments mkNotifier {N}.
Arguments nt_net {N}.
Arguments nt_slept {N}.
Arguments nt_outcomes {N}.

Definition subscribed (e : WebhookEndpoint) (event : str) : bool :=
  match we_events e with
  | [] => true
  | events => existsb (str_eqb event) events
  end.

(** [500 * 2u64.pow(attempt)], which wraps around. *)
Definition webhook_delay (attempt : nat) : Z :=
  (500 * ((2 ^ Z.of_nat attempt) mod 2 ^ 64)) mod 2 ^ 64.

Definition delivered (r : result HttpResponse str) : bool :=
  match r with
  | Ok resp => is_success (rs_status resp)
  | Err _ => false
  end.

Definition failed_label (r : result HttpResponse str) : str :=
  match r with
  | Ok _ => "non_success_status"
  | Err _ => "transport_error"
  end.

Section notifier.
Context {N : Type} `{HttpPost N} (lib : WebhookLib) (config : WebhookConfig).

(** The request of one attempt. *)
Definition webhook_request (e : WebhookEndpoint) (payload : WebhookPayload) (body : str) (attempt : nat) :
    PostRequest :=
  mkPostRequest (we_url e)
    ([("Content-Type" : str, "application/json" : str); ("X-SpectonCR-Event" : str, wh_event payload);
      ("X-SpectonCR-Event-ID" : str, wh_id payload);
      ("X-SpectonCR-Delivery-Attempt" : str, dec ((Z.of_nat attempt + 1) mod 2 ^ 32))]
     ++ match we_secret e with
        | Some secret =>
            [("X-SpectonCR-Signature" : str, "sha256=" ++ hex_encode lib (hmac_sha256 lib secret body))]
        | None => []
        end
     ++ default [] (we_headers e)) body.

Definition post_webhook (rq : PostRequest) : M (Notifier N) str (result HttpResponse str) :=
  fun s => let '(n, r) := http_post rq (nt_net s) in
           (mkNotifier n (nt_slept s) (nt_outcomes s), Ok r).

Definition pause (ms : Z) : M (Notifier N) str unit :=
  modify (fun s => mkNotifier (nt_net s) (nt_slept s ++ [ms]) (nt_outcomes s)).

Definition count_outcome (name outcome : str) : M (Notifier N) str unit :=
  modify (fun s => mkNotifier (nt_net s) (nt_slept s) (nt_outcomes s ++ [(name, outcome)])).

(** The loop [for attempt in 0..=max_retries] from [attempt] on, with [left]
    attempts after it. *)
Fixpoint delivery_loop (e : WebhookEndpoint) (payload : WebhookPayload) (body : str)
    (left attempt : nat) : M (Notifier N) str unit :=
  let! r := post_webhook (webhook_request e payload body attempt) in
  if delivered r then count_outcome (we_name e) "success"
  else
    do! count_outcome (we_name e) (failed_label r) in
    match left with
    | O => count_outcome (we_name e) "failed"
    | S left' => do! pause (webhook_delay attempt) in delivery_loop e payload body left' (S attempt)
    end.

Definition deliver_to_endpoint (e : WebhookEndpoint) (payload : WebhookPayload) (body : str) :
    M (Notifier N) str unit :=
  delivery_loop e payload body (wc_max_retries config) 0.

Definition deliver_payload (payload : WebhookPayload) : M (Notifier N) str unit :=
  match payload_to_vec lib payload with
  | Err _ => ret tt
  | Ok body =>
      for_each (wc_endpoints config)
        (fun e => if negb (subscribed e (wh_event payload)) then ret tt
                  else deliver_to_endpoint e payload body)
  end.

(** The loop over the payloads received until the channel is closed. *)
Definition webhook_run (payloads : list WebhookPayload) : M (Notifier N) str unit :=
  for_each payloads deliver_payload.
End notifier.

(** ** What is posted *)

(** A network that remembers the posts it was given. *)
Record PostLog (N : Type) : Type := mkPostLog {
  pl_net : N;
  pl_posts : list (PostRequest * result HttpResponse str)
}.
Arguments mkPostLog {N}.
Arguments pl_net {N}.
Arguments pl_posts {N}.

#[export] Instance post_log {N} `{!HttpPost N} : HttpPost (PostLog N) := {
  http_post rq := fun l => let '(n, r) := http_post rq (pl_net l) in
                           (mkPostLog n (pl_posts l ++ [(rq, r)]), r)
}.

(** The posts of one payload to one endpoint: the attempts in order, up to the
    first that is answered with success or the last one allowed. *)
Definition attempts (lib : WebhookLib) (max : nat) (e : WebhookEndpoint) (payload : WebhookPayload)
    (body : str) (first : nat) (posts : list (PostRequest * result HttpResponse str)) : Prop :=
  exists k, (first + k <= max)%nat /\ length posts = S k /\
    (forall i rq r, posts !! i = Some (rq, r) ->
       rq = webhook_request lib e payload body (first + i) /\
       ((i < k)%nat -> delivered r = false) /\
       (i = k -> delivered r = true \/ first + k = max)%nat).

(** The posts of one payload, endpoint by endpoint. *)
Definition payload_posts (lib : WebhookLib) (config : WebhookConfig) (payload : WebhookPayload)
    (l : list (PostRequest * result HttpResponse str)) : Prop :=
  match payload_to_vec lib payload with
  | Err _ => l = []
  | Ok body =>
      exists segs, l = concat segs /\
        Forall2 (fun e seg => if subscribed e (wh_event payload)
                              then attempts lib (wc_max_retries config) e payload body 0 seg
                              else seg = []) (wc_endpoints config) segs
  end.

Section delivery.
Context {N : Type} `{!HttpPost N} (lib : WebhookLib) (config : WebhookConfig).

Abbreviation posts s := (pl_posts (nt_net (N := PostLog N) s)).

Lemma attempts_one max e payload body first r :
  (first <= max)%nat -> delivered r = true \/ first = max ->
  attempts lib max e payload body first [(webhook_request lib e payload body first, r)].
Proof.
  intros Hle Hd. exists 0%nat. split; [lia|]. split; [done|]. intros [|i] rq r'; cbn; [|by destruct i].
  intros [= <- <-]. rewrite Nat.add_0_r. split; [done|]. split; [lia|done].
Qed.

Lemma attempts_cons max e payload body first r l :
  delivered r = false -> attempts lib max e payload body (S first) l ->
  attempts lib max e payload body first ((webhook_request lib e payload body first, r) :: l).
Proof.
  intros Hd (k & Hk & Hl & Hp). exists (S k). split; [lia|]. split; [cbn; lia|].
  intros [|i] rq r'; cbn.
  - intros [= <- <-]. rewrite Nat.add_0_r. split; [done|]. split; [done|lia].
  - intros Hi. destruct (Hp i rq r' Hi) as (-> & H1 & H2). split; [f_equal; lia|].
    split; [intros ?; apply H1; lia|intros [= ->]]. destruct (H2 eq_refl) as [?|?]; [by left|right; lia].
Qed.

(** A step that runs to its end and appends posts that satisfy [P]. *)
Definition appends (m : M (Notifier (PostLog N)) str unit)
    (P : list (PostRequest * result HttpResponse str) -> Prop) : Prop :=
  forall s, exists s' new, m s = (s', Ok tt) /\ posts s' = posts s ++ new /\ P new.

Lemma appends_for_each {X} (f : X -> M (Notifier (PostLog N)) str unit) P l :
  (forall x, appends (f x) (P x)) ->
  appends (for_each l f) (fun new => exists segs, new = concat segs /\ Forall2 P l segs).
Proof.
  intros Hf. induction l as [|x l IH]; intros s.
  { exists s, []. rewrite app_nil_r. split; [done|]. split; [done|]. exists []. by split. }
  destruct (Hf x s) as (s1 & seg & H1 & Hp & HP).
  destruct (IH s1) as (s2 & ? & H2 & Hp2 & segs & -> & HF).
  exists s2, (seg ++ concat segs). cbn [for_each]. unfold bind. rewrite H1, H2.
  split; [done|]. split; [by rewrite Hp2, Hp, app_assoc|].
  exists (seg :: segs). split; [done|by constructor].
Qed.

Lemma appends_loop e payload body left attempt :
  appends (delivery_loop lib e payload body left attempt)
    (attempts lib (attempt + left) e payload body attempt).
Proof.
  revert attempt. induction left as [|left IH]; intros attempt s; cbn [delivery_loop];
    unfold bind, post_webhook; cbn [http_post post_log];
    destruct (http_post _ (pl_net (nt_net s))) as [n r];
    pose (first := (webhook_request lib e payload body attempt, r)).
  - destruct (delivered r); eexists _, [first]; (split; [done|]); (split; [done|]);
      (apply attempts_one; [lia|right; lia]).
  - destruct (delivered r) eqn:Hd.
    { eexists _, [first]. split; [done|]. split; [done|]. apply attempts_one; [lia|by left]. }
    cbn. match goal with |- context [delivery_loop _ _ _ _ _ _ ?s1] =>
      destruct (IH (S attempt) s1) as (s2 & new & H2 & Hp & Ha) end.
    exists s2, (first :: new). split; [exact H2|]. split.
    { rewrite Hp. cbn. by rewrite <- app_assoc. }
    apply attempts_cons; [done|]. by replace (attempt + S left)%nat with (S attempt + left)%nat by lia.
Qed.
End delivery.

Lemma appends_payload {N : Type} `{!HttpPost N} (lib : WebhookLib) (config : WebhookConfig) payload :
  appends (N := N) (deliver_payload lib config payload) (payload_posts lib config payload).
Proof.
  unfold deliver_payload, payload_posts. destruct (payload_to_vec lib payload) as [body|].
  - apply appends_for_each. intros e s. destruct (subscribed e (wh_event payload)); cbn [negb].
    + apply (appends_loop lib e payload body (wc_max_retries config) 0).
    + exists s, []. by rewrite app_nil_r.
  - intros s. exists s, []. by rewrite app_nil_r.
Qed.

(** C26: Every queued payload is posted to every endpoint subscribed to its event and
    to no other, in the order of the queue and of the configuration: each time
    with the same body and the signature over it, numbered from one, until an
    answer with success, and at most [max_retries + 1] times.  What one endpoint
    or payload meets does not keep the next from being served. *)
Theorem webhook_delivery {N : Type} `{!HttpPost N} (lib : WebhookLib) (config : WebhookConfig)
    (payloads : list WebhookPayload) (s : Notifier (PostLog N)) :
  exists segs, pl_posts (nt_net (exec (webhook_run lib config payloads) s))
               = pl_posts (nt_net s) ++ concat segs /\
    Forall2 (payload_posts lib config) payloads segs.
Proof.
  destruct (appends_for_each (deliver_payload lib config) _ payloads (appends_payload lib config) s)
    as (s' & ? & Hrun & Hp & segs & -> & HF).
  exists segs. split; [|done]. rewrite <- Hp. unfold webhook_run, exec. by rewrite Hrun.
Qed.
