(* ===== verification/Usage.v ===== *)
(** * Usage telemetry ([crates/specton-cost])

    Requests leave a row in an unlogged staging table; a drainer moves rows in
    batches to the durable table; a rollup aggregates them into hourly and daily
    buckets; the usage endpoints of the registry read the buckets.  The tables
    of [0012_usage.sql] are lists of rows and finite maps; a statement that
    fails changes none of them.  Times are microseconds, as Postgres keeps
    them, and days are those of UTC. *)

From stdpp Require Import sorting.
From S2P Require Import Prelude Effects Text Ephemeral Auth Registry.

Local Open Scope Z_scope.
Local Open Scope result_scope.

(** ** Events ([recorder.rs]) *)

Definition op_str (op : UsageOp) : str :=
  match op with
  | OpPull => "pull"
  | OpPush => "push"
  | OpManifestGet => "manifest_get"
  | OpManifestPut => "manifest_put"
  | OpDelete => "delete"
  end.

Inductive UsageSrc : Type := SrcOrigin | SrcCache | SrcPeer | SrcPullThrough.

Definition src_str (src : UsageSrc) : str :=
  match src with
  | SrcOrigin => "origin"
  | SrcCache => "cache"
  | SrcPeer => "peer"
  | SrcPullThrough => "pull-through"
  end.

Record UsageEvent : Type := mkUsageEvent {
  ue_at : Z;
  ue_tenant : str;
  ue_project : str;
  ue_repository : str;
  ue_op : UsageOp;
  ue_bytes : Z;
  ue_src : UsageSrc;
  ue_status : Z;
  ue_sub : option str
}.

(** A row of [usage_events_staging] and of [usage_events]. *)
Record UsageRow : Type := mkUsageRow {
  u_at : Z;
  u_tenant : str;
  u_project : str;
  u_repository : str;
  u_op : str;
  u_bytes : Z;
  u_src : str;
  u_status : Z;
  u_sub : option str
}.

(** The key of [usage_hourly] and [usage_daily]: the start of the bucket, and
    tenant, project, repository, operation and source; its value the bytes and
    the number of requests. *)
Definition Dims : Type := str * str * str * str * str.
Definition Key : Type := Z * Dims.
Definition Totals : Type := Z * Z.
Abbreviation Buckets := (gmap Key Totals).

Record UsageDb : Type := mkUsageDb {
  staging : list UsageRow;
  events : list UsageRow;
  hourly : Buckets;
  daily : Buckets
}.

Definition usage_empty : UsageDb := mkUsageDb [] [] ∅ ∅.

(** The columns bound by [record]; the times of events have nanoseconds. *)
Definition row_of (e : UsageEvent) : UsageRow :=
  mkUsageRow (ue_at e / 1000) (ue_tenant e) (ue_project e) (ue_repository e) (op_str (ue_op e))
    (ue_bytes e) (src_str (ue_src e)) (ue_status e) (ue_sub e).

Definition statement {S E A} (fault : option E) (m : M S E A) : M S E A :=
  match fault with
  | Some e => throw e
  | None => m
  end.

Definition record (fault : option str) (e : UsageEvent) : M UsageDb str unit :=
  statement fault
    (modify (fun d => mkUsageDb (staging d ++ [row_of e]) (events d) (hourly d) (daily d))).

(** The task [record_usage] of the registry spawns. *)
Definition usage_event (t : task) : option UsageEvent :=
  match t with
  | TUsage at_time t p r op bytes status who =>
      Some (mkUsageEvent at_time t p r op bytes SrcOrigin status (Some who))
  | _ => None
  end.

(** ** The drainer ([drainer.rs]) *)

Record DrainerConfig : Type := mkDrainerConfig {
  interval_secs : Z;
  drain_batch : Z
}.

Definition drainer_default : DrainerConfig := mkDrainerConfig 60 5000.

Record DrainerStats : Type := mkDrainerStats {
  rows_drained : Z;
  drain_cycles : Z;
  drain_errors : Z
}.

Definition older (a b : UsageRow) : Prop := u_at a <= u_at b.

#[global] Instance older_dec : RelDecision older.
Proof. intros a b. unfold older. apply _. Defined.

(** One statement moves the oldest rows.  [order] is the order in which the
    table is scanned, which decides between rows of the same time. *)
Definition drain_one_cycle (config : DrainerConfig) (fault : option str)
    (order : list UsageRow -> list UsageRow) : M UsageDb str Z :=
  statement fault
    (if drain_batch config <? 0 then throw "LIMIT must not be negative"
     else
       let! d := gets (fun d => d) in
       let sorted := merge_sort older (order (staging d)) in
       let n := Z.to_nat (drain_batch config) in
       do! modify (fun d => mkUsageDb (drop n sorted) (events d ++ take n sorted) (hourly d) (daily d)) in
       ret (Z.of_nat (length (take n sorted)))).

(** What meets one turn of the loop: a failing statement, the scan order, and
    what others do to the tables while the drainer sleeps. *)
Record DrainTurn : Type := mkDrainTurn {
  dt_fault : option str;
  dt_order : list UsageRow -> list UsageRow;
  dt_others : UsageDb -> UsageDb
}.

Fixpoint drainer_run (config : DrainerConfig) (turns : list DrainTurn) (stats : DrainerStats)
    (d : UsageDb) : UsageDb * DrainerStats :=
  match turns with
  | [] => (d, stats)
  | turn :: turns' =>
      let '(d', r) := drain_one_cycle config (dt_fault turn) (dt_order turn) d in
      let stats' :=
        match r with
        | Ok n => mkDrainerStats (rows_drained stats + n) (drain_cycles stats + 1) (drain_errors stats)
        | Err _ => mkDrainerStats (rows_drained stats) (drain_cycles stats + 1) (drain_errors stats + 1)
        end in
      drainer_run config turns' stats' (dt_others turn d')
  end.

(** ** The rollup ([rollup.rs]) *)

Definition hour : Z := 3600 * 1000000.
Definition day : Z := 24 * hour.

(** [date_trunc] *)
Definition trunc (unit t : Z) : Z := t - t mod unit.

Definition plus (a b : Totals) : Totals := (a.1 + b.1, a.2 + b.2).

Definition zero : Totals := (0, 0).

(** [SELECT key, SUM(..), SUM(..) .. GROUP BY key] *)
Definition group_by {K : Type} `{Countable K} {X : Type} (key : X -> K) (val : X -> Totals) (l : list X) :
    gmap K Totals :=
  foldr (fun x m => <[key x := plus (val x) (default zero (m !! key x))]> m) ∅ l.

(** [::BIGINT] *)
Definition fits (t : Totals) : bool :=
  (- i64_max - 1 <=? t.1) && (t.1 <=? i64_max) && (- i64_max - 1 <=? t.2) && (t.2 <=? i64_max).

Definition as_bigint {K : Type} `{Countable K} (m : gmap K Totals) : result (gmap K Totals) str :=
  if forallb (fun kt => fits kt.2) (map_to_list m) then Ok m else Err "bigint out of range".

Definition dims (r : UsageRow) : Dims := (u_tenant r, u_project r, u_repository r, u_op r, u_src r).
Definition hour_key (r : UsageRow) : Key := (trunc hour (u_at r), dims r).
Definition row_totals (r : UsageRow) : Totals := (u_bytes r, 1).
Definition day_key (kt : Key * Totals) : Key := (trunc day kt.1.1, kt.1.2).

Definition hourly_groups (now : Z) (l : list UsageRow) : Buckets :=
  group_by hour_key row_totals (List.filter (fun r => now - 2 * hour <=? u_at r) l).

Definition daily_groups (now : Z) (h : Buckets) : Buckets :=
  group_by day_key snd (List.filter (fun kt => trunc day (now - day) <=? kt.1.1) (map_to_list h)).

(** [INSERT .. ON CONFLICT DO UPDATE SET bytes = EXCLUDED.bytes, ..] *)
Definition upsert (new old : Buckets) : Buckets := new ∪ old.

Definition rollup_hourly (now : Z) : M UsageDb str Z :=
  let! d := gets (fun d => d) in
  let! groups := lift (as_bigint (hourly_groups now (events d))) in
  do! modify (fun d => mkUsageDb (staging d) (events d) (upsert groups (hourly d)) (daily d)) in
  ret (Z.of_nat (size groups)).

Definition rollup_daily (now : Z) : M UsageDb str Z :=
  let! d := gets (fun d => d) in
  let! groups := lift (as_bigint (daily_groups now (hourly d))) in
  do! modify (fun d => mkUsageDb (staging d) (events d) (hourly d) (upsert groups (daily d))) in
  ret (Z.of_nat (size groups)).

(** The two statements, each with its own [NOW()]. *)
Record RollupTurn : Type := mkRollupTurn {
  rt_hourly_now : Z;
  rt_hourly_fault : option str;
  rt_daily_now : Z;
  rt_daily_fault : option str;
  rt_others : UsageDb -> UsageDb
}.

Definition rollup_recent (t : RollupTurn) : M UsageDb str (Z * Z) :=
  let! h := statement (rt_hourly_fault t) (rollup_hourly (rt_hourly_now t)) in
  let! d := statement (rt_daily_fault t) (rollup_daily (rt_daily_now t)) in
  ret (h, d).

Record RollupStats : Type := mkRollupStats {
  hourly_buckets : Z;
  daily_buckets : Z;
  rollup_cycles : Z;
  rollup_errors : Z
}.

Fixpoint rollup_run (turns : list RollupTurn) (stats : RollupStats) (d : UsageDb) : UsageDb * RollupStats :=
  match turns with
  | [] => (d, stats)
  | turn :: turns' =>
      let '(d', r) := rollup_recent turn d in
      let stats' :=
        match r with
        | Ok (h, n) => mkRollupStats (hourly_buckets stats + h) (daily_buckets stats + n)
                         (rollup_cycles stats + 1) (rollup_errors stats)
        | Err _ => mkRollupStats (hourly_buckets stats) (daily_buckets stats)
                     (rollup_cycles stats + 1) (rollup_errors stats + 1)
        end in
      rollup_run turns' stats' (rt_others turn d')
  end.

(** ** The reader ([reader.rs]) *)

Inductive Granularity : Type := Hour | Day.

Definition granularity_parse (s : str) : option Granularity :=
  if existsb (str_eqb s) ["1h" : str; "hour" : str; "hourly" : str] then Some Hour
  else if existsb (str_eqb s) ["1d" : str; "day" : str; "daily" : str] then Some Day
  else None.

Definition granularity_str (g : Granularity) : str :=
  match g with
  | Hour => "hour"
  | Day => "day"
  end.

Definition table (g : Granularity) (d : UsageDb) : Buckets :=
  match g with
  | Hour => hourly d
  | Day => daily d
  end.

Record UsageBucket : Type := mkUsageBucket {
  ub_bucket_at : Z;
  ub_op : str;
  ub_src : str;
  ub_bytes : Z;
  ub_requests : Z
}.

Record TopPulledRow : Type := mkTopPulledRow {
  tp_tenant : str;
  tp_project : str;
  tp_repository : str;
  tp_bytes : Z;
  tp_pulls : Z
}.

Definition k_tenant (k : Key) : str := k.2.1.1.1.1.
Definition k_project (k : Key) : str := k.2.1.1.1.2.
Definition k_repository (k : Key) : str := k.2.1.1.2.
Definition k_op (k : Key) : str := k.2.1.2.
Definition k_src (k : Key) : str := k.2.2.

Definition series_key (kt : Key * Totals) : Z * str * str := (kt.1.1, k_op kt.1, k_src kt.1).
Definition repo_key (kt : Key * Totals) : str * str * str :=
  (k_tenant kt.1, k_project kt.1, k_repository kt.1).

Definition earlier (a b : UsageBucket) : Prop := ub_bucket_at a <= ub_bucket_at b.

#[global] Instance earlier_dec : RelDecision earlier.
Proof. intros a b. unfold earlier. apply _. Defined.

(** [ORDER BY pulls DESC, bytes DESC] *)
Definition pulled_more (a b : TopPulledRow) : Prop :=
  tp_pulls b < tp_pulls a \/ tp_pulls a = tp_pulls b /\ tp_bytes b <= tp_bytes a.

#[global] Instance pulled_more_dec : RelDecision pulled_more.
Proof. intros a b. unfold pulled_more. apply _. Defined.

Section reader.
(** [NOW() - make_interval(secs => ..)], which fails out of range. *)
Context (ago : Z -> result Z str).

Definition tenant_series (tenant : str) (since_secs : Z) (g : Granularity) (d : UsageDb) :
    result (list UsageBucket) str :=
  let? start := ago since_secs in
  let? groups := as_bigint
    (group_by series_key snd
       (List.filter (fun kt => str_eqb (k_tenant kt.1) tenant && (start <=? kt.1.1))
          (map_to_list (table g d)))) in
  Ok (merge_sort earlier
        (map (fun '((t, op, src), (bytes, requests)) => mkUsageBucket t op src bytes requests)
           (map_to_list groups))).

Definition top_pulled (since_secs limit : Z) (d : UsageDb) : result (list TopPulledRow) str :=
  let? start := ago since_secs in
  let g := if 24 * 3600 <=? since_secs then Day else Hour in
  let? groups := as_bigint
    (group_by repo_key snd
       (List.filter (fun kt => (start <=? kt.1.1) && str_eqb (k_op kt.1) "pull")
          (map_to_list (table g d)))) in
  Ok (take (Z.to_nat limit)
        (merge_sort pulled_more
           (map (fun '((t, p, r), (bytes, pulls)) => mkTopPulledRow t p r bytes pulls)
              (map_to_list groups)))).

(** ** The endpoints ([main.rs]) *)

Definition usage_admin_authorize (claims : TokenClaims) : result unit RegistryError :=
  if bool_decide (claims_role claims = Admin) then Ok tt
  else Err (Forbidden "usage endpoints require Admin role").

(** A number and a unit; the products wrap around. *)
Definition parse_since (raw : str) : option Z :=
  let raw := trim raw in
  let '(n, unit) := span is_ascii_digit raw in
  match unit with
  | [] => None
  | _ =>
      match parse_i64 n with
      | None => None
      | Some n =>
          if n <? 0 then None
          else if str_eqb unit "s" then Some n
          else if str_eqb unit "m" then Some (i64_wrap (n * 60))
          else if str_eqb unit "h" then Some (i64_wrap (n * 3600))
          else if str_eqb unit "d" then Some (i64_wrap (n * 86400))
          else None
      end
  end.

Record TenantUsage : Type := mkTenantUsage {
  tu_tenant : str;
  tu_since_secs : Z;
  tu_granularity : str;
  tu_buckets : list UsageBucket
}.

(** [db] is the pool, when one is configured. *)
Definition usage_tenant (db : option UsageDb) (claims : TokenClaims) (tenant : str)
    (since granularity : option str) : result TenantUsage RegistryError :=
  let? _ := usage_admin_authorize claims in
  let? d := ok_or db (Internal "usage backend not configured") in
  let since_secs := default (24 * 3600) (since ≫= parse_since) in
  let g := default Hour (granularity ≫= granularity_parse) in
  let? buckets := map_err (fun e => Internal ("usage query failed: sqlx: " ++ e))
                    (tenant_series tenant since_secs g d) in
  Ok (mkTenantUsage tenant since_secs (granularity_str g) buckets).

Definition usage_top_pulled (db : option UsageDb) (claims : TokenClaims) (since : option str)
    (limit : option Z) : result (Z * Z * list TopPulledRow) RegistryError :=
  let? _ := usage_admin_authorize claims in
  let? d := ok_or db (Internal "usage backend not configured") in
  let since_secs := default (7 * 86400) (since ≫= parse_since) in
  let limit := Z.max 1 (Z.min (default 20 limit) 500) in
  let? rows := map_err (fun e => Internal ("top_pulled query failed: sqlx: " ++ e))
                 (top_pulled since_secs limit d) in
  Ok (since_secs, limit, rows).
End reader.
