(* ===== verification/UsageTheorems.v ===== *)
(** * What the usage tables promise

    Rows are moved, never lost or doubled; the drainer empties the staging table
    oldest rows first; the buckets hold exact totals while their hour is inside
    the window of the rollup, and what happens to them when it leaves. *)

From stdpp Require Import sorting.
From S2P Require Import Prelude Effects Text Ephemeral Auth Registry Usage.

Local Open Scope Z_scope.
Local Open Scope result_scope.

(** ** Statements *)

Lemma statement_ok {S E A} (fault : option E) (m : M S E A) s s' a :
  statement fault m s = (s', Ok a) -> fault = None /\ m s = (s', Ok a).
Proof. by destruct fault. Qed.

(** ** Conservation *)

Inductive action : Type :=
| ARecord (fault : option str) (e : UsageEvent)
| ADrain (config : DrainerConfig) (fault : option str) (order : list UsageRow -> list UsageRow)
| ARollup (turn : RollupTurn)
| ACrash.

(** A crash of the database empties an unlogged table. *)
Definition act (a : action) (d : UsageDb) : UsageDb :=
  match a with
  | ARecord fault e => exec (record fault e) d
  | ADrain config fault order => exec (drain_one_cycle config fault order) d
  | ARollup turn => exec (rollup_recent turn) d
  | ACrash => mkUsageDb [] (events d) (hourly d) (daily d)
  end.

Definition accepted (a : action) : list UsageRow :=
  match a with
  | ARecord None e => [row_of e]
  | _ => []
  end.

Definition scans (a : action) : Prop :=
  match a with
  | ADrain _ _ order => forall l, Permutation (order l) l
  | _ => True
  end.

Definition rows (d : UsageDb) : list UsageRow := staging d ++ events d.

Lemma drain_moves config fault order d :
  (forall l, Permutation (order l) l) ->
  exists moved, let d' := exec (drain_one_cycle config fault order) d in
    events d' = events d ++ moved /\ Permutation (staging d) (moved ++ staging d') /\
    hourly d' = hourly d /\ daily d' = daily d.
Proof.
  intros Ho. unfold drain_one_cycle, exec. destruct fault; cbn [statement throw fst].
  { exists []. by rewrite app_nil_r. }
  destruct (drain_batch config <? 0); cbn [throw fst].
  { exists []. by rewrite app_nil_r. }
  cbn. eexists. split; [done|]. split; [|done]. by rewrite take_drop, merge_sort_Permutation, Ho.
Qed.

Lemma rollup_keeps_rows turn d :
  let d' := exec (rollup_recent turn) d in staging d' = staging d /\ events d' = events d.
Proof.
  unfold exec, rollup_recent, rollup_hourly, rollup_daily, bind, statement, gets, lift, modify, ret, throw.
  destruct (rt_hourly_fault turn); [done|]. destruct (as_bigint _); [|done]. cbn.
  destruct (rt_daily_fault turn); [done|]. by destruct (as_bigint _).
Qed.

Lemma act_rows a d :
  scans a -> exists lost, Permutation (lost ++ rows (act a d)) (rows d ++ accepted a) /\
    events d `prefix_of` events (act a d) /\ (a <> ACrash -> lost = []).
Proof.
  intros Ha. destruct a as [fault e|config fault order|turn|]; cbn [act accepted].
  - exists []. destruct fault; cbn; rewrite ?app_nil_r; (split; [|done]); [done|].
    unfold rows. cbn. by rewrite <- !app_assoc, (Permutation_app_comm (events d)).
  - exists []. destruct (drain_moves config fault order d Ha) as (moved & He & Hp & _).
    rewrite He. split; [|split; [by apply prefix_app_r|done]]. unfold rows. rewrite He, Hp, app_nil_r. cbn.
    rewrite <- !app_assoc, (Permutation_app_comm moved), <- app_assoc. done.
  - exists []. destruct (rollup_keeps_rows turn d) as [Hs He]. unfold rows. rewrite Hs, He, app_nil_r.
    by split.
  - exists (staging d). cbn. unfold rows. rewrite app_nil_r. by split.
Qed.

(** C27: Every recorded row is in exactly one of the two tables, whatever statements
    fail and in whatever order the drainer meets the rows; only a crash of the
    database loses rows, those that were staged, and a durable row stays. *)
Theorem usage_conserved (actions : list action) (d : UsageDb) (Hscan : Forall scans actions) :
  let d' := fold_left (fun d a => act a d) actions d in
  exists lost, Permutation (lost ++ staging d' ++ events d')
                           (staging d ++ events d ++ concat (map accepted actions)) /\
    events d `prefix_of` events d' /\ (ACrash ∉ actions -> lost = []).
Proof.
  revert d. induction actions as [|a actions IH]; intros d; cbn.
  { exists []. by rewrite app_nil_r. }
  inversion Hscan as [|? ? Ha Hs]; subst. destruct (act_rows a d Ha) as (l1 & Hp1 & He1 & Hl1).
  destruct (IH Hs (act a d)) as (l2 & Hp2 & He2 & Hl2). exists (l1 ++ l2). split; [|split].
  - rewrite <- app_assoc, Hp2. unfold rows in Hp1.
    trans ((l1 ++ staging (act a d) ++ events (act a d)) ++ concat (map accepted actions)).
    { by rewrite <- !app_assoc. }
    by rewrite Hp1, <- !app_assoc.
  - by etrans.
  - intros Hc. rewrite not_elem_of_cons in Hc. destruct Hc as [Hc1 Hc2].
    rewrite Hl1, Hl2; [done|done|congruence].
Qed.

(** ** The drainer empties the table *)

Definition calm (turn : DrainTurn) : Prop :=
  dt_fault turn = None /\ (forall l, Permutation (dt_order turn l) l) /\ forall d, dt_others turn d = d.

#[local] Instance older_trans : Transitive older.
Proof. intros x y z. unfold older. lia. Qed.
#[local] Instance older_total : Total older.
Proof. intros x y. unfold older. lia. Qed.

Lemma drain_oldest config order d :
  0 <= drain_batch config -> (forall l, Permutation (order l) l) ->
  exists d' moved, drain_one_cycle config None order d = (d', Ok (Z.of_nat (length moved))) /\
    events d' = events d ++ moved /\ Permutation (staging d) (moved ++ staging d') /\
    length moved = Nat.min (Z.to_nat (drain_batch config)) (length (staging d)) /\
    (forall x y, x ∈ moved -> y ∈ staging d' -> older x y).
Proof.
  intros Hb Ho. unfold drain_one_cycle. cbn [statement].
  replace (drain_batch config <? 0) with false by lia. cbn. eexists _, _. split; [done|]. cbn.
  assert (Hp : Permutation (merge_sort older (order (staging d))) (staging d))
    by (by rewrite merge_sort_Permutation, Ho).
  split; [done|]. split; [by rewrite take_drop, Hp|]. split; [by rewrite length_take, Hp|].
  pose proof (StronglySorted_merge_sort older (order (staging d))) as Hs.
  rewrite <- (take_drop (Z.to_nat (drain_batch config)) (merge_sort _ _)) in Hs.
  apply StronglySorted_app in Hs as (Hc & _ & _). intros x y Hx Hy. by apply Hc.
Qed.

(** With a positive batch size and no failures, [k] turns move
    [min (k * batch) n] of the [n] staged rows, so that the table is empty after
    [n / batch] turns, rounded up; what is moved is never more recent than what
    is left, and the statistics count it. *)
Theorem drainer_empties (config : DrainerConfig) (turns : list DrainTurn) (stats : DrainerStats)
    (d d' : UsageDb) (stats' : DrainerStats)
    (Hbatch : 0 < drain_batch config) (Hcalm : Forall calm turns)
    (Hrun : drainer_run config turns stats d = (d', stats')) :
  exists moved, events d' = events d ++ moved /\ Permutation (staging d) (moved ++ staging d') /\
    length moved = Nat.min (length turns * Z.to_nat (drain_batch config)) (length (staging d)) /\
    (forall x y, x ∈ moved -> y ∈ staging d' -> u_at x <= u_at y) /\
    rows_drained stats' = rows_drained stats + Z.of_nat (length moved) /\
    drain_cycles stats' = drain_cycles stats + Z.of_nat (length turns) /\
    drain_errors stats' = drain_errors stats.
Proof.
  revert stats d Hrun. induction turns as [|turn turns IH]; intros stats d Hrun; cbn [drainer_run] in Hrun.
  { injection Hrun as <- <-. exists []. rewrite app_nil_r. cbn.
    split_and!; try done; try lia. intros x y Hx. by apply elem_of_nil in Hx. }
  inversion Hcalm as [|? ? (Hf & Ho & Hid) Hcalm']; subst. rewrite Hf in Hrun.
  destruct (drain_oldest config (dt_order turn) d ltac:(lia) Ho)
    as (d1 & m1 & Hd & He1 & Hp1 & Hl1 & Hold).
  rewrite Hd, Hid in Hrun. destruct (IH Hcalm' _ _ Hrun) as (m2 & He2 & Hp2 & Hl2 & Hold2 & Hr & Hc & Her).
  exists (m1 ++ m2). rewrite He2, He1, <- app_assoc. split; [done|].
  split; [by rewrite Hp1, Hp2, app_assoc|].
  assert (Hlen : length (staging d) = (length m1 + length (staging d1))%nat)
    by (by rewrite Hp1, length_app).
  split; [rewrite length_app; cbn [length]; lia|].
  split; [|cbn in Hr, Hc, Her; rewrite length_app; cbn [length]; split_and!; lia].
  intros x y [Hx|Hx]%elem_of_app Hy; [|by apply Hold2].
  apply (Hold x y Hx). rewrite Hp2. apply elem_of_app. by right.
Qed.

(** ** Aggregation *)

Definition total {X} (val : X -> Totals) (l : list X) : Totals := foldr (fun x => plus (val x)) zero l.

(** The rows of one group, and its totals if it is not empty. *)
Definition in_group {K} `{EqDecision K} {X} (key : X -> K) (k : K) (l : list X) : list X :=
  List.filter (fun x => bool_decide (key x = k)) l.

Definition group_total {K} `{EqDecision K} {X} (key : X -> K) (val : X -> Totals) (k : K) (l : list X) :
    option Totals :=
  match in_group key k l with
  | [] => None
  | xs => Some (total val xs)
  end.

Lemma group_by_lookup {K} `{Countable K} {X} (key : X -> K) (val : X -> Totals) l k :
  group_by key val l !! k = group_total key val k l.
Proof.
  unfold group_total. induction l as [|x l IH]; [apply lookup_empty|].
  change (group_by key val (x :: l)) with
    (<[key x := plus (val x) (default zero (group_by key val l !! key x))]> (group_by key val l)).
  unfold in_group in *. cbn [List.filter]. destruct (bool_decide_reflect (key x = k)) as [<-|Hne].
  - rewrite lookup_insert_eq, IH. by destruct (List.filter _ l).
  - by rewrite lookup_insert_ne.
Qed.

Lemma as_bigint_ok {K} `{Countable K} (m m' : gmap K Totals) : as_bigint m = Ok m' -> m' = m.
Proof. unfold as_bigint. destruct (forallb _ _); congruence. Qed.

Definition or_else {A} (a b : option A) : option A :=
  match a with
  | Some _ => a
  | None => b
  end.

Lemma upsert_lookup new old k : upsert new old !! k = or_else (new !! k) (old !! k).
Proof. unfold upsert. rewrite lookup_union. by destruct (new !! k), (old !! k). Qed.

Lemma trunc_le unit t : 0 < unit -> trunc unit t <= t < trunc unit t + unit.
Proof. intros Hu. unfold trunc. pose proof (Z.mod_pos_bound t unit Hu). lia. Qed.

Lemma filter_all {X} (p : X -> bool) l : (forall x, In x l -> p x = true) -> List.filter p l = l.
Proof.
  induction l as [|x l IH]; intros H; cbn; [done|]. rewrite (H x) by (by left). f_equal.
  apply IH. intros y Hy. apply H. by right.
Qed.

Lemma filter_nothing {X} (p : X -> bool) l : (forall x, In x l -> p x = false) -> List.filter p l = [].
Proof.
  induction l as [|x l IH]; intros H; cbn; [done|]. rewrite (H x) by (by left).
  apply IH. intros y Hy. apply H. by right.
Qed.

Lemma filter_swap {X} (p q : X -> bool) l :
  List.filter p (List.filter q l) = List.filter q (List.filter p l).
Proof.
  induction l as [|x l IH]; [done|]. cbn. destruct (q x) eqn:Eq, (p x) eqn:Ep; cbn; rewrite ?Eq, ?Ep, IH; done.
Qed.

Lemma in_group_filter {K} `{EqDecision K} {X} (key : X -> K) (k : K) (p : X -> bool) l :
  in_group key k (List.filter p l) = List.filter p (in_group key k l).
Proof. apply filter_swap. Qed.

Lemma in_group_key {K} `{EqDecision K} {X} (key : X -> K) (k : K) l x :
  In x (in_group key k l) -> In x l /\ key x = k.
Proof. intros [Hx Hk]%filter_In. by apply bool_decide_eq_true in Hk. Qed.

(** ** The buckets *)

Lemma rollup_tables turn d d' r :
  rollup_recent turn d = (d', Ok r) ->
  hourly d' = upsert (hourly_groups (rt_hourly_now turn) (events d)) (hourly d) /\
  daily d' = upsert (daily_groups (rt_daily_now turn) (hourly d')) (daily d).
Proof.
  unfold rollup_recent. intros (d1 & h & H1 & H2)%bind_ok. apply bind_ok in H2 as (d2 & n & H2 & H3).
  injection H3 as <- _. apply statement_ok in H1 as [_ H1]. apply statement_ok in H2 as [_ H2].
  unfold rollup_hourly, rollup_daily, bind, gets, lift, modify, ret in H1, H2.
  destruct (as_bigint (hourly_groups _ _)) as [g1|] eqn:E1; [|done]. apply as_bigint_ok in E1 as ->.
  injection H1 as <- _. cbn in H2.
  destruct (as_bigint _) as [g2|] eqn:E2; [|done]. apply as_bigint_ok in E2 as ->.
  by injection H2 as <- _.
Qed.

(** The rows of an hour the window of two hours reaches. *)
Lemma hourly_groups_lookup now (l : list UsageRow) b dm :
  hourly_groups now l !! (b, dm) =
  match List.filter (fun r => now - 2 * hour <=? u_at r) (in_group hour_key (b, dm) l) with
  | [] => None
  | xs => Some (total row_totals xs)
  end.
Proof. unfold hourly_groups. rewrite group_by_lookup. unfold group_total. by rewrite in_group_filter. Qed.

Lemma hour_key_bounds r b dm : hour_key r = (b, dm) -> b <= u_at r < b + hour.
Proof. intros [= <- _]. by apply trunc_le. Qed.

(** C28: A rollup that succeeds sets every hour that starts inside its window of two
    hours to the bytes and the number of the durable rows of that hour, keeps
    the hours that ended before the window, and sets the buckets of today and
    yesterday to the sums of their hours; the rows stay. *)
Theorem rollup_totals (turn : RollupTurn) (d d' : UsageDb) (r : Z * Z)
    (Hrun : rollup_recent turn d = (d', Ok r)) :
  let start := rt_hourly_now turn - 2 * hour in
  (forall b dm, start <= b ->
     hourly d' !! (b, dm) = or_else (group_total hour_key row_totals (b, dm) (events d)) (hourly d !! (b, dm))) /\
  (forall b dm, b + hour <= start -> hourly d' !! (b, dm) = hourly d !! (b, dm)) /\
  (forall b dm, trunc day (rt_daily_now turn - day) <= b ->
     daily d' !! (b, dm) = or_else (group_total day_key snd (b, dm) (map_to_list (hourly d'))) (daily d !! (b, dm))) /\
  staging d' = staging d /\ events d' = events d.
Proof.
  intros start. destruct (rollup_tables turn d d' r Hrun) as [Hh Hd]. split; [|split; [|split]].
  - intros b dm Hb. rewrite Hh, upsert_lookup, hourly_groups_lookup. unfold group_total.
    rewrite filter_all; [done|]. intros x [_ Hx]%in_group_key. apply hour_key_bounds in Hx. lia.
  - intros b dm Hb. rewrite Hh, upsert_lookup, hourly_groups_lookup, filter_nothing; [done|].
    intros x [_ Hx]%in_group_key. apply hour_key_bounds in Hx. lia.
  - intros b dm Hb. rewrite Hd, upsert_lookup. unfold daily_groups. rewrite group_by_lookup.
    unfold group_total. rewrite in_group_filter, filter_all; [done|].
    intros x [_ Hx]%in_group_key. apply (f_equal fst) in Hx.
    apply Z.leb_le. etrans; [exact Hb|]. cbn in Hx. rewrite <- Hx. by apply trunc_le.
  - pose proof (rollup_keeps_rows turn d) as H. unfold exec in H. by rewrite Hrun in H.
Qed.

Lemma total_count l : (total row_totals l).2 = Z.of_nat (length l).
Proof.
  induction l as [|x l IH]; [done|]. change (total row_totals (x :: l)).2 with (1 + (total row_totals l).2).
  rewrite IH. cbn [length]. lia.
Qed.

Lemma filter_shorter {X} (p : X -> bool) l x :
  In x l -> p x = false -> (length (List.filter p l) < length l)%nat.
Proof.
  induction l as [|y l IH]; [done|]. intros [->|Hin] Hp; cbn.
  - rewrite Hp. pose proof (List.filter_length_le p l). lia.
  - specialize (IH Hin Hp). destruct (p y); cbn; lia.
Qed.

(** The hour in which the window begins is overwritten by its tail: when a row
    of it is older than the window and another is not, the bucket afterwards
    counts only the rows inside the window, fewer than the hour has, even if an
    earlier rollup had counted all of them. *)
Theorem rollup_forgets (turn : RollupTurn) (d d' : UsageDb) (r : Z * Z) (x y : UsageRow)
    (Hrun : rollup_recent turn d = (d', Ok r)) (Hx : In x (events d)) (Hy : In y (events d))
    (Hsame : hour_key x = hour_key y)
    (Hold : u_at x < rt_hourly_now turn - 2 * hour) (Hnew : rt_hourly_now turn - 2 * hour <= u_at y) :
  exists t, hourly d' !! hour_key x = Some t /\
    0 < t.2 < Z.of_nat (length (in_group hour_key (hour_key x) (events d))).
Proof.
  destruct (rollup_tables turn d d' r Hrun) as [-> _].
  rewrite upsert_lookup. destruct (hour_key x) as [b dm] eqn:Ek. rewrite hourly_groups_lookup.
  assert (Hg : forall z, In z (events d) -> hour_key z = (b, dm) -> In z (in_group hour_key (b, dm) (events d))).
  { intros z Hz Hk. apply filter_In. split; [done|]. by apply bool_decide_eq_true. }
  set (p := fun r : UsageRow => rt_hourly_now turn - 2 * hour <=? u_at r).
  assert (Hin : In y (List.filter p (in_group hour_key (b, dm) (events d)))).
  { apply filter_In. split; [by apply Hg|]. unfold p. lia. }
  assert (Hlt := filter_shorter p _ x (Hg x Hx Ek) ltac:(unfold p; lia)).
  destruct (List.filter p _) as [|z zs] eqn:Ef; [by apply in_nil in Hin|].
  eexists. split; [done|]. rewrite total_count. cbn in Hlt |- *. lia.
Qed.

(** ** Reports *)

Definition of_tenant (tenant : str) (start : Z) (b : Buckets) : list (Key * Totals) :=
  List.filter (fun kt => str_eqb (k_tenant kt.1) tenant && (start <=? kt.1.1)) (map_to_list b).

Definition pulls_since (start : Z) (b : Buckets) : list (Key * Totals) :=
  List.filter (fun kt => (start <=? kt.1.1) && str_eqb (k_op kt.1) "pull") (map_to_list b).

#[local] Instance earlier_trans : Transitive earlier.
Proof. intros x y z. unfold earlier. lia. Qed.
#[local] Instance earlier_total : Total earlier.
Proof. intros x y. unfold earlier. lia. Qed.
#[local] Instance pulled_more_trans : Transitive pulled_more.
Proof. intros x y z. unfold pulled_more. lia. Qed.
#[local] Instance pulled_more_total : Total pulled_more.
Proof. intros x y. unfold pulled_more. lia. Qed.

Lemma report_rows {K} `{Countable K} {X} (R : relation X) `{!RelDecision R} (f : K * Totals -> X)
    (m : gmap K Totals) x :
  x ∈ merge_sort R (map f (map_to_list m)) <-> exists k v, f (k, v) = x /\ m !! k = Some v.
Proof.
  rewrite (merge_sort_Permutation R), list_elem_of_In, in_map_iff. split.
  - intros ([k v] & Hf & Hin). exists k, v. split; [done|]. by apply list_elem_of_In, elem_of_map_to_list in Hin.
  - intros (k & v & Hf & Hin). exists (k, v). split; [done|]. by apply list_elem_of_In, elem_of_map_to_list.
Qed.

(** The series of a tenant has its buckets in order, one for each time,
    operation and source the tenant has a bucket for since the start of the
    window, with the totals over all its repositories and over no other
    tenant's. *)
Theorem tenant_series_exact (ago : Z -> result Z str) (tenant : str) (since : Z) (g : Granularity)
    (d : UsageDb) (l : list UsageBucket) (Hrun : tenant_series ago tenant since g d = Ok l) :
  exists start, ago since = Ok start /\ StronglySorted earlier l /\
    forall t op src bytes requests,
      mkUsageBucket t op src bytes requests ∈ l <->
      group_total series_key snd (t, op, src) (of_tenant tenant start (table g d)) = Some (bytes, requests).
Proof.
  unfold tenant_series in Hrun. destruct (ago since) as [start|]; [|done]. exists start. split; [done|].
  cbn in Hrun. destruct (as_bigint _) as [groups|] eqn:E; [|done]. apply as_bigint_ok in E as ->.
  injection Hrun as <-. split; [apply StronglySorted_merge_sort; apply _|].
  intros t op src bytes requests. rewrite <- group_by_lookup, report_rows. split.
  - by intros ([[t' op'] src'] & [b n] & [= -> -> -> -> ->] & Hin).
  - intros Hl. by exists (t, op, src), (bytes, requests).
Qed.

(** The top-pulled report has at most [limit] repositories, the most pulled
    first, each with the totals of its pull buckets since the start of the
    window; a repository that is left out is pulled at most as much as each one
    reported. *)
Theorem top_pulled_exact (ago : Z -> result Z str) (since limit : Z) (d : UsageDb)
    (l : list TopPulledRow) (Hrun : top_pulled ago since limit d = Ok l) :
  exists start, ago since = Ok start /\ (length l <= Z.to_nat limit)%nat /\ StronglySorted pulled_more l /\
    let totals t p r := group_total repo_key snd (t, p, r)
      (pulls_since start (table (if 24 * 3600 <=? since then Day else Hour) d)) in
    (forall t p r bytes pulls, mkTopPulledRow t p r bytes pulls ∈ l -> totals t p r = Some (bytes, pulls)) /\
    (forall t p r bytes pulls, totals t p r = Some (bytes, pulls) ->
       mkTopPulledRow t p r bytes pulls ∈ l \/
       length l = Z.to_nat limit /\ Forall (fun x => pulled_more x (mkTopPulledRow t p r bytes pulls)) l).
Proof.
  unfold top_pulled in Hrun. destruct (ago since) as [start|]; [|done]. exists start. split; [done|].
  cbn [result_bind] in Hrun. destruct (as_bigint _) as [groups|] eqn:E; [|done]. apply as_bigint_ok in E as ->.
  injection Hrun as <-. set (all := merge_sort pulled_more _).
  assert (Hall : forall t p r bytes pulls, mkTopPulledRow t p r bytes pulls ∈ all <->
    group_total repo_key snd (t, p, r) (pulls_since start (table (if 24 * 3600 <=? since then Day else Hour) d))
    = Some (bytes, pulls)).
  { intros t p r bytes pulls. unfold all. rewrite <- group_by_lookup, report_rows. split.
    - by intros ([[t' p'] r'] & [b n] & [= -> -> -> -> ->] & Hin).
    - intros Hl. by exists (t, p, r), (bytes, pulls). }
  assert (Hs : StronglySorted pulled_more all) by (apply StronglySorted_merge_sort; apply _).
  rewrite <- (take_drop (Z.to_nat limit) all) in Hs. apply StronglySorted_app in Hs as (Hc & Hs & _).
  split; [rewrite length_take; lia|]. split; [done|]. split.
  - intros t p r bytes pulls Hin. apply Hall.
    rewrite <- (take_drop (Z.to_nat limit) all). apply elem_of_app. by left.
  - intros t p r bytes pulls Ht. apply Hall in Ht.
    rewrite <- (take_drop (Z.to_nat limit) all) in Ht. apply elem_of_app in Ht as [Ht|Ht]; [by left|]. right.
    split; [|apply Forall_forall; intros x Hx; by apply Hc].
    assert (Hd : drop (Z.to_nat limit) all <> []) by (intros H; rewrite H in Ht; by apply elem_of_nil in Ht).
    rewrite length_take. destruct (decide (Z.to_nat limit <= length all)%nat); [lia|].
    rewrite drop_ge in Hd by lia. done.
Qed.

(** ** Instances *)

Definition pull_at (minute : Z) : UsageEvent :=
  mkUsageEvent (minute * 60 * 1000000000) "acme" "web" "api" OpPull 10 SrcOrigin 200 None.

Definition demo_key (b : Z) : Key := (b, ("acme" : str, "web" : str, "api" : str, "pull" : str, "origin" : str)).

Definition durable (minutes : list Z) : UsageDb :=
  mkUsageDb [] (map (fun m => row_of (pull_at m)) minutes) ∅ ∅.

Definition rollup_at (minute : Z) : RollupTurn :=
  mkRollupTurn (minute * 60 * 1000000) None (minute * 60 * 1000000) None (fun d => d).

Lemma usage_conserved_witness :
  let d' := fold_left (fun d a => act a d)
              [ARecord None (pull_at 1); ARecord (Some ("down" : str)) (pull_at 2);
               ADrain drainer_default None (fun l => l); ARecord None (pull_at 3)] usage_empty in
  Permutation (staging d' ++ events d') [row_of (pull_at 1); row_of (pull_at 3)].
Proof.
  destruct (usage_conserved
    [ARecord None (pull_at 1); ARecord (Some ("down" : str)) (pull_at 2);
     ADrain drainer_default None (fun l => l); ARecord None (pull_at 3)] usage_empty)
    as (lost & Hp & _ & Hl).
  - repeat (apply Forall_cons; split; [first [exact I|intros l; reflexivity]|]). by apply Forall_nil.
  - rewrite Hl in Hp; [exact Hp|]. intros H. repeat (apply elem_of_cons in H as [H|H]; [discriminate H|]).
    by apply elem_of_nil in H.
Defined.

Lemma drainer_empties_witness :
  let d := mkUsageDb (map (fun m => row_of (pull_at m)) [3; 1; 2]) [] ∅ ∅ in
  let turn := mkDrainTurn None (fun l => l) (fun d => d) in
  exists d' stats', drainer_run (mkDrainerConfig 60 2) [turn; turn] (mkDrainerStats 0 0 0) d = (d', stats') /\
    rows_drained stats' = 3.
Proof.
  intros d turn. eexists _, _. split; [vm_compute; reflexivity|].
  destruct (drainer_empties (mkDrainerConfig 60 2) [turn; turn] (mkDrainerStats 0 0 0) d _ _ eq_refl
    ltac:(repeat (apply Forall_cons; split; [done|]); by apply Forall_nil) eq_refl) as (moved & _ & _ & Hl & _ & Hr & _).
  refine (eq_trans Hr _). rewrite Hl. reflexivity.
Defined.

Lemma rollup_totals_witness :
  exists d' r, rollup_recent (rollup_at 130) (durable [10; 20; 70]) = (d', Ok r) /\
    hourly d' !! demo_key (60 * 60 * 1000000) = Some (10, 1).
Proof.
  eexists _, _. split; [apply run_eval; vm_compute; reflexivity|].
  destruct (rollup_totals (rollup_at 130) (durable [10; 20; 70]) _ (2, 1)
    (run_eval _ _ _ ltac:(vm_compute; reflexivity))) as [H _].
  refine (eq_trans (H _ _ _) _); vm_compute; congruence.
Defined.

(** Two hours after the first of three pulls of an hour, one is left. *)
Lemma rollup_forgets_witness :
  exists d' r, rollup_recent (rollup_at 150) (durable [10; 20; 40]) = (d', Ok r) /\
    exists t, hourly d' !! demo_key 0 = Some t /\ 0 < t.2 < 3.
Proof.
  eexists _, _. split; [apply run_eval; vm_compute; reflexivity|].
  apply (rollup_forgets (rollup_at 150) (durable [10; 20; 40]) _ (1, 1)
    (row_of (pull_at 10)) (row_of (pull_at 40)) (run_eval _ _ _ ltac:(vm_compute; reflexivity)));
    [by left|right; right; by left|done|done|done].
Defined.
