(* ===== verification/Lazy.v ===== *)
(** * Lazy pulling ([crates/specton-lazy])

    The queue of layers to index, the workers that claim jobs from it, the
    index and referrer rows they write, and the referrers endpoint of the
    registry.  Several workers run on one database: a claim is one statement,
    so the world may change between a claim and what its worker does next. *)

From stdpp Require Import sorting.
From S2P Require Import Prelude Json Effects Text Ephemeral Store Multipart Paths Auth Registry Gate.

Local Open Scope Z_scope.
Local Open Scope result_scope.

(** ** Formats and indexers ([indexer.rs]) *)

Inductive IndexFormat : Type := Estargz | ZstdChunked | Soci.

#[global] Instance index_format_eq_dec : EqDecision IndexFormat.
Proof. solve_decision. Defined.

Definition format_str (f : IndexFormat) : str :=
  match f with
  | Estargz => "estargz"
  | ZstdChunked => "zstd-chunked"
  | Soci => "soci"
  end.

Definition format_parse (s : str) : option IndexFormat :=
  if str_eqb s "estargz" then Some Estargz
  else if str_eqb s "zstd-chunked" || str_eqb s "zstd_chunked" then Some ZstdChunked
  else if str_eqb s "soci" then Some Soci
  else None.

Definition format_artifact_type (f : IndexFormat) : str :=
  match f with
  | Estargz => "application/vnd.containerd.stargz.toc.v1+json"
  | ZstdChunked => "application/vnd.containers.zstdchunked.toc.v1+json"
  | Soci => "application/vnd.amazon.soci.index.v1+json"
  end.

Inductive LazyError : Type :=
| LazyIo (what : str)
| LazyUnsupported
| LazyParse (what : str)
| LazyStorage (what : str).

Definition lazy_display (e : LazyError) : str :=
  match e with
  | LazyIo w => "io: " ++ w
  | LazyUnsupported => "layer not gzip/zstd compatible"
  | LazyParse w => "parser: " ++ w
  | LazyStorage w => "storage: " ++ w
  end.

Record TocOutput : Type := mkTocOutput {
  toc_blob : str;
  indexed_layer : option str;
  toc_bytes_original : Z;
  toc_bytes_indexed : Z
}.

Record TocIndexer : Type := mkTocIndexer {
  ix_format : IndexFormat;
  ix_index : str -> result TocOutput LazyError
}.

(** [StubEstargzIndexer]; [to_vec] is [serde_json]'s, [indexed_at] the clock. *)
Definition stub_estargz (to_vec : json -> str) (indexed_at : str) : TocIndexer :=
  mkTocIndexer Estargz (fun src =>
    let toc := to_vec (JObject [("format" : str, JString (format_str Estargz)); ("stub" : str, JBool true);
                                ("indexed_at" : str, JString indexed_at);
                                ("source_bytes" : str, JInt (len src))]) in
    Ok (mkTocOutput toc None (len src) (len toc))).

(** ** The tables ([jobs.rs], [0005_lazy_pull.sql], [0016_lazy_jobs_path.sql]) *)

Inductive JobStatus : Type := Queued | Running | Done | Failed.

#[global] Instance job_status_eq_dec : EqDecision JobStatus.
Proof. solve_decision. Defined.

Record LazyJob : Type := mkLazyJob {
  lj_layer_digest : str;
  lj_format : str;
  lj_status : JobStatus;
  lj_error : option str;
  lj_enqueued_at : Z;
  lj_started_at : option Z;
  lj_finished_at : option Z;
  lj_attempts : Z;
  lj_tenant : option str;
  lj_project : option str;
  lj_repository : option str
}.

Record IndexRow : Type := mkIndexRow {
  ir_indexed_digest : str;
  ir_toc_digest : str;
  ir_bytes_original : Z;
  ir_bytes_indexed : Z;
  ir_indexed_at : Z
}.

Record LazyWorld (W : Type) : Type := mkLazyWorld {
  lw_store : W;
  lw_jobs : gmap str LazyJob;
  lw_index : gmap (str * str) IndexRow;
  lw_referrers : gmap (str * str) Referrer
}.
Arguments mkLazyWorld {W}.
Arguments lw_store {W}.
Arguments lw_jobs {W}.
Arguments lw_index {W}.
Arguments lw_referrers {W}.

Inductive WorkerError : Type :=
| WorkerSqlx (what : str)
| WorkerIndexer (e : LazyError).

Definition worker_display (e : WorkerError) : str :=
  match e with
  | WorkerSqlx w => "sqlx: " ++ w
  | WorkerIndexer e => "indexer: " ++ lazy_display e
  end.

Definition i32_max : Z := 2147483647.

Definition running (now : Z) (j : LazyJob) : LazyJob :=
  mkLazyJob (lj_layer_digest j) (lj_format j) Running (lj_error j) (lj_enqueued_at j) (Some now)
    (lj_finished_at j) (lj_attempts j + 1) (lj_tenant j) (lj_project j) (lj_repository j).

(** A job at the end of an attempt. *)
Definition closed (status : JobStatus) (error : option str) (finished : option Z) (j : LazyJob) : LazyJob :=
  mkLazyJob (lj_layer_digest j) (lj_format j) status error (lj_enqueued_at j) (lj_started_at j)
    finished (lj_attempts j) (lj_tenant j) (lj_project j) (lj_repository j).

Definition enqueued_le (a b : str * LazyJob) : Prop := lj_enqueued_at a.2 <= lj_enqueued_at b.2.

#[global] Instance enqueued_le_dec : RelDecision enqueued_le.
Proof. intros a b. unfold enqueued_le. apply _. Defined.

Definition queued (jobs : gmap str LazyJob) : list (str * LazyJob) :=
  merge_sort enqueued_le (filter (fun kj => lj_status kj.2 = Queued) (map_to_list jobs)).

(** The column as text, read back by [get]. *)
Definition status_str (s : JobStatus) : str :=
  match s with
  | Queued => "queued"
  | Running => "running"
  | Done => "done"
  | Failed => "failed"
  end.

Definition status_parse (s : str) : JobStatus :=
  if str_eqb s "running" then Running
  else if str_eqb s "done" then Done
  else if str_eqb s "failed" then Failed
  else Queued.

Section lazy.
Context {W : Type} `{ObjectStore W}.

Abbreviation Lazy := (M (LazyWorld W) WorkerError).

Definition set_jobs (f : gmap str LazyJob -> gmap str LazyJob) (w : LazyWorld W) : LazyWorld W :=
  mkLazyWorld (lw_store w) (f (lw_jobs w)) (lw_index w) (lw_referrers w).

(** A statement that fails changes nothing. *)
Definition sql {A} (fault : option str) (m : Lazy A) : Lazy A :=
  match fault with
  | Some e => throw (WorkerSqlx e)
  | None => m
  end.

(** [ON CONFLICT DO NOTHING]: an id that is taken keeps its row. *)
Definition enqueue_job (fault : option str) (id : str) (now : Z) (layer_digest format : str)
    (tenant project repository : option str) : Lazy str :=
  sql fault
    (do! modify (set_jobs (fun jobs =>
           match jobs !! id with
           | Some _ => jobs
           | None => <[id := mkLazyJob layer_digest format Queued None now None None 0 tenant project
                              repository]> jobs
           end)) in
     ret id).

(** The task the registry spawns for an uploaded blob. *)
Definition lazy_task (fault : option str) (id : str) (now : Z) (t : task) : Lazy unit :=
  match t with
  | TLazyIndex digest format t p r =>
      let! _ := enqueue_job fault id now digest format (Some t) (Some p) (Some r) in ret tt
  | _ => ret tt
  end.

(** ** Fetching a layer ([worker.rs]) *)

Record LazyLib : Type := mkLazyLib {
  lazy_path : str -> str;
  lazy_digest : str -> str;
  store_error : StoreError -> str
}.

Record WorkerConfig : Type := mkWorkerConfig {
  idle_sleep_secs : Z;
  max_attempts : Z
}.

Definition worker_default : WorkerConfig := mkWorkerConfig 15 3.

Context (lib : LazyLib) (indexers : list TocIndexer) (config : WorkerConfig).

Definition fetch (tenant project repository layer_digest : str) : M W LazyError str :=
  let hex := match strip_prefix "sha256:" layer_digest with
             | Some h => h
             | None => layer_digest
             end in
  rethrow (fun e => LazyStorage ("get " ++ layer_digest ++ ": " ++ store_error lib e))
    (os_get (lazy_path lib (tenant ++ "/" ++ project ++ "/" ++ repository ++ "/blobs/sha256/" ++ hex))).

(** The map built by [Worker::new]: a later indexer of a format replaces an
    earlier one. *)
Definition indexer_for (f : IndexFormat) : option TocIndexer :=
  List.find (fun ix => bool_decide (ix_format ix = f)) (rev indexers).

(** ** One job *)

(** The claim: the oldest queued job becomes running, in one statement. *)
Definition claim (fault : option str) (now : Z) : Lazy (option (str * LazyJob)) :=
  sql fault
    (let! w := gets (fun w => w) in
     match queued (lw_jobs w) with
     | [] => ret None
     | (id, j) :: _ =>
         if i32_max <? lj_attempts j + 1 then throw (WorkerSqlx "integer out of range")
         else
           do! modify (set_jobs (insert id (running now j))) in
           ret (Some (id, running now j))
     end).

(** [UPDATE lazy_jobs SET .. WHERE id = $1] *)
Definition update_job (fault : option str) (id : str) (f : LazyJob -> LazyJob) : Lazy unit :=
  sql fault (modify (set_jobs (alter f id))).

Definition mark_failed (fault : option str) (now : Z) (id msg : str) : Lazy unit :=
  update_job fault id (closed Failed (Some msg) (Some now)).

Definition requeue (fault : option str) (id msg : str) : Lazy unit :=
  update_job fault id (fun j => closed Queued (Some msg) (lj_finished_at j) j).

(** One transaction for the index row and the job, then the referrer on its
    own, whose failure is only logged. *)
Definition persist_success (fault referrer_fault : option str) (now : Z) (id layer_digest format : str)
    (bytes_original : Z) (out : TocOutput) : Lazy unit :=
  let toc_digest := lazy_digest lib (toc_blob out) in
  let indexed_digest := match indexed_layer out with
                        | Some b => lazy_digest lib b
                        | None => layer_digest
                        end in
  do! sql fault
        (modify (fun w => mkLazyWorld (lw_store w)
           (alter (closed Done None (Some now)) id (lw_jobs w))
           (<[(layer_digest, format) := mkIndexRow indexed_digest toc_digest bytes_original
                                          (toc_bytes_indexed out) now]> (lw_index w))
           (lw_referrers w))) in
  let ty := match format_parse format with
            | Some f => format_artifact_type f
            | None => format
            end in
  let r := mkReferrer layer_digest toc_digest ty "application/vnd.oci.descriptor.v1+json"
             (len (toc_blob out)) in
  match referrer_fault with
  | Some _ => ret tt
  | None => modify (fun w => mkLazyWorld (lw_store w) (lw_jobs w) (lw_index w)
                               (<[(layer_digest, toc_digest) := r]> (lw_referrers w)))
  end.

(** What meets a turn of a worker: its clocks, the statements that fail, and
    what others do to the world after the claim and while the layer is indexed. *)
Record WorkerTurn : Type := mkWorkerTurn {
  wt_claim_now : Z;
  wt_claim_fault : option str;
  wt_after_claim : LazyWorld W -> LazyWorld W;
  wt_meanwhile : LazyWorld W -> LazyWorld W;
  wt_finish_now : Z;
  wt_finish_fault : option str;
  wt_referrer_fault : option str
}.

(** Fetching and indexing, as a value. *)
Definition index_layer (indexer : TocIndexer) (t p r layer_digest : str) :
    Lazy (result (Z * TocOutput) WorkerError) :=
  let! bytes := fun w => let '(st, b) := fetch t p r layer_digest (lw_store w) in
                         (mkLazyWorld st (lw_jobs w) (lw_index w) (lw_referrers w), Ok b) in
  ret (let? bytes := map_err WorkerIndexer bytes in
       let? out := map_err WorkerIndexer (ix_index indexer bytes) in
       Ok (len bytes, out)).

(** The rest of [claim_and_run_one], for the job [j] as the claim returned it. *)
Definition run_claimed (turn : WorkerTurn) (id : str) (j : LazyJob) : Lazy bool :=
  match format_parse (lj_format j) with
  | None => throw (WorkerIndexer (LazyParse ("bad format " ++ lj_format j)))
  | Some f =>
      match indexer_for f with
      | None =>
          do! mark_failed (wt_finish_fault turn) (wt_finish_now turn) id
                ("no indexer for format " ++ lj_format j) in
          ret true
      | Some indexer =>
          match lj_tenant j, lj_project j, lj_repository j with
          | Some t, Some p, Some r =>
              let! result := index_layer indexer t p r (lj_layer_digest j) in
              do! modify (wt_meanwhile turn) in
              do! match result with
                  | Ok (bytes_original, out) =>
                      persist_success (wt_finish_fault turn) (wt_referrer_fault turn) (wt_finish_now turn) id
                        (lj_layer_digest j) (lj_format j) bytes_original out
                  | Err e =>
                      if max_attempts config <=? lj_attempts j
                      then mark_failed (wt_finish_fault turn) (wt_finish_now turn) id (worker_display e)
                      else requeue (wt_finish_fault turn) id (worker_display e)
                  end in
              ret true
          | _, _, _ =>
              do! mark_failed (wt_finish_fault turn) (wt_finish_now turn) id
                    "lazy_jobs row missing tenant/project/repository" in
              ret true
          end
      end
  end.

Definition claim_and_run_one (turn : WorkerTurn) : Lazy bool :=
  let! row := claim (wt_claim_fault turn) (wt_claim_now turn) in
  match row with
  | None => ret false
  | Some (id, j) =>
      do! modify (wt_after_claim turn) in
      run_claimed turn id j
  end.

(** The loop; an empty queue or an error only makes it sleep. *)
Definition worker_run (turns : list WorkerTurn) : Lazy unit :=
  for_each turns (fun turn => let! _ := attempt (F := WorkerError) (claim_and_run_one turn) in ret tt).

(** ** The referrers endpoint ([main.rs], [referrers.rs]) *)

Definition list_of (referrers : gmap (str * str) Referrer) (subject : str) (ty : option str) : list Referrer :=
  List.filter (fun r => str_eqb (ref_subject r) subject
                        && match ty with
                           | Some t => str_eqb (ref_type r) t
                           | None => true
                           end)
    (map snd (map_to_list referrers)).

Definition list_referrers (fault : option str) (pool : bool) (claims : TokenClaims) (p : RepoPath)
    (digest : str) (artifact_type : option str) (w : LazyWorld W) : result (list Referrer) RegistryError :=
  let? _ := authorize claims (tenant p) (project p) (name p) Pull in
  if negb pool then Err (Internal "referrers backend not configured")
  else match fault with
       | Some e => Err (Internal ("referrers query failed: sqlx: " ++ e))
       | None => Ok (list_of (lw_referrers w) digest artifact_type)
       end.
End lazy.
