(* ===== verification/LazyTheorems.v ===== *)
(** * What the indexing queue promises

    Any number of workers and producers share the job table.  No job is run by
    two workers at once, attempts stay within their limit, finished jobs stay
    finished, and a worker that meets no failures empties the queue. *)

From stdpp Require Import sorting relations.
From S2P Require Import Prelude Json Effects Text Ephemeral Store Multipart Paths Auth Registry Gate Lazy.

Local Open Scope Z_scope.

Section queue.
Context {W : Type} `{ObjectStore W} (lib : LazyLib) (indexers : list TocIndexer) (config : WorkerConfig).

Abbreviation World := (LazyWorld W).
Abbreviation Job := (str * LazyJob)%type.

(** ** The system: the world, and the jobs workers hold *)

Definition with_store (st : W) (w : World) : World :=
  mkLazyWorld st (lw_jobs w) (lw_index w) (lw_referrers w).

(** A worker's turn after its claim reads the store and ends with one statement
    on the tables, so it is one step here, between steps that change the store
    in any way.  [step_abandon] is a worker that dies. *)
Inductive lazy_step : World * list Job -> World * list Job -> Prop :=
| step_enqueue fault id now d f t p r w fl :
    lazy_step (w, fl) (exec (enqueue_job fault id now d f t p r) w, fl)
| step_store st w fl : lazy_step (w, fl) (with_store st w, fl)
| step_claim fault now w w' id j fl :
    claim fault now w = (w', Ok (Some (id, j))) -> lazy_step (w, fl) (w', (id, j) :: fl)
| step_finish turn w id j fl1 fl2 :
    wt_meanwhile turn = (fun w => w) ->
    lazy_step (w, fl1 ++ (id, j) :: fl2) (exec (run_claimed lib indexers config turn id j) w, fl1 ++ fl2)
| step_abandon w id j fl1 fl2 : lazy_step (w, fl1 ++ (id, j) :: fl2) (w, fl1 ++ fl2).

Definition limit : Z := Z.max 1 (max_attempts config).

Definition job_ok (index : gmap (str * str) IndexRow) (j : LazyJob) : Prop :=
  0 <= lj_attempts j <= limit /\
  (lj_status j = Queued -> lj_attempts j < limit) /\
  (lj_status j = Done -> is_Some (index !! (lj_layer_digest j, lj_format j))).

(** What a worker holds is running, as it was claimed, and held once. *)
Record queue_ok (s : World * list Job) : Prop := mkQueueOk {
  held_once : NoDup (s.2.*1);
  held_running : forall id j, (id, j) ∈ s.2 -> lw_jobs s.1 !! id = Some j /\ lj_status j = Running;
  jobs_ok : map_Forall (fun _ j => job_ok (lw_index s.1) j) (lw_jobs s.1)
}.

(** How a job may change. *)
Definition job_grows (j j' : LazyJob) : Prop :=
  lj_layer_digest j' = lj_layer_digest j /\ lj_format j' = lj_format j /\
  lj_attempts j <= lj_attempts j' /\
  (lj_status j = Done \/ lj_status j = Failed -> j' = j).

Definition jobs_grow (m m' : gmap str LazyJob) : Prop :=
  forall id j, m !! id = Some j -> exists j', m' !! id = Some j' /\ job_grows j j'.

#[local] Instance job_grows_preorder : PreOrder job_grows.
Proof.
  split; [intros j; by split_and!|]. intros a b c (?&?&?&Ha) (?&?&?&Hb). split_and!; try congruence; try lia.
  intros Hs. rewrite (Ha Hs) in *. by apply Hb.
Qed.

Lemma jobs_grow_refl m : jobs_grow m m.
Proof. intros id j Hj. by exists j. Qed.

Lemma jobs_grow_trans a b c : jobs_grow a b -> jobs_grow b c -> jobs_grow a c.
Proof.
  intros Hab Hbc id j Hj. destruct (Hab id j Hj) as (j1 & H1 & G1).
  destruct (Hbc id j1 H1) as (j2 & H2 & G2). exists j2. split; [done|]. by trans j1.
Qed.

Lemma jobs_grow_insert m id j j' : m !! id = Some j -> job_grows j j' -> jobs_grow m (<[id := j']> m).
Proof.
  intros Hj Hg k x Hx. destruct (decide (k = id)) as [->|Hne].
  - exists j'. rewrite lookup_insert_eq. split; [done|]. congruence.
  - exists x. by rewrite lookup_insert_ne.
Qed.

(** ** Enqueueing and claiming *)

Lemma enqueue_inv fault id now d f t p r (w : World) :
  let w' := exec (enqueue_job fault id now d f t p r) w in
  lw_index w' = lw_index w /\
  (lw_jobs w' = lw_jobs w \/
   lw_jobs w !! id = None /\
   lw_jobs w' = <[id := mkLazyJob d f Queued None now None None 0 t p r]> (lw_jobs w)).
Proof.
  unfold enqueue_job, sql, exec. destruct fault; [by split; [|left]|]. cbn. split; [done|].
  destruct (lw_jobs w !! id); auto.
Qed.

Lemma in_queued jobs kj : kj ∈ queued jobs <-> jobs !! kj.1 = Some kj.2 /\ lj_status kj.2 = Queued.
Proof.
  unfold queued. rewrite merge_sort_Permutation, list_elem_of_filter. destruct kj as [id j].
  rewrite elem_of_map_to_list. cbn. tauto.
Qed.

Lemma claim_inv fault now (w w' : World) id j' :
  claim fault now w = (w', Ok (Some (id, j'))) ->
  exists j, lw_jobs w !! id = Some j /\ lj_status j = Queued /\ j' = running now j /\
    w' = set_jobs (insert id j') w.
Proof.
  unfold claim, sql. destruct fault; [done|]. unfold bind, gets.
  destruct (queued (lw_jobs w)) as [|[k j] l] eqn:E; [done|]. case_match; [done|].
  intros [= <- <- <-]. exists j. assert (Hin : (k, j) ∈ queued (lw_jobs w)) by (rewrite E; by left).
  apply in_queued in Hin as [Hk Hs]. by split_and!.
Qed.

(** ** The end of a turn *)

(** The statement a turn ends with: none, or the held job is closed; a job that
    is done has its index row. *)
Definition closes (id : str) (j : LazyJob) (w w' : World) : Prop :=
  lw_jobs w' = lw_jobs w /\ lw_index w' = lw_index w \/
  exists status error finished,
    lw_jobs w' = alter (closed status error finished) id (lw_jobs w) /\
    (lw_index w' = lw_index w /\ (status = Failed \/ status = Queued /\ lj_attempts j < max_attempts config) \/
     status = Done /\ exists row, lw_index w' = <[(lj_layer_digest j, lj_format j) := row]> (lw_index w)).

Lemma mark_failed_closes fault now id msg j (w : World) :
  closes id j w (exec (mark_failed fault now id msg) w).
Proof.
  unfold mark_failed, update_job, sql. destruct fault; [by left|]. right. eexists _, _, _. split; [done|]. left. auto.
Qed.

Lemma requeue_closes fault id msg j (w : World) :
  lw_jobs w !! id = Some j -> lj_attempts j < max_attempts config ->
  closes id j w (exec (requeue fault id msg) w).
Proof.
  intros Hj Ha. unfold requeue, update_job, sql. destruct fault; [by left|]. right.
  exists Queued, (Some msg), (lj_finished_at j). split; [|left; auto].
  cbn. apply map_eq. intros k. destruct (decide (k = id)) as [->|Hne].
  - by rewrite !lookup_alter_eq, Hj.
  - by rewrite !lookup_alter_ne.
Qed.

Lemma persist_closes fault rf now id j n out (w : World) :
  closes id j w (exec (persist_success lib fault rf now id (lj_layer_digest j) (lj_format j) n out) w).
Proof.
  unfold persist_success, exec, bind, sql. destruct fault; [by left|]. right.
  eexists _, _, _. destruct rf; cbn; (split; [done|]); right; by eauto.
Qed.

Lemma run_closes turn id j (w : World) :
  wt_meanwhile turn = (fun w => w) -> lw_jobs w !! id = Some j ->
  closes id j w (exec (run_claimed lib indexers config turn id j) w).
Proof.
  intros Hm Hj.
  assert (Hret : forall (m : M World WorkerError unit), exec (do! m in ret true) w = exec m w).
  { intros m. unfold exec, bind. by destruct (m w) as [? []]. }
  unfold run_claimed. destruct (format_parse _); [|by left].
  destruct (indexer_for indexers _) as [ix|]; [|rewrite Hret; apply mark_failed_closes].
  destruct (lj_tenant j) as [t|], (lj_project j) as [p|], (lj_repository j) as [r|];
    try (rewrite Hret; apply mark_failed_closes).
  unfold index_layer, exec, bind, modify. rewrite Hm.
  destruct (fetch lib t p r (lj_layer_digest j) (lw_store w)) as [st b]. cbn [fst ret].
  set (w1 := mkLazyWorld st (lw_jobs w) (lw_index w) (lw_referrers w)).
  match goal with |- context [result_bind ?a ?f] => destruct (result_bind a f) as [[n out]|e] end.
  - pose proof (persist_closes (wt_finish_fault turn) (wt_referrer_fault turn) (wt_finish_now turn)
      id j n out w1) as H1. unfold exec in H1. by destruct (persist_success _ _ _ _ _ _ _ _ _ w1) as [? []].
  - destruct (max_attempts config <=? lj_attempts j) eqn:E.
    + pose proof (mark_failed_closes (wt_finish_fault turn) (wt_finish_now turn) id (worker_display e) j w1) as H1.
      unfold exec in H1. by destruct (mark_failed _ _ _ _ w1) as [? []].
    + pose proof (requeue_closes (wt_finish_fault turn) id (worker_display e) j w1 Hj ltac:(lia)) as H1.
      unfold exec in H1. by destruct (requeue _ _ _ w1) as [? []].
Qed.

(** ** The invariant *)

Lemma job_ok_index index k row j : job_ok index j -> job_ok (<[k := row]> index) j.
Proof.
  intros (Ha & Hq & Hd). split; [done|]. split; [done|]. intros Hs. destruct (Hd Hs) as [x Hx].
  rewrite lookup_insert. case_decide; eauto.
Qed.

Lemma closes_ok id j fl1 fl2 (w w' : World) :
  queue_ok (w, fl1 ++ (id, j) :: fl2) -> closes id j w w' ->
  queue_ok (w', fl1 ++ fl2) /\ jobs_grow (lw_jobs w) (lw_jobs w').
Proof.
  intros [Hn Hr Hj] Hc. cbn in *.
  assert (Hid : lw_jobs w !! id = Some j /\ lj_status j = Running)
    by (apply Hr; apply elem_of_app; right; by left).
  rewrite fmap_app in Hn. cbn in Hn. apply NoDup_app in Hn as (Hn1 & Hn12 & Hn2).
  apply NoDup_cons in Hn2 as [Hni Hn2].
  assert (Hn' : NoDup ((fl1 ++ fl2).*1)).
  { rewrite fmap_app. apply NoDup_app. split_and!; try done. intros x Hx Hx'. apply (Hn12 x Hx). by right. }
  assert (Hother : forall k x, (k, x) ∈ fl1 ++ fl2 -> k <> id).
  { intros k x [Hk|Hk]%elem_of_app ->; apply (list_elem_of_fmap_2 fst) in Hk; cbn in Hk.
    - apply (Hn12 id Hk). by left.
    - done. }
  assert (Hr' : forall k x, (k, x) ∈ fl1 ++ fl2 -> lw_jobs w !! k = Some x /\ lj_status x = Running).
  { intros k x Hk. apply Hr. apply elem_of_app. apply elem_of_app in Hk as [Hk|Hk]; [by left|right; by right]. }
  destruct Hc as [[Hw1 Hw2]|(status & error & finished & Hw1 & Hw2)].
  { rewrite Hw1. split; [|apply jobs_grow_refl]. split; cbn; rewrite ?Hw1, ?Hw2; done. }
  assert (Ha : lw_jobs w' = <[id := closed status error finished j]> (lw_jobs w)).
  { rewrite Hw1. apply map_eq. intros k. destruct (decide (k = id)) as [->|Hne].
    - by rewrite lookup_alter_eq, lookup_insert_eq, (proj1 Hid).
    - by rewrite lookup_alter_ne, lookup_insert_ne. }
  rewrite Ha. split.
  - split; cbn; [done| |].
    + intros k x Hk. rewrite Ha, lookup_insert_ne by (symmetry; by eapply Hother). by apply Hr'.
    + rewrite Ha. destruct (Hj id j (proj1 Hid)) as (Hatt & _ & _).
      destruct Hw2 as [[-> Hst]|[-> [row ->]]]; apply map_Forall_insert_2.
      * split; [done|]. cbn. destruct Hst as [->|[-> Hlt]]; split; try done. unfold limit. lia.
      * done.
      * split; [done|]. split; [done|]. intros _. cbn. rewrite lookup_insert_eq. by eexists.
      * intros k x Hk. apply job_ok_index. by apply (Hj k x).
  - apply (jobs_grow_insert _ id j); [apply Hid|]. split_and!; cbn; try done; try lia.
    destruct Hid as [_ ->]. by intros [?|?].
Qed.

Lemma step_ok s s' : lazy_step s s' -> queue_ok s -> queue_ok s' /\ jobs_grow (lw_jobs s.1) (lw_jobs s'.1).
Proof.
  intros Hstep Hok.
  destruct Hstep as [fault id now d f t p r w fl|st w fl|fault now w w' id j fl Hc|turn w id j fl1 fl2 Hm|w id j fl1 fl2];
    cbn [fst].
  - destruct (enqueue_inv fault id now d f t p r w) as [Hi [Hw|[E Hw]]]; rewrite Hw.
    { destruct Hok as [Hn Hr Hj]. split; [|apply jobs_grow_refl]. split; cbn; rewrite ?Hw, ?Hi; done. }
    destruct Hok as [Hn Hr Hj]. cbn in *. split.
    + split; cbn; rewrite ?Hw, ?Hi; [done| |].
      * intros k x Hk. destruct (Hr k x Hk) as [Hx Hs]. rewrite lookup_insert_ne; [done|]. congruence.
      * apply map_Forall_insert_2; [|done]. split_and!; cbn; unfold limit; try lia; try done.
    + intros k x Hx. exists x. rewrite lookup_insert_ne by congruence. done.
  - destruct Hok as [Hn Hr Hj]. split; [by split|apply jobs_grow_refl].
  - apply claim_inv in Hc as (j0 & Hj0 & Hq & -> & ->). destruct Hok as [Hn Hr Hj]. cbn in *.
    destruct (Hj id j0 Hj0) as (Ha & Hlt & _). specialize (Hlt Hq).
    assert (Hfree : forall x, (id, x) ∈ fl -> False).
    { intros x Hx. destruct (Hr id x Hx) as [H1 H2]. congruence. }
    split; [split; cbn|].
    + apply NoDup_cons. split; [|done]. intros ([k x] & -> & Hx)%list_elem_of_fmap. by apply (Hfree x).
    + intros k x [[= -> ->]|Hk]%elem_of_cons; [by rewrite lookup_insert_eq|].
      rewrite lookup_insert_ne; [by apply Hr|]. intros ->. by apply (Hfree x).
    + apply map_Forall_insert_2; [|done]. split_and!; cbn; try done; lia.
    + apply (jobs_grow_insert _ id j0); [done|]. split_and!; cbn; try done; [lia|]. rewrite Hq. by intros [?|?].
  - assert (Hid : lw_jobs w !! id = Some j).
    { apply (held_running _ Hok id j). cbn. apply elem_of_app. right. by left. }
    apply (closes_ok id j fl1 fl2); [done|]. by apply run_closes.
  - apply (closes_ok id j fl1 fl2); [done|]. by left.
Qed.

Lemma steps_ok s s' :
  rtc lazy_step s s' -> queue_ok s -> queue_ok s' /\ jobs_grow (lw_jobs s.1) (lw_jobs s'.1).
Proof.
  induction 1 as [s|s s1 s' Hs _ IH]; intros Hok; [split; [done|apply jobs_grow_refl]|].
  destruct (step_ok s s1 Hs Hok) as [Hok1 Hg1]. destruct (IH Hok1) as [Hok' Hg']. split; [done|].
  by eapply jobs_grow_trans.
Qed.

Lemma empty_ok (st : W) : queue_ok (mkLazyWorld st ∅ ∅ ∅, []).
Proof. split; cbn; [constructor|by intros ? ? ?%elem_of_nil|apply map_Forall_empty]. Qed.

(** ** A worker that meets no failures *)

Definition calm (turn : WorkerTurn (W := W)) : Prop :=
  wt_claim_fault turn = None /\ wt_finish_fault turn = None /\
  wt_after_claim turn = (fun w => w) /\ wt_meanwhile turn = (fun w => w).

Definition finished (j : LazyJob) : Prop := lj_status j = Done \/ lj_status j = Failed.

Lemma alter_known (m : gmap str LazyJob) id j f : m !! id = Some j -> alter f id m = <[id := f j]> m.
Proof.
  intros Hj. apply map_eq. intros k. destruct (decide (k = id)) as [->|Hne].
  - by rewrite lookup_alter_eq, lookup_insert_eq, Hj.
  - by rewrite lookup_alter_ne, lookup_insert_ne.
Qed.

Lemma run_calm turn id j (w : World) :
  calm turn -> is_Some (format_parse (lj_format j)) -> lw_jobs w !! id = Some j ->
  exists w' j', run_claimed lib indexers config turn id j w = (w', Ok true) /\
    lw_jobs w' = <[id := j']> (lw_jobs w) /\ lj_format j' = lj_format j /\ lj_attempts j' = lj_attempts j /\
    (finished j' \/ lj_status j' = Queued /\ lj_attempts j < max_attempts config).
Proof.
  intros (_ & Hf & _ & Hm) [f Hp] Hj. unfold run_claimed. rewrite Hp.
  assert (Hfail : forall msg, exists w' j', (do! mark_failed None (wt_finish_now turn) id msg in ret true) w = (w', Ok true) /\
    lw_jobs w' = <[id := j']> (lw_jobs w) /\ lj_format j' = lj_format j /\ lj_attempts j' = lj_attempts j /\
    (finished j' \/ lj_status j' = Queued /\ lj_attempts j < max_attempts config)).
  { intros msg. eexists _, _. split; [done|]. cbn. split; [by apply alter_known|].
    split_and!; [done..|]. left. by right. }
  rewrite Hf, Hm. destruct (indexer_for indexers f) as [ix|]; [|apply Hfail].
  destruct (lj_tenant j) as [t|], (lj_project j) as [p|], (lj_repository j) as [r|]; try apply Hfail.
  unfold index_layer, bind, modify, ret.
  destruct (fetch lib t p r (lj_layer_digest j) (lw_store w)) as [st b].
  match goal with |- context [result_bind ?a ?f] => destruct (result_bind a f) as [[n out]|e] end.
  - unfold persist_success, sql, bind, modify. destruct (wt_referrer_fault turn); cbn;
      (eexists _, _; split; [done|]; cbn; split; [by apply alter_known|]; split_and!; [done..|]; left; by left).
  - destruct (max_attempts config <=? lj_attempts j) eqn:E.
    + eexists _, _. split; [done|]. cbn. split; [by apply alter_known|]. split_and!; [done..|]. left. by right.
    + eexists _, _. split; [done|]. cbn. split; [by apply alter_known|]. split_and!; [done..|]. right.
      split; [done|lia].
Qed.

(** Attempts a job has left, and all queued jobs together. *)
Definition attempts_left (j : LazyJob) : nat :=
  if decide (lj_status j = Queued) then Z.to_nat (limit - lj_attempts j) else 0%nat.

Definition budget (m : gmap str LazyJob) : nat :=
  list_sum (map (fun kj => attempts_left kj.2) (map_to_list m)).

Lemma budget_insert m id j j' :
  m !! id = Some j -> (budget (<[id := j']> m) + attempts_left j = budget m + attempts_left j')%nat.
Proof.
  intros Hj. unfold budget. rewrite <- (insert_delete_id m id j Hj) at 2. rewrite <- insert_delete_eq.
  rewrite !map_to_list_insert by apply lookup_delete_eq. cbn. lia.
Qed.

(** What a turn needs of the jobs it may meet. *)
Definition claimable (m : gmap str LazyJob) : Prop :=
  map_Forall (fun _ j => lj_status j = Queued ->
    0 <= lj_attempts j < limit) m.

(** How a queued job ends: with a known format, done or failed. *)
Definition settled (j j' : LazyJob) : Prop :=
  match format_parse (lj_format j) with
  | Some _ => finished j'
  | None => lj_status j' = Running
  end.

Lemma calm_turn turn (w : World) :
  calm turn -> claimable (lw_jobs w) -> max_attempts config <= i32_max ->
  (map_Forall (fun _ j => lj_status j <> Queued) (lw_jobs w) /\
   claim_and_run_one lib indexers config turn w = (w, Ok false)) \/
  exists w' res id j j', claim_and_run_one lib indexers config turn w = (w', res) /\
    lw_jobs w !! id = Some j /\ lj_status j = Queued /\ lw_jobs w' = <[id := j']> (lw_jobs w) /\
    lj_format j' = lj_format j /\ lj_attempts j' = lj_attempts j + 1 /\
    (settled j j' /\ lj_status j' <> Queued \/ lj_status j' = Queued /\ lj_attempts j' < max_attempts config).
Proof.
  intros Hcalm Hok Hmax. destruct Hcalm as (Hcf & Hff & Hac & Hm) eqn:Hc. clear Hc.
  unfold claim_and_run_one. rewrite Hcf, Hac. unfold claim, sql, bind, gets.
  destruct (queued (lw_jobs w)) as [|[id j] l] eqn:E.
  { left. split; [|done]. intros k x Hx Hq. assert (Hin : (k, x) ∈ queued (lw_jobs w)) by by apply in_queued.
    rewrite E in Hin. by apply elem_of_nil in Hin. }
  right. assert (Hin : (id, j) ∈ queued (lw_jobs w)) by (rewrite E; by left).
  apply in_queued in Hin as [Hj Hq]. cbn in Hj, Hq. pose proof (Hok id j Hj Hq) as Ha.
  replace (i32_max <? lj_attempts j + 1) with false by (unfold limit, i32_max in *; lia).
  cbn [modify ret]. set (w1 := set_jobs _ w).
  destruct (format_parse (lj_format j)) as [f|] eqn:Hp.
  2: { exists w1, (Err (WorkerIndexer (LazyParse ("bad format " ++ lj_format j)))), id, j, (running (wt_claim_now turn) j).
       unfold run_claimed, settled. cbn [lj_format running]. rewrite Hp. split_and!; try done. by left. }
  destruct (run_calm turn id (running (wt_claim_now turn) j) w1 (conj Hcf (conj Hff (conj Hac Hm))))
    as (w' & j' & Hrun & Hw & Hf & Hatt & Hst); [cbn; by rewrite Hp|cbn; by rewrite lookup_insert_eq|].
  exists w', (Ok true), id, j, j'. split; [exact Hrun|]. split_and!; try done.
  - rewrite Hw. cbn. by rewrite insert_insert_eq.
  - destruct Hst as [Hst|[Hst Hlt]]; [left|right].
    { unfold settled. rewrite Hp. split; [done|]. destruct Hst; congruence. }
    split; [done|]. cbn in Hlt. rewrite Hatt. exact Hlt.
Qed.
End queue.

Lemma claimable_insert config m id j' :
  claimable config m ->
  (lj_status j' = Queued -> 0 <= lj_attempts j' < limit config) -> claimable config (<[id := j']> m).
Proof. intros Hm Ha. by apply map_Forall_insert_2. Qed.

Lemma budget_zero config m : map_Forall (fun _ j => lj_status j <> Queued) m -> budget config m = 0%nat.
Proof.
  induction m as [|k j m Hk IH] using map_ind; [done|]. intros [Hj Hm]%map_Forall_insert; [|done].
  unfold budget. rewrite map_to_list_insert by done. cbn. unfold attempts_left at 1.
  rewrite decide_False by done. by apply IH.
Qed.

Section theorems.
Context {W : Type} `{ObjectStore W}.

(** C29: From the empty queue, any number of workers and producers, failing
    statements and dying workers included, reach only states in which no job is
    held by two workers, what a worker holds is running and as it was claimed,
    no job is tried more often than the limit, a queued job has an attempt left,
    and the layer of every job that is done has its index row.  Along the way no
    job is lost, changes its layer or is reopened once it is done or failed. *)
Theorem lazy_queue_invariant (lib : LazyLib) (indexers : list TocIndexer) (config : WorkerConfig)
    (st : W) (s s' : LazyWorld W * list (str * LazyJob))
    (Hreach : rtc (lazy_step lib indexers config) (mkLazyWorld st ∅ ∅ ∅, []) s)
    (Hlater : rtc (lazy_step lib indexers config) s s') :
  queue_ok config s /\ jobs_grow (lw_jobs s.1) (lw_jobs s'.1).
Proof.
  destruct (steps_ok lib indexers config _ _ Hreach (empty_ok config st)) as [Hok _].
  split; [done|]. by apply (steps_ok lib indexers config _ _ Hlater).
Qed.

(** C30: A worker that runs alone and meets no failing claim or final statement
    empties the queue, if its queued jobs have attempts left (as they have in
    every reachable state) and the limit of attempts fits in 32 bits: after as
    many turns as those jobs have attempts left, whatever the store and the
    indexers answer, every job that was queued with a known format is done or
    failed, and every other job is as it was, but for those queued with a format
    that does not parse: the worker claims each once and leaves it running. *)
Theorem lazy_drains (lib : LazyLib) (indexers : list TocIndexer) (config : WorkerConfig)
    (turns : list WorkerTurn) (w : LazyWorld W)
    (Hcalm : Forall calm turns) (Hmax : max_attempts config <= i32_max)
    (Hok : forall id j, lw_jobs w !! id = Some j -> lj_status j = Queued -> 0 <= lj_attempts j < limit config)
    (Henough : (budget config (lw_jobs w) <= length turns)%nat) :
  let w' := exec (worker_run lib indexers config turns) w in
  forall id j, lw_jobs w !! id = Some j ->
    exists j', lw_jobs w' !! id = Some j' /\
      (lj_status j = Queued ->
         match format_parse (lj_format j) with
         | Some _ => lj_status j' = Done \/ lj_status j' = Failed
         | None => lj_status j' = Running
         end) /\
      (lj_status j <> Queued -> j' = j).
Proof.
  revert w Hok Henough. induction turns as [|turn turns IH]; intros w Hok Henough; cbn.
  - intros id j Hj. exists j. split; [done|]. split; [|done]. intros Hq. exfalso.
    pose proof (Hok id j Hj Hq) as Ha.
    pose proof (budget_insert config (lw_jobs w) id j (closed Done None None j) Hj) as Hb.
    unfold attempts_left in Hb. rewrite decide_True in Hb by done.
    rewrite decide_False in Hb by done. cbn in Henough. lia.
  - inversion Hcalm as [|? ? Hturn Hcalm']; subst. unfold worker_run, exec, bind, attempt. cbn [for_each].
    unfold bind. destruct (calm_turn lib indexers config turn w Hturn Hok Hmax)
      as [[Hnone ->]|(w1 & res & id & j & j' & -> & Hj & Hq & Hw & Hf & Ha & Hst)]; cbn [ret].
    { apply (IH Hcalm' w Hok). rewrite (budget_zero config _ Hnone). lia. }
    pose proof (Hok id j Hj Hq) as Hatt.
    assert (Hok1 : claimable config (lw_jobs w1)).
    { rewrite Hw. apply claimable_insert; [done|]. intros Hq'.
      destruct Hst as [[_ Hd]|[_ Hlt]]; [done|]. unfold limit. lia. }
    assert (Hb1 : (budget config (lw_jobs w1) < budget config (lw_jobs w))%nat).
    { pose proof (budget_insert config (lw_jobs w) id j j' Hj) as Hb. rewrite Hw.
      assert (Hlt : (attempts_left config j' < attempts_left config j)%nat); [|lia].
      unfold attempts_left. rewrite (decide_True (P := lj_status j = Queued)) by done. case_decide; lia. }
    intros k x Hx. destruct (decide (k = id)) as [->|Hne].
    + replace x with j by congruence. destruct (IH Hcalm' w1 Hok1 ltac:(cbn in Henough; lia) id j') as (y & Hy & H1 & H2).
      { by rewrite Hw, lookup_insert_eq. }
      exists y. split; [exact Hy|]. split; [|done]. intros _. rewrite <- Hf in *.
      destruct Hst as [[Hd Hn]|[Hq' _]]; [|by apply H1].
      rewrite (H2 Hn). unfold settled in Hd. rewrite Hf in *. by destruct (format_parse (lj_format j)).
    + apply (IH Hcalm' w1 Hok1 ltac:(cbn in Henough; lia)). by rewrite Hw, lookup_insert_ne.
Qed.

(** A running job nobody holds is never touched again. *)
Lemma orphan_step lib indexers config (s s' : LazyWorld W * list (str * LazyJob)) id j :
  lazy_step lib indexers config s s' -> queue_ok config s ->
  lw_jobs s.1 !! id = Some j -> lj_status j = Running -> id ∉ s.2.*1 ->
  lw_jobs s'.1 !! id = Some j /\ id ∉ s'.2.*1.
Proof.
  intros Hstep Hok Hj Hs Hid.
  assert (Hdrop : forall k (x : LazyJob) fl1 fl2, id ∉ (fl1 ++ (k, x) :: fl2).*1 ->
    k <> id /\ id ∉ (fl1 ++ fl2).*1).
  { intros k x fl1 fl2. rewrite !fmap_app. cbn. set_solver. }
  destruct Hstep as [fault k now d f t p r w fl|st w fl|fault now w w' k x fl Hc|turn w k x fl1 fl2 Hm|w k x fl1 fl2];
    cbn in *.
  - destruct (enqueue_inv fault k now d f t p r w) as [_ [->|[E ->]]]; [done|].
    rewrite lookup_insert_ne by congruence. done.
  - done.
  - apply claim_inv in Hc as (x0 & Hx & Hq & -> & ->). cbn. assert (k <> id) by congruence.
    rewrite lookup_insert_ne by done. split; [done|]. set_solver.
  - destruct (Hdrop k x fl1 fl2 Hid) as [Hne Hid']. split; [|done].
    assert (Hk : lw_jobs w !! k = Some x)
      by (apply (held_running _ _ Hok k x); cbn; apply elem_of_app; right; by left).
    destruct (run_closes lib indexers config turn k x w Hm Hk) as [[-> _]|(? & ? & ? & -> & _)]; [done|].
    by rewrite lookup_alter_ne.
  - split; [done|]. by apply (Hdrop k x fl1 fl2).
Qed.

(** A job whose format is not a known one is claimed once and stays running for
    ever: the worker returns before it closes the job, and nothing else does. *)
Theorem unknown_format_stuck (lib : LazyLib) (indexers : list TocIndexer) (config : WorkerConfig)
    (turn : WorkerTurn) (w w1 : LazyWorld W) (id : str) (j : LazyJob)
    (fl : list (str * LazyJob)) (s : LazyWorld W * list (str * LazyJob))
    (Hok : queue_ok config (w, fl)) (Hclaim : claim None (wt_claim_now turn) w = (w1, Ok (Some (id, j))))
    (Hformat : format_parse (lj_format j) = None)
    (Hsteps : rtc (lazy_step lib indexers config)
                (exec (run_claimed lib indexers config turn id j) w1, fl) s) :
  lj_status j = Running /\ lw_jobs s.1 !! id = Some j.
Proof.
  pose proof (step_ok lib indexers config _ _ (step_claim lib indexers config None _ w w1 id j fl Hclaim) Hok)
    as [Hok1 _].
  destruct (held_running _ _ Hok1 id j ltac:(by left)) as [Hj Hs]. split; [done|]. cbn in Hj.
  assert (Hfree : id ∉ fl.*1).
  { pose proof (held_once _ _ Hok1) as Hn. cbn in Hn. by apply NoDup_cons in Hn as [? _]. }
  unfold run_claimed in Hsteps. rewrite Hformat in Hsteps. cbn in Hsteps.
  assert (Hok2 : queue_ok config (w1, fl)).
  { refine (proj1 (closes_ok config id j [] fl w1 w1 Hok1 _)). by left. }
  remember (w1, fl) as s0 eqn:E. assert (H0 : lw_jobs s0.1 !! id = Some j /\ id ∉ s0.2.*1) by by subst.
  clear E Hok Hclaim Hok1 Hj Hfree. revert H0 Hok2.
  induction Hsteps as [s0|s0 s1 s2 Hstep _ IH]; intros [Hj Hid] Hok; [done|].
  apply IH; [by eapply orphan_step|by eapply step_ok].
Qed.
End theorems.

(** ** Instances *)

Definition empty_store : Memory := memory_of ∅ [].

Definition demo_lib_lazy : LazyLib :=
  mkLazyLib (fun p => p) (fun d => "sha256:" ++ d) (fun _ => "not found").

Definition demo_job (format : str) : LazyJob :=
  mkLazyJob "sha256:aa" format Queued None 0 None None 0 (Some ("t" : str)) (Some ("p" : str)) (Some ("r" : str)).

Definition demo_queue (format : str) : LazyWorld Memory :=
  exec (enqueue_job None "1" 0 "sha256:aa" format (Some ("t" : str)) (Some ("p" : str)) (Some ("r" : str)))
    (mkLazyWorld empty_store ∅ ∅ ∅).

Definition demo_turn : WorkerTurn (W := Memory) :=
  mkWorkerTurn 5 None (fun w => w) (fun w => w) 6 None None.

Lemma lazy_queue_invariant_witness :
  queue_ok worker_default (demo_queue "estargz", []).
Proof.
  refine (proj1 (lazy_queue_invariant demo_lib_lazy [] worker_default empty_store (demo_queue "estargz", []) _
    (rtc_once _ _ _) (rtc_refl _ _))).
  exact (step_enqueue demo_lib_lazy [] worker_default None "1" 0 "sha256:aa" "estargz" (Some ("t" : str))
    (Some ("p" : str)) (Some ("r" : str)) (mkLazyWorld empty_store ∅ ∅ ∅) []).
Defined.

(** Three turns on a layer that is not in the store. *)
Lemma lazy_drains_witness :
  exists j, lw_jobs (exec (worker_run demo_lib_lazy [stub_estargz (fun _ => [])  "now"] worker_default
                            [demo_turn; demo_turn; demo_turn]) (demo_queue "estargz")) !! ("1" : str) = Some j /\
    finished j.
Proof.
  destruct (lazy_drains demo_lib_lazy [stub_estargz (fun _ => []) "now"] worker_default
    [demo_turn; demo_turn; demo_turn] (demo_queue "estargz")) with (id := "1" : str) (j := demo_job "estargz")
    as (j & Hj & Hq & _).
  - repeat (apply Forall_cons; split; [done|]). by apply Forall_nil.
  - done.
  - change (lw_jobs (demo_queue "estargz")) with (<[("1" : str) := demo_job "estargz"]> (∅ : gmap str LazyJob)).
    intros k x Hx _. apply lookup_insert_Some in Hx as [[_ <-]|[_ Hx]]; [|by rewrite lookup_empty in Hx].
    by vm_compute.
  - vm_compute. lia.
  - vm_compute. reflexivity.
  - exists j. split; [exact Hj|]. by apply Hq.
Defined.

Lemma unknown_format_stuck_witness :
  lw_jobs (exec (claim_and_run_one demo_lib_lazy [] worker_default demo_turn) (demo_queue "esgz"))
    !! ("1" : str) = Some (running 5 (demo_job "esgz")).
Proof.
  refine (proj2 (unknown_format_stuck demo_lib_lazy [] worker_default demo_turn (demo_queue "esgz")
    (set_jobs (insert ("1" : str) (running 5 (demo_job "esgz"))) (demo_queue "esgz"))
    "1" (running 5 (demo_job "esgz")) [] _ _ _ _ (rtc_refl _ _))).
  - apply (step_ok demo_lib_lazy [] worker_default _ _ (step_enqueue demo_lib_lazy [] worker_default None "1" 0
      "sha256:aa" "esgz" (Some ("t" : str)) (Some ("p" : str)) (Some ("r" : str))
      (mkLazyWorld empty_store ∅ ∅ ∅) []) (empty_ok worker_default empty_store)).
  - vm_compute. reflexivity.
  - vm_compute. reflexivity.
Defined.
