(* ===== verification/Rebuild.v ===== *)
(** * Rebuild subscriptions ([crates/specton-rebuild])

    Which base image an image was built from, who wants to be told when a base
    changes, and the firing of a rebuild: the daily limit, the request to the CI
    system, the record of the event; with the endpoints of the registry.  The
    tables of [0013_auto_rebuild.sql] are finite maps and lists with their
    foreign keys; a statement that fails changes none of them. *)

From stdpp Require Import sorting.
From S2P Require Import Prelude Json Text Effects Ephemeral Store Paths Auth Registry Http.

Local Open Scope Z_scope.
Local Open Scope result_scope.

(** ** Lineage ([lineage.rs]) *)

Inductive LineageConfidence : Type := Label | History | Inferred.

Definition confidence_str (c : LineageConfidence) : str :=
  match c with
  | Label => "label"
  | History => "history"
  | Inferred => "inferred"
  end.

Record LineageHint : Type := mkLineageHint {
  base_ref : str;
  confidence : LineageConfidence
}.

(** [ImageConfig]: the labels, if any, and the [created_by] of each entry. *)
Record ImageConfig : Type := mkImageConfig {
  labels : option (list (str * str));
  history : list (option str)
}.

Definition de_labels (v : json) : option (list (str * str)) :=
  match v with
  | JObject fs => traverse (fun kv => pair (fst kv) <$> as_str (snd kv)) fs
  | _ => None
  end.

Definition de_inner_config (v : json) : option (option (list (str * str))) :=
  match de_struct [("Labels" : str, true)] v with
  | Some [l] => de_option de_labels l
  | _ => None
  end.

Definition de_history_entry (v : json) : option (option str) :=
  match de_struct [("created_by" : str, true)] v with
  | Some [c] => de_option as_str c
  | _ => None
  end.

Definition de_image_config (v : json) : option ImageConfig :=
  match de_struct [("config" : str, true); ("history" : str, true)] v with
  | Some [c; h] =>
      match de_option de_inner_config c, de_or [] (de_vec de_history_entry) h with
      | Some c, Some h => Some (mkImageConfig (default None c) h)
      | _, _ => None
      end
  | _ => None
  end.

(** [s.split_whitespace().next().unwrap_or("")] *)
Fixpoint until_ws (s : str) : str :=
  match strip_ws_front s with
  | Some _ => []
  | None =>
      match s with
      | [] => []
      | c :: s' => c :: until_ws s'
      end
  end.

Definition first_word (s : str) : str := until_ws (trim_start s).

(** The first history entry with a [FROM] that names something. *)
Fixpoint history_base (h : list (option str)) : option str :=
  match h with
  | [] => None
  | Some line :: h' =>
      match split_once_str "FROM " line with
      | Some (_, tail) => if non_empty (first_word tail) then Some (first_word tail) else history_base h'
      | None => history_base h'
      end
  | None :: h' => history_base h'
  end.

Definition base_label : str := "org.opencontainers.image.base.name".

Definition detect_lineage (parse_json : str -> option json) (image_config_bytes : str) : option LineageHint :=
  match parse_json image_config_bytes ≫= de_image_config with
  | None => None
  | Some cfg =>
      match labels cfg ≫= assoc base_label with
      | Some (c :: base) => Some (mkLineageHint (c :: base) Label)
      | _ => (fun b => mkLineageHint b History) <$> history_base (history cfg)
      end
  end.

(** ** Subscriptions ([subscription.rs]) *)

Record WatchSpec : Type := mkWatchSpec {
  bases : list str;
  descendants : list str
}.

Record TriggersSpec : Type := mkTriggersSpec {
  on_cve_fix : bool;
  on_base_push : bool;
  min_severity_fixed : str
}.

Definition triggers_default : TriggersSpec := mkTriggersSpec true false "high".

Inductive EmitterSpec : Type :=
| GithubDispatch (repo event_type : str) (workflow token api_base : option str)
| GitlabTrigger (project ref_ : str) (trigger_token api_base : option str)
| WebhookEmitter (url : str) (hmac_secret header_name : option str)
| Tekton (url : str) (auth_header_name auth_header_value : option str).

Record SubscriptionSpec : Type := mkSubscriptionSpec {
  watch : WatchSpec;
  triggers : TriggersSpec;
  emitter : EmitterSpec;
  per_downstream_per_day : Z
}.

Record RebuildSubscription : Type := mkRebuildSubscription {
  rs_id : str;
  rs_tenant : str;
  rs_name : str;
  rs_spec : SubscriptionSpec;
  rs_enabled : bool;
  rs_updated_at : Z
}.

(** The loop over the parts after the first; [rest] is [value[pos..]]. *)
Fixpoint glob_rest (pattern : str) (parts : list str) (rest : str) : bool :=
  match parts with
  | [] => negb (non_empty rest) || ends_with "*" pattern
  | [part] => if negb (non_empty part) then true else ends_with part rest
  | part :: parts' =>
      if negb (non_empty part) then glob_rest pattern parts' rest
      else
        match split_once_str part rest with
        | Some (_, after) => glob_rest pattern parts' after
        | None => false
        end
  end.

Definition glob_match_inner (pattern value : str) : bool :=
  if str_eqb pattern "*" then true
  else if negb (contains_byte "*" pattern) then str_eqb pattern value
  else
    match split_on "*" pattern with
    | [] => false
    | first :: parts =>
        match strip_prefix first value with
        | None => false
        | Some rest => glob_rest pattern parts rest
        end
    end.

Definition glob_match (pattern value : str) : bool :=
  if glob_match_inner pattern value then true
  else
    match strip_suffix "/*" pattern with
    | Some prefix => glob_match_inner (prefix ++ ":*") value || glob_match_inner (prefix ++ "*") value
    | None => false
    end.

Definition sub_matches (s : RebuildSubscription) (upstream_ref downstream_ref : str) : bool :=
  if negb (rs_enabled s) then false
  else
    let w := watch (rs_spec s) in
    let base_ok := match bases w with
                   | [] => true
                   | bs => existsb (fun b => glob_match b upstream_ref || contains_str b upstream_ref) bs
                   end in
    if negb base_ok then false
    else match descendants w with
         | [] => true
         | ds => existsb (fun d => glob_match d downstream_ref) ds
         end.

(** ** The tables *)

Record SubRow : Type := mkSubRow {
  row_id : str;
  row_spec : json;
  row_enabled : bool;
  row_updated_at : Z
}.

Record EventRow : Type := mkEventRow {
  ev_id : str;
  ev_subscription : str;
  ev_upstream : str;
  ev_downstream : str;
  ev_fixed_cves : list str;
  ev_severity_max : str;
  ev_status : str;
  ev_response : option str;
  ev_fired_at : Z
}.

(** Counters are kept by subscription, downstream and day. *)
Definition RateKey : Type := str * str * Z.

Record RebuildDb : Type := mkRebuildDb {
  subs : gmap (str * str) SubRow;
  fired_events : list EventRow;
  rate : gmap RateKey Z;
  lineage : gmap (str * str) (str * Z)
}.

Record RebuildLib : Type := mkRebuildLib {
  rb_parse : str -> option json;
  spec_to_value : SubscriptionSpec -> result json str;
  spec_from_value : json -> result SubscriptionSpec str;
  json_to_vec : json -> str;
  form_encode : list (str * str) -> str;
  rb_hmac : str -> str -> str;
  rb_hex : str -> str;
  env_var : str -> option str;
  foreign_key : str;
  unique_key : str
}.

(** A statement: when it fails it is with its text, and changes nothing. *)
Definition query {S A} (fault : option str) (m : M S str A) : M S str A :=
  match fault with
  | Some e => throw e
  | None => m
  end.

Definition has_id (id : str) (d : RebuildDb) : bool :=
  existsb (fun kr => str_eqb (row_id kr.2) id) (map_to_list (subs d)).

(** Rows of other tables that refer to a subscription. *)
Definition referred (id : str) (d : RebuildDb) : bool :=
  existsb (fun e => str_eqb (ev_subscription e) id) (fired_events d)
  || existsb (fun kn => str_eqb kn.1.1.1 id) (map_to_list (rate d)).

Section rebuild.
Context (lib : RebuildLib).

Inductive StoreFailure : Type :=
| SubSqlx (what : str)
| SubSpec (what : str).

Definition store_failure_display (e : StoreFailure) : str :=
  match e with
  | SubSqlx w => "sqlx: " ++ w
  | SubSpec w => "invalid spec: " ++ w
  end.

(** [ON CONFLICT (tenant, name) DO UPDATE SET id = EXCLUDED.id, ..]: the id must
    be free, and the old one without rows that refer to it. *)
Definition upsert_row (key : str * str) (row : SubRow) : M RebuildDb str unit :=
  fun d =>
    let clash := existsb (fun kr => negb (bool_decide (kr.1 = key)) && str_eqb (row_id kr.2) (row_id row))
                   (map_to_list (subs d)) in
    let held := match subs d !! key with
                | Some old => negb (str_eqb (row_id old) (row_id row)) && referred (row_id old) d
                | None => false
                end in
    if clash then (d, Err (unique_key lib))
    else if held then (d, Err (foreign_key lib))
    else (mkRebuildDb (<[key := row]> (subs d)) (fired_events d) (rate d) (lineage d), Ok tt).

Definition sub_upsert (fault : option str) (s : RebuildSubscription) : M RebuildDb StoreFailure unit :=
  let! spec := lift (map_err SubSpec (spec_to_value lib (rs_spec s))) in
  rethrow SubSqlx
    (query fault
       (upsert_row (rs_tenant s, rs_name s) (mkSubRow (rs_id s) spec (rs_enabled s) (rs_updated_at s)))).

Definition row_to_sub (key : str * str) (r : SubRow) : result RebuildSubscription StoreFailure :=
  let? spec := map_err SubSpec (spec_from_value lib (row_spec r)) in
  Ok (mkRebuildSubscription (row_id r) key.1 key.2 spec (row_enabled r) (row_updated_at r)).

Definition sub_get (fault : option str) (tenant name : str) :
    M RebuildDb StoreFailure (option RebuildSubscription) :=
  let! d := rethrow SubSqlx (query fault (gets (fun d => d))) in
  match subs d !! (tenant, name) with
  | None => ret None
  | Some r => let! s := lift (row_to_sub (tenant, name) r) in ret (Some s)
  end.

Fixpoint rows_to_subs (rows : list ((str * str) * SubRow)) : result (list RebuildSubscription) StoreFailure :=
  match rows with
  | [] => Ok []
  | kr :: rows' =>
      let? s := row_to_sub kr.1 kr.2 in
      let? ss := rows_to_subs rows' in
      Ok (s :: ss)
  end.

(** [ORDER BY tenant, name] *)
Definition key_le (a b : (str * str) * SubRow) : Prop :=
  a.1.1 <> b.1.1 /\ str_le a.1.1 b.1.1 \/ a.1.1 = b.1.1 /\ str_le a.1.2 b.1.2.

#[global] Instance key_le_dec : RelDecision key_le.
Proof. intros a b. unfold key_le. apply _. Defined.

Definition list_subs (fault : option str) (p : (str * str) * SubRow -> bool) :
    M RebuildDb StoreFailure (list RebuildSubscription) :=
  let! d := rethrow SubSqlx (query fault (gets (fun d => d))) in
  lift (rows_to_subs (merge_sort key_le (List.filter p (map_to_list (subs d))))).

Definition list_for_tenant (fault : option str) (tenant : str) :=
  list_subs fault (fun kr => str_eqb kr.1.1 tenant).

Definition list_enabled (fault : option str) := list_subs fault (fun kr => row_enabled kr.2).

(** Deleting cascades to the rows that refer to the subscription. *)
Definition sub_delete (fault : option str) (tenant name : str) : M RebuildDb StoreFailure bool :=
  rethrow SubSqlx
    (query fault
       (fun d => match subs d !! (tenant, name) with
                 | None => (d, Ok false)
                 | Some r =>
                     (mkRebuildDb (delete (tenant, name) (subs d))
                        (List.filter (fun e => negb (str_eqb (ev_subscription e) (row_id r))) (fired_events d))
                        (filter (fun kn : RateKey * Z => kn.1.1.1 <> row_id r) (rate d))
                        (lineage d), Ok true)
                 end)).

(** ** The daily limit ([rate_limit.rs]) *)

Definition rate_cap (per_day : Z) : Z := Z.max per_day 1.

(** The counter grows also when the answer is no. *)
Definition check_and_increment (fault : option str) (day cap : Z) (sub downstream : str) : M RebuildDb str bool :=
  query fault
    (fun d =>
       if negb (has_id sub d) then (d, Err (foreign_key lib))
       else
         let fired := default 0 (rate d !! (sub, downstream, day)) + 1 in
         if 2147483647 <? fired then (d, Err "integer out of range")
         else (mkRebuildDb (subs d) (fired_events d) (<[(sub, downstream, day) := fired]> (rate d)) (lineage d),
               Ok (fired <=? rate_cap cap))).

Definition decrement_on_failure (fault : option str) (day : Z) (sub downstream : str) : M RebuildDb str unit :=
  query fault
    (modify (fun d => mkRebuildDb (subs d) (fired_events d)
                        (alter (fun n => Z.max 0 (n - 1)) (sub, downstream, day) (rate d)) (lineage d))).

Definition fired_today (fault : option str) (day : Z) (sub downstream : str) : M RebuildDb str Z :=
  query fault (gets (fun d => default 0 (rate d !! (sub, downstream, day)))).
End rebuild.

(** ** Emitters ([emitter.rs]) *)

Inductive TriggerCause : Type := BasePushed | CveFixed | ScheduledNightly | Manual.

Definition trigger_str (t : TriggerCause) : str :=
  match t with
  | BasePushed => "base_pushed"
  | CveFixed => "cve_fixed"
  | ScheduledNightly => "scheduled_nightly"
  | Manual => "manual"
  end.

Record RebuildEvent : Type := mkRebuildEvent {
  re_trigger : TriggerCause;
  re_fixed_cves : list str;
  re_upstream_ref : str;
  re_downstream_ref : str;
  re_severity_max : str
}.

Definition event_json (e : RebuildEvent) : json :=
  JObject [("trigger" : str, JString (trigger_str (re_trigger e)));
           ("fixed_cves" : str, JArray (map JString (re_fixed_cves e)));
           ("upstream_ref" : str, JString (re_upstream_ref e));
           ("downstream_ref" : str, JString (re_downstream_ref e));
           ("severity_max" : str, JString (re_severity_max e))].

Inductive EmitError : Type :=
| EmitHttp (what : str)
| EmitRejected (status : Z) (body : str)
| EmitConfig (what : str).

Definition emit_display (e : EmitError) : str :=
  match e with
  | EmitHttp w => "http: " ++ w
  | EmitRejected st b => "rejected by remote: " ++ dec st ++ " " ++ b
  | EmitConfig w => "config: " ++ w
  end.

(** An emitter with its secrets resolved. *)
Inductive Emitter : Type :=
| GitHubDispatchEmitter (repo token event_type api_base : str)
| GitLabPipelineEmitter (api_base project_id trigger_token ref_ : str)
| GenericWebhookEmitter (url hmac_secret header_name : str)
| TektonEventListenerEmitter (url : str) (auth_header : option (str * str)).

(** The network and the tables. *)
Record RebuildWorld (N : Type) : Type := mkRebuildWorld {
  rw_net : N;
  rw_db : RebuildDb
}.
Arguments mkRebuildWorld {N}.
Arguments rw_net {N}.
Arguments rw_db {N}.

Section emit.
Context (lib : RebuildLib).

Definition compute_webhook_signature (secret body : str) : str := "sha256=" ++ rb_hex lib (rb_hmac lib secret body).

Definition agent : str * str := ("user-agent" : str, "spectoncr-rebuild" : str).
Definition json_content : str * str := ("content-type" : str, "application/json" : str).

Definition github_request (repo token event_type api_base : str) (e : RebuildEvent) : result PostRequest EmitError :=
  if negb (contains_byte "/" repo) then
    Err (EmitConfig ("GitHub repo must be 'owner/name', got " ++ repo))
  else
    let body := JObject
      [("event_type" : str, JString event_type);
       ("client_payload" : str,
        JObject [("trigger" : str, JString (trigger_str (re_trigger e)));
                 ("upstream_ref" : str, JString (re_upstream_ref e));
                 ("downstream_ref" : str, JString (re_downstream_ref e));
                 ("fixed_cves" : str, JArray (map JString (re_fixed_cves e)));
                 ("severity_max" : str, JString (re_severity_max e))])] in
    Ok (mkPostRequest (trim_end_byte "/" api_base ++ "/repos/" ++ repo ++ "/dispatches")
          [("accept" : str, "application/vnd.github+json" : str);
           ("x-github-api-version" : str, "2022-11-28" : str); agent;
           ("authorization" : str, "Bearer " ++ token); json_content]
          (json_to_vec lib body)).

Definition gitlab_request (api_base project_id trigger_token ref_ : str) (e : RebuildEvent) :
    result PostRequest EmitError :=
  if negb (non_empty project_id) then Err (EmitConfig "GitLab project_id is empty")
  else
    Ok (mkPostRequest (trim_end_byte "/" api_base ++ "/api/v4/projects/" ++ project_id ++ "/trigger/pipeline")
          [("content-type" : str, "application/x-www-form-urlencoded" : str)]
          (form_encode lib
             [("token" : str, trigger_token); ("ref" : str, ref_);
              ("variables[SPECTONCR_TRIGGER]" : str, trigger_str (re_trigger e));
              ("variables[SPECTONCR_UPSTREAM]" : str, re_upstream_ref e);
              ("variables[SPECTONCR_DOWNSTREAM]" : str, re_downstream_ref e);
              ("variables[SPECTONCR_SEVERITY_MAX]" : str, re_severity_max e)])).

Definition webhook_emitter_request (url hmac_secret header_name : str) (e : RebuildEvent) :
    result PostRequest EmitError :=
  if negb (non_empty hmac_secret) then Err (EmitConfig "hmac_secret is empty")
  else
    let body := json_to_vec lib (event_json e) in
    Ok (mkPostRequest url
          [json_content; (header_name, compute_webhook_signature hmac_secret body); agent] body).

Definition tekton_request (url : str) (auth_header : option (str * str)) (e : RebuildEvent) : PostRequest :=
  mkPostRequest url ([json_content; agent] ++ option_list auth_header) (json_to_vec lib (event_json e)).

Definition emitter_request (em : Emitter) (e : RebuildEvent) : result PostRequest EmitError :=
  match em with
  | GitHubDispatchEmitter repo token event_type api_base => github_request repo token event_type api_base e
  | GitLabPipelineEmitter api_base project_id trigger_token ref_ =>
      gitlab_request api_base project_id trigger_token ref_ e
  | GenericWebhookEmitter url hmac_secret header_name => webhook_emitter_request url hmac_secret header_name e
  | TektonEventListenerEmitter url auth_header => Ok (tekton_request url auth_header e)
  end.

(** What every emitter does with the answer. *)
Definition emit {N} `{HttpPost N} (em : Emitter) (e : RebuildEvent) : M N EmitError str :=
  let! rq := lift (emitter_request em e) in
  let! resp := rethrow EmitHttp (http_post rq) in
  if negb (is_success (rs_status resp))
  then throw (EmitRejected (rs_status resp) (or_empty (rs_text resp)))
  else ret (dec (rs_status resp)).

(** ** Firing ([service.rs]) *)

Inductive FireError : Type :=
| FireRateLimit (what : str)
| FireEmit (e : EmitError)
| FireSqlx (what : str)
| FireConfig (what : str).

Definition fire_display (e : FireError) : str :=
  match e with
  | FireRateLimit w => "rate limit: sqlx: " ++ w
  | FireEmit e => "emit: " ++ emit_display e
  | FireSqlx w => "sqlx: " ++ w
  | FireConfig w => "config: " ++ w
  end.

(** A secret of the spec, or of the environment. *)
Definition secret (own : option str) (var missing : str) : result str FireError :=
  match own with
  | Some s => Ok s
  | None => ok_or (env_var lib var) (FireConfig missing)
  end.

Definition build_emitter (spec : EmitterSpec) : result Emitter FireError :=
  match spec with
  | GithubDispatch repo event_type _ token api_base =>
      let? token := secret token "GITHUB_TOKEN" "github-dispatch requires token or GITHUB_TOKEN" in
      Ok (GitHubDispatchEmitter repo token event_type (default "https://api.github.com" api_base))
  | GitlabTrigger project ref_ trigger_token api_base =>
      let? token := secret trigger_token "GITLAB_TRIGGER_TOKEN"
                      "gitlab-trigger requires trigger_token or GITLAB_TRIGGER_TOKEN" in
      Ok (GitLabPipelineEmitter (default "https://gitlab.com" api_base) project token ref_)
  | WebhookEmitter url hmac_secret header_name =>
      let? s := secret hmac_secret "REBUILD_WEBHOOK_HMAC" "webhook requires hmac_secret or REBUILD_WEBHOOK_HMAC" in
      Ok (GenericWebhookEmitter url s (default "X-SpectonCR-Signature" header_name))
  | Tekton url (Some name) (Some value) => Ok (TektonEventListenerEmitter url (Some (name, value)))
  | Tekton url _ _ => Ok (TektonEventListenerEmitter url None)
  end.

Record FireRequest : Type := mkFireRequest {
  fr_subscription : RebuildSubscription;
  fr_upstream_ref : str;
  fr_downstream_ref : str;
  fr_trigger : TriggerCause;
  fr_fixed_cves : list str;
  fr_severity_max : str
}.

Record FireResult : Type := mkFireResult {
  res_subscription_id : str;
  res_subscription_name : str;
  res_status : str;
  res_response : option str;
  res_rate_limited : bool
}.

(** What a firing meets: the failing statements, the day of its two statements on
    the counter, the id and time of its event. *)
Record FireTurn : Type := mkFireTurn {
  ft_reserve_fault : option str;
  ft_reserve_day : Z;
  ft_settle_day : Z;
  ft_decrement_fault : option str;
  ft_record_fault : option str;
  ft_event_id : str;
  ft_fired_at : Z
}.

Context {N : Type} `{HttpPost N}.

Definition on_db {E A} (m : M RebuildDb E A) : M (RebuildWorld N) E A :=
  fun w => let '(d, r) := m (rw_db w) in (mkRebuildWorld (rw_net w) d, r).

Definition on_net {E A} (m : M N E A) : M (RebuildWorld N) E A :=
  fun w => let '(n, r) := m (rw_net w) in (mkRebuildWorld n (rw_db w), r).

Definition record_event (turn : FireTurn) (req : FireRequest) (status : str) (response : option str) :
    M RebuildDb FireError unit :=
  rethrow FireSqlx
    (query (ft_record_fault turn)
       (fun d =>
          let sub := rs_id (fr_subscription req) in
          if negb (has_id sub d) then (d, Err (foreign_key lib))
          else
            (mkRebuildDb (subs d)
               (fired_events d ++ [mkEventRow (ft_event_id turn) sub (fr_upstream_ref req)
                                     (fr_downstream_ref req) (fr_fixed_cves req) (fr_severity_max req)
                                     status response (ft_fired_at turn)])
               (rate d) (lineage d), Ok tt))).

Definition reserve (turn : FireTurn) (req : FireRequest) : M (RebuildWorld N) FireError bool :=
  on_db (rethrow FireRateLimit
    (check_and_increment lib (ft_reserve_fault turn) (ft_reserve_day turn)
       (per_downstream_per_day (rs_spec (fr_subscription req))) (rs_id (fr_subscription req))
       (fr_downstream_ref req))).

Definition fire_result (req : FireRequest) (status : str) (response : option str) (limited : bool) : FireResult :=
  mkFireResult (rs_id (fr_subscription req)) (rs_name (fr_subscription req)) status response limited.

Definition event_of (req : FireRequest) : RebuildEvent :=
  mkRebuildEvent (fr_trigger req) (fr_fixed_cves req) (fr_upstream_ref req) (fr_downstream_ref req)
    (fr_severity_max req).

(** The rest of [fire] once the counter has answered yes. *)
Definition settle (turn : FireTurn) (req : FireRequest) : M (RebuildWorld N) FireError FireResult :=
  let! em := lift (build_emitter (emitter (rs_spec (fr_subscription req)))) in
  let! r := attempt (on_net (emit em (event_of req))) in
  match r with
  | Ok resp =>
      do! on_db (record_event turn req "sent" (Some resp)) in
      ret (fire_result req "sent" (Some resp) false)
  | Err e =>
      let! _ := attempt (F := str)
                  (on_db (decrement_on_failure (ft_decrement_fault turn) (ft_settle_day turn)
                            (rs_id (fr_subscription req)) (fr_downstream_ref req))) in
      let! _ := attempt (F := FireError) (on_db (record_event turn req "failed" (Some (emit_display e)))) in
      throw (FireEmit e)
  end.

Definition fire (turn : FireTurn) (req : FireRequest) : M (RebuildWorld N) FireError FireResult :=
  let! allowed := reserve turn req in
  if negb allowed then
    let! _ := attempt (F := FireError)
                (on_db (record_event turn req "rate-limited" (Some ("per_downstream_per_day cap reached" : str)))) in
    ret (fire_result req "rate-limited" None true)
  else settle turn req.

(** ** The endpoints ([main.rs]) *)

Definition fired_le (a b : EventRow) : Prop := ev_fired_at b <= ev_fired_at a.

#[global] Instance fired_le_dec : RelDecision fired_le.
Proof. intros a b. unfold fired_le. apply _. Defined.

(** The join with the subscription, for its tenant and name. *)
Definition events_of_tenant (tenant : str) (d : RebuildDb) : list (EventRow * str) :=
  concat (map (fun e => map (fun kr => (e, kr.1.2))
                          (List.filter (fun kr => str_eqb (row_id kr.2) (ev_subscription e)
                                                  && str_eqb kr.1.1 tenant)
                             (map_to_list (subs d))))
            (merge_sort fired_le (fired_events d))).

Definition list_events (fault : option str) (tenant : str) (limit : Z) : M RebuildDb FireError (list (EventRow * str)) :=
  rethrow FireSqlx (query fault (gets (fun d => take (Z.to_nat limit) (events_of_tenant tenant d)))).

Record RebuildApi : Type := mkRebuildApi {
  rebuild_on : bool;
  rebuild_pool : bool
}.

Definition rebuild_enabled (api : RebuildApi) : result unit RegistryError :=
  if rebuild_on api then Ok tt else Err (Forbidden "rebuild disabled ([rebuild].enabled=false)").

Definition rebuild_admin_authorize (claims : TokenClaims) : result unit RegistryError :=
  if bool_decide (claims_role claims = Admin) then Ok tt
  else Err (Forbidden "rebuild admin endpoints require Admin role").

Definition rebuild_store (api : RebuildApi) : result unit RegistryError :=
  if rebuild_pool api then Ok tt else Err (Internal "rebuild store requires Postgres").

Record RebuildTriggerBody : Type := mkRebuildTriggerBody {
  tb_tenant : str;
  tb_subscription : str;
  tb_upstream_ref : str;
  tb_downstream_ref : str;
  tb_reason : option str;
  tb_fixed_cves : list str;
  tb_severity_max : str
}.

Definition cause_of (reason : option str) : TriggerCause :=
  match reason with
  | Some r => if str_eqb r "base_pushed" then BasePushed
              else if str_eqb r "cve_fixed" then CveFixed
              else if str_eqb r "scheduled_nightly" then ScheduledNightly
              else Manual
  | None => Manual
  end.

(** Answers 200 with the result, or 502 with the error's text. *)
Definition rebuild_trigger (api : RebuildApi) (claims : TokenClaims) (get_fault : option str) (turn : FireTurn)
    (body : RebuildTriggerBody) : M (RebuildWorld N) RegistryError (result FireResult str) :=
  let! _ := lift (rebuild_enabled api) in
  let! _ := lift (rebuild_admin_authorize claims) in
  let! _ := lift (rebuild_store api) in
  let! found := rethrow (fun e => Internal (store_failure_display e))
                  (on_db (sub_get lib get_fault (tb_tenant body) (tb_subscription body))) in
  let! sub := lift (ok_or found (NameUnknown (tb_subscription body))) in
  if negb (sub_matches sub (tb_upstream_ref body) (tb_downstream_ref body)) then
    throw (Forbidden "subscription watch does not match upstream/downstream")
  else
    let! r := attempt (fire turn (mkFireRequest sub (tb_upstream_ref body) (tb_downstream_ref body)
                                    (cause_of (tb_reason body)) (tb_fixed_cves body) (tb_severity_max body))) in
    ret (map_err fire_display r).

Definition list_rebuild_subscriptions (api : RebuildApi) (claims : TokenClaims) (fault tenant : option str) :
    M RebuildDb RegistryError (list RebuildSubscription) :=
  let! _ := lift (rebuild_enabled api) in
  let! _ := lift (rebuild_store api) in
  rethrow (fun e => Internal (store_failure_display e))
    (list_for_tenant lib fault (default "default" tenant)).

Definition upsert_rebuild_subscription (api : RebuildApi) (claims : TokenClaims) (fault : option str)
    (fresh : str) (now : Z) (tenant name : str) (id : option str) (enabled : option bool)
    (spec : SubscriptionSpec) : M RebuildDb RegistryError RebuildSubscription :=
  let! _ := lift (rebuild_enabled api) in
  let! _ := lift (rebuild_admin_authorize claims) in
  let! _ := lift (rebuild_store api) in
  let s := mkRebuildSubscription (default fresh id) tenant name spec (default true enabled) now in
  do! rethrow (fun e => Internal (store_failure_display e)) (sub_upsert lib fault s) in
  ret s.

Definition list_rebuild_events (api : RebuildApi) (claims : TokenClaims) (fault tenant limit : option str) :
    M RebuildDb RegistryError (list (EventRow * str)) :=
  let! _ := lift (rebuild_enabled api) in
  let limit := Z.max 1 (Z.min (default 50 (limit ≫= parse_i64)) 500) in
  let! _ := lift (rebuild_store api) in
  rethrow (fun e => Internal (fire_display e)) (list_events fault (default "default" tenant) limit).

Definition detected_le (a b : str * (str * Z)) : Prop := b.2.2 <= a.2.2.

#[global] Instance detected_le_dec : RelDecision detected_le.
Proof. intros a b. unfold detected_le. apply _. Defined.

Definition get_lineage (pool : bool) (fault : option str) (digest : str) :
    M RebuildDb RegistryError (list (str * (str * Z)) * list (str * (str * Z))) :=
  if negb pool then throw (Internal "lineage store requires Postgres")
  else
    let! d := rethrow Internal (query fault (gets (fun d => d))) in
    let rows := map_to_list (lineage d) in
    let parents := merge_sort detected_le
      (map (fun kv => (kv.1.2, kv.2)) (List.filter (fun kv => str_eqb kv.1.1 digest) rows)) in
    let children := merge_sort detected_le
      (map (fun kv => (kv.1.1, kv.2)) (List.filter (fun kv => str_eqb kv.1.2 digest) rows)) in
    ret (parents, take 100 children).
End emit.

(** ** The task a push spawns ([main.rs]) *)

(** Reads the image configuration and records the base it names; a pair that is
    known keeps its row. *)
Definition capture_lineage {W : Type} `{ObjectStore W} (lib : RebuildLib) (store_path : str -> str)
    (fault : option str) (now : Z) (t : task) (st : W) (d : RebuildDb) : W * RebuildDb :=
  match t with
  | TLineage tenant project repo config_digest child_digest =>
      let '(st', r) := os_get (store_path (blob_path tenant project repo config_digest)) st in
      match r with
      | Err _ => (st', d)
      | Ok bytes =>
          match detect_lineage (rb_parse lib) bytes, fault with
          | Some hint, None =>
              let key := (child_digest, base_ref hint) in
              (st', match lineage d !! key with
                    | Some _ => d
                    | None => mkRebuildDb (subs d) (fired_events d) (rate d)
                                (<[key := (confidence_str (confidence hint), now)]> (lineage d))
                    end)
          | _, _ => (st', d)
          end
      end
  | _ => (st, d)
  end.
