(* ===== verification/RebuildTheorems.v ===== *)
(** * What rebuild subscriptions promise

    The glob matcher against the meaning of patterns; the daily limit under any
    interleaving of firings; what the tables refuse. *)

From stdpp Require Import sorting relations.
From S2P Require Import Prelude Json Text Glob Effects Ephemeral Store Paths Auth Registry Http Rebuild.

Local Open Scope Z_scope.

(** ** Patterns *)

Lemma ends_with_spec p s : ends_with p s = true <-> exists w, s = w ++ p.
Proof.
  unfold ends_with, strip_suffix. split.
  - destruct (strip_prefix (rev p) (rev s)) as [r|] eqn:E; cbn; [|done]. intros _.
    apply strip_prefix_some in E. exists (rev r). apply (f_equal (@rev _)) in E.
    by rewrite rev_involutive, rev_app_distr, rev_involutive in E.
  - intros [w ->]. rewrite rev_app_distr.
    by rewrite (proj2 (strip_prefix_some (rev p) (rev p ++ rev w) (rev w)) eq_refl).
Qed.

(** The greedy search finds the parts in order exactly when they are there. *)
Lemma glob_rest_spec pattern parts rest :
  parts <> [] -> glob_rest pattern parts rest = true <-> in_order parts rest [].
Proof.
  revert rest. induction parts as [|part parts IH]; intros rest Hn; [by destruct Hn|]. clear Hn.
  destruct parts as [|q parts].
  { cbn [glob_rest]. destruct part as [|c part]; cbn [non_empty negb].
    - split; [|done]. intros _. exists rest, []. cbn. by rewrite app_nil_r.
    - rewrite ends_with_spec. split.
      + intros [w ->]. exists w, []. by rewrite app_nil_r.
      + intros (w & s' & -> & H). cbn in H. subst. exists w. by rewrite app_nil_r. }
  change (glob_rest pattern (part :: q :: parts) rest) with
    (if negb (non_empty part) then glob_rest pattern (q :: parts) rest
     else match split_once_str part rest with
          | Some (_, after) => glob_rest pattern (q :: parts) after
          | None => false
          end).
  assert (Hne : q :: parts <> []) by done. destruct part as [|c part]; cbn [non_empty negb].
  - rewrite (IH rest Hne). split; [intros H; by exists [], rest|].
    intros (w & s' & -> & H). by apply in_order_gap.
  - split.
    + destruct (split_once_str (c :: part) rest) as [[h t]|] eqn:E; [|done].
      rewrite (IH t Hne). intros H. exists h, t. split; [by apply split_once_str_app|done].
    + intros (w & s' & -> & H). destruct (split_once_str_some (c :: part) w s') as (h & t & E).
      rewrite E. pose proof (split_once_str_leftmost _ _ _ _ _ E) as [v ->].
      apply (IH _ Hne). by apply in_order_gap.
Qed.

Lemma glob_all s : glob [star] s.
Proof. rewrite <- (app_nil_r s). apply glob_star, glob_nil. Qed.

Lemma split_on_stars pattern first : contains_byte star pattern = true -> split_on star pattern = [first] -> False.
Proof.
  rewrite contains_free. intros Hc Hs. assert (Hf : free_of star pattern = true); [|by rewrite Hf in Hc].
  clear Hc. revert first Hs. induction pattern as [|x p IH]; intros first; [done|]. cbn [split_on].
  destruct (byte_eqb x star) eqn:E.
  - intros [= _ H]. by apply split_on_not_nil in H.
  - destruct (split_on star p) as [|h t] eqn:Es; [by apply split_on_not_nil in Es|].
    intros [= _ ->]. unfold free_of in *. cbn [forallb]. rewrite E. cbn [negb andb]. by apply (IH h).
Qed.

Lemma glob_match_inner_spec pattern value : glob_match_inner pattern value = true <-> glob pattern value.
Proof.
  unfold glob_match_inner. destruct (str_eqb_spec pattern "*") as [->|Hs].
  { split; [intros _; apply glob_all|done]. }
  change ("*"%char) with star. destruct (contains_byte star pattern) eqn:Hc; cbn [negb].
  2: { rewrite glob_plain by done. destruct (str_eqb_spec pattern value); by split. }
  rewrite glob_parts. unfold parts_match.
  destruct (split_on star pattern) as [|first parts] eqn:E; [by apply split_on_not_nil in E|].
  assert (Hne : parts <> []) by (intros ->; by apply (split_on_stars pattern first)).
  split.
  - destruct (strip_prefix first value) as [rest|] eqn:Ep; [|done]. apply strip_prefix_some in Ep as ->.
    rewrite glob_rest_spec by done. eauto.
  - intros (s' & -> & H). rewrite (proj2 (strip_prefix_some first (first ++ s') s') eq_refl).
    by apply glob_rest_spec.
Qed.

(** C32: The matcher searches greedily from left to right; it answers exactly as the
    meaning of the pattern says, a star standing for any text.  A pattern that
    ends in a slash and a star also stands for the tags of the name before it
    and, since the slash may be left out, for every name that only begins with
    it. *)
Theorem glob_match_exact (pattern value : str) :
  (glob_match_inner pattern value = true <-> glob pattern value) /\
  (glob_match pattern value = true <->
   glob pattern value \/
   exists prefix, pattern = prefix ++ "/*" /\ (glob (prefix ++ ":*") value \/ glob (prefix ++ "*") value)).
Proof.
  split; [apply glob_match_inner_spec|]. unfold glob_match.
  rewrite <- glob_match_inner_spec. destruct (glob_match_inner pattern value); [by split; [left|]|].
  unfold strip_suffix. destruct (strip_prefix (rev "/*") (rev pattern)) as [r|] eqn:E; cbn [fmap option_fmap option_map].
  - apply strip_prefix_some in E. apply (f_equal (@rev _)) in E.
    rewrite rev_involutive, rev_app_distr, rev_involutive in E. subst pattern. rewrite orb_true_iff.
    setoid_rewrite glob_match_inner_spec. split.
    + intros H. right. by exists (rev r).
    + intros [|(prefix & Hp & H)]; [done|]. apply app_inv_tail in Hp as ->. done.
  - split; [done|]. intros [|(prefix & -> & _)]; [done|]. exfalso.
    rewrite rev_app_distr in E.
    by rewrite (proj2 (strip_prefix_some (rev "/*") (rev "/*" ++ rev prefix) (rev prefix)) eq_refl) in E.
Qed.

(** ** The daily limit *)

Section limit.
Context {N : Type} `{HttpPost N} (lib : RebuildLib) (caps : str -> Z).

Abbreviation World := (RebuildWorld N).

Definition key_of (day : Z) (req : FireRequest) : RateKey :=
  (rs_id (fr_subscription req), fr_downstream_ref req, day).

(** The request was accepted by the CI system, recorded or not. *)
Definition went_out (r : result FireResult FireError) : bool :=
  match r with
  | Ok _ | Err (FireSqlx _) => true
  | Err _ => false
  end.

(** The request failed, and a place was given back for it. *)
Definition gave_back (r : result FireResult FireError) : bool :=
  match r with
  | Err (FireEmit _) => true
  | _ => false
  end.

(** Firings of any number of callers: what they have reserved and not settled
    yet, what went out, both under the day the place was taken on, and the
    places given back on another day than the one they were taken on, under the
    day they were given back on; and the subscriptions that were deleted, whose
    counters went with them. *)
Record Firings : Type := mkFirings {
  now_w : World;
  held : list RateKey;
  sent : list RateKey;
  strays : list RateKey;
  gone : list str
}.

(** [caps] bounds the limits a subscription has had. *)
Inductive fire_step : Firings -> Firings -> Prop :=
| fire_reserve turn req w w' r h out back del :
    per_downstream_per_day (rs_spec (fr_subscription req)) <= caps (rs_id (fr_subscription req)) ->
    reserve lib turn req w = (w', r) ->
    fire_step (mkFirings w h out back del)
      (mkFirings w' (match r with Ok true => key_of (ft_reserve_day turn) req :: h | _ => h end) out back del)
| fire_settle turn req w w' r h1 h2 out back del :
    settle lib turn req w = (w', r) ->
    let taken := key_of (ft_reserve_day turn) req in
    let given := key_of (ft_settle_day turn) req in
    fire_step (mkFirings w (h1 ++ taken :: h2) out back del)
      (mkFirings w' (h1 ++ h2) (if went_out r then taken :: out else out)
         (if gave_back r && bool_decide (given <> taken) then given :: back else back) del)
| fire_record turn req status response w h out back del :
    fire_step (mkFirings w h out back del)
      (mkFirings (exec (on_db (record_event lib turn req status response)) w) h out back del)
| fire_edit fault s w h out back del :
    fire_step (mkFirings w h out back del) (mkFirings (exec (on_db (sub_upsert lib fault s)) w) h out back del)
| fire_delete fault tenant name w h out back del :
    fire_step (mkFirings w h out back del)
      (mkFirings (exec (on_db (sub_delete fault tenant name)) w) h out back
         (match subs (rw_db w) !! (tenant, name) with Some row => row_id row :: del | None => del end)).

Definition times (k : RateKey) (l : list RateKey) : Z :=
  Z.of_nat (length (List.filter (fun x => bool_decide (x = k)) l)).

Lemma times_cons k x l : times k (x :: l) = times k l + (if bool_decide (x = k) then 1 else 0).
Proof. unfold times. cbn. destruct (bool_decide (x = k)); cbn [length]; lia. Qed.

Lemma times_app k a b : times k (a ++ b) = times k a + times k b.
Proof. unfold times. rewrite List.filter_app, length_app. lia. Qed.

Lemma times_nonneg k l : 0 <= times k l.
Proof. unfold times. lia. Qed.

Lemma times_absent k l : k ∉ l -> times k l = 0.
Proof.
  induction l as [|x l IH]; [done|]. intros [Hx Hl]%not_elem_of_cons. rewrite times_cons, IH by done.
  by rewrite bool_decide_false.
Qed.

Definition fired (w : World) (k : RateKey) : Z := default 0 (rate (rw_db w) !! k).

Definition within (s : Firings) : Prop :=
  forall k, k.1.1 ∉ gone s -> let claims := times k (held s) + times k (sent s) - times k (strays s) in
    claims <= fired (now_w s) k /\ claims <= rate_cap (caps k.1.1).

(** What the parts of a firing do to the counters. *)

Lemma reserve_fired turn req (w w' : World) r :
  reserve lib turn req w = (w', r) ->
  let k := key_of (ft_reserve_day turn) req in
  match r with
  | Ok ok => (forall k', fired w' k' = fired w k' + (if bool_decide (k = k') then 1 else 0)) /\
             ok = (fired w' k <=? rate_cap (per_downstream_per_day (rs_spec (fr_subscription req))))
  | Err _ => fired w' = fired w
  end.
Proof.
  unfold reserve, on_db, rethrow, check_and_increment, query.
  destruct (ft_reserve_fault turn); [by intros [= <- <-]|]. destruct (negb _); [by intros [= <- <-]|].
  destruct (_ <? _); [by intros [= <- <-]|]. intros [= <- <-]. cbn. unfold fired, key_of. cbn.
  rewrite lookup_insert_eq. split; [|done]. intros k'. rewrite lookup_insert.
  case_decide as Hk; [subst; by rewrite bool_decide_true|]. rewrite bool_decide_false by done. lia.
Qed.

Lemma record_rate turn req status response (w : World) :
  fired (exec (on_db (record_event lib turn req status response)) w) = fired w.
Proof.
  unfold exec, on_db, record_event, rethrow, query. destruct (ft_record_fault turn); [done|].
  by destruct (negb _).
Qed.

Lemma secret_err own var missing e : secret lib own var missing = Err e -> e = FireConfig missing.
Proof. unfold secret, ok_or. destruct own; [done|]. destruct (env_var lib var); [done|]. by intros [= <-]. Qed.

Lemma build_emitter_err spec e : build_emitter lib spec = Err e -> exists what, e = FireConfig what.
Proof.
  unfold build_emitter, result_bind.
  destruct spec as [? ? ? own|? ? own|? own|? [] []]; try done;
    (destruct (secret lib own _ _) eqn:E; [done|]); intros [= <-]; apply secret_err in E; eauto.
Qed.

Lemma settle_fired turn req (w w' : World) r :
  settle lib turn req w = (w', r) ->
  let k := key_of (ft_settle_day turn) req in
  (forall k', k' <> k -> fired w' k' = fired w k') /\
  (if gave_back r then went_out r = false /\ fired w k - 1 <= fired w' k else fired w' k = fired w k).
Proof.
  assert (Hsame : forall w0 w1 : World, fired w1 = fired w0 -> forall k, fired w0 k - 1 <= fired w1 k)
    by (intros w0 w1 -> k; lia).
  unfold settle. intros Hrun. apply bind_step in Hrun as [(w1 & em & Hl & Hrun)|(e & Hl & ->)].
  2: { unfold lift in Hl. injection Hl as <- Hb. split; [done|].
       by destruct (build_emitter_err _ _ Hb) as [what ->]. }
  unfold lift in Hl. injection Hl as <- _.
  unfold bind at 1, attempt at 1, on_net at 1 in Hrun.
  destruct (emit lib em (event_of req) (rw_net w)) as [n x]. set (w2 := mkRebuildWorld n (rw_db w)) in *.
  assert (H2 : fired w2 = fired w) by done. destruct x as [resp|e].
  - unfold bind in Hrun. pose proof (record_rate turn req "sent" (Some resp) w2) as Hr. unfold exec in Hr.
    destruct (on_db (record_event lib turn req "sent" (Some resp)) w2) as [w3 [[]|e]] eqn:E.
    + injection Hrun as <- <-. cbn in Hr |- *. by rewrite Hr, H2.
    + injection Hrun as <- <-. cbn in Hr. assert (He : gave_back (Err e) = false).
      { revert E. unfold on_db, record_event, rethrow. destruct (query _ _ _) as [? []]; [done|]. by intros [= _ <-]. }
      rewrite He, Hr, H2. done.
  - unfold bind, attempt in Hrun.
    pose proof (record_rate turn req "failed" (Some (emit_display e))
      (exec (on_db (decrement_on_failure (ft_decrement_fault turn) (ft_settle_day turn)
         (rs_id (fr_subscription req)) (fr_downstream_ref req))) w2)) as Hr.
    unfold exec at 2 in Hr. unfold exec in Hr.
    destruct (on_db (decrement_on_failure _ _ _ _) w2) as [w3 x] eqn:Ed. cbn [fst] in Hr.
    destruct (on_db (record_event lib turn req "failed" _) w3) as [w4 y]. cbn [fst] in Hr.
    injection Hrun as <- <-. cbn [gave_back throw fst] in *. rewrite Hr.
    unfold on_db, decrement_on_failure, query in Ed. destruct (ft_decrement_fault turn).
    + injection Ed as <- _. split; [done|]. split; [done|]. by apply (Hsame w).
    + injection Ed as <- _. unfold fired, key_of. cbn. split.
      * intros k' Hk. by rewrite lookup_alter_ne.
      * split; [done|]. rewrite lookup_alter_eq. destruct (rate (rw_db w) !! _); cbn; lia.
Qed.

Lemma upsert_row_rate key row d : rate (exec (upsert_row lib key row) d) = rate d.
Proof.
  unfold exec, upsert_row. destruct (existsb _ _); [done|]. destruct (subs d !! key); [|done].
  by destruct (_ && _).
Qed.

Lemma delete_fired fault tenant name (w : World) k :
  (forall row, subs (rw_db w) !! (tenant, name) = Some row -> row_id row <> k.1.1) ->
  fired (exec (on_db (sub_delete fault tenant name)) w) k = fired w k.
Proof.
  intros Hne. unfold exec, on_db, sub_delete, fired, rethrow, query. destruct fault; [done|].
  destruct (subs (rw_db w) !! (tenant, name)) as [row|] eqn:E; [|done]. cbn. specialize (Hne row eq_refl).
  f_equal. apply option_eq. intros n. rewrite map_lookup_filter_Some. split; [by intros [? _]|].
  intros Hk. split; [done|]. cbn. congruence.
Qed.

Lemma fire_step_within s s' : fire_step s s' -> within s -> within s'.
Proof.
  intros Hstep Hin q Hq. specialize (Hin q).
  destruct Hstep as [turn req w w' r h out back del Hcap Hr|turn req w w' r h1 h2 out back del Hs taken given
                    |turn req st resp w h out back del|fault s0 w h out back del
                    |fault tenant name w h out back del];
    cbn [now_w held sent strays gone] in *; [specialize (Hin Hq)..|].
  - apply reserve_fired in Hr. cbv zeta in Hr. destruct r as [ok|e]; [|by rewrite Hr]. destruct Hr as [Hf Hok].
    rewrite Hf. destruct ok; [|case_bool_decide; lia]. rewrite times_cons.
    destruct (bool_decide_reflect (key_of (ft_reserve_day turn) req = q)) as [Heq|Hne]; [|lia]. subst q.
    symmetry in Hok. apply Z.leb_le in Hok. rewrite Hf, bool_decide_true in Hok by done.
    cbn [key_of fst]. unfold rate_cap in *. lia.
  - apply settle_fired in Hs. cbv zeta in Hs. fold given in Hs. destruct Hs as [Hother Hk].
    rewrite times_app, times_cons in Hin. rewrite times_app.
    assert (Hfired : fired w q - (if gave_back r && bool_decide (given = q) then 1 else 0) <= fired w' q).
    { destruct (decide (given = q)) as [Heq|Hne]; [subst q|rewrite bool_decide_false, andb_false_r, Hother by done; lia].
      rewrite bool_decide_true, andb_true_r by done. destruct (gave_back r); lia. }
    assert (Hback : gave_back r = true -> went_out r = false) by (intros Hg; rewrite Hg in Hk; apply Hk).
    destruct (gave_back r) eqn:Hg; cbn [andb] in *; [rewrite Hback by done|destruct (went_out r)];
      rewrite ?times_cons; repeat case_bool_decide; rewrite ?times_cons; repeat case_bool_decide;
      try lia; congruence.
  - by rewrite record_rate.
  - assert (Hu : fired (exec (on_db (sub_upsert lib fault s0)) w) = fired w); [|by rewrite Hu].
    unfold exec, on_db, sub_upsert, bind, lift, rethrow, query, fired.
    destruct (map_err _ _) as [spec|]; [|done]. destruct fault; [done|].
    pose proof (upsert_row_rate (rs_tenant s0, rs_name s0)
      (mkSubRow (rs_id s0) spec (rs_enabled s0) (rs_updated_at s0)) (rw_db w)) as Hu. unfold exec in Hu.
    destruct (upsert_row lib _ _ (rw_db w)). cbn in *. by rewrite Hu.
  - rewrite delete_fired by (intros row Hrow; rewrite Hrow in Hq; set_solver). apply Hin.
    destruct (subs (rw_db w) !! (tenant, name)); [|done]. set_solver.
Qed.

(** C31: However firings interleave, whatever fails and however subscriptions are
    edited: for every subscription that is not deleted (its counters would go
    with it), every downstream and day, the firings that took their place on that
    day and went out or may still go out are at most the limit, the highest the
    subscription has had, and one more for every firing that took its place on
    another day and failed on this one, which gives a place of this day back.  So
    the limit holds on every day without such a failure. *)
Theorem rebuild_rate_limit (w : World) (s : Firings)
    (Hstart : forall k, 0 <= fired w k) (Hsteps : rtc fire_step (mkFirings w [] [] [] []) s) :
  forall k, k.1.1 ∉ gone s ->
    times k (held s) + times k (sent s) <= rate_cap (caps k.1.1) + times k (strays s) /\
    (k ∉ strays s -> times k (held s) + times k (sent s) <= rate_cap (caps k.1.1)).
Proof.
  assert (H0 : within (mkFirings w [] [] [] [])).
  { intros k _. change (0 <= fired w k /\ 0 <= rate_cap (caps k.1.1)). unfold rate_cap.
    split; [apply Hstart|lia]. }
  cut (within s).
  { intros Hw k Hgone. destruct (Hw k Hgone) as [_ Hk]. split; [lia|]. intros Hno. rewrite (times_absent k (strays s) Hno) in Hk. lia. }
  remember (mkFirings w [] [] [] []) as s0 eqn:E. clear E Hstart. induction Hsteps as [|? ? ? Hs _ IH]; [done|].
  apply IH. by eapply fire_step_within.
Qed.
End limit.

(** ** What the counter does not promise *)

(** A network that gives prepared answers. *)
Definition Answers : Type := list (result HttpResponse str).

#[export] Instance answers_post : HttpPost Answers := {
  http_post rq := fun l => match l with
                           | [] => ([], Err "no route")
                           | r :: l' => (l', r)
                           end
}.

Definition accepted_post : result HttpResponse str := Ok (mkHttpResponse 204 [] (Ok []) None).

Definition plain_lib : RebuildLib :=
  mkRebuildLib (fun _ => None) (fun _ => Ok JNull) (fun _ => Err "no spec") (fun _ => []) (fun _ => [])
    (fun _ b => b) (fun b => b) (fun _ => None) "foreign key" "unique".

Definition nightly : RebuildSubscription :=
  mkRebuildSubscription "s1" "acme" "api"
    (mkSubscriptionSpec (mkWatchSpec [] []) triggers_default (Tekton "http://ci" None None) 1) true 0.

Definition nightly_req : FireRequest := mkFireRequest nightly "debian:12" "acme/prod/api:1" CveFixed [] "high".

Definition nightly_db : RebuildDb :=
  mkRebuildDb {[ ("acme" : str, "api" : str) := mkSubRow "s1" JNull true 0 ]} [] ∅ ∅.

Definition on_day (reserved settled : Z) : FireTurn := mkFireTurn None reserved settled None None "e" 0.

(** With a limit of one a day: a firing is refused while another is under way,
    and when that one fails the next is refused as well, though nothing has gone
    out, because the refusal was counted too. *)
Theorem failed_firing_blocks_day :
  let reserve' := reserve plain_lib (on_day 1 1) nightly_req in
  let w0 := mkRebuildWorld [Err ("timeout" : str); accepted_post] nightly_db in
  eval reserve' w0 = Ok true /\
  let w1 := exec reserve' w0 in
  eval reserve' w1 = Ok false /\
  let w2 := exec reserve' w1 in
  eval (settle plain_lib (on_day 1 1) nightly_req) w2 = Err (FireEmit (EmitHttp "timeout")) /\
  let w3 := exec (settle plain_lib (on_day 1 1) nightly_req) w2 in
  eval reserve' w3 = Ok false.
Proof. by vm_compute. Qed.

(** A firing of the day before that fails after midnight gives back a place of
    the new day: with a limit of one, two firings go out on day two. *)
Theorem midnight_failure_exceeds_limit :
  let w0 := mkRebuildWorld [accepted_post; Err ("timeout" : str); accepted_post] nightly_db in
  let w1 := exec (reserve plain_lib (on_day 1 2) nightly_req) w0 in
  let first := fire plain_lib (on_day 2 2) nightly_req in
  res_status <$> (match eval first w1 with Ok r => Some r | Err _ => None end) = Some ("sent" : str) /\
  let w2 := exec (settle plain_lib (on_day 1 2) nightly_req) (exec first w1) in
  res_status <$> (match eval first w2 with Ok r => Some r | Err _ => None end) = Some ("sent" : str).
Proof. by vm_compute. Qed.

(** A secret that is missing costs a place too: the emitter is built after the
    place is taken, and nothing gives it back. *)
Theorem missing_secret_takes_place {N : Type} `{!HttpPost N} (lib : RebuildLib) (turn : FireTurn)
    (req : FireRequest) (w w' : RebuildWorld N) (what : str)
    (Hrun : fire lib turn req w = (w', Err (FireConfig what))) :
  fired w' (key_of (ft_reserve_day turn) req) = fired w (key_of (ft_reserve_day turn) req) + 1.
Proof.
  unfold fire in Hrun. apply bind_step in Hrun as [(w1 & ok & Hr & Hrun)|(e & Hr & He)].
  - apply reserve_fired in Hr. cbv zeta in Hr. destruct Hr as [Hf _].
    specialize (Hf (key_of (ft_reserve_day turn) req)). rewrite bool_decide_true in Hf by done.
    rewrite <- Hf. destruct ok; cbn [negb] in Hrun.
    2: { unfold bind, attempt in Hrun. destruct (on_db _ _); done. }
    unfold settle in Hrun. apply bind_step in Hrun as [(w2 & em & Hl & Hrun)|(e & Hl & _)].
    2: { unfold lift in Hl. by injection Hl as <- _. }
    unfold bind at 1, attempt at 1 in Hrun. destruct (on_net _ w2) as [w3 [resp|e]].
    + unfold bind in Hrun. destruct (on_db _ w3) as [w4 [[]|e]] eqn:E; [done|]. injection Hrun as -> ->.
      revert E. unfold on_db, record_event, rethrow. by destruct (query _ _ _) as [? []].
    + unfold bind, attempt in Hrun. destruct (on_db _ w3), (on_db _ _); done.
  - unfold reserve, on_db, rethrow in Hr. destruct (check_and_increment _ _ _ _ _ _ _) as [? []]; [done|].
    injection Hr as _ <-. done.
Qed.

(** ** Subscriptions that have fired *)

Lemma reserved_is_referred lib fault day cap sub downstream d d' ok :
  check_and_increment lib fault day cap sub downstream d = (d', Ok ok) ->
  subs d' = subs d /\ referred sub d' = true.
Proof.
  unfold check_and_increment, query. destruct fault; [done|]. destruct (negb _); [done|].
  destruct (_ <? _); [done|]. intros [= <- _]. split; [done|]. unfold referred. cbn.
  apply orb_true_iff. right. apply existsb_exists. exists ((sub, downstream, day), default 0 (rate d !! (sub, downstream, day)) + 1).
  split; [|apply str_eqb_refl]. apply list_elem_of_In, elem_of_map_to_list, lookup_insert_eq.
Qed.

(** Once a subscription has asked the counter, it can no longer be replaced by
    one with another id, which is what an update that names no id does: the
    statement is refused and the old row stays. *)
Theorem fired_subscription_fixed (lib : RebuildLib) (fault : option str) (day cap : Z) (downstream : str)
    (d d' : RebuildDb) (ok : bool) (r : SubRow) (s : RebuildSubscription)
    (Hrow : subs d !! (rs_tenant s, rs_name s) = Some r)
    (Hfire : check_and_increment lib fault day cap (row_id r) downstream d = (d', Ok ok))
    (Hid : rs_id s <> row_id r) :
  exists e, sub_upsert lib None s d' = (d', Err e).
Proof.
  apply reserved_is_referred in Hfire as [Hs Href]. unfold sub_upsert, bind, lift, rethrow, query, upsert_row.
  destruct (map_err _ _); [|by eexists]. destruct (existsb _ _); [by eexists|].
  rewrite Hs, Hrow, Href. cbn [row_id]. destruct (str_eqb_spec (row_id r) (rs_id s)); [congruence|].
  by eexists.
Qed.

Lemma rebuild_rate_limit_witness :
  let k := ("s1" : str, "acme/prod/api:1" : str, 1) in
  times k [k] + times k [] <= 1.
Proof.
  intros k.
  refine (proj1 (rebuild_rate_limit (N := Answers) plain_lib (fun _ => 1) (mkRebuildWorld [] nightly_db)
    (mkFirings (exec (reserve plain_lib (on_day 1 1) nightly_req) (mkRebuildWorld [] nightly_db)) [k] [] [] []) _
    (rtc_once _ _ _) k _)).
  - intros k'. unfold fired. cbn. by rewrite lookup_empty.
  - apply (fire_reserve plain_lib (fun _ => 1) (on_day 1 1) nightly_req (mkRebuildWorld [] nightly_db) _
      (Ok true) [] [] [] []); [reflexivity|]. apply run_eval. vm_compute. reflexivity.
  - apply not_elem_of_nil.
Defined.
