(* ===== verification/Import.v ===== *)
(** * Importing from other registries ([crates/specton-import])

    Four adapters read a foreign registry over HTTP; the runner walks its
    repositories and tags and copies what it finds to a destination; jobs are
    kept in the table of [0007_import.sql].  Sources and destinations are
    records of operations, as the traits of the crate are; the network is a
    parameter. *)

From S2P Require Import Prelude Json Text Effects Store Multipart Http.

Local Open Scope Z_scope.
Local Open Scope result_scope.

(** ** Sources ([source.rs]) *)

Record Repository : Type := mkRepository { repo_name : str }.

Record Tag : Type := mkTag {
  tag_name : str;
  tag_digest : str;
  tag_size : Z
}.

Inductive ImportError : Type :=
| ImpHttp (e : str)
| ImpAuth (e : str)
| ImpNotFound (e : str)
| ImpParse (e : str)
| ImpIo (e : str).

Record RegistrySource (N : Type) : Type := mkRegistrySource {
  source_id : str;
  list_repositories : M N ImportError (list Repository);
  source_tags : Repository -> M N ImportError (list Tag);
  source_manifest : Repository -> str -> M N ImportError (str * str);
  source_blob : Repository -> str -> M N ImportError str
}.
Arguments mkRegistrySource {N}.
Arguments source_id {N}.
Arguments list_repositories {N}.
Arguments source_tags {N}.
Arguments source_manifest {N}.
Arguments source_blob {N}.

(** ** Destinations ([destination.rs]) *)

Record RegistryDestination (D : Type) : Type := mkRegistryDestination {
  dest_blob : forall tenant project repository digest bytes : str, M D ImportError unit;
  dest_manifest : forall tenant project repository tag bytes media_type : str, M D ImportError unit
}.
Arguments mkRegistryDestination {D}.
Arguments dest_blob {D}.
Arguments dest_manifest {D}.

Record InMemoryDestination : Type := mkInMemoryDestination {
  mem_blobs : gmap str str;
  mem_manifests : gmap str (str * str)
}.

Definition blob_key (tenant project repository digest : str) : str :=
  tenant ++ "/" ++ project ++ "/" ++ repository ++ "/" ++ digest.

Definition manifest_key (tenant project repository tag : str) : str :=
  tenant ++ "/" ++ project ++ "/" ++ repository ++ ":" ++ tag.

Definition in_memory : RegistryDestination InMemoryDestination :=
  mkRegistryDestination
    (fun tenant project repository digest bytes =>
       modify (fun d => mkInMemoryDestination
                          (<[blob_key tenant project repository digest := bytes]> (mem_blobs d))
                          (mem_manifests d)))
    (fun tenant project repository tag bytes media_type =>
       modify (fun d => mkInMemoryDestination (mem_blobs d)
                          (<[manifest_key tenant project repository tag := (bytes, media_type)]>
                             (mem_manifests d)))).

(** ** The Distribution adapter ([distribution.rs]) *)

(** The texts of [reqwest]'s errors, and [serde_json]. *)
Record ImportLib : Type := mkImportLib {
  il_parse : str -> option json;
  il_json_error : str -> str;
  il_status_error : Z -> str -> str
}.

(** Derived readers: a struct is an object or the sequence of its fields. *)
Definition de_strings (v : json) : option (list str) :=
  match v with
  | JArray vs => traverse as_str vs
  | _ => None
  end.

(** [CatalogResp], and [AcrCatalog], which has the same field. *)
Definition de_catalog (v : json) : option (list str) :=
  match v with
  | JObject fs =>
      match field "repositories" fs with
      | Some (Some v) => de_strings v
      | _ => None
      end
  | JArray [v] => de_strings v
  | _ => None
  end.

Definition de_optional_strings (v : json) : option (option (list str)) :=
  match v with
  | JNull => Some None
  | v => Some <$> de_strings v
  end.

(** [TagListResp] *)
Definition de_tag_list (v : json) : option (option (list str)) :=
  match v with
  | JObject fs =>
      match field "tags" fs with
      | Some None => Some None
      | Some (Some v) => de_optional_strings v
      | None => None
      end
  | JArray [v] => de_optional_strings v
  | _ => None
  end.

(** [HarborProject] and [HarborRepo] *)
Definition de_named (v : json) : option str :=
  match v with
  | JObject fs =>
      match field "name" fs with
      | Some (Some (JString n)) => Some n
      | _ => None
      end
  | JArray [JString n] => Some n
  | _ => None
  end.

Definition de_named_list (v : json) : option (list str) :=
  match v with
  | JArray vs => traverse de_named vs
  | _ => None
  end.

Definition no_digest (name : str) : Tag := mkTag name [] 0.

Definition ACCEPT : str :=
  "application/vnd.oci.image.manifest.v1+json, application/vnd.oci.image.index.v1+json, application/vnd.docker.distribution.manifest.v2+json, application/vnd.docker.distribution.manifest.list.v2+json".

Section sources.
Context {N : Type} `{Http N} (lib : ImportLib).

Abbreviation Src := (M N ImportError).

(** [req.send().await?] *)
Definition http_get (url : str) (accept : option str) (auth : option HttpAuth) : Src HttpResponse :=
  rethrow ImpHttp (http_send (mkHttpRequest url [] accept auth)).

(** [resp.error_for_status()?] *)
Definition error_for_status (url : str) (resp : HttpResponse) : Src HttpResponse :=
  if (400 <=? rs_status resp) && (rs_status resp <? 600)
  then throw (ImpHttp (il_status_error lib (rs_status resp) url))
  else ret resp.

(** [resp.bytes().await?] *)
Definition body_of (resp : HttpResponse) : Src str := lift (map_err ImpHttp (rs_bytes resp)).

(** [resp.json().await?] *)
Definition json_of {A} (de : json -> option A) (resp : HttpResponse) : Src A :=
  let! bytes := body_of resp in
  match il_parse lib bytes ≫= de with
  | Some a => ret a
  | None => throw (ImpHttp (il_json_error lib bytes))
  end.

Definition get_json {A} (de : json -> option A) (url : str) (auth : option HttpAuth) : Src A :=
  let! resp := http_get url None auth in
  let! resp := error_for_status url resp in
  json_of de resp.

(** [DistributionSource], with the base already trimmed. *)
Definition bearer_auth (bearer : option str) : option HttpAuth :=
  (fun t => RawAuth ("Bearer " ++ t)) <$> bearer.

Definition distribution_repositories (base : str) (bearer : option str) : Src (list Repository) :=
  let! names := get_json de_catalog (base ++ "/v2/_catalog?n=1000") (bearer_auth bearer) in
  ret (map mkRepository names).

Definition distribution_tags (base : str) (bearer : option str) (repo : Repository) : Src (list Tag) :=
  let! tags := get_json de_tag_list (base ++ "/v2/" ++ repo_name repo ++ "/tags/list")
                 (bearer_auth bearer) in
  ret (map no_digest (default [] tags)).

Definition distribution_manifest (base : str) (bearer : option str) (repo : Repository) (tag : str) :
    Src (str * str) :=
  let url := base ++ "/v2/" ++ repo_name repo ++ "/manifests/" ++ tag in
  let! resp := http_get url (Some ACCEPT) (bearer_auth bearer) in
  let! resp := error_for_status url resp in
  let media_type := default ("application/vnd.oci.image.manifest.v1+json" : str)
                      (header_get "content-type" (rs_headers resp)) in
  let! bytes := body_of resp in
  ret (bytes, media_type).

Definition distribution_blob (base : str) (bearer : option str) (repo : Repository) (digest : str) :
    Src str :=
  let url := base ++ "/v2/" ++ repo_name repo ++ "/blobs/" ++ digest in
  let! resp := http_get url None (bearer_auth bearer) in
  let! resp := error_for_status url resp in
  body_of resp.

Definition trim_base (base : str) : str := trim_end_byte "/"%char base.

Definition DistributionSource (base : str) (bearer : option str) : RegistrySource N :=
  let base := trim_base base in
  mkRegistrySource "distribution" (distribution_repositories base bearer)
    (distribution_tags base bearer) (distribution_manifest base bearer) (distribution_blob base bearer).

(** ** Harbor ([harbor.rs]) *)

(** [req.basic_auth(u, p)]; without a password an empty one is sent. *)
Definition harbor_auth (username password : option str) : option HttpAuth :=
  match username, password with
  | Some u, Some p => Some (BasicAuth u p)
  | Some u, None => Some (BasicAuth u [])
  | None, _ => None
  end.

(** The loop over [projects]. *)
Fixpoint harbor_walk (base : str) (auth : option HttpAuth) (projects : list str)
    (out : list Repository) : Src (list Repository) :=
  match projects with
  | [] => ret out
  | proj :: projects' =>
      let! repos := get_json de_named_list
                      (base ++ "/api/v2.0/projects/" ++ proj ++ "/repositories?page_size=200") auth in
      harbor_walk base auth projects' (out ++ map mkRepository repos)
  end.

Definition harbor_repositories (base : str) (auth : option HttpAuth) (project : option str) :
    Src (list Repository) :=
  let! projects :=
    match project with
    | Some p => ret [p]
    | None => get_json de_named_list (base ++ "/api/v2.0/projects?page_size=200") auth
    end in
  harbor_walk base auth projects [].

(** The Distribution calls are made by a client without a bearer token. *)
Definition HarborSource (base : str) (username password project : option str) : RegistrySource N :=
  let base := trim_base base in
  let distribution := DistributionSource base None in
  mkRegistrySource "harbor" (harbor_repositories base (harbor_auth username password) project)
    (source_tags distribution) (source_manifest distribution) (source_blob distribution).

(** ** Azure ([acr.rs]) *)

Definition acr_repositories (base : str) (bearer : option str)
    (distribution : RegistrySource N) : Src (list Repository) :=
  let url := base ++ "/acr/v1/_catalog?n=2000" in
  let! resp := http_get url None (bearer_auth bearer) in
  if rs_status resp =? 404 then list_repositories distribution
  else
    let! resp := error_for_status url resp in
    let! names := json_of de_catalog resp in
    ret (map mkRepository names).

Definition AcrSource (base : str) (bearer : option str) : RegistrySource N :=
  let base := trim_base base in
  let distribution := DistributionSource base bearer in
  mkRegistrySource "acr" (acr_repositories base bearer distribution)
    (source_tags distribution) (source_manifest distribution) (source_blob distribution).

(** ** Nexus ([nexus.rs]) *)

Definition nexus_repositories (base : str) (bearer docker_repo : option str) : Src (list Repository) :=
  let! names := get_json de_catalog (base ++ "/v2/_catalog?n=2000") (bearer_auth bearer) in
  ret (map mkRepository
         (List.filter (fun n => match docker_repo with
                                | Some prefix => starts_with prefix n
                                | None => true
                                end) names)).

Definition NexusSource (base : str) (bearer docker_repo : option str) : RegistrySource N :=
  let base := trim_base base in
  let distribution := DistributionSource base bearer in
  mkRegistrySource "nexus" (nexus_repositories base bearer docker_repo)
    (source_tags distribution) (source_manifest distribution) (source_blob distribution).
End sources.

(** ** The runner ([runner.rs]) *)

Record ImportRunnerConfig : Type := mkImportRunnerConfig {
  ic_tenant : str;
  ic_project : str;
  ic_parallelism : Z;
  include_prefix : option str
}.

Definition runner_default : ImportRunnerConfig := mkImportRunnerConfig "default" "default" 1 None.

Record ImportRunReport : Type := mkImportRunReport {
  repos_seen : Z;
  repos_copied : Z;
  tags_copied : Z;
  blobs_copied : Z;
  bytes_copied : Z;
  import_failures : Z
}.

Definition report_zero : ImportRunReport := mkImportRunReport 0 0 0 0 0 0.

(** [parse_descriptors] *)
Definition de_desc (v : json) : option str :=
  match v with
  | JObject fs =>
      match field "digest" fs with
      | Some (Some (JString d)) => Some d
      | _ => None
      end
  | JArray [JString d] => Some d
  | _ => None
  end.

Definition de_descs (v : option json) : option (list str) :=
  match v with
  | None => Some []
  | Some (JArray vs) => traverse de_desc vs
  | Some _ => None
  end.

Definition de_config (v : option json) : option (list str) :=
  match v with
  | None | Some JNull => Some []
  | Some v => (fun d => [d]) <$> de_desc v
  end.

(** The digests of configuration, layers and child manifests, in this order. *)
Definition de_raw_manifest (v : json) : option (list str) :=
  let fields c l m :=
    match de_config c, de_descs l, de_descs m with
    | Some c, Some l, Some m => Some (c ++ l ++ m)
    | _, _, _ => None
    end in
  match v with
  | JObject fs =>
      match field "config" fs, field "layers" fs, field "manifests" fs with
      | Some c, Some l, Some m => fields c l m
      | _, _, _ => None
      end
  | JArray vs =>
      if (length vs <=? 3)%nat then fields (vs !! 0%nat) (vs !! 1%nat) (vs !! 2%nat) else None
  | _ => None
  end.

(** The [push] closure over all of them. *)
Fixpoint push_all (seen : gset str) (ds : list str) : list str :=
  match ds with
  | [] => []
  | d :: ds' =>
      if negb (non_empty d) || bool_decide (d ∈ seen) then push_all seen ds'
      else d :: push_all ({[d]} ∪ seen) ds'
  end.

Definition parse_descriptors (parse : str -> option json) (bytes : str) : list str :=
  match parse bytes ≫= de_raw_manifest with
  | Some ds => push_all ∅ ds
  | None => []
  end.

Record ImportWorld (N D : Type) : Type := mkImportWorld {
  iw_source : N;
  iw_dest : D;
  iw_report : ImportRunReport
}.
Arguments mkImportWorld {N D}.
Arguments iw_source {N D}.
Arguments iw_dest {N D}.
Arguments iw_report {N D}.

Section runner.
Context {N D : Type} (parse : str -> option json).
Context (source : RegistrySource N) (destination : RegistryDestination D) (config : ImportRunnerConfig).

Abbreviation Run := (M (ImportWorld N D) ImportError).

Definition from_source {A} (m : M N ImportError A) : Run A :=
  fun w => let '(n, r) := m (iw_source w) in (mkImportWorld n (iw_dest w) (iw_report w), r).

Definition to_dest {A} (m : M D ImportError A) : Run A :=
  fun w => let '(d, r) := m (iw_dest w) in (mkImportWorld (iw_source w) d (iw_report w), r).

Definition count (f : ImportRunReport -> ImportRunReport) : Run unit :=
  modify (fun w => mkImportWorld (iw_source w) (iw_dest w) (f (iw_report w))).

Definition failed (r : ImportRunReport) : ImportRunReport :=
  mkImportRunReport (repos_seen r) (repos_copied r) (tags_copied r) (blobs_copied r) (bytes_copied r)
    (import_failures r + 1).

Definition blob_done (n : Z) (r : ImportRunReport) : ImportRunReport :=
  mkImportRunReport (repos_seen r) (repos_copied r) (tags_copied r) (blobs_copied r + 1)
    (bytes_copied r + n) (import_failures r).

Definition tag_done (n : Z) (r : ImportRunReport) : ImportRunReport :=
  mkImportRunReport (repos_seen r) (repos_copied r) (tags_copied r + 1) (blobs_copied r)
    (bytes_copied r + n) (import_failures r).

Definition repo_seen (r : ImportRunReport) : ImportRunReport :=
  mkImportRunReport (repos_seen r + 1) (repos_copied r) (tags_copied r) (blobs_copied r)
    (bytes_copied r) (import_failures r).

Definition repo_done (r : ImportRunReport) : ImportRunReport :=
  mkImportRunReport (repos_seen r) (repos_copied r + 1) (tags_copied r) (blobs_copied r)
    (bytes_copied r) (import_failures r).

(** One turn of the loop over the descriptors. *)
Definition copy_descriptor (repo : Repository) (digest : str) : Run unit :=
  let! fetched := attempt (from_source (source_blob source repo digest)) in
  match fetched with
  | Ok bytes =>
      do! to_dest (dest_blob destination (ic_tenant config) (ic_project config) (repo_name repo)
                     digest bytes) in
      count (blob_done (len bytes))
  | Err _ => count failed
  end.

Definition copy_tag (repo : Repository) (tag : str) : Run unit :=
  let! (manifest_bytes, media_type) := from_source (source_manifest source repo tag) in
  do! for_each (parse_descriptors parse manifest_bytes) (copy_descriptor repo) in
  do! to_dest (dest_manifest destination (ic_tenant config) (ic_project config) (repo_name repo)
                 tag manifest_bytes media_type) in
  count (tag_done (len manifest_bytes)).

Definition copy_repo (repo : Repository) : Run unit :=
  let! tags := from_source (source_tags source repo) in
  for_each tags (fun tag =>
    let! r := attempt (copy_tag repo (tag_name tag)) in
    match r with
    | Ok _ => ret tt
    | Err _ => count failed
    end).

(** [matches!(&include_prefix, Some(p) if !name.starts_with(p))], negated *)
Definition included (repo : Repository) : bool :=
  match include_prefix config with
  | Some p => starts_with p (repo_name repo)
  | None => true
  end.

Definition run_repo (repo : Repository) : Run unit :=
  if included repo then
    do! count repo_seen in
    let! r := attempt (copy_repo repo) in
    match r with
    | Ok _ => count repo_done
    | Err _ => count failed
    end
  else ret tt.

(** The world starts with the report of zeros. *)
Definition import_run : Run ImportRunReport :=
  let! repos := from_source (list_repositories source) in
  do! for_each repos run_repo in
  gets iw_report.
End runner.

(** ** Jobs ([jobs.rs]) *)

Inductive ImportPhase : Type := ImpQueued | ImpRunning | ImpSucceeded | ImpFailed | ImpAborted.

Definition phase_str (p : ImportPhase) : str :=
  match p with
  | ImpQueued => "queued"
  | ImpRunning => "running"
  | ImpSucceeded => "succeeded"
  | ImpFailed => "failed"
  | ImpAborted => "aborted"
  end.

Definition phase_parse (s : str) : ImportPhase :=
  if str_eqb s "running" then ImpRunning
  else if str_eqb s "succeeded" then ImpSucceeded
  else if str_eqb s "failed" then ImpFailed
  else if str_eqb s "aborted" then ImpAborted
  else ImpQueued.

(** The columns of [import_jobs] the store reads; the phase is a text. *)
Record ImportJobCols : Type := mkImportJobCols {
  ij_tenant : str;
  ij_spec : json;
  ij_phase : str;
  ij_repos_total : Z;
  ij_repos_copied : Z;
  ij_tags_total : Z;
  ij_tags_copied : Z;
  ij_bytes_copied : Z;
  ij_started_at : option Z;
  ij_finished_at : option Z
}.

Record ImportJobRow : Type := mkImportJobRow {
  job_id : str;
  job_tenant : str;
  job_spec : json;
  job_phase : ImportPhase;
  job_repos_total : Z;
  job_repos_copied : Z;
  job_tags_total : Z;
  job_tags_copied : Z;
  job_bytes_copied : Z;
  job_started_at : option Z;
  job_finished_at : option Z
}.

Abbreviation Jobs := (M (gmap str ImportJobCols) str).

Definition job_statement {A} (fault : option str) (m : Jobs A) : Jobs A :=
  match fault with
  | Some e => throw e
  | None => m
  end.

(** [create]; a new id that is taken violates the primary key. *)
Definition create_job (fault : option str) (id tenant : str) (spec : json) : Jobs ImportJobRow :=
  do! job_statement fault
        (let! t := gets (fun t => t) in
         match t !! id with
         | Some _ => throw "duplicate key value violates unique constraint"
         | None => modify (insert id (mkImportJobCols tenant spec "queued" 0 0 0 0 0 None None))
         end) in
  ret (mkImportJobRow id tenant spec ImpQueued 0 0 0 0 0 None None).

Definition job_of (id : str) (c : ImportJobCols) : ImportJobRow :=
  mkImportJobRow id (ij_tenant c) (ij_spec c) (phase_parse (ij_phase c)) (ij_repos_total c)
    (ij_repos_copied c) (ij_tags_total c) (ij_tags_copied c) (ij_bytes_copied c) (ij_started_at c)
    (ij_finished_at c).

Definition get_job (fault : option str) (id : str) : Jobs (option ImportJobRow) :=
  job_statement fault (gets (fun t => job_of id <$> t !! id)).

Definition set_phase (fault : option str) (id : str) (phase : ImportPhase) : Jobs unit :=
  job_statement fault
    (modify (alter (fun c => mkImportJobCols (ij_tenant c) (ij_spec c) (phase_str phase) (ij_repos_total c)
                               (ij_repos_copied c) (ij_tags_total c) (ij_tags_copied c)
                               (ij_bytes_copied c) (ij_started_at c) (ij_finished_at c)) id)).
