(* ===== verification/ImportTheorems.v ===== *)
(** * What an import promises

    The run against a registry that does not change while it is read, as a
    function of what the registry holds; where any run may write; which
    requests carry credentials; the table of jobs. *)

From stdpp Require Import list.
From S2P Require Import Prelude Json Text Effects Store Multipart Http Import.

Local Open Scope Z_scope.
Local Open Scope result_scope.

(** ** Folds and keys *)

Lemma foldl_inv {A W} (f : W -> A -> W) (P : W -> Prop) l w :
  P w -> (forall w x, x ∈ l -> P w -> P (f w x)) -> P (foldl f w l).
Proof.
  revert w. induction l as [|x l IH]; intros w Hw Hf; [done|]. cbn. apply IH; [apply Hf; [set_solver|done]|].
  intros. apply Hf; [set_solver|done].
Qed.

Lemma foldl_reach {A W} (f : W -> A -> W) (Q : W -> Prop) l w x :
  x ∈ l -> (forall w, Q (f w x)) -> (forall w y, y ∈ l -> Q w -> Q (f w y)) -> Q (foldl f w l).
Proof.
  intros Hx Hq Hp. revert w. induction l as [|y l IH]; intros w; [by apply not_elem_of_nil in Hx|].
  apply elem_of_cons in Hx as [<-|Hx].
  - cbn. apply foldl_inv; [done|]. intros. apply Hp; [set_solver|done].
  - cbn. apply IH; [done|]. intros. apply Hp; [set_solver|done].
Qed.

(** Texts joined by a byte that the second does not contain. *)
Lemma last_byte_inj (c : ascii) (a b a' b' : str) :
  c ∉ b -> c ∉ b' -> a ++ c :: b = a' ++ c :: b' -> a = a' /\ b = b'.
Proof.
  intros Hb Hb'. revert a'. induction a as [|x a IH]; intros [|x' a']; cbn; intros H.
  - by injection H.
  - injection H as <- ->. destruct Hb. set_solver.
  - injection H as -> <-. destruct Hb'. set_solver.
  - injection H as -> H. by destruct (IH _ H) as [-> ->].
Qed.

Lemma manifest_key_inj t p r g r' g' :
  ":"%char ∉ g -> ":"%char ∉ g' -> manifest_key t p r g = manifest_key t p r' g' -> r = r' /\ g = g'.
Proof.
  unfold manifest_key. intros Hg Hg' H.
  repeat first [apply app_inv_head in H|apply (app_inv_head "/") in H]. by apply (last_byte_inj ":"%char).
Qed.

Lemma blob_key_inj t p r d r' d' :
  "/"%char ∉ d -> "/"%char ∉ d' -> blob_key t p r d = blob_key t p r' d' -> r = r' /\ d = d'.
Proof.
  unfold blob_key. intros Hg Hg' H.
  repeat first [apply app_inv_head in H|apply (app_inv_head "/") in H]. by apply (last_byte_inj "/"%char).
Qed.

(** ** Descriptors *)

Lemma push_all_elem d seen ds :
  d ∈ push_all seen ds <-> d ∈ ds /\ d <> [] /\ d ∉ seen.
Proof.
  revert seen. induction ds as [|x ds IH]; intros seen; cbn; [set_solver|].
  destruct x as [|a x]; cbn [non_empty negb orb].
  { rewrite IH. set_solver. }
  case_bool_decide; [rewrite IH; set_solver|]. rewrite elem_of_cons, IH.
  destruct (decide (d = a :: x)) as [->|]; set_solver.
Qed.

Lemma push_all_nodup seen ds : NoDup (push_all seen ds).
Proof.
  revert seen. induction ds as [|x ds IH]; intros seen; cbn; [constructor|].
  destruct (negb (non_empty x) || bool_decide (x ∈ seen)); [done|]. constructor; [|done].
  rewrite push_all_elem. set_solver.
Qed.

(** Failures of a sequence of steps none of which takes one back. *)
Lemma fold_failures {A} (f : InMemoryDestination * ImportRunReport -> A -> InMemoryDestination * ImportRunReport)
     (complete : A -> Prop) l w :
  (forall w x, x ∈ l -> import_failures w.2 <= import_failures (f w x).2 /\
     (import_failures (f w x).2 = import_failures w.2 <-> complete x)) ->
  import_failures w.2 <= import_failures (foldl f w l).2 /\
  (import_failures (foldl f w l).2 = import_failures w.2 <-> forall x, x ∈ l -> complete x).
Proof.
  revert w. induction l as [|x l IH]; intros w H; [split; [done|]; split; [set_solver|done]|].
  cbn [foldl]. destruct (H w x ltac:(set_solver)) as [H1 H2].
  destruct (IH (f w x)) as [H3 H4]; [intros; apply H; set_solver|]. split; [lia|]. split.
  - intros He y [->|Hy]%elem_of_cons; [apply H2; lia|]. apply H4; [lia|done].
  - intros Hc. assert (complete x) as Hx by set_solver. apply H2 in Hx.
    rewrite <- Hx. apply H4. intros y Hy. apply Hc. set_solver.
Qed.

(** ** A registry that does not change *)

(** What the source answers, as a function of what is asked. *)
Record Catalog : Type := mkCatalog {
  cat_repos : result (list Repository) ImportError;
  cat_tags : str -> result (list Tag) ImportError;
  cat_manifest : str -> str -> result (str * str) ImportError;
  cat_blob : str -> str -> result str ImportError
}.

Definition stable {N} (c : Catalog) : RegistrySource N :=
  mkRegistrySource "stable" (lift (cat_repos c)) (fun r => lift (cat_tags c (repo_name r)))
    (fun r t => lift (cat_manifest c (repo_name r) t)) (fun r d => lift (cat_blob c (repo_name r) d)).

Section stable.
Context (parse : str -> option json) (c : Catalog) (config : ImportRunnerConfig).

Abbreviation State := (InMemoryDestination * ImportRunReport)%type.

(** The blobs of a manifest that the source serves. *)
Definition served (r : str) (ds : list str) : list (str * str) :=
  omap (fun d => match cat_blob c r d with Ok x => Some (d, x) | Err _ => None end) ds.

Definition put_blobs (r : str) (l : list (str * str)) (m : gmap str str) : gmap str str :=
  foldl (fun m dx => <[blob_key (ic_tenant config) (ic_project config) r dx.1 := dx.2]> m) m l.

Definition total (l : list (str * str)) : Z := foldr (fun dx n => len dx.2 + n) 0 l.

Definition add_blobs (ds : list str) (got : list (str * str)) (n : ImportRunReport) : ImportRunReport :=
  mkImportRunReport (repos_seen n) (repos_copied n) (tags_copied n)
    (blobs_copied n + Z.of_nat (length got)) (bytes_copied n + total got)
    (import_failures n + (Z.of_nat (length ds) - Z.of_nat (length got))).

Definition tag_effect (r : str) (w : State) (t : Tag) : State :=
  match cat_manifest c r (tag_name t) with
  | Err _ => (w.1, failed w.2)
  | Ok (bytes, media_type) =>
      let ds := parse_descriptors parse bytes in
      (mkInMemoryDestination (put_blobs r (served r ds) (mem_blobs w.1))
         (<[manifest_key (ic_tenant config) (ic_project config) r (tag_name t) := (bytes, media_type)]>
            (mem_manifests w.1)),
       tag_done (len bytes) (add_blobs ds (served r ds) w.2))
  end.

Definition repo_effect (w : State) (r : Repository) : State :=
  if included config r then
    match cat_tags c (repo_name r) with
    | Err _ => (w.1, failed (repo_seen w.2))
    | Ok tags =>
        let w' := foldl (tag_effect (repo_name r)) (w.1, repo_seen w.2) tags in
        (w'.1, repo_done w'.2)
    end
  else w.

Definition of_state {N} (n : N) (w : State) : ImportWorld N InMemoryDestination :=
  mkImportWorld n w.1 w.2.

Lemma add_blobs_got ds got x bytes rep :
  add_blobs ds got (blob_done (len bytes) rep) = add_blobs (x :: ds) ((x, bytes) :: got) rep.
Proof. unfold add_blobs, blob_done. change (total ((x, bytes) :: got)) with (len bytes + total got).
  cbn [repos_seen repos_copied tags_copied blobs_copied bytes_copied import_failures length]. f_equal; lia.
Qed.

Lemma add_blobs_miss ds got (x : str) rep : add_blobs ds got (failed rep) = add_blobs (x :: ds) got rep.
Proof. unfold add_blobs, failed.
  cbn [repos_seen repos_copied tags_copied blobs_copied bytes_copied import_failures length]. f_equal; lia.
Qed.

Lemma copy_descriptors_run {N} (n : N) r ds d rep :
  for_each ds (copy_descriptor (stable c) in_memory config r) (mkImportWorld n d rep) =
  (mkImportWorld n (mkInMemoryDestination (put_blobs (repo_name r) (served (repo_name r) ds) (mem_blobs d))
                      (mem_manifests d)) (add_blobs ds (served (repo_name r) ds) rep), Ok tt).
Proof.
  revert d rep. induction ds as [|x ds IH]; intros [bs ms] rep.
  { cbn. unfold add_blobs. cbn. destruct rep. by rewrite !Z.add_0_r. }
  cbn [for_each]. unfold bind at 1, copy_descriptor at 1, served. cbn [omap list_omap].
  fold (served (repo_name r) ds). unfold bind at 1, attempt, from_source. cbn.
  destruct (cat_blob c (repo_name r) x) as [bytes|e] eqn:Hb; cbn; rewrite IH; cbn.
  - by rewrite (add_blobs_got _ _ x).
  - by rewrite (add_blobs_miss _ _ x).
Qed.

Lemma copy_tag_run {N} (n : N) r t w :
  (let! x := attempt (copy_tag parse (stable c) in_memory config r (tag_name t)) in
   match x with Ok _ => ret (E := ImportError) tt | Err _ => count failed end) (of_state n w) =
  (of_state n (tag_effect (repo_name r) w t), Ok tt).
Proof.
  destruct w as [d rep]. unfold of_state, tag_effect, copy_tag. cbn.
  unfold bind at 1, attempt, bind at 1, from_source at 1. cbn.
  destruct (cat_manifest c (repo_name r) (tag_name t)) as [[bytes mt]|e]; [|done]. cbn.
  unfold bind at 1. by rewrite copy_descriptors_run.
Qed.

Lemma tags_run {N} (n : N) r tags w :
  for_each tags (fun tag =>
    let! x := attempt (copy_tag parse (stable c) in_memory config r (tag_name tag)) in
    match x with Ok _ => ret tt | Err _ => count failed end) (of_state n w) =
  (of_state n (foldl (tag_effect (repo_name r)) w tags), Ok tt).
Proof.
  revert w. induction tags as [|t tags IH]; intros w; [done|]. cbn [for_each foldl].
  unfold bind at 1. by rewrite copy_tag_run, IH.
Qed.

Lemma repos_run {N} (n : N) repos w :
  for_each repos (run_repo parse (stable c) in_memory config) (of_state n w) =
  (of_state n (foldl repo_effect w repos), Ok tt).
Proof.
  revert w. induction repos as [|r repos IH]; intros w; [done|]. cbn [for_each foldl].
  unfold bind at 1. rewrite <- IH. unfold run_repo, repo_effect. destruct (included config r); [|done].
  destruct w as [d rep]. unfold bind at 1. cbn. unfold bind at 1, attempt, copy_repo, bind at 1, from_source.
  cbn. destruct (cat_tags c (repo_name r)) as [tags|e]; [|done]. cbn.
  change (mkImportWorld n d (repo_seen rep)) with (of_state n (d, repo_seen rep)). by rewrite tags_run.
Qed.

Lemma import_run_eq {N} (n : N) repos d :
  cat_repos c = Ok repos ->
  let w := foldl repo_effect (d, report_zero) repos in
  import_run parse (stable c) in_memory config (mkImportWorld n d report_zero) = (of_state n w, Ok w.2).
Proof.
  intros Hr. cbn. unfold import_run, bind at 1, from_source. cbn. rewrite Hr. cbn.
  change (mkImportWorld n d report_zero) with (of_state n (d, report_zero)).
  unfold bind. by rewrite repos_run.
Qed.

(** ** What is copied *)

(** A tag the run reaches. *)
Definition offered (repos : list Repository) (r t : str) : Prop :=
  exists repo tags tag, repo ∈ repos /\ included config repo = true /\ repo_name repo = r /\
    cat_tags c r = Ok tags /\ tag ∈ tags /\ tag_name tag = t.

Definition mkey := manifest_key (ic_tenant config) (ic_project config).
Definition bkey := blob_key (ic_tenant config) (ic_project config).

(** A blob that a manifest lists and the source serves. *)
Definition lists_blob (r t d x : str) : Prop :=
  exists bytes media_type, cat_manifest c r t = Ok (bytes, media_type) /\
    d ∈ parse_descriptors parse bytes /\ cat_blob c r d = Ok x.

(** A property of the destination over the whole run, from the single tags. *)
Lemma run_inv (P : InMemoryDestination -> Prop) repos w :
  P w.1 ->
  (forall r t w, offered repos r (tag_name t) -> P w.1 -> P (tag_effect r w t).1) ->
  P (foldl repo_effect w repos).1.
Proof.
  intros Hw Hstep. apply (foldl_inv _ (fun w => P w.1)); [done|]. intros w0 repo Hrepo Hw0.
  unfold repo_effect. destruct (included config repo) eqn:Hi; [|done].
  destruct (cat_tags c (repo_name repo)) as [tags|e] eqn:Ht; [|done].
  cbn. apply (foldl_inv _ (fun w => P w.1)); [done|]. intros w1 t Htag. apply Hstep.
  exists repo, tags, t. by repeat split.
Qed.

Lemma run_reach (Q : InMemoryDestination -> Prop) repos w r t :
  offered repos r t ->
  (forall tag w, tag_name tag = t -> Q (tag_effect r w tag).1) ->
  (forall r' t' w, offered repos r' (tag_name t') -> Q w.1 -> Q (tag_effect r' w t').1) ->
  Q (foldl repo_effect w repos).1.
Proof.
  intros (repo & tags & tag & Hrepo & Hi & <- & Ht & Htag & <-) Hq Hp.
  apply (foldl_reach _ (fun w => Q w.1) _ _ repo); [done|..].
  - intros w0. unfold repo_effect. rewrite Hi, Ht. cbn.
    apply (foldl_reach _ (fun w => Q w.1) _ _ tag); [done|by intros; apply Hq|].
    intros w1 t' Ht'. apply Hp. exists repo, tags, t'. by repeat split.
  - intros w0 repo' Hrepo' Hw0. unfold repo_effect. destruct (included config repo') eqn:Hi'; [|done].
    destruct (cat_tags c (repo_name repo')) as [tags'|e] eqn:Ht'; [|done].
    cbn. apply (foldl_inv _ (fun w => Q w.1)); [done|]. intros w1 t' Htag'. apply Hp.
    exists repo', tags', t'. by repeat split.
Qed.

Lemma served_elem r ds d x : (d, x) ∈ served r ds <-> d ∈ ds /\ cat_blob c r d = Ok x.
Proof.
  unfold served. rewrite list_elem_of_omap. split.
  - intros (d' & Hd & H). destruct (cat_blob c r d') eqn:Hb; [|done]. by injection H as -> ->.
  - intros [Hd Hb]. exists d. by rewrite Hb.
Qed.

Lemma put_blobs_other r l m k :
  (forall d x, (d, x) ∈ l -> bkey r d <> k) -> put_blobs r l m !! k = m !! k.
Proof.
  revert m. induction l as [|[d x] l IH]; intros m H; [done|].
  change (put_blobs r l (<[bkey r d := x]> m) !! k = m !! k). rewrite IH by set_solver.
  apply lookup_insert_ne, (H d x). set_solver.
Qed.

Lemma put_blobs_origin r l m k v :
  put_blobs r l m !! k = Some v -> m !! k = Some v \/ exists d, (d, v) ∈ l /\ k = bkey r d.
Proof.
  revert m. induction l as [|[d x] l IH]; intros m H; [by left|].
  change (put_blobs r l (<[bkey r d := x]> m) !! k = Some v) in H.
  apply IH in H as [H|(d' & Hd' & ->)]; [|right; exists d'; set_solver].
  apply lookup_insert_Some in H as [[<- <-]|[_ H]]; [|by left]. right. exists d. set_solver.
Qed.

Lemma put_blobs_at r ds m d x :
  d ∈ ds -> cat_blob c r d = Ok x -> (forall d', d' ∈ ds -> "/"%char ∉ d') ->
  put_blobs r (served r ds) m !! bkey r d = Some x.
Proof.
  intros Hd Hx Hs. assert (Hin : (d, x) ∈ served r ds) by (by apply served_elem).
  unfold put_blobs. apply (foldl_reach _ (fun m => m !! bkey r d = Some x) _ _ (d, x)); [done|..].
  - intros m'. apply lookup_insert_eq.
  - intros m' [d' x'] [Hd' Hx']%served_elem Hm. cbn. destruct (decide (d' = d)) as [->|Hne].
    + assert (x' = x) as -> by congruence. apply lookup_insert_eq.
    + rewrite lookup_insert_ne; [done|]. intros Heq%blob_key_inj; [naive_solver|by apply Hs..].
Qed.

Lemma manifest_origin repos w k v :
  mem_manifests (foldl repo_effect w repos).1 !! k = Some v ->
  mem_manifests w.1 !! k = Some v \/
  exists r t, offered repos r t /\ cat_manifest c r t = Ok v /\ k = mkey r t.
Proof.
  apply (run_inv (fun d => mem_manifests d !! k = Some v -> mem_manifests w.1 !! k = Some v \/
    exists r t, offered repos r t /\ cat_manifest c r t = Ok v /\ k = mkey r t)); [by left|].
  intros r t w0 Ho Hw. unfold tag_effect.
  destruct (cat_manifest c r (tag_name t)) as [[bytes mt]|] eqn:Hm; [|done]. cbn.
  intros [[<- <-]|[_ H]]%lookup_insert_Some; [|by apply Hw]. right. by exists r, (tag_name t).
Qed.

Lemma blob_origin repos w k x :
  mem_blobs (foldl repo_effect w repos).1 !! k = Some x ->
  mem_blobs w.1 !! k = Some x \/
  exists r t d, offered repos r t /\ lists_blob r t d x /\ k = bkey r d.
Proof.
  apply (run_inv (fun m => mem_blobs m !! k = Some x -> mem_blobs w.1 !! k = Some x \/
    exists r t d, offered repos r t /\ lists_blob r t d x /\ k = bkey r d)); [by left|].
  intros r t w0 Ho Hw. unfold tag_effect.
  destruct (cat_manifest c r (tag_name t)) as [[bytes mt]|] eqn:Hm; [|done]. cbn.
  intros [H|(d & [Hd Hx]%served_elem & ->)]%put_blobs_origin; [by apply Hw|].
  right. exists r, (tag_name t), d. split; [done|]. split; [|done]. by exists bytes, mt.
Qed.

(** ** What is counted *)

Definition tag_complete (r t : str) : Prop :=
  exists bytes media_type, cat_manifest c r t = Ok (bytes, media_type) /\
    forall d, d ∈ parse_descriptors parse bytes -> exists x, cat_blob c r d = Ok x.

Definition repo_complete (repo : Repository) : Prop :=
  exists tags, cat_tags c (repo_name repo) = Ok tags /\
    forall t, t ∈ tags -> tag_complete (repo_name repo) (tag_name t).

Lemma served_length r ds :
  (length (served r ds) <= length ds)%nat /\
  (length (served r ds) = length ds <-> forall d, d ∈ ds -> exists x, cat_blob c r d = Ok x).
Proof.
  induction ds as [|d ds [IH1 IH2]]; [split; [done|]; split; [set_solver|done]|].
  unfold served. cbn [omap list_omap]. fold (served r ds).
  destruct (cat_blob c r d) as [x|e] eqn:Hd; cbn; (split; [lia|]).
  - split.
    + intros H. injection H as H. pose proof (proj1 IH2 H) as H'.
      intros d' [->|Hd']%elem_of_cons; [by exists x|by apply H'].
    + intros H. f_equal. apply (proj2 IH2). intros d' Hd'. apply H. set_solver.
  - split; [lia|]. intros H. destruct (H d) as [x Hx]; [set_solver|congruence].
Qed.

(** Failures only grow, and a tag adds none exactly if it is complete. *)
Lemma tag_failures r w t :
  import_failures w.2 <= import_failures (tag_effect r w t).2 /\
  (import_failures (tag_effect r w t).2 = import_failures w.2 <-> tag_complete r (tag_name t)).
Proof.
  unfold tag_effect, tag_complete.
  destruct (cat_manifest c r (tag_name t)) as [[bytes mt]|e]; cbn [failed tag_done add_blobs import_failures snd].
  - destruct (served_length r (parse_descriptors parse bytes)) as [Hle Hiff]. split; [lia|]. split.
    + intros H. exists bytes, mt. split; [done|]. apply Hiff. lia.
    + intros (b & m & [= <- <-] & H). apply Hiff in H. lia.
  - split; [lia|]. split; [lia|]. by intros (b & m & ? & _).
Qed.

Lemma repo_failures w repo :
  import_failures w.2 <= import_failures (repo_effect w repo).2 /\
  (import_failures (repo_effect w repo).2 = import_failures w.2 <->
   (included config repo = true -> repo_complete repo)).
Proof.
  unfold repo_effect, repo_complete. destruct (included config repo); [|done].
  destruct (cat_tags c (repo_name repo)) as [tags|e]; cbn [fst snd failed repo_done repo_seen import_failures].
  - destruct (fold_failures (tag_effect (repo_name repo))
                (fun t => tag_complete (repo_name repo) (tag_name t)) tags (w.1, repo_seen w.2)) as [H1 H2];
      [intros; apply tag_failures|].
    cbn in H1, H2. split; [done|]. rewrite H2. split.
    + intros H _. by exists tags.
    + intros H. by destruct (H eq_refl) as (tags' & [= <-] & H').
  - split; [lia|]. split; [lia|]. intros H. by destruct (H eq_refl) as (tags' & ? & _).
Qed.

Lemma tag_counts r w t :
  repos_seen (tag_effect r w t).2 = repos_seen w.2 /\ repos_copied (tag_effect r w t).2 = repos_copied w.2.
Proof. unfold tag_effect. by destruct (cat_manifest c r (tag_name t)) as [[? ?]|]. Qed.

Lemma tags_counts r tags w :
  repos_seen (foldl (tag_effect r) w tags).2 = repos_seen w.2 /\
  repos_copied (foldl (tag_effect r) w tags).2 = repos_copied w.2.
Proof.
  apply (foldl_inv _ (fun v => repos_seen v.2 = repos_seen w.2 /\ repos_copied v.2 = repos_copied w.2)); [done|].
  intros w' t _ [<- <-]. apply tag_counts.
Qed.

(** The repositories of the catalog that are walked, and those that can be. *)
Definition listed_ok (repo : Repository) : bool :=
  match cat_tags c (repo_name repo) with Ok _ => true | Err _ => false end.

Lemma repos_counts repos w :
  repos_seen (foldl repo_effect w repos).2 =
    repos_seen w.2 + Z.of_nat (length (List.filter (included config) repos)) /\
  repos_copied (foldl repo_effect w repos).2 =
    repos_copied w.2 + Z.of_nat (length (List.filter listed_ok (List.filter (included config) repos))).
Proof.
  revert w. induction repos as [|r repos IH]; intros w; [cbn; lia|]. cbn [foldl List.filter].
  destruct (IH (repo_effect w r)) as [-> ->]. unfold repo_effect.
  destruct (included config r); [|done]. cbn [List.filter]. unfold listed_ok at 2.
  destruct (cat_tags c (repo_name r)) as [tags|e]; cbn [fst snd].
  - destruct (tags_counts (repo_name r) tags (w.1, repo_seen w.2)) as [H1 H2].
    cbn [repo_done repos_seen repos_copied]. rewrite H1, H2. cbn. lia.
  - cbn. lia.
Qed.

(** The names the Distribution specification allows. *)
Context (Htags : forall r tags t, cat_tags c r = Ok tags -> t ∈ tags -> ":"%char ∉ tag_name t).
Context (Hdigests : forall r t bytes media_type d,
  cat_manifest c r t = Ok (bytes, media_type) -> d ∈ parse_descriptors parse bytes -> "/"%char ∉ d).

Lemma offered_colon repos r t : offered repos r t -> ":"%char ∉ t.
Proof. intros (repo & tags & tag & _ & _ & _ & Ht & Htag & <-). by eapply Htags. Qed.

Lemma manifest_published repos w r t v :
  offered repos r t -> cat_manifest c r t = Ok v ->
  mem_manifests (foldl repo_effect w repos).1 !! mkey r t = Some v.
Proof.
  intros Ho Hm. apply (run_reach (fun d => mem_manifests d !! mkey r t = Some v) _ _ r t); [done|..].
  - intros tag w0 <-. unfold tag_effect. rewrite Hm. destruct v. apply lookup_insert_eq.
  - intros r' t' w0 Ho' Hw. unfold tag_effect.
    destruct (cat_manifest c r' (tag_name t')) as [[bytes mt]|] eqn:Hm'; [|done]. cbn.
    destruct (decide (r' = r /\ tag_name t' = t)) as [[-> Heq]|Hne].
    + rewrite Heq in *. assert (v = (bytes, mt)) as -> by congruence. apply lookup_insert_eq.
    + rewrite lookup_insert_ne; [done|].
      intros Hk%manifest_key_inj; [done|by eapply offered_colon..].
Qed.

Lemma blob_published repos w r t d x :
  offered repos r t -> lists_blob r t d x ->
  mem_blobs (foldl repo_effect w repos).1 !! bkey r d = Some x.
Proof.
  intros Ho (bytes & mt & Hm & Hd & Hx).
  apply (run_reach (fun m => mem_blobs m !! bkey r d = Some x) _ _ r t); [done|..].
  - intros tag w0 <-. unfold tag_effect. rewrite Hm. cbn. apply put_blobs_at; [done..|].
    intros d'. by eapply Hdigests.
  - intros r' t' w0 Ho' Hw. unfold tag_effect.
    destruct (cat_manifest c r' (tag_name t')) as [[bytes' mt']|] eqn:Hm'; [|done]. cbn.
    destruct (decide (r' = r /\ d ∈ parse_descriptors parse bytes')) as [[-> Hd']|Hne].
    + apply put_blobs_at; [done..|]. intros d'. by eapply Hdigests.
    + rewrite put_blobs_other; [done|]. intros d' x' [Hd' _]%served_elem Heq.
      apply blob_key_inj in Heq as [-> ->]; [naive_solver|..].
      * by eapply (Hdigests r' (tag_name t')).
      * by eapply (Hdigests r t).
Qed.
End stable.

(** C39: An import of a registry that does not change while it is read: each tag of
    the repositories the prefix selects is published exactly when its manifest
    could be fetched, whatever became of its blobs, with the bytes and type the
    source gave; its blobs are there as far as the source served them; and
    nothing else is written. *)
Theorem import_publishes {N} (n : N) (parse : str -> option json) (c : Catalog)
    (config : ImportRunnerConfig) (d : InMemoryDestination) (repos : list Repository)
    (Hrepos : cat_repos c = Ok repos)
    (Htags : forall r tags t, cat_tags c r = Ok tags -> t ∈ tags -> ":"%char ∉ tag_name t)
    (Hdigests : forall r t bytes media_type d,
       cat_manifest c r t = Ok (bytes, media_type) -> d ∈ parse_descriptors parse bytes -> "/"%char ∉ d) :
  let w := exec (import_run parse (stable c) in_memory config) (mkImportWorld n d report_zero) in
  let reached := offered c config repos in
  (forall r t v, reached r t -> cat_manifest c r t = Ok v ->
     mem_manifests (iw_dest w) !! mkey config r t = Some v) /\
  (forall r t b x, reached r t -> lists_blob parse c r t b x ->
     mem_blobs (iw_dest w) !! bkey config r b = Some x) /\
  (forall k v, mem_manifests (iw_dest w) !! k = Some v -> mem_manifests d !! k = Some v \/
     exists r t, reached r t /\ cat_manifest c r t = Ok v /\ k = mkey config r t) /\
  (forall k x, mem_blobs (iw_dest w) !! k = Some x -> mem_blobs d !! k = Some x \/
     exists r t b, reached r t /\ lists_blob parse c r t b x /\ k = bkey config r b).
Proof.
  cbv zeta. unfold exec. rewrite (import_run_eq parse c config n repos d Hrepos). cbn [fst iw_dest of_state].
  split; [|split; [|split]].
  - intros r t v Ho Hv. by apply manifest_published.
  - intros r t b x Ho Hb. by eapply blob_published.
  - intros k v H. by apply manifest_origin in H.
  - intros k x H. by apply blob_origin in H.
Qed.

(** The report of such an import counts the selected repositories and those
    whose tags could be listed, and shows no failure exactly when every tag and
    every blob it lists was copied. *)
Theorem import_accounting {N} (n : N) (parse : str -> option json) (c : Catalog)
    (config : ImportRunnerConfig) (d : InMemoryDestination) (repos : list Repository)
    (Hrepos : cat_repos c = Ok repos) :
  exists report,
    eval (import_run parse (stable c) in_memory config) (mkImportWorld n d report_zero) = Ok report /\
    repos_seen report = Z.of_nat (length (List.filter (included config) repos)) /\
    repos_copied report =
      Z.of_nat (length (List.filter (listed_ok c) (List.filter (included config) repos))) /\
    (import_failures report = 0 <->
     forall repo, repo ∈ repos -> included config repo = true -> repo_complete parse c repo).
Proof.
  unfold eval. rewrite (import_run_eq parse c config n repos d Hrepos). cbn [snd]. eexists. split; [done|].
  destruct (repos_counts parse c config repos (d, report_zero)) as [-> ->]. split; [done|]. split; [done|].
  apply (fold_failures (repo_effect parse c config)
           (fun repo => included config repo = true -> repo_complete parse c repo) repos (d, report_zero)).
  intros. apply repo_failures.
Qed.

(** ** Any source, any destination *)

Section contained.
Context {N D : Type} (parse : str -> option json) (source : RegistrySource N).
Context (destination : RegistryDestination D) (config : ImportRunnerConfig) (P : D -> Prop).
Context (Hblob : forall repo digest bytes, included config repo = true ->
  preserves P (dest_blob destination (ic_tenant config) (ic_project config) (repo_name repo) digest bytes)).
Context (Hmanifest : forall repo tag bytes media_type, included config repo = true ->
  preserves P (dest_manifest destination (ic_tenant config) (ic_project config) (repo_name repo) tag bytes media_type)).

Abbreviation Q := (fun w : ImportWorld N D => P (iw_dest w)).

Lemma from_source_keeps {A} (m : M N ImportError A) : preserves (E := ImportError) Q (from_source m).
Proof. intros w Hw. unfold exec, from_source. by destruct (m (iw_source w)). Qed.

Lemma to_dest_keeps {A} (m : M D ImportError A) : preserves P m -> preserves Q (to_dest (N := N) m).
Proof.
  intros Hm w Hw. specialize (Hm _ Hw). unfold exec, to_dest in *. by destruct (m (iw_dest w)).
Qed.

Lemma count_keeps f : preserves (E := ImportError) Q (count f).
Proof. by apply preserves_modify. Qed.

Lemma copy_tag_keeps repo tag :
  included config repo = true -> preserves Q (copy_tag parse source destination config repo tag).
Proof.
  intros Hi. apply preserves_bind; [apply from_source_keeps|]. intros [bytes mt].
  apply preserves_bind.
  { apply preserves_for_each. intros d _.
    apply preserves_bind; [apply preserves_attempt, from_source_keeps|].
    intros [x|e]; [|apply count_keeps].
    apply preserves_bind; [by apply to_dest_keeps, Hblob|]. intros _. apply count_keeps. }
  intros _. apply preserves_bind; [by apply to_dest_keeps, Hmanifest|]. intros _. apply count_keeps.
Qed.

Lemma run_repo_keeps repo : preserves Q (run_repo parse source destination config repo).
Proof.
  unfold run_repo. destruct (included config repo) eqn:Hi; [|apply preserves_ret].
  apply preserves_bind; [apply count_keeps|]. intros _. apply preserves_bind.
  - apply preserves_attempt, preserves_bind; [apply from_source_keeps|]. intros tags.
    apply preserves_for_each. intros t _.
    apply preserves_bind; [by apply preserves_attempt, copy_tag_keeps|].
    intros [u|e]; [apply preserves_ret|apply count_keeps].
  - intros [u|e]; apply count_keeps.
Qed.
End contained.

(** Whatever a source answers, a run calls the destination only for the tenant
    and project of its configuration and for repositories with the prefix: a
    property that such calls keep is kept by the run. *)
Theorem import_contained {N D} (parse : str -> option json) (source : RegistrySource N)
    (destination : RegistryDestination D) (config : ImportRunnerConfig) (P : D -> Prop)
    (w : ImportWorld N D)
    (Hblob : forall repo digest bytes, included config repo = true ->
       preserves P (dest_blob destination (ic_tenant config) (ic_project config) (repo_name repo) digest bytes))
    (Hmanifest : forall repo tag bytes media_type, included config repo = true ->
       preserves P (dest_manifest destination (ic_tenant config) (ic_project config) (repo_name repo) tag
                      bytes media_type))
    (Hw : P (iw_dest w)) :
  P (iw_dest (exec (import_run parse source destination config) w)).
Proof.
  revert w Hw. change (preserves (fun w : ImportWorld N D => P (iw_dest w))
                         (import_run parse source destination config)).
  apply preserves_bind; [apply from_source_keeps|]. intros repos. apply preserves_bind.
  - apply preserves_for_each. intros repo _. by apply run_repo_keeps.
  - intros _. apply preserves_gets.
Qed.

(** ** Requests *)

Lemma span_nil_id p (s : str) : (span p (snd (span p s))).2 = (span p s).2.
Proof.
  destruct (span p s) as [h [|c t]] eqn:Hs; [done|]. apply span_stop in Hs. cbn. by rewrite Hs.
Qed.

Lemma trim_base_idem base : trim_base (trim_base base) = trim_base base.
Proof. unfold trim_base, trim_end_byte. by rewrite rev_involutive, span_nil_id. Qed.

Section requests.
Context {N : Type} `{Http N} (lib : ImportLib) (P : N -> Prop).

(** [m] sends only requests below [base] with the credentials [auth]. *)
Definition asks (base : str) (auth : option HttpAuth) {A} (m : M N ImportError A) : Prop :=
  (forall rq, rq_auth rq = auth -> starts_with (base ++ "/") (rq_url rq) = true -> preserves P (http_send rq)) ->
  preserves P m.

Definition asks_all (base : str) (auth : option HttpAuth) (s : RegistrySource N) : Prop :=
  asks base auth (list_repositories s) /\ (forall r, asks base auth (source_tags s r)) /\
  (forall r t, asks base auth (source_manifest s r t)) /\ (forall r d, asks base auth (source_blob s r d)).

Lemma below base rest : starts_with (base ++ "/") (base ++ "/" ++ rest) = true.
Proof. apply starts_with_iff. exists rest. by rewrite <- app_assoc. Qed.

Lemma http_get_asks base auth accept rest : asks base auth (http_get (base ++ "/" ++ rest) accept auth).
Proof. intros Hs. apply preserves_rethrow, Hs; [done|apply below]. Qed.

Lemma status_keeps url resp : preserves P (error_for_status lib url resp).
Proof. unfold error_for_status. destruct (_ && _); [apply preserves_throw|apply preserves_ret]. Qed.

Lemma json_of_keeps {A} (de : json -> option A) resp : preserves P (json_of lib de resp).
Proof.
  apply preserves_bind; [apply preserves_lift|]. intros bytes.
  destruct (il_parse lib bytes ≫= de); [apply preserves_ret|apply preserves_throw].
Qed.

Lemma get_json_asks {A} (de : json -> option A) base auth rest :
  asks base auth (get_json lib de (base ++ "/" ++ rest) auth).
Proof.
  intros Hs. apply preserves_bind; [by apply http_get_asks|]. intros resp.
  apply preserves_bind; [apply status_keeps|]. intros resp'. apply json_of_keeps.
Qed.

Lemma distribution_asks base bearer : asks_all (trim_base base) (bearer_auth bearer) (DistributionSource lib base bearer).
Proof.
  unfold asks_all, DistributionSource. cbn [list_repositories source_tags source_manifest source_blob].
  split; [|split; [|split]]; intros;
    unfold asks, distribution_repositories, distribution_tags, distribution_manifest, distribution_blob; intros Hs.
  - apply preserves_bind; [by apply (get_json_asks _ _ _ "v2/_catalog?n=1000")|]. intros. apply preserves_ret.
  - apply preserves_bind; [|intros; apply preserves_ret].
    by apply (get_json_asks _ _ _ ("v2/" ++ repo_name r ++ "/tags/list")).
  - apply preserves_bind; [by apply (http_get_asks _ _ _ ("v2/" ++ repo_name r ++ "/manifests/" ++ t))|].
    intros. apply preserves_bind; [apply status_keeps|]. intros.
    apply preserves_bind; [apply preserves_lift|]. intros. apply preserves_ret.
  - apply preserves_bind; [by apply (http_get_asks _ _ _ ("v2/" ++ repo_name r ++ "/blobs/" ++ d))|].
    intros. apply preserves_bind; [apply status_keeps|]. intros. apply preserves_lift.
Qed.

Lemma harbor_walk_asks base auth projects out : asks base auth (harbor_walk lib base auth projects out).
Proof.
  intros Hs. revert out. induction projects as [|p projects IH]; intros out; [apply preserves_ret|].
  cbn [harbor_walk]. apply preserves_bind; [|intros; apply IH].
  by apply (get_json_asks _ _ _ ("api/v2.0/projects/" ++ p ++ "/repositories?page_size=200")).
Qed.

Lemma acr_asks base bearer : asks_all (trim_base base) (bearer_auth bearer) (AcrSource lib base bearer).
Proof.
  destruct (distribution_asks (trim_base base) bearer) as [Hl Hrest]. rewrite trim_base_idem in Hl, Hrest.
  split; [|done]. intros Hs. apply preserves_bind; [by apply (http_get_asks _ _ _ "acr/v1/_catalog?n=2000")|].
  intros resp. destruct (rs_status resp =? 404); [by apply Hl|].
  apply preserves_bind; [apply status_keeps|]. intros. apply preserves_bind; [apply json_of_keeps|].
  intros. apply preserves_ret.
Qed.

Lemma nexus_asks base bearer docker_repo :
  asks_all (trim_base base) (bearer_auth bearer) (NexusSource lib base bearer docker_repo).
Proof.
  destruct (distribution_asks (trim_base base) bearer) as [Hl Hrest]. rewrite trim_base_idem in Hl, Hrest.
  split; [|done]. intros Hs. apply preserves_bind; [by apply (get_json_asks _ _ _ "v2/_catalog?n=2000")|].
  intros. apply preserves_ret.
Qed.

Lemma harbor_list_asks base username password project :
  asks (trim_base base) (harbor_auth username password)
    (list_repositories (HarborSource lib base username password project)).
Proof.
  intros Hs. apply preserves_bind.
  - destruct project; [apply preserves_ret|]. by apply (get_json_asks _ _ _ "api/v2.0/projects?page_size=200").
  - intros projects. by apply harbor_walk_asks.
Qed.
End requests.

(** The adapters send requests only below the address they are given, with the
    configured token; Harbor's credentials go with the listing of repositories
    only, and its tags, manifests and blobs are asked for anonymously.  Said of
    any property of the network that such requests keep. *)
Theorem import_requests {N} `{Http N} (lib : ImportLib) (P : N -> Prop) (base : str)
    (bearer docker_repo username password project : option str) :
  asks_all P (trim_base base) (bearer_auth bearer) (DistributionSource lib base bearer) /\
  asks_all P (trim_base base) (bearer_auth bearer) (AcrSource lib base bearer) /\
  asks_all P (trim_base base) (bearer_auth bearer) (NexusSource lib base bearer docker_repo) /\
  let harbor := HarborSource lib base username password project in
  asks P (trim_base base) (harbor_auth username password) (list_repositories harbor) /\
  (forall r, asks P (trim_base base) None (source_tags harbor r)) /\
  (forall r t, asks P (trim_base base) None (source_manifest harbor r t)) /\
  (forall r d, asks P (trim_base base) None (source_blob harbor r d)).
Proof.
  split; [apply distribution_asks|]. split; [apply acr_asks|]. split; [apply nexus_asks|]. cbv zeta.
  split; [apply harbor_list_asks|].
  destruct (distribution_asks lib P (trim_base base) None) as [_ Hrest]. by rewrite trim_base_idem in Hrest.
Qed.

(** ** Jobs *)

Lemma phase_round_trip p : phase_parse (phase_str p) = p.
Proof. by destruct p. Qed.

Lemma last_cons {A} (x d : A) l : List.last (x :: l) d = List.last l x.
Proof.
  revert x d. induction l as [|y l IH]; intros x d; [done|].
  change (List.last (y :: l) d = List.last (y :: l) x). by rewrite !IH.
Qed.

(** A job that was created reads back as it was returned, and after a change of
    phase with that phase and nothing else changed: the times and counters of
    the row are never written. *)
Theorem import_jobs_read_back (id tenant : str) (spec : json) (phases : list ImportPhase)
    (t : gmap str ImportJobCols) (Hnew : t !! id = None) :
  let t' := fold_left (fun t p => exec (set_phase None id p) t) phases
              (exec (create_job None id tenant spec) t) in
  eval (get_job None id) t' =
  Ok (Some (mkImportJobRow id tenant spec (List.last phases ImpQueued) 0 0 0 0 0 None None)).
Proof.
  assert (Hgen : forall ph t' c0, t' !! id = Some (mkImportJobCols tenant spec (phase_str c0) 0 0 0 0 0 None None) ->
    fold_left (fun t p => exec (set_phase None id p) t) ph t' !! id =
    Some (mkImportJobCols tenant spec (phase_str (List.last ph c0)) 0 0 0 0 0 None None)).
  { induction ph as [|p ph IH]; intros t' c0 H; [done|]. cbn [fold_left].
    rewrite (IH _ p), last_cons; [done|]. cbn. by rewrite lookup_alter_eq, H. }
  cbn. rewrite (Hgen _ _ ImpQueued).
  - cbn. unfold job_of. cbn. by rewrite phase_round_trip.
  - unfold create_job, exec, job_statement, bind, gets. rewrite Hnew. cbn. by rewrite lookup_insert_eq.
Qed.

(** ** Witness: an image one of whose layers cannot be fetched *)

Definition sample_parse (s : str) : option json :=
  Some (JObject [("config" : str, JObject [("digest" : str, JString "sha256:c")]);
                 ("layers" : str, JArray [JObject [("digest" : str, JString "sha256:l")]])]).

Definition sample_catalog : Catalog :=
  mkCatalog (Ok [mkRepository "api"; mkRepository "web"]) (fun _ => Ok [no_digest "v1"])
    (fun _ _ => Ok ("{}" : str, "application/json" : str))
    (fun _ d => if str_eqb d "sha256:c" then Ok ("config" : str) else Err (ImpNotFound d)).

Definition sample_config : ImportRunnerConfig := mkImportRunnerConfig "acme" "prod" 1 (Some ("a" : str)).

Definition sample_run : ImportWorld unit InMemoryDestination :=
  exec (import_run sample_parse (stable sample_catalog) in_memory sample_config)
    (mkImportWorld tt (mkInMemoryDestination ∅ ∅) report_zero).

Lemma import_publishes_witness :
  mem_manifests (iw_dest sample_run) !! ("acme/prod/api:v1" : str) =
    Some ("{}" : str, "application/json" : str) /\
  mem_blobs (iw_dest sample_run) !! ("acme/prod/api/sha256:l" : str) = None /\
  mem_manifests (iw_dest sample_run) !! ("acme/prod/web:v1" : str) = None /\
  import_failures (iw_report sample_run) = 1.
Proof.
  destruct (import_publishes tt sample_parse sample_catalog sample_config (mkInMemoryDestination ∅ ∅)
              [mkRepository "api"; mkRepository "web"]) as (Hm & _).
  - done.
  - intros r tags t [= <-] ->%list_elem_of_singleton. intros H. by apply (bool_decide_pack _) in H.
  - intros r t bytes mt d _ Hd H. cbn in Hd.
    apply elem_of_cons in Hd as [->|Hd%list_elem_of_singleton]; [|subst d]; by apply (bool_decide_pack _) in H.
  - split; [|by vm_compute]. apply (Hm "api" "v1"); [|done].
    exists (mkRepository "api"), [no_digest "v1"], (no_digest "v1"). split; [set_solver|].
    repeat split. set_solver.
Defined.
