(* ===== verification/Cvss.v ===== *)
(** * Severity scores ([crates/specton-scanner/src/vulndb/severity.rs])

    The CVSS v3 base score is computed in [f64]: [spec_float] of the Standard
    Library at the precision of binary64, so that every operation rounds as the
    machine's does.  The reference is the formula of the CVSS 3.1 specification
    in exact rational arithmetic; the two agree on every vector. *)

From Stdlib Require Import SpecFloat QArith Qround.
From S2P Require Import Prelude Json Text Orders Deb Rpm Apk Pep440 Matcher.

Local Open Scope Z_scope.

(** ** [f64] *)

Abbreviation f64 := spec_float.

Definition f64_add : f64 -> f64 -> f64 := SFadd 53 1024.
Definition f64_sub : f64 -> f64 -> f64 := SFsub 53 1024.
Definition f64_mul : f64 -> f64 -> f64 := SFmul 53 1024.
Definition f64_div : f64 -> f64 -> f64 := SFdiv 53 1024.

(** [z as f64] *)
Definition f64_of_Z (z : Z) : f64 := binary_normalize 53 1024 z 0 false.

(** The double nearest to [m * 10 ^ e]. *)
Definition f64_of_decimal (negative : bool) (m e : Z) : f64 :=
  if m <=? 0 then S754_zero negative
  else
    let '(mz, ez, lz) := SFdiv_core_binary 53 1024 (m * 10 ^ Z.max 0 e) 0 (10 ^ Z.max 0 (- e)) 0 in
    binary_round_aux 53 1024 negative mz ez lz.

(** A literal with [d] digits after the point. *)
Definition lit (m d : Z) : f64 := f64_of_decimal false m (- d).

(** [x.min(y)] where neither is a NaN. *)
Definition f64_min (x y : f64) : f64 := if SFltb y x then y else x.

(** [x.powi(n)] as it is compiled: repeated squaring from the low bit.  Rust
    leaves the rounding of [powi] open; this is what LLVM's [__powidf2] does. *)
Fixpoint powi_acc (r x : f64) (n : positive) : f64 :=
  match n with
  | xH => f64_mul r x
  | xO n' => powi_acc r (f64_mul x x) n'
  | xI n' => powi_acc (f64_mul r x) (f64_mul x x) n'
  end.

Fixpoint powi (x : f64) (n : positive) : f64 :=
  match n with
  | xH => x
  | xO n' => powi (f64_mul x x) n'
  | xI n' => powi_acc x (f64_mul x x) n'
  end.

(** [x.round() as i64]: half away from zero, saturating. *)
Definition round_i64 (x : f64) : Z :=
  let clamp z := Z.max (- 2 ^ 63) (Z.min (2 ^ 63 - 1) z) in
  match x with
  | S754_zero _ | S754_nan => 0
  | S754_infinity s => clamp (if s then - 2 ^ 63 else 2 ^ 63)
  | S754_finite s m e =>
      let a := if 0 <=? e then Zpos m * 2 ^ e else (Zpos m + 2 ^ (- e - 1)) / 2 ^ (- e) in
      clamp (if s then - a else a)
  end.

(** ** [s.parse::<f64>()] *)

Definition digits_value (s : str) : Z := fold_left (fun n c => 10 * n + (byte_val c - 48)) s 0.

Definition parse_exponent (s : str) : option Z :=
  match s with
  | [] => Some 0
  | c :: s' =>
      if byte_is 101 c || byte_is 69 c then
        let '(negative, ds) := match s' with
                               | d :: s'' => if byte_is 45 d then (true, s'')
                                             else if byte_is 43 d then (false, s'') else (false, s')
                               | [] => (false, s')
                               end in
        if non_empty ds && forallb is_ascii_digit ds
        then Some (if negative then - digits_value ds else digits_value ds)
        else None
      else None
  end.

Definition parse_number (negative : bool) (s : str) : option f64 :=
  let '(whole, rest) := span is_ascii_digit s in
  let '(frac, rest) := match rest with
                       | c :: rest' => if byte_is 46 c then span is_ascii_digit rest' else ([], rest)
                       | [] => ([], [])
                       end in
  if non_empty whole || non_empty frac then
    (fun e => f64_of_decimal negative (digits_value (whole ++ frac)) (e - Z.of_nat (length frac)))
      <$> parse_exponent rest
  else None.

Definition parse_f64 (s : str) : option f64 :=
  let '(negative, t) := match s with
                        | c :: s' => if byte_is 45 c then (true, s')
                                     else if byte_is 43 c then (false, s') else (false, s)
                        | [] => (false, s)
                        end in
  let word := to_ascii_lowercase t in
  if str_eqb word "inf" || str_eqb word "infinity" then Some (S754_infinity negative)
  else if str_eqb word "nan" then Some S754_nan
  else parse_number negative t.

(** ** The base score *)

Definition impact_metric (v : str) : option f64 :=
  if str_eqb v "N" then Some (lit 0 0)
  else if str_eqb v "L" then Some (lit 22 2)
  else if str_eqb v "H" then Some (lit 56 2)
  else None.

(** The variables of the loop over the tokens. *)
Record Metrics : Type := mkMetrics {
  m_av : option f64;
  m_ac : option f64;
  m_pr : option str;
  m_ui : option f64;
  m_scope : option str;
  m_c : option f64;
  m_i : option f64;
  m_a : option f64
}.

Definition attack_vector (v : str) : option f64 :=
  if str_eqb v "N" then Some (lit 85 2)
  else if str_eqb v "A" then Some (lit 62 2)
  else if str_eqb v "L" then Some (lit 55 2)
  else if str_eqb v "P" then Some (lit 20 2)
  else None.

Definition attack_complexity (v : str) : option f64 :=
  if str_eqb v "L" then Some (lit 77 2)
  else if str_eqb v "H" then Some (lit 44 2)
  else None.

Definition user_interaction (v : str) : option f64 :=
  if str_eqb v "N" then Some (lit 85 2)
  else if str_eqb v "R" then Some (lit 62 2)
  else None.

Definition set_metric (m : Metrics) (k v : str) : Metrics :=
  let '(mkMetrics av ac pr ui s c i a) := m in
  if str_eqb k "AV" then mkMetrics (attack_vector v) ac pr ui s c i a
  else if str_eqb k "AC" then mkMetrics av (attack_complexity v) pr ui s c i a
  else if str_eqb k "PR" then mkMetrics av ac (Some v) ui s c i a
  else if str_eqb k "UI" then mkMetrics av ac pr (user_interaction v) s c i a
  else if str_eqb k "S" then mkMetrics av ac pr ui (Some v) c i a
  else if str_eqb k "C" then mkMetrics av ac pr ui s (impact_metric v) i a
  else if str_eqb k "I" then mkMetrics av ac pr ui s c (impact_metric v) a
  else if str_eqb k "A" then mkMetrics av ac pr ui s c i (impact_metric v)
  else m.

Fixpoint read_metrics (m : Metrics) (tokens : list str) : option Metrics :=
  match tokens with
  | [] => Some m
  | tok :: tokens' =>
      match split_once_byte ":"%char tok with
      | None => None
      | Some (k, v) => read_metrics (set_metric m k v) tokens'
      end
  end.

Definition privileges (scope_changed : bool) (v : str) : option f64 :=
  if str_eqb v "N" then Some (lit 85 2)
  else if str_eqb v "L" then Some (if scope_changed then lit 68 2 else lit 62 2)
  else if str_eqb v "H" then Some (if scope_changed then lit 50 2 else lit 27 2)
  else None.

(** Division and remainder of [i64] round towards zero. *)
Definition roundup_cvss (x : f64) : f64 :=
  let scaled := round_i64 (f64_mul x (f64_of_Z 100000)) in
  if Z.rem scaled 10000 =? 0 then f64_div (f64_of_Z (Z.quot scaled 10000)) (f64_of_Z 10)
  else f64_div (f64_of_Z (Z.quot scaled 10000 + 1)) (f64_of_Z 10).

Definition impact_score (c i a : f64) (scope_changed : bool) : f64 :=
  let one := f64_of_Z 1 in
  let iss := f64_sub one (f64_mul (f64_mul (f64_sub one c) (f64_sub one i)) (f64_sub one a)) in
  if scope_changed then
    f64_sub (f64_mul (lit 752 2) (f64_sub iss (lit 29 3)))
      (f64_mul (lit 325 2) (powi (f64_sub iss (lit 2 2)) 15))
  else f64_mul (lit 642 2) iss.

Definition exploitability_score (av ac pr ui : f64) : f64 :=
  f64_mul (f64_mul (f64_mul (f64_mul (lit 822 2) av) ac) pr) ui.

Definition base_of (impact exploitability : f64) (scope_changed : bool) : f64 :=
  if scope_changed then f64_min (f64_mul (f64_add impact exploitability) (lit 108 2)) (f64_of_Z 10)
  else f64_min (f64_add impact exploitability) (f64_of_Z 10).

Definition base_score (av ac pr ui c i a : f64) (scope_changed : bool) : f64 :=
  let impact := impact_score c i a scope_changed in
  if SFleb impact (f64_of_Z 0) then f64_of_Z 0
  else roundup_cvss (base_of impact (exploitability_score av ac pr ui) scope_changed).

Definition cvss3_base (vector : str) : option f64 :=
  match read_metrics (mkMetrics None None None None None None None None) (tail (split_on "/"%char vector)) with
  | Some (mkMetrics (Some av) (Some ac) (Some pr_raw) (Some ui) (Some scope) (Some c) (Some i) (Some a)) =>
      let scope_changed := str_eqb scope "C" in
      match privileges scope_changed pr_raw with
      | Some pr => Some (base_score av ac pr ui c i a scope_changed)
      | None => None
      end
  | _ => None
  end.

Definition parse_cvss_base (s : str) : option f64 :=
  match parse_f64 s with
  | Some v => Some v
  | None => if starts_with "CVSS:3" s then cvss3_base s else None
  end.

Definition classify (score : option f64) : Severity :=
  match score with
  | Some s =>
      if SFleb (f64_of_Z 9) s then Critical
      else if SFleb (f64_of_Z 7) s then High
      else if SFleb (f64_of_Z 4) s then Medium
      else if SFltb (f64_of_Z 0) s then Low
      else Unknown
  | None => Unknown
  end.

(** ** The reference

    The metrics of a vector, their weights and the base score equations of
    section 7.1 of the CVSS 3.1 specification, over the rationals, with the
    integer rounding of its appendix A. *)

Inductive AttackVector : Type := AvNetwork | AvAdjacent | AvLocal | AvPhysical.
Inductive AttackComplexity : Type := AcLow | AcHigh.
Inductive Privileges : Type := PrNone | PrLow | PrHigh.
Inductive Interaction : Type := UiNone | UiRequired.
Inductive Scope : Type := Unchanged | Changed.
Inductive Impact : Type := ImpactNone | ImpactLow | ImpactHigh.

Record Vector : Type := mkVector {
  vec_av : AttackVector;
  vec_ac : AttackComplexity;
  vec_pr : Privileges;
  vec_ui : Interaction;
  vec_s : Scope;
  vec_c : Impact;
  vec_i : Impact;
  vec_a : Impact
}.

Definition av_str (x : AttackVector) : str :=
  match x with AvNetwork => "N" | AvAdjacent => "A" | AvLocal => "L" | AvPhysical => "P" end.
Definition ac_str (x : AttackComplexity) : str := match x with AcLow => "L" | AcHigh => "H" end.
Definition pr_str (x : Privileges) : str := match x with PrNone => "N" | PrLow => "L" | PrHigh => "H" end.
Definition ui_str (x : Interaction) : str := match x with UiNone => "N" | UiRequired => "R" end.
Definition s_str (x : Scope) : str := match x with Unchanged => "U" | Changed => "C" end.
Definition impact_str (x : Impact) : str :=
  match x with ImpactNone => "N" | ImpactLow => "L" | ImpactHigh => "H" end.

Definition metric_tokens (v : Vector) : list (str * str) :=
  [("AV" : str, av_str (vec_av v)); ("AC" : str, ac_str (vec_ac v)); ("PR" : str, pr_str (vec_pr v));
   ("UI" : str, ui_str (vec_ui v)); ("S" : str, s_str (vec_s v)); ("C" : str, impact_str (vec_c v));
   ("I" : str, impact_str (vec_i v)); ("A" : str, impact_str (vec_a v))].

Local Open Scope Q_scope.

Definition av_weight (x : AttackVector) : Q :=
  match x with AvNetwork => 85 # 100 | AvAdjacent => 62 # 100 | AvLocal => 55 # 100 | AvPhysical => 20 # 100 end.
Definition ac_weight (x : AttackComplexity) : Q := match x with AcLow => 77 # 100 | AcHigh => 44 # 100 end.
Definition pr_weight (s : Scope) (x : Privileges) : Q :=
  match x, s with
  | PrNone, _ => 85 # 100
  | PrLow, Unchanged => 62 # 100
  | PrLow, Changed => 68 # 100
  | PrHigh, Unchanged => 27 # 100
  | PrHigh, Changed => 50 # 100
  end.
Definition ui_weight (x : Interaction) : Q := match x with UiNone => 85 # 100 | UiRequired => 62 # 100 end.
Definition impact_weight (x : Impact) : Q :=
  match x with ImpactNone => 0 | ImpactLow => 22 # 100 | ImpactHigh => 56 # 100 end.

Definition spec_impact (s : Scope) (c i a : Impact) : Q :=
  let iss := 1 - (1 - impact_weight c) * (1 - impact_weight i) * (1 - impact_weight a) in
  match s with
  | Unchanged => (642 # 100) * iss
  | Changed => (752 # 100) * (iss - (29 # 1000)) - (325 # 100) * (iss - (2 # 100)) ^ 15
  end.

Definition spec_exploitability (s : Scope) (av : AttackVector) (ac : AttackComplexity) (pr : Privileges)
    (ui : Interaction) : Q :=
  (822 # 100) * av_weight av * ac_weight ac * pr_weight s pr * ui_weight ui.

(** The score in tenths. *)
Definition spec_roundup (x : Q) : Z :=
  let int_input := Qfloor (x * 100000 + (1 # 2)) in
  if (int_input mod 10000 =? 0)%Z then (int_input / 10000)%Z else (int_input / 10000 + 1)%Z.

Definition qmin (x y : Q) : Q := if Qle_bool x y then x else y.

Definition spec_base (s : Scope) (impact exploitability : Q) : Z :=
  let sum := impact + exploitability in
  spec_roundup (qmin (match s with Unchanged => sum | Changed => (108 # 100) * sum end) 10).

Definition spec_tenths (v : Vector) : Z :=
  let impact := spec_impact (vec_s v) (vec_c v) (vec_i v) (vec_a v) in
  if Qle_bool impact 0 then 0%Z
  else spec_base (vec_s v) impact
         (spec_exploitability (vec_s v) (vec_av v) (vec_ac v) (vec_pr v) (vec_ui v)).

Local Close Scope Q_scope.

(** The qualitative rating scale of section 5, on tenths; its rating None, of the
    score zero, is the scanner's [Unknown]. *)
Definition spec_rating (t : Z) : Severity :=
  if t =? 0 then Unknown
  else if t <=? 39 then Low
  else if t <=? 69 then Medium
  else if t <=? 89 then High
  else Critical.

(** ** Agreement *)

Definition tenths (t : Z) : f64 := f64_div (f64_of_Z t) (f64_of_Z 10).

(** The integer [roundup_cvss] divides by ten. *)
Definition roundup_tenths (x : f64) : Z :=
  let scaled := round_i64 (f64_mul x (f64_of_Z 100000)) in
  if Z.rem scaled 10000 =? 0 then Z.quot scaled 10000 else Z.quot scaled 10000 + 1.

Lemma roundup_tenths_eq x : roundup_cvss x = tenths (roundup_tenths x).
Proof. unfold roundup_cvss, roundup_tenths. by destruct (_ =? 0). Qed.

Definition changed (s : Scope) : bool := match s with Changed => true | Unchanged => false end.

(** A score of the code beside that of the specification. *)
Definition Pair : Type := f64 * Q.

Definition pair_eqb (x y : Pair) : bool :=
  match x.1, y.1 with
  | S754_zero s, S754_zero s' => Bool.eqb s s'
  | S754_finite s m e, S754_finite s' m' e' => Bool.eqb s s' && (m =? m')%positive && (e =? e')
  | _, _ => false
  end && (Qnum x.2 =? Qnum y.2) && (Qden x.2 =? Qden y.2)%positive.

Lemma pair_eqb_eq x y : pair_eqb x y = true -> x = y.
Proof.
  destruct x as [x [n d]], y as [y [n' d']]. unfold pair_eqb. cbn [fst snd Qnum Qden].
  rewrite !andb_true_iff, Z.eqb_eq, Pos.eqb_eq. intros [[H ->] ->]. f_equal.
  destruct x, y; try done.
  - by apply Bool.eqb_prop in H as ->.
  - rewrite !andb_true_iff, Pos.eqb_eq, Z.eqb_eq in H. destruct H as [[Hs%Bool.eqb_prop ->] ->]. by subst.
Qed.

(** Each value once. *)
Fixpoint distinct (l : list Pair) : list Pair :=
  match l with
  | [] => []
  | x :: l' => let r := distinct l' in if existsb (pair_eqb x) r then r else x :: r
  end.

Lemma distinct_in x l : In x l -> In x (distinct l).
Proof.
  induction l as [|y l IH]; [done|]. cbn. intros [->|H].
  - destruct (existsb (pair_eqb x) (distinct l)) eqn:He; [|by left].
    apply existsb_exists in He as (z & Hz & ->%pair_eqb_eq). done.
  - destruct (existsb (pair_eqb y) (distinct l)); [|right]; by apply IH.
Qed.

Definition impact_f64 (s : Scope) (c i a : Impact) : f64 :=
  let w x := default (lit 0 0) (impact_metric (impact_str x)) in
  impact_score (w c) (w i) (w a) (changed s).

Definition exploitability_f64 (s : Scope) (av : AttackVector) (ac : AttackComplexity) (pr : Privileges)
    (ui : Interaction) : f64 :=
  exploitability_score (default (lit 0 0) (attack_vector (av_str av)))
    (default (lit 0 0) (attack_complexity (ac_str ac)))
    (default (lit 0 0) (privileges (changed s) (pr_str pr)))
    (default (lit 0 0) (user_interaction (ui_str ui))).

Definition impact_pair (s : Scope) (c i a : Impact) : Pair :=
  (impact_f64 s c i a, Qred (spec_impact s c i a)).

Definition exploitability_pair (s : Scope) (av : AttackVector) (ac : AttackComplexity) (pr : Privileges)
    (ui : Interaction) : Pair :=
  (exploitability_f64 s av ac pr ui, Qred (spec_exploitability s av ac pr ui)).

Definition all_impacts : list Impact := [ImpactNone; ImpactLow; ImpactHigh].

Definition impacts (s : Scope) : list Pair :=
  distinct (flat_map (fun c => flat_map (fun i => map (impact_pair s c i) all_impacts) all_impacts) all_impacts).

Definition exploitabilities (s : Scope) : list Pair :=
  distinct (flat_map (fun av => flat_map (fun ac => flat_map (fun pr =>
    map (exploitability_pair s av ac pr) [UiNone; UiRequired])
      [PrNone; PrLow; PrHigh]) [AcLow; AcHigh]) [AvNetwork; AvAdjacent; AvLocal; AvPhysical]).

Definition agree (s : Scope) (i e : Pair) : bool :=
  if Qle_bool i.2 0 then SFleb i.1 (f64_of_Z 0)
  else negb (SFleb i.1 (f64_of_Z 0)) &&
       (let t := spec_base s i.2 e.2 in
        (roundup_tenths (base_of i.1 e.1 (changed s)) =? t) && (0 <? t) && (t <=? 100)).

(** Every pair of two lists. *)
Definition check_pairs {A B} (f : A -> B -> bool) (xs : list A) (ys : list B) : bool :=
  forallb (fun x => forallb (f x) ys) xs.

Lemma check_pairs_spec {A B} (f : A -> B -> bool) xs ys i e :
  check_pairs f xs ys = true -> In i xs -> In e ys -> f i e = true.
Proof.
  unfold check_pairs. rewrite forallb_forall. intros H Hi He. specialize (H i Hi).
  rewrite forallb_forall in H. by apply H.
Qed.

Lemma all_agree s : check_pairs (agree s) (impacts s) (exploitabilities s) = true.
Proof. destruct s; vm_compute; reflexivity. Qed.

Lemma impacts_in s c i a : In (impact_pair s c i a) (impacts s).
Proof.
  assert (H : forall x : Impact, In x all_impacts) by (intros []; cbn; tauto).
  apply distinct_in. apply in_flat_map. exists c. split; [done|]. apply in_flat_map. exists i. split; [done|].
  by apply in_map.
Qed.

Lemma exploitabilities_in s av ac pr ui : In (exploitability_pair s av ac pr ui) (exploitabilities s).
Proof.
  apply distinct_in. apply in_flat_map. exists av. split; [destruct av; cbn; tauto|].
  apply in_flat_map. exists ac. split; [destruct ac; cbn; tauto|].
  apply in_flat_map. exists pr. split; [destruct pr; cbn; tauto|].
  apply in_map. destruct ui; cbn; tauto.
Qed.

Lemma spec_roundup_proper x y : (x == y)%Q -> spec_roundup x = spec_roundup y.
Proof.
  intros H. unfold spec_roundup.
  rewrite (Qfloor_comp (x * 100000 + (1 # 2)) (y * 100000 + (1 # 2))); [done|]. by rewrite H.
Qed.

Lemma Qle_bool_proper x x' y : (x == x')%Q -> Qle_bool x y = Qle_bool x' y.
Proof. intros Hx. apply eq_true_iff_eq. rewrite !Qle_bool_iff. by rewrite Hx. Qed.

Lemma spec_base_proper s x x' y y' : (x == x')%Q -> (y == y')%Q -> spec_base s x y = spec_base s x' y'.
Proof.
  intros Hx Hy. unfold spec_base. apply spec_roundup_proper.
  assert (Hsum : (match s with Unchanged => x + y | Changed => (108 # 100) * (x + y) end ==
                  match s with Unchanged => x' + y' | Changed => (108 # 100) * (x' + y') end)%Q)
    by (destruct s; by rewrite Hx, Hy).
  unfold qmin. rewrite (Qle_bool_proper _ _ 10 Hsum). by destruct (Qle_bool _ 10).
Qed.

(** The score of the code on the weights of a vector. *)
Definition score_f64 (v : Vector) : f64 :=
  let impact := impact_f64 (vec_s v) (vec_c v) (vec_i v) (vec_a v) in
  if SFleb impact (f64_of_Z 0) then f64_of_Z 0
  else roundup_cvss (base_of impact
         (exploitability_f64 (vec_s v) (vec_av v) (vec_ac v) (vec_pr v) (vec_ui v)) (changed (vec_s v))).

Lemma agree_spec s i q e r :
  agree s (i, Qred q) (e, Qred r) = true ->
  let t := if Qle_bool q 0 then 0 else spec_base s q r in
  (if SFleb i (f64_of_Z 0) then f64_of_Z 0 else roundup_cvss (base_of i e (changed s))) = tenths t /\
  0 <= t <= 100.
Proof.
  unfold agree. cbn [fst snd].
  rewrite (Qle_bool_proper _ q 0 (Qred_correct q)), (spec_base_proper s _ q _ r (Qred_correct q) (Qred_correct r)).
  destruct (Qle_bool q 0).
  - intros ->. split; [by vm_compute|lia].
  - rewrite !andb_true_iff, negb_true_iff, Z.eqb_eq, Z.ltb_lt, Z.leb_le. intros [H1 [[H2 H3] H4]].
    rewrite H1, roundup_tenths_eq, H2. split; [done|lia].
Qed.

Lemma score_exact v : score_f64 v = tenths (spec_tenths v) /\ 0 <= spec_tenths v <= 100.
Proof.
  apply agree_spec.
  exact (check_pairs_spec _ _ _ _ _ (all_agree (vec_s v)) (impacts_in _ _ _ _) (exploitabilities_in _ _ _ _ _)).
Qed.

(** ** Reading a vector *)

Definition known_metric (k : str) : bool :=
  existsb (str_eqb k) ["AV"; "AC"; "PR"; "UI"; "S"; "C"; "I"; "A"].

Definition render_token (kv : str * str) : str := kv.1 ++ ":" ++ kv.2.

Definition clean_token (kv : str * str) : bool :=
  free_of ":"%char kv.1 && free_of "/"%char kv.1 && free_of "/"%char kv.2.

Definition set_token (m : Metrics) (kv : str * str) : Metrics := set_metric m kv.1 kv.2.

Lemma read_metrics_tokens ts m :
  forallb clean_token ts = true -> read_metrics m (map render_token ts) = Some (foldl set_token m ts).
Proof.
  revert m. induction ts as [|[k v] ts IH]; intros m; [done|]. cbn [forallb map read_metrics foldl].
  unfold clean_token at 1. rewrite !andb_true_iff. cbn [fst snd]. intros [[[Hk _] _] Hts].
  unfold render_token at 1. cbn [fst snd]. change (k ++ ":" ++ v) with (k ++ ":"%char :: v).
  rewrite split_once_byte_free by done. by apply IH.
Qed.

Lemma set_metric_unknown m k v : known_metric k = false -> set_metric m k v = m.
Proof.
  unfold known_metric. cbn [existsb]. rewrite !orb_false_iff. intros (H1 & H2 & H3 & H4 & H5 & H6 & H7 & H8 & _).
  destruct m. unfold set_metric. by rewrite H1, H2, H3, H4, H5, H6, H7, H8.
Qed.

Lemma known_metric_iff k :
  known_metric k = true <-> In k ["AV"; "AC"; "PR"; "UI"; "S"; "C"; "I"; "A"].
Proof.
  unfold known_metric. rewrite existsb_exists. split.
  - by intros (x & Hx & ->%str_eqb_true).
  - intros H. exists k. split; [done|]. apply str_eqb_refl.
Qed.

Lemma set_metric_commute m k v k' v' :
  k <> k' -> set_metric (set_metric m k v) k' v' = set_metric (set_metric m k' v') k v.
Proof.
  intros Hne. destruct (known_metric k) eqn:Hk; [|by rewrite !(set_metric_unknown _ k)].
  destruct (known_metric k') eqn:Hk'; [|by rewrite !(set_metric_unknown _ k')].
  apply known_metric_iff in Hk, Hk'. destruct m. cbn [In] in Hk, Hk'.
  repeat destruct Hk as [<-|Hk]; try done; repeat destruct Hk' as [<-|Hk']; done.
Qed.

Definition known_keys (ts : list (str * str)) : list str := filter (fun k => known_metric k = true) (map fst ts).

Lemma fold_tokens_perm ts ts' m :
  Permutation ts ts' -> NoDup (known_keys ts) -> foldl set_token m ts = foldl set_token m ts'.
Proof.
  intros Hp. revert m. induction Hp as [|x ts ts' Hp IH|[k v] [k' v'] ts|ts ts' ts'' Hp1 IH1 Hp2 IH2];
    intros m Hnd.
  - done.
  - cbn [foldl]. apply IH. unfold known_keys in *. cbn [map] in Hnd. rewrite filter_cons in Hnd.
    case_decide; [by inversion Hnd|done].
  - cbn [foldl]. f_equal. unfold set_token. cbn [fst snd]. destruct (decide (k = k')) as [<-|Hne].
    + unfold known_keys in Hnd. cbn [map fst] in Hnd. rewrite !filter_cons in Hnd.
      destruct (decide (known_metric k = true)).
      * inversion Hnd as [|? ? H]. subst. destruct H. set_solver.
      * by rewrite !set_metric_unknown by (by destruct (known_metric k)).
    + by apply set_metric_commute.
  - rewrite IH1 by done. apply IH2. unfold known_keys in *. by rewrite <- Hp1.
Qed.

Lemma fold_unknown ts m :
  forallb (fun kv => negb (known_metric kv.1)) ts = true -> foldl set_token m ts = m.
Proof.
  revert m. induction ts as [|[k v] ts IH]; intros m; [done|]. cbn [forallb foldl fst].
  intros [Hk%negb_true_iff Hts]%andb_prop. unfold set_token at 2. cbn [fst snd].
  rewrite set_metric_unknown by done. by apply IH.
Qed.

Lemma known_keys_vector v extra :
  forallb (fun kv => negb (known_metric kv.1)) extra = true ->
  known_keys (metric_tokens v ++ extra) = ["AV"; "AC"; "PR"; "UI"; "S"; "C"; "I"; "A"].
Proof.
  intros H. unfold known_keys. rewrite map_app, filter_app.
  assert (filter (fun k => known_metric k = true) (map fst extra) = []) as ->.
  { induction extra as [|[k x] extra IH]; [done|]. cbn [forallb fst] in H.
    apply andb_prop in H as [Hk%negb_true_iff Hx]. cbn [map fst]. rewrite filter_cons_False by congruence.
    by apply IH. }
  by rewrite app_nil_r.
Qed.

Lemma fold_vector v :
  foldl set_token (mkMetrics None None None None None None None None) (metric_tokens v) =
  mkMetrics (attack_vector (av_str (vec_av v))) (attack_complexity (ac_str (vec_ac v)))
    (Some (pr_str (vec_pr v))) (user_interaction (ui_str (vec_ui v))) (Some (s_str (vec_s v)))
    (impact_metric (impact_str (vec_c v))) (impact_metric (impact_str (vec_i v)))
    (impact_metric (impact_str (vec_a v))).
Proof. reflexivity. Qed.

Lemma metrics_defined v :
  (exists x, attack_vector (av_str (vec_av v)) = Some x) /\
  (exists x, attack_complexity (ac_str (vec_ac v)) = Some x) /\
  (exists x, privileges (changed (vec_s v)) (pr_str (vec_pr v)) = Some x) /\
  (exists x, user_interaction (ui_str (vec_ui v)) = Some x).
Proof.
  destruct v as [av ac pr ui s c i a]. cbn [vec_av vec_ac vec_pr vec_ui vec_s].
  split; [destruct av; by eexists|]. split; [destruct ac; by eexists|].
  split; [destruct pr; by eexists|]. destruct ui; by eexists.
Qed.

Lemma impact_defined x : exists y, impact_metric (impact_str x) = Some y.
Proof. destruct x; by eexists. Qed.

Lemma tokens_free ts : forallb clean_token ts = true -> forallb (free_of "/"%char) (map render_token ts) = true.
Proof.
  induction ts as [|[k w] ts IH]; [done|]. cbn [forallb map]. intros [Hc Hts]%andb_prop. rewrite IH by done.
  unfold clean_token in Hc. rewrite !andb_true_iff in Hc. destruct Hc as [[_ Hk] Hw].
  unfold free_of, render_token in *. cbn [fst snd] in *. by rewrite !forallb_app, Hk, Hw.
Qed.

Lemma cvss3_base_tokens v extra ts prefix :
  Permutation ts (metric_tokens v ++ extra) ->
  forallb (fun kv => negb (known_metric kv.1)) extra = true ->
  forallb clean_token ts = true -> free_of "/"%char prefix = true ->
  cvss3_base (join_with "/" (prefix :: map render_token ts)) = Some (score_f64 v).
Proof.
  intros Hp Hx Hts Hpre. unfold cvss3_base.
  rewrite (split_join "/"%char); [|done|by cbn [forallb]; rewrite Hpre, tokens_free].
  cbn [tail]. rewrite read_metrics_tokens by done.
  rewrite (fold_tokens_perm ts (metric_tokens v ++ extra)); [|done|].
  2:{ unfold known_keys. rewrite Hp.
      change (NoDup (known_keys (metric_tokens v ++ extra))). rewrite known_keys_vector by done.
      apply (bool_decide_unpack _). done. }
  rewrite foldl_app, (fold_unknown extra) by done. rewrite fold_vector.
  destruct (metrics_defined v) as ([av Hav] & [ac Hac] & [pr Hpr] & [ui Hui]).
  destruct (impact_defined (vec_c v)) as [c Hc], (impact_defined (vec_i v)) as [i Hi],
    (impact_defined (vec_a v)) as [a Ha].
  rewrite Hav, Hac, Hui, Hc, Hi, Ha.
  assert (str_eqb (s_str (vec_s v)) "C" = changed (vec_s v)) as -> by (by destruct (vec_s v)).
  rewrite Hpr. unfold score_f64, base_score, impact_f64, exploitability_f64.
  by rewrite Hav, Hac, Hpr, Hui, Hc, Hi, Ha.
Qed.

(** Nothing that begins like a vector is a number. *)
Lemma vector_not_number r : parse_f64 ("CVSS:3" ++ r) = None.
Proof. reflexivity. Qed.

Definition rating_agrees : bool :=
  forallb (fun n => let t := Z.of_nat n in
    match classify (Some (tenths t)), spec_rating t with
    | Critical, Critical | High, High | Medium, Medium | Low, Low | Unknown, Unknown => true
    | _, _ => false
    end) (seq 0 101).

Lemma rating_agrees_true : rating_agrees = true.
Proof. vm_compute. reflexivity. Qed.

Lemma rating_exact t : 0 <= t <= 100 -> classify (Some (tenths t)) = spec_rating t.
Proof.
  intros Ht. pose proof rating_agrees_true as H. unfold rating_agrees in H. rewrite forallb_forall in H.
  specialize (H (Z.to_nat t)). rewrite Z2Nat.id in H by lia.
  assert (In (Z.to_nat t) (seq 0 101)) as Hin by (apply in_seq; lia). specialize (H Hin). cbv zeta in H.
  destruct (classify (Some (tenths t))), (spec_rating t); done.
Qed.

(** C38: The score the scanner computes from a CVSS 3 vector, in binary floating
    point, is the one of the specification in exact arithmetic, for every
    combination of the metrics, in whatever order they stand and whatever
    further metrics the vector has; it is classified by the rating scale of the
    specification. *)
Theorem cvss_exact (v : Vector) (extra ts : list (str * str)) (version : str)
    (Hts : Permutation ts (metric_tokens v ++ extra))
    (Hextra : forallb (fun kv => negb (known_metric kv.1)) extra = true)
    (Hclean : forallb clean_token ts = true)
    (Hversion : free_of "/"%char version = true) :
  let s := join_with "/" (("CVSS:3" ++ version) :: map render_token ts) in
  parse_cvss_base s = Some (tenths (spec_tenths v)) /\
  classify (parse_cvss_base s) = spec_rating (spec_tenths v) /\ 0 <= spec_tenths v <= 100.
Proof.
  cbv zeta. destruct (score_exact v) as [Hs Hb].
  assert (He : cvss3_base (join_with "/" (("CVSS:3" ++ version) :: map render_token ts)) =
               Some (tenths (spec_tenths v))).
  { rewrite <- Hs. eapply cvss3_base_tokens; [done..|]. unfold free_of in *. by rewrite forallb_app, Hversion. }
  assert (Hp : exists r, join_with "/" (("CVSS:3" ++ version) :: map render_token ts) = "CVSS:3" ++ r).
  { destruct (map render_token ts); cbn [join_with]; rewrite <- ?app_assoc; eauto. }
  destruct Hp as [r Hr]. unfold parse_cvss_base. rewrite Hr in *. rewrite vector_not_number.
  rewrite (proj2 (starts_with_iff _ _)) by eauto. rewrite He. split; [done|]. split; [|done].
  by apply rating_exact.
Qed.

Lemma cvss_exact_witness :
  let s := "CVSS:3.1/S:U/AV:N/AC:L/E:P/PR:N/UI:N/C:H/I:H/A:H" in
  parse_cvss_base s = Some (tenths 98) /\ classify (parse_cvss_base s) = Critical.
Proof.
  pose (v := mkVector AvNetwork AcLow PrNone UiNone Unchanged ImpactHigh ImpactHigh ImpactHigh).
  pose (ts := [("S" : str, "U" : str); ("AV" : str, "N" : str); ("AC" : str, "L" : str); ("E" : str, "P" : str);
               ("PR" : str, "N" : str); ("UI" : str, "N" : str); ("C" : str, "H" : str); ("I" : str, "H" : str);
               ("A" : str, "H" : str)]).
  destruct (cvss_exact v [("E" : str, "P" : str)] ts ".1") as (H1 & H2 & _).
  - apply NoDup_Permutation; [apply (bool_decide_unpack _); done..|].
    intros x. unfold ts, v, metric_tokens. cbn. set_solver.
  - done.
  - done.
  - done.
  - split; [exact H1|exact H2].
Defined.
