(* ===== verification/Ingest.v ===== *)
(** * Vulnerability feeds ([crates/specton-scanner/src/vulndb/ingest])

    Three ingesters read the OSV archive, the NVD interface and the GitHub
    advisories, bring the records to rows of [vulnerabilities] and
    [affected_ranges], and keep a cursor per source; a scheduler runs them
    again and again.  The tables of [0001_init.sql] and [0002_vulndb_ingest.sql]
    are finite maps and a list; a statement or transaction that fails changes
    none of them.  Times are nanoseconds, in the tables microseconds. *)

From Stdlib Require Import SpecFloat.
From S2P Require Import Prelude Json Text Utf8 Orders Deb Rpm Apk Pep440 Matcher Cvss Effects Http.

Local Open Scope Z_scope.
Local Open Scope result_scope.

(** ** Rows ([mod.rs]) *)

Record IngestStats : Type := mkIngestStats {
  st_advisories : Z;
  st_skipped : Z;
  st_errors : Z
}.

Definition stats_zero : IngestStats := mkIngestStats 0 0 0.

Record VulnerabilityRow : Type := mkVulnerabilityRow {
  vr_id : str;
  vr_source : str;
  vr_summary : option str;
  vr_description : option str;
  vr_severity : Severity;
  vr_cvss_score : option f64;
  vr_published_at : option Z;
  vr_modified_at : option Z;
  vr_aliases : list str;
  vr_references : list str
}.

Record AffectedRangeRow : Type := mkAffectedRangeRow {
  ar_ecosystem : str;
  ar_package : str;
  ar_introduced : option str;
  ar_fixed : option str;
  ar_last_affected : option str;
  ar_purl : option str
}.

(** [chrono], [serde_json] and the texts of errors. *)
Record IngestLib : Type := mkIngestLib {
  gl_parse : str -> option json;
  gl_json_error : str -> str;
  gl_to_string : json -> str;
  gl_status_error : Z -> str -> str;
  gl_datetime_de : str -> option Z;
  gl_rfc3339 : Z -> str;
  gl_nvd_ts : Z -> str;
  gl_debug : list json -> str
}.

(** A JSON number as [f64]. *)
Definition f64_of_bits (b : Z) : f64 :=
  let s := 2 ^ 63 <=? b in
  let e := (b / 2 ^ 52) mod 2048 in
  let m := b mod 2 ^ 52 in
  if e =? 2047 then (if m =? 0 then S754_infinity s else S754_nan)
  else
    let '(m, e) := if e =? 0 then (m, - 1074) else (m + 2 ^ 52, e - 1075) in
    match m with
    | Zpos p => S754_finite s p e
    | _ => S754_zero s
    end.

Definition de_f64 (v : json) : option f64 :=
  match v with
  | JInt z => Some (f64_of_Z z)
  | JFloat bits => Some (f64_of_bits bits)
  | _ => None
  end.

(** ** OSV records ([normalise.rs]) *)

Record OsvSeverity : Type := mkOsvSeverity { os_kind : str; os_score : str }.

Record OsvPackage : Type := mkOsvPackage {
  op_name : str;
  op_ecosystem : str;
  op_purl : option str
}.

Record OsvEvent : Type := mkOsvEvent {
  ev_introduced : option str;
  ev_fixed : option str;
  ev_last_affected : option str;
  ev_limit : option str
}.

Record OsvRange : Type := mkOsvRange { or_kind : str; or_events : list OsvEvent }.

Record OsvAffected : Type := mkOsvAffected {
  oa_package : OsvPackage;
  oa_ranges : list OsvRange;
  oa_versions : list str
}.

Record OsvRecord : Type := mkOsvRecord {
  or_id : str;
  or_aliases : list str;
  or_summary : option str;
  or_details : option str;
  or_published : option Z;
  or_modified : option Z;
  or_withdrawn : option Z;
  or_severity : list OsvSeverity;
  or_affected : list OsvAffected;
  or_references : list str
}.

Section readers.
Context (lib : IngestLib).

Definition de_datetime (v : json) : option Z := as_str v ≫= gl_datetime_de lib.

Definition de_osv_severity (v : json) : option OsvSeverity :=
  match de_struct [("type" : str, false); ("score" : str, false)] v with
  | Some [k; s] =>
      match de_required as_str k, de_required as_str s with
      | Some k, Some s => Some (mkOsvSeverity k s)
      | _, _ => None
      end
  | _ => None
  end.

Definition de_osv_package (v : json) : option OsvPackage :=
  match de_struct [("name" : str, true); ("ecosystem" : str, true); ("purl" : str, true)] v with
  | Some [n; e; p] =>
      match de_or [] as_str n, de_or [] as_str e, de_option as_str p with
      | Some n, Some e, Some p => Some (mkOsvPackage n e p)
      | _, _, _ => None
      end
  | _ => None
  end.

Definition de_osv_event (v : json) : option OsvEvent :=
  match de_struct [("introduced" : str, true); ("fixed" : str, true); ("last_affected" : str, true);
                   ("limit" : str, true)] v with
  | Some [i; f; l; m] =>
      match de_option as_str i, de_option as_str f, de_option as_str l, de_option as_str m with
      | Some i, Some f, Some l, Some m => Some (mkOsvEvent i f l m)
      | _, _, _, _ => None
      end
  | _ => None
  end.

Definition de_osv_range (v : json) : option OsvRange :=
  match de_struct [("type" : str, true); ("events" : str, true)] v with
  | Some [k; e] =>
      match de_or [] as_str k, de_or [] (de_vec de_osv_event) e with
      | Some k, Some e => Some (mkOsvRange k e)
      | _, _ => None
      end
  | _ => None
  end.

Definition de_osv_affected (v : json) : option OsvAffected :=
  match de_struct [("package" : str, true); ("ranges" : str, true); ("versions" : str, true)] v with
  | Some [p; r; vs] =>
      match de_or (mkOsvPackage [] [] None) de_osv_package p, de_or [] (de_vec de_osv_range) r,
            de_or [] (de_vec as_str) vs with
      | Some p, Some r, Some vs => Some (mkOsvAffected p r vs)
      | _, _, _ => None
      end
  | _ => None
  end.

(** A struct with the one field [url]. *)
Definition de_url (v : json) : option str :=
  match de_struct [("url" : str, false)] v with
  | Some [u] => de_required as_str u
  | _ => None
  end.

Definition de_osv_record (v : json) : option OsvRecord :=
  match de_struct [("id" : str, false); ("aliases" : str, true); ("summary" : str, true);
                   ("details" : str, true); ("published" : str, true); ("modified" : str, true);
                   ("withdrawn" : str, true); ("severity" : str, true); ("affected" : str, true);
                   ("references" : str, true)] v with
  | Some [i; al; su; d; p; m; w; se; af; re] =>
      match de_required as_str i, de_or [] (de_vec as_str) al, de_option as_str su, de_option as_str d with
      | Some i, Some al, Some su, Some d =>
          match de_option de_datetime p, de_option de_datetime m, de_option de_datetime w with
          | Some p, Some m, Some w =>
              match de_or [] (de_vec de_osv_severity) se, de_or [] (de_vec de_osv_affected) af,
                    de_or [] (de_vec de_url) re with
              | Some se, Some af, Some re => Some (mkOsvRecord i al su d p m w se af re)
              | _, _, _ => None
              end
          | _, _, _ => None
          end
      | _, _, _, _ => None
      end
  | _ => None
  end.
End readers.

Definition map_ecosystem (osv : str) : option str :=
  let family := trim (hd [] (split_on ":"%char osv)) in
  let is_in := existsb (str_eqb family) in
  if str_eqb family "Alpine" then Some ("apk" : str)
  else if is_in ["Debian"; "Ubuntu"] then Some ("deb" : str)
  else if is_in ["AlmaLinux"; "Rocky Linux"; "Red Hat"; "RHEL"; "openSUSE"; "SUSE"] then Some ("rpm" : str)
  else if str_eqb family "Go" then Some ("go" : str)
  else if str_eqb family "PyPI" then Some ("pypi" : str)
  else if str_eqb family "npm" then Some ("npm" : str)
  else if str_eqb family "crates.io" then Some ("cargo" : str)
  else if str_eqb family "Maven" then Some ("maven" : str)
  else None.

Definition classify_source (id : str) : str :=
  if starts_with "CVE-" id then "nvd"
  else if starts_with "GHSA-" id then "ghsa"
  else if starts_with "PYSEC-" id then "pysec"
  else if starts_with "GO-" id then "go"
  else if existsb (fun p => starts_with p id) ["ALSA-"; "DLA-"; "DSA-"; "USN-"; "RHSA-"; "RLSA-"] then "distro"
  else "osv".

(** The loop over the events of a range: [introduced] is the open lower bound. *)
Fixpoint walk_events (row : option str -> option str -> option str -> AffectedRangeRow)
    (introduced : option str) (events : list OsvEvent) : list AffectedRangeRow :=
  match events with
  | [] =>
      match introduced with
      | Some v => [row (Some v) None None]
      | None => []
      end
  | ev :: events' =>
      match ev_introduced ev, ev_fixed ev, ev_last_affected ev, ev_limit ev with
      | Some v, _, _, _ => walk_events row (Some v) events'
      | None, Some v, _, _ => row introduced (Some v) None :: walk_events row None events'
      | None, None, Some v, _ => row introduced None (Some v) :: walk_events row None events'
      | None, None, None, Some _ => walk_events row None events'
      | None, None, None, None => walk_events row introduced events'
      end
  end.

Definition decompose (a : OsvAffected) : list AffectedRangeRow :=
  match map_ecosystem (op_ecosystem (oa_package a)) with
  | None => []
  | Some ecosystem =>
      if negb (non_empty (op_name (oa_package a))) then []
      else
        let row i f l := mkAffectedRangeRow ecosystem (op_name (oa_package a)) i f l (op_purl (oa_package a)) in
        let out := flat_map (fun range => walk_events row None (or_events range)) (oa_ranges a) in
        match out, oa_versions a with
        | [], _ :: _ => map (fun v => row None None (Some v)) (oa_versions a)
        | _, _ => out
        end
  end.

Definition first_cvss (l : list OsvSeverity) : option OsvSeverity :=
  List.find (fun s => starts_with "CVSS" (os_kind s)) l.

(** The text before the first full stop. *)
Definition osv_summary (rec : OsvRecord) : option str :=
  match or_summary rec with
  | Some s => Some s
  | None =>
      match or_details rec with
      | Some d => let s := trim (hd d (split_on "."%char d)) in if non_empty s then Some s else None
      | None => None
      end
  end.

Definition normalise (rec : OsvRecord) : option (VulnerabilityRow * list AffectedRangeRow) :=
  match or_withdrawn rec with
  | Some _ => None
  | None =>
      match flat_map decompose (or_affected rec) with
      | [] => None
      | ranges =>
          let cvss_score := first_cvss (or_severity rec) ≫= fun s => parse_cvss_base (os_score s) in
          Some (mkVulnerabilityRow (or_id rec) (classify_source (or_id rec)) (osv_summary rec) (or_details rec)
                  (classify cvss_score) cvss_score (or_published rec) (or_modified rec) (or_aliases rec)
                  (or_references rec), ranges)
      end
  end.

(** ** GitHub advisories ([ghsa.rs]) *)

Definition to_ascii_uppercase (s : str) : str :=
  map (fun c => if byte_in 97 122 c then ascii_of_N (N_of_ascii c - 32) else c) s.

Definition eq_ignore_ascii_case (a b : str) : bool := str_eqb (to_ascii_lowercase a) (to_ascii_lowercase b).

Record GhsaIdentifier : Type := mkGhsaIdentifier { gi_type : str; gi_value : str }.

Record GhsaVulnerabilityNode : Type := mkGhsaVulnerabilityNode {
  gv_name : str;
  gv_ecosystem : str;
  gv_range : option str;
  gv_first_patched : option str
}.

Record GhsaNode : Type := mkGhsaNode {
  gn_ghsa_id : str;
  gn_identifiers : list GhsaIdentifier;
  gn_summary : option str;
  gn_description : option str;
  gn_severity : str;
  gn_published_at : option Z;
  gn_updated_at : option Z;
  gn_references : list str;
  gn_cvss : option (option f64);
  gn_vulnerabilities : list GhsaVulnerabilityNode
}.

Record GhsaPage : Type := mkGhsaPage {
  gp_nodes : list GhsaNode;
  gp_end_cursor : option str;
  gp_has_next : bool
}.

Section ghsa_readers.
Context (lib : IngestLib).

Definition de_bool (v : json) : option bool :=
  match v with
  | JBool b => Some b
  | _ => None
  end.

Definition de_identifier (v : json) : option GhsaIdentifier :=
  match de_struct [("type" : str, false); ("value" : str, false)] v with
  | Some [t; x] =>
      match de_required as_str t, de_required as_str x with
      | Some t, Some x => Some (mkGhsaIdentifier t x)
      | _, _ => None
      end
  | _ => None
  end.

Definition de_cvss (v : json) : option (option f64) :=
  match de_struct [("score" : str, true)] v with
  | Some [s] => de_option de_f64 s
  | _ => None
  end.

Definition de_ghsa_package (v : json) : option (str * str) :=
  match de_struct [("name" : str, false); ("ecosystem" : str, false)] v with
  | Some [n; e] =>
      match de_required as_str n, de_required as_str e with
      | Some n, Some e => Some (n, e)
      | _, _ => None
      end
  | _ => None
  end.

Definition de_patched (v : json) : option str :=
  match de_struct [("identifier" : str, false)] v with
  | Some [i] => de_required as_str i
  | _ => None
  end.

Definition de_vulnerability_node (v : json) : option GhsaVulnerabilityNode :=
  match de_struct [("package" : str, false); ("vulnerableVersionRange" : str, true);
                   ("firstPatchedVersion" : str, true)] v with
  | Some [p; r; f] =>
      match de_required de_ghsa_package p, de_option as_str r, de_option de_patched f with
      | Some (n, e), Some r, Some f => Some (mkGhsaVulnerabilityNode n e r f)
      | _, _, _ => None
      end
  | _ => None
  end.

(** [GhsaVulnerabilities] *)
Definition de_vulnerabilities (v : json) : option (list GhsaVulnerabilityNode) :=
  match de_struct [("nodes" : str, true)] v with
  | Some [ns] => de_or [] (de_vec de_vulnerability_node) ns
  | _ => None
  end.

Definition de_ghsa_node (v : json) : option GhsaNode :=
  match de_struct [("ghsaId" : str, false); ("identifiers" : str, true); ("summary" : str, true);
                   ("description" : str, true); ("severity" : str, false); ("publishedAt" : str, true);
                   ("updatedAt" : str, true); ("references" : str, true); ("cvss" : str, true);
                   ("vulnerabilities" : str, true)] v with
  | Some [g; i; su; d; se; p; u; re; c; vs] =>
      match de_required as_str g, de_or [] (de_vec de_identifier) i, de_option as_str su,
            de_option as_str d, de_required as_str se with
      | Some g, Some i, Some su, Some d, Some se =>
          match de_option (de_datetime lib) p, de_option (de_datetime lib) u, de_or [] (de_vec de_url) re,
                de_option de_cvss c, de_or [] de_vulnerabilities vs with
          | Some p, Some u, Some re, Some c, Some vs => Some (mkGhsaNode g i su d se p u re c vs)
          | _, _, _, _, _ => None
          end
      | _, _, _, _, _ => None
      end
  | _ => None
  end.

(** [PageInfo]: end cursor and whether there is a next page. *)
Definition de_page_info (v : json) : option (bool * option str) :=
  match de_struct [("hasNextPage" : str, false); ("endCursor" : str, false)] v with
  | Some [h; e] =>
      match de_required de_bool h, de_option as_str e with
      | Some h, Some e => Some (h, e)
      | _, _ => None
      end
  | _ => None
  end.

(** [SecurityAdvisories] *)
Definition de_advisories (v : json) : option GhsaPage :=
  match de_struct [("nodes" : str, false); ("pageInfo" : str, false)] v with
  | Some [ns; p] =>
      match de_required (de_vec de_ghsa_node) ns, de_required de_page_info p with
      | Some ns, Some (h, e) => Some (mkGhsaPage ns e h)
      | _, _ => None
      end
  | _ => None
  end.

Definition de_graphql_data (v : json) : option GhsaPage :=
  match de_struct [("securityAdvisories" : str, false)] v with
  | Some [a] => de_required de_advisories a
  | _ => None
  end.

(** [GraphqlResponse]: data and errors. *)
Definition de_graphql (v : json) : option (option GhsaPage * option (list json)) :=
  match de_struct [("data" : str, false); ("errors" : str, true)] v with
  | Some [d; e] =>
      match de_option de_graphql_data d, de_option (de_vec Some) e with
      | Some d, Some e => Some (d, e)
      | _, _ => None
      end
  | _ => None
  end.
End ghsa_readers.

Definition parse_ghsa_severity (s : str) : Severity :=
  let u := to_ascii_uppercase s in
  if str_eqb u "CRITICAL" then Critical
  else if str_eqb u "HIGH" then High
  else if str_eqb u "MODERATE" || str_eqb u "MEDIUM" then Medium
  else if str_eqb u "LOW" then Low
  else Unknown.

Definition ghsa_ecosystem_to_ours (e : str) : option str :=
  let u := to_ascii_uppercase e in
  if str_eqb u "NPM" then Some ("npm" : str)
  else if str_eqb u "PIP" then Some ("pypi" : str)
  else if str_eqb u "RUST" then Some ("cargo" : str)
  else if str_eqb u "GO" then Some ("go" : str)
  else if str_eqb u "MAVEN" then Some ("maven" : str)
  else None.

(** The variables [introduced], [fixed] and [last_affected]. *)
Definition Bounds : Type := option str * option str * option str.

Definition parse_part (b : Bounds) (part : str) : Bounds :=
  let '(introduced, fixed, last_affected) := b in
  let part := trim part in
  match strip_prefix ">=" part with
  | Some v => (Some (trim v), fixed, last_affected)
  | None =>
      match strip_prefix ">" part with
      | Some v => (Some (trim v), fixed, last_affected)
      | None =>
          match strip_prefix "<=" part with
          | Some v => (introduced, fixed, Some (trim v))
          | None =>
              match strip_prefix "<" part with
              | Some v => (introduced, Some (trim v), last_affected)
              | None =>
                  match strip_prefix "=" part with
                  | Some v => (Some (trim v), fixed, Some (trim v))
                  | None => b
                  end
              end
          end
      end
  end.

Definition parse_range (range first_patched : option str) : Bounds :=
  let '(introduced, fixed, last_affected) :=
    match range with
    | Some r => fold_left parse_part (split_on ","%char r) (None, None, None)
    | None => (None, None, None)
    end in
  (introduced, match fixed with Some f => Some f | None => first_patched end, last_affected).

Definition vuln_node_to_range (v : GhsaVulnerabilityNode) : option AffectedRangeRow :=
  match ghsa_ecosystem_to_ours (gv_ecosystem v) with
  | None => None
  | Some ecosystem =>
      let '(introduced, fixed, last_affected) := parse_range (gv_range v) (gv_first_patched v) in
      Some (mkAffectedRangeRow ecosystem (gv_name v) introduced fixed last_affected None)
  end.

Definition normalise_ghsa (node : GhsaNode) : option (VulnerabilityRow * list AffectedRangeRow) :=
  match omap vuln_node_to_range (gn_vulnerabilities node) with
  | [] => None
  | ranges =>
      let cve_alias := gi_value <$> List.find (fun i => eq_ignore_ascii_case (gi_type i) "CVE") (gn_identifiers node) in
      let aliases :=
        map gi_value (List.filter (fun i => negb (eq_ignore_ascii_case (gi_type i) "GHSA")) (gn_identifiers node)) in
      Some (mkVulnerabilityRow (default (gn_ghsa_id node) cve_alias) "ghsa" (gn_summary node) (gn_description node)
              (parse_ghsa_severity (gn_severity node)) (gn_cvss node ≫= fun c => c) (gn_published_at node)
              (gn_updated_at node) aliases (gn_references node), ranges)
  end.

(** ** NVD ([nvd.rs]) *)

Record NvdCve : Type := mkNvdCve {
  nc_id : str;
  nc_published : option Z;
  nc_last_modified : option Z;
  nc_descriptions : list (str * str);
  nc_references : list str;
  nc_v31 : list (option f64 * option str);
  nc_v30 : list (option f64 * option str);
  nc_v2 : list (option f64 * option str)
}.

Section nvd_readers.
Context (lib : IngestLib).

Definition de_description (v : json) : option (str * str) :=
  match de_struct [("lang" : str, false); ("value" : str, false)] v with
  | Some [l; x] =>
      match de_required as_str l, de_required as_str x with
      | Some l, Some x => Some (l, x)
      | _, _ => None
      end
  | _ => None
  end.

Definition de_cvss_data (v : json) : option (option f64 * option str) :=
  match de_struct [("baseScore" : str, true); ("baseSeverity" : str, true)] v with
  | Some [b; s] =>
      match de_option de_f64 b, de_option as_str s with
      | Some b, Some s => Some (b, s)
      | _, _ => None
      end
  | _ => None
  end.

Definition de_cvss_wrapper (v : json) : option (option f64 * option str) :=
  match de_struct [("cvssData" : str, false)] v with
  | Some [d] => de_required de_cvss_data d
  | _ => None
  end.

Definition de_metrics (v : json) :
    option (list (option f64 * option str) * list (option f64 * option str) * list (option f64 * option str)) :=
  match de_struct [("cvssMetricV31" : str, true); ("cvssMetricV30" : str, true); ("cvssMetricV2" : str, true)] v with
  | Some [a; b; c] =>
      match de_or [] (de_vec de_cvss_wrapper) a, de_or [] (de_vec de_cvss_wrapper) b,
            de_or [] (de_vec de_cvss_wrapper) c with
      | Some a, Some b, Some c => Some (a, b, c)
      | _, _, _ => None
      end
  | _ => None
  end.

(** [NvdWeakness], read and not used. *)
Definition de_weakness (v : json) : option unit :=
  match de_struct [("description" : str, true)] v with
  | Some [d] => (fun _ => tt) <$> de_or [] (de_vec de_description) d
  | _ => None
  end.

Definition de_nvd_cve (v : json) : option NvdCve :=
  match de_struct [("id" : str, false); ("published" : str, true); ("lastModified" : str, true);
                   ("descriptions" : str, true); ("references" : str, true); ("metrics" : str, true);
                   ("weaknesses" : str, true)] v with
  | Some [i; p; m; d; r; me; w] =>
      match de_required as_str i, de_option (de_datetime lib) p, de_option (de_datetime lib) m,
            de_or [] (de_vec de_description) d, de_or [] (de_vec de_url) r, de_or ([], [], []) de_metrics me,
            de_or [] (de_vec de_weakness) w with
      | Some i, Some p, Some m, Some d, Some r, Some (a, b, c), Some _ => Some (mkNvdCve i p m d r a b c)
      | _, _, _, _, _, _, _ => None
      end
  | _ => None
  end.

(** [NvdVulnEnvelope] *)
Definition de_envelope (v : json) : option NvdCve :=
  match de_struct [("cve" : str, false)] v with
  | Some [c] => de_required de_nvd_cve c
  | _ => None
  end.

(** [NvdApiResponse]: total and page. *)
Definition de_nvd_response (v : json) : option (Z * list NvdCve) :=
  match de_struct [("totalResults" : str, true); ("vulnerabilities" : str, true)] v with
  | Some [t; vs] =>
      match de_or 0 as_u64 t, de_or [] (de_vec de_envelope) vs with
      | Some t, Some vs => Some (t, vs)
      | _, _ => None
      end
  | _ => None
  end.
End nvd_readers.

Definition pick_english (descs : list (str * str)) : option str :=
  snd <$> List.find (fun d => str_eqb (fst d) "en") descs.

(** [s.is_char_boundary(i)] *)
Definition is_char_boundary (s : str) (i : nat) : bool :=
  (i =? 0)%nat || (i =? length s)%nat || ((i <? length s)%nat && negb (is_cont (safe_get s i))).

(** [None] is the panic of a slice that ends inside a character. *)
Definition first_sentence (s : str) : option str :=
  let cut n := if is_char_boundary s n then Some (take n s) else None in
  match split_once_str ". " s with
  | Some (before, _) =>
      if (length before <? 200)%nat then cut (length before + 1)%nat else cut (Nat.min (length s) 200)
  | None => cut (Nat.min (length s) 200)
  end.

Definition nvd_severity (s : str) : Severity :=
  let u := to_ascii_uppercase s in
  if str_eqb u "CRITICAL" then Critical
  else if str_eqb u "HIGH" then High
  else if str_eqb u "MEDIUM" then Medium
  else if str_eqb u "LOW" then Low
  else Unknown.

Definition extract_severity (cve : NvdCve) : option f64 * Severity :=
  match hd_error (nc_v31 cve ++ nc_v30 cve ++ nc_v2 cve) with
  | None => (None, Unknown)
  | Some (score, base_severity) =>
      (score, match base_severity with
              | Some s => nvd_severity s
              | None => classify score
              end)
  end.

(** The outer [None] is a panic. *)
Definition normalise_nvd (cve : NvdCve) : option (option VulnerabilityRow) :=
  if negb (starts_with "CVE-" (nc_id cve)) then Some None
  else
    let summary := match pick_english (nc_descriptions cve) with
                   | Some s => Some <$> first_sentence s
                   | None => Some None
                   end in
    (fun summary =>
       let '(cvss_score, severity) := extract_severity cve in
       Some (mkVulnerabilityRow (nc_id cve) "nvd" summary (pick_english (nc_descriptions cve)) severity cvss_score
               (nc_published cve) (nc_last_modified cve) [] (nc_references cve))) <$> summary.

(** ** Tables and writers ([writer.rs]) *)

(** The columns of [vulnerabilities]. *)
Record VulnCols : Type := mkVulnCols {
  vc_source : str;
  vc_summary : option str;
  vc_description : option str;
  vc_severity : str;
  vc_cvss_score : option f64;
  vc_published_at : option Z;
  vc_modified_at : option Z;
  vc_aliases : list str;
  vc_refs : json
}.

Record CursorRow : Type := mkCursorRow {
  cu_etag : option str;
  cu_last_modified : option Z;
  cu_last_run_at : Z;
  cu_last_run_advisories : Z;
  cu_last_run_error : option str
}.

(** [affected_ranges] holds the advisory beside the range, in the order of
    their serial numbers. *)
Record VulnTables : Type := mkVulnTables {
  vulnerabilities : gmap str VulnCols;
  affected_ranges : list (str * AffectedRangeRow);
  ingest_cursor : gmap str CursorRow
}.

Definition tables_empty : VulnTables := mkVulnTables ∅ [] ∅.

(** [format!("{:?}", severity).to_uppercase()] *)
Definition severity_str (s : Severity) : str :=
  match s with
  | Critical => "CRITICAL"
  | High => "HIGH"
  | Medium => "MEDIUM"
  | Low => "LOW"
  | Unknown => "UNKNOWN"
  end.

Definition micros (t : Z) : Z := t / 1000.

Definition cols_of (v : VulnerabilityRow) : VulnCols :=
  mkVulnCols (vr_source v) (vr_summary v) (vr_description v) (severity_str (vr_severity v)) (vr_cvss_score v)
    (micros <$> vr_published_at v) (micros <$> vr_modified_at v) (vr_aliases v)
    (JArray (map JString (vr_references v))).

(** The transaction of [write_advisory], committed. *)
Definition put_advisory (v : VulnerabilityRow) (ranges : list AffectedRangeRow) (t : VulnTables) : VulnTables :=
  mkVulnTables (<[vr_id v := cols_of v]> (vulnerabilities t))
    (List.filter (fun r => negb (str_eqb (fst r) (vr_id v))) (affected_ranges t) ++ map (pair (vr_id v)) ranges)
    (ingest_cursor t).

(** [COALESCE(new, old)] *)
Definition coalesce {A} (new old : option A) : option A :=
  match new with
  | Some x => Some x
  | None => old
  end.

Definition merge_cols (new old : VulnCols) : VulnCols :=
  mkVulnCols (vc_source new) (coalesce (vc_summary new) (vc_summary old))
    (coalesce (vc_description new) (vc_description old))
    (if negb (str_eqb (vc_severity new) "UNKNOWN") then vc_severity new else vc_severity old)
    (coalesce (vc_cvss_score new) (vc_cvss_score old)) (coalesce (vc_published_at new) (vc_published_at old))
    (coalesce (vc_modified_at new) (vc_modified_at old)) (vc_aliases new) (vc_refs new).

(** The statement of [write_advisory_metadata_only]. *)
Definition put_metadata (v : VulnerabilityRow) (t : VulnTables) : VulnTables :=
  let new := cols_of v in
  mkVulnTables
    (<[vr_id v := match vulnerabilities t !! vr_id v with Some old => merge_cols new old | None => new end]>
       (vulnerabilities t))
    (affected_ranges t) (ingest_cursor t).

Definition i32_max : Z := 2147483647.

(** The statement of [update_cursor]; [None] of [last_modified] keeps the old. *)
Definition put_cursor (source : str) (etag : option str) (last_modified : option Z) (now : Z) (stats : IngestStats)
    (error : option str) (t : VulnTables) : VulnTables :=
  let old := ingest_cursor t !! source in
  mkVulnTables (vulnerabilities t) (affected_ranges t)
    (<[source := mkCursorRow etag (coalesce (micros <$> last_modified) (old ≫= cu_last_modified)) (micros now)
                   (Z.min (st_advisories stats) i32_max) error]> (ingest_cursor t)).

(** ** Readers ([vulndb/specton.rs]) *)

(** The bit pattern of a double. *)
Definition f64_bits (x : f64) : Z :=
  let sign (s : bool) := if s then 2 ^ 63 else 0 in
  match x with
  | S754_zero s => sign s
  | S754_infinity s => sign s + 2047 * 2 ^ 52
  | S754_nan => 2047 * 2 ^ 52 + 2 ^ 51
  | S754_finite s m e =>
      sign s + (if Zpos m <? 2 ^ 52 then Zpos m else (e + 1075) * 2 ^ 52 + (Zpos m - 2 ^ 52))
  end.

(** The join of [SpectonVulnDb::query], of the rows of one package. *)
Definition join_row (t : VulnTables) (r : str * AffectedRangeRow) : option QueryRow :=
  (fun c => mkQueryRow r.1 (vc_aliases c) (vc_summary c) (vc_description c) (Some (vc_severity c))
              (f64_bits <$> vc_cvss_score c) (vc_refs c) (ar_introduced r.2) (ar_fixed r.2) (ar_last_affected r.2))
  <$> vulnerabilities t !! r.1.

Definition of_package (ecosystem package : str) (r : str * AffectedRangeRow) : bool :=
  str_eqb (ar_ecosystem r.2) ecosystem && str_eqb (ar_package r.2) package.

Definition join_rows (t : VulnTables) (ecosystem package : str) : list QueryRow :=
  omap (join_row t) (List.filter (of_package ecosystem package) (affected_ranges t)).

(** ** Errors *)

Inductive ScanError : Type :=
| ScanImage (e : str)
| ScanSbom (e : str)
| ScanVulnDb (e : str)
| ScanStore (e : str)
| ScanDb (e : str)
| ScanAi (e : str)
| ScanIo (e : str)
| ScanObjectStore (e : str)
| ScanHttp (e : str)
| ScanSerde (e : str)
| ScanOther (e : str).

Definition scan_display (e : ScanError) : str :=
  match e with
  | ScanImage e => "image: " ++ e
  | ScanSbom e => "sbom: " ++ e
  | ScanVulnDb e => "vulndb: " ++ e
  | ScanStore e => "store: " ++ e
  | ScanDb e => "db: " ++ e
  | ScanAi e => "ai: " ++ e
  | ScanIo e => "io: " ++ e
  | ScanObjectStore e => "object_store: " ++ e
  | ScanHttp e => "http: " ++ e
  | ScanSerde e => "serde: " ++ e
  | ScanOther e => e
  end.

(** How a run ends without a value: an error, a panic, or a loop that has not
    come to its end within the steps it was given. *)
Inductive halt : Type :=
| Failed (e : ScanError)
| Panicked
| Unfinished.

(** ** The world of a run

    The network, the tables, how many statements were sent to the database, and
    the two variables a run hands down by reference. *)
Record IngestWorld (N : Type) : Type := mkIngestWorld {
  ig_net : N;
  ig_tables : VulnTables;
  ig_statements : nat;
  ig_stats : IngestStats;
  ig_max_modified : Z
}.
Arguments mkIngestWorld {N}.
Arguments ig_net {N}.
Arguments ig_tables {N}.
Arguments ig_statements {N}.
Arguments ig_stats {N}.
Arguments ig_max_modified {N}.

(** What a query to the NVD interface holds. *)
Record NvdRequest : Type := mkNvdRequest {
  nq_url : str;
  nq_query : list (str * str);
  nq_api_key : option str
}.

Record NvdConfig : Type := mkNvdConfig {
  nv_base_url : option str;
  nv_api_key : option str;
  nv_bootstrap_window_days : Z
}.

Record GhsaConfig : Type := mkGhsaConfig {
  gc_endpoint : option str;
  gc_token : str;
  gc_page_size : option Z
}.

(** One entry of the archive: unreadable, or what it is with its contents. *)
Inductive ZipEntry : Type :=
| BadEntry
| Entry (is_file : bool) (name : str) (contents : option str).

(** What meets one run of the OSV ingester: the answer to the HEAD request, and
    the download, an error or the archive, which may not open. *)
Record OsvTurn : Type := mkOsvTurn {
  ot_head : result HttpResponse str;
  ot_download : result (result (list ZipEntry) str) ScanError
}.

Definition day_ns : Z := 86400 * 1000000000.
Definition MAX_WINDOW_DAYS : Z := 119.
Definition PAGE_SIZE : Z := 2000.

Definition OSV_ZIP_URL : str := "https://osv-vulnerabilities.storage.googleapis.com/all.zip".

Section run.
Context {N : Type} (lib : IngestLib).

(** [fault n] is the error of the [n]-th statement, [clock n] the time it is
    sent. *)
Context (fault : nat -> option str) (clock : nat -> Z).

Abbreviation Ing := (M (IngestWorld N) halt).

(** One statement or transaction. *)
Definition sql {A} (f : Z -> VulnTables -> VulnTables * A) : Ing A :=
  fun w =>
    let n := ig_statements w in
    match fault n with
    | Some e => (mkIngestWorld (ig_net w) (ig_tables w) (S n) (ig_stats w) (ig_max_modified w), Err (Failed (ScanDb e)))
    | None =>
        let '(t, a) := f (clock n) (ig_tables w) in
        (mkIngestWorld (ig_net w) t (S n) (ig_stats w) (ig_max_modified w), Ok a)
    end.

Definition write_advisory (v : VulnerabilityRow) (ranges : list AffectedRangeRow) : Ing unit :=
  sql (fun _ t => (put_advisory v ranges t, tt)).

Definition write_advisory_metadata_only (v : VulnerabilityRow) : Ing unit :=
  sql (fun _ t => (put_metadata v t, tt)).

Definition update_cursor (source : str) (etag : option str) (last_modified : option Z) (stats : IngestStats)
    (error : option str) : Ing unit :=
  sql (fun now t => (put_cursor source etag last_modified now stats error t, tt)).

Definition stored_last_modified (source : str) : Ing (option Z) :=
  sql (fun _ t => (t, (fun m => m * 1000) <$> (ingest_cursor t !! source ≫= cu_last_modified))).

Definition stored_etag (source : str) : Ing (option str) :=
  sql (fun _ t => (t, ingest_cursor t !! source ≫= cu_etag)).

Definition set_stats (f : IngestStats -> IngestStats) : Ing unit :=
  modify (fun w => mkIngestWorld (ig_net w) (ig_tables w) (ig_statements w) (f (ig_stats w)) (ig_max_modified w)).

Definition set_max (f : Z -> Z) : Ing unit :=
  modify (fun w => mkIngestWorld (ig_net w) (ig_tables w) (ig_statements w) (ig_stats w) (f (ig_max_modified w))).

Definition one_advisory (s : IngestStats) : IngestStats :=
  mkIngestStats (st_advisories s + 1) (st_skipped s) (st_errors s).
Definition one_skipped (s : IngestStats) : IngestStats :=
  mkIngestStats (st_advisories s) (st_skipped s + 1) (st_errors s).
Definition one_error (s : IngestStats) : IngestStats :=
  mkIngestStats (st_advisories s) (st_skipped s) (st_errors s + 1).

(** A write whose error is counted; a panic is not caught. *)
Definition counted (m : Ing unit) : Ing unit :=
  fun w =>
    match m w with
    | (w', Ok _) => set_stats one_advisory w'
    | (w', Err (Failed _)) => set_stats one_error w'
    | (w', Err h) => (w', Err h)
    end.

Definition note_modified (modified_at : option Z) : Ing unit :=
  match modified_at with
  | Some t => set_max (fun m => if m <? t then t else m)
  | None => ret tt
  end.

Definition from_net {A} (m : M N halt A) : Ing A :=
  fun w => let '(n, r) := m (ig_net w) in
           (mkIngestWorld n (ig_tables w) (ig_statements w) (ig_stats w) (ig_max_modified w), r).

Definition failed {S A} (e : ScanError) : M S halt A := throw (Failed e).

(** [error_for_status()?] and the decoding of the body. *)
Definition decode {A} (url source : str) (de : json -> option A) (resp : HttpResponse) : M N halt A :=
  if (400 <=? rs_status resp) && (rs_status resp <? 600)
  then failed (ScanHttp (gl_status_error lib (rs_status resp) url))
  else
    match rs_bytes resp with
    | Err e => failed (ScanVulnDb (source ++ " json decode: " ++ e))
    | Ok bytes =>
        match gl_parse lib bytes ≫= de with
        | Some a => ret a
        | None => failed (ScanVulnDb (source ++ " json decode: " ++ gl_json_error lib bytes))
        end
    end.

(** Start of [run]: fresh statistics, and the first value of [max_modified]. *)
Definition begin_run (max_modified : Z) : Ing unit :=
  modify (fun w => mkIngestWorld (ig_net w) (ig_tables w) (ig_statements w) stats_zero max_modified).

(** The error branch of the loops: keep the progress, then fail. *)
Definition persist_and_fail {A} (source : str) (h : halt) : Ing A :=
  match h with
  | Failed e =>
      let! w := gets (fun w => w) in
      do! update_cursor source None (Some (ig_max_modified w)) (ig_stats w) (Some (scan_display e)) in
      throw (Failed e)
  | _ => throw h
  end.

Definition finish_run (source : str) : Ing IngestStats :=
  let! w := gets (fun w => w) in
  do! update_cursor source None (Some (ig_max_modified w)) (ig_stats w) None in
  ret (ig_stats w).

(** *** NVD *)

Context (nvd_send : NvdRequest -> M N str HttpResponse).

Definition nvd_url (cfg : NvdConfig) : str :=
  default ("https://services.nvd.nist.gov/rest/json/cves/2.0" : str) (nv_base_url cfg).

Definition nvd_fetch_page (cfg : NvdConfig) (start finish start_index : Z) : M N halt (Z * list NvdCve) :=
  let! resp := rethrow (fun e => Failed (ScanHttp e))
    (nvd_send (mkNvdRequest (nvd_url cfg)
       [("lastModStartDate" : str, gl_nvd_ts lib start); ("lastModEndDate" : str, gl_nvd_ts lib finish);
        ("resultsPerPage" : str, dec PAGE_SIZE); ("startIndex" : str, dec start_index)] (nv_api_key cfg))) in
  decode (nvd_url cfg) "nvd" (de_nvd_response lib) resp.

Definition nvd_item (cve : NvdCve) : Ing unit :=
  match normalise_nvd cve with
  | None => throw Panicked
  | Some None => set_stats one_skipped
  | Some (Some row) =>
      do! note_modified (vr_modified_at row) in
      counted (write_advisory_metadata_only row)
  end.

Fixpoint ingest_window (cfg : NvdConfig) (start finish start_index : Z) (fuel : nat) : Ing unit :=
  match fuel with
  | O => throw Unfinished
  | S fuel' =>
      let! (total_results, page) := from_net (nvd_fetch_page cfg start finish start_index) in
      do! for_each page nvd_item in
      let page_len := Z.of_nat (length page) in
      let next := start_index + page_len in
      if (page_len =? 0) || (total_results <=? next) then ret tt
      else ingest_window cfg start finish next fuel'
  end.

Definition window_end (cursor now : Z) : Z := Z.min (cursor + MAX_WINDOW_DAYS * day_ns) now.

Fixpoint nvd_windows (cfg : NvdConfig) (cursor now : Z) (pages fuel : nat) : Ing unit :=
  if cursor <? now then
    match fuel with
    | O => throw Unfinished
    | S fuel' =>
        fun w =>
          match ingest_window cfg cursor (window_end cursor now) 0 pages w with
          | (w', Ok _) => nvd_windows cfg (window_end cursor now) now pages fuel' w'
          | (w', Err h) => persist_and_fail "nvd" h w'
          end
    end
  else ret tt.

(** One step per window is enough. *)
Definition window_fuel (start now : Z) : nat := Z.to_nat ((now - start) / (MAX_WINDOW_DAYS * day_ns) + 1).

Definition nvd_run (cfg : NvdConfig) (now : Z) (pages : nat) : Ing IngestStats :=
  let! stored := stored_last_modified "nvd" in
  let start := match stored with
               | Some ts => ts
               | None => now - Z.max (nv_bootstrap_window_days cfg) 1 * day_ns
               end in
  do! begin_run start in
  do! nvd_windows cfg start now pages (window_fuel start now) in
  finish_run "nvd".

(** *** GitHub *)

Context `{HttpPost N}.

Definition dquote : str := [ascii_of_N 34].
Definition newline : str := [ascii_of_N 10].

Definition build_query (page_size : Z) (cursor : option str) (updated_since : option Z) : str :=
  let after := match cursor with Some c => ", after: " ++ dquote ++ c ++ dquote | None => [] end in
  let since := match updated_since with
               | Some t => ", updatedSince: " ++ dquote ++ gl_rfc3339 lib t ++ dquote
               | None => []
               end in
  join_with newline
    ["{";
     "  securityAdvisories(first: " ++ dec page_size ++ after ++ since
        ++ ", orderBy: {field: UPDATED_AT, direction: ASC}) {";
     "    nodes {"; "      ghsaId"; "      identifiers { type value }"; "      summary"; "      description";
     "      severity"; "      publishedAt"; "      updatedAt"; "      references { url }";
     "      cvss { score vectorString }"; "      vulnerabilities(first: 100) {"; "        nodes {";
     "          package { name ecosystem }"; "          vulnerableVersionRange";
     "          firstPatchedVersion { identifier }"; "        }"; "      }"; "    }";
     "    pageInfo { hasNextPage endCursor }"; "  }"; "}"].

Definition ghsa_endpoint (cfg : GhsaConfig) : str :=
  default ("https://api.github.com/graphql" : str) (gc_endpoint cfg).

Definition ghsa_fetch_page (cfg : GhsaConfig) (cursor : option str) (updated_since : option Z) : M N halt GhsaPage :=
  let query := build_query (default 100 (gc_page_size cfg)) cursor updated_since in
  let! resp := rethrow (fun e => Failed (ScanHttp e))
    (http_post (mkPostRequest (ghsa_endpoint cfg)
       [("user-agent" : str, "spectoncr-scanner" : str); ("authorization" : str, "Bearer " ++ gc_token cfg);
        ("content-type" : str, "application/json" : str)]
       (gl_to_string lib (JObject [("query" : str, JString query)])))) in
  let! (data, errors) := decode (ghsa_endpoint cfg) "ghsa" (de_graphql lib) resp in
  match errors, data with
  | Some (e :: errs), _ => failed (ScanVulnDb ("ghsa graphql errors: " ++ gl_debug lib (e :: errs)))
  | _, Some page => ret page
  | _, None => failed (ScanVulnDb "ghsa graphql response missing data")
  end.

Definition ghsa_item (node : GhsaNode) : Ing unit :=
  match normalise_ghsa node with
  | Some (vuln, ranges) =>
      do! note_modified (vr_modified_at vuln) in
      counted (write_advisory vuln ranges)
  | None => set_stats one_skipped
  end.

Fixpoint ghsa_pages (cfg : GhsaConfig) (cursor : option str) (updated_since : option Z) (fuel : nat) : Ing unit :=
  match fuel with
  | O => throw Unfinished
  | S fuel' =>
      fun w =>
        match from_net (ghsa_fetch_page cfg cursor updated_since) w with
        | (w', Err h) => persist_and_fail "ghsa" h w'
        | (w', Ok page) =>
            (do! for_each (gp_nodes page) ghsa_item in
             if negb (gp_has_next page) then ret tt
             else ghsa_pages cfg (gp_end_cursor page) updated_since fuel') w'
        end
  end.

(** [new] refuses a blank token. *)
Definition ghsa_new (cfg : GhsaConfig) : result GhsaConfig ScanError :=
  if negb (non_empty (trim (gc_token cfg))) then Err (ScanOther "GHSA ingester requires a GitHub token") else Ok cfg.

Definition ghsa_run (cfg : GhsaConfig) (now : Z) (pages : nat) : Ing IngestStats :=
  let! updated_since := stored_last_modified "ghsa" in
  do! begin_run (default (now - 3650 * day_ns) updated_since) in
  do! ghsa_pages cfg None updated_since pages in
  finish_run "ghsa".

(** *** OSV *)

Definition zip_entry (e : ZipEntry) : Ing unit :=
  match e with
  | BadEntry => set_stats one_error
  | Entry is_file name contents =>
      if negb is_file || negb (ends_with ".json" name) then ret tt
      else
        match contents with
        | None => set_stats one_error
        | Some buf =>
            match gl_parse lib buf ≫= de_osv_record lib with
            | None => set_stats one_error
            | Some rec =>
                match normalise rec with
                | None => set_stats one_skipped
                | Some (vuln, ranges) => counted (write_advisory vuln ranges)
                end
            end
        end
  end.

Definition ingest_from_zip (archive : result (list ZipEntry) str) : Ing IngestStats :=
  match archive with
  | Err e => failed (ScanOther ("osv zip open: " ++ e))
  | Ok entries =>
      do! begin_run 0 in
      do! for_each entries zip_entry in
      gets ig_stats
  end.

(** Errors of the cursor update are dropped. *)
Definition osv_download (turn : OsvTurn) (upstream_etag : option str) : Ing (result (list ZipEntry) str) :=
  let! archive := lift (map_err Failed (ot_download turn)) in
  do! match upstream_etag with
      | Some etag =>
          let! _ := attempt (F := halt) (update_cursor "osv" (Some etag) None stats_zero None) in ret tt
      | None => ret tt
      end in
  ret archive.

Definition osv_head (turn : OsvTurn) : Ing (option str) :=
  match ot_head turn with
  | Err e => failed (ScanHttp e)
  | Ok resp =>
      if (400 <=? rs_status resp) && (rs_status resp <? 600)
      then failed (ScanHttp (gl_status_error lib (rs_status resp) OSV_ZIP_URL))
      else ret (header_get "etag" (rs_headers resp))
  end.

Definition same_etag (upstream stored : option str) : bool :=
  match upstream, stored with
  | Some u, Some s => str_eqb u s
  | _, _ => false
  end.

Definition osv_run (turn : OsvTurn) : Ing IngestStats :=
  let! upstream_etag := osv_head turn in
  let! stored := stored_etag "osv" in
  if same_etag upstream_etag stored then
    do! update_cursor "osv" upstream_etag None stats_zero None in
    ret stats_zero
  else
    let! archive := osv_download turn upstream_etag in
    let! stats := ingest_from_zip archive in
    do! update_cursor "osv" upstream_etag None stats None in
    ret stats.

(** *** The scheduler

    One task per ingester: errors are logged and the task goes on; a panic ends
    it.  The result is the number of runs that were started. *)
Fixpoint scheduler (runs : list (Ing IngestStats)) (w : IngestWorld N) : IngestWorld N * nat :=
  match runs with
  | [] => (w, O)
  | r :: runs' =>
      match r w with
      | (w', Err Panicked) => (w', 1%nat)
      | (w', _) => let '(w'', n) := scheduler runs' w' in (w'', S n)
      end
  end.
End run.
