(* ===== verification/IngestTheorems.v ===== *)
(** * What the vulnerability feeds promise

    OSV ranges against the evaluation the OSV schema prescribes; an advisory
    from its rows to the findings of a scan; what the ingesters keep and what
    they lose; their loops. *)

From Stdlib Require Import SpecFloat.
From S2P Require Import Prelude Json Text Utf8 Orders Deb Rpm Apk Pep440 Matcher Cvss Effects Http Ingest.

Local Open Scope Z_scope.
Local Open Scope result_scope.

(** ** Ranges *)

(** The bounds of a row, as the query reads them. *)
Definition bounds_row (r : AffectedRangeRow) : QueryRow :=
  mkQueryRow [] [] None None None None JNull (ar_introduced r) (ar_fixed r) (ar_last_affected r).

Section osv.
Context (compare : Comparator) `{!LawfulCompare compare}.

(** [v >= bound] and [v > bound] of the OSV schema. *)
Definition at_least (v bound : str) : bool :=
  match compare v bound with
  | Ok Lt | Err _ => false
  | _ => true
  end.

Definition above (v bound : str) : bool :=
  match compare v bound with
  | Ok Gt => true
  | _ => false
  end.

(** One event of the evaluation algorithm of the OSV schema. *)
Definition osv_event (v : str) (vulnerable : bool) (ev : OsvEvent) : bool :=
  match ev_introduced ev, ev_fixed ev, ev_last_affected ev with
  | Some b, _, _ => if str_eqb b "0" || at_least v b then true else vulnerable
  | None, Some b, _ => if at_least v b then false else vulnerable
  | None, None, Some b => if above v b then false else vulnerable
  | None, None, None => vulnerable
  end.

Definition below (v bound : str) : bool :=
  match compare v bound with
  | Ok Lt => true
  | _ => false
  end.

(** [BeforeLimits] of the schema: no limit is like the limit [*], above
    everything. *)
Definition before_limits (v : str) (events : list OsvEvent) : bool :=
  match omap ev_limit events with
  | [] => true
  | limits => existsb (fun l => str_eqb l "*" || below v l) limits
  end.

Definition osv_affected (v : str) (events : list OsvEvent) : bool :=
  before_limits v events && foldl (osv_event v) false events.

(** A range as intervals, the last of which may be open, and limits. *)
Inductive closer : Type := ClosedBy (fixed : str) | LastAffected (last : str).

Definition closer_bound (c : closer) : str := match c with ClosedBy b | LastAffected b => b end.

Definition introduced_event (b : str) : OsvEvent := mkOsvEvent (Some b) None None None.

Definition closer_event (c : closer) : OsvEvent :=
  match c with
  | ClosedBy b => mkOsvEvent None (Some b) None None
  | LastAffected b => mkOsvEvent None None (Some b) None
  end.

Definition limit_event (l : str) : OsvEvent := mkOsvEvent None None None (Some l).

Definition events_of (ivs : list (str * closer)) (open : option str) (limits : list str) : list OsvEvent :=
  flat_map (fun iv => [introduced_event iv.1; closer_event iv.2]) ivs ++
  match open with Some b => [introduced_event b] | None => [] end ++ map limit_event limits.

(** A lower bound, with the sentinel below everything. *)
Definition lower_le (a b : str) : Prop := a = "0" \/ version_le compare a b.

(** The bounds in increasing order; an interval with a last affected version
    ends below the next one. *)
Fixpoint ordered (prev : option closer) (ivs : list (str * closer)) (open : option str) : Prop :=
  let after b := match prev with
                 | None => True
                 | Some (ClosedBy p) => b <> "0" /\ version_le compare p b
                 | Some (LastAffected p) => b <> "0" /\ version_lt compare p b
                 end in
  match ivs with
  | [] => match open with Some b => after b | None => True end
  | (b, c) :: ivs' => after b /\ lower_le b (closer_bound c) /\ ordered (Some c) ivs' open
  end.

(** Limits stand above closed intervals. *)
Definition limited (ivs : list (str * closer)) (open : option str) (limits : list str) : Prop :=
  limits <> [] -> open = None /\
  Forall (fun l => l = "*" \/ Forall (fun iv => match iv.2 with
                                              | ClosedBy b => version_le compare b l
                                              | LastAffected b => version_lt compare b l
                                              end) ivs) limits.

(** The installed version and every bound parse. *)
Definition comparable (v : str) (b : str) : Prop := exists c, compare v b = Ok c.

Definition all_comparable (v : str) (ivs : list (str * closer)) (open : option str) : Prop :=
  Forall (fun iv => (iv.1 <> "0" -> comparable v iv.1) /\ comparable v (closer_bound iv.2)) ivs /\
  forall b, open = Some b -> b <> "0" -> comparable v b.

Context (row : option str -> option str -> option str -> AffectedRangeRow).
Context (Hrow : forall i f l, ar_introduced (row i f l) = i /\ ar_fixed (row i f l) = f /\ ar_last_affected (row i f l) = l).

Definition row_of_interval (iv : str * closer) : AffectedRangeRow :=
  match iv.2 with
  | ClosedBy b => row (Some iv.1) (Some b) None
  | LastAffected b => row (Some iv.1) None (Some b)
  end.

Lemma walk_events_of ivs open limits :
  limited ivs open limits ->
  walk_events row None (events_of ivs open limits) =
  map row_of_interval ivs ++ match open with Some b => [row (Some b) None None] | None => [] end.
Proof.
  intros Hl. assert (Hopen : limits = [] \/ open = None) by (destruct limits; [by left|right; by apply Hl]). clear Hl.
  unfold events_of. induction ivs as [|[b c] ivs IH].
  - destruct Hopen as [-> | ->]; [by destruct open|]. cbn. by induction limits.
  - cbn [flat_map map app]. rewrite <- IH. by destruct c.
Qed.

Definition inside (v : str) (r : AffectedRangeRow) : bool := in_range compare v (bounds_row r).

(** Past the end of an interval, and inside one. *)
Definition past (v : str) (c : closer) : bool :=
  match c with
  | ClosedBy b => at_least v b
  | LastAffected b => above v b
  end.

Definition started (v b : str) : bool := str_eqb b "0" || at_least v b.

Lemma inside_interval v b c :
  (b <> "0" -> comparable v b) -> comparable v (closer_bound c) ->
  inside v (row_of_interval (b, c)) = started v b && negb (past v c).
Proof.
  intros Hb [x Hx]. unfold inside, in_range, below_introduced, at_or_above_fixed, above_last_affected, started, past.
  unfold row_of_interval, at_least, above in *. cbn [snd fst].
  destruct (str_eqb b "0") eqn:E0.
  - destruct c as [f|l]; cbn in Hx; unfold bounds_row; cbn [r_introduced r_fixed r_last_affected];
      destruct (Hrow (Some b) (Some f) None) as (H1 & H2 & H3) || destruct (Hrow (Some b) None (Some l)) as (H1 & H2 & H3);
      rewrite H1, H2, H3, E0; cbn; rewrite Hx; by destruct x.
  - destruct Hb as [y Hy]; [intros ->; by rewrite str_eqb_refl in E0|].
    destruct c as [f|l]; cbn in Hx; unfold bounds_row; cbn [r_introduced r_fixed r_last_affected];
      destruct (Hrow (Some b) (Some f) None) as (H1 & H2 & H3) || destruct (Hrow (Some b) None (Some l)) as (H1 & H2 & H3);
      rewrite H1, H2, H3, E0; cbn; rewrite Hx, Hy; by destruct x, y.
Qed.

Lemma inside_open v b : (b <> "0" -> comparable v b) -> inside v (row (Some b) None None) = started v b.
Proof.
  intros Hb. unfold inside, in_range, below_introduced, at_or_above_fixed, above_last_affected, started, at_least, bounds_row.
  cbn [r_introduced r_fixed r_last_affected]. destruct (Hrow (Some b) None None) as (-> & -> & ->).
  destruct (str_eqb b "0") eqn:E0; [done|].
  destruct Hb as [y Hy]; [intros ->; by rewrite str_eqb_refl in E0|]. cbn. rewrite Hy. by destruct y.
Qed.

Lemma lt_le_version a b c : version_lt compare a b -> version_le compare b c -> version_lt compare a c.
Proof.
  intros Hab Hbc. destruct (compare_ok_inv compare a b Lt Hab) as (va & vb & Ha & Hb & _).
  destruct (version_le_inv compare b c Hbc) as (vb' & vc & Hb' & Hc & _).
  pose proof (compare_ok compare a c va vc Ha Hc) as Hac. unfold version_lt.
  destruct (compare a c) as [[]|] eqn:E; try done;
    (assert (version_le compare c a) as Hca by (apply (proj2 (version_le_ge compare c a)); auto);
     pose proof (version_le_trans compare b c a Hbc Hca) as Hba; apply (proj1 (version_le_ge compare b a)) in Hba;
     unfold version_lt in Hab; rewrite Hab in Hba; destruct Hba; done).
Qed.

(** Before the end of an interval is before the start of the next one. *)
Lemma before_next v c b :
  comparable v (closer_bound c) -> past v c = false ->
  match c with ClosedBy p => version_le compare p b | LastAffected p => version_lt compare p b end ->
  version_lt compare v b.
Proof.
  intros [x Hx] Hp Ho. unfold past, at_least, above in Hp. destruct c as [p|p]; cbn in Hx; rewrite Hx in Hp.
  - destruct x; try done. by eapply lt_le_version.
  - apply (version_le_lt_trans compare v p b); [|done]. unfold version_le. rewrite Hx. destruct x; auto; done.
Qed.

Lemma before_start v b : version_lt compare v b -> b <> "0" -> started v b = false.
Proof.
  intros Hv Hb. unfold started, at_least. unfold version_lt in Hv. rewrite Hv.
  by destruct (str_eqb_spec b "0").
Qed.

Lemma before_end v b c : version_lt compare v b -> version_le compare b (closer_bound c) -> past v c = false.
Proof.
  intros Hv Hbc. pose proof (lt_le_version v b _ Hv Hbc) as H. unfold version_lt in H.
  unfold past, at_least, above. destruct c; cbn in H; by rewrite H.
Qed.

Definition rows_of (ivs : list (str * closer)) (open : option str) : list AffectedRangeRow :=
  map row_of_interval ivs ++ match open with Some b => [row (Some b) None None] | None => [] end.

Lemma events_exact v ivs open prev vulnerable :
  ordered prev ivs open -> all_comparable v ivs open ->
  (vulnerable = true -> exists c, prev = Some c /\ comparable v (closer_bound c) /\ past v c = false) ->
  foldl (osv_event v) vulnerable (events_of ivs open []) = vulnerable || existsb (inside v) (rows_of ivs open).
Proof.
  revert prev vulnerable. induction ivs as [|[b c] ivs IH]; intros prev vul Ho [Hc Hopen] Hv.
  - destruct open as [b|]; cbn; [|by destruct vul].
    rewrite inside_open by (by apply Hopen). unfold osv_event. cbn. fold (started v b).
    by destruct (started v b), vul.
  - cbn [ordered] in Ho. destruct Ho as (Ha & Hbc & Ho). apply Forall_cons_1 in Hc as [[Hb1 Hc1] Hc2].
    cbn [fst snd] in Hb1, Hc1. unfold events_of, rows_of. cbn [flat_map map app foldl existsb fst snd].
    fold (events_of ivs open []). fold (rows_of ivs open). rewrite inside_interval by done.
    assert (Hstep : osv_event v (osv_event v vul (introduced_event b)) (closer_event c) =
                    if past v c then false else started v b || vul).
    { unfold osv_event, introduced_event, closer_event, past. cbn. fold (started v b).
      destruct c; cbn; by destruct (started v b). }
    rewrite Hstep, (IH (Some c)); [|done|done|].
    2:{ intros H. exists c. split; [done|]. split; [done|]. by destruct (past v c). }
    destruct vul; [|by destruct (started v b), (past v c)].
    destruct (Hv eq_refl) as (p & -> & Hp & Hpast).
    assert (Hlt : b <> "0" /\ version_lt compare v b).
    { destruct p as [q|q]; destruct Ha as [Hne Ha]; (split; [done|]);
        [apply (before_next v (ClosedBy q))|apply (before_next v (LastAffected q))]; done. }
    destruct Hlt as [Hne Hlt]. destruct Hbc as [?|Hbc]; [done|].
    rewrite (before_start v b), (before_end v b c) by done. done.
Qed.

Lemma limits_ignored v ivs open limits :
  foldl (osv_event v) false (events_of ivs open limits) = foldl (osv_event v) false (events_of ivs open []).
Proof.
  unfold events_of. rewrite !foldl_app. cbn. generalize (foldl (osv_event v)
    (foldl (osv_event v) false (flat_map (fun iv => [introduced_event iv.1; closer_event iv.2]) ivs))
    match open with Some b => [introduced_event b] | None => [] end).
  induction limits as [|l limits IH]; intros b; [done|]. apply IH.
Qed.

Lemma limits_of ivs open limits : omap ev_limit (events_of ivs open limits) = limits.
Proof.
  unfold events_of. rewrite !omap_app.
  assert (omap ev_limit (flat_map (fun iv => [introduced_event iv.1; closer_event iv.2]) ivs) = []) as ->.
  { induction ivs as [|[b c] ivs IH]; [done|]. cbn. rewrite IH. by destruct c. }
  assert (omap ev_limit match open with Some b => [introduced_event b] | None => [] end = []) as -> by (by destruct open).
  cbn. induction limits as [|l limits IH]; [done|]. cbn. by rewrite IH.
Qed.

(** What is in an interval is below the limits. *)
Lemma inside_below_limits v ivs open limits :
  limited ivs open limits -> all_comparable v ivs open -> existsb (inside v) (rows_of ivs open) = true ->
  before_limits v (events_of ivs open limits) = true.
Proof.
  intros Hl [Hc _] Hin. unfold before_limits. rewrite limits_of. destruct limits as [|l limits]; [done|].
  destruct (Hl ltac:(done)) as [-> Hlim]. apply Forall_cons_1 in Hlim as [[->|Hlim] _]; [done|].
  unfold rows_of in Hin. rewrite app_nil_r in Hin. apply existsb_exists in Hin as (r & Hr & Hin).
  apply in_map_iff in Hr as ([b c] & <- & Hiv%list_elem_of_In). rewrite Forall_forall in Hc, Hlim.
  destruct (Hc _ Hiv) as [Hb Hcb]. cbn in Hb, Hcb. rewrite inside_interval in Hin by done.
  apply andb_prop in Hin as [_ Hp%negb_true_iff]. cbn [existsb]. unfold below at 1.
  pose proof (before_next v c l Hcb Hp (Hlim _ Hiv)) as Hlt. unfold version_lt in Hlt. rewrite Hlt.
  by rewrite orb_true_r.
Qed.
End osv.

(** C37: The rows made from an OSV range select exactly the versions that the
    evaluation algorithm of the OSV schema, its limits included, calls affected,
    for a range of this shape: its events are pairs of an [introduced] and a
    [fixed] or [last_affected] event, an [introduced] event may follow, and
    [limit] events may follow if none does; the bounds are in increasing order,
    each pair beginning above the last affected version of the one before and
    the limits above all of them; and the installed version can be compared with
    the bounds. *)
Theorem osv_range_exact (compare : Comparator) (Hcompare : LawfulCompare compare) (v ecosystem package : str)
    (purl : option str) (ivs : list (str * closer)) (open : option str) (limits : list str) (events : list OsvEvent)
    (Hshape : events = flat_map (fun iv => [introduced_event iv.1; closer_event iv.2]) ivs ++
       match open with Some b => [introduced_event b] | None => [] end ++ map limit_event limits)
    (Hordered : ordered compare None ivs open) (Hlimits : limited compare ivs open limits)
    (Hcomparable : all_comparable compare v ivs open) :
  let row i f l := mkAffectedRangeRow ecosystem package i f l purl in
  existsb (fun r => in_range compare v (bounds_row r)) (walk_events row None events) =
  osv_affected compare v events.
Proof.
  cbv zeta. fold (events_of ivs open limits) in Hshape. subst events. unfold osv_affected.
  set (row := fun i f l => mkAffectedRangeRow ecosystem package i f l purl).
  assert (Hrow : forall i f l, ar_introduced (row i f l) = i /\ ar_fixed (row i f l) = f /\ ar_last_affected (row i f l) = l)
    by done.
  rewrite (walk_events_of compare row ivs open limits Hlimits), limits_ignored.
  rewrite (events_exact compare row Hrow v ivs open None false) by done. cbn [orb].
  destruct (existsb (inside compare v) (rows_of row ivs open)) eqn:Hin; [|by rewrite andb_false_r].
  by rewrite (inside_below_limits compare row Hrow v ivs open limits Hlimits Hcomparable Hin).
Qed.

Lemma osv_range_exact_witness :
  let ivs := [("0" : str, ClosedBy "1.2"); ("2.0" : str, LastAffected "2.4")] in
  let events := events_of ivs None ["3.0" : str] in
  osv_affected Deb.compare "2.1" events = true /\
  existsb (fun r => in_range Deb.compare "2.1" (bounds_row r))
    (walk_events (fun i f l => mkAffectedRangeRow "deb" "openssl" i f l None) None events) = true.
Proof.
  intros ivs events. split; [by vm_compute|].
  rewrite (osv_range_exact Deb.compare deb_lawful "2.1" "deb" "openssl" None ivs None ["3.0" : str] events eq_refl);
    [by vm_compute| | |].
  - cbn. repeat split; try done; [by left|left; by vm_compute|right; left; by vm_compute].
  - intros _. split; [done|]. apply Forall_singleton. right. repeat constructor; by vm_compute.
  - split; [|done]. repeat constructor; cbn; try done; intros; eexists; by vm_compute.
Defined.

(** Other shapes: a limit on an open range makes its rows disappear, so that
    affected versions are not reported; of two [introduced] events in a row the
    first is forgotten; and a second [fixed] event makes a row without a lower
    bound, which reports versions from before the range. *)
Theorem osv_shapes_diverge :
  let reported v events := existsb (fun r => in_range Deb.compare v (bounds_row r))
    (walk_events (fun i f l => mkAffectedRangeRow "deb" "openssl" i f l None) None events) in
  let differs v events expected := osv_affected Deb.compare v events = expected /\ reported v events = negb expected in
  differs "2" [introduced_event "1"; limit_event "3"] true /\
  differs "1.5" [introduced_event "1"; introduced_event "2"; closer_event (ClosedBy "3")] true /\
  differs "0.5" [introduced_event "1"; closer_event (ClosedBy "2"); closer_event (ClosedBy "3")] false.
Proof. by vm_compute. Qed.

(** Versions that are listed one by one become upper bounds: everything at or
    below one of them is reported, not the listed versions alone. *)
Theorem listed_versions_widen (compare : Comparator) (Hcompare : LawfulCompare compare) (a : OsvAffected)
    (v ecosystem : str) (Heco : map_ecosystem (op_ecosystem (oa_package a)) = Some ecosystem)
    (Hname : op_name (oa_package a) <> []) (Hranges : oa_ranges a = []) :
  existsb (fun r => in_range compare v (bounds_row r)) (decompose a) = true <->
  exists u, u ∈ oa_versions a /\ version_le compare v u.
Proof.
  unfold decompose. rewrite Heco, Hranges.
  assert (negb (non_empty (op_name (oa_package a))) = false) as -> by (by destruct (op_name (oa_package a))).
  cbn [flat_map]. destruct (oa_versions a) as [|u us] eqn:Hv.
  { cbn. split; [done|]. intros (u & Hu & _). by apply not_elem_of_nil in Hu. }
  rewrite existsb_exists. setoid_rewrite in_map_iff. split.
  - intros (r & (u' & <- & Hu') & Hr). exists u'. split; [by apply list_elem_of_In|].
    apply in_range_iff in Hr as (_ & _ & H); [|done]. by apply H.
  - intros (u' & Hu' & Hle). eexists. split; [exists u'; split; [done|by apply list_elem_of_In]|].
    apply in_range_iff; [done|]. repeat split; cbn; try done. by intros ? [= <-].
Qed.

(** ** From an advisory to the findings of a scan *)

Lemma severity_round_trip s : parse_severity (Some (severity_str s)) = s.
Proof. by destruct s. Qed.

Lemma refs_round_trip l : extract_refs (JArray (map JString l)) = l.
Proof. induction l as [|x l IH]; [done|]. cbn in *. by f_equal. Qed.

(** The rows of an advisory after it was written. *)
Lemma written_rows v ranges t r :
  (vr_id v, r) ∈ affected_ranges (put_advisory v ranges t) <-> r ∈ ranges.
Proof.
  cbn. rewrite elem_of_app. split.
  - intros [H|H].
    + apply list_elem_of_In, filter_In in H as [_ H]. cbn in H. by rewrite str_eqb_refl in H.
    + apply list_elem_of_In, in_map_iff in H as (r' & [= <-] & H). by apply list_elem_of_In.
  - intros H. right. apply list_elem_of_In, in_map_iff. exists r. split; [done|]. by apply list_elem_of_In.
Qed.

(** The rows of other advisories are as they were. *)
Lemma other_rows v ranges t r :
  r.1 <> vr_id v ->
  (r ∈ affected_ranges (put_advisory v ranges t) <-> r ∈ affected_ranges t) /\
  join_row (put_advisory v ranges t) r = join_row t r.
Proof.
  intros Hne. split; [|unfold join_row; cbn; by rewrite lookup_insert_ne by done].
  cbn. rewrite elem_of_app, !list_elem_of_In, filter_In, in_map_iff. split.
  - intros [[? _]|(r' & <- & _)]; [done|]. by cbn in Hne.
  - intros Hr. left. split; [done|]. destruct (str_eqb_spec r.1 (vr_id v)); [congruence|done].
Qed.

Lemma join_rows_elem t ecosystem package q :
  q ∈ join_rows t ecosystem package <->
  exists r, r ∈ affected_ranges t /\ of_package ecosystem package r = true /\ join_row t r = Some q.
Proof.
  unfold join_rows. rewrite list_elem_of_omap. split; intros (r & H & Hq); exists r.
  - apply list_elem_of_In, filter_In in H as [H ?]. split; [by apply list_elem_of_In|done].
  - destruct Hq as [Hp Hq]. split; [|done]. apply list_elem_of_In, filter_In. split; [by apply list_elem_of_In|done].
Qed.

Lemma join_row_id t r q : join_row t r = Some q -> r_id q = r.1.
Proof. unfold join_row. destruct (vulnerabilities t !! r.1); [|done]. by intros [= <-]. Qed.

Lemma in_range_bounds compare v t r q :
  join_row t r = Some q -> in_range compare v q = in_range compare v (bounds_row r.2).
Proof. unfold join_row. destruct (vulnerabilities t !! r.1); [|done]. by intros [= <-]. Qed.

(** A finding but for the version that fixes it, which is that of the first row
    the database answers with. *)
Definition but_fix (f : Vulnerability) : Vulnerability :=
  mkVulnerability (v_id f) (v_aliases f) (v_package f) (v_ecosystem f) (v_installed_version f) None (v_severity f)
    (v_cvss_score f) (v_summary f) (v_description f) (v_layer_digest f) (v_references f) (v_suppressed f).

(** The finding of a package that is in the range [r] of the advisory [v]. *)
Definition reported (v : VulnerabilityRow) (pkg : Package) (r : AffectedRangeRow) : Vulnerability :=
  mkVulnerability (vr_id v) (vr_aliases v) (p_name pkg) (p_ecosystem pkg) (p_version pkg) (ar_fixed r) (vr_severity v)
    (f64_bits <$> vr_cvss_score v) (vr_summary v) (vr_description v) (p_layer_digest pkg) (vr_references v) false.

Lemma join_written v ranges t r q :
  r.1 = vr_id v -> join_row (put_advisory v ranges t) r = Some q -> forall pkg, finding pkg q = reported v pkg r.2.
Proof.
  intros Hr. unfold join_row. cbn. rewrite Hr, lookup_insert_eq. intros [= <-] pkg.
  unfold finding, reported. cbn [r_severity r_refs r_id r_aliases r_fixed r_cvss_score r_summary r_description vc_severity
    vc_refs vc_aliases vc_cvss_score vc_summary vc_description cols_of].
  by rewrite severity_round_trip, refs_round_trip.
Qed.

Lemma join_same_id t r r' q q' :
  join_row t r = Some q -> join_row t r' = Some q' -> r.1 = r'.1 ->
  forall pkg, but_fix (finding pkg q) = but_fix (finding pkg q').
Proof.
  unfold join_row. intros Hq Hq' He. rewrite <- He in Hq'. destruct (vulnerabilities t !! r.1); [|done].
  injection Hq as <-. injection Hq' as <-. done.
Qed.

Section scan.
Context {V : Type} (semver_parse : str -> result V str) (semver_cmp : V -> V -> comparison).

(** A scan of packages against a database that answers with [rows]. *)
Definition scanned (rows : str -> str -> list QueryRow) (packages : list Package) : result (list Vulnerability) str :=
  query semver_parse semver_cmp (fun e n => Ok (rows e n)) packages.

(** The rows of the tables, in any order. *)
Definition answers (t : VulnTables) (rows : str -> str -> list QueryRow) : Prop :=
  forall e n, Permutation (rows e n) (join_rows t e n).

Definition comparator_of (pkg : Package) : option Comparator := for_ecosystem semver_parse semver_cmp (p_ecosystem pkg).

Lemma scanned_in rows packages :
  exists out, scanned rows packages = Ok out /\ forall f, f ∈ out <->
    exists pkg cmp, pkg ∈ packages /\ comparator_of pkg = Some cmp /\
      f ∈ query_rows cmp pkg ∅ (rows (p_ecosystem pkg) (p_name pkg)).
Proof.
  unfold scanned. induction packages as [|pkg packages (out & IH & Hin)].
  { exists []. split; [done|]. intros f. rewrite elem_of_nil. split; [done|]. by intros (? & ? & ?%elem_of_nil & _). }
  cbn. rewrite IH. fold (comparator_of pkg). destruct (comparator_of pkg) as [cmp|] eqn:Hc; cbn; eexists; (split; [done|]); intros f.
  - rewrite elem_of_app, Hin. split.
    + intros [Hf|(p & c & Hp & Hc' & Hf)]; [exists pkg, cmp|exists p, c]; rewrite elem_of_cons; auto.
    + intros (p & c & [->|Hp]%elem_of_cons & Hc' & Hf); [left; congruence|right; eauto].
  - rewrite Hin. split; intros (p & c & Hp & Hc' & Hf); exists p, c; rewrite ?elem_of_cons in *; [auto|].
    destruct Hp as [->|Hp]; [congruence|auto].
Qed.

(** What the tables have to do with a finding. *)
Lemma row_found t rows pkg cmp f :
  answers t rows -> f ∈ query_rows cmp pkg ∅ (rows (p_ecosystem pkg) (p_name pkg)) ->
  exists r q, r ∈ affected_ranges t /\ of_package (p_ecosystem pkg) (p_name pkg) r = true /\ join_row t r = Some q /\
    in_range cmp (p_version pkg) (bounds_row r.2) = true /\ f = finding pkg q /\ v_id f = r.1.
Proof.
  intros Ha (q & Hq & Hin & -> & _)%query_rows_in. rewrite (Ha _ _) in Hq.
  apply join_rows_elem in Hq as (r & Hr & Hp & Hq). exists r, q. rewrite <- (in_range_bounds _ _ _ _ _ Hq).
  split_and!; try done. by apply join_row_id in Hq.
Qed.

Lemma found_row t rows pkg cmp r q :
  answers t rows -> r ∈ affected_ranges t -> of_package (p_ecosystem pkg) (p_name pkg) r = true ->
  join_row t r = Some q -> in_range cmp (p_version pkg) (bounds_row r.2) = true ->
  exists f, f ∈ query_rows cmp pkg ∅ (rows (p_ecosystem pkg) (p_name pkg)) /\ v_id f = r.1.
Proof.
  intros Ha Hr Hp Hq Hin. rewrite <- (join_row_id _ _ _ Hq).
  edestruct (query_rows_complete cmp pkg ∅ (rows (p_ecosystem pkg) (p_name pkg)) q) as [H|H].
  - rewrite (Ha _ _). apply join_rows_elem. by exists r.
  - by rewrite (in_range_bounds _ _ _ _ _ Hq).
  - by apply elem_of_empty in H.
  - apply list_elem_of_fmap in H as (f & -> & Hf). eauto.
Qed.

(** Two tables that agree on an advisory report it alike. *)
Lemma found_alike t1 t2 rows1 rows2 pkg cmp f :
  answers t1 rows1 -> answers t2 rows2 -> f ∈ query_rows cmp pkg ∅ (rows1 (p_ecosystem pkg) (p_name pkg)) ->
  (forall r, r.1 = v_id f -> (r ∈ affected_ranges t1 <-> r ∈ affected_ranges t2) /\ join_row t1 r = join_row t2 r) ->
  exists g, g ∈ query_rows cmp pkg ∅ (rows2 (p_ecosystem pkg) (p_name pkg)) /\ but_fix g = but_fix f.
Proof.
  intros H1 H2 Hf Hsame. destruct (row_found _ _ _ _ _ H1 Hf) as (r & q & Hr & Hp & Hq & Hin & Hfq & Hid).
  destruct (Hsame r (eq_sym Hid)) as [Hr2 Hq2]. rewrite Hq2 in Hq.
  destruct (found_row t2 rows2 pkg cmp r q H2 (proj1 Hr2 Hr) Hp Hq Hin) as (g & Hg & Hgid).
  exists g. split; [done|]. destruct (row_found _ _ _ _ _ H2 Hg) as (r' & q' & _ & _ & Hq' & _ & -> & Hgid').
  rewrite Hfq. apply (join_same_id t2 r' r); [done..|congruence].
Qed.

Definition other (id : str) (f : Vulnerability) : bool := negb (str_eqb (v_id f) id).
Definition other_row (id : str) (q : QueryRow) : bool := negb (str_eqb (r_id q) id).

Lemma query_rows_other id cmp pkg seen seen' rows :
  (forall x, x <> id -> x ∈ seen <-> x ∈ seen') ->
  List.filter (other id) (query_rows cmp pkg seen rows) = query_rows cmp pkg seen' (List.filter (other_row id) rows).
Proof.
  revert seen seen'. induction rows as [|q rows IH]; intros seen seen' Hs; [done|]. cbn [query_rows List.filter].
  unfold other_row at 1. destruct (str_eqb_spec (r_id q) id) as [He|Hne]; cbn [negb].
  - destruct (in_range cmp (p_version pkg) q); cbn [negb]; [|by apply IH]. case_bool_decide; [by apply IH|].
    cbn [List.filter]. unfold other at 1. cbn [v_id finding]. rewrite He, str_eqb_refl. cbn [negb]. apply IH.
    intros x Hx. rewrite <- Hs by done. set_solver.
  - cbn [query_rows]. destruct (in_range cmp (p_version pkg) q); cbn [negb]; [|by apply IH].
    rewrite (bool_decide_ext _ _ (Hs _ Hne)). case_bool_decide; [by apply IH|]. cbn [List.filter]. unfold other at 1.
    cbn [v_id finding]. destruct (str_eqb_spec (r_id q) id); [done|]. cbn [negb]. f_equal. apply IH.
    intros x Hx. rewrite !elem_of_union, Hs by done. done.
Qed.

Lemma scanned_other id rows rows' packages before found :
  (forall e n, List.filter (other_row id) (rows' e n) = List.filter (other_row id) (rows e n)) ->
  scanned rows packages = Ok before -> scanned rows' packages = Ok found ->
  List.filter (other id) found = List.filter (other id) before.
Proof.
  intros Hrows. unfold scanned. revert before found. induction packages as [|pkg packages IH]; intros before found; cbn.
  { by intros [= <-] [= <-]. }
  destruct (for_ecosystem _ _ (p_ecosystem pkg)) as [cmp|]; [|apply IH]. cbn.
  destruct (query _ _ (fun e n => Ok (rows e n)) packages) as [b|]; [|done].
  destruct (query _ _ (fun e n => Ok (rows' e n)) packages) as [f|]; [|done]. intros [= <-] [= <-].
  rewrite !List.filter_app, !(query_rows_other id cmp pkg ∅ ∅) by done. rewrite Hrows. f_equal. by apply IH.
Qed.
End scan.

(** C36: An advisory that was written is reported by a scan for exactly the packages
    of an ecosystem that has a comparator that one of its ranges names and whose
    version the range contains; the finding carries the severity, score,
    aliases, summary, description and references it was written with.  The other
    advisories are reported as before, and but for the fixed version, which is
    that of the first row in range, with the same fields, in whatever order the
    database answers; if it answers with their rows in the same order, their
    findings are the same and in the same order. *)
Theorem advisory_reported {V : Type} (semver_parse : str -> result V str) (semver_cmp : V -> V -> comparison)
    (v : VulnerabilityRow) (ranges : list AffectedRangeRow) (t : VulnTables) (packages : list Package)
    (rows rows' : str -> str -> list QueryRow)
    (Hbefore : answers t rows) (Hafter : answers (put_advisory v ranges t) rows') :
  let affected pkg r := exists cmp, pkg ∈ packages /\ comparator_of semver_parse semver_cmp pkg = Some cmp /\
    r ∈ ranges /\ ar_ecosystem r = p_ecosystem pkg /\ ar_package r = p_name pkg /\
    in_range cmp (p_version pkg) (bounds_row r) = true in
  exists before found,
    scanned semver_parse semver_cmp rows packages = Ok before /\
    scanned semver_parse semver_cmp rows' packages = Ok found /\
    (forall f, f ∈ found -> v_id f = vr_id v -> exists pkg r, affected pkg r /\ f = reported v pkg r) /\
    (forall pkg r, affected pkg r -> exists r', affected pkg r' /\ reported v pkg r' ∈ found) /\
    (forall g, v_id g <> vr_id v -> g ∈ but_fix <$> found <-> g ∈ but_fix <$> before) /\
    ((forall e n, List.filter (other_row (vr_id v)) (rows' e n) = List.filter (other_row (vr_id v)) (rows e n)) ->
     List.filter (other (vr_id v)) found = List.filter (other (vr_id v)) before).
Proof.
  intros affected. destruct (scanned_in semver_parse semver_cmp rows packages) as (before & Hb & Hbin).
  destruct (scanned_in semver_parse semver_cmp rows' packages) as (found & Hf & Hfin).
  exists before, found. split; [done|]. split; [done|].
  assert (Hown : forall pkg cmp f, pkg ∈ packages -> comparator_of semver_parse semver_cmp pkg = Some cmp ->
    f ∈ query_rows cmp pkg ∅ (rows' (p_ecosystem pkg) (p_name pkg)) -> v_id f = vr_id v ->
    exists r, affected pkg r /\ f = reported v pkg r).
  { intros pkg cmp f Hpkg Hc Hq Hid.
    destruct (row_found _ _ _ _ _ Hafter Hq) as ([id r] & q & Hr & Hp & Hj & Hin & -> & Hid').
    cbn in Hid, Hid'. assert (id = vr_id v) as -> by congruence. exists r. split; [|by apply (join_written v ranges t (vr_id v, r) q eq_refl Hj)].
    apply written_rows in Hr. apply andb_prop in Hp as [He%str_eqb_true Hn%str_eqb_true]. by exists cmp. }
  split; [|split; [|split]].
  - intros f (pkg & cmp & Hpkg & Hc & Hq)%Hfin Hid. exists pkg. by eapply Hown.
  - intros pkg r (cmp & Hpkg & Hc & Hr & He & Hn & Hin).
    assert (Hj : is_Some (join_row (put_advisory v ranges t) (vr_id v, r)))
      by (unfold join_row; cbn; by rewrite lookup_insert_eq).
    destruct Hj as [q Hj]. apply (written_rows v ranges t) in Hr.
    assert (Hp : of_package (p_ecosystem pkg) (p_name pkg) (vr_id v, r) = true)
      by (unfold of_package; cbn [snd]; by rewrite He, Hn, !str_eqb_refl).
    destruct (found_row _ _ pkg cmp _ _ Hafter Hr Hp Hj Hin) as (f & Hq & Hid).
    destruct (Hown pkg cmp f Hpkg Hc Hq Hid) as (r' & Ha & ->). exists r'. split; [done|]. apply Hfin. eauto.
  - assert (Hsame : forall x r, x <> vr_id v -> r.1 = x ->
      (r ∈ affected_ranges (put_advisory v ranges t) <-> r ∈ affected_ranges t) /\
      join_row (put_advisory v ranges t) r = join_row t r) by (intros x r Hx <-; by apply other_rows).
    intros g Hg. split; intros (f & -> & Hin)%list_elem_of_fmap.
    + apply Hfin in Hin as (pkg & cmp & Hpkg & Hc & Hq). destruct (found_alike _ _ _ _ _ _ _ Hafter Hbefore Hq (fun r => Hsame _ r Hg)) as (f' & Hq' & <-).
      apply list_elem_of_fmap_2, Hbin. eauto.
    + apply Hbin in Hin as (pkg & cmp & Hpkg & Hc & Hq). destruct (found_alike _ _ _ _ _ _ _ Hbefore Hafter Hq) as (f' & Hq' & <-).
      { intros r Hr. destruct (Hsame _ r Hg Hr) as [H1 H2]. by rewrite H1, H2. }
      apply list_elem_of_fmap_2, Hfin. eauto.
  - intros Hrows. by eapply scanned_other.
Qed.

(** One package, no row before, the advisory's row after. *)
Lemma advisory_reported_witness :
  let v := mkVulnerabilityRow "CVE-1" "osv" None None High None None None [] [] in
  let r := mkAffectedRangeRow "deb" "openssl" (Some ("0" : str)) (Some ("3.0" : str)) None None in
  let pkg := mkPackage "openssl" "2.1" "deb" "pkg:deb/openssl" None in
  let t' := put_advisory v [r] (mkVulnTables ∅ [] ∅) in
  exists found, scanned (V := unit) (fun _ => Err "none") (fun _ _ => Eq) (join_rows t') [pkg] = Ok found /\
    reported v pkg r ∈ found.
Proof.
  intros v r pkg t'.
  destruct (advisory_reported (V := unit) (fun _ => Err "none") (fun _ _ => Eq) v [r] (mkVulnTables ∅ [] ∅) [pkg]
              (fun _ _ => []) (join_rows t')) as (before & found & _ & Hf & _ & Hc & _).
  - intros e n. reflexivity.
  - intros e n. reflexivity.
  - exists found. split; [exact Hf|]. destruct (Hc pkg r) as (r' & (_ & _ & _ & Hr & _) & Hin).
    + exists Deb.compare. split; [by left|]. split; [reflexivity|]. split; [by left|]. split; [reflexivity|].
      split; [reflexivity|]. vm_compute. reflexivity.
    + apply list_elem_of_singleton in Hr. subst r'. exact Hin.
Defined.

(** ** One identifier, two feeds *)

Lemma ghsa_row_ecosystem node r :
  vuln_node_to_range node = Some r ->
  In (ar_ecosystem r) ["npm"; "pypi"; "cargo"; "go"; "maven"].
Proof.
  unfold vuln_node_to_range. destruct (ghsa_ecosystem_to_ours (gv_ecosystem node)) as [e|] eqn:He; [|done].
  destruct (parse_range (gv_range node) (gv_first_patched node)) as [[i f] l]. intros [= <-]. cbn [ar_ecosystem].
  unfold ghsa_ecosystem_to_ours in He.
  repeat (destruct (str_eqb (to_ascii_uppercase (gv_ecosystem node)) _); [injection He as <-; cbn; tauto|]). done.
Qed.

Lemma normalise_ghsa_ecosystems node v ranges :
  normalise_ghsa node = Some (v, ranges) ->
  Forall (fun r => In (ar_ecosystem r) ["npm"; "pypi"; "cargo"; "go"; "maven"]) ranges.
Proof.
  unfold normalise_ghsa. destruct (omap vuln_node_to_range (gn_vulnerabilities node)) as [|r rs] eqn:Hr; [done|].
  intros [= _ <-]. rewrite <- Hr. apply Forall_forall. intros x Hx.
  apply list_elem_of_omap in Hx as (n & _ & Hn). by eapply ghsa_row_ecosystem.
Qed.

(** The GitHub advisory of a CVE replaces all ranges stored under the CVE's
    identifier, those of distribution packages included: whatever ranges were
    there, the CVE is not reported for such a package afterwards. *)
Theorem ghsa_drops_distribution_ranges (cmp : Comparator) (node : GhsaNode) (v : VulnerabilityRow)
    (ranges : list AffectedRangeRow) (t : VulnTables) (pkg : Package)
    (Hnode : normalise_ghsa node = Some (v, ranges))
    (Hpkg : In (p_ecosystem pkg) ["deb"; "rpm"; "apk"]) :
  vr_id v ∉ v_id <$> query_rows cmp pkg ∅ (join_rows (put_advisory v ranges t) (p_ecosystem pkg) (p_name pkg)).
Proof.
  intros (f & Hid & Hf)%list_elem_of_fmap.
  apply (row_found (put_advisory v ranges t) _ pkg cmp f (fun e n => Permutation_refl _)) in Hf
    as ([id r] & q & Hr & Hp & _ & _ & _ & Hid').
  cbn in Hid'. assert (id = vr_id v) as -> by congruence. apply written_rows in Hr.
  apply normalise_ghsa_ecosystems in Hnode. rewrite Forall_forall in Hnode. specialize (Hnode _ Hr).
  unfold of_package in Hp. cbn [snd] in Hp. apply andb_prop in Hp as [He%str_eqb_true _]. rewrite <- He in Hpkg.
  cbn [In] in Hpkg, Hnode. repeat destruct Hpkg as [Hpkg|Hpkg]; try done; rewrite <- Hpkg in Hnode;
    repeat destruct Hnode as [Hnode|Hnode]; done.
Qed.

(** NVD rows carry no aliases, and the metadata statement stores those of the
    new row: the aliases another feed had stored are gone. *)
Theorem nvd_drops_aliases (cve : NvdCve) (row : VulnerabilityRow) (t : VulnTables)
    (Hrow : normalise_nvd cve = Some (Some row)) :
  exists c, vulnerabilities (put_metadata row t) !! nc_id cve = Some c /\ vc_aliases c = [].
Proof.
  unfold normalise_nvd in Hrow. destruct (starts_with "CVE-" (nc_id cve)); [|done]. cbn [negb] in Hrow.
  destruct (match pick_english (nc_descriptions cve) with Some s => Some <$> first_sentence s | None => Some None end)
    as [summary|]; [|done].
  destruct (extract_severity cve) as [score severity]. injection Hrow as <-. cbn.
  rewrite lookup_insert_eq. eexists. split; [done|]. by destruct (vulnerabilities t !! nc_id cve).
Qed.

(** ** GitHub's version ranges *)

Inductive bound : Type :=
| AtLeast (v : str)
| Above (v : str)
| AtMost (v : str)
| Below (v : str)
| Exactly (v : str).

Definition bound_version (c : bound) : str :=
  match c with AtLeast v | Above v | AtMost v | Below v | Exactly v => v end.

Definition bound_text (c : bound) : str :=
  match c with
  | AtLeast v => ">= " ++ v
  | Above v => "> " ++ v
  | AtMost v => "<= " ++ v
  | Below v => "< " ++ v
  | Exactly v => "= " ++ v
  end.

Definition add_bound (b : Bounds) (c : bound) : Bounds :=
  let '(i, f, l) := b in
  match c with
  | AtLeast v | Above v => (Some v, f, l)
  | AtMost v => (i, f, Some v)
  | Below v => (i, Some v, l)
  | Exactly v => (Some v, f, Some v)
  end.

(** A version as advisories write it: visible characters, no comma. *)
Definition plain_version (v : str) : bool :=
  non_empty v && forallb (fun c => graphic c && negb (byte_eqb c ","%char)) v.

Lemma plain_ends v :
  plain_version v = true ->
  exists c m m' d, v = c :: m /\ v = m' ++ [d] /\ graphic c = true /\ graphic d = true.
Proof.
  unfold plain_version. intros [Hn Hv]%andb_prop. rewrite forallb_forall in Hv.
  destruct v as [|c m]; [done|]. destruct (exists_last (l := c :: m)) as (m' & d & Hd); [done|].
  exists c, m, m', d. split; [done|]. split; [done|].
  split; [apply (proj1 (andb_prop _ _ (Hv c ltac:(by left))))|].
  apply (proj1 (andb_prop _ _ (Hv d ltac:(rewrite Hd; apply in_or_app; right; by left)))).
Qed.

Lemma trim_space s c m m' d :
  s = c :: m -> s = m' ++ [d] -> graphic c = true -> graphic d = true -> trim (" "%char :: s) = s.
Proof.
  intros Hc Hd Gc Gd. transitivity (trim s); [reflexivity|]. by eapply trim_graphic.
Qed.

Lemma trim_version v : plain_version v = true -> trim (" "%char :: v) = v.
Proof. intros (c & m & m' & d & H1 & H2 & H3 & H4)%plain_ends. by eapply trim_space. Qed.

Lemma bound_text_ends x :
  plain_version (bound_version x) = true ->
  exists c m m' d, bound_text x = c :: m /\ bound_text x = m' ++ [d] /\ graphic c = true /\ graphic d = true.
Proof.
  intros (c & m & m' & d & _ & H2 & _ & H4)%plain_ends.
  destruct x; cbn in H2 |- *; rewrite H2; do 2 eexists; eexists (_ ++ m'); exists d;
    (split; [done|]; split; [|done]).
  - instantiate (1 := [_; _; _]). done.
  - instantiate (1 := [_; _]). done.
  - instantiate (1 := [_; _; _]). done.
  - instantiate (1 := [_; _]). done.
  - instantiate (1 := [_; _]). done.
Qed.

(** Decide the comparisons of literal characters. *)
Ltac literal_bytes :=
  repeat match goal with
         | |- context [byte_eqb ?a ?b] =>
             let v := eval vm_compute in (byte_eqb a b) in change (byte_eqb a b) with v; cbv beta iota
         end.

Lemma parse_part_bound b x :
  plain_version (bound_version x) = true ->
  parse_part b (bound_text x) = add_bound b x /\ parse_part b (" "%char :: bound_text x) = add_bound b x.
Proof.
  intros Hx. destruct (bound_text_ends x Hx) as (c & m & m' & d & H1 & H2 & H3 & H4).
  assert (Hgoal : forall part, trim part = bound_text x -> parse_part b part = add_bound b x).
  { intros part Hp. unfold parse_part. destruct b as [[i f] l]. rewrite Hp.
    destruct x as [v|v|v|v|v]; cbn [bound_version] in Hx; cbn -[trim];
      literal_bytes; by rewrite !trim_version. }
  split; apply Hgoal; [by eapply trim_graphic|by eapply trim_space].
Qed.

Definition range_text (cs : list bound) : str := join_with ", " (map bound_text cs).

Lemma bound_text_comma x : plain_version (bound_version x) = true -> free_of ","%char (bound_text x) = true.
Proof.
  unfold plain_version, free_of. intros [_ H]%andb_prop.
  assert (Hf : forallb (fun c => negb (byte_eqb c ","%char)) (bound_version x) = true).
  { eapply forallb_impl; [|exact H]. intros c. by intros [_ ?]%andb_prop. }
  by destruct x; cbn in Hf |- *; rewrite Hf.
Qed.

Lemma split_range_text x cs :
  forallb (fun c => plain_version (bound_version c)) (x :: cs) = true ->
  split_on ","%char (range_text (x :: cs)) = bound_text x :: map (fun c => " "%char :: bound_text c) cs.
Proof.
  unfold range_text. revert x. induction cs as [|y cs IH]; intros x; cbn [forallb].
  - intros [Hx _]%andb_prop. cbn [map join_with]. apply split_on_free. by apply bound_text_comma.
  - intros [Hx Hcs]%andb_prop. specialize (IH y Hcs).
    change (join_with ", " (map bound_text (x :: y :: cs)))
      with (bound_text x ++ ","%char :: " "%char :: join_with ", " (map bound_text (y :: cs))).
    rewrite split_on_app by (by apply bound_text_comma). f_equal. cbn [split_on].
    change (byte_eqb " "%char ","%char) with false. cbv beta iota. by rewrite IH.
Qed.

(** What is parsed from the text of a list of bounds. *)
Lemma parse_range_text cs patched :
  forallb (fun c => plain_version (bound_version c)) cs = true -> cs <> [] ->
  parse_range (Some (range_text cs)) patched =
  let '(i, f, l) := fold_left add_bound cs (None, None, None) in
  (i, match f with Some f => Some f | None => patched end, l).
Proof.
  destruct cs as [|x cs]; [done|]. intros H _. unfold parse_range. rewrite split_range_text by done.
  cbn [forallb] in H. apply andb_prop in H as [Hx Hcs]. cbn [fold_left].
  rewrite (proj1 (parse_part_bound _ x Hx)). generalize (add_bound (None, None, None) x) as b.
  induction cs as [|y cs IH]; intros b; [done|]. cbn [forallb] in Hcs. apply andb_prop in Hcs as [Hy Hcs].
  cbn [map fold_left]. rewrite (proj2 (parse_part_bound b y Hy)). by apply IH.
Qed.

Section ghsa.
Context (compare : Comparator) `{!LawfulCompare compare} (v : str).

Definition meets (c : bound) : Prop :=
  match c with
  | AtLeast b => version_le compare b v
  | Above b => version_lt compare b v
  | AtMost b => version_le compare v b
  | Below b => version_lt compare v b
  | Exactly b => compare v b = Ok Eq
  end.

Definition within (b : Bounds) : Prop :=
  let '(i, f, l) := b in
  (forall x, i = Some x -> version_le compare x v) /\ (forall x, f = Some x -> version_lt compare v x) /\
  (forall x, l = Some x -> version_le compare v x).

Lemma add_bound_within b c : within b -> meets c -> within (add_bound b c).
Proof.
  destruct b as [[i f] l]. intros (Hi & Hf & Hl) Hc.
  destruct c; cbn in Hc |- *; repeat split; try done; intros x [= <-]; try done.
  - by left.
  - apply version_le_ge; [done|]. by left.
  - by right.
Qed.

Lemma add_bounds_within cs b : within b -> Forall meets cs -> within (fold_left add_bound cs b).
Proof.
  revert b. induction cs as [|c cs IH]; intros b Hb Hcs; [done|]. inversion Hcs. subst. cbn.
  apply IH; [by apply add_bound_within|done].
Qed.
End ghsa.

(** No affected version is missed: a version that meets every bound of a GitHub
    range, and is older than the first patched version if one is named, is in
    the range that is stored. *)
Theorem ghsa_range_complete (compare : Comparator) (Hcompare : LawfulCompare compare) (v : str)
    (node : GhsaVulnerabilityNode) (cs : list bound) (r : AffectedRangeRow)
    (Hplain : forallb (fun c => plain_version (bound_version c)) cs = true) (Hcs : cs <> [])
    (Hrange : gv_range node = Some (range_text cs)) (Hrow : vuln_node_to_range node = Some r)
    (Hmeets : Forall (meets compare v) cs)
    (Hpatched : forall p, gv_first_patched node = Some p -> version_lt compare v p) :
  in_range compare v (bounds_row r) = true.
Proof.
  unfold vuln_node_to_range in Hrow. destruct (ghsa_ecosystem_to_ours (gv_ecosystem node)) as [eco|]; [|done].
  rewrite Hrange, parse_range_text in Hrow by done.
  pose proof (add_bounds_within compare v cs (None, None, None) ltac:(done) Hmeets) as Hw.
  destruct (fold_left add_bound cs (None, None, None)) as [[i f] l]. destruct Hw as (Hi & Hf & Hl).
  injection Hrow as <-. apply in_range_iff; [done|]. cbn. repeat split.
  - intros x Hx _. by apply Hi.
  - intros x Hx. destruct f; [by apply Hf|by apply Hpatched].
  - done.
Qed.

(** ** Runs *)

Section runs.
Context {N : Type} (lib : IngestLib) (fault : nat -> option str) (clock : nat -> Z).
Context (nvd_send : NvdRequest -> M N str HttpResponse).

Abbreviation Ing := (M (IngestWorld N) halt).
Abbreviation On := (fun (P : VulnTables -> Prop) (w : IngestWorld N) => P (ig_tables w)).

Lemma sql_keeps {A} (P : VulnTables -> Prop) (f : Z -> VulnTables -> VulnTables * A) :
  (forall now t, P t -> P (f now t).1) -> preserves (On P) (sql fault clock f).
Proof.
  intros Hf w Hw. unfold exec, sql. destruct (fault (ig_statements w)); [done|].
  specialize (Hf (clock (ig_statements w)) _ Hw). by destruct (f _ _).
Qed.

Lemma counted_keeps (P : VulnTables -> Prop) (m : Ing unit) : preserves (On P) m -> preserves (On P) (counted m).
Proof.
  intros Hm w Hw. specialize (Hm w Hw). unfold exec, counted in *. by destruct (m w) as [w' [u|[]]].
Qed.

Lemma set_stats_keeps P f : preserves (E := halt) (On P) (set_stats f).
Proof. by apply preserves_modify. Qed.

Lemma note_modified_keeps P t : preserves (E := halt) (On P) (note_modified t).
Proof. destruct t; [by apply preserves_modify|apply preserves_ret]. Qed.

Lemma from_net_keeps {A} P (m : M N halt A) : preserves (On P) (from_net m).
Proof. intros w Hw. unfold exec, from_net. by destruct (m (ig_net w)). Qed.

Lemma nvd_item_keeps (P : VulnTables -> Prop) cve :
  (forall row t, P t -> P (put_metadata row t)) -> preserves (On P) (nvd_item fault clock cve).
Proof.
  intros HP. unfold nvd_item. destruct (normalise_nvd cve) as [[row|]|]; [|apply set_stats_keeps|apply preserves_throw].
  apply preserves_bind; [apply note_modified_keeps|]. intros _. apply counted_keeps, sql_keeps. intros now t Ht. by apply HP.
Qed.

Lemma ingest_window_keeps (P : VulnTables -> Prop) cfg start finish idx fuel :
  (forall row t, P t -> P (put_metadata row t)) ->
  preserves (On P) (ingest_window lib fault clock nvd_send cfg start finish idx fuel).
Proof.
  intros HP. revert idx. induction fuel as [|fuel IH]; intros idx; [apply preserves_throw|]. cbn [ingest_window].
  apply preserves_bind; [apply from_net_keeps|]. intros [total page].
  apply preserves_bind; [apply preserves_for_each; intros; by apply nvd_item_keeps|]. intros _.
  destruct (_ || _); [apply preserves_ret|apply IH].
Qed.

Lemma update_cursor_keeps (P : VulnTables -> Prop) source etag m stats error :
  (forall c t, P t -> P (mkVulnTables (vulnerabilities t) (affected_ranges t) c)) ->
  preserves (On P) (update_cursor fault clock source etag m stats error).
Proof. intros HP. apply sql_keeps. intros now t Ht. by apply HP. Qed.

Lemma persist_keeps (P : VulnTables -> Prop) {A} source h :
  (forall c t, P t -> P (mkVulnTables (vulnerabilities t) (affected_ranges t) c)) ->
  preserves (On P) (persist_and_fail (A := A) fault clock source h).
Proof.
  intros HP. destruct h; try apply preserves_throw. apply preserves_bind; [apply preserves_gets|]. intros w.
  apply preserves_bind; [by apply update_cursor_keeps|]. intros _. apply preserves_throw.
Qed.

Lemma nvd_windows_keeps (P : VulnTables -> Prop) cfg cursor now pages fuel :
  (forall row t, P t -> P (put_metadata row t)) ->
  (forall c t, P t -> P (mkVulnTables (vulnerabilities t) (affected_ranges t) c)) ->
  preserves (On P) (nvd_windows lib fault clock nvd_send cfg cursor now pages fuel).
Proof.
  intros HP HC. revert cursor. induction fuel as [|fuel IH]; intros cursor; cbn [nvd_windows];
    destruct (cursor <? now); try apply preserves_ret; [apply preserves_throw|].
  intros w Hw. pose proof (ingest_window_keeps P cfg cursor (window_end cursor now) 0 pages HP w Hw) as H.
  unfold exec in *. destruct (ingest_window _ _ _ _ _ _ _ _ _ w) as [w' [u|h]]; [by apply IH|].
  by apply (persist_keeps P "nvd" h HC w').
Qed.

(** ** Runs that come to an end *)

Definition finishes {S A} (m : M S halt A) : Prop := forall s, eval m s <> Err Unfinished.

Lemma finishes_bind {S A B} (m : M S halt A) (k : A -> M S halt B) :
  finishes m -> (forall a, finishes (k a)) -> finishes (bind m k).
Proof.
  intros Hm Hk s. specialize (Hm s). unfold eval, bind in *. destruct (m s) as [s' [a|h]]; [apply Hk|].
  cbn in *. congruence.
Qed.

Lemma finishes_ok {S A} (m : M S halt A) : (forall s, exists a, eval m s = Ok a) -> finishes m.
Proof. intros H s. destruct (H s) as [a ->]. done. Qed.

Lemma finishes_for_each {S A} (l : list A) (f : A -> M S halt unit) :
  (forall x, finishes (f x)) -> finishes (for_each l f).
Proof.
  intros Hf. induction l as [|x l IH]; [by intros s|]. cbn. by apply finishes_bind.
Qed.

Lemma sql_finishes {A} (f : Z -> VulnTables -> VulnTables * A) : finishes (sql (N := N) fault clock f).
Proof. intros w. unfold eval, sql. destruct (fault _); [done|]. by destruct (f _ _). Qed.

Lemma counted_finishes (m : Ing unit) : finishes m -> finishes (counted m).
Proof. intros Hm w. specialize (Hm w). unfold eval, counted in *. by destruct (m w) as [w' [u|[]]]. Qed.

Lemma nvd_item_finishes cve : finishes (nvd_item (N := N) fault clock cve).
Proof.
  unfold nvd_item. destruct (normalise_nvd cve) as [[row|]|]; [|by intros w..].
  apply finishes_bind; [by destruct (vr_modified_at row)|]. intros _. apply counted_finishes, sql_finishes.
Qed.

Lemma nvd_fetch_finishes cfg start finish idx : finishes (nvd_fetch_page lib nvd_send cfg start finish idx).
Proof.
  apply finishes_bind.
  - intros n. unfold eval, rethrow. by destruct (nvd_send _ n) as [n' [r|e]].
  - intros resp n. unfold eval, decode. destruct (_ && _); [done|]. destruct (rs_bytes resp); [|done].
    by destruct (gl_parse lib a ≫= _).
Qed.

Lemma from_net_finishes {A} (m : M N halt A) : finishes m -> finishes (from_net m).
Proof. intros Hm w. specialize (Hm (ig_net w)). unfold eval, from_net in *. by destruct (m (ig_net w)). Qed.

(** A bound on the totals the interface reports. *)
Context (T : Z) (Htotal : forall cfg start finish idx n total page,
  eval (nvd_fetch_page lib nvd_send cfg start finish idx) n = Ok (total, page) -> total <= T).

Lemma window_finishes cfg start finish idx fuel :
  T - idx < Z.of_nat fuel -> 0 < Z.of_nat fuel ->
  finishes (ingest_window lib fault clock nvd_send cfg start finish idx fuel).
Proof.
  revert idx. induction fuel as [|fuel IH]; intros idx Hf Hp; [lia|]. cbn [ingest_window].
  intros w. unfold eval, bind at 1, from_net.
  pose proof (nvd_fetch_finishes cfg start finish idx (ig_net w)) as Hfetch.
  pose proof (Htotal cfg start finish idx (ig_net w)) as Ht. unfold eval in Hfetch, Ht.
  destruct (nvd_fetch_page lib nvd_send cfg start finish idx (ig_net w)) as [n' [[total page]|h]]; cbn in *;
    [|congruence].
  specialize (Ht total page eq_refl).
  refine (finishes_bind (for_each page (nvd_item fault clock)) _ _ _ _);
    [apply finishes_for_each, nvd_item_finishes|]. intros _.
  destruct ((Z.of_nat (length page) =? 0) || (total <=? idx + Z.of_nat (length page))) eqn:E; [by intros w'|].
  apply orb_false_iff in E as [E1%Z.eqb_neq E2%Z.leb_gt]. apply IH; lia.
Qed.

Lemma persist_finishes {A} source h : h <> Unfinished -> finishes (persist_and_fail (N := N) (A := A) fault clock source h).
Proof.
  intros Hh. destruct h; [|by intros w|done]. apply finishes_bind; [by intros w|]. intros w.
  apply finishes_bind; [apply sql_finishes|]. by intros _ w'.
Qed.

Lemma windows_finish cfg cursor now pages fuel :
  T < Z.of_nat pages -> 0 < Z.of_nat pages ->
  (cursor < now -> (now - cursor) / (MAX_WINDOW_DAYS * day_ns) < Z.of_nat fuel) ->
  finishes (nvd_windows lib fault clock nvd_send cfg cursor now pages fuel).
Proof.
  intros HT Hpages. revert cursor. induction fuel as [|fuel IH]; intros cursor Hf; cbn [nvd_windows];
    destruct (Z.ltb_spec cursor now) as [Hlt|Hge]; try (by intros w).
  - specialize (Hf Hlt). pose proof (Z.div_pos (now - cursor) (MAX_WINDOW_DAYS * day_ns)). unfold MAX_WINDOW_DAYS, day_ns in *. lia.
  - intros w. pose proof (window_finishes cfg cursor (window_end cursor now) 0 pages ltac:(lia) Hpages w) as Hw.
    unfold eval in *. destruct (ingest_window _ _ _ _ _ _ _ _ _ w) as [w' [u|h]].
    + apply IH. intros Hlt'. specialize (Hf Hlt). unfold window_end in *.
      destruct (Z.min_spec (cursor + MAX_WINDOW_DAYS * day_ns) now) as [[H1 H2]|[H1 H2]]; rewrite H2 in *; [|lia].
      replace (now - (cursor + MAX_WINDOW_DAYS * day_ns)) with (now - cursor + (-1) * (MAX_WINDOW_DAYS * day_ns)) by lia.
      rewrite Z.div_add by (unfold MAX_WINDOW_DAYS, day_ns; lia). lia.
    + apply (persist_finishes "nvd" h). cbn in Hw. congruence.
Qed.
End runs.

(** NVD only adds metadata: whatever the interface answers and whichever
    statements fail, a run leaves the ranges of the other feeds as they are. *)
Theorem nvd_keeps_ranges {N} (lib : IngestLib) (fault : nat -> option str) (clock : nat -> Z)
    (nvd_send : NvdRequest -> M N str HttpResponse) (cfg : NvdConfig) (now : Z) (pages : nat) (w : IngestWorld N) :
  affected_ranges (ig_tables (exec (nvd_run lib fault clock nvd_send cfg now pages) w)) =
  affected_ranges (ig_tables w).
Proof.
  revert w. assert (Hk : forall R, preserves (fun w : IngestWorld N => affected_ranges (ig_tables w) = R)
                                (nvd_run lib fault clock nvd_send cfg now pages)).
  { intros R. apply (preserves_bind (fun w : IngestWorld N => affected_ranges (ig_tables w) = R)).
    - by apply (sql_keeps fault clock (fun t => affected_ranges t = R)).
    - intros stored. apply preserves_bind; [by apply preserves_modify|]. intros _. apply preserves_bind.
      + by apply (nvd_windows_keeps lib fault clock nvd_send (fun t => affected_ranges t = R)).
      + intros _. apply preserves_bind; [apply preserves_gets|]. intros w'. apply preserves_bind; [|intros; apply preserves_ret].
        by apply (update_cursor_keeps fault clock (fun t => affected_ranges t = R)). }
  intros w. by apply Hk.
Qed.

(** A run comes to its end if the interface reports no more than [T] results:
    [T + 1] pages for a window are enough, and the windows need no more steps
    than they are given. *)
Theorem nvd_terminates {N} (lib : IngestLib) (fault : nat -> option str) (clock : nat -> Z)
    (nvd_send : NvdRequest -> M N str HttpResponse) (cfg : NvdConfig) (now T : Z) (w : IngestWorld N)
    (Htotal : forall cfg start finish idx n total page,
       eval (nvd_fetch_page lib nvd_send cfg start finish idx) n = Ok (total, page) -> total <= T) :
  eval (nvd_run lib fault clock nvd_send cfg now (Z.to_nat T + 1)) w <> Err Unfinished.
Proof.
  revert w. change (finishes (nvd_run lib fault clock nvd_send cfg now (Z.to_nat T + 1))).
  apply finishes_bind; [apply sql_finishes|]. intros stored. apply finishes_bind; [by intros w|]. intros _.
  apply finishes_bind.
  - apply (windows_finish lib fault clock nvd_send T Htotal); [lia..|]. intros Hlt. unfold window_fuel.
    set (start := match stored with Some ts => ts | None => _ end) in *.
    pose proof (Z.div_pos (now - start) (MAX_WINDOW_DAYS * day_ns) ltac:(lia) ltac:(done)). lia.
  - intros _. apply finishes_bind; [by intros w|]. intros w. apply finishes_bind; [apply sql_finishes|]. by intros _ w'.
Qed.

(** ** What a failed run leaves behind *)

(** The entity tag is stored once the archive has arrived, before it is read:
    if the archive does not open, the run fails without an advisory, and the
    next run, seeing the same tag, returns success and skips the download. *)
Theorem osv_failed_archive_skipped {N} (lib : IngestLib) (clock : nat -> Z) (resp : HttpResponse) (etag e : str)
    (download : result (result (list ZipEntry) str) ScanError) (w : IngestWorld N)
    (Hstatus : rs_status resp = 200) (Hetag : header_get "etag" (rs_headers resp) = Some etag)
    (Hnew : ingest_cursor (ig_tables w) !! ("osv" : str) = None) :
  let run := osv_run lib (fun _ => None) clock in
  let first := mkOsvTurn (Ok resp) (Ok (Err e)) in
  let second := mkOsvTurn (Ok resp) download in
  let w1 := exec (run first) w in
  let w2 := exec (run second) w1 in
  (exists h, eval (run first) w = Err h) /\ eval (run second) w1 = Ok stats_zero /\
  vulnerabilities (ig_tables w2) = vulnerabilities (ig_tables w) /\
  affected_ranges (ig_tables w2) = affected_ranges (ig_tables w).
Proof.
  intros run first second w1 w2.
  assert (H1 : exists h, run first w = (w1, Err h) /\ vulnerabilities (ig_tables w1) = vulnerabilities (ig_tables w) /\
                affected_ranges (ig_tables w1) = affected_ranges (ig_tables w) /\
                ingest_cursor (ig_tables w1) !! ("osv" : str) ≫= cu_etag = Some etag).
  { subst w1. unfold exec, run, osv_run, osv_head, first, bind. cbn [ot_head]. rewrite Hstatus. change ((400 <=? 200) && (200 <? 600)) with false. rewrite Hetag. cbv iota.
    change (ret (Some etag) w) with (w, @Ok _ halt (Some etag)). unfold stored_etag, sql. cbv beta iota zeta. rewrite Hnew. cbn.
    eexists. split_and!; [done..|]. unfold put_cursor. cbn. by rewrite Hnew, lookup_insert_eq. }
  destruct H1 as (h & H1 & Hv & Hr & Hc).
  assert (H2 : exists w', run second w1 = (w', Ok stats_zero) /\
                vulnerabilities (ig_tables w') = vulnerabilities (ig_tables w1) /\
                affected_ranges (ig_tables w') = affected_ranges (ig_tables w1)).
  { unfold run, osv_run, osv_head, second, bind. cbn [ot_head]. rewrite Hstatus. change ((400 <=? 200) && (200 <? 600)) with false. rewrite Hetag. cbv iota.
    change (ret (Some etag) w1) with (w1, @Ok _ halt (Some etag)). unfold stored_etag, sql. cbv beta iota zeta. rewrite Hc.
    cbn [same_etag]. rewrite str_eqb_refl. eexists. by split_and!. }
  destruct H2 as (w' & H2 & Hv' & Hr'). unfold w2, eval, exec. rewrite H1, H2. cbn.
  split_and!; [by eexists|done|congruence..].
Qed.

(** The cursor follows the newest modification date seen, also when the row
    could not be written: what failed is not asked for again. *)
Theorem nvd_failed_write_passed_over {N} (fault : nat -> option str) (clock : nat -> Z) (cve : NvdCve)
    (row : VulnerabilityRow) (t : Z) (w : IngestWorld N)
    (Hrow : normalise_nvd cve = Some (Some row)) (Ht : vr_modified_at row = Some t)
    (Hfault : is_Some (fault (ig_statements w))) :
  let w' := exec (nvd_item fault clock cve) w in
  eval (nvd_item fault clock cve) w = Ok tt /\ ig_tables w' = ig_tables w /\
  ig_stats w' = one_error (ig_stats w) /\ ig_max_modified w' = Z.max (ig_max_modified w) t.
Proof.
  destruct Hfault as [e He]. unfold eval, exec, nvd_item. rewrite Hrow, Ht. cbn. unfold bind. cbn.
  unfold counted, write_advisory_metadata_only, sql. cbn. rewrite He. cbn. split_and!; [done..|].
  destruct (Z.ltb_spec (ig_max_modified w) t); lia.
Qed.

Lemma first_sentence_ascii (s : str) : forallb (fun c => negb (is_cont (byte_val c))) s = true -> is_Some (first_sentence s).
Proof.
  intros Hs. assert (Hb : forall i, (i <= length s)%nat -> is_char_boundary s i = true).
  { intros i Hi. unfold is_char_boundary. destruct (Nat.eqb_spec i (length s)) as [->|Hne]; [by rewrite orb_true_r|].
    rewrite orb_false_r. replace (i <? length s)%nat with true by (symmetry; apply Nat.ltb_lt; lia).
    destruct (lookup_lt_is_Some_2 s i ltac:(lia)) as [c Hc]. unfold safe_get. rewrite Hc.
    rewrite forallb_forall in Hs. rewrite (Hs c); [by rewrite orb_true_r|].
    by eapply list_elem_of_In, list_elem_of_lookup_2. }
  unfold first_sentence. destruct (split_once_str ". " s) as [[before rest]|] eqn:E.
  - apply split_once_str_app in E. destruct (Nat.ltb_spec (length before) 200); rewrite Hb; eauto.
    + subst s. rewrite !length_app. cbn. lia.
    + lia.
  - rewrite Hb by lia. eauto.
Qed.

(** The two hundredth byte of [wide] is inside a character. *)
Definition wide : str := "a" ++ flat_map (fun _ => [ascii_of_N 195; ascii_of_N 169]) (seq 0 150).

Example first_sentence_panics : from_utf8 wide = Some wide /\ first_sentence wide = None.
Proof. split; vm_compute; reflexivity. Qed.

(** A record whose summary panics ends the task of its feed: the run that meets
    it is the last the scheduler starts. *)
Theorem nvd_panic_ends_schedule {N} (lib : IngestLib) (clock : nat -> Z)
    (nvd_send : NvdRequest -> M N str HttpResponse) (cfg : NvdConfig) (now : Z) (pages : nat) (w : IngestWorld N)
    (cve : NvdCve) (page : list NvdCve) (total start : Z) (n' : N)
    (runs : list (M (IngestWorld N) halt IngestStats))
    (Hstart : ingest_cursor (ig_tables w) !! ("nvd" : str) ≫= cu_last_modified = Some start)
    (Hbefore : start * 1000 < now)
    (Hpage : nvd_fetch_page lib nvd_send cfg (start * 1000) (window_end (start * 1000) now) 0 (ig_net w) =
             (n', Ok (total, cve :: page)))
    (Hpanic : normalise_nvd cve = None) :
  (scheduler (nvd_run lib (fun _ => None) clock nvd_send cfg now (S pages) :: runs) w).2 = 1%nat.
Proof.
  assert (Hrun : exists w', nvd_run lib (fun _ => None) clock nvd_send cfg now (S pages) w = (w', Err Panicked)).
  { unfold nvd_run, stored_last_modified, sql, bind. rewrite Hstart. cbn [fmap option_fmap option_map].
    unfold begin_run, modify. cbv beta iota zeta. unfold window_fuel.
    pose proof (Z.div_pos (now - start * 1000) (MAX_WINDOW_DAYS * day_ns) ltac:(lia) ltac:(done)) as Hd.
    rewrite Z2Nat.inj_add, Nat.add_1_r by lia. cbn [nvd_windows].
    destruct (Z.ltb_spec (start * 1000) now); [|lia]. cbn [ingest_window]. unfold bind, from_net. cbn [ig_net].
    rewrite Hpage. cbn [for_each]. unfold bind, nvd_item. rewrite Hpanic. cbn. eauto. }
  destruct Hrun as [w' Hrun]. cbn [scheduler]. by rewrite Hrun.
Qed.
